(* ===== verification/_CoqProject ===== *)
-Q . S2P
Prelude.v
Words.v
Double.v
SchedOs.v
FairLock.v
TicketLock.v
McsLock.v
RwsLock.v
Arena.v
Ring.v
RingConc.v
RingFree.v
RingItems.v
Slab.v
SlabConc.v
Context.v
PCounter.v
Messaging.v
InitConc.v
MsgConc.v
Pool.v
PoolConc.v
Pages.v
Balancer.v
Affinity.v
AutoBalancer.v
Deque.v
DequeSeq.v
DequeOwner.v
TaskPool.v
TaskPoolInv.v
TaskPoolRun.v
TaskPoolLive.v
HashTable.v
RobinHood.v
HashMap.v
Locked.v
LockedCode.v
Linear.v
RingLin.v
DequeLin.v
HashCode.v
HashLocked.v
SkipList.v
SkipChain.v
SkipMap.v
HeapProg.v
SkipProg.v
SkipConc.v
SkipLocked.v
