(* ===== verification/Prelude.v ===== *)
(** * libnumakit: a verification library

    libnumakit is a C library for NUMA machines.  It gives programs memory that
    lives on a chosen node (arenas, slabs, a size-class pool), locks and counters
    that avoid cross-node traffic, lock-free and locked containers (ring buffer,
    work-stealing deque, hash table, skip list), mailboxes between nodes, a task
    pool and a balancer.  This development models its core in Rocq, translated
    from the sources under src/, and proves what makes each part correct.

    ** The parts and where they are modelled

    - [Words]: the machine integers (64- and 32-bit words as [Z] with the
      wrap-around written out) and the power-of-two, alignment and masking idioms
      all components share, with both [_next_power_of_2] helpers.
    - [FairLock], [TicketLock] (src/sync/ticket_lock.c), [McsLock]
      (src/sync/mcs_lock.c): the contract of a fair lock as a class, an abstract
      FIFO lock, and the two locks as step systems that simulate it.
    - [RwsLock] (src/sync/rws_lock.c): the reader-writer spinlock on its 32-bit
      word.
    - [Arena] (src/memory/arena.c): the bump allocator over [mmap], with the
      hugepage fallback and the NUMA policy calls; the kernel is the record
      [arena_os], and [ArenaOS_ok] states what the code relies on about it.
    - [Ring], [RingConc] (src/structs/ring_buffer.c, ring_buffer.h): the ring as
      sequential code, with the class [BoundedQueue] that states what its clients
      use, and the ring under any number of producers and consumers; [RingFree]:
      the accesses of its calls counted; [RingLin]: its calls against the queue;
      [RingItems]: the items a ring and the threads inside its calls have between
      them, for clients that many threads call.
    - [Slab] (src/memory/slab.c), [Pool] (src/memory/pool.c): fixed-size objects
      over an arena and a [BoundedQueue]; the pool of ten slabs per node, with the
      block headers in an explicit memory that client stores go through;
      [SlabConc], [PoolConc]: the slab and the pool with many callers, over
      [RingConc] and [RingItems].
    - [Pages] (src/memory/migrate.c, src/memory/hugepage_ops.c): the page range
      of a migration, and the huge page size read from the text of /proc/meminfo.
    - [Context] (src/internal.h, src/topology/, the node queries of
      src/sched/affinity.c): the global context as a record and the queries on it.
    - [Messaging] (src/init.c, src/sched/messaging.c): initialisation, teardown
      and the node mailboxes, over [BoundedQueue]; [InitConc]: initialisation
      called by many threads at once; [MsgConc]: the mailboxes with many senders
      and receivers, over [RingConc] and [RingItems].
    - [PCounter] (src/sync/pcounter.c): the counter with one slot per node,
      sequentially and with threads interleaving at every access to a slot.
    - [Deque] (src/structs/deque.c): the Chase-Lev deque with growing arrays and
      the list of retired ones; [DequeSeq]: its calls one at a time, as a list
      with two ends; [DequeLin]: the owner's and the thieves' calls against that
      list; [DequeOwner]: a deque whose owner changes between calls.
    - [Double], [SchedOs]: binary64 arithmetic with its rounding error, for the
      ratio both balancers compare; a monad for calls to the kernel and to
      libnuma, and the class [SchedOS_ok] of what the code relies on about them.
    - [Affinity] (src/sched/affinity.c): the policies, launching, the trampoline
      and join as a step system, the pinning calls.
    - [Balancer] (src/sched/balancer.c), [AutoBalancer]
      (src/sched/auto_balancer.c): a thread's own counters and the advice; the
      registry and the monitor thread as a step system.
    - [TaskPool] (src/sched/task_pool.c): creation, submission, the workers and
      destroy as a step system over the deque's steps and any [BoundedQueue], whose
      operations may also be refused as [RingLin] says a ring's are;
      [TaskPoolInv]: its invariant; [TaskPoolRun]: creation and what holds in its
      runs; [TaskPoolLive]: a worker finds a waiting task.
    - [HashTable], [RobinHood], [HashMap] (src/structs/hash_table.c): the
      operations, the probing invariant, and the refinement to a finite map, with
      the memory given or refused at each call; [Locked], [LockedCode]: calls behind
      the lock of [McsLock], and critical sections as trees of single accesses with
      a weakest precondition; [HashCode]: put, get and remove as such trees;
      [HashLocked]: the table with many callers; [Linear]: what it is for calls to act on an
      abstract object one at a time, for [RingLin] and [DequeLin].
    - [SkipList], [SkipChain], [SkipMap] (src/structs/skip_list.c): the operations
      on a heap of linked nodes, the chains of the levels, and the refinement of
      the sharded list to a finite map; [HeapProg]: critical sections as trees of
      accesses, with a weakest precondition and a frame rule; [SkipProg]: put, get
      and remove as such trees; [SkipConc], [SkipLocked]: the list with many
      callers, one MCS lock per shard, on the heap the shards share.

    [Prelude], this file, has what they share: outcomes of C code, transition
    systems with their invariant rules, lemmas on lists as arrays, automation.

    ** How the code is modelled

    Sequential C functions are Rocq functions with the source's names; a pointer
    that may be NULL is an option, an access outside an object or through a bad
    pointer is the outcome [UB].  Concurrent components are executable step
    functions: a thread's program counter names the next access to shared memory
    it will make, with the locals that are live, and a schedule is a list of
    labels that say which thread moves.  Theorems about them hold for every
    schedule and every number of threads.  Memory is sequentially consistent: the
    acquire/release annotations are not distinguished from stronger ones, so
    reorderings that C11 would allow are outside the model.  Weak
    compare-and-swaps may fail spuriously whenever the schedule says so.
    An operation under a lock has the lock's own accesses around its critical
    section, and interleaves at every access it makes there: the hash table's to its
    fields and buckets, a resize included, with the count, which takes no lock
    ([LockedCode], [HashCode]); the skip list's to a shard or a node, with those of
    other shards and with the count ([SkipConc]).  The result of a
    shift by a count outside the word, which C leaves undefined, is a parameter.

    Everything outside the repository is a parameter: the kernel's memory calls,
    [getcpu], libnuma, hwloc and the allocators.  The hypotheses on them are
    documented behaviour only (a mapping is page aligned and below 2^63; live
    mappings do not overlap; an allocator returns distinct blocks).

    ** What the theorems show

    - Containers.  In every interleaving the ring is linearizable to a bounded FIFO
      queue, refusals apart, no two threads touch one cell at the same time, and
      the accesses its calls make are bounded by their number; run alone it is
      that queue for all values of its wrapping counters.  The hash table is a
      finite map through any sequence of operations and doublings, whatever memory
      the system refuses, and its loops terminate, up to a put that finds one slot
      left and cannot grow; with many callers and a slot to spare it is
      linearizable, the count included, which takes no lock.  The skip list is a finite map for
      any random levels, and gives back exactly the memory it took; with many
      callers it is linearizable too, no access goes wrong, and the count reads
      what each shard holds at that moment.  The deque with one owner is
      linearizable to a list with two ends, but for refusals that a theorem lists;
      called one at a time it is that list, failed growths included.
    - Task pool.  As long as the pushes and pops of one deque do not overlap, every
      accepted task runs once with its argument, in every interleaving, and every
      structure comes home; a waiting task is found by any worker that runs alone
      from the top of its loop, in a bounded number of accesses, before destruction
      begins; creation sets up what this needs, with steal orders sorted by distance,
      or releases what it got.  Nothing in the code keeps pushes and pops apart,
      and two theorems show what happens then.
    - Threads and balancers.  Join returns when, and only when, every launched
      thread has run its function; pinning asks for exactly the node's CPUs.  The
      balancers leak no descriptor and no mask; their floating-point decision is
      the exact one but for a relative error of 2^-49; the registry is a bounded
      multiset; the monitor moves threads to the next node only, counts and reports
      every move, from the node on record and with the thread moved as long as
      nobody unregisters, and stops when told to.
    - Pages.  A migration covers the block from its first page to its last byte;
      the huge page size read is the one printed, unless a buffer filled before it
      starts with the key and has a number too.
    - Locks.  The ticket and MCS locks give mutual exclusion in FIFO order and are
      never stuck; the reader-writer lock excludes, counts its readers exactly and
      lets a waiting writer in.
    - Memory.  Blocks handed out by arenas (to requests that cannot wrap the
      watermark), slabs and the pool are disjoint, aligned and inside their mappings; failures happen exactly when they should;
      pool headers survive all client stores into held blocks; coalescing spares
      live data.  With many callers every slot of a slab or of the pool is at every
      moment in exactly one place, its own free-list, a call, a client's hands or
      lost, and the headers stay intact, and the number of free slots reported is
      never too large; a free can lose its block for good, in every slab two threads
      use, and a theorem says exactly when.
    - Initialisation, counter and mailboxes.  However many threads call it, the
      initialisation is done by one of them, once, with the result it has alone; a
      failed attempt leaves the library as it was.  A read of the counter among increments lies between
      its values at the start and the end; run alone the counter is an integer.
      Messages are handled once, in order, and none is lost (processing without a
      limit ends when the handler does not send to its own node); with many senders and
      receivers each is handled once, refused, waiting or in a thread's hands, and
      one receiver handles them in the order they were accepted in.
    - Where the code falls short, theorems say so: the first initialisation leaves
      the mailbox array empty; a thread that loses the race for it is told that all
      is ready when nothing is; a ring can refuse an item it has room for, and say
      it is empty when it is not, while another thread is held up; size computations of arenas, rings and slabs wrap, and an arena's watermark;
      a full hash table that cannot grow makes put run for ever; two poppers of a
      deque can get one item, so that the pool loses tasks and runs others twice;
      destroying the pool drops tasks and frees a deque under a thief, and joins a
      handle nobody wrote when a worker could not be started; a retired
      array can be freed under a thief, and without a list for them the first growth
      writes through NULL; a waiting writer can lose its preference;
      a failed node binding is ignored; a free that meets an allocation halfway
      loses its block; a failed restart of the balancer closes a
      descriptor that is not its own; a thread is moved after it unregistered, and
      the callback can be given another thread than the one moved.

    ** Bounds and fuel

    The ring's interleaving results are for executions of fewer than 2^62 steps,
    in which a 64-bit counter does not come back to an old value while a thread
    sleeps between its load and its compare-and-swap (2^61 for the slab's, the
    pool's and the mailboxes'); the ticket lock has at most
    2^32 threads, so that the tickets in use are distinct; the deque's and the
    task pool's are for fewer than 2^30 steps, in which the array's size does not
    leave its 32 bits.  Creation theorems bound sizes so that the size
    computations do not wrap, and the theorems on wrapping show the bounds
    matter.  Loops with fuel get as much as the proofs show they need: the
    ring's retry loops one turn per spurious failure and one more, the hash
    table's loops one turn per bucket and one more, a skip list's walks one turn
    per node of the heap and one more (with many callers, one per node and per
    step of the schedule), processing one turn per message or per
    unit of the limit, a call of the deque run alone 13 accesses and one per item
    moved, the lines of a file one turn per character; theorems state that this
    fuel gives a result, or (for the full table) that no fuel does.

    ** Not modelled

    Every function of the sources is modelled but [nkit_cpu_pause], a hint to the
    processor.  What is left out of them, and why:

    - The public headers are declarations and documentation; the types they define
      are modelled with the operations.  version.h is empty.
    - Weak memory: the acquire and release annotations are taken as sequentially
      consistent.  Whether they are strong enough is a question about the C11
      memory model, which this development does not have.
    - The pinning of the pool's workers, which changes no state of the pool, and
      the unchecked allocation of hwloc's bitmap in the pinning calls.
    - A task's own effects: a task is its function and its argument.  A message
      handler's are the messages it sends.
    - Teardown and the destroy functions raced by other calls, except the pool's
      and the automatic balancer's, which have threads of their own: the sources
      leave it to the caller that no other call is under way.
    - The balancer's threshold changed while a check reads it: it is one aligned
      double that the machine stores at once, so that a check sees the old value
      or the new one. *)

From stdpp Require Import prelude gmap.
From Stdlib Require Import ZArith Lia.

(** ** Automation shared by the whole development *)

Create HintDb nkit discriminated.
Create HintDb nkit_word discriminated.

(** Splits every boolean comparison in the context and in the goal into the
    proposition it decides, the way the C code branches on it. *)
Ltac cmp_cases :=
  repeat match goal with
  | H : context [Z.eqb ?a ?b] |- _ => destruct (Z.eqb_spec a b)
  | |- context [Z.eqb ?a ?b] => destruct (Z.eqb_spec a b)
  | H : context [Z.leb ?a ?b] |- _ => destruct (Z.leb_spec a b)
  | |- context [Z.leb ?a ?b] => destruct (Z.leb_spec a b)
  | H : context [Z.ltb ?a ?b] |- _ => destruct (Z.ltb_spec a b)
  | |- context [Z.ltb ?a ?b] => destruct (Z.ltb_spec a b)
  end; cbn [andb orb negb] in *.

(** ** Outcomes of C code

    [Ret a] is a normal return; [UB] is an execution that leaves defined
    behaviour (an access outside an object, a use of an invalid handle). *)
Inductive outcome (A : Type) :=
| Ret (a : A)
| UB.
Arguments Ret {A} a.
Arguments UB {A}.

Definition obind {A B} (o : outcome A) (f : A → outcome B) : outcome B :=
  match o with Ret a => f a | UB => UB end.

Notation "'let*' x := o 'in' f" := (obind o (λ x, f))
  (at level 10, x binder, o at level 100, f at level 200) : stdpp_scope.

(** ** Labelled transition systems

    A concurrent component is an executable partial step function on states and
    labels: [step s l = Some s'] when the action [l] is enabled in [s]. *)
Section transition_systems.
Context {St Lbl : Type}.
Variable step : St → Lbl → option St.

(** The state reached by a whole schedule, when every action was enabled. *)
Fixpoint run (s : St) (ls : list Lbl) : option St :=
  match ls with
  | [] => Some s
  | l :: ls => match step s l with Some s' => run s' ls | None => None end
  end.

Inductive reachable (init : St) : St → Prop :=
| reachable_init : reachable init init
| reachable_step s l s' :
    reachable init s → step s l = Some s' → reachable init s'.

Lemma run_reachable_from init s ls s' :
  reachable init s → run s ls = Some s' → reachable init s'.
Proof.
  revert s; induction ls as [|l ls IH]; intros s Hs Hr; simpl in Hr.
  - by simplify_eq.
  - destruct (step s l) as [s1|] eqn:E; [|done].
    apply (IH s1); [|done]. by apply (reachable_step _ s l).
Qed.

Lemma run_reachable init ls s : run init ls = Some s → reachable init s.
Proof. apply run_reachable_from, reachable_init. Qed.

(** Rule induction: an inductive invariant holds in every reachable state. *)
Lemma reachable_invariant (I : St → Prop) init :
  I init → (∀ s l s', I s → step s l = Some s' → I s') →
  ∀ s, reachable init s → I s.
Proof. intros Hi Hs s Hr. induction Hr; eauto. Qed.

Lemma run_app s ls1 ls2 :
  run s (ls1 ++ ls2) = match run s ls1 with Some s' => run s' ls2 | None => None end.
Proof.
  revert s; induction ls1 as [|l ls1 IH]; intros s; simpl; [done|].
  by destruct (step s l).
Qed.
End transition_systems.

(** Systems whose steps also emit events: the state and the trace of a whole
    schedule. *)
Section traced_systems.
Context {St Lbl Ev : Type}.
Variable step : St → Lbl → option (St * list Ev).

Fixpoint traced (s : St) (ls : list Lbl) : option (St * list Ev) :=
  match ls with
  | [] => Some (s, [])
  | l :: ls =>
      match step s l with
      | None => None
      | Some (s1, es1) =>
          match traced s1 ls with
          | None => None
          | Some (s2, es2) => Some (s2, es1 ++ es2)
          end
      end
  end.

Lemma traced_app s ls1 ls2 :
  traced s (ls1 ++ ls2) =
    match traced s ls1 with
    | None => None
    | Some (s1, es1) =>
        match traced s1 ls2 with None => None | Some (s2, es2) => Some (s2, es1 ++ es2) end
    end.
Proof.
  revert s. induction ls1 as [|l ls1 IH]; intros s; cbn [app traced].
  - by destruct (traced s ls2) as [[]|].
  - destruct (step s l) as [[s1 es1]|]; [|done]. rewrite IH.
    destruct (traced s1 ls1) as [[s2 es2]|]; [|done].
    destruct (traced s2 ls2) as [[s3 es3]|]; [|done]. by rewrite app_assoc.
Qed.

(** An invariant that relates the state to the trace so far and to the number
    of steps taken, for schedules whose actions all satisfy [P]. *)
Lemma traced_invariant_on (P : Lbl → Prop) (I : nat → list Ev → St → Prop) init :
  I 0%nat [] init →
  (∀ n es s l s' es', P l → I n es s → step s l = Some (s', es') → I (S n) (es ++ es') s') →
  ∀ ls s es, Forall P ls → traced init ls = Some (s, es) → I (length ls) es s.
Proof.
  intros H0 Hs.
  assert (H : ∀ ls n es0 s0 s es, Forall P ls → I n es0 s0 → traced s0 ls = Some (s, es) →
              I (n + length ls)%nat (es0 ++ es) s).
  { induction ls as [|l ls IH]; intros n es0 s0 s es Hp Hi Hr; simpl in Hr.
    - simplify_eq. by rewrite Nat.add_0_r, app_nil_r.
    - apply Forall_cons in Hp as [Hl Hp]. destruct (step s0 l) as [[s1 es1]|] eqn:E1; [|done].
      destruct (traced s1 ls) as [[s2 es2]|] eqn:E2; [|done]. simplify_eq.
      simpl. rewrite <-Nat.add_succ_comm, app_assoc. eapply IH; eauto. }
  intros ls s es Hp Hr. by apply (H ls 0%nat [] init s es).
Qed.

(** The same for runs that only go through states that satisfy [H]. *)
Lemma traced_invariant_when (H : St → Prop) (P : Lbl → Prop) (I : nat → list Ev → St → Prop) init :
  I 0%nat [] init →
  (∀ n es s l s' es', H s → P l → I n es s → step s l = Some (s', es') → I (S n) (es ++ es') s') →
  ∀ ls s es, (∀ ls1 ls2 s1 es1, ls = ls1 ++ ls2 → traced init ls1 = Some (s1, es1) → H s1) →
  Forall P ls → traced init ls = Some (s, es) → I (length ls) es s.
Proof.
  intros H0 Hs ls. induction ls as [|l ls IH] using rev_ind; intros s es Hall HP Hr; [by simplify_eq/=|].
  rewrite traced_app in Hr. destruct (traced init ls) as [[s1 es1]|] eqn:E1; [|done]. cbn [traced] in Hr.
  destruct (step s1 l) as [[s2 es2]|] eqn:E2; [|done]. simplify_eq. apply Forall_app in HP as [HP [Hl _]%Forall_cons].
  rewrite length_app, Nat.add_comm, app_nil_r. apply (Hs _ es1 s1 l); auto.
  - by apply (Hall ls [l] s1 es1).
  - apply IH; auto. intros ls1 ls2 s0 es0 ->. rewrite <-app_assoc in Hall. by apply (Hall ls1 (ls2 ++ [l])).
Qed.

Lemma traced_invariant (I : nat → list Ev → St → Prop) init :
  I 0%nat [] init →
  (∀ n es s l s' es', I n es s → step s l = Some (s', es') → I (S n) (es ++ es') s') →
  ∀ ls s es, traced init ls = Some (s, es) → I (length ls) es s.
Proof.
  intros H0 Hs ls s es. apply (traced_invariant_on (λ _, True)); eauto.
  by apply Forall_true.
Qed.
End traced_systems.

(** ** Lists as arrays *)
Section arrays.
Context {A : Type}.
Implicit Types (l : list A) (x y : A).

(** Overwriting slot [i] exchanges the old element for the new one. *)
Lemma insert_permutation l i x y :
  l !! i = Some y → y :: <[i:=x]> l ≡ₚ x :: l.
Proof.
  intros Hi. rewrite (insert_take_drop l i x) by by eapply lookup_lt_Some.
  rewrite <-(take_drop_middle l i y Hi) at 3.
  rewrite <-!Permutation_middle. apply Permutation_swap.
Qed.

Lemma filter_insert_permutation (P : A → Prop) `{!∀ a, Decision (P a)} l i x y :
  l !! i = Some y →
  filter P [y] ++ filter P (<[i:=x]> l) ≡ₚ filter P [x] ++ filter P l.
Proof.
  intros Hi. rewrite <-!filter_app. simpl.
  by rewrite (insert_permutation l i x y Hi).
Qed.

Lemma filter_all (P : A → Prop) `{!∀ a, Decision (P a)} l : (∀ x, x ∈ l → P x) → filter P l = l.
Proof.
  induction l as [|x l IH]; intros Hl; [done|]. rewrite filter_cons_True by (apply Hl; left). f_equal.
  apply IH. intros y Hy. apply Hl. by right.
Qed.

Lemma filter_none (P : A → Prop) `{!∀ a, Decision (P a)} l : (∀ x, x ∈ l → ¬ P x) → filter P l = [].
Proof.
  induction l as [|x l IH]; intros Hl; [done|]. rewrite filter_cons_False by (apply Hl; left).
  apply IH. intros y Hy. apply Hl. by right.
Qed.

(** A property of all slots after an update. *)
Lemma forall_insert (P : nat → A → Prop) l i x :
  P i x → (∀ j y, j ≠ i → l !! j = Some y → P j y) →
  ∀ j y, <[i:=x]> l !! j = Some y → P j y.
Proof.
  intros Hx Hl j y Hj. destruct (decide (j = i)) as [->|Hne].
  - apply list_lookup_insert_Some in Hj as [(_ & <- & _)|[? _]]; done.
  - rewrite list_lookup_insert_ne in Hj by done. eauto.
Qed.

Lemma lookup_insert_decide l i x j :
  (i < length l)%nat → <[i:=x]> l !! j = if decide (j = i) then Some x else l !! j.
Proof.
  intros Hi. case_decide; subst; [by apply list_lookup_insert_eq|].
  by apply list_lookup_insert_ne.
Qed.

Lemma alter_as_insert (f : A → A) l i x : l !! i = Some x → alter f i l = <[i := f x]> l.
Proof.
  revert i. induction l as [|y l IH]; intros [|i] H; simplify_eq/=; [done|]. f_equal. by apply IH.
Qed.

Lemma alter_alter (f g : A → A) l i : alter f i (alter g i l) = alter (f ∘ g) i l.
Proof. revert i. induction l as [|y l IH]; intros [|i]; simpl; try done. f_equal. apply IH. Qed.

Lemma NoDup_head l x : NoDup l → head l = Some x → l = x :: tail l ∧ x ∉ tail l.
Proof. intros Hnd Hh. destruct l; simplify_eq/=. by apply NoDup_cons in Hnd as [? _]. Qed.

Lemma head_lookup l : head l = l !! 0%nat.
Proof. by destruct l. Qed.
End arrays.

(** ** What the threads of a system hold

    [f pc] is what a thread at [pc] holds; [holdings] is what all of them hold. *)
Section holdings.
Context {A B : Type} (f : A → list B).
Implicit Types (l : list A).

Definition holdings l : list B := l ≫= f.

Lemma holdings_app l1 l2 : holdings (l1 ++ l2) = holdings l1 ++ holdings l2.
Proof. apply bind_app. Qed.

Lemma holdings_none l : (∀ x, x ∈ l → f x = []) → holdings l = [].
Proof.
  unfold holdings. induction l as [|x l IH]; intros H; [done|].
  rewrite bind_cons, (H x), IH by set_solver. done.
Qed.

Lemma holdings_replicate n x : f x = [] → holdings (replicate n x) = [].
Proof. intros Hx. apply holdings_none. by intros y [-> _]%elem_of_replicate. Qed.

(** One thread moves: what it held is exchanged for what it holds now. *)
Lemma holdings_insert l i x y :
  l !! i = Some y → f y ++ holdings (<[i := x]> l) ≡ₚ f x ++ holdings l.
Proof.
  intros Hi. unfold holdings. rewrite <-!bind_cons. by rewrite (insert_permutation l i x y Hi).
Qed.

Lemma holdings_insert_length l i x y :
  l !! i = Some y →
  (length (f y) + length (holdings (<[i := x]> l)) = length (f x) + length (holdings l))%nat.
Proof. intros Hi. rewrite <-!length_app. by rewrite (holdings_insert l i x y Hi). Qed.

Lemma elem_of_holdings l b : b ∈ holdings l ↔ ∃ i x, l !! i = Some x ∧ b ∈ f x.
Proof.
  unfold holdings. rewrite list_elem_of_bind. split.
  - intros (x & Hb & [i Hi]%list_elem_of_lookup). eauto.
  - intros (i & x & Hi & Hb). exists x. split; [done|]. by apply list_elem_of_lookup_2 with i.
Qed.

(** Two threads that hold the same thing are the same thread. *)
Lemma holdings_unique l i j x y b :
  NoDup (holdings l) → l !! i = Some x → l !! j = Some y → b ∈ f x → b ∈ f y → i = j.
Proof.
  revert i j. induction l as [|z l IH]; intros i j Hnd Hi Hj Hx Hy; [done|].
  unfold holdings in Hnd. rewrite bind_cons in Hnd. apply NoDup_app in Hnd as (_ & Hd & Hnd).
  destruct i as [|i], j as [|j]; simplify_eq/=; [done| | |f_equal; eauto];
    exfalso; eapply Hd; eauto; apply elem_of_holdings; eauto.
Qed.
End holdings.

(** ** Permutations by counting

    Goals and hypotheses [l ≡ₚ l'] over concatenations become equations between
    the numbers of occurrences of an arbitrary element. *)
Definition occ {A} `{EqDecision A} (x : A) (l : list A) : nat := length (filter (λ y, y = x) l).

Lemma occ_app {A} `{EqDecision A} (x : A) l1 l2 : occ x (l1 ++ l2) = (occ x l1 + occ x l2)%nat.
Proof. unfold occ. by rewrite filter_app, length_app. Qed.

Lemma occ_cons {A} `{EqDecision A} (x y : A) l : occ x (y :: l) = (occ x [y] + occ x l)%nat.
Proof. apply (occ_app x [y] l). Qed.

Lemma occ_nil {A} `{EqDecision A} (x : A) : occ x [] = 0%nat.
Proof. done. Qed.

Lemma Permutation_occ {A} `{EqDecision A} (l1 l2 : list A) :
  l1 ≡ₚ l2 ↔ ∀ x, occ x l1 = occ x l2.
Proof.
  unfold occ. split; [intros H x; by rewrite H|]. revert l2. induction l1 as [|y l1 IH]; intros l2 H.
  - destruct l2 as [|z l2]; [done|]. specialize (H z). rewrite filter_cons_True in H by done. done.
  - assert (Hin : y ∈ l2).
    { destruct (decide (y ∈ l2)) as [|Hni]; [done|]. specialize (H y).
      rewrite filter_cons_True in H by done. destruct (filter (λ z, z = y) l2) as [|z k] eqn:E; [done|].
      assert (Hz : z ∈ filter (λ z, z = y) l2) by (rewrite E; left).
      apply list_elem_of_filter in Hz as [-> ?]. done. }
    apply elem_of_Permutation in Hin as [k Hk]. rewrite Hk. f_equiv. apply IH. intros x.
    specialize (H x). rewrite Hk in H. rewrite !filter_cons in H. case_decide; cbn in H; lia.
Qed.

Ltac count_perm :=
  apply Permutation_occ; let y := fresh "y" in intros y;
  repeat match goal with
  | H : ?l1 ≡ₚ ?l2 |- _ => apply Permutation_occ with (x := y) in H
  end;
  repeat match goal with
  | H : context [occ y (_ ++ _)] |- _ => rewrite occ_app in H
  | |- context [occ y (_ ++ _)] => rewrite occ_app
  end;
  rewrite ?occ_nil in *; lia.

(** Reduces a lookup in an updated array to the cases of the index. *)
Ltac insert_cases :=
  rewrite ?lookup_insert_decide by (rewrite ?length_insert; done);
  repeat case_decide; subst; try congruence; try done.
