(* ===== verification/Words.v ===== *)
(** * Machine words and bit tricks

    The integer types the C sources use ([size_t], [uint64_t], [uint32_t],
    [intptr_t]) as [Z] with the wrap-around written out, the power-of-two and
    alignment idioms of [src/], and the two [_next_power_of_2] helpers
    (src/structs/hash_table.c, src/sched/task_pool.c). *)

From stdpp Require Import prelude.
From Stdlib Require Import ZArith Lia.
From S2P Require Import Prelude.
Local Open Scope Z_scope.

Declare Scope word_scope.
Delimit Scope word_scope with W.

(** ** Widths *)

Definition u64 (z : Z) : Z := z mod 2 ^ 64.
Definition u32 (z : Z) : Z := z mod 2 ^ 32.

(** Conversion to a signed 64-bit type ([intptr_t], [int64_t], [long]). *)
Definition s64 (z : Z) : Z :=
  let u := u64 z in if u <? 2 ^ 63 then u else u - 2 ^ 64.

Definition is_u64 (z : Z) : Prop := 0 ≤ z < 2 ^ 64.
Definition is_u32 (z : Z) : Prop := 0 ≤ z < 2 ^ 32.

(** [~x] on an unsigned 64-bit operand. *)
Definition not64 (z : Z) : Z := u64 (Z.lnot z).
Definition not32 (z : Z) : Z := u32 (Z.lnot z).

(** Unsigned 64-bit arithmetic as C defines it. *)
Notation "a +w b" := (u64 (a + b)) (at level 50, left associativity) : word_scope.
Notation "a -w b" := (u64 (a - b)) (at level 50, left associativity) : word_scope.
Notation "a *w b" := (u64 (a * b)) (at level 40, left associativity) : word_scope.
Local Open Scope word_scope.

(** ** Powers of two *)

Definition is_pow2 (n : Z) : Prop := ∃ k, 0 ≤ k ∧ n = 2 ^ k.

(** The validation [capacity < 2 || (capacity & (capacity - 1)) != 0] of
    [nkit_ring_create] and [nkit_slab_create], negated. *)
Definition valid_pow2_capacity (c : Z) : bool :=
  negb ((c <? 2) || negb (Z.land c (c -w 1) =? 0)).

(** [v |= v >> s] *)
Definition smear (s v : Z) : Z := Z.lor v (Z.shiftr v s).

(** hash_table.c: [_next_power_of_2(size_t v)]. *)
Definition next_power_of_2 (v : Z) : Z :=
  let v := v -w 1 in
  let v := smear 1 v in
  let v := smear 2 v in
  let v := smear 4 v in
  let v := smear 8 v in
  let v := smear 16 v in
  let v := smear 32 v in
  v +w 1.

(** task_pool.c: [_next_power_of_2(uint32_t v)]. *)
Definition next_power_of_2_u32 (v : Z) : Z :=
  let v := u32 (v - 1) in
  let v := smear 1 v in
  let v := smear 2 v in
  let v := smear 4 v in
  let v := smear 8 v in
  let v := smear 16 v in
  u32 (v + 1).

(** Rounding up to a multiple of a power of two, [(x + a - 1) & ~(a - 1)]. *)
Definition align_up (x a : Z) : Z :=
  Z.land (x +w a -w 1) (not64 (a - 1)).

(** ** Lemmas on widths *)

Lemma u64_range z : is_u64 (u64 z).
Proof. apply Z.mod_pos_bound; lia. Qed.

Lemma u32_range z : is_u32 (u32 z).
Proof. apply Z.mod_pos_bound; lia. Qed.

Lemma u64_small z : is_u64 z → u64 z = z.
Proof. apply Z.mod_small. Qed.

Lemma u32_small z : is_u32 z → u32 z = z.
Proof. apply Z.mod_small. Qed.

Lemma u64_idemp z : u64 (u64 z) = u64 z.
Proof. apply u64_small, u64_range. Qed.

Lemma u64_add_l a b : u64 (u64 a + b) = u64 (a + b).
Proof. apply Zplus_mod_idemp_l. Qed.

Lemma u64_add_r a b : u64 (a + u64 b) = u64 (a + b).
Proof. apply Zplus_mod_idemp_r. Qed.

Lemma u64_sub_l a b : u64 (u64 a - b) = u64 (a - b).
Proof. apply Zminus_mod_idemp_l. Qed.

Lemma u64_sub_r a b : u64 (a - u64 b) = u64 (a - b).
Proof. apply Zminus_mod_idemp_r. Qed.

Lemma u32_add_l a b : u32 (u32 a + b) = u32 (a + b).
Proof. apply Zplus_mod_idemp_l. Qed.

Lemma u64_inj a b : u64 a = u64 b → - 2 ^ 64 < a - b < 2 ^ 64 → a = b.
Proof.
  unfold u64. intros H Hr.
  assert (H0 : (a - b) mod 2 ^ 64 = 0) by (rewrite Zminus_mod, H, Z.sub_diag; done).
  apply Z.mod_divide in H0; [|lia]. destruct H0 as [q Hq]. nia.
Qed.

Lemma u32_inj a b : u32 a = u32 b → - 2 ^ 32 < a - b < 2 ^ 32 → a = b.
Proof.
  unfold u32. intros H Hr.
  assert (H0 : (a - b) mod 2 ^ 32 = 0) by (rewrite Zminus_mod, H, Z.sub_diag; done).
  apply Z.mod_divide in H0; [|lia]. destruct H0 as [q Hq]. nia.
Qed.

Lemma s64_small z : - 2 ^ 63 ≤ z < 2 ^ 63 → s64 z = z.
Proof.
  intros Hz. unfold s64, u64. destruct (Z.le_gt_cases 0 z).
  - rewrite Z.mod_small by lia. cmp_cases; lia.
  - rewrite <-(Z.mod_unique_pos z (2 ^ 64) (-1) (z + 2 ^ 64)) by lia.
    cmp_cases; lia.
Qed.

Lemma s64_u64 z : s64 (u64 z) = s64 z.
Proof. unfold s64. by rewrite u64_idemp. Qed.

Lemma u64_s64 z : u64 (s64 z) = u64 z.
Proof.
  unfold s64. case_match; [apply u64_idemp|].
  unfold u64. rewrite <-(Z.mod_add (z mod _ - _) 1) by lia.
  replace (z mod 2 ^ 64 - 2 ^ 64 + 1 * 2 ^ 64) with (z mod 2 ^ 64) by lia.
  by rewrite Z.mod_mod.
Qed.

(** The wrapped signed difference of two counters is the exact difference
    whenever that difference fits. *)
Lemma s64_counter_diff a b :
  - 2 ^ 63 ≤ a - b < 2 ^ 63 → s64 (s64 (u64 a) - s64 (u64 b)) = a - b.
Proof.
  intros H. rewrite <-(s64_small (a - b)) by done.
  rewrite <-(s64_u64 (s64 _ - _)), <-(s64_u64 (a - b)). f_equal.
  rewrite <-u64_sub_l, <-u64_sub_r, !u64_s64, !u64_idemp.
  by rewrite u64_sub_l, u64_sub_r.
Qed.

(** ** Masks *)

Lemma land_mask x k : 0 ≤ k → Z.land x (2 ^ k - 1) = x mod 2 ^ k.
Proof. intros. by rewrite <-Z.land_ones, Z.ones_equiv, Z.sub_1_r. Qed.

Lemma pow2_divide_u64 k : 0 ≤ k ≤ 64 → (2 ^ k | 2 ^ 64).
Proof.
  intros. exists (2 ^ (64 - k)). rewrite <-Z.pow_add_r by lia. f_equal; lia.
Qed.

Lemma u64_mod_pow2 x k : 0 ≤ k ≤ 64 → u64 x mod 2 ^ k = x mod 2 ^ k.
Proof.
  intros Hk. unfold u64. by apply Z.mod_mod_divide, pow2_divide_u64.
Qed.

Lemma not64_spec z i :
  0 ≤ i < 64 → Z.testbit (not64 z) i = negb (Z.testbit z i).
Proof.
  intros Hi. unfold not64, u64.
  rewrite Z.mod_pow2_bits_low by lia. apply Z.lnot_spec; lia.
Qed.

Lemma testbit_is_u64_high x i : is_u64 x → 64 ≤ i → Z.testbit x i = false.
Proof.
  intros Hx Hi. rewrite <-(u64_small x Hx). apply Z.mod_pow2_bits_high; lia.
Qed.

Lemma ldiff_ones x k : 0 ≤ k → Z.ldiff x (2 ^ k - 1) = x - x mod 2 ^ k.
Proof.
  intros Hk. rewrite Z.sub_1_r, <-Z.ones_equiv, Z.ldiff_ones_r, Z.shiftl_mul_pow2,
    Z.shiftr_div_pow2 by lia. pose proof (Z.div_mod x (2 ^ k)). lia.
Qed.

(** Clearing the low [k] bits of a 64-bit word. *)
Lemma land_not64_mask x k :
  is_u64 x → 0 ≤ k ≤ 64 → Z.land x (not64 (2 ^ k - 1)) = x - x mod 2 ^ k.
Proof.
  intros Hx Hk.
  rewrite <-ldiff_ones by lia. apply Z.bits_inj'. intros i Hi.
  rewrite Z.land_spec, Z.ldiff_spec.
  destruct (Z.lt_ge_cases i 64).
  - by rewrite not64_spec by lia.
  - by rewrite testbit_is_u64_high.
Qed.

(** Clearing bits of a 32-bit word. *)
Lemma land_not32 x m : is_u32 x → Z.land x (not32 m) = Z.ldiff x m.
Proof.
  intros Hx. apply Z.bits_inj'. intros i Hi. rewrite Z.land_spec, Z.ldiff_spec.
  unfold not32, u32. destruct (Z.lt_ge_cases i 32).
  - by rewrite Z.mod_pow2_bits_low, Z.lnot_spec by lia.
  - by rewrite <-(u32_small x Hx) at 1; unfold u32; rewrite <-(u32_small x Hx) at 2;
      unfold u32; rewrite !Z.mod_pow2_bits_high by lia.
Qed.

Lemma lor_absorb x m : Z.land x m = m → Z.lor x m = x.
Proof.
  intros <-. apply Z.bits_inj'. intros i _. rewrite Z.lor_spec, Z.land_spec.
  by destruct (Z.testbit x i).
Qed.

Lemma lor_disjoint x m : Z.land x m = 0 → Z.lor x m = x + m.
Proof. intros H. by rewrite Z.add_nocarry_lxor, Z.lxor_lor. Qed.

(** ** Powers of two: the bit test and the smearing loop *)

Lemma is_pow2_pos n : is_pow2 n → 0 < n.
Proof. intros (k & Hk & ->). lia. Qed.

Lemma is_pow2_u64_exp n : is_pow2 n → is_u64 n → ∃ k, 0 ≤ k < 64 ∧ n = 2 ^ k.
Proof.
  intros (k & Hk & ->) [_ Hlt]. exists k. split; [|done].
  split; [done|]. by apply (Z.pow_lt_mono_r_iff 2) in Hlt; lia.
Qed.

(** [c & (c - 1) = 0] decides "is a power of two" for positive [c]. *)
Lemma land_pred_pow2 c : 0 < c → Z.land c (c - 1) = 0 ↔ is_pow2 c.
Proof.
  intros Hc. split.
  - intros Hl. exists (Z.log2 c). split; [apply Z.log2_nonneg|].
    destruct (Z.log2_spec c Hc) as [Hlo Hhi].
    destruct (Z.eq_dec c (2 ^ Z.log2 c)) as [?|Hne]; [done|exfalso].
    assert (c ≠ 1) by (intros ->; by apply Hne).
    assert (Hb : Z.testbit (Z.land c (c - 1)) (Z.log2 c) = true).
    { rewrite Z.land_spec, Z.bit_log2 by done. simpl.
      replace (Z.log2 c) with (Z.log2 (c - 1)); [apply Z.bit_log2; lia|].
      apply Z.log2_unique; [apply Z.log2_nonneg|lia]. }
    by rewrite Hl, Z.bits_0 in Hb.
  - intros (k & Hk & ->). by rewrite land_mask, Z.mod_same by lia.
Qed.

Lemma valid_pow2_capacity_spec c :
  is_u64 c → valid_pow2_capacity c = true ↔ ∃ k, 1 ≤ k < 64 ∧ c = 2 ^ k.
Proof.
  intros Hc. unfold valid_pow2_capacity.
  rewrite negb_true_iff, orb_false_iff, negb_false_iff, Z.eqb_eq, Z.ltb_ge.
  split.
  - intros [H2 Hl]. rewrite u64_small in Hl by (destruct Hc; split; lia).
    apply land_pred_pow2 in Hl; [|lia].
    destruct (is_pow2_u64_exp c Hl Hc) as (k & Hk & ->).
    exists k. split; [|done]. destruct (Z.eq_dec k 0) as [->|]; lia.
  - intros (k & Hk & ->). assert (2 ^ 1 ≤ 2 ^ k) by (apply Z.pow_le_mono_r; lia).
    split; [lia|]. rewrite u64_small by (destruct Hc; split; lia).
    apply land_pred_pow2; [lia|]. exists k; split; [lia|done].
Qed.

(** [x] has bit [i] exactly when [w] has a bit in the window [i, i + n). *)
Definition smeared (w n x : Z) : Prop :=
  ∀ i, 0 ≤ i → Z.testbit x i = true ↔ ∃ j, i ≤ j < i + n ∧ Z.testbit w j = true.

Lemma smeared_init w : smeared w 1 w.
Proof.
  intros i Hi. split; [intros; exists i; split; [lia|done]|].
  intros (j & Hj & Hb). by replace i with j by lia.
Qed.

Lemma smeared_step w n x : 0 ≤ n → smeared w n x → smeared w (n + n) (smear n x).
Proof.
  intros Hn Hx i Hi. unfold smear.
  rewrite Z.lor_spec, Z.shiftr_spec, orb_true_iff by lia.
  rewrite (Hx i), (Hx (i + n)) by lia. split.
  - intros [(j & ? & ?)|(j & ? & ?)]; exists j; (split; [lia|done]).
  - intros (j & ? & ?). destruct (Z.lt_ge_cases j (i + n));
      [left|right]; exists j; (split; [lia|done]).
Qed.

Lemma smeared_log2 w n x :
  0 < w < 2 ^ n → smeared w n x → 0 ≤ x → x = 2 ^ (Z.log2 w + 1) - 1.
Proof.
  intros Hw Hx Hx0. pose proof (Z.log2_nonneg w).
  assert (Hn : Z.log2 w < n) by (apply Z.log2_lt_pow2; lia).
  rewrite Z.sub_1_r, <-Z.ones_equiv. apply Z.bits_inj'. intros i Hi.
  destruct (Z.le_gt_cases i (Z.log2 w)).
  - rewrite Z.ones_spec_low by lia. apply Hx; [done|].
    exists (Z.log2 w). split; [lia|apply Z.bit_log2; lia].
  - rewrite Z.ones_spec_high by lia. apply not_true_is_false.
    rewrite (Hx i) by done. intros (j & Hj & Hb).
    rewrite Z.bits_above_log2 in Hb; [done|lia|lia].
Qed.

Lemma smear_nonneg s v : 0 ≤ v → 0 ≤ smear s v.
Proof. intros. apply Z.lor_nonneg. split; [done|by apply Z.shiftr_nonneg]. Qed.

#[export] Hint Resolve smear_nonneg smeared_init : nkit_word.

Ltac smear_steps :=
  repeat match goal with
  | |- smeared _ _ (smear ?n _) => apply (smeared_step _ n); [lia|]
  end; auto with nkit_word.

Lemma smear_chain_64 w :
  0 < w < 2 ^ 64 →
  smear 32 (smear 16 (smear 8 (smear 4 (smear 2 (smear 1 w))))) =
  2 ^ (Z.log2 w + 1) - 1.
Proof.
  intros Hw. apply (smeared_log2 w 64); [done| |].
  - smear_steps.
  - repeat apply smear_nonneg. lia.
Qed.

Lemma smear_chain_32 w :
  0 < w < 2 ^ 32 →
  smear 16 (smear 8 (smear 4 (smear 2 (smear 1 w)))) = 2 ^ (Z.log2 w + 1) - 1.
Proof.
  intros Hw. apply (smeared_log2 w 32); [done| |].
  - smear_steps.
  - repeat apply smear_nonneg. lia.
Qed.

(** The mathematical function both C helpers compute. *)
Lemma next_power_of_2_log2 v :
  2 ≤ v ≤ 2 ^ 63 → next_power_of_2 v = 2 ^ (Z.log2 (v - 1) + 1).
Proof.
  intros Hv. unfold next_power_of_2.
  rewrite (u64_small (v - 1)), smear_chain_64 by (unfold is_u64; lia).
  assert (Hl : Z.log2 (v - 1) < 63) by (apply Z.log2_lt_pow2; lia).
  pose proof (Z.log2_nonneg (v - 1)).
  replace (2 ^ (Z.log2 (v - 1) + 1) - 1 + 1) with (2 ^ (Z.log2 (v - 1) + 1)) by lia.
  apply u64_small. split; [lia|]. apply Z.pow_lt_mono_r; lia.
Qed.

Lemma next_power_of_2_u32_log2 v :
  2 ≤ v ≤ 2 ^ 31 → next_power_of_2_u32 v = 2 ^ (Z.log2 (v - 1) + 1).
Proof.
  intros Hv. unfold next_power_of_2_u32.
  rewrite (u32_small (v - 1)), smear_chain_32 by (unfold is_u32; lia).
  assert (Hl : Z.log2 (v - 1) < 31) by (apply Z.log2_lt_pow2; lia).
  pose proof (Z.log2_nonneg (v - 1)).
  replace (2 ^ (Z.log2 (v - 1) + 1) - 1 + 1) with (2 ^ (Z.log2 (v - 1) + 1)) by lia.
  apply u32_small. split; [lia|]. apply Z.pow_lt_mono_r; lia.
Qed.

Lemma pow2_ceil_bounds v :
  2 ≤ v → v ≤ 2 ^ (Z.log2 (v - 1) + 1) < 2 * v - 1.
Proof.
  intros Hv. destruct (Z.log2_spec (v - 1)) as [Hlo Hhi]; [lia|].
  pose proof (Z.log2_nonneg (v - 1)).
  rewrite Z.pow_add_r, <-Z.add_1_r, Z.pow_add_r in * by lia. lia.
Qed.

(** Above 2^63 the 64-bit helper wraps to zero. *)
Lemma next_power_of_2_overflow v : 2 ^ 63 < v < 2 ^ 64 → next_power_of_2 v = 0.
Proof.
  intros Hv. unfold next_power_of_2.
  rewrite (u64_small (v - 1)), smear_chain_64 by (unfold is_u64; lia).
  replace (Z.log2 (v - 1)) with 63; [done|].
  symmetry. apply Z.log2_unique; lia.
Qed.

(** ** Alignment *)

Lemma align_up_spec x k :
  0 ≤ k < 64 → 0 ≤ x → x + 2 ^ k - 1 < 2 ^ 64 →
  align_up x (2 ^ k) = (x + 2 ^ k - 1) - (x + 2 ^ k - 1) mod 2 ^ k.
Proof.
  intros Hk Hx Hlt. unfold align_up.
  rewrite u64_sub_l, u64_small by (unfold is_u64; lia).
  apply land_not64_mask; unfold is_u64; lia.
Qed.

Lemma align_up_bounds x k :
  0 ≤ k < 64 → 0 ≤ x → x + 2 ^ k - 1 < 2 ^ 64 →
  x ≤ align_up x (2 ^ k) < x + 2 ^ k ∧ (2 ^ k | align_up x (2 ^ k)).
Proof.
  intros Hk Hx Hlt. rewrite align_up_spec by done.
  pose proof (Z.mod_pos_bound (x + 2 ^ k - 1) (2 ^ k)). split; [lia|].
  apply Z.mod_divide; [lia|]. rewrite Zminus_mod_idemp_r, Z.sub_diag. done.
Qed.

(** A request within [2^k] of the top of the address space wraps to zero. *)
Lemma align_up_wrap x k :
  0 ≤ k < 64 → x < 2 ^ 64 → 2 ^ 64 ≤ x + 2 ^ k - 1 → align_up x (2 ^ k) = 0.
Proof.
  intros Hk Hx Hge. unfold align_up. rewrite u64_sub_l.
  assert (2 ^ k < 2 ^ 64) by (apply Z.pow_lt_mono_r; lia).
  assert (E : x + 2 ^ k - 1 +w 0 = x + 2 ^ k - 1 - 2 ^ 64).
  { rewrite Z.add_0_r. unfold u64. symmetry. apply Z.mod_unique_pos with 1; lia. }
  rewrite Z.add_0_r in E. rewrite E.
  rewrite land_not64_mask by (unfold is_u64; lia).
  rewrite Z.mod_small by lia. lia.
Qed.

#[export] Hint Resolve u64_range u32_range : nkit_word.

(** ** Circular arrays *)

(** Positions less than a capacity apart use different slots. *)
Lemma slot_inj n T i j :
  0 < n → 0 ≤ i < n → 0 ≤ j < n →
  Z.to_nat ((T + i) mod n) = Z.to_nat ((T + j) mod n) → i = j.
Proof.
  intros Hn Hi Hj E.
  pose proof (Z.mod_pos_bound (T + i) n Hn). pose proof (Z.mod_pos_bound (T + j) n Hn).
  apply Z2Nat.inj in E; [|lia..].
  assert (H1 : ((T + i) - (T + j)) mod n = 0) by (rewrite Zminus_mod, E, Z.sub_diag; done).
  apply Z.mod_divide in H1; [|lia]. destruct H1 as [k Hk]. destruct (Z.lt_trichotomy k 0) as [?|[->|?]]; nia.
Qed.

(** Two positions of a window of one capacity with the same slot are equal. *)
Lemma window_slot cap hd p q :
  0 < cap → hd - cap ≤ p < hd → hd - cap ≤ q < hd →
  Z.to_nat (p mod cap) = Z.to_nat (q mod cap) → p = q.
Proof.
  intros Hc Hp Hq E. replace p with (hd - cap + (p - (hd - cap))) in * by lia.
  replace q with (hd - cap + (q - (hd - cap))) in * by lia.
  apply slot_inj in E; lia.
Qed.
