(* ===== verification/Double.v ===== *)
(** * Double precision numbers

    The balancers compute with [double]: two conversions from [long long], two
    divisions and one comparison.  A double is the Standard Library's
    specification of IEEE 754 binary64, whose operations compute.  The lemmas
    bound the rounding: each operation is within one unit of the 53rd bit, so the
    computed ratio is the exact one up to a factor [(1 + 2^-52)^4]. *)

From stdpp Require Import prelude.
From Stdlib Require Import ZArith Lia QArith Qpower Lqa SpecFloat.
From S2P Require Import Prelude.
Local Open Scope Z_scope.

(** ** Operations *)

Definition double := spec_float.

(** [(double)z] for an integer [z]: rounding to nearest, ties to even. *)
Definition dbl_of_Z (z : Z) : double := binary_normalize 53 1024 z 0 false.

Definition dbl_div (x y : double) : double := SFdiv 53 1024 x y.

(** [x > y] and [x <= y]: false when one of them is a NaN. *)
Definition dbl_gt (x y : double) : bool := SFltb y x.
Definition dbl_le (x y : double) : bool := SFleb x y.

(** Misses per kilo-instruction:
    [(double)count_miss / ((double)count_instr / 1000.0)]. *)
Definition mpki (count_miss count_instr : Z) : double :=
  dbl_div (dbl_of_Z count_miss) (dbl_div (dbl_of_Z count_instr) (dbl_of_Z 1000)).

(** ** Values *)

Definition bpow (e : Z) : Q := Qpower 2 e.

(** The number a nonnegative finite double stands for. *)
Definition dval (x : double) : Q :=
  match x with
  | S754_finite false m e => inject_Z (Zpos m) * bpow e
  | _ => 0
  end.

(** Doubles with a full 53-bit significand: what the operations below return. *)
Definition normal (x : double) : Prop :=
  ∃ m e, x = S754_finite false m e ∧ 2 ^ 52 ≤ Zpos m < 2 ^ 53 ∧ -1074 ≤ e ≤ 971.

(** ** Powers of two *)

Lemma bpow_plus a b : (bpow (a + b) == bpow a * bpow b)%Q.
Proof. apply Qpower_plus. done. Qed.

Lemma bpow_nonneg e : 0 ≤ e → (bpow e == inject_Z (2 ^ e))%Q.
Proof. intros He. unfold bpow. symmetry. by apply (Zpower_Qpower 2 e). Qed.

Lemma bpow_pos e : (0 < bpow e)%Q.
Proof. by apply Qpower_0_lt. Qed.

(** A number between two integers of the same scale. *)
Lemma bpow_le_scaled a b e : a ≤ b → (inject_Z a * bpow e <= inject_Z b * bpow e)%Q.
Proof.
  intros Hab. apply Qmult_le_compat_r; [by rewrite <-Zle_Qle|apply Qlt_le_weak, bpow_pos].
Qed.

Lemma bpow_shift m e n : 0 ≤ n → (inject_Z (m * 2 ^ n) * bpow e == inject_Z m * bpow (e + n))%Q.
Proof.
  intros Hn. rewrite inject_Z_mult, <-(bpow_nonneg n) by done. rewrite bpow_plus. ring.
Qed.

(** ** Closeness up to a factor *)

(** One rounding changes a number by at most this factor, up or down. *)
Definition ulp_factor : Q := 1 + (1 # 2 ^ 52).

(** [near k x y]: [y] is [x] after at most [k] roundings. *)
Definition near (k : nat) (x y : Q) : Prop :=
  (x <= y * ulp_factor ^ Z.of_nat k ∧ y <= x * ulp_factor ^ Z.of_nat k)%Q.

Lemma factor_pos k : (0 < ulp_factor ^ Z.of_nat k)%Q.
Proof. by apply Qpower_0_lt. Qed.

Lemma factor_plus j k :
  (ulp_factor ^ Z.of_nat (j + k) == ulp_factor ^ Z.of_nat j * ulp_factor ^ Z.of_nat k)%Q.
Proof. rewrite Nat2Z.inj_add. by apply Qpower_plus. Qed.

#[export] Instance near_proper k : Proper (Qeq ==> Qeq ==> iff) (near k).
Proof. intros x x' Hx y y' Hy. unfold near. by rewrite Hx, Hy. Qed.

Lemma near_trans j k x y z : near j x y → near k y z → near (j + k) x z.
Proof.
  intros [A1 A2] [B1 B2]. unfold near. rewrite factor_plus.
  pose proof (factor_pos j). pose proof (factor_pos k). split.
  - apply (Qle_trans _ _ _ A1). rewrite (Qmult_comm (ulp_factor ^ Z.of_nat j)), Qmult_assoc.
    apply Qmult_le_compat_r; [done|by apply Qlt_le_weak].
  - apply (Qle_trans _ _ _ B2). rewrite Qmult_assoc.
    apply Qmult_le_compat_r; [done|by apply Qlt_le_weak].
Qed.

(** A product of two bounds on nonnegative numbers. *)
Lemma Qmult_le_both a b c d : (0 <= a → a <= b → 0 <= c → c <= d → a * c <= b * d)%Q.
Proof.
  intros Ha Hab Hc Hcd. apply (Qle_trans _ (b * c)).
  - by apply Qmult_le_compat_r.
  - rewrite !(Qmult_comm b). apply Qmult_le_compat_r; [done|lra].
Qed.

Lemma near_nonneg k x y : near k x y → (0 <= x)%Q → (0 <= y)%Q.
Proof.
  intros [A _] Hx. pose proof (factor_pos k) as Hf.
  apply (Qmult_lt_0_le_reg_r _ _ (ulp_factor ^ Z.of_nat k)); [done|]. lra.
Qed.

Lemma near_pos k x y : near k x y → (0 < x)%Q → (0 < y)%Q.
Proof.
  intros A Hx. destruct (Qlt_le_dec 0 y) as [|Hy]; [done|]. destruct A as [A _].
  pose proof (factor_pos k) as Hf.
  assert (y * ulp_factor ^ Z.of_nat k <= 0 * ulp_factor ^ Z.of_nat k)%Q
    by (apply Qmult_le_compat_r; [done|lra]). lra.
Qed.

Lemma near_div j k x x' y y' :
  near j x x' → near k y y' → (0 <= x)%Q → (0 < y)%Q → near (j + k) (x / y) (x' / y').
Proof.
  intros A B Hx Hy. pose proof (near_nonneg _ _ _ A Hx) as Hx'. pose proof (near_pos _ _ _ B Hy) as Hy'.
  destruct A as [A1 A2], B as [B1 B2]. unfold near. rewrite factor_plus.
  set (f := (ulp_factor ^ Z.of_nat j)%Q) in *. set (g := (ulp_factor ^ Z.of_nat k)%Q) in *.
  pose proof (factor_pos j : 0 < f)%Q as Hf. pose proof (factor_pos k : 0 < g)%Q as Hg.
  split; apply Qle_shift_div_r; try done.
  - assert (E : (x' / y' * (f * g) * y == (x' * f) * (y * g) / y')%Q) by (field; lra). rewrite E.
    apply Qle_shift_div_l; [done|]. apply Qmult_le_both; lra.
  - assert (E : (x / y * (f * g) * y' == (x * f) * (y' * g) / y)%Q) by (field; lra). rewrite E.
    apply Qle_shift_div_l; [done|]. apply Qmult_le_both; lra.
Qed.

(** ** Rounding *)

Lemma digits2_log2 p : Zpos (digits2_pos p) = Z.log2 (Zpos p) + 1.
Proof.
  induction p as [p IH|p IH|]; simpl digits2_pos; [| |done].
  - rewrite Pos2Z.inj_succ, IH, Pos2Z.inj_xI, Z.log2_succ_double by lia. lia.
  - rewrite Pos2Z.inj_succ, IH, Pos2Z.inj_xO, Z.log2_double by lia. lia.
Qed.

Lemma digits2_bounds p : 2 ^ (Zpos (digits2_pos p) - 1) ≤ Zpos p < 2 ^ Zpos (digits2_pos p).
Proof.
  rewrite digits2_log2. replace (Z.log2 (Zpos p) + 1 - 1) with (Z.log2 (Zpos p)) by lia.
  apply Z.log2_spec. lia.
Qed.

Lemma digits2_unique p d : 0 ≤ d - 1 → 2 ^ (d - 1) ≤ Zpos p < 2 ^ d → Zpos (digits2_pos p) = d.
Proof.
  intros Hd Hp. rewrite digits2_log2.
  rewrite (Z.log2_unique (Zpos p) (d - 1)); [lia|done|]. by replace (Z.succ (d - 1)) with d by lia.
Qed.

Lemma shr_1_m mrs : 0 ≤ shr_m mrs → shr_m (shr_1 mrs) = shr_m mrs / 2.
Proof.
  destruct mrs as [m r s]. simpl. destruct m as [|[p|p|]|p]; simpl; intros; try done; try lia.
  - rewrite Pos2Z.inj_xI. apply (Z.div_unique _ 2 _ 1); lia.
  - rewrite Pos2Z.inj_xO. apply (Z.div_unique _ 2 _ 0); lia.
Qed.

Lemma iter_shr_m p mrs :
  0 ≤ shr_m mrs → shr_m (iter_pos shr_1 p mrs) = shr_m mrs / 2 ^ Zpos p.
Proof.
  revert mrs. induction p as [p IH|p IH|]; intros mrs Hm; simpl iter_pos.
  - assert (H1 := shr_1_m mrs Hm). assert (0 ≤ shr_m (shr_1 mrs)) by (rewrite H1; apply Z.div_pos; lia).
    assert (0 ≤ shr_m (iter_pos shr_1 p (shr_1 mrs))) by (rewrite IH by done; apply Z.div_pos; lia).
    rewrite !IH by done. rewrite H1, !Z.div_div by lia.
    replace (Zpos p~1) with (1 + Zpos p + Zpos p) by lia.
    rewrite !Z.pow_add_r, Z.pow_1_r by lia. by rewrite ?Z.mul_assoc.
  - assert (0 ≤ shr_m (iter_pos shr_1 p mrs)) by (rewrite IH by done; apply Z.div_pos; lia).
    rewrite !IH by done. rewrite Z.div_div by lia.
    replace (Zpos p~0) with (Zpos p + Zpos p) by lia. by rewrite Z.pow_add_r by lia.
  - by apply shr_1_m.
Qed.

Lemma shr_record_of_loc_m m l : shr_m (shr_record_of_loc m l) = m.
Proof. by destruct l as [|[]]. Qed.

Lemma round_nearest_even_cases m l : round_nearest_even m l = m ∨ round_nearest_even m l = m + 1.
Proof. destruct l as [|[]]; simpl; auto. destruct (Z.even m); auto. Qed.

(** Shifting a significand of at least 53 bits down to exactly 53. *)
Lemma shr_fexp_normal m e l n :
  0 ≤ n → 2 ^ (n + 52) ≤ Zpos m < 2 ^ (n + 53) → -1074 ≤ e + n →
  shr_m (shr_fexp 53 1024 (Zpos m) e l).1 = Zpos m / 2 ^ n ∧
  (shr_fexp 53 1024 (Zpos m) e l).2 = e + n.
Proof.
  intros Hn Hm He. unfold shr_fexp. cbn [Zdigits2].
  rewrite (digits2_unique m (n + 53)) by (try lia; by replace (n + 53 - 1) with (n + 52) by lia).
  assert (En : fexp 53 1024 (n + 53 + e) - e = n)
    by (unfold fexp, emin; lia). rewrite En.
  destruct n as [|p|p]; cbn [shr fst snd]; [| |lia].
  - rewrite shr_record_of_loc_m, Z.div_1_r. split; [done|lia].
  - split; [|done]. rewrite iter_shr_m by (by rewrite shr_record_of_loc_m).
    by rewrite shr_record_of_loc_m.
Qed.

(** The two steps of [binary_round_aux] on a significand of [n + 53] bits: it is
    truncated to 53 bits, and the last bit is kept or rounded up. *)
Lemma binary_round_aux_cases m e l n :
  0 ≤ n → 2 ^ (n + 52) ≤ Zpos m < 2 ^ (n + 53) → -1074 ≤ e + n ≤ 970 →
  let q := Zpos m / 2 ^ n in
  ∃ r, (r = q ∨ r = q + 1) ∧
       normal (binary_round_aux 53 1024 false (Zpos m) e l) ∧
       (dval (binary_round_aux 53 1024 false (Zpos m) e l) == inject_Z r * bpow (e + n))%Q.
Proof.
  intros Hn Hm He q. destruct (shr_fexp_normal m e l n Hn Hm ltac:(lia)) as [E1 E2].
  assert (Hq : 2 ^ 52 ≤ q < 2 ^ 53).
  { rewrite !Z.pow_add_r in Hm by lia. split; [apply Z.div_le_lower_bound|apply Z.div_lt_upper_bound]; lia. }
  unfold binary_round_aux. destruct (shr_fexp 53 1024 (Zpos m) e l) as [mrs e1].
  cbn [fst snd] in E1, E2. subst e1. rewrite E1. fold q.
  set (r := round_nearest_even q _). exists r.
  assert (Hr : r = q ∨ r = q + 1) by apply round_nearest_even_cases. split; [done|].
  clearbody r. destruct (decide (r < 2 ^ 53)) as [Hlt|Hge].
  - destruct r as [|p|p]; try lia.
    destruct (shr_fexp_normal p (e + n) loc_Exact 0) as [F1 F2]; [lia|split; simpl; lia|lia|].
    destruct (shr_fexp 53 1024 (Zpos p) (e + n) loc_Exact) as [mrs2 e2]. cbn [fst snd] in F1, F2.
    rewrite Z.div_1_r in F1. rewrite F1, F2. destruct (Z.leb_spec (e + n + 0) (1024 - 53)); [|lia].
    rewrite Z.add_0_r. split; [|done]. exists p, (e + n). split; [done|]. lia.
  - assert (r = 2 ^ 53) as -> by lia. change (2 ^ 53) with (Zpos (2 ^ 53)).
    destruct (shr_fexp_normal (2 ^ 53) (e + n) loc_Exact 1) as [F1 F2]; [lia|split; simpl; lia|lia|].
    destruct (shr_fexp 53 1024 (Zpos (2 ^ 53)) (e + n) loc_Exact) as [mrs2 e2]. cbn [fst snd] in F1, F2.
    change (Zpos (2 ^ 53) / 2 ^ 1) with (Zpos (2 ^ 52)) in F1. rewrite F1, F2.
    destruct (Z.leb_spec (e + n + 1) (1024 - 53)); [|lia].
    split; [exists (2 ^ 52)%positive, (e + n + 1); split; [done|]; split; [simpl; lia|lia]|].
    cbn [dval]. rewrite <-bpow_shift by lia. done.
Qed.

Lemma ulp_step a : 2 ^ 52 ≤ a → (inject_Z (a + 1) <= inject_Z a * ulp_factor)%Q.
Proof.
  intros Ha. unfold ulp_factor. rewrite inject_Z_plus, Qmult_plus_distr_r, Qmult_1_r.
  apply Qplus_le_r. rewrite Zle_Qle in Ha.
  apply (Qle_trans _ (inject_Z (2 ^ 52) * (1 # 2 ^ 52))); [done|].
  by apply Qmult_le_compat_r.
Qed.

(** Rounding a number that lies between two consecutive integers [m], [m + 1] of
    a scale fine enough. *)
Lemma round_near m e l n x :
  0 ≤ n → 2 ^ (n + 52) ≤ Zpos m < 2 ^ (n + 53) → -1074 ≤ e + n ≤ 970 →
  (inject_Z (Zpos m) * bpow e <= x <= inject_Z (Zpos m + 1) * bpow e)%Q →
  normal (binary_round_aux 53 1024 false (Zpos m) e l) ∧
  near 1 x (dval (binary_round_aux 53 1024 false (Zpos m) e l)).
Proof.
  intros Hn Hm He [Hx1 Hx2].
  destruct (binary_round_aux_cases m e l n Hn Hm He) as (r & Hr & Hnorm & Hv). split; [done|].
  rewrite Hv. set (q := Zpos m / 2 ^ n) in *.
  assert (0 < 2 ^ n) by lia.
  assert (Hdm : q * 2 ^ n ≤ Zpos m ∧ Zpos m + 1 ≤ (q + 1) * 2 ^ n).
  { pose proof (Z.div_mod (Zpos m) (2 ^ n) ltac:(lia)). pose proof (Z.mod_pos_bound (Zpos m) (2 ^ n)).
    unfold q. lia. }
  assert (Hq : 2 ^ 52 ≤ q).
  { rewrite Z.pow_add_r in Hm by lia. apply Z.div_le_lower_bound; lia. }
  assert (L : (inject_Z q * bpow (e + n) <= x)%Q).
  { rewrite <-bpow_shift by done. apply (Qle_trans _ _ _ (bpow_le_scaled _ _ e (proj1 Hdm)) Hx1). }
  assert (U : (x <= inject_Z (q + 1) * bpow (e + n))%Q).
  { rewrite <-bpow_shift by done. apply (Qle_trans _ _ _ Hx2 (bpow_le_scaled _ _ e (proj2 Hdm))). }
  pose proof (bpow_pos (e + n)) as Hb. pose proof (ulp_step q Hq) as Hs.
  assert (S1 : (inject_Z (q + 1) * bpow (e + n) <= inject_Z q * bpow (e + n) * ulp_factor)%Q).
  { rewrite <-(Qmult_assoc (inject_Z q)), (Qmult_comm (bpow _)), Qmult_assoc.
    apply Qmult_le_compat_r; [done|lra]. }
  pose proof (bpow_le_scaled q (q + 1) (e + n) ltac:(lia)).
  assert (1 <= ulp_factor)%Q by done. unfold near. change (Z.of_nat 1) with 1. rewrite Qpower_1_r.
  assert (Hq0 : (0 <= inject_Z q * bpow (e + n))%Q).
  { apply Qmult_le_0_compat; [rewrite <-(Zle_Qle 0); lia|lra]. }
  destruct Hr as [-> | ->]; split.
  - lra.
  - apply (Qle_trans _ _ _ L). rewrite <-(Qmult_1_r x) at 1. apply Qmult_le_both; lra.
  - apply (Qle_trans _ _ _ U). rewrite <-(Qmult_1_r (_ * _)) at 1. apply Qmult_le_both; lra.
  - apply (Qle_trans _ _ _ S1). apply Qmult_le_compat_r; lra.
Qed.

(** ** The operations *)

Lemma pos_iter_xO m p : Zpos (Pos.iter xO m p) = Zpos m * 2 ^ Zpos p.
Proof.
  revert m. induction p as [|p IH] using Pos.peano_ind; intros m; [simpl; lia|].
  rewrite Pos.iter_succ, Pos2Z.inj_succ, Z.pow_succ_r, Pos2Z.inj_xO, IH by lia. lia.
Qed.

Lemma dbl_of_Z_near z :
  0 < z < 2 ^ 64 → normal (dbl_of_Z z) ∧ near 1 (inject_Z z) (dval (dbl_of_Z z)).
Proof.
  intros Hz. destruct z as [|m|m]; try lia. unfold dbl_of_Z, binary_normalize, binary_round.
  pose proof (digits2_bounds m) as Hb. set (d := Zpos (digits2_pos m)) in *.
  assert (Hd : 1 ≤ d ≤ 64).
  { split; [lia|]. destruct (decide (d ≤ 64)); [done|].
    assert (2 ^ 64 ≤ 2 ^ (d - 1)) by (apply Z.pow_le_mono_r; lia). lia. }
  assert (Ef : fexp 53 1024 (d + 0) = d - 53) by (unfold fexp, emin; lia). rewrite Ef.
  unfold shl_align. replace (d - 53 - 0) with (d - 53) by lia.
  assert (Hone : (inject_Z (Zpos m) == inject_Z (Zpos m) * bpow 0)%Q) by (unfold bpow; simpl; ring).
  destruct (d - 53) as [|p|p] eqn:Ed.
  - apply (round_near m 0 loc_Exact 0); [lia| |lia|].
    + replace (0 + 52) with (d - 1) by lia. by replace (0 + 53) with d by lia.
    + rewrite <-Hone. split; [lra|]. rewrite Hone at 1. apply bpow_le_scaled. lia.
  - apply (round_near m 0 loc_Exact (Zpos p)); [lia| |lia|].
    + replace (Zpos p + 52) with (d - 1) by lia. by replace (Zpos p + 53) with d by lia.
    + rewrite <-Hone. split; [lra|]. rewrite Hone at 1. apply bpow_le_scaled. lia.
  - set (m' := Pos.iter xO m p). pose proof (pos_iter_xO m p : Zpos m' = _) as Em.
    assert (Hx : (inject_Z (Zpos m) == inject_Z (Zpos m') * bpow (Zneg p))%Q).
    { rewrite Em, bpow_shift by lia. by replace (Zneg p + Zpos p) with 0 by lia. }
    apply (round_near m' (Zneg p) loc_Exact 0); [lia| |lia|].
    + rewrite Em. replace (0 + 52) with ((d - 1) + Zpos p) by lia.
      replace (0 + 53) with (d + Zpos p) by lia. rewrite !Z.pow_add_r by lia.
      assert (0 < 2 ^ Zpos p) by lia. split; [apply Z.mul_le_mono_nonneg_r|apply Z.mul_lt_mono_pos_r]; lia.
    + rewrite Hx. split; [lra|]. apply bpow_le_scaled. lia.
Qed.

Lemma normal_digits m : 2 ^ 52 ≤ Zpos m < 2 ^ 53 → Zpos (digits2_pos m) = 53.
Proof. intros Hm. apply digits2_unique; [lia|done]. Qed.

(** Quotients of doubles in the range of 64-bit integers and their ratios. *)
Lemma dbl_div_near x y m1 e1 m2 e2 :
  x = S754_finite false m1 e1 → y = S754_finite false m2 e2 →
  2 ^ 52 ≤ Zpos m1 < 2 ^ 53 → 2 ^ 52 ≤ Zpos m2 < 2 ^ 53 → -900 ≤ e1 - e2 ≤ 900 →
  normal (dbl_div x y) ∧ near 1 (dval x / dval y) (dval (dbl_div x y)).
Proof.
  intros -> -> H1 H2 He. unfold dbl_div, SFdiv, SFdiv_core_binary. cbn [Zdigits2 xorb dval].
  rewrite (normal_digits m1 H1), (normal_digits m2 H2).
  replace (53 + e1 - (53 + e2)) with (e1 - e2) by lia.
  replace (fexp 53 1024 (e1 - e2)) with (e1 - e2 - 53) by (unfold fexp, emin; lia).
  rewrite Z.min_l by lia. replace (e1 - e2 - (e1 - e2 - 53)) with 53 by lia.
  rewrite Z.shiftl_mul_pow2 by lia.
  pose proof (Z.div_eucl_eq (Zpos m1 * 2 ^ 53) (Zpos m2) ltac:(lia)) as Hd.
  pose proof (Z.mod_pos_bound (Zpos m1 * 2 ^ 53) (Zpos m2) ltac:(lia)) as Hr. unfold Z.modulo in Hr.
  destruct (Z.div_eucl (Zpos m1 * 2 ^ 53) (Zpos m2)) as [q r].
  assert (Hq : 2 ^ 52 ≤ q < 2 ^ 54) by nia. destruct q as [|q|q]; try lia.
  assert (V2 : (0 < inject_Z (Zpos m2) * bpow e2)%Q).
  { apply Qmult_lt_0_compat; [done|apply bpow_pos]. }
  assert (Hmul : ∀ a, (inject_Z a * bpow (e1 - e2 - 53) * (inject_Z (Zpos m2) * bpow e2) ==
                       inject_Z (a * Zpos m2) * bpow (e1 - 53))%Q).
  { intros a. replace (e1 - 53) with (e1 - e2 - 53 + e2) by lia.
    rewrite inject_Z_mult, (bpow_plus _ e2). ring. }
  assert (Ex : (inject_Z (Zpos m1) * bpow e1 == inject_Z (Zpos m1 * 2 ^ 53) * bpow (e1 - 53))%Q).
  { rewrite bpow_shift by lia. by replace (e1 - 53 + 53) with e1 by lia. }
  assert (B : (inject_Z (Zpos q) * bpow (e1 - e2 - 53) <=
               inject_Z (Zpos m1) * bpow e1 / (inject_Z (Zpos m2) * bpow e2) <=
               inject_Z (Zpos q + 1) * bpow (e1 - e2 - 53))%Q).
  { split; [apply Qle_shift_div_l|apply Qle_shift_div_r]; try done;
      rewrite Hmul, Ex; apply bpow_le_scaled; lia. }
  destruct (decide (Zpos q < 2 ^ 53)).
  - apply (round_near q _ _ 0); [lia|simpl; lia|lia|done].
  - apply (round_near q _ _ 1); [lia|simpl; lia|lia|done].
Qed.

(** The exponent of a normal double from bounds on its value. *)
Lemma normal_exponent x a b :
  normal x → (bpow a <= dval x <= bpow b)%Q →
  ∃ m e, x = S754_finite false m e ∧ 2 ^ 52 ≤ Zpos m < 2 ^ 53 ∧ a - 53 ≤ e ≤ b - 52.
Proof.
  intros (m & e & -> & Hm & _) [Ha Hb]. exists m, e. split_and!; [done|lia|lia| |]; cbn [dval] in *.
  - assert (H : (bpow a <= bpow (53 + e))%Q).
    { rewrite bpow_plus, (bpow_nonneg 53) by lia. apply (Qle_trans _ _ _ Ha), bpow_le_scaled. lia. }
    apply Qpower_le_compat_l_inv in H; [lia|done].
  - assert (H : (bpow (52 + e) <= bpow b)%Q).
    { rewrite bpow_plus, (bpow_nonneg 52) by lia. refine (Qle_trans _ _ _ _ Hb).
      apply bpow_le_scaled. lia. }
    apply Qpower_le_compat_l_inv in H; [lia|done].
Qed.

(** A factor of [near k] is at most two here. *)
Lemma near_bounds k x y a b :
  (k ≤ 4)%nat → near k x y → (bpow a <= x <= bpow b)%Q → (bpow (a - 1) <= y <= bpow (b + 1))%Q.
Proof.
  intros Hk [N1 N2] [Ha Hb].
  assert (Hf : (1 <= ulp_factor ^ Z.of_nat k <= 2)%Q).
  { do 5 (destruct k as [|k]; [split; by vm_compute|]). lia. }
  rewrite bpow_plus. unfold Z.sub. rewrite bpow_plus.
  change (bpow 1) with (2 # 1). change (bpow (-1)) with (1 # 2).
  pose proof (bpow_pos a) as Pa.
  set (f := (ulp_factor ^ Z.of_nat k)%Q) in *. clearbody f. split.
  - destruct (Qlt_le_dec y (bpow a * (1 # 2))) as [Hlt|]; [|done].
    destruct (Qlt_le_dec y 0) as [Hy|Hy].
    + assert (y * f <= 0 * f)%Q by (apply Qmult_le_compat_r; lra). lra.
    + assert (y * f <= bpow a * (1 # 2) * 2)%Q by (apply Qmult_le_both; lra).
      assert (y * f <= y * 2)%Q by (apply Qmult_le_both; lra). lra.
  - apply (Qle_trans _ _ _ N2), Qmult_le_both; lra.
Qed.

Lemma dbl_1000_val : dval (dbl_of_Z 1000) == inject_Z 1000.
Proof. by vm_compute. Qed.

Lemma near_refl x : (0 <= x)%Q → near 0 x x.
Proof. intros Hx. unfold near. simpl. lra. Qed.

Lemma int_range z : 0 < z < 2 ^ 64 → (bpow 0 <= inject_Z z <= bpow 64)%Q.
Proof.
  intros Hz. rewrite !bpow_nonneg by lia. rewrite <-!Zle_Qle. lia.
Qed.

(** The ratio the balancers compute. *)
Lemma mpki_near miss instr :
  0 < miss < 2 ^ 63 → 0 < instr < 2 ^ 63 →
  normal (mpki miss instr) ∧
  near 4 (inject_Z (1000 * miss) / inject_Z instr) (dval (mpki miss instr)).
Proof.
  intros Hm Hi. unfold mpki.
  destruct (dbl_of_Z_near miss ltac:(lia)) as [Nm Am].
  destruct (dbl_of_Z_near instr ltac:(lia)) as [Ni Ai].
  destruct (normal_exponent _ _ _ Nm (near_bounds 1 _ _ 0 64 ltac:(lia) Am (int_range miss ltac:(lia))))
    as (mm & em & Em & Hmm & Hem).
  destruct (normal_exponent _ _ _ Ni (near_bounds 1 _ _ 0 64 ltac:(lia) Ai (int_range instr ltac:(lia))))
    as (mi & ei & Ei & Hmi & Hei).
  assert (N1 : normal (dbl_of_Z 1000)) by (apply (dbl_of_Z_near 1000); lia).
  assert (B1 : (bpow 9 <= dval (dbl_of_Z 1000) <= bpow 10)%Q) by (split; by vm_compute).
  destruct (normal_exponent _ _ _ N1 B1) as (mk & ek & Ek & Hmk & Hek).
  destruct (dbl_div_near _ _ _ _ _ _ Ei Ek Hmi Hmk ltac:(lia)) as [Nd Ad].
  rewrite dbl_1000_val in Ad.
  set (den := dbl_div (dbl_of_Z instr) (dbl_of_Z 1000)) in *.
  assert (Aq : near 2 (inject_Z instr / inject_Z 1000) (dval den)).
  { apply (near_trans 1 1 _ (dval (dbl_of_Z instr) / inject_Z 1000)); [|done].
    apply (near_div 1 0); [done|by apply near_refl| |done].
    change 0%Q with (inject_Z 0). rewrite <-Zle_Qle. lia. }
  assert (Pi : (0 < inject_Z instr)%Q) by (change 0%Q with (inject_Z 0); rewrite <-Zlt_Qlt; lia).
  assert (Bq : (bpow (-10) <= inject_Z instr / inject_Z 1000 <= bpow 64)%Q).
  { destruct (int_range instr ltac:(lia)) as [L U]. split.
    - apply Qle_shift_div_l; [done|]. apply (Qle_trans _ (bpow 0)); [by vm_compute|done].
    - apply Qle_shift_div_r; [done|]. apply (Qle_trans _ _ _ U). by vm_compute. }
  destruct (normal_exponent _ _ _ Nd (near_bounds 2 _ _ _ _ ltac:(lia) Aq Bq)) as (md & ed & Ed & Hmd & Hed).
  destruct (dbl_div_near _ _ _ _ _ _ Em Ed Hmm Hmd ltac:(lia)) as [Nr Ar].
  split; [done|].
  assert (Ex : (inject_Z (1000 * miss) / inject_Z instr ==
                inject_Z miss / (inject_Z instr / inject_Z 1000))%Q).
  { rewrite inject_Z_mult. field. lra. }
  rewrite Ex. apply (near_trans 3 1 _ (dval (dbl_of_Z miss) / dval den)); [|done].
  apply (near_div 1 2); [done..| |].
  - change 0%Q with (inject_Z 0). rewrite <-Zle_Qle. lia.
  - apply Qlt_shift_div_l; [done|lra].
Qed.

(** ** Comparison *)

Definition finite_valid (x : double) : Prop :=
  ∃ m e, x = S754_finite false m e ∧ valid_binary 53 1024 x = true.

Lemma normal_valid x : normal x → finite_valid x.
Proof.
  intros (m & e & -> & Hm & He). exists m, e. split; [done|].
  unfold valid_binary, bounded, canonical_mantissa. rewrite (normal_digits m Hm).
  unfold fexp, emin. apply andb_true_intro. split; [apply Z.eqb_eq|apply Z.leb_le]; lia.
Qed.

(** A valid double above the least exponent has a full significand. *)
Lemma valid_digits m e :
  valid_binary 53 1024 (S754_finite false m e) = true →
  Zpos m < 2 ^ 53 ∧ -1074 ≤ e ∧ (-1074 < e → 2 ^ 52 ≤ Zpos m).
Proof.
  unfold valid_binary, bounded, canonical_mantissa. intros [Hc _]%andb_prop.
  apply Z.eqb_eq in Hc. unfold fexp, emin in Hc. pose proof (digits2_bounds m) as Hb.
  set (d := Zpos (digits2_pos m)) in *.
  assert (2 ^ d ≤ 2 ^ 53) by (apply Z.pow_le_mono_r; lia). split; [lia|]. split; [lia|].
  intros He. replace 52 with (d - 1) by lia. lia.
Qed.

(** Between valid doubles of different exponents the larger exponent decides. *)
Lemma exponent_decides m1 e1 m2 e2 :
  Zpos m1 < 2 ^ 53 → 2 ^ 52 ≤ Zpos m2 → e1 < e2 →
  (inject_Z (Zpos m1) * bpow e1 < inject_Z (Zpos m2) * bpow e2)%Q.
Proof.
  intros H1 H2 He. replace e2 with (e1 + (e2 - e1)) by lia. rewrite <-bpow_shift by lia.
  apply Qmult_lt_compat_r; [apply bpow_pos|]. rewrite <-Zlt_Qlt.
  assert (2 ^ 1 ≤ 2 ^ (e2 - e1)) by (apply Z.pow_le_mono_r; lia). nia.
Qed.

(** On valid finite doubles [>] compares the values. *)
Lemma dbl_gt_spec x y :
  finite_valid x → finite_valid y → dbl_gt x y = true ↔ (dval y < dval x)%Q.
Proof.
  intros (m1 & e1 & -> & V1) (m2 & e2 & -> & V2).
  apply valid_digits in V1 as (A1 & L1 & F1), V2 as (A2 & L2 & F2).
  unfold dbl_gt, SFltb, SFcompare. cbn [dval].
  destruct (Z.compare_spec e2 e1) as [->|Hlt|Hgt].
  - rewrite (Qmult_lt_r _ _ (bpow e1) (bpow_pos e1)), <-Zlt_Qlt.
    change (Pos.compare_cont Eq m2 m1) with (Pos.compare m2 m1).
    destruct (Pos.compare_spec m2 m1) as [->| |]; split; try done; lia.
  - split; [|done]. intros _. apply exponent_decides; [done|apply F1; lia|done].
  - pose proof (exponent_decides m1 e1 m2 e2 A1 (F2 ltac:(lia)) Hgt).
    split; [done|]. intros Hc. exfalso. lra.
Qed.

(** The decision both balancers make from two counts. *)
Lemma mpki_decision miss instr thresh :
  0 ≤ miss < 2 ^ 63 → 0 < instr < 2 ^ 63 → finite_valid thresh →
  let ratio := (inject_Z (1000 * miss) / inject_Z instr)%Q in
  (dval thresh * (1 + (1 # 2 ^ 49)) < ratio → dbl_gt (mpki miss instr) thresh = true)%Q ∧
  (ratio * (1 + (1 # 2 ^ 49)) <= dval thresh → dbl_gt (mpki miss instr) thresh = false)%Q.
Proof.
  intros Hm Hi Ht ratio. assert (Pt : (0 < dval thresh)%Q).
  { destruct Ht as (m & e & -> & _). cbn [dval]. apply Qmult_lt_0_compat; [done|apply bpow_pos]. }
  assert (Pi : (0 < inject_Z instr)%Q) by (change 0%Q with (inject_Z 0); rewrite <-Zlt_Qlt; lia).
  destruct (decide (miss = 0)) as [->|Hne].
  { assert (Z0 : (ratio == 0)%Q) by (unfold ratio; rewrite Z.mul_0_r; apply Qmult_0_l).
    rewrite Z0. split.
    { intros H. assert (0 < dval thresh * (1 + (1 # 2 ^ 49)))%Q by (by apply Qmult_lt_0_compat).
      exfalso. lra. }
    intros _.
    destruct (mpki_near 1 instr ltac:(lia) Hi) as [Hn _]. unfold mpki in *.
    change (dbl_of_Z 0) with (S754_zero false). destruct Ht as (m & e & -> & _).
    destruct (dbl_div (dbl_of_Z instr) (dbl_of_Z 1000)) as [[]|[]| |[]]; try done;
      by destruct Hn as (? & ? & [=] & _). }
  destruct (mpki_near miss instr ltac:(lia) Hi) as [Hn [A1 A2]]. fold ratio in A1, A2.
  pose proof (dbl_gt_spec _ _ (normal_valid _ Hn) Ht) as Hc.
  assert (Hf : (ulp_factor ^ Z.of_nat 4 <= 1 + (1 # 2 ^ 49))%Q) by (by vm_compute).
  assert (Hp : (0 < ulp_factor ^ Z.of_nat 4)%Q) by apply factor_pos.
  set (f := (ulp_factor ^ Z.of_nat 4)%Q) in *. set (v := dval (mpki miss instr)) in *. clearbody f v.
  split.
  - intros H. apply Hc. apply (Qmult_lt_r _ _ f Hp).
    assert (dval thresh * f <= dval thresh * (1 + (1 # 2 ^ 49)))%Q by (apply Qmult_le_both; lra). lra.
  - intros H. destruct (dbl_gt _ _); [|done]. destruct Hc as [Hc _]. specialize (Hc eq_refl). exfalso.
    assert (Pr : (0 <= ratio)%Q).
    { unfold ratio. apply Qle_shift_div_l; [done|]. rewrite Qmult_0_l.
      change 0%Q with (inject_Z 0). rewrite <-Zle_Qle. lia. }
    assert (ratio * f <= ratio * (1 + (1 # 2 ^ 49)))%Q by (apply Qmult_le_both; lra). lra.
Qed.
