(* ===== verification/SchedOs.v ===== *)
(** * The system under the scheduler (src/sched/)

    The calls the scheduling code makes of the kernel, of glibc and of libnuma, as
    a record of functions on a state [K] the rest of the development does not look
    into.  [SchedOS_ok] states what the code relies on: which descriptors a call
    opens and closes, and which CPU masks are allocated.  The code itself is in a
    small state monad over [K], written with the notations of stdpp. *)

From stdpp Require Import prelude gmap.
From Stdlib Require Import ZArith Lia.
From S2P Require Import Prelude Words.
Local Open Scope Z_scope.

(** ** Programs that call the system *)

Definition io (K A : Type) : Type := K → A * K.

#[export] Instance io_ret {K} : MRet (io K) := λ A a k, (a, k).
#[export] Instance io_bind {K} : MBind (io K) := λ A B f m k, let r := m k in f r.1 r.2.

(** Executes the binds of a program, naming nothing. *)
Ltac run_io := cbv beta zeta delta [mbind io_bind mret io_ret]; cbn [fst snd].

(** ** Performance counters *)

(** The fields of [struct perf_event_attr] the code sets; the others are zero. *)
Record perf_event_attr := mk_attr {
  pe_type : Z;
  pe_config : Z;
  pe_disabled : Z;
  pe_exclude_kernel : Z;
  pe_exclude_hv : Z;
  pe_inherit : Z;
}.

Definition PERF_TYPE_HARDWARE : Z := 0.
Definition PERF_COUNT_HW_INSTRUCTIONS : Z := 1.
Definition PERF_COUNT_HW_CACHE_MISSES : Z := 3.

Inductive perf_request := PERF_EVENT_IOC_RESET | PERF_EVENT_IOC_ENABLE | PERF_EVENT_IOC_DISABLE.

(** ** CPU sets

    A [cpu_set_t] is a mask of 1024 bits; [CPU_SET] outside it does nothing. *)
Definition CPU_SETSIZE : Z := 1024.
Definition CPU_ZERO : Z := 0.
Definition CPU_SET (cpu : Z) (cpuset : Z) : Z :=
  if (0 <=? cpu) && (cpu <? CPU_SETSIZE) then Z.setbit cpuset cpu else cpuset.

(** [for (i = 0; i < n; i++) CPU_SET(i, &cpuset)] *)
Definition fill_online (n : Z) : Z := foldl (λ s i, CPU_SET i s) CPU_ZERO (seqZ 0 n).

(** The same for the CPUs whose bit is set in a libnuma mask. *)
Definition fill_mask (n mask : Z) : Z :=
  foldl (λ s i, if Z.testbit mask i then CPU_SET i s else s) CPU_ZERO (seqZ 0 n).

Lemma CPU_SET_spec cpu s c :
  0 ≤ c → Z.testbit (CPU_SET cpu s) c = Z.testbit s c || ((c =? cpu) && (c <? CPU_SETSIZE)).
Proof.
  intros Hc. unfold CPU_SET, CPU_SETSIZE. cmp_cases; rewrite ?orb_false_r, ?Z.setbit_eqb by lia;
    try done; try lia; destruct (Z.eqb_spec cpu c); try lia; by rewrite ?orb_true_r, ?orb_false_r.
Qed.

(** Exactly the CPUs asked for, below the size of a [cpu_set_t]. *)
Lemma fill_mask_spec n mask c :
  0 ≤ c → Z.testbit (fill_mask n mask) c = Z.testbit mask c && (c <? n) && (c <? CPU_SETSIZE).
Proof.
  intros Hc. unfold fill_mask.
  assert (H : ∀ l s, Z.testbit (foldl (λ s i, if Z.testbit mask i then CPU_SET i s else s) s l) c =
    Z.testbit s c || (bool_decide (c ∈ l) && Z.testbit mask c && (c <? CPU_SETSIZE))).
  { induction l as [|i l IH]; intros s; simpl; [by rewrite orb_false_r|]. rewrite IH.
    rewrite (bool_decide_ext (c ∈ i :: l) (c = i ∨ c ∈ l)) by apply elem_of_cons.
    rewrite bool_decide_or. destruct (Z.eqb_spec c i) as [->|Hne].
    - rewrite (bool_decide_eq_true_2 (i = i)) by done. destruct (Z.testbit mask i) eqn:Em.
      + rewrite CPU_SET_spec, Z.eqb_refl by done. simpl.
        by destruct (Z.testbit s i), (i <? CPU_SETSIZE), (bool_decide (i ∈ l)).
      + by destruct (bool_decide (i ∈ l)), (Z.testbit s i), (i <? CPU_SETSIZE).
    - rewrite (bool_decide_eq_false_2 (c = i)) by done. simpl. destruct (Z.testbit mask i); [|done].
      rewrite CPU_SET_spec by done. destruct (Z.eqb_spec c i); [done|]. by rewrite orb_false_r. }
  rewrite H. unfold CPU_ZERO. rewrite Z.testbit_0_l. simpl.
  rewrite (bool_decide_ext _ (c < n)) by (rewrite elem_of_seqZ; lia).
  destruct (Z.ltb_spec c n); [rewrite bool_decide_eq_true_2 by done|rewrite bool_decide_eq_false_2 by lia];
    by destruct (Z.testbit mask c).
Qed.

(** ** The calls *)

Record sched_os (K : Type) := {
  (* the attributes and the thread id; the new descriptor, or -1 *)
  perf_event_open : perf_event_attr → Z → io K Z;
  sys_close : Z → io K ();
  sys_ioctl : Z → perf_request → io K ();
  (* the return value, and the counter when something was read, else 0 *)
  sys_read : Z → io K (Z * Z);
  (* a mask, or NULL *)
  numa_allocate_cpumask : io K bool;
  numa_free_cpumask : io K ();
  (* the return value and the mask filled in *)
  numa_node_to_cpus : Z → io K (Z * Z);
  (* the thread and the CPU set; 0 or an error number *)
  pthread_setaffinity_np : Z → Z → io K Z;
  (* the CPU set of the calling thread; 0 or -1 *)
  sched_setaffinity : Z → io K Z;
  numa_available : Z;
  numa_max_node : Z;
  numa_num_configured_cpus : Z;
  sysconf_nprocessors : Z;
}.
Arguments perf_event_open {K}.
Arguments sys_close {K}.
Arguments sys_ioctl {K}.
Arguments sys_read {K}.
Arguments numa_allocate_cpumask {K}.
Arguments numa_free_cpumask {K}.
Arguments numa_node_to_cpus {K}.
Arguments pthread_setaffinity_np {K}.
Arguments sched_setaffinity {K}.
Arguments numa_available {K}.
Arguments numa_max_node {K}.
Arguments numa_num_configured_cpus {K}.
Arguments sysconf_nprocessors {K}.

(** What the code relies on: [open_fds] are the process's open descriptors,
    [cpumasks] counts the masks allocated and not freed. *)
Class SchedOS_ok {K : Type} (os : sched_os K) := {
  open_fds : K → gset Z;
  cpumasks : K → Z;
  fds_nonneg k fd : fd ∈ open_fds k → 0 ≤ fd;
  perf_open_ok a pid k :
    let fd := (perf_event_open os a pid k).1 in
    let k' := (perf_event_open os a pid k).2 in
    cpumasks k' = cpumasks k ∧
    ((fd = -1 ∧ open_fds k' = open_fds k) ∨
     (0 ≤ fd < 2 ^ 31 ∧ (fd ∉ open_fds k) ∧ open_fds k' = {[ fd ]} ∪ open_fds k));
  close_ok fd k :
    cpumasks (sys_close os fd k).2 = cpumasks k ∧
    open_fds (sys_close os fd k).2 = open_fds k ∖ {[ fd ]};
  ioctl_ok fd q k :
    cpumasks (sys_ioctl os fd q k).2 = cpumasks k ∧ open_fds (sys_ioctl os fd q k).2 = open_fds k;
  read_ok fd k :
    cpumasks (sys_read os fd k).2 = cpumasks k ∧ open_fds (sys_read os fd k).2 = open_fds k;
  alloc_mask_ok k :
    let got := (numa_allocate_cpumask os k).1 in
    let k' := (numa_allocate_cpumask os k).2 in
    open_fds k' = open_fds k ∧ cpumasks k' = cpumasks k + (if got then 1 else 0);
  free_mask_ok k :
    open_fds (numa_free_cpumask os k).2 = open_fds k ∧
    cpumasks (numa_free_cpumask os k).2 = cpumasks k - 1;
  node_to_cpus_ok n k :
    open_fds (numa_node_to_cpus os n k).2 = open_fds k ∧
    cpumasks (numa_node_to_cpus os n k).2 = cpumasks k;
  setaffinity_ok t s k :
    open_fds (pthread_setaffinity_np os t s k).2 = open_fds k ∧
    cpumasks (pthread_setaffinity_np os t s k).2 = cpumasks k;
}.

(** ** A concrete system, for examples

    Two nodes of four CPUs.  The state is what is open and on which event, the
    CPU set of each thread, and a script of answers to [perf_event_open] ([true],
    or the end of the script: there is a counter).  [reads] is what reading a
    descriptor returns. *)
Record demo_kernel := mk_kernel {
  dk_open : gset nat;
  dk_events : gmap Z Z;
  dk_masks : Z;
  dk_affinity : gmap Z Z;
  dk_script : list bool;
}.

(** The least descriptor that is not open, among 64. *)
Definition least_free (s : gset nat) : option nat :=
  snd <$> list_find (λ i, i ∉ s) (seq 0 64).

Definition demo_perf_open (a : perf_event_attr) (pid : Z) : io demo_kernel Z := λ k,
  let refused := (-1, mk_kernel (dk_open k) (dk_events k) (dk_masks k) (dk_affinity k) (tail (dk_script k))) in
  match head (dk_script k), least_free (dk_open k) with
  | Some false, _ | _, None => refused
  | _, Some i =>
      (Z.of_nat i, mk_kernel ({[ i ]} ∪ dk_open k) (<[Z.of_nat i := pe_config a]> (dk_events k))
                     (dk_masks k) (dk_affinity k) (tail (dk_script k)))
  end.

Definition demo_sched (reads : demo_kernel → Z → Z * Z) : sched_os demo_kernel := {|
  perf_event_open := demo_perf_open;
  sys_close fd k := (tt, mk_kernel (if 0 <=? fd then dk_open k ∖ {[ Z.to_nat fd ]} else dk_open k)
                      (dk_events k) (dk_masks k) (dk_affinity k) (dk_script k));
  sys_ioctl _ _ k := (tt, k);
  sys_read fd k := (reads k fd, k);
  numa_allocate_cpumask k :=
    (true, mk_kernel (dk_open k) (dk_events k) (dk_masks k + 1) (dk_affinity k) (dk_script k));
  numa_free_cpumask k :=
    (tt, mk_kernel (dk_open k) (dk_events k) (dk_masks k - 1) (dk_affinity k) (dk_script k));
  numa_node_to_cpus n k :=
    (if (0 <=? n) && (n <? 2) then (0, Z.shiftl 15 (4 * n)) else (-1, 0), k);
  pthread_setaffinity_np t s k :=
    if s =? 0 then (22, k)
    else (0, mk_kernel (dk_open k) (dk_events k) (dk_masks k) (<[t := s]> (dk_affinity k)) (dk_script k));
  sched_setaffinity s k :=
    if s =? 0 then (-1, k)
    else (0, mk_kernel (dk_open k) (dk_events k) (dk_masks k) (<[0 := s]> (dk_affinity k)) (dk_script k));
  numa_available := 0;
  numa_max_node := 1;
  numa_num_configured_cpus := 8;
  sysconf_nprocessors := 8;
|}.

(** Counters that read a fixed number for each event. *)
Definition by_event (counts : Z → Z) (k : demo_kernel) (fd : Z) : Z * Z :=
  match dk_events k !! fd with Some ev => (8, counts ev) | None => (-1, 0) end.

Definition demo_kernel0 (script : list bool) : demo_kernel := mk_kernel {[ 0%nat; 1%nat; 2%nat ]} ∅ 0 ∅ script.

Lemma least_free_fresh s i : least_free s = Some i → (i ∉ s) ∧ (i < 64)%nat.
Proof.
  unfold least_free. intros ([j i'] & Hf & ->)%fmap_Some. apply list_find_Some in Hf as (H & Hi & _). simpl. split; [done|].
  apply lookup_seq in H. lia.
Qed.

#[export] Program Instance demo_sched_ok reads : SchedOS_ok (demo_sched reads) := {|
  open_fds k := set_map Z.of_nat (dk_open k);
  cpumasks := dk_masks;
|}.
Next Obligation. intros reads k fd H. simpl in H. apply elem_of_map in H as (i & -> & _). lia. Qed.
Next Obligation.
  intros reads a pid k. simpl. unfold demo_perf_open.
  destruct (head (dk_script k)) as [[]|]; destruct (least_free (dk_open k)) as [i|] eqn:E; simpl;
    (split; [done|]); try (by left); right; apply least_free_fresh in E as [Hi Hlt];
    (split; [lia|]); (split; [|by rewrite set_map_union_L, set_map_singleton_L]);
    intros (j & Ej & Hj)%elem_of_map; by replace i with j in Hi by lia.
Qed.
Next Obligation.
  intros reads fd k. simpl. split; [done|]. apply set_eq. intros x.
  rewrite elem_of_difference, !elem_of_map, elem_of_singleton.
  destruct (Z.leb_spec 0 fd); [|split; [intros (i & -> & ?)|intros [(i & -> & ?) _]]; eauto with lia].
  setoid_rewrite elem_of_difference. setoid_rewrite elem_of_singleton. split.
  - intros (i & -> & Hi & Hne). split; [by exists i|]. intros E. apply Hne. lia.
  - intros [(i & -> & Hi) Hne]. exists i. split_and!; [done..|]. intros ->. lia.
Qed.
Next Obligation. done. Qed.
Next Obligation. done. Qed.
Next Obligation. done. Qed.
Next Obligation. done. Qed.
Next Obligation. done. Qed.
Next Obligation. intros reads t s k. simpl. by destruct (s =? 0). Qed.
