(* ===== verification/FairLock.v ===== *)
(** * What a fair lock promises

    The contract the ticket lock and the MCS lock share: an abstract FIFO lock
    (a queue of threads whose head may hold the lock), the class [FairLock] of
    concurrent implementations that simulate it, and the guarantees every such
    implementation has: mutual exclusion, first come first served, and the
    lock being granted as soon as the thread at the head of the queue runs. *)

From stdpp Require Import prelude.
From S2P Require Import Prelude.

(** ** The abstract lock *)

Inductive lock_event :=
| Enter (t : nat)      (* the thread takes its place in the queue *)
| Grant (t : nat)      (* the thread owns the lock *)
| Release (t : nat).   (* the thread gives the lock up *)

Record fifo := mk_fifo {
  fifo_queue : list nat;
  fifo_held : bool;
}.

Definition fifo_init : fifo := mk_fifo [] false.

Definition fifo_step (f : fifo) (e : lock_event) : option fifo :=
  match e with
  | Enter t =>
      if decide (t ∈ fifo_queue f) then None
      else Some (mk_fifo (fifo_queue f ++ [t]) (fifo_held f))
  | Grant t =>
      if fifo_held f then None else
      if decide (head (fifo_queue f) = Some t) then Some (mk_fifo (fifo_queue f) true) else None
  | Release t =>
      if negb (fifo_held f) then None else
      if decide (head (fifo_queue f) = Some t) then Some (mk_fifo (tail (fifo_queue f)) false)
      else None
  end.

Definition enters (es : list lock_event) : list nat :=
  omap (λ e, match e with Enter t => Some t | _ => None end) es.
Definition grants (es : list lock_event) : list nat :=
  omap (λ e, match e with Grant t => Some t | _ => None end) es.
Definition releases (es : list lock_event) : list nat :=
  omap (λ e, match e with Release t => Some t | _ => None end) es.

(** The bookkeeping of a history: who entered has left, or is in the queue; who
    was granted the lock has left, or is the holder. *)
Definition history (es : list lock_event) (f : fifo) : Prop :=
  enters es = releases es ++ fifo_queue f ∧
  grants es = releases es ++ (if fifo_held f then option_list (head (fifo_queue f)) else []) ∧
  NoDup (fifo_queue f) ∧ (fifo_held f = true → fifo_queue f ≠ []).

Lemma history_step es f e f' :
  history es f → fifo_step f e = Some f' → history (es ++ [e]) f'.
Proof.
  unfold history, enters, grants, releases. intros (He & Hg & Hnd & Hh) Hs.
  rewrite !omap_app, He, Hg. destruct f as [q held]. simpl in *.
  destruct e as [t|t|t]; simpl in *; rewrite ?app_nil_r.
  - case_decide as Hin; [done|]. simplify_eq. simpl. rewrite app_assoc. split_and!; [done| | |].
    + destruct held; [|done]. destruct q; [by destruct Hh|done].
    + apply NoDup_app. split_and!; [done| |apply NoDup_singleton].
      intros x Hx ->%list_elem_of_singleton. done.
    + intros _. by destruct q.
  - destruct held; [done|]. case_decide as Ht; [|done]. simplify_eq. simpl.
    rewrite Ht, app_nil_r. split_and!; try done. intros _ ->. done.
  - destruct held; [|done]. simpl in Hs. case_decide as Ht; [|done]. simplify_eq.
    destruct q as [|t' q]; simplify_eq. simpl. apply NoDup_cons in Hnd as [_ Hnd].
    simpl in Ht. simplify_eq. rewrite <-app_assoc, app_nil_r. by split_and!.
Qed.

(** ** The interface *)

Section interface.
Context {St Lbl : Type}.

(** A concurrent implementation: threads take steps, each with the lock events
    it amounts to. *)
Variable step : St → Lbl → option (St * list lock_event).

Definition fifo_run (f : fifo) (es : list lock_event) : option fifo :=
  run fifo_step f es.

(** [in_critical s t]: thread [t] is between its lock and its unlock call.
    [spins s t]: thread [t] is in the waiting loop of its lock call. *)
Class FairLock (init : St) (in_critical spins : St → nat → Prop) (advance : nat → Lbl) := {
  fl_rep : St → fifo → Prop;
  fl_init : fl_rep init fifo_init;
  fl_simulates s f l s' es : fl_rep s f → step s l = Some (s', es) →
    ∃ f', fifo_run f es = Some f' ∧ fl_rep s' f';
  fl_critical s f t : fl_rep s f → in_critical s t →
    fifo_held f = true ∧ head (fifo_queue f) = Some t;
  fl_spinning s f t : fl_rep s f → spins s t → t ∈ fifo_queue f;
  fl_progress s f t : fl_rep s f → fifo_held f = false → head (fifo_queue f) = Some t →
    ∃ n s', traced step s (replicate n (advance t)) = Some (s', [Grant t]) ∧ in_critical s' t;
}.

(** ** Guarantees of every fair lock *)

Context {init : St} {in_critical spins : St → nat → Prop} {advance : nat → Lbl}.
Context `{FL : !FairLock init in_critical spins advance}.

Lemma history_run es f es' f' :
  history es f → fifo_run f es' = Some f' → history (es ++ es') f'.
Proof.
  revert es f. induction es' as [|e es' IH]; intros es f Hh Hr; simpl in Hr.
  - simplify_eq. by rewrite app_nil_r.
  - destruct (fifo_step f e) as [f1|] eqn:E; [|done].
    rewrite cons_middle, app_assoc. eapply IH; [|done]. by eapply history_step.
Qed.

(** Every schedule is a history of the abstract lock. *)
Lemma fair_simulates s f ls s' es :
  fl_rep s f → traced step s ls = Some (s', es) →
  ∃ f', fifo_run f es = Some f' ∧ fl_rep s' f'.
Proof.
  revert s f es. induction ls as [|l ls IH]; intros s f es Hr Hs; simpl in Hs.
  { simplify_eq. by exists f. }
  destruct (step s l) as [[s1 es1]|] eqn:E1; [|done].
  destruct (traced step s1 ls) as [[s2 es2]|] eqn:E2; [|done]. simplify_eq.
  destruct (fl_simulates s f l s1 es1 Hr E1) as (f1 & Hf1 & Hr1).
  destruct (IH s1 f1 es2 Hr1 E2) as (f2 & Hf2 & Hr2).
  exists f2. split; [|done]. unfold fifo_run in *. by rewrite run_app, Hf1.
Qed.

Lemma fair_history ls s es :
  traced step init ls = Some (s, es) → ∃ f, history es f ∧ fl_rep s f.
Proof.
  intros Hs. destruct (fair_simulates init fifo_init ls s es fl_init Hs) as (f & Hf & Hr).
  exists f. split; [|done]. apply (history_run [] fifo_init es f); [|done].
  split_and!; try done. constructor.
Qed.

(** At most one thread is in its critical section. *)
Lemma fair_exclusion ls s es t1 t2 :
  traced step init ls = Some (s, es) → in_critical s t1 → in_critical s t2 → t1 = t2.
Proof.
  intros Hs H1 H2. destruct (fair_history ls s es Hs) as (f & _ & Hr).
  apply (fl_critical s f t1 Hr) in H1 as [_ H1]. apply (fl_critical s f t2 Hr) in H2 as [_ H2].
  congruence.
Qed.

(** The lock is granted in the order the threads entered. *)
Lemma fair_fifo ls s es :
  traced step init ls = Some (s, es) → grants es `prefix_of` enters es.
Proof.
  intros Hs. destruct (fair_history ls s es Hs) as (f & (He & Hg & _) & _).
  rewrite He, Hg. apply prefix_app. destruct (fifo_held f); [|apply prefix_nil].
  destruct (fifo_queue f); [apply prefix_nil|]. simpl. apply prefix_cons, prefix_nil.
Qed.

(** When a thread waits and no thread holds the lock, the thread that entered
    first among those waiting gets the lock by running on its own. *)
Lemma fair_progress ls s es t :
  traced step init ls = Some (s, es) → spins s t → grants es = releases es →
  ∃ t' n s', traced step s (replicate n (advance t')) = Some (s', [Grant t']) ∧
    in_critical s' t' ∧ (grants es ++ [t']) `prefix_of` enters es.
Proof.
  intros Hs Hw Heq. destruct (fair_history ls s es Hs) as (f & (He & Hg & _ & Hn) & Hr).
  apply (fl_spinning s f t Hr) in Hw.
  destruct (fifo_queue f) as [|t' q] eqn:Eq; [by apply not_elem_of_nil in Hw|].
  assert (Hfree : fifo_held f = false).
  { destruct (fifo_held f) eqn:Eh; [exfalso|done]. simpl in Hg.
    apply (f_equal length) in Hg. rewrite Heq, length_app in Hg. simpl in Hg. lia. }
  destruct (fl_progress s f t' Hr Hfree) as (n & s' & E & Hc); [by rewrite Eq|].
  exists t', n, s'. split_and!; [done|done|].
  rewrite Heq, He. apply prefix_app, prefix_cons, prefix_nil.
Qed.
End interface.
