(* ===== verification/TicketLock.v ===== *)
(** * The ticket lock (src/sync/ticket_lock.c)

    Threads interleave at the granularity of the lock's atomic accesses: the
    fetch-and-add of the ticket, each load of [serving], each pause of the
    proportional backoff, and the fetch-and-add of the release.  Both counters
    are 32 bits wide and wrap. *)

From stdpp Require Import prelude.
From Stdlib Require Import ZArith Lia.
From S2P Require Import Prelude Words FairLock.
Local Open Scope Z_scope.

(** ** Data and steps *)

Record nkit_ticket_lock_t := mk_ticket {
  tk_ticket : Z;
  tk_serving : Z;
}.

Definition nkit_ticket_init : nkit_ticket_lock_t := mk_ticket 0 0.

(** Where a thread is in [nkit_ticket_lock], with the locals live there. *)
Inductive ticket_pc :=
| TkIdle
| TkSpin (my_ticket : Z)
| TkPause (my_ticket distance i : Z)
| TkHeld.

Record ticket_state := mk_tks {
  tks_lock : nkit_ticket_lock_t;
  tks_threads : list ticket_pc;
}.

Inductive ticket_label :=
| TkLock (t : nat)      (* the thread calls [nkit_ticket_lock] *)
| TkAdvance (t : nat)   (* the thread goes on in its waiting loop *)
| TkUnlock (t : nat).   (* the thread calls [nkit_ticket_unlock] *)

(** The fetch-and-add that starts [nkit_ticket_lock]: the lock and [my_ticket]. *)
Definition ticket_take (lk : nkit_ticket_lock_t) : nkit_ticket_lock_t * Z :=
  (mk_ticket (u32 (tk_ticket lk + 1)) (tk_serving lk), tk_ticket lk).

(** One step of the waiting loop of [nkit_ticket_lock]. *)
Definition ticket_spin (lk : nkit_ticket_lock_t) (pc : ticket_pc) : option ticket_pc :=
  match pc with
  | TkSpin my_ticket =>
      let current := tk_serving lk in
      if current =? my_ticket then Some TkHeld
      else Some (TkPause my_ticket (u32 (my_ticket - current)) 0)
  | TkPause my_ticket distance i =>
      if i <? distance then Some (TkPause my_ticket distance (u32 (i + 1)))
      else Some (TkSpin my_ticket)
  | TkIdle | TkHeld => None
  end.

Definition nkit_ticket_unlock (lk : nkit_ticket_lock_t) : nkit_ticket_lock_t :=
  mk_ticket (tk_ticket lk) (u32 (tk_serving lk + 1)).

Definition ticket_step (s : ticket_state) (l : ticket_label)
    : option (ticket_state * list lock_event) :=
  match l with
  | TkLock t =>
      match tks_threads s !! t with
      | Some TkIdle =>
          let '(lk, my_ticket) := ticket_take (tks_lock s) in
          Some (mk_tks lk (<[t := TkSpin my_ticket]> (tks_threads s)), [Enter t])
      | _ => None
      end
  | TkAdvance t =>
      match tks_threads s !! t with
      | Some pc =>
          match ticket_spin (tks_lock s) pc with
          | Some pc' =>
              Some (mk_tks (tks_lock s) (<[t := pc']> (tks_threads s)),
                    match pc' with TkHeld => [Grant t] | _ => [] end)
          | None => None
          end
      | None => None
      end
  | TkUnlock t =>
      match tks_threads s !! t with
      | Some TkHeld =>
          Some (mk_tks (nkit_ticket_unlock (tks_lock s)) (<[t := TkIdle]> (tks_threads s)),
                [Release t])
      | _ => None
      end
  end.

(** [n] threads before their first call. *)
Definition ticket_start (n : nat) : ticket_state :=
  mk_tks nkit_ticket_init (replicate n TkIdle).

Definition ticket_critical (s : ticket_state) (t : nat) : Prop :=
  tks_threads s !! t = Some TkHeld.

Definition ticket_waiting (s : ticket_state) (t : nat) : Prop :=
  ∃ m, tks_threads s !! t = Some (TkSpin m) ∨ ∃ d i, tks_threads s !! t = Some (TkPause m d i).

(** ** The abstraction *)

(** What thread [t]'s position says about the queue, [served] threads having
    come and gone. *)
Definition ticket_at (served : Z) (f : fifo) (t : nat) (pc : ticket_pc) : Prop :=
  match pc with
  | TkIdle => t ∉ fifo_queue f
  | TkHeld => fifo_held f = true ∧ head (fifo_queue f) = Some t
  | TkSpin m =>
      ∃ i, fifo_queue f !! i = Some t ∧ m = u32 (served + Z.of_nat i) ∧
           (fifo_held f = true → i ≠ 0%nat)
  | TkPause m d j =>
      (∃ i, fifo_queue f !! i = Some t ∧ m = u32 (served + Z.of_nat i) ∧
            (fifo_held f = true → i ≠ 0%nat)) ∧ 0 ≤ j ≤ d ∧ d < 2 ^ 32
  end.

Record ticket_counts (served : Z) (s : ticket_state) (f : fifo) : Prop := {
  tc_serving : tk_serving (tks_lock s) = u32 served;
  tc_ticket : tk_ticket (tks_lock s) = u32 (served + Z.of_nat (length (fifo_queue f)));
  tc_nodup : NoDup (fifo_queue f);
  tc_bound : ∀ t, t ∈ fifo_queue f → (t < length (tks_threads s))%nat;
  tc_few : Z.of_nat (length (tks_threads s)) ≤ 2 ^ 32;
  tc_held : fifo_held f = true → fifo_queue f ≠ [];
  tc_at : ∀ t pc, tks_threads s !! t = Some pc → ticket_at served f t pc;
}.

Definition ticket_rep (s : ticket_state) (f : fifo) : Prop := ∃ served, ticket_counts served s f.

Lemma NoDup_bounded_length (q : list nat) n :
  NoDup q → (∀ t, t ∈ q → (t < n)%nat) → (length q ≤ n)%nat.
Proof.
  intros Hnd Hb. rewrite <-(length_seq n 0). apply submseteq_length, NoDup_submseteq; [done|].
  intros t Ht. apply elem_of_seq. specialize (Hb t Ht). lia.
Qed.

(** ** Simulation *)

Lemma ticket_few served s f :
  ticket_counts served s f → Z.of_nat (length (fifo_queue f)) ≤ 2 ^ 32.
Proof.
  intros C. pose proof (NoDup_bounded_length _ _ (tc_nodup _ _ _ C) (tc_bound _ _ _ C)).
  pose proof (tc_few _ _ _ C). lia.
Qed.

Lemma ticket_lock_sim served s f t :
  ticket_counts served s f → tks_threads s !! t = Some TkIdle →
  ticket_counts served
    (mk_tks (ticket_take (tks_lock s)).1
            (<[t := TkSpin (ticket_take (tks_lock s)).2]> (tks_threads s)))
    (mk_fifo (fifo_queue f ++ [t]) (fifo_held f)) ∧ t ∉ fifo_queue f.
Proof.
  intros C Ht. pose proof (tc_at _ _ _ C t _ Ht) as Hidle. split; [|exact Hidle].
  destruct C as [Hs Htk Hnd Hb Hfew Hheld Hat]. split; simpl.
  - done.
  - rewrite Htk, u32_add_l, length_app. simpl. f_equal. lia.
  - apply NoDup_app. split_and!; [done| |apply NoDup_singleton].
    by intros x Hx ->%list_elem_of_singleton.
  - intros x. rewrite elem_of_app, list_elem_of_singleton, length_insert.
    intros [Hx| ->]; [auto|]. by eapply lookup_lt_Some.
  - by rewrite length_insert.
  - intros _. by destruct (fifo_queue f).
  - apply forall_insert.
    + exists (length (fifo_queue f)). simpl.
      rewrite lookup_app_r, Nat.sub_diag by lia. split_and!; [done|done|].
      intros Hh Hz. by apply (Hheld Hh), nil_length_inv.
    + intros t' pc Hne Hpc. specialize (Hat t' pc Hpc).
      destruct pc as [|m|m d j|]; simpl in *.
      * rewrite elem_of_app, list_elem_of_singleton. tauto.
      * destruct Hat as (i & Hi & Hm). exists i. by rewrite (lookup_app_l_Some _ _ _ _ Hi).
      * destruct Hat as [(i & Hi & Hm) Hd]. split; [|done].
        exists i. by rewrite (lookup_app_l_Some _ _ _ _ Hi).
      * destruct Hat as [Hh Hd]. split; [done|]. by destruct (fifo_queue f).
Qed.

(** A waiting thread's ticket is the served number exactly at the queue's head. *)
Lemma ticket_turn served s f i t :
  ticket_counts served s f → fifo_queue f !! i = Some t →
  tk_serving (tks_lock s) = u32 (served + Z.of_nat i) ↔ i = 0%nat.
Proof.
  intros C Hi. rewrite (tc_serving _ _ _ C). pose proof (ticket_few _ _ _ C).
  apply lookup_lt_Some in Hi. split; [|intros ->; by rewrite Z.add_0_r].
  intros E. apply u32_inj in E; lia.
Qed.

(** Replacing the position of one thread that stays in its place. *)
Lemma ticket_move served s f t pc held' :
  ticket_counts served s f → (held' = true → fifo_queue f ≠ []) →
  (∀ t' pc', t' ≠ t → tks_threads s !! t' = Some pc' →
     ticket_at served (mk_fifo (fifo_queue f) held') t' pc') →
  ticket_at served (mk_fifo (fifo_queue f) held') t pc →
  ticket_counts served (mk_tks (tks_lock s) (<[t := pc]> (tks_threads s)))
                (mk_fifo (fifo_queue f) held').
Proof.
  intros [Hs Htk Hnd Hb Hfew Hheld Hat] Hne Hoth Hpc.
  split; simpl; rewrite ?length_insert; auto. by apply forall_insert.
Qed.

(** A grant to [t] leaves the other threads where they are. *)
Lemma ticket_at_granted served q t t' pc :
  head q = Some t → t' ≠ t →
  ticket_at served (mk_fifo q false) t' pc → ticket_at served (mk_fifo q true) t' pc.
Proof.
  intros Hd Hne. assert (Hpos : ∀ k, q !! k = Some t' → k ≠ 0%nat).
  { intros k Hk ->. rewrite <-head_lookup in Hk. congruence. }
  destruct pc as [|m|m d j|]; simpl.
  - done.
  - intros (i & Hi & Hm & _). exists i. auto.
  - intros [(i & Hi & Hm & _) Hj]. split; [exists i|]; auto.
  - by intros [? _].
Qed.

Lemma ticket_advance_sim served s f t pc pc' :
  ticket_counts served s f → tks_threads s !! t = Some pc →
  ticket_spin (tks_lock s) pc = Some pc' →
  ∃ f', fifo_run f (match pc' with TkHeld => [Grant t] | _ => [] end) = Some f' ∧
        ticket_counts served (mk_tks (tks_lock s) (<[t := pc']> (tks_threads s))) f'.
Proof.
  intros C Ht Hspin. pose proof (tc_at _ _ _ C t pc Ht) as Hat.
  assert (Hsame : ∀ t' pc', t' ≠ t → tks_threads s !! t' = Some pc' →
    ticket_at served (mk_fifo (fifo_queue f) (fifo_held f)) t' pc').
  { intros. by destruct f; apply (tc_at _ _ _ C). }
  destruct pc as [|m|m d j|]; simpl in *; try done.
  - destruct Hat as (i & Hi & -> & Hfree). pose proof (ticket_turn _ _ _ _ _ C Hi) as Hturn.
    destruct (Z.eqb_spec (tk_serving (tks_lock s)) (u32 (served + Z.of_nat i))) as [E|E];
      simplify_eq.
    + apply Hturn in E as ->. assert (Hh : fifo_held f = false) 
        by (apply not_true_is_false; intros Hh; by apply (Hfree Hh)).
      rewrite <-head_lookup in Hi. simpl. rewrite Hh, decide_True by done.
      eexists. split; [done|]. apply ticket_move; auto.
      { intros _ E. by rewrite E in Hi. }
      { intros t' pc' Hne Hpc'. apply (ticket_at_granted _ _ t); auto. rewrite <-Hh. auto. }
      by split.
    + exists f. split; [done|]. destruct f as [q h].
      apply (ticket_move served s (mk_fifo q h)); auto.
      { apply C. }
      split; [by exists i|]. pose proof (u32_range (u32 (served + Z.of_nat i) - tk_serving (tks_lock s))).
      unfold is_u32 in *. lia.
  - destruct Hat as [Hat Hj]. destruct f as [q h].
    destruct (Z.ltb_spec j d); simplify_eq; (eexists; split; [done|]);
      apply (ticket_move served s (mk_fifo q h)); auto; try apply (tc_held _ _ _ C); simpl.
    split; [done|]. rewrite u32_small by (unfold is_u32; lia). lia.
Qed.

Lemma ticket_unlock_sim served s f t :
  ticket_counts served s f → tks_threads s !! t = Some TkHeld →
  ∃ f', fifo_step f (Release t) = Some f' ∧
        ticket_counts (served + 1)
          (mk_tks (nkit_ticket_unlock (tks_lock s)) (<[t := TkIdle]> (tks_threads s))) f'.
Proof.
  intros C Ht. destruct (tc_at _ _ _ C t _ Ht) as [Hh Hd].
  destruct (NoDup_head _ _ (tc_nodup _ _ _ C) Hd) as [Hq Hnin].
  simpl. rewrite Hh, decide_True by done. eexists. split; [done|].
  destruct C as [Hs Htk Hnd Hb Hfew Hheld Hat]. rewrite Hq in Htk, Hnd, Hb.
  apply NoDup_cons in Hnd as [_ Hnd]. split; simpl; rewrite ?length_insert; auto.
  - rewrite Hs, u32_add_l. done.
  - rewrite Htk. simpl. f_equal. lia.
  - intros x Hx. apply Hb. by right.
  - apply forall_insert; [done|]. intros t' pc Hne Hpc. specialize (Hat t' pc Hpc).
    assert (Hshift : ∀ i, fifo_queue f !! i = Some t' →
      ∃ i', i = S i' ∧ tail (fifo_queue f) !! i' = Some t').
    { rewrite Hq. intros [|i'] Hi; simplify_eq/=. eauto. }
    destruct pc as [|m|m d j|]; simpl in *.
    + rewrite Hq in Hat. rewrite not_elem_of_cons in Hat. tauto.
    + destruct Hat as (i & Hi & -> & _). destruct (Hshift i Hi) as (i' & -> & Hi').
      exists i'. split_and!; [done|f_equal; lia|done].
    + destruct Hat as [(i & Hi & -> & _) Hj]. destruct (Hshift i Hi) as (i' & -> & Hi').
      split; [|done]. exists i'. split_and!; [done|f_equal; lia|done].
    + destruct Hat as [_ Hd']. congruence.
Qed.

Lemma ticket_start_rep n : Z.of_nat n ≤ 2 ^ 32 → ticket_rep (ticket_start n) fifo_init.
Proof.
  intros Hn. exists 0. split; simpl; try done.
  - constructor.
  - by intros t Ht%not_elem_of_nil.
  - by rewrite length_replicate.
  - intros t pc [-> _]%lookup_replicate. apply not_elem_of_nil.
Qed.

Lemma ticket_simulates s f l s' es :
  ticket_rep s f → ticket_step s l = Some (s', es) →
  ∃ f', fifo_run f es = Some f' ∧ ticket_rep s' f'.
Proof.
  intros [served C] Hs. destruct l as [t|t|t]; cbn [ticket_step] in Hs;
    destruct (tks_threads s !! t) as [pc|] eqn:Ht; simplify_eq.
  - destruct pc; simplify_eq/=. destruct (ticket_lock_sim served s f t C Ht) as [C' Hnin].
    rewrite decide_False by done. eexists. split; [done|]. by exists served.
  - destruct (ticket_spin (tks_lock s) pc) as [pc'|] eqn:E; simplify_eq.
    destruct (ticket_advance_sim served s f t pc pc' C Ht E) as (f' & Hr & C').
    exists f'. split; [done|]. by exists served.
  - destruct pc; simplify_eq.
    destruct (ticket_unlock_sim served s f t C Ht) as (f' & Hr & C').
    exists f'. split; [|by exists (served + 1)]. unfold fifo_run. cbn [run]. by rewrite Hr.
Qed.

(** ** Progress of the thread whose turn it is *)

Lemma ticket_advance_run s t pc pc' n es s2 :
  tks_threads s !! t = Some pc → ticket_spin (tks_lock s) pc = Some pc' → pc' ≠ TkHeld →
  traced ticket_step (mk_tks (tks_lock s) (<[t := pc']> (tks_threads s)))
           (replicate n (TkAdvance t)) = Some (s2, es) →
  traced ticket_step s (replicate (S n) (TkAdvance t)) = Some (s2, es).
Proof.
  intros Ht Hspin Hne Hrun. cbn [replicate traced ticket_step].
  rewrite Ht, Hspin, Hrun. by destruct pc'.
Qed.

Lemma ticket_turn_run s t m :
  tks_threads s !! t = Some (TkSpin m) → tk_serving (tks_lock s) = m →
  ∃ n s', traced ticket_step s (replicate n (TkAdvance t)) = Some (s', [Grant t]) ∧
    ticket_critical s' t.
Proof.
  intros Ht Hm. exists 1%nat. eexists. cbn [replicate traced ticket_step].
  rewrite Ht. cbn [ticket_spin]. rewrite Hm, Z.eqb_refl. split; [done|].
  apply list_lookup_insert_eq. by eapply lookup_lt_Some.
Qed.

Lemma ticket_pause_run (k : nat) : ∀ s t m d j,
  tks_threads s !! t = Some (TkPause m d j) → tk_serving (tks_lock s) = m →
  d - j = Z.of_nat k → 0 ≤ j → d < 2 ^ 32 →
  ∃ n s', traced ticket_step s (replicate n (TkAdvance t)) = Some (s', [Grant t]) ∧
    ticket_critical s' t.
Proof.
  induction k as [|k IH]; intros s t m d j Ht Hm Hk Hj Hd;
    pose proof (lookup_lt_Some _ _ _ Ht) as Hlt.
  - destruct (ticket_turn_run (mk_tks (tks_lock s) (<[t := TkSpin m]> (tks_threads s))) t m)
      as (n & s' & Hrun & Hc); [by apply list_lookup_insert_eq|done|].
    exists (S n), s'. split; [|done].
    eapply (ticket_advance_run s t _ (TkSpin m)); [done| |done|done].
    cbn [ticket_spin]. by rewrite (proj2 (Z.ltb_ge _ _)) by lia.
  - destruct (IH (mk_tks (tks_lock s) (<[t := TkPause m d (j + 1)]> (tks_threads s))) t m d (j + 1))
      as (n & s' & Hrun & Hc); [by apply list_lookup_insert_eq|done|lia|lia|lia|].
    exists (S n), s'. split; [|done].
    eapply (ticket_advance_run s t _ (TkPause m d (j + 1))); [done| |done|done].
    cbn [ticket_spin]. rewrite (proj2 (Z.ltb_lt _ _)) by lia.
    by rewrite u32_small by (unfold is_u32; lia).
Qed.

Lemma ticket_progress s f t :
  ticket_rep s f → fifo_held f = false → head (fifo_queue f) = Some t →
  ∃ n s', traced ticket_step s (replicate n (TkAdvance t)) = Some (s', [Grant t]) ∧
    ticket_critical s' t.
Proof.
  intros [served C] Hfree Hd. pose proof Hd as Hq. rewrite head_lookup in Hq.
  pose proof (list_elem_of_lookup_2 _ _ _ Hq) as Hin.
  destruct (lookup_lt_is_Some_2 _ _ (tc_bound _ _ _ C t Hin)) as [pc Hpc].
  pose proof (tc_at _ _ _ C t pc Hpc) as Hat.
  assert (Hturn : ∀ i m, fifo_queue f !! i = Some t → m = u32 (served + Z.of_nat i) →
                  tk_serving (tks_lock s) = m).
  { intros i m Hi ->. apply (ticket_turn _ _ _ _ _ C Hi).
    by apply (NoDup_lookup _ _ _ _ (tc_nodup _ _ _ C) Hi). }
  destruct pc as [|m|m d j|]; simpl in Hat.
  - done.
  - destruct Hat as (i & Hi & Hm & _). apply (ticket_turn_run s t m Hpc). eauto.
  - destruct Hat as [(i & Hi & Hm & _) Hj].
    apply (ticket_pause_run (Z.to_nat (d - j)) s t m d j Hpc); [eauto|lia|lia|lia].
  - destruct Hat. congruence.
Qed.

Section fair.
Context (n : nat) (Hn : Z.of_nat n ≤ 2 ^ 32).

(** The ticket lock keeps the contract of a fair lock. *)
#[export] Instance ticket_fair :
  FairLock ticket_step (ticket_start n) ticket_critical ticket_waiting TkAdvance.
Proof.
  refine {| fl_rep := ticket_rep |}.
  - by apply ticket_start_rep.
  - apply ticket_simulates.
  - intros s f t [served C] Hc. apply (tc_at _ _ _ C t _ Hc).
  - intros s f t [served C] [m [Hw|(d & j & Hw)]]; apply (tc_at _ _ _ C) in Hw.
    + destruct Hw as (i & Hi & _). by eapply list_elem_of_lookup_2.
    + destruct Hw as [(i & Hi & _) _]. by eapply list_elem_of_lookup_2.
  - apply ticket_progress.
Defined.
End fair.

(** ** Properties *)

(** C18. With at most 2^32 threads and any interleaving of their calls, at most
    one thread is between [nkit_ticket_lock] and [nkit_ticket_unlock], and the
    lock is granted exactly in the order in which the threads took their
    tickets, through any number of wrap-arounds of the 32-bit counters. *)
Theorem ticket_lock_fair n sched s es :
  Z.of_nat n ≤ 2 ^ 32 → traced ticket_step (ticket_start n) sched = Some (s, es) →
  (∀ t1 t2, ticket_critical s t1 → ticket_critical s t2 → t1 = t2) ∧
  grants es `prefix_of` enters es.
Proof.
  intros Hn Hr. pose proof (ticket_fair n Hn). split.
  - intros t1 t2. by apply (fair_exclusion ticket_step sched s es).
  - by apply (fair_fifo ticket_step sched s es).
Qed.

(** Whenever a thread waits and every grant has been released, the thread
    that took the earliest outstanding ticket acquires the lock after finitely
    many steps of its own (its backoff included), whatever the others do not
    do: no release is lost. *)
Theorem ticket_lock_progress n sched s es t :
  Z.of_nat n ≤ 2 ^ 32 → traced ticket_step (ticket_start n) sched = Some (s, es) →
  ticket_waiting s t → grants es = releases es →
  ∃ t' k s', traced ticket_step s (replicate k (TkAdvance t')) = Some (s', [Grant t']) ∧
    ticket_critical s' t' ∧ (grants es ++ [t']) `prefix_of` enters es.
Proof.
  intros Hn Hr. pose proof (ticket_fair n Hn). by apply (fair_progress ticket_step sched s es t).
Qed.

(** Thread 1 takes the first ticket, 0 the second; 0 backs off while 1 works. *)
Definition demo_ticket_sched : list ticket_label :=
  [TkLock 1; TkLock 0; TkAdvance 0; TkAdvance 1; TkAdvance 0; TkUnlock 1].

Lemma ticket_lock_fair_witness :
  match traced ticket_step (ticket_start 2) (demo_ticket_sched ++ [TkAdvance 0; TkAdvance 0]) with
  | Some (s, es) => grants es = [1%nat; 0%nat] ∧ grants es `prefix_of` enters es
  | None => False
  end.
Proof.
  destruct (traced _ _ _) as [[s es]|] eqn:E; [|by vm_compute in E].
  destruct (ticket_lock_fair 2 _ s es ltac:(lia) E) as [_ Hp].
  split; [|exact Hp]. vm_compute in E. by simplify_eq.
Defined.

Lemma ticket_lock_progress_witness :
  match traced ticket_step (ticket_start 2) demo_ticket_sched with
  | Some (s, es) => ∃ t' k s',
      traced ticket_step s (replicate k (TkAdvance t')) = Some (s', [Grant t'])
  | None => False
  end.
Proof.
  destruct (traced _ _ _) as [[s es]|] eqn:E; [|by vm_compute in E].
  destruct (ticket_lock_progress 2 _ s es 0 ltac:(lia) E) as (t' & k & s' & Hr & _).
  - vm_compute in E. simplify_eq. exists 1. right. by exists 1, 1.
  - vm_compute in E. by simplify_eq.
  - by exists t', k, s'.
Defined.
