(* ===== verification/McsLock.v ===== *)
(** * The MCS queue lock (src/sync/mcs_lock.c)

    Threads interleave at every shared access of [nkit_mcs_lock] and
    [nkit_mcs_unlock], the plain accesses to [next] included.  A thread's node
    lives on its stack, so a node is named by its thread. *)

From stdpp Require Import prelude.
From Stdlib Require Import ZArith Lia.
From S2P Require Import Prelude Words FairLock.
Local Open Scope Z_scope.

(** ** Data and steps *)

Record nkit_mcs_node_t := mk_node {
  nd_next : option nat;
  nd_locked : Z;
}.

(** Where a thread is: the next access it makes, with the locals live there. *)
Inductive mcs_pc :=
| McIdle
| McInitNext            (* node->next = NULL *)
| McInitLocked          (* atomic_store(&node->locked, 1) *)
| McSwap                (* atomic_exchange(&lock->tail, node) *)
| McLink (prev : nat)   (* prev->next = node *)
| McSpin                (* while (atomic_load(&node->locked)) *)
| McHeld
| McCheckNext           (* if (!node->next) *)
| McCas                 (* atomic_compare_exchange_strong(&lock->tail, ...) *)
| McWaitNext            (* while (!node->next) *)
| McLoadNext            (* node->next in the last line *)
| McNotify (succ : nat). (* atomic_store(&succ->locked, 0) *)

#[export] Instance mcs_pc_eq_dec : EqDecision mcs_pc.
Proof. solve_decision. Defined.

Record mcs_thread := mk_mct {
  th_pc : mcs_pc;
  th_node : nkit_mcs_node_t;
}.

Record mcs_state := mk_mcs {
  mcs_tail : option nat;          (* nkit_mcs_lock_t *)
  mcs_threads : list mcs_thread;
}.

Inductive mcs_label :=
| McLock (t : nat)      (* the thread calls [nkit_mcs_lock] *)
| McAdvance (t : nat)   (* the thread makes its next access *)
| McUnlock (t : nat).   (* the thread calls [nkit_mcs_unlock] *)

Definition nkit_mcs_init : option nat := None.

Definition set_thread (s : mcs_state) (t : nat) (pc : mcs_pc) (nd : nkit_mcs_node_t)
    : mcs_state := mk_mcs (mcs_tail s) (<[t := mk_mct pc nd]> (mcs_threads s)).

Definition set_tail (s : mcs_state) (tl : option nat) : mcs_state :=
  mk_mcs tl (mcs_threads s).

(** The accesses of [nkit_mcs_lock] by thread [t] at [pc] with its node [nd]. *)
Definition mcs_lock_step (s : mcs_state) (t : nat) (pc : mcs_pc) (nd : nkit_mcs_node_t)
    : option (mcs_state * list lock_event) :=
  match pc with
  | McInitNext => Some (set_thread s t McInitLocked (mk_node None (nd_locked nd)), [])
  | McInitLocked => Some (set_thread s t McSwap (mk_node (nd_next nd) 1), [])
  | McSwap =>
      let s' := set_tail s (Some t) in
      match mcs_tail s with
      | Some prev => Some (set_thread s' t (McLink prev) nd, [Enter t])
      | None => Some (set_thread s' t McHeld nd, [Enter t; Grant t])
      end
  | McLink prev =>
      match mcs_threads s !! prev with
      | Some p =>
          let s' := set_thread s prev (th_pc p) (mk_node (Some t) (nd_locked (th_node p))) in
          Some (set_thread s' t McSpin nd, [])
      | None => None
      end
  | McSpin =>
      if nd_locked nd =? 0 then Some (set_thread s t McHeld nd, [Grant t]) else Some (s, [])
  | _ => None
  end.

(** The accesses of [nkit_mcs_unlock]. *)
Definition mcs_unlock_step (s : mcs_state) (t : nat) (pc : mcs_pc) (nd : nkit_mcs_node_t)
    : option (mcs_state * list lock_event) :=
  match pc with
  | McCheckNext =>
      match nd_next nd with
      | None => Some (set_thread s t McCas nd, [])
      | Some _ => Some (set_thread s t McLoadNext nd, [])
      end
  | McCas =>
      if decide (mcs_tail s = Some t)
      then Some (set_thread (set_tail s None) t McIdle nd, [Release t])
      else Some (set_thread s t McWaitNext nd, [])
  | McWaitNext =>
      match nd_next nd with
      | None => Some (s, [])
      | Some _ => Some (set_thread s t McLoadNext nd, [])
      end
  | McLoadNext =>
      match nd_next nd with
      | None => None
      | Some succ => Some (set_thread s t (McNotify succ) nd, [])
      end
  | McNotify succ =>
      match mcs_threads s !! succ with
      | Some q =>
          let s' := set_thread s succ (th_pc q) (mk_node (nd_next (th_node q)) 0) in
          Some (set_thread s' t McIdle nd, [Release t])
      | None => None
      end
  | _ => None
  end.

Definition mcs_step (s : mcs_state) (l : mcs_label)
    : option (mcs_state * list lock_event) :=
  match l with
  | McLock t =>
      match mcs_threads s !! t with
      | Some (mk_mct McIdle nd) => Some (set_thread s t McInitNext nd, [])
      | _ => None
      end
  | McUnlock t =>
      match mcs_threads s !! t with
      | Some (mk_mct McHeld nd) => Some (set_thread s t McCheckNext nd, [])
      | _ => None
      end
  | McAdvance t =>
      match mcs_threads s !! t with
      | Some (mk_mct pc nd) =>
          match mcs_lock_step s t pc nd with
          | Some r => Some r
          | None => mcs_unlock_step s t pc nd
          end
      | None => None
      end
  end.

(** [n] threads with arbitrary stack contents in their nodes. *)
Definition mcs_start (nodes : list nkit_mcs_node_t) : mcs_state :=
  mk_mcs nkit_mcs_init (mk_mct McIdle <$> nodes).

Definition mcs_critical (s : mcs_state) (t : nat) : Prop :=
  ∃ nd, mcs_threads s !! t = Some (mk_mct McHeld nd).

Definition mcs_waiting (s : mcs_state) (t : nat) : Prop :=
  ∃ th, mcs_threads s !! t = Some th ∧ (th_pc th = McSpin ∨ ∃ p, th_pc th = McLink p).

(** ** The abstraction *)

Definition mcs_at (f : fifo) (t : nat) (th : mcs_thread) : Prop :=
  let q := fifo_queue f in
  let nd := th_node th in
  let owner := head q = Some t ∧ fifo_held f = true in
  match th_pc th with
  | McIdle | McInitNext => t ∉ q
  | McInitLocked => (t ∉ q) ∧ nd_next nd = None
  | McSwap => (t ∉ q) ∧ nd = mk_node None 1
  | McLink p => ∃ i, q !! i = Some p ∧ q !! S i = Some t ∧ nd_locked nd = 1
  | McSpin => ∃ i, q !! i = Some t ∧
      match i with O => fifo_held f = false ∧ nd_locked nd = 0 | S _ => nd_locked nd = 1 end
  | McHeld | McCheckNext | McCas => owner
  | McWaitNext => owner ∧ q ≠ [t]
  | McLoadNext => owner ∧ nd_next nd ≠ None
  | McNotify s => owner ∧ nd_next nd = Some s
  end.

(** A thread and its successor in the queue. *)
Definition mcs_linked (p t : nat) (thp tht : mcs_thread) : Prop :=
  (nd_next (th_node thp) = Some t ∧ th_pc tht = McSpin) ∨
  (nd_next (th_node thp) = None ∧ th_pc tht = McLink p).

Record mcs_rep (s : mcs_state) (f : fifo) : Prop := {
  mr_tail : mcs_tail s = last (fifo_queue f);
  mr_nodup : NoDup (fifo_queue f);
  mr_held : fifo_held f = true → fifo_queue f ≠ [];
  mr_at : ∀ t th, mcs_threads s !! t = Some th → mcs_at f t th;
  mr_link : ∀ i p t, fifo_queue f !! i = Some p → fifo_queue f !! S i = Some t →
    ∃ thp tht, mcs_threads s !! p = Some thp ∧ mcs_threads s !! t = Some tht ∧
               mcs_linked p t thp tht;
  mr_last : ∀ t, last (fifo_queue f) = Some t →
    ∃ th, mcs_threads s !! t = Some th ∧ nd_next (th_node th) = None;
}.

(** ** Steps that keep the queue *)

Section update.
Context (s : mcs_state) (q : list nat) (h : bool).
Hypothesis Hrep : mcs_rep s (mk_fifo q h).

Lemma head_not_later t i : head q = Some t → q !! S i ≠ Some t.
Proof.
  rewrite head_lookup. intros H0 Hi.
  pose proof (NoDup_lookup _ _ _ _ (mr_nodup _ _ Hrep) H0 Hi). done.
Qed.

Lemma mcs_update t th th' h' :
  mcs_threads s !! t = Some th →
  (t ∈ q → head q = Some t ∧ nd_next (th_node th') = nd_next (th_node th)) →
  (h' = true → q ≠ []) →
  (∀ t' th0, t' ≠ t → mcs_at (mk_fifo q h) t' th0 → mcs_at (mk_fifo q h') t' th0) →
  mcs_at (mk_fifo q h') t th' →
  mcs_rep (mk_mcs (mcs_tail s) (<[t := th']> (mcs_threads s))) (mk_fifo q h').
Proof.
  intros Ht Hq Hne Hoth Hat. pose proof (lookup_lt_Some _ _ _ Ht) as Hlt.
  pose proof head_not_later as Hlater.
  destruct Hrep as [Htl Hnd Hh Ha Hl Hla]. split; simpl in *; auto.
  - apply forall_insert; [done|]. eauto.
  - intros i p t' Hp Ht'. destruct (Hl i p t' Hp Ht') as (thp & tht & Ep & Et & Hlk).
    assert (t' ≠ t).
    { intros ->. destruct Hq as [Hd _]; [by eapply list_elem_of_lookup_2|].
      by apply (Hlater t i). }
    destruct (decide (p = t)) as [->|Hpt].
    + exists th', tht. rewrite list_lookup_insert_eq, list_lookup_insert_ne by done.
      split_and!; [done|done|]. destruct Hq as [_ Hn]; [by eapply list_elem_of_lookup_2|].
      unfold mcs_linked. rewrite Hn. by simplify_eq.
    + exists thp, tht. by rewrite !list_lookup_insert_ne.
  - intros t' Hl'. destruct (Hla t' Hl') as (th0 & E & Hn).
    destruct (decide (t' = t)) as [->|Hne'].
    + exists th'. rewrite list_lookup_insert_eq by done. split; [done|].
      destruct Hq as [_ Hn']; [by apply last_Some_elem_of|]. rewrite Hn'. by simplify_eq.
    + exists th0. by rewrite list_lookup_insert_ne.
Qed.

(** A thread outside the queue, or its owner, moves on. *)
Lemma mcs_outside t th pc nd :
  mcs_threads s !! t = Some th → t ∉ q → mcs_at (mk_fifo q h) t (mk_mct pc nd) →
  mcs_rep (set_thread s t pc nd) (mk_fifo q h).
Proof.
  intros Ht Hnin Hat. apply (mcs_update t th); auto; [done|].
  apply (mr_held _ _ Hrep).
Qed.

Lemma mcs_owner t pc0 pc nd :
  mcs_threads s !! t = Some (mk_mct pc0 nd) → head q = Some t →
  mcs_at (mk_fifo q h) t (mk_mct pc nd) → mcs_rep (set_thread s t pc nd) (mk_fifo q h).
Proof.
  intros Ht Hd Hat. apply (mcs_update t (mk_mct pc0 nd)); auto.
  apply (mr_held _ _ Hrep).
Qed.

(** The thread at the head of a free queue notices that it was notified. *)
Lemma mcs_grant t nd :
  mcs_threads s !! t = Some (mk_mct McSpin nd) → head q = Some t → h = false →
  mcs_rep (set_thread s t McHeld nd) (mk_fifo q true).
Proof.
  intros Ht Hd Hf. apply (mcs_update t (mk_mct McSpin nd)); auto.
  - intros _ ->. done.
  - intros t' [pc nd'] Hne. unfold mcs_at. simpl. rewrite Hf.
    destruct pc; try tauto; try (intros [[_ ?] _]; done); try (intros [_ ?]; done).
    intros ([|i] & Hi & Hm); [|by exists (S i)].
    rewrite <-head_lookup in Hi. congruence.
  - done.
Qed.
End update.

(** ** Entering the queue *)

Lemma mcs_at_enqueue q h t t' th :
  q ≠ [] → t' ≠ t → mcs_at (mk_fifo q h) t' th → mcs_at (mk_fifo (q ++ [t]) h) t' th.
Proof.
  intros Hq Hne. unfold mcs_at. simpl.
  assert (Hhd : head (q ++ [t]) = head q) by (by destruct q).
  assert (Hout : t' ∉ q → t' ∉ q ++ [t]) by (rewrite elem_of_app, list_elem_of_singleton; tauto).
  rewrite Hhd. destruct (th_pc th); try tauto.
  - intros (i & Hi & Hj & Hl). exists i. by rewrite !(lookup_app_l_Some _ _ _ _ Hi),
      !(lookup_app_l_Some _ _ _ _ Hj).
  - intros (i & Hi & Hl). exists i. by rewrite (lookup_app_l_Some _ _ _ _ Hi).
  - intros [Ho _]. split; [done|]. destruct q as [|a [|b q]]; done.
Qed.

Lemma mcs_enqueue s q h t p nd :
  mcs_rep s (mk_fifo q h) → mcs_threads s !! t = Some (mk_mct McSwap nd) →
  mcs_tail s = Some p →
  (t ∉ q) ∧ mcs_rep (set_thread (set_tail s (Some t)) t (McLink p) nd) (mk_fifo (q ++ [t]) h).
Proof.
  intros Hrep Ht Hp. pose proof (lookup_lt_Some _ _ _ Ht) as Hlt.
  destruct (mr_at _ _ Hrep t _ Ht) as [Hnin Hnd0]. simpl in Hnin, Hnd0. split; [done|].
  destruct Hrep as [Htl Hnd Hh Ha Hl Hla]. simpl in *. rewrite Hp in Htl. symmetry in Htl.
  destruct (proj1 (last_Some _ _) Htl) as [q0 Hq].
  assert (Hpt : p ≠ t) by (intros ->; apply Hnin; rewrite Hq; apply elem_of_app; right; by left).
  assert (Hpq : q !! length q0 = Some p) by (rewrite Hq; by apply list_lookup_middle).
  assert (Hlen : length q = S (length q0)) by (rewrite Hq, length_app; simpl; lia).
  split; simpl.
  - by rewrite last_snoc.
  - apply NoDup_app. split_and!; [done| |apply NoDup_singleton].
    by intros x Hx ->%list_elem_of_singleton.
  - intros _. by destruct q.
  - apply forall_insert.
    + exists (length q0). simpl. rewrite Hnd0, (lookup_app_l_Some _ _ _ _ Hpq), <-Hlen.
      by rewrite lookup_app_r, Nat.sub_diag by lia.
    + intros t' th Hne Hth. apply mcs_at_enqueue; auto. by intros ->.
  - intros i a b Hi Hj. destruct (Nat.lt_ge_cases (S i) (length q)) as [Hlt'|Hge].
    + rewrite !lookup_app_l in Hi, Hj by lia.
      destruct (Hl i a b Hi Hj) as (tha & thb & Ea & Eb & Hlk). exists tha, thb.
      assert (a ≠ t) by (intros ->; by apply Hnin, (list_elem_of_lookup_2 _ i)).
      assert (b ≠ t) by (intros ->; by apply Hnin, (list_elem_of_lookup_2 _ (S i))).
      by rewrite !list_lookup_insert_ne.
    + rewrite lookup_app_r in Hj by lia. apply list_lookup_singleton_Some in Hj as [Hz <-].
      assert (i = length q0) as -> by lia. rewrite (lookup_app_l_Some _ _ _ _ Hpq) in Hi.
      simplify_eq. destruct (Hla a) as (tha & Ea & Hna); [done|].
      exists tha. eexists.
      rewrite list_lookup_insert_ne, list_lookup_insert_eq by done.
      split_and!; [done|done|]. by right.
  - intros t'. rewrite last_snoc. intros [= <-]. eexists.
    rewrite list_lookup_insert_eq by done. split; [done|]. simpl. by rewrite Hnd0.
Qed.

Lemma mcs_enter_free s q h t nd :
  mcs_rep s (mk_fifo q h) → mcs_threads s !! t = Some (mk_mct McSwap nd) →
  mcs_tail s = None →
  q = [] ∧ h = false ∧ mcs_rep (set_thread (set_tail s (Some t)) t McHeld nd) (mk_fifo [t] true).
Proof.
  intros Hrep Ht Hp. pose proof (lookup_lt_Some _ _ _ Ht) as Hlt.
  destruct (mr_at _ _ Hrep t _ Ht) as [_ Hnd0]. simpl in Hnd0.
  destruct Hrep as [Htl Hnd Hh Ha Hl Hla]. simpl in *. rewrite Hp in Htl. symmetry in Htl.
  apply last_None in Htl as ->. assert (h = false) as -> by (destruct h; [by destruct Hh|done]).
  split_and!; [done|done|]. split; simpl; try done.
  - apply NoDup_singleton.
  - apply forall_insert; [done|]. intros t' [pc nd'] Hne Hth. specialize (Ha t' _ Hth).
    unfold mcs_at in *. simpl in *.
    assert (t' ∉ [t]) by (by rewrite list_elem_of_singleton).
    destruct pc; try tauto; try (by destruct Ha as [[? _] _]); try (by destruct Ha as [? _]);
      try (by destruct Ha as (? & ? & _)).
  - intros t' [= <-]. eexists. rewrite list_lookup_insert_eq by done.
    split; [done|]. simpl. by rewrite Hnd0.
Qed.

(** [prev->next = node] *)
Lemma mcs_link_next s q h t p thp nd :
  mcs_rep s (mk_fifo q h) → mcs_threads s !! t = Some (mk_mct (McLink p) nd) →
  mcs_threads s !! p = Some thp →
  mcs_rep (set_thread (set_thread s p (th_pc thp) (mk_node (Some t) (nd_locked (th_node thp))))
                      t McSpin nd) (mk_fifo q h).
Proof.
  intros Hrep Ht Hp. pose proof (lookup_lt_Some _ _ _ Ht) as Hlt.
  pose proof (lookup_lt_Some _ _ _ Hp) as Hlp.
  destruct (mr_at _ _ Hrep t _ Ht) as (i & Hi & Hj & Hlk). simpl in Hi, Hj, Hlk.
  destruct Hrep as [Htl Hnd Hh Ha Hl Hla]. simpl in *.
  assert (Hpt : p ≠ t) by (intros ->; pose proof (NoDup_lookup _ _ _ _ Hnd Hi Hj); lia).
  assert (Hnone : nd_next (th_node thp) = None).
  { destruct (Hl i p t Hi Hj) as (a & b & Ea & Eb & [[_ Hs]|[Hn _]]); simplify_eq; done. }
  split; simpl; auto.
  - apply forall_insert; [by exists (S i)|]. intros t' th Hne.
    revert t' th Hne. intros t' th Hne Hth. destruct (decide (t' = p)) as [->|Hne'].
    + rewrite list_lookup_insert_eq in Hth by done. simplify_eq. specialize (Ha p _ Hp).
      assert (p ∈ q) by (by eapply list_elem_of_lookup_2).
      unfold mcs_at in *. simpl. rewrite Hnone in Ha. destruct (th_pc thp); try tauto.
      * by destruct Ha as [_ ?].
    + rewrite list_lookup_insert_ne in Hth by done. auto.
  - intros k a b Hk Hk'. destruct (Hl k a b Hk Hk') as (tha & thb & Ea & Eb & Hab).
    destruct (decide (b = t)) as [->|Hbt].
    + assert (S k = S i) by (by eapply NoDup_lookup). simplify_eq.
      do 2 eexists. split_and!; [by insert_cases|by insert_cases|]. by left.
    + assert (a ≠ p).
      { intros ->. assert (k = i) as -> by (by eapply NoDup_lookup). by simplify_eq. }
      assert (∃ thb', <[t := mk_mct McSpin nd]> (<[p := mk_mct (th_pc thp)
        (mk_node (Some t) (nd_locked (th_node thp)))]> (mcs_threads s)) !! b = Some thb'
        ∧ th_pc thb' = th_pc thb) as (thb' & Eb' & Hpc).
      { insert_cases; simplify_eq; eauto. }
      assert (∃ tha', <[t := mk_mct McSpin nd]> (<[p := mk_mct (th_pc thp)
        (mk_node (Some t) (nd_locked (th_node thp)))]> (mcs_threads s)) !! a = Some tha'
        ∧ nd_next (th_node tha') = nd_next (th_node tha)) as (tha' & Ea' & Hnx).
      { insert_cases; simplify_eq; eauto. }
      exists tha', thb'. unfold mcs_linked. by rewrite Hpc, Hnx.
  - intros t' Ht'. destruct (Hla t' Ht') as (th & Eth & Hn).
    assert (t' ≠ p).
    { intros ->. rewrite last_lookup in Ht'.
      assert (i = pred (length q)) by (by eapply NoDup_lookup).
      apply lookup_lt_Some in Hj. lia. }
    insert_cases; simplify_eq; eauto.
Qed.

(** ** Leaving the queue *)

Lemma mcs_release_last s q h t nd :
  mcs_rep s (mk_fifo q h) → mcs_threads s !! t = Some (mk_mct McCas nd) →
  mcs_tail s = Some t →
  q = [t] ∧ mcs_rep (set_thread (set_tail s None) t McIdle nd) (mk_fifo [] false).
Proof.
  intros Hrep Ht Htail. destruct (mr_at _ _ Hrep t _ Ht) as [Hd _]. simpl in Hd.
  destruct Hrep as [Htl Hnd Hh Ha Hl Hla]. simpl in *. rewrite Htail in Htl.
  assert (q = [t]) as ->.
  { rewrite head_lookup in Hd. rewrite last_lookup in Htl. symmetry in Htl.
    pose proof (NoDup_lookup _ _ _ _ Hnd Hd Htl) as E. destruct q as [|a [|b q]]; naive_solver. }
  split; [done|]. split; simpl; try done; [constructor|].
  apply forall_insert; [apply not_elem_of_nil|]. intros t' [pc nd'] Hne Hth.
  specialize (Ha t' _ Hth). unfold mcs_at in *. simpl in *.
  pose proof (not_elem_of_nil t').
  destruct pc; try tauto; try (destruct Ha as [[? _] _]; congruence);
    try (destruct Ha as [? _]; congruence).
  - by destruct Ha as (i & _ & Hi & _).
  - destruct Ha as ([|i] & Hi & _); simplify_eq/=.
Qed.

(** Positions after the owner left. *)
Lemma mcs_at_dequeue t n q h t' th :
  t' ≠ t → t' ≠ n → th_pc th ≠ McLink t →
  mcs_at (mk_fifo (t :: n :: q) h) t' th → mcs_at (mk_fifo (n :: q) false) t' th.
Proof.
  intros Hne Hnn Hnl. unfold mcs_at. simpl.
  destruct (th_pc th) as [| | | |p| | | | | | |] eqn:Epc; try rewrite not_elem_of_cons; try tauto.
  all: try (intros [[? _] _]; congruence).
  all: try (intros [? _]; congruence).
  - intros ([|i] & Hi & Hj & Hl); simpl in *; [congruence|]. by exists i.
  - intros ([|[|i]] & Hi & Hm); simpl in *; [congruence|congruence|].
    by exists (S i).
Qed.

Lemma mcs_release_notify s q h t n thn nd :
  mcs_rep s (mk_fifo q h) → mcs_threads s !! t = Some (mk_mct (McNotify n) nd) →
  mcs_threads s !! n = Some thn →
  ∃ q', q = t :: n :: q' ∧
  mcs_rep (set_thread (set_thread s n (th_pc thn) (mk_node (nd_next (th_node thn)) 0))
                      t McIdle nd) (mk_fifo (n :: q') false).
Proof.
  intros Hrep Ht Hn. pose proof (lookup_lt_Some _ _ _ Ht) as Hlt.
  pose proof (lookup_lt_Some _ _ _ Hn) as Hln.
  destruct (mr_at _ _ Hrep t _ Ht) as [[Hd _] Hnx]. simpl in Hd, Hnx.
  destruct Hrep as [Htl Hnd Hh Ha Hl Hla]. simpl in *.
  destruct q as [|t0 [|n0 q']]; simplify_eq/=.
  { destruct (Hla t) as (th & E & Hnn); [done|]. simplify_eq/=. }
  destruct (Hl 0%nat t n0) as (tht & th0 & Et & E0 & Hlk); [done|done|]. simplify_eq.
  destruct Hlk as [[Hx Hspin]|[Hx _]]; simpl in Hx; [|congruence].
  rewrite Hnx in Hx. injection Hx as <-.
  rewrite Hn in E0. injection E0 as <-. exists q'. split; [done|].
  apply NoDup_cons in Hnd as [Htn Hnd]. rewrite not_elem_of_cons in Htn. destruct Htn as [Htn Htq].
  split; simpl; auto.
  - apply forall_insert; [unfold mcs_at; simpl; by rewrite not_elem_of_cons|].
    intros t' th Hne Hth. revert t' th Hth Hne.
    apply (forall_insert (λ t' th, t' ≠ t → mcs_at _ t' th)).
    + intros _. unfold mcs_at. simpl. rewrite Hspin. by exists 0%nat.
    + intros t' th Hne Hth Hne'. apply (mcs_at_dequeue t n q' h); auto.
      intros Epc. specialize (Ha t' th Hth). unfold mcs_at in Ha. rewrite Epc in Ha.
      destruct Ha as ([|i] & Hi & Hj & _); simplify_eq/=.
      destruct i as [|i]; simplify_eq/=.
      by apply list_elem_of_lookup_2 in Hi.
  - intros i a b Hi Hj. destruct (Hl (S i) a b Hi Hj) as (tha & thb & Ea & Eb & Hlk).
    assert (a ≠ t).
    { intros ->. destruct i as [|i]; simplify_eq/=. by apply list_elem_of_lookup_2 in Hi. }
    assert (b ≠ t) by (intros ->; by apply list_elem_of_lookup_2 in Hj).
    assert (b ≠ n).
    { intros ->. apply NoDup_cons in Hnd as [Hnq _]. by apply list_elem_of_lookup_2 in Hj. }
    destruct (decide (a = n)) as [->|Han].
    + simplify_eq. do 2 eexists. split_and!; [by insert_cases|by insert_cases|done].
    + exists tha, thb. split_and!; [by insert_cases|by insert_cases|done].
  - intros t' Ht'. destruct (Hla t' Ht') as (th & Eth & Hnn).
    assert (t' ≠ t).
    { intros ->. apply last_Some_elem_of in Ht'. rewrite elem_of_cons in Ht'. tauto. }
    destruct (decide (t' = n)) as [->|]; simplify_eq.
    + eexists. split; [by insert_cases|done].
    + exists th. by insert_cases.
Qed.

(** ** Simulation *)

Lemma mcs_start_rep nodes : mcs_rep (mcs_start nodes) fifo_init.
Proof.
  split; simpl; try done; [constructor|]. intros t th Ht.
  apply list_lookup_fmap_Some in Ht as (nd & -> & _). apply not_elem_of_nil.
Qed.

(** Every step of a represented state gives a represented state, and the
    thread inside a call always has a step. *)
Lemma mcs_lock_step_sim s q h t pc nd s' es :
  mcs_rep s (mk_fifo q h) → mcs_threads s !! t = Some (mk_mct pc nd) →
  mcs_lock_step s t pc nd = Some (s', es) →
  ∃ f', fifo_run (mk_fifo q h) es = Some f' ∧ mcs_rep s' f'.
Proof.
  intros Hrep Ht Hs. pose proof (mr_at _ _ Hrep t _ Ht) as Hat. unfold mcs_at in Hat. simpl in Hat.
  destruct pc as [| | | |p| | | | | | |]; simplify_eq/=.
  - exists (mk_fifo q h). split; [done|]. by apply (mcs_outside s q h Hrep t _ _ _ Ht).
  - exists (mk_fifo q h). split; [done|]. destruct Hat as [Hnin Hn].
    apply (mcs_outside s q h Hrep t _ _ _ Ht); [done|]. by rewrite Hn.
  - destruct (mcs_tail s) as [p|] eqn:Hp; simplify_eq.
    + destruct (mcs_enqueue s q h t p nd Hrep Ht Hp) as [Hnin Hrep'].
      eexists. split; [|exact Hrep']. simpl. by rewrite decide_False.
    + destruct (mcs_enter_free s q h t nd Hrep Ht Hp) as (-> & -> & Hrep').
      exists (mk_fifo [t] true). split; [|done]. simpl.
      by rewrite decide_True.
  - destruct (mcs_threads s !! p) as [thp|] eqn:Hp; simplify_eq.
    exists (mk_fifo q h). split; [done|]. by apply mcs_link_next.
  - destruct (Z.eqb_spec (nd_locked nd) 0) as [Hz|Hz]; simplify_eq.
    + destruct Hat as ([|i] & Hi & Hm); [|lia]. destruct Hm as [-> _].
      rewrite <-head_lookup in Hi. exists (mk_fifo q true). split.
      * simpl. by rewrite decide_True.
      * by apply (mcs_grant s q false Hrep).
    + by exists (mk_fifo q h).
Qed.

Lemma mcs_unlock_step_sim s q h t pc nd s' es :
  mcs_rep s (mk_fifo q h) → mcs_threads s !! t = Some (mk_mct pc nd) →
  mcs_unlock_step s t pc nd = Some (s', es) →
  ∃ f', fifo_run (mk_fifo q h) es = Some f' ∧ mcs_rep s' f'.
Proof.
  intros Hrep Ht Hs. pose proof (mr_at _ _ Hrep t _ Ht) as Hat. unfold mcs_at in Hat. simpl in Hat.
  assert (Howner : ∀ pc', head q = Some t → mcs_at (mk_fifo q h) t (mk_mct pc' nd) →
    ∃ f', fifo_run (mk_fifo q h) [] = Some f' ∧ mcs_rep (set_thread s t pc' nd) f').
  { intros pc' Hd Hat'. exists (mk_fifo q h). split; [done|].
    by apply (mcs_owner s q h Hrep t pc). }
  destruct pc as [| | | | | | | | | | |n]; simplify_eq/=.
  - destruct (nd_next nd) eqn:Hn; simplify_eq; apply Howner; try tauto;
      unfold mcs_at; simpl; by rewrite ?Hn.
  - case_decide as Htl; simplify_eq.
    + destruct (mcs_release_last s q h t nd Hrep Ht Htl) as [-> Hrep'].
      eexists. split; [|exact Hrep']. simpl. destruct Hat as [_ ->]. simpl. by rewrite decide_True.
    + apply Howner; [tauto|]. split; [done|]. simpl. intros ->.
      apply Htl. apply (mr_tail _ _ Hrep).
  - destruct (nd_next nd) eqn:Hn; simplify_eq; [|by exists (mk_fifo q h)].
    apply Howner; [tauto|]. unfold mcs_at. simpl. rewrite Hn. by split; [tauto|].
  - destruct (nd_next nd) eqn:Hn; simplify_eq. apply Howner; [tauto|].
    unfold mcs_at. simpl. tauto.
  - destruct (mcs_threads s !! n) as [thn|] eqn:Hn; simplify_eq.
    destruct (mcs_release_notify s q h t n thn nd Hrep Ht Hn) as (q' & -> & Hrep').
    eexists. split; [|exact Hrep']. simpl. destruct Hat as [[_ ->] _]. simpl.
    by rewrite decide_True.
Qed.

Lemma mcs_simulates s f l s' es :
  mcs_rep s f → mcs_step s l = Some (s', es) →
  ∃ f', fifo_run f es = Some f' ∧ mcs_rep s' f'.
Proof.
  destruct f as [q h]. intros Hrep Hs. destruct l as [t|t|t]; cbn [mcs_step] in Hs;
    destruct (mcs_threads s !! t) as [[pc nd]|] eqn:Ht; simplify_eq.
  - destruct pc; simplify_eq. exists (mk_fifo q h). split; [done|].
    pose proof (mr_at _ _ Hrep t _ Ht) as Hat. by apply (mcs_outside s q h Hrep t _ _ _ Ht).
  - destruct (mcs_lock_step s t pc nd) as [r|] eqn:E; simplify_eq.
    + by eapply mcs_lock_step_sim.
    + by eapply mcs_unlock_step_sim.
  - destruct pc; simplify_eq. exists (mk_fifo q h). split; [done|].
    pose proof (mr_at _ _ Hrep t _ Ht) as Hat. apply (mcs_owner s q h Hrep t McHeld); [done| |done].
    apply Hat.
Qed.

(** A thread in the queue has a slot in the thread table. *)
Lemma mcs_queue_thread s f t :
  mcs_rep s f → t ∈ fifo_queue f → ∃ th, mcs_threads s !! t = Some th.
Proof.
  intros Hrep Ht. apply list_elem_of_lookup in Ht as [i Hi].
  destruct (fifo_queue f !! S i) as [u|] eqn:Hu.
  - destruct (mr_link _ _ Hrep i t u Hi Hu) as (th & _ & E & _). eauto.
  - apply lookup_ge_None in Hu. pose proof (lookup_lt_Some _ _ _ Hi).
    destruct (mr_last _ _ Hrep t) as (th & E & _); [|eauto].
    rewrite last_lookup. by replace (pred (length (fifo_queue f))) with i by lia.
Qed.

Lemma mcs_progress s f t :
  mcs_rep s f → fifo_held f = false → head (fifo_queue f) = Some t →
  ∃ n s', traced mcs_step s (replicate n (McAdvance t)) = Some (s', [Grant t]) ∧
    mcs_critical s' t.
Proof.
  intros Hrep Hfree Hd. assert (Hin : t ∈ fifo_queue f).
  { destruct (fifo_queue f); simplify_eq/=. by left. }
  destruct (mcs_queue_thread s f t Hrep Hin) as [[pc nd] Ht].
  pose proof (mr_at _ _ Hrep t _ Ht) as Hat. unfold mcs_at in Hat. rewrite Hfree in Hat.
  pose proof (lookup_lt_Some _ _ _ Ht) as Hlt.
  rewrite head_lookup in Hd. destruct pc; simpl in Hat; try tauto.
  all: try (by destruct Hat as [_ ?]); try (by destruct Hat as [[_ ?] _]).
  - destruct Hat as (i & _ & Hi & _).
    pose proof (NoDup_lookup _ _ _ _ (mr_nodup _ _ Hrep) Hd Hi). done.
  - destruct Hat as (i & Hi & Hm).
    pose proof (NoDup_lookup _ _ _ _ (mr_nodup _ _ Hrep) Hd Hi). subst i.
    destruct Hm as [_ Hz]. exists 1%nat. eexists. cbn [replicate traced mcs_step].
    rewrite Ht. cbn [mcs_lock_step]. rewrite Hz. simpl. split; [done|].
    exists nd. by apply list_lookup_insert_eq.
Qed.

(** The MCS lock keeps the contract of a fair lock, for any number of threads
    and whatever their stacks hold. *)
#[export] Instance mcs_fair nodes :
  FairLock mcs_step (mcs_start nodes) mcs_critical mcs_waiting McAdvance.
Proof.
  refine {| fl_rep := mcs_rep |}.
  - apply mcs_start_rep.
  - apply mcs_simulates.
  - intros s f t Hrep [nd Ht]. apply (mr_at _ _ Hrep) in Ht as [? ?]. done.
  - intros s f t Hrep (th & Ht & Hpc). apply (mr_at _ _ Hrep) in Ht. unfold mcs_at in Ht.
    destruct Hpc as [E|[p E]]; rewrite E in Ht.
    + destruct Ht as (i & Hi & _). by eapply list_elem_of_lookup_2.
    + destruct Ht as (i & _ & Hi & _). by eapply list_elem_of_lookup_2.
  - apply mcs_progress.
Defined.

Lemma mcs_enabled s f t pc nd :
  mcs_rep s f → mcs_threads s !! t = Some (mk_mct pc nd) → pc ≠ McIdle → pc ≠ McHeld →
  is_Some (mcs_step s (McAdvance t)).
Proof.
  intros Hrep Ht Hi Hh. pose proof (mr_at _ _ Hrep t _ Ht) as Hat. unfold mcs_at in Hat.
  cbn [mcs_step]. rewrite Ht.
  destruct pc as [| | | |p| | | | | | |n]; simpl in *; try done.
  - by destruct (mcs_tail s).
  - destruct Hat as (i & Hp & _).
    destruct (mcs_queue_thread s f p Hrep) as [th ->]; [by eapply list_elem_of_lookup_2|done].
  - by destruct (_ =? _).
  - by destruct (nd_next nd).
  - by case_decide.
  - by destruct (nd_next nd).
  - by destruct (nd_next nd); [|tauto].
  - destruct Hat as [[Hd _] Hn]. rewrite head_lookup in Hd.
    destruct (fifo_queue f !! 1%nat) as [u|] eqn:Hu.
    + destruct (mr_link _ _ Hrep 0 t u Hd Hu) as (tht & thu & Et & Eu & Hlk). simplify_eq.
      destruct Hlk as [[Hx _]|[Hx _]]; simpl in Hx; [|congruence].
      rewrite Hn in Hx. simplify_eq. by rewrite Eu.
    + destruct (mr_last _ _ Hrep t) as (th & E & Hx); [|simplify_eq/=; congruence].
      rewrite last_lookup. apply lookup_ge_None in Hu.
      pose proof (lookup_lt_Some _ _ _ Hd).
      by replace (length (fifo_queue f)) with 1%nat by lia.
Qed.

(** A step that moves its thread to another position changes the state. *)
Lemma mcs_moves s s' t th th' :
  mcs_threads s !! t = Some th → mcs_threads s' !! t = Some th' → th_pc th' ≠ th_pc th → s' ≠ s.
Proof. intros E E' Hne ->. congruence. Qed.

Lemma mcs_step_moves s t pc nd s' es :
  mcs_threads s !! t = Some (mk_mct pc nd) → mcs_step s (McAdvance t) = Some (s', es) →
  (pc = McSpin → nd_locked nd = 0) → (pc = McWaitNext → nd_next nd ≠ None) → s' ≠ s.
Proof.
  intros Ht Hs Hspin Hwait. pose proof (lookup_lt_Some _ _ _ Ht) as Hlt.
  assert (Hset : ∀ s0 pc' nd', length (mcs_threads s0) = length (mcs_threads s) →
            pc' ≠ pc → set_thread s0 t pc' nd' ≠ s).
  { intros s0 pc' nd' Hl Hne. apply (mcs_moves s _ t _ (mk_mct pc' nd') Ht); [|exact Hne].
    apply list_lookup_insert_eq. by rewrite Hl. }
  cbn [mcs_step] in Hs. rewrite Ht in Hs.
  destruct pc as [| | | |p| | | | | | |n]; cbn [mcs_lock_step mcs_unlock_step] in Hs; simplify_eq.
  all: try (rewrite Hspin in Hs by done; cbn [Z.eqb] in Hs; simplify_eq).
  all: try (destruct (mcs_tail s) eqn:Htl).
  all: try (destruct (nd_next nd) eqn:Hn).
  all: try (destruct (mcs_threads s !! p) eqn:Hp).
  all: try (destruct (mcs_threads s !! n) eqn:Hp).
  all: try case_decide.
  all: simplify_eq; try (by apply Hset; unfold set_thread; simpl; rewrite ?length_insert).
  all: by destruct Hwait.
Qed.

(** In every state with a non-empty queue and nobody in the critical section,
    some thread has a step that is not idle spinning. *)
Lemma mcs_no_deadlock s f :
  mcs_rep s f → fifo_queue f ≠ [] → (∀ t, ¬ mcs_critical s t) →
  ∃ t s' es, mcs_step s (McAdvance t) = Some (s', es) ∧ s' ≠ s.
Proof.
  intros Hrep Hne Hnc. destruct (fifo_queue f) as [|t q] eqn:Hq; [done|].
  destruct (mcs_queue_thread s f t Hrep) as [[pc nd] Ht]; [rewrite Hq; by left|].
  pose proof (mr_at _ _ Hrep t _ Ht) as Hat. pose proof (mr_nodup _ _ Hrep) as Hnd.
  assert (Hgo : ∀ u pcu ndu, mcs_threads s !! u = Some (mk_mct pcu ndu) →
    pcu ≠ McIdle → pcu ≠ McHeld → (pcu = McSpin → nd_locked ndu = 0) →
    (pcu = McWaitNext → nd_next ndu ≠ None) →
    ∃ t s' es, mcs_step s (McAdvance t) = Some (s', es) ∧ s' ≠ s).
  { intros u pcu ndu Hu Hi Hh Hsp Hw.
    destruct (mcs_enabled s f u pcu ndu Hrep Hu Hi Hh) as [[s' es] E].
    exists u, s', es. split; [done|]. by eapply mcs_step_moves. }
  unfold mcs_at in Hat. rewrite Hq in Hat. rewrite Hq in Hnd.
  destruct (decide (pc = McWaitNext ∧ nd_next nd = None)) as [[-> Hn]|Hw].
  - simpl in Hat. destruct q as [|u q]; [by destruct Hat as [_ ?]|].
    destruct (mr_link _ _ Hrep 0 t u) as (tht & [pcu ndu] & Et & Eu & Hlk); [by rewrite Hq|by rewrite Hq|].
    rewrite Ht in Et. injection Et as <-.
    destruct Hlk as [[Hx _]|[_ Hx]]; simpl in Hx; [congruence|].
    apply (Hgo u pcu ndu Eu); by rewrite Hx.
  - apply (Hgo t pc nd Ht).
    + intros ->. simpl in Hat. apply Hat. by left.
    + intros ->. by apply (Hnc t); exists nd.
    + intros ->. simpl in Hat. destruct Hat as ([|i] & Hi & Hm); [tauto|].
      simpl in Hi. apply NoDup_cons in Hnd as [Hnin _]. by apply list_elem_of_lookup_2 in Hi.
    + intros -> Hn. tauto.
Qed.

(** ** Properties *)

(** C8. For any number of threads, any initial stack contents of their nodes
    and any interleaving of the accesses of [nkit_mcs_lock] and
    [nkit_mcs_unlock], at most one thread is between the two calls, and the lock
    is granted in the order in which the threads exchanged the tail pointer. *)
Theorem mcs_lock_fair nodes sched s es :
  traced mcs_step (mcs_start nodes) sched = Some (s, es) →
  (∀ t1 t2, mcs_critical s t1 → mcs_critical s t2 → t1 = t2) ∧
  grants es `prefix_of` enters es.
Proof.
  intros Hr. split.
  - intros t1 t2. by apply (fair_exclusion mcs_step sched s es).
  - by apply (fair_fifo mcs_step sched s es).
Qed.

(** C38. No access of the lock faults and no hand-over is lost: a thread inside
    a call always has its next step (in particular [node->next] is not NULL when
    [nkit_mcs_unlock] follows it, and the node it leads to is live), and whenever
    a thread waits while nobody is in the critical section, some thread has a
    step that is not idle spinning. *)
Theorem mcs_lock_live nodes sched s es :
  traced mcs_step (mcs_start nodes) sched = Some (s, es) →
  (∀ t pc nd, mcs_threads s !! t = Some (mk_mct pc nd) → pc ≠ McIdle → pc ≠ McHeld →
     is_Some (mcs_step s (McAdvance t))) ∧
  ∀ t, mcs_waiting s t → (∀ t', ¬ mcs_critical s t') →
    ∃ t' s' es', mcs_step s (McAdvance t') = Some (s', es') ∧ s' ≠ s.
Proof.
  intros Hr. destruct (fair_history mcs_step sched s es Hr) as (f & _ & Hrep).
  split; [intros t pc nd; by apply (mcs_enabled s f)|].
  intros t Hw Hnc. apply (mcs_no_deadlock s f Hrep); [|done].
  intros Hq. apply (fl_spinning mcs_step s f t Hrep) in Hw.
  rewrite Hq in Hw. by apply not_elem_of_nil in Hw.
Qed.

(** Two threads: 0 takes the free lock, 1 queues behind it but has not linked
    itself when 0 begins to unlock. *)
Definition demo_nodes : list nkit_mcs_node_t := [mk_node (Some 7%nat) 3; mk_node None 0].
Definition demo_mcs_sched : list mcs_label :=
  [McLock 0; McAdvance 0; McAdvance 0; McAdvance 0;
   McLock 1; McAdvance 1; McAdvance 1; McAdvance 1;
   McUnlock 0; McAdvance 0; McAdvance 0; McAdvance 0].

Lemma mcs_lock_fair_witness :
  match traced mcs_step (mcs_start demo_nodes)
          (demo_mcs_sched ++ [McAdvance 1; McAdvance 0; McAdvance 0; McAdvance 0; McAdvance 1]) with
  | Some (s, es) => grants es = [0%nat; 1%nat] ∧ grants es `prefix_of` enters es
  | None => False
  end.
Proof.
  destruct (traced _ _ _) as [[s es]|] eqn:E; [|by vm_compute in E].
  split; [vm_compute in E; by simplify_eq|].
  exact (proj2 (mcs_lock_fair demo_nodes _ s es E)).
Defined.

Lemma mcs_lock_live_witness :
  match traced mcs_step (mcs_start demo_nodes) demo_mcs_sched with
  | Some (s, _) => ∃ t s' es, mcs_step s (McAdvance t) = Some (s', es) ∧ s' ≠ s
  | None => False
  end.
Proof.
  destruct (traced _ _ _) as [[s es]|] eqn:E; [|by vm_compute in E].
  apply (proj2 (mcs_lock_live demo_nodes _ s es E) 1%nat).
  - vm_compute in E. simplify_eq. eexists. split; [done|]. right. by eexists.
  - vm_compute in E. simplify_eq. intros [|[|t]] [nd Hnd]; done.
Defined.
