(* ===== verification/RwsLock.v ===== *)
(** * The reader-writer spinlock (src/sync/rws_lock.c)

    One 32-bit word: bit 0 the active writer, bit 1 a waiting writer, the other
    bits the number of readers.  Threads interleave at every atomic access; a
    weak compare-and-swap may fail spuriously. *)

From stdpp Require Import prelude.
From Stdlib Require Import ZArith Lia.
From S2P Require Import Prelude Words.
Local Open Scope Z_scope.

(** ** Data and steps *)

Definition RWS_WRITER_ACTIVE : Z := Z.shiftl 1 0.
Definition RWS_WRITER_WAITING : Z := Z.shiftl 1 1.
Definition RWS_READER_INCR : Z := Z.shiftl 1 2.
Definition RWS_READER_MASK : Z := not32 (Z.lor RWS_WRITER_ACTIVE RWS_WRITER_WAITING).

Definition nkit_rws_init : Z := 0.

(** Where a thread is: the access it makes next, with the word it loaded. *)
Inductive rws_pc :=
| RwIdle
| RwReadLoad
| RwReadCas (state : Z)
| RwReading
| RwAnnounce
| RwWriteLoad
| RwWriteCas (state : Z)
| RwWriting.

#[export] Instance rws_pc_eq_dec : EqDecision rws_pc.
Proof. solve_decision. Defined.

Record rws_state := mk_rws {
  rws_word : Z;
  rws_threads : list rws_pc;
}.

Inductive rws_label :=
| RwReadLock (t : nat)
| RwReadUnlock (t : nat)
| RwWriteLock (t : nat)
| RwWriteUnlock (t : nat)
| RwAdvance (t : nat) (spurious : bool).

(** [atomic_compare_exchange_weak]: whether it succeeds, and the new word. *)
Definition cas_weak (word expected desired : Z) (spurious : bool) : bool * Z :=
  if (word =? expected) && negb spurious then (true, desired) else (false, word).

(** One access of [nkit_rws_read_lock]. *)
Definition rws_read_lock_step (word : Z) (pc : rws_pc) (spurious : bool) : option (Z * rws_pc) :=
  match pc with
  | RwReadLoad =>
      let state := word in
      if negb (Z.land state (Z.lor RWS_WRITER_ACTIVE RWS_WRITER_WAITING) =? 0)
      then Some (word, RwReadLoad)
      else Some (word, RwReadCas state)
  | RwReadCas state =>
      let '(ok, word) := cas_weak word state (u32 (state + RWS_READER_INCR)) spurious in
      Some (word, if ok then RwReading else RwReadLoad)
  | _ => None
  end.

(** One access of [nkit_rws_write_lock]. *)
Definition rws_write_lock_step (word : Z) (pc : rws_pc) (spurious : bool) : option (Z * rws_pc) :=
  match pc with
  | RwAnnounce => Some (Z.lor word RWS_WRITER_WAITING, RwWriteLoad)
  | RwWriteLoad =>
      let state := word in
      if (Z.land state RWS_READER_MASK =? 0) && (Z.land state RWS_WRITER_ACTIVE =? 0)
      then Some (word, RwWriteCas state)
      else Some (word, RwWriteLoad)
  | RwWriteCas state =>
      let '(ok, word) :=
        cas_weak word state
          (Z.lor (Z.land state (not32 RWS_WRITER_WAITING)) RWS_WRITER_ACTIVE) spurious in
      Some (word, if ok then RwWriting else RwWriteLoad)
  | _ => None
  end.

Definition nkit_rws_read_unlock (word : Z) : Z := u32 (word - RWS_READER_INCR).
Definition nkit_rws_write_unlock (word : Z) : Z := Z.land word (not32 RWS_WRITER_ACTIVE).

Definition rws_step (s : rws_state) (l : rws_label) : option rws_state :=
  let at_pc t pc := decide (rws_threads s !! t = Some pc) in
  let goto t word pc := Some (mk_rws word (<[t := pc]> (rws_threads s))) in
  match l with
  | RwReadLock t => if at_pc t RwIdle then goto t (rws_word s) RwReadLoad else None
  | RwReadUnlock t =>
      if at_pc t RwReading then goto t (nkit_rws_read_unlock (rws_word s)) RwIdle else None
  | RwWriteLock t => if at_pc t RwIdle then goto t (rws_word s) RwAnnounce else None
  | RwWriteUnlock t =>
      if at_pc t RwWriting then goto t (nkit_rws_write_unlock (rws_word s)) RwIdle else None
  | RwAdvance t spurious =>
      match rws_threads s !! t with
      | Some pc =>
          match rws_read_lock_step (rws_word s) pc spurious with
          | Some (word, pc') => goto t word pc'
          | None =>
              match rws_write_lock_step (rws_word s) pc spurious with
              | Some (word, pc') => goto t word pc'
              | None => None
              end
          end
      | None => None
      end
  end.

Definition rws_start (n : nat) : rws_state := mk_rws nkit_rws_init (replicate n RwIdle).

(** ** The invariant *)

Definition count_pc (pc : rws_pc) (ths : list rws_pc) : nat := length (filter (eq pc) ths).

(** The word with its three fields. *)
Definition encode (active waiting : bool) (readers : Z) : Z :=
  Z.b2z active + 2 * Z.b2z waiting + 4 * readers.

(** What a thread about to compare-and-swap knows of the word it loaded. *)
Definition rws_local (pc : rws_pc) : Prop :=
  match pc with
  | RwReadCas state => ∃ r, state = encode false false r
  | RwWriteCas state => ∃ w, state = encode false w 0
  | _ => True
  end.

Record rws_inv (s : rws_state) (active waiting : bool) (readers : Z) : Prop := {
  ri_word : rws_word s = encode active waiting readers;
  ri_readers : readers = Z.of_nat (count_pc RwReading (rws_threads s));
  ri_writers : count_pc RwWriting (rws_threads s) = if active then 1%nat else 0%nat;
  ri_excl : active = true → readers = 0;
  ri_few : Z.of_nat (length (rws_threads s)) < 2 ^ 30;
  ri_local : ∀ t pc, rws_threads s !! t = Some pc → rws_local pc;
}.

(** ** The word's bits *)

Section bits.
Context (a w : bool) (r : Z) (Hr : 0 ≤ r < 2 ^ 30).

Lemma encode_range : is_u32 (encode a w r).
Proof. unfold is_u32, encode. destruct a, w; simpl; lia. Qed.

Lemma encode_mod4 : encode a w r mod 4 = Z.b2z a + 2 * Z.b2z w.
Proof.
  unfold encode. rewrite (Z.mul_comm 4), Z_mod_plus_full. by destruct a, w.
Qed.

Lemma encode_low : Z.land (encode a w r) 3 = Z.b2z a + 2 * Z.b2z w.
Proof. change 3 with (2 ^ 2 - 1). rewrite land_mask by lia. apply encode_mod4. Qed.

Lemma encode_busy :
  Z.land (encode a w r) (Z.lor RWS_WRITER_ACTIVE RWS_WRITER_WAITING) = 0 ↔ a = false ∧ w = false.
Proof.
  change (Z.lor RWS_WRITER_ACTIVE RWS_WRITER_WAITING) with 3. rewrite encode_low.
  destruct a, w; simpl; split; [lia|intros []|lia|intros []|lia|intros []|done|done]; done.
Qed.

Lemma encode_active : Z.land (encode a w r) RWS_WRITER_ACTIVE = Z.b2z a.
Proof.
  change RWS_WRITER_ACTIVE with (Z.land 3 1). rewrite Z.land_assoc, encode_low.
  by destruct a, w.
Qed.

Lemma encode_waiting : Z.land (encode a w r) RWS_WRITER_WAITING = 2 * Z.b2z w.
Proof.
  change RWS_WRITER_WAITING with (Z.land 3 2). rewrite Z.land_assoc, encode_low.
  by destruct a, w.
Qed.

Lemma encode_readers : Z.land (encode a w r) RWS_READER_MASK = 4 * r.
Proof.
  unfold RWS_READER_MASK. rewrite land_not32 by apply encode_range.
  change (Z.lor RWS_WRITER_ACTIVE RWS_WRITER_WAITING) with (2 ^ 2 - 1).
  rewrite ldiff_ones by lia. change (2 ^ 2) with 4. rewrite encode_mod4.
  unfold encode. lia.
Qed.

Lemma encode_announce : Z.lor (encode a w r) RWS_WRITER_WAITING = encode a true r.
Proof.
  pose proof encode_waiting as H. unfold encode. destruct w.
  - by apply lor_absorb.
  - rewrite lor_disjoint by done. change RWS_WRITER_WAITING with 2. simpl. lia.
Qed.

Lemma encode_release : nkit_rws_write_unlock (encode a w r) = encode false w r.
Proof.
  unfold nkit_rws_write_unlock. rewrite land_not32 by apply encode_range.
  change RWS_WRITER_ACTIVE with (2 ^ 1 - 1). rewrite ldiff_ones by lia. change (2 ^ 1) with 2.
  replace (encode a w r mod 2) with (Z.b2z a); [unfold encode; simpl; lia|].
  unfold encode. replace (Z.b2z a + 2 * Z.b2z w + 4 * r) with (Z.b2z a + (Z.b2z w + 2 * r) * 2) by lia.
  rewrite Z_mod_plus_full. by destruct a.
Qed.
End bits.

Lemma encode_inj a w r a' w' r' :
  encode a w r = encode a' w' r' → a = a' ∧ w = w' ∧ r = r'.
Proof.
  intros E. pose proof (encode_mod4 a w r) as H. rewrite E, encode_mod4 in H.
  unfold encode in E. destruct a, w, a', w'; simpl in *; try lia; split_and!; try done; lia.
Qed.

(** ** Preservation *)

Definition indicator (pc pc' : rws_pc) : nat := if decide (pc = pc') then 1 else 0.

Lemma count_pc_insert pc ths t old new :
  ths !! t = Some old →
  (count_pc pc (<[t := new]> ths) + indicator pc old = count_pc pc ths + indicator pc new)%nat.
Proof.
  intros Ht. unfold count_pc, indicator.
  pose proof (filter_insert_permutation (eq pc) ths t new old Ht) as Hp.
  apply Permutation_length in Hp. rewrite !length_app, !filter_cons, !filter_nil in Hp.
  do 2 case_decide; simpl in Hp; lia.
Qed.

Lemma count_pc_le pc ths : (count_pc pc ths ≤ length ths)%nat.
Proof. apply length_filter. Qed.

Lemma count_pc_pos pc ths t : ths !! t = Some pc → (0 < count_pc pc ths)%nat.
Proof.
  intros Ht. unfold count_pc. assert (Hin : pc ∈ filter (eq pc) ths).
  { apply list_elem_of_filter. split; [done|]. by eapply list_elem_of_lookup_2. }
  destruct (filter _ ths); [by apply not_elem_of_nil in Hin|simpl; lia].
Qed.

Lemma rws_move s a w r t old new (a' : bool) w' r' :
  rws_inv s a w r → rws_threads s !! t = Some old → rws_local new →
  r' + Z.of_nat (indicator RwReading old) = r + Z.of_nat (indicator RwReading new) →
  ((if a' then 1 else 0) + indicator RwWriting old
   = (if a then 1 else 0) + indicator RwWriting new)%nat →
  (a' = true → r' = 0) →
  rws_inv (mk_rws (encode a' w' r') (<[t := new]> (rws_threads s))) a' w' r'.
Proof.
  intros [Hw Hr Hwr Hex Hfew Hloc] Ht Hnew Hread Hwrite Hex'.
  pose proof (count_pc_insert RwReading _ t old new Ht).
  pose proof (count_pc_insert RwWriting _ t old new Ht).
  split; simpl; rewrite ?length_insert; auto; try lia.
  apply (forall_insert (λ _ pc, rws_local pc)); eauto.
Qed.

Lemma rws_inv_range s a w r : rws_inv s a w r → 0 ≤ r < 2 ^ 30.
Proof.
  intros [_ -> _ _ Hfew _]. pose proof (count_pc_le RwReading (rws_threads s)). lia.
Qed.

Lemma cas_weak_spec word e d sp :
  cas_weak word e d sp = (true, d) ∧ word = e ∨ cas_weak word e d sp = (false, word).
Proof. unfold cas_weak. destruct (Z.eqb_spec word e), sp; simpl; auto. Qed.

Lemma rws_read_sim s a w r t pc sp word pc' :
  rws_inv s a w r → rws_threads s !! t = Some pc →
  rws_read_lock_step (rws_word s) pc sp = Some (word, pc') →
  ∃ r', rws_inv (mk_rws word (<[t := pc']> (rws_threads s))) a w r' ∧
        (r' = r + 1 → pc' = RwReading ∧ a = false ∧ w = false).
Proof.
  intros I Ht Hs. pose proof (rws_inv_range _ _ _ _ I) as Hr.
  pose proof (ri_word _ _ _ _ I) as Hw. rewrite Hw in Hs.
  assert (Hex := ri_excl _ _ _ _ I).
  destruct pc; cbn [rws_read_lock_step] in Hs; simplify_eq.
  - destruct (Z.eqb_spec (Z.land (encode a w r) (Z.lor RWS_WRITER_ACTIVE RWS_WRITER_WAITING)) 0)
      as [E|E]; simplify_eq; cbn [negb] in Hs; simplify_eq;
      exists r; (split; [|lia]); apply (rws_move s a w r t RwReadLoad); auto; try done.
    apply encode_busy in E as [-> ->]. by exists r.
  - destruct (ri_local _ _ _ _ I t _ Ht) as [r0 ->].
    destruct (cas_weak_spec (encode a w r) (encode false false r0)
      (u32 (encode false false r0 + RWS_READER_INCR)) sp) as [[E Eq]|E]; rewrite E in Hs; simplify_eq.
    + apply encode_inj in Eq as (-> & -> & ->). exists (r0 + 1). split; [|done].
      assert (Hlt : r0 + 1 < 2 ^ 30).
      { pose proof (count_pc_insert RwReading _ t _ RwReading Ht) as Hc.
        pose proof (count_pc_le RwReading (<[t := RwReading]> (rws_threads s))) as Hle.
        rewrite length_insert in Hle. pose proof (ri_few _ _ _ _ I). destruct I.
        unfold indicator in Hc. rewrite decide_False, decide_True in Hc by done. lia. }
      replace (u32 _) with (encode false false (r0 + 1)).
      * apply (rws_move s false false r0 t _ RwReading _ _ _ I Ht); try done.
        unfold indicator. rewrite decide_False, decide_True by done. lia.
      * change RWS_READER_INCR with 4. unfold encode. simpl. rewrite u32_small; [lia|].
        unfold is_u32. lia.
    + exists r. split; [|lia]. eapply (rws_move s a w r t); eauto; done.
Qed.

Lemma rws_write_sim s a w r t pc sp word pc' :
  rws_inv s a w r → rws_threads s !! t = Some pc →
  rws_write_lock_step (rws_word s) pc sp = Some (word, pc') →
  ∃ a' w', rws_inv (mk_rws word (<[t := pc']> (rws_threads s))) a' w' r ∧
           (a' ≠ a → a' = true ∧ r = 0).
Proof.
  intros I Ht Hs. pose proof (rws_inv_range _ _ _ _ I) as Hr.
  pose proof (ri_word _ _ _ _ I) as Hw. rewrite Hw in Hs.
  assert (Hex := ri_excl _ _ _ _ I).
  destruct pc; cbn [rws_write_lock_step] in Hs; simplify_eq.
  - rewrite encode_announce. exists a, true. split; [|done].
    apply (rws_move s a w r t RwAnnounce); auto; done.
  - rewrite encode_readers, encode_active in Hs by done.
    destruct (Z.eqb_spec (4 * r) 0) as [E|E], (Z.eqb_spec (Z.b2z a) 0) as [E'|E'];
      cbn [andb] in Hs; simplify_eq; exists a, w; (split; [|done]);
      apply (rws_move s a w r t RwWriteLoad); auto; try done.
    destruct a; [done|]. exists w. f_equal. lia.
  - destruct (ri_local _ _ _ _ I t _ Ht) as [w0 ->].
    destruct (cas_weak_spec (encode a w r) (encode false w0 0)
      (Z.lor (Z.land (encode false w0 0) (not32 RWS_WRITER_WAITING)) RWS_WRITER_ACTIVE) sp)
      as [[E Eq]|E]; rewrite E in Hs; simplify_eq.
    + apply encode_inj in Eq as (-> & -> & ->). exists true, false. split; [|done].
      replace (Z.lor _ _) with (encode true false 0) by (by destruct w0).
      by apply (rws_move s false w0 0 t _ RwWriting _ _ _ I Ht).
    + exists a, w. split; [|done]. eapply (rws_move s a w r t); eauto; done.
Qed.

Lemma rws_step_inv s a w r l s' :
  rws_inv s a w r → rws_step s l = Some s' →
  ∃ a' w' r', rws_inv s' a' w' r' ∧ (r < r' → a = false ∧ w = false).
Proof.
  intros I Hs. pose proof (rws_inv_range _ _ _ _ I) as Hr.
  pose proof (ri_word _ _ _ _ I) as Hw. pose proof (ri_excl _ _ _ _ I) as Hex.
  destruct l as [t|t|t|t|t sp]; cbn [rws_step] in Hs.
  - case_decide as Ht; simplify_eq. rewrite Hw. exists a, w, r. split; [|lia].
    by apply (rws_move s a w r t RwIdle RwReadLoad).
  - case_decide as Ht; simplify_eq. exists a, w, (r - 1). split; [|lia].
    assert (0 < r).
    { rewrite (ri_readers _ _ _ _ I). pose proof (count_pc_pos RwReading _ t Ht). lia. }
    replace (nkit_rws_read_unlock _) with (encode a w (r - 1)).
    + apply (rws_move s a w r t RwReading RwIdle _ _ _ I Ht); try done; [|intros Ha; specialize (Hex Ha); lia].
      unfold indicator. rewrite decide_True, decide_False by done. lia.
    + unfold nkit_rws_read_unlock. rewrite Hw. change RWS_READER_INCR with 4.
      pose proof (encode_range a w r Hr). unfold encode, is_u32 in *.
      rewrite u32_small by (unfold is_u32; destruct a, w; simpl in *; lia). lia.
  - case_decide as Ht; simplify_eq. rewrite Hw. exists a, w, r. split; [|lia].
    by apply (rws_move s a w r t RwIdle RwAnnounce).
  - case_decide as Ht; simplify_eq. exists false, w, r. split; [|lia].
    pose proof (count_pc_pos RwWriting _ t Ht) as Hpos. rewrite (ri_writers _ _ _ _ I) in Hpos.
    destruct a; [|lia]. rewrite Hw, encode_release by done.
    by apply (rws_move s true w r t RwWriting RwIdle _ _ _ I Ht).
  - destruct (rws_threads s !! t) as [pc|] eqn:Ht; [|done].
    destruct (rws_read_lock_step (rws_word s) pc sp) as [[word pc']|] eqn:E1; simplify_eq.
    + destruct (rws_read_sim s a w r t pc sp word pc' I Ht E1) as (r' & I' & Hgrow).
      exists a, w, r'. split; [done|]. intros Hlt. apply Hgrow.
      pose proof (count_pc_insert RwReading _ t _ pc' Ht) as Hc. unfold indicator in Hc.
      rewrite (ri_readers _ _ _ _ I), (ri_readers _ _ _ _ I') in *. simpl in *.
      do 2 case_decide; lia.
    + destruct (rws_write_lock_step (rws_word s) pc sp) as [[word pc']|] eqn:E2; simplify_eq.
      destruct (rws_write_sim s a w r t pc sp word pc' I Ht E2) as (a' & w' & I' & _).
      exists a', w', r. split; [done|lia].
Qed.

Lemma rws_start_inv n : Z.of_nat n < 2 ^ 30 → rws_inv (rws_start n) false false 0.
Proof.
  intros Hn. assert (Hc : ∀ pc, pc ≠ RwIdle → count_pc pc (replicate n RwIdle) = 0%nat).
  { intros pc Hne. unfold count_pc. clear Hn. induction n as [|n IH]; [done|].
    simpl. by rewrite filter_cons_False by congruence. }
  split; simpl; rewrite ?Hc, ?length_replicate by done; try done.
  by intros t pc [-> _]%lookup_replicate.
Qed.

Lemma rws_run_inv n sched s :
  Z.of_nat n < 2 ^ 30 → run rws_step (rws_start n) sched = Some s →
  ∃ a w r, rws_inv s a w r.
Proof.
  intros Hn Hr. apply run_reachable in Hr.
  refine (reachable_invariant rws_step (λ s, ∃ a w r, rws_inv s a w r) _ _ _ s Hr).
  - by exists false, false, 0; apply rws_start_inv.
  - intros s1 l s2 (a & w & r & I) Hs. destruct (rws_step_inv s1 a w r l s2 I Hs)
      as (a' & w' & r' & I' & _). eauto.
Qed.

(** ** Properties *)

Definition reading (s : rws_state) (t : nat) : Prop := rws_threads s !! t = Some RwReading.
Definition writing (s : rws_state) (t : nat) : Prop := rws_threads s !! t = Some RwWriting.

Lemma count_pc_unique pc ths t1 t2 :
  (count_pc pc ths ≤ 1)%nat → ths !! t1 = Some pc → ths !! t2 = Some pc → t1 = t2.
Proof.
  unfold count_pc. revert t1 t2. induction ths as [|p ths IH]; intros t1 t2 Hc H1 H2; [done|].
  rewrite filter_cons in Hc.
  assert (Hno : ∀ t, p = pc → ths !! t = Some pc → False).
  { intros t -> Ht. rewrite decide_True in Hc by done. simpl in Hc.
    pose proof (count_pc_pos pc ths t Ht) as Hp. unfold count_pc in Hp. lia. }
  destruct t1 as [|t1], t2 as [|t2]; simplify_eq/=; try done.
  - exfalso. eauto.
  - exfalso. eauto.
  - f_equal. apply IH; auto. case_decide; simpl in Hc; lia.
Qed.

(** C16. With fewer than 2^30 threads and any interleaving (spurious failures of
    the weak compare-and-swap included), at most one thread holds the lock for
    writing, no thread holds it for reading at the same time, and the reader
    bits of the word count exactly the threads that hold it for reading. *)
Theorem rws_exclusion n sched s :
  Z.of_nat n < 2 ^ 30 → run rws_step (rws_start n) sched = Some s →
  (∀ t1 t2, writing s t1 → writing s t2 → t1 = t2) ∧
  (∀ t1 t2, writing s t1 → ¬ reading s t2) ∧
  Z.land (rws_word s) RWS_READER_MASK = 4 * Z.of_nat (count_pc RwReading (rws_threads s)).
Proof.
  intros Hn Hr. destruct (rws_run_inv n sched s Hn Hr) as (a & w & r & I).
  pose proof (rws_inv_range _ _ _ _ I) as Hrange. split_and!.
  - intros t1 t2. apply count_pc_unique. rewrite (ri_writers _ _ _ _ I). destruct a; lia.
  - intros t1 t2 Hw Hrd. pose proof (count_pc_pos _ _ _ Hw) as H1. rewrite (ri_writers _ _ _ _ I) in H1.
    pose proof (count_pc_pos _ _ _ Hrd) as H2. pose proof (ri_readers _ _ _ _ I).
    destruct a; [|lia]. pose proof (ri_excl _ _ _ _ I eq_refl). lia.
  - rewrite (ri_word _ _ _ _ I), encode_readers by done. by rewrite (ri_readers _ _ _ _ I).
Qed.

(** While the waiting bit (or the active bit) is set, no step lets a new
    reader in: the number of readers never grows from such a state. *)
Theorem rws_waiting_blocks_readers n sched s l s' :
  Z.of_nat n < 2 ^ 30 → run rws_step (rws_start n) sched = Some s →
  Z.land (rws_word s) (Z.lor RWS_WRITER_ACTIVE RWS_WRITER_WAITING) ≠ 0 →
  rws_step s l = Some s' →
  (count_pc RwReading (rws_threads s') ≤ count_pc RwReading (rws_threads s))%nat.
Proof.
  intros Hn Hr Hbit Hs. destruct (rws_run_inv n sched s Hn Hr) as (a & w & r & I).
  pose proof (rws_inv_range _ _ _ _ I) as Hrange.
  destruct (rws_step_inv s a w r l s' I Hs) as (a' & w' & r' & I' & Hgrow).
  rewrite (ri_word _ _ _ _ I), encode_busy in Hbit.
  pose proof (ri_readers _ _ _ _ I). pose proof (ri_readers _ _ _ _ I').
  destruct (Z.lt_ge_cases r r'); [|lia]. destruct Hbit. auto.
Qed.

(** A writer that has announced itself acquires the lock with its next two
    accesses (a load and a compare-and-swap that does not fail spuriously) once
    no thread holds it, whatever history led there. *)
Theorem rws_writer_acquires n sched s t :
  Z.of_nat n < 2 ^ 30 → run rws_step (rws_start n) sched = Some s →
  rws_threads s !! t = Some RwWriteLoad →
  (∀ u, ¬ reading s u) → (∀ u, ¬ writing s u) →
  ∃ s', run rws_step s [RwAdvance t false; RwAdvance t false] = Some s' ∧ writing s' t.
Proof.
  intros Hn Hr Ht Hnr Hnw. destruct (rws_run_inv n sched s Hn Hr) as (a & w & r & I).
  pose proof (rws_inv_range _ _ _ _ I) as Hrange. pose proof (lookup_lt_Some _ _ _ Ht) as Hlt.
  assert (Hz : ∀ pc, (∀ u, rws_threads s !! u ≠ Some pc) → count_pc pc (rws_threads s) = 0%nat).
  { intros pc Hno. unfold count_pc. destruct (filter _ _) as [|x l] eqn:E; [done|exfalso].
    assert (Hin : x ∈ filter (eq pc) (rws_threads s)) by (rewrite E; by left).
    apply list_elem_of_filter in Hin as [<- Hin]. apply list_elem_of_lookup in Hin as [u Hu].
    by apply (Hno u). }
  pose proof (ri_readers _ _ _ _ I) as Hrd. rewrite (Hz RwReading Hnr) in Hrd.
  pose proof (ri_writers _ _ _ _ I) as Hwr. rewrite (Hz RwWriting Hnw) in Hwr.
  destruct a; [done|]. simpl in Hrd. subst r. pose proof (ri_word _ _ _ _ I) as Hw.
  set (s1 := mk_rws (encode false w 0) (<[t := RwWriteCas (encode false w 0)]> (rws_threads s))).
  assert (E1 : rws_step s (RwAdvance t false) = Some s1).
  { cbn [rws_step]. rewrite Ht. cbn [rws_read_lock_step rws_write_lock_step].
    by rewrite Hw, encode_readers, encode_active by done. }
  assert (Ht1 : rws_threads s1 !! t = Some (RwWriteCas (encode false w 0)))
    by (by apply list_lookup_insert_eq).
  cbn [run]. rewrite E1. cbn [rws_step]. rewrite Ht1.
  cbn [rws_read_lock_step rws_write_lock_step]. unfold cas_weak. change (rws_word s1) with (encode false w 0).
  rewrite Z.eqb_refl. cbn [andb negb]. eexists. split; [done|].
  apply list_lookup_insert_eq. by apply lookup_lt_Some in Ht1.
Qed.

(** Writers 0 and 1 announce themselves, 0 acquires (clearing the bit both set)
    and releases. *)
Definition overtaking_sched : list rws_label :=
  [RwWriteLock 0; RwWriteLock 1; RwAdvance 0 false; RwAdvance 1 false;
   RwAdvance 0 false; RwAdvance 0 false; RwWriteUnlock 0].

(** Writer preference does not survive a second writer: the acquiring
    writer clears the waiting bit for all, so there is an execution in which
    writer 1 has announced itself and waits, yet the word shows no waiting
    writer and reader 2, arriving later, enters before it. *)
Theorem rws_preference_lost :
  ∃ s s', run rws_step (rws_start 3) overtaking_sched = Some s ∧
    rws_threads s !! 1%nat = Some RwWriteLoad ∧ rws_threads s !! 2%nat = Some RwIdle ∧
    Z.land (rws_word s) RWS_WRITER_WAITING = 0 ∧
    run rws_step s [RwReadLock 2; RwAdvance 2 false; RwAdvance 2 false] = Some s' ∧
    reading s' 2.
Proof.
  set (s0 := run rws_step (rws_start 3) (overtaking_sched ++ [RwReadLock 2; RwAdvance 2 false; RwAdvance 2 false])).
  exists (default (rws_start 0) (run rws_step (rws_start 3) overtaking_sched)),
         (default (rws_start 0) s0).
  split_and!; vm_compute; reflexivity.
Qed.

Lemma rws_exclusion_witness :
  match run rws_step (rws_start 3) (overtaking_sched ++ [RwReadLock 2; RwAdvance 2 false; RwAdvance 2 false]) with
  | Some s => Z.land (rws_word s) RWS_READER_MASK = 4
  | None => False
  end.
Proof.
  destruct (run _ _ _) as [s|] eqn:E; [|by vm_compute in E].
  destruct (rws_exclusion 3 _ s ltac:(lia) E) as (_ & _ & H).
  vm_compute in E. simplify_eq. exact H.
Defined.

Lemma rws_waiting_blocks_readers_witness :
  match run rws_step (rws_start 2) [RwWriteLock 0; RwReadLock 1; RwAdvance 1 false; RwAdvance 0 false] with
  | Some s =>
      match rws_step s (RwAdvance 1 false) with
      | Some s' => (count_pc RwReading (rws_threads s') ≤ count_pc RwReading (rws_threads s))%nat
      | None => False
      end
  | None => False
  end.
Proof.
  destruct (run _ _ _) as [s|] eqn:E; [|by vm_compute in E].
  destruct (rws_step s _) as [s'|] eqn:E'; [|vm_compute in E; by simplify_eq].
  apply (rws_waiting_blocks_readers 2 _ s (RwAdvance 1 false) s' ltac:(lia) E); [|exact E'].
  vm_compute in E. by simplify_eq.
Defined.

Lemma rws_writer_acquires_witness :
  match run rws_step (rws_start 3) overtaking_sched with
  | Some s => ∃ s', run rws_step s [RwAdvance 1 false; RwAdvance 1 false] = Some s' ∧ writing s' 1
  | None => False
  end.
Proof.
  destruct (run _ _ _) as [s|] eqn:E; [|by vm_compute in E].
  apply (rws_writer_acquires 3 overtaking_sched s 1 ltac:(lia) E).
  - vm_compute in E. by simplify_eq.
  - vm_compute in E. simplify_eq. by intros [|[|[|u]]] Hu.
  - vm_compute in E. simplify_eq. by intros [|[|[|u]]] Hu.
Defined.
