(* ===== verification/Arena.v ===== *)
(** * Memory arenas (src/memory/arena.c)

    The bump-pointer arena: creation with the hugepage fallback and the NUMA
    policy calls, allocation, reset, coalescing and the queries.  The kernel and
    the C heap are parameters ([arena_os]); what the code relies on about them is
    the class [ArenaOS_ok]. *)

From stdpp Require Import prelude.
From Stdlib Require Import ZArith Lia.
From S2P Require Import Prelude Words.
Local Open Scope Z_scope.
Local Open Scope word_scope.

(** ** The operating system the arena runs on *)

Definition MAP_FAILED : Z := 2 ^ 64 - 1.
Definition NULL : Z := 0.

Inductive numa_policy := MPOL_BIND | MPOL_PREFERRED.

(** Results of the calls [arena.c] makes: whether [malloc] of the handle
    succeeds, the address [mmap] returns for a length with or without
    [MAP_HUGETLB], the result of [mbind], [madvise] and [sysconf].  Shifting a
    64-bit word by a negative count or by 64 and more is undefined in C:
    [os_shift_out] is whatever the compiled code leaves in the word then. *)
Record arena_os := {
  os_malloc : bool;
  os_shift_out : Z → Z;
  os_mmap : Z → bool → Z;
  os_mbind : Z → Z → numa_policy → Z → Z;
  os_madvise : Z → Z → Z;
  os_pagesize : Z;
}.

(** Calls with an effect on the process's memory, in program order. *)
Inductive os_call :=
| Mbind (addr len : Z) (pol : numa_policy) (nodemask : Z)
| Munmap (addr len : Z)
| MadviseDontneed (addr len : Z)
| FreeHandle
| NumaFreeHandle.

(** ** Data (lines 12-20) *)

Definition HUGE_PAGE_SIZE : Z := 2 * 1024 * 1024.

Record nkit_arena_t := mk_arena {
  arena_base : Z;
  arena_size : Z;
  arena_used : Z;
  arena_node_id : Z;
  arena_use_huge : Z;
}.

(** ** Operations *)

(** [1UL << node_id]: defined for the node ids 0..63 only. *)
Definition node_mask (os : arena_os) (node_id : Z) : Z :=
  if (0 <=? node_id) && (node_id <? 64) then Z.shiftl 1 node_id else os_shift_out os node_id.

Definition nkit_arena_create (os : arena_os) (node_id size : Z)
    : option nkit_arena_t * list os_call :=
  if size =? 0 then (None, []) else
  if negb (os_malloc os) then (None, []) else
  let aligned_size := align_up size HUGE_PAGE_SIZE in
  let bind (base use_huge : Z) :=
    let nodemask := node_mask os node_id in
    let ret := os_mbind os base aligned_size MPOL_BIND nodemask in
    let strict := Mbind base aligned_size MPOL_BIND nodemask in
    let calls :=
      if ret <? 0 then [strict; Mbind base aligned_size MPOL_PREFERRED nodemask]
      else [strict] in
    (Some (mk_arena base aligned_size 0 node_id use_huge), calls) in
  let base := os_mmap os aligned_size true in
  if base =? MAP_FAILED then
    let base := os_mmap os aligned_size false in
    if base =? MAP_FAILED then (None, [FreeHandle]) else bind base 0
  else bind base 1.

(** [(size + 63) & ~63] *)
Definition cache_aligned (size : Z) : Z := Z.land (size +w 63) (not64 63).

(** [None] for the arena argument is the NULL handle. *)
Definition nkit_arena_alloc (arena : option nkit_arena_t) (size : Z)
    : option Z * option nkit_arena_t :=
  match arena with
  | None => (None, None)
  | Some a =>
      let aligned_size := cache_aligned size in
      if arena_size a <? arena_used a +w aligned_size then (None, Some a)
      else
        let ptr := arena_base a +w arena_used a in
        (Some ptr,
         Some (mk_arena (arena_base a) (arena_size a)
                        (arena_used a +w aligned_size)
                        (arena_node_id a) (arena_use_huge a)))
  end.

Definition nkit_arena_destroy (arena : option nkit_arena_t) : list os_call :=
  match arena with
  | None => []
  | Some a =>
      (if negb (arena_base a =? NULL) && negb (arena_base a =? MAP_FAILED)
       then [Munmap (arena_base a) (arena_size a)] else [])
      ++ [FreeHandle]
  end.

Definition nkit_arena_reset (arena : option nkit_arena_t) : option nkit_arena_t :=
  match arena with
  | None => None
  | Some a => Some (mk_arena (arena_base a) (arena_size a) 0
                             (arena_node_id a) (arena_use_huge a))
  end.

(** The number of pages returned, and the [madvise] call made, if any. *)
Definition nkit_arena_coalesce (os : arena_os) (arena : option nkit_arena_t)
    : Z * list os_call :=
  match arena with
  | None => (0, [])
  | Some a =>
      if (arena_base a =? NULL) || (arena_base a =? MAP_FAILED) then (0, []) else
      if arena_size a =? 0 then (0, []) else
      let page_size :=
        if negb (arena_use_huge a =? 0) then HUGE_PAGE_SIZE else os_pagesize os in
      if page_size =? 0 then (0, []) else
      let base_addr := arena_base a in
      let used_end := base_addr +w arena_used a in
      let first_free_page := align_up used_end page_size in
      let arena_end := base_addr +w arena_size a in
      if arena_end <=? first_free_page then (0, []) else
      let free_bytes := arena_end -w first_free_page in
      let pages_to_return := free_bytes / page_size in
      if pages_to_return =? 0 then (0, []) else
      let len := pages_to_return *w page_size in
      let ret := os_madvise os first_free_page len in
      if negb (ret =? 0) then (0, [MadviseDontneed first_free_page len])
      else (pages_to_return, [MadviseDontneed first_free_page len])
  end.

Definition nkit_arena_used (arena : option nkit_arena_t) : Z :=
  match arena with None => 0 | Some a => arena_used a end.

Definition nkit_arena_size (arena : option nkit_arena_t) : Z :=
  match arena with None => 0 | Some a => arena_size a end.

Definition nkit_arena_is_huge (arena : option nkit_arena_t) : Z :=
  match arena with None => 0 | Some a => arena_use_huge a end.

(** A sequence of allocations from one arena: the blocks handed out, as
    (address, requested bytes), oldest first. *)
Fixpoint alloc_all (a : nkit_arena_t) (sizes : list Z) : list (Z * Z) * nkit_arena_t :=
  match sizes with
  | [] => ([], a)
  | sz :: sizes =>
      match nkit_arena_alloc (Some a) sz with
      | (Some p, Some a') => let '(bs, a'') := alloc_all a' sizes in ((p, sz) :: bs, a'')
      | _ => alloc_all a sizes
      end
  end.

(** ** What the arena relies on

    [mmap] refuses a zero length (EINVAL) and otherwise returns either
    [MAP_FAILED] or a page-aligned mapping that fits below the top of user
    memory; the page size is a power of two. *)
Class ArenaOS_ok (os : arena_os) : Prop := {
  mmap_zero huge : os_mmap os 0 huge = MAP_FAILED;
  mmap_region len huge :
    os_mmap os len huge ≠ MAP_FAILED →
    0 < os_mmap os len huge ∧ os_mmap os len huge + len ≤ 2 ^ 63;
  mmap_page_aligned len : os_mmap os len false ≠ MAP_FAILED →
    (os_pagesize os | os_mmap os len false);
  mmap_huge_aligned len : os_mmap os len true ≠ MAP_FAILED →
    (HUGE_PAGE_SIZE | os_mmap os len true);
  pagesize_pow2 : ∃ k, 6 ≤ k ≤ 21 ∧ os_pagesize os = 2 ^ k;
}.

(** ** Invariant *)

Record arena_ok (os : arena_os) (a : nkit_arena_t) : Prop := {
  arena_base_pos : 0 < arena_base a;
  arena_used_bounds : 0 ≤ arena_used a ≤ arena_size a;
  arena_used_aligned : (64 | arena_used a);
  arena_size_pos : 0 < arena_size a;
  arena_size_aligned : (HUGE_PAGE_SIZE | arena_size a);
  arena_region : arena_base a + arena_size a ≤ 2 ^ 63;
  arena_base_aligned :
    (if arena_use_huge a =? 0 then os_pagesize os else HUGE_PAGE_SIZE | arena_base a);
}.

Definition disjoint_blocks (b1 b2 : Z * Z) : Prop :=
  b1.1 + b1.2 ≤ b2.1 ∨ b2.1 + b2.2 ≤ b1.1.

(** ** Helper lemmas *)

Lemma HUGE_PAGE_SIZE_pow2 : HUGE_PAGE_SIZE = 2 ^ 21.
Proof. reflexivity. Qed.

Lemma cache_aligned_align_up size : cache_aligned size = align_up size (2 ^ 6).
Proof.
  unfold cache_aligned, align_up. rewrite u64_sub_l. do 2 f_equal. f_equal. lia.
Qed.

Lemma cache_aligned_bounds size :
  0 ≤ size < 2 ^ 64 - 63 →
  size ≤ cache_aligned size < size + 64 ∧ (64 | cache_aligned size).
Proof.
  intros H. rewrite cache_aligned_align_up. apply (align_up_bounds size 6); lia.
Qed.

Lemma divide_pow2_le a k j : 0 ≤ j ≤ k → (2 ^ k | a) → (2 ^ j | a).
Proof.
  intros Hjk Ha. etransitivity; [|exact Ha]. exists (2 ^ (k - j)).
  rewrite <-Z.pow_add_r by lia. f_equal; lia.
Qed.

Lemma divide_64_huge a : (HUGE_PAGE_SIZE | a) → (64 | a).
Proof. apply (divide_pow2_le a 21 6). lia. Qed.

(** Mappings are at least cache-line aligned. *)
Lemma arena_base_64 os a : ArenaOS_ok os → arena_ok os a → (64 | arena_base a).
Proof.
  intros Hos Ha. pose proof (arena_base_aligned _ _ Ha) as Hb.
  destruct (arena_use_huge a =? 0); [|by apply divide_64_huge].
  destruct (pagesize_pow2 (os:=os)) as (k & Hk & E). rewrite E in Hb.
  apply (divide_pow2_le _ k 6); [lia|done].
Qed.

(** An allocation that fits advances the bump pointer by the rounded size. *)
Lemma arena_alloc_fits os a size :
  arena_ok os a → 0 ≤ size → arena_used a + cache_aligned size ≤ arena_size a →
  size < 2 ^ 64 - 63 →
  nkit_arena_alloc (Some a) size =
    (Some (arena_base a + arena_used a),
     Some (mk_arena (arena_base a) (arena_size a)
             (arena_used a + cache_aligned size) (arena_node_id a) (arena_use_huge a))).
Proof.
  intros [] Hsz Hfit Hlt. destruct (cache_aligned_bounds size); [lia|].
  unfold nkit_arena_alloc. rewrite !u64_small by (unfold is_u64; lia).
  by rewrite (proj2 (Z.ltb_ge _ _)) by lia.
Qed.

(** An allocation that does not fit fails and leaves the arena alone. *)
Lemma arena_alloc_full os a size :
  arena_ok os a → 0 ≤ size ≤ 2 ^ 64 - 64 - arena_size a →
  arena_size a < arena_used a + cache_aligned size →
  nkit_arena_alloc (Some a) size = (None, Some a).
Proof.
  intros [] Hsz Hfull. destruct (cache_aligned_bounds size); [lia|].
  unfold nkit_arena_alloc. rewrite !u64_small by (unfold is_u64; lia).
  by rewrite (proj2 (Z.ltb_lt _ _)) by lia.
Qed.

Lemma arena_ok_bump os a n :
  arena_ok os a → 0 ≤ n → (64 | n) → arena_used a + n ≤ arena_size a →
  arena_ok os (mk_arena (arena_base a) (arena_size a) (arena_used a + n)
                        (arena_node_id a) (arena_use_huge a)).
Proof.
  intros [] Hn Hd Hle. split; simpl; try done; [lia|by apply Z.divide_add_r].
Qed.

Lemma arena_create_inv os node size a calls :
  ArenaOS_ok os → 0 ≤ size < 2 ^ 64 →
  nkit_arena_create os node size = (Some a, calls) →
  size + HUGE_PAGE_SIZE - 1 < 2 ^ 64 ∧ 0 < size ∧ arena_ok os a ∧
  size ≤ arena_size a < size + HUGE_PAGE_SIZE ∧ arena_used a = 0 ∧
  arena_node_id a = node.
Proof.
  intros Hos Hsz. unfold nkit_arena_create.
  destruct (Z.eqb_spec size 0) as [|Hne]; [done|].
  destruct (os_malloc os); simpl; [|done].
  destruct (Z.lt_ge_cases (size + HUGE_PAGE_SIZE - 1) (2 ^ 64)) as [Hs|Hs].
  2:{ rewrite HUGE_PAGE_SIZE_pow2, align_up_wrap by (unfold HUGE_PAGE_SIZE in *; lia).
      by rewrite !mmap_zero, !Z.eqb_refl. }
  destruct (align_up_bounds size 21) as [Hb Hd]; [lia|lia|unfold HUGE_PAGE_SIZE in *; lia|].
  rewrite HUGE_PAGE_SIZE_pow2. remember (align_up size (2 ^ 21)) as sz.
  destruct (Z.eqb_spec (os_mmap os sz true) MAP_FAILED) as [|Hh];
    [destruct (Z.eqb_spec (os_mmap os sz false) MAP_FAILED) as [|Hl]; [done|]|];
    intros [= <- _]; simpl; repeat split; simpl; try lia; try done.
  all: try (apply mmap_region; done); try (eapply mmap_page_aligned; done).
  all: try (apply mmap_huge_aligned; done); exact (Z.divide_0_r 64).
Qed.

#[export] Hint Resolve arena_ok_bump : nkit.

(** What one call of [nkit_arena_alloc] may do to a well-formed arena, for a
    request that cannot wrap the watermark around. *)
Lemma arena_alloc_fitting os a size :
  ArenaOS_ok os → arena_ok os a → 0 ≤ size ≤ 2 ^ 64 - 64 - arena_size a →
  (nkit_arena_alloc (Some a) size = (None, Some a) ∧
   arena_size a - arena_used a < cache_aligned size) ∨
  ∃ a', nkit_arena_alloc (Some a) size = (Some (arena_base a + arena_used a), Some a') ∧
    arena_ok os a' ∧ arena_base a' = arena_base a ∧ arena_size a' = arena_size a ∧
    arena_used a' = arena_used a + cache_aligned size.
Proof.
  intros Hos Ha Hsz. pose proof (arena_size_pos _ _ Ha).
  destruct (cache_aligned_bounds size) as [Hb Hd]; [lia|].
  destruct (Z.le_gt_cases (arena_used a + cache_aligned size) (arena_size a)).
  - right. eexists. split; [by eapply arena_alloc_fits; eauto; lia|].
    split; [|done]. apply arena_ok_bump; auto; lia.
  - left. split; [by eapply arena_alloc_full; eauto; lia|lia].
Qed.

(** An arena is at most 2^63 bytes, so such a request is in particular one of at
    most 2^63-64 bytes. *)
Lemma arena_alloc_cases os a size :
  ArenaOS_ok os → arena_ok os a → 0 ≤ size ≤ 2 ^ 63 - 64 →
  (nkit_arena_alloc (Some a) size = (None, Some a) ∧
   arena_size a - arena_used a < cache_aligned size) ∨
  ∃ a', nkit_arena_alloc (Some a) size = (Some (arena_base a + arena_used a), Some a') ∧
    arena_ok os a' ∧ arena_base a' = arena_base a ∧ arena_size a' = arena_size a ∧
    arena_used a' = arena_used a + cache_aligned size.
Proof.
  intros Hos Ha Hsz. apply arena_alloc_fitting; auto. destruct Ha. lia.
Qed.

(** Every block of a run lies between the two watermarks, oldest lowest. *)
Lemma alloc_all_layout os sizes : ∀ a bs a',
  ArenaOS_ok os → arena_ok os a → Forall (λ s, 0 ≤ s ≤ 2 ^ 64 - 64 - arena_size a) sizes →
  alloc_all a sizes = (bs, a') →
  arena_ok os a' ∧ arena_base a' = arena_base a ∧ arena_size a' = arena_size a ∧
  arena_used a ≤ arena_used a' ∧
  Forall (λ b, arena_base a + arena_used a ≤ b.1 ∧ 0 ≤ b.2 ∧
               b.1 + b.2 ≤ arena_base a + arena_used a' ∧ (64 | b.1)) bs ∧
  ∀ i j b1 b2, (i < j)%nat → bs !! i = Some b1 → bs !! j = Some b2 → b1.1 + b1.2 ≤ b2.1.
Proof.
  induction sizes as [|sz sizes IH]; intros a bs a' Hos Ha Hall Hrun; cbn [alloc_all] in Hrun.
  { simplify_eq. split_and!; auto; [lia|]. by intros []. }
  inversion Hall as [|? ? Hsz Hall']; subst.
  destruct (arena_alloc_fitting os a sz Hos Ha Hsz) as [[E _]|(a1 & E & Ha1 & Eb & Es & Eu)];
    rewrite E in Hrun; [by apply (IH a)|].
  destruct (alloc_all a1 sizes) as [bs1 a2] eqn:Hrun1. simplify_eq.
  rewrite <-Es in Hall'.
  destruct (IH a1 bs1 a' Hos Ha1 Hall' Hrun1) as (Ha' & Eb' & Es' & Hu & Hin & Hord).
  pose proof (arena_size_pos _ _ Ha). destruct (cache_aligned_bounds sz) as [Hb Hd]; [lia|].
  rewrite Eb, Eu in *. pose proof (arena_used_bounds _ _ Ha).
  split_and!; auto; try congruence; try lia.
  - constructor; simpl.
    + split_and!; try lia. apply Z.divide_add_r; [by eapply arena_base_64|].
      by eapply arena_used_aligned.
    + eapply Forall_impl; [exact Hin|]. simpl. intros b (? & ? & ? & ?).
      split_and!; auto; lia.
  - intros [|i] [|j] b1 b2 Hij H1 H2; try lia; simplify_eq/=; [|by eapply (Hord i j); eauto; lia].
    apply (Forall_lookup_1 _ _ _ _ Hin) in H2. simpl in *. lia.
Qed.

(** The range [nkit_arena_coalesce] hands to [madvise]. *)
Lemma coalesce_range os a n addr len :
  ArenaOS_ok os → arena_ok os a →
  nkit_arena_coalesce os (Some a) = (n, [MadviseDontneed addr len]) →
  arena_base a + arena_used a ≤ addr ∧ 0 < len ∧
  addr + len = arena_base a + arena_size a ∧
  ∃ page, page = (if arena_use_huge a =? 0 then os_pagesize os else HUGE_PAGE_SIZE) ∧
          (page | addr) ∧ (page | len).
Proof.
  intros Hos [] Hc. unfold nkit_arena_coalesce in Hc.
  destruct (_ || _); [done|]. destruct (arena_size a =? 0); [done|].
  set (page := if negb _ then _ else _) in Hc.
  assert (Hp : page = if arena_use_huge a =? 0 then os_pagesize os else HUGE_PAGE_SIZE)
    by (unfold page; by destruct (_ =? 0)).
  assert (Hk : ∃ k, 6 ≤ k ≤ 21 ∧ page = 2 ^ k).
  { rewrite Hp. case_match; [apply pagesize_pow2|by exists 21]. }
  rewrite <-Hp in *. clearbody page. destruct Hk as (k & Hk & ->).
  assert (2 ^ k ≤ 2 ^ 21) by (apply Z.pow_le_mono_r; lia).
  destruct (2 ^ k =? 0); [done|].
  rewrite (u64_small (arena_base a + arena_used a)) in Hc by (unfold is_u64; lia).
  rewrite (u64_small (arena_base a + arena_size a)) in Hc by (unfold is_u64; lia).
  destruct (align_up_bounds (arena_base a + arena_used a) k) as [Hb Hd]; [lia..|].
  set (ff := align_up _ _) in *. clearbody ff.
  destruct (Z.leb_spec (arena_base a + arena_size a) ff); [done|].
  rewrite (u64_small (_ - ff)) in Hc by (unfold is_u64; lia).
  assert (Hdf : (2 ^ k | arena_base a + arena_size a - ff)).
  { apply Z.divide_sub_r; [apply Z.divide_add_r|]; auto.
    apply (divide_pow2_le _ 21 k); [lia|done]. }
  destruct Hdf as [q Hq]. rewrite Hq, Z.div_mul in Hc by lia.
  destruct (q =? 0); [done|]. rewrite u64_small in Hc by (unfold is_u64; lia).
  assert (addr = ff ∧ len = q * 2 ^ k) as [-> ->] by (destruct (negb _); by simplify_eq).
  split_and!; try lia. exists (2 ^ k). split_and!; auto. by exists q.
Qed.

(** ** A concrete system, used by the witnesses *)

Definition demo_os (huge_ok strict_ok : bool) : arena_os := {|
  os_malloc := true;
  os_shift_out _ := 0;
  os_mmap len huge :=
    if (len =? 0) || (2 ^ 62 <? len) || (huge && negb huge_ok) then MAP_FAILED
    else 2 ^ 30;
  os_mbind _ _ pol _ :=
    match pol with MPOL_BIND => if strict_ok then 0 else -1 | MPOL_PREFERRED => -1 end;
  os_madvise _ _ := 0;
  os_pagesize := 4096;
|}.

#[export] Instance demo_os_ok h s : ArenaOS_ok (demo_os h s).
Proof.
  split; simpl.
  - done.
  - intros len huge. destruct (_ || _ || _) eqn:E; [done|]. intros _.
    rewrite !orb_false_iff, Z.ltb_ge in E. lia.
  - intros len. destruct (_ || _ || _); [done|]. intros _. by exists (2 ^ 18).
  - intros len. destruct (_ || _ || _); [done|]. intros _. by exists (2 ^ 9).
  - by exists 12.
Qed.

Definition demo_arena : nkit_arena_t := mk_arena (2 ^ 30) (2 ^ 21) 128 0 0.

Lemma demo_arena_ok : arena_ok (demo_os false true) demo_arena.
Proof.
  split; simpl; try lia; [by exists 2|by exists 1|by exists (2 ^ 18)].
Qed.

(** ** Properties *)

(** Allocation: on a well-formed arena a request of at most 2^63-64 bytes
    either fails, leaving the arena unchanged, and then the rounded request
    really exceeds the free space; or it returns the cache-line aligned address
    of the watermark, the requested bytes lie inside the arena, the watermark
    moves past them, and the arena is still well-formed. *)
Theorem arena_alloc_correct os a size :
  ArenaOS_ok os → arena_ok os a → 0 ≤ size ≤ 2 ^ 63 - 64 →
  match nkit_arena_alloc (Some a) size with
  | (None, r) => r = Some a ∧ arena_size a - arena_used a < cache_aligned size
  | (Some p, Some a') =>
      p = arena_base a + arena_used a ∧ (64 | p) ∧ arena_ok os a' ∧
      arena_base a' = arena_base a ∧ arena_size a' = arena_size a ∧
      arena_used a + size ≤ arena_used a' < arena_used a + size + 64 ∧
      p + size ≤ arena_base a + arena_size a
  | (Some _, None) => False
  end.
Proof.
  intros Hos Ha Hsz. destruct (cache_aligned_bounds size) as [Hb _]; [lia|].
  destruct (arena_alloc_cases os a size Hos Ha Hsz)
    as [[-> ?]|(a' & -> & Ha' & Eb & Es & Eu)]; [done|].
  pose proof (arena_used_bounds _ _ Ha'). split_and!; auto; try lia.
  apply Z.divide_add_r; [by eapply arena_base_64|by eapply arena_used_aligned].
Qed.

Lemma arena_alloc_correct_witness :
  nkit_arena_alloc (Some demo_arena) 100 =
    (Some (2 ^ 30 + 128), Some (mk_arena (2 ^ 30) (2 ^ 21) 256 0 0)) ∧
  (64 | 2 ^ 30 + 128).
Proof.
  split; [reflexivity|].
  exact (proj1 (proj2 (arena_alloc_correct (demo_os false true) demo_arena 100
    (demo_os_ok false true) demo_arena_ok ltac:(lia)))).
Defined.

(** C24. Any sequence of allocations from one arena, each of at most
    2^64 - 64 - (the arena's size) bytes, hands out pairwise disjoint, cache-line
    aligned blocks, all inside the arena's mapping.  (Every arena is at most 2^63
    bytes, so requests of up to 2^63 - 64 bytes are always covered; a larger
    request can wrap the watermark around, see [arena_alloc_rewinds] and
    [arena_alloc_wraps].) *)
Theorem alloc_all_disjoint os a sizes bs a' :
  ArenaOS_ok os → arena_ok os a → Forall (λ s, 0 ≤ s ≤ 2 ^ 64 - 64 - arena_size a) sizes →
  alloc_all a sizes = (bs, a') →
  Forall (λ b, (64 | b.1) ∧ arena_base a ≤ b.1 ∧
               b.1 + b.2 ≤ arena_base a + arena_size a) bs ∧
  ∀ i j b1 b2, i ≠ j → bs !! i = Some b1 → bs !! j = Some b2 → disjoint_blocks b1 b2.
Proof.
  intros Hos Ha Hall Hrun.
  destruct (alloc_all_layout os sizes a bs a' Hos Ha Hall Hrun)
    as (Ha' & Eb & Es & Hu & Hin & Hord).
  pose proof (arena_used_bounds _ _ Ha'). pose proof (arena_used_bounds _ _ Ha). split.
  - eapply Forall_impl; [exact Hin|]. simpl. intros b (? & ? & ? & ?).
    split_and!; auto; lia.
  - intros i j b1 b2 Hij H1 H2. unfold disjoint_blocks.
    destruct (decide (i < j)%nat); [left|right];
      [by eapply (Hord i j)|by eapply (Hord j i); eauto; lia].
Qed.

Lemma alloc_all_disjoint_witness :
  (alloc_all demo_arena [100; 4000000; 64; 1]).1 =
    [(2 ^ 30 + 128, 100); (2 ^ 30 + 256, 64); (2 ^ 30 + 320, 1)] ∧
  disjoint_blocks (2 ^ 30 + 128, 100) (2 ^ 30 + 320, 1).
Proof.
  split; [reflexivity|].
  refine (proj2 (alloc_all_disjoint (demo_os false true) demo_arena
    [100; 4000000; 64; 1] _ _ (demo_os_ok false true) demo_arena_ok _ eq_refl)
    0%nat 2%nat _ _ _ _ _); [|done|reflexivity|reflexivity].
  repeat (apply Forall_cons; split; [cbn; lia|]). constructor.
Defined.

(** Creation: whenever an arena is returned, for whatever 64-bit size was
    asked, the rounding did not wrap, the arena is well-formed, empty, and at
    least as large as the request (by less than one hugepage more). *)
Theorem arena_create_sound os node size a calls :
  ArenaOS_ok os → is_u64 size →
  nkit_arena_create os node size = (Some a, calls) →
  arena_ok os a ∧ arena_used a = 0 ∧ arena_node_id a = node ∧
  0 < size ≤ arena_size a ∧ arena_size a < size + HUGE_PAGE_SIZE ∧
  (os_mmap os (arena_size a) true = MAP_FAILED ∨ arena_use_huge a = 1).
Proof.
  intros Hos Hsz Hc.
  destruct (arena_create_inv os node size a calls Hos Hsz Hc)
    as (? & ? & ? & ? & ? & ?). split_and!; auto; try lia.
  unfold nkit_arena_create in Hc. destruct (size =? 0); [done|].
  destruct (negb _); [done|].
  destruct (Z.eqb_spec (os_mmap os (align_up size HUGE_PAGE_SIZE) true) MAP_FAILED);
    [destruct (_ =? MAP_FAILED); [done|left]|right]; injection Hc as <- _; [exact e|done].
Qed.

Lemma arena_create_sound_witness :
  arena_ok (demo_os false true) (mk_arena (2 ^ 30) (2 ^ 21) 0 3 0).
Proof.
  refine (proj1 (arena_create_sound (demo_os false true) 3 1000 _ _
    (demo_os_ok false true) _ eq_refl)).
  unfold is_u64. lia.
Defined.

(** C36. Coalescing never discards live bytes: the range given to
    [madvise(MADV_DONTNEED)] starts at or above the watermark, ends exactly at
    the end of the arena, and is aligned to the arena's page size. *)
Theorem coalesce_spares_live os a n addr len :
  ArenaOS_ok os → arena_ok os a →
  nkit_arena_coalesce os (Some a) = (n, [MadviseDontneed addr len]) →
  arena_base a + arena_used a ≤ addr ∧
  addr + len = arena_base a + arena_size a ∧ 0 < len ∧
  ∃ page, page = (if arena_use_huge a =? 0 then os_pagesize os else HUGE_PAGE_SIZE) ∧
          (page | addr) ∧ (page | len).
Proof.
  intros Hos Ha Hc. destruct (coalesce_range os a n addr len Hos Ha Hc) as (? & ? & ? & ?).
  by split_and!.
Qed.

Lemma coalesce_spares_live_witness :
  nkit_arena_coalesce (demo_os false true) (Some demo_arena)
    = (511, [MadviseDontneed (2 ^ 30 + 4096) (511 * 4096)]) ∧
  2 ^ 30 + 128 ≤ 2 ^ 30 + 4096.
Proof.
  split; [reflexivity|].
  exact (proj1 (coalesce_spares_live (demo_os false true) demo_arena 511 _ _
    (demo_os_ok false true) demo_arena_ok eq_refl)).
Defined.

(** The missing overflow check: a request within 63 bytes of 2^64 rounds to
    zero, so [nkit_arena_alloc] reports success without reserving a byte, and
    the next allocation is given the very same address. *)
Theorem arena_alloc_wraps os a size :
  arena_ok os a → 2 ^ 64 - 63 ≤ size < 2 ^ 64 →
  ∃ p, nkit_arena_alloc (Some a) size = (Some p, Some a) ∧
       p = arena_base a + arena_used a.
Proof.
  intros [] Hsz. exists (arena_base a + arena_used a). split; [|done].
  assert (E : cache_aligned size = 0).
  { rewrite cache_aligned_align_up. apply (align_up_wrap size 6); lia. }
  unfold nkit_arena_alloc. rewrite E, Z.add_0_r, !u64_small by (unfold is_u64; lia).
  rewrite (proj2 (Z.ltb_ge _ _)) by lia. by destruct a.
Qed.

Lemma arena_alloc_wraps_witness :
  ∃ p, nkit_arena_alloc (Some demo_arena) (2 ^ 64 - 1) = (Some p, Some demo_arena) ∧
       p = 2 ^ 30 + 128.
Proof.
  apply (arena_alloc_wraps (demo_os false true) demo_arena (2 ^ 64 - 1) demo_arena_ok).
  lia.
Defined.

(** The same missing check with a used arena: a request of 2^64 minus the bytes
    in use is granted and moves the watermark back to the start of the arena, so
    that the next block overlaps the first one. *)
Theorem arena_alloc_rewinds os a size :
  ArenaOS_ok os → arena_ok os a → 0 < arena_used a → size = 2 ^ 64 - arena_used a →
  ∃ a', nkit_arena_alloc (Some a) size = (Some (arena_base a + arena_used a), Some a') ∧
    arena_used a' = 0 ∧ (nkit_arena_alloc (Some a') 64).1 = Some (arena_base a).
Proof.
  intros Hos Ha Hpos Esz. pose proof Ha as [].
  assert (H64 : 64 ≤ arena_used a) by (apply Z.divide_pos_le; auto).
  assert (E : cache_aligned size = size).
  { destruct (cache_aligned_bounds size) as [Hb Hd]; [lia|].
    assert (Hs : (64 | size)) by (subst size; apply Z.divide_sub_r; [by exists (2 ^ 58)|done]).
    destruct Hd as [p Hp], Hs as [q Hq]. lia. }
  assert (Ew : u64 (arena_used a + size) = 0)
    by (replace (arena_used a + size) with (2 ^ 64) by lia; reflexivity).
  unfold nkit_arena_alloc at 1. rewrite E, Ew, (proj2 (Z.ltb_ge _ _)) by lia.
  rewrite u64_small by (unfold is_u64; lia). eexists. split; [done|]. split; [done|].
  assert (Hhuge : HUGE_PAGE_SIZE ≤ arena_size a) by (apply Z.divide_pos_le; auto).
  assert (E2 : cache_aligned 64 = 64) by reflexivity.
  cbn [nkit_arena_alloc arena_size arena_used arena_base]. rewrite E2.
  rewrite (u64_small (0 + 64)) by (unfold is_u64; lia).
  rewrite (proj2 (Z.ltb_ge _ _)) by (unfold HUGE_PAGE_SIZE in *; lia).
  cbn [fst]. f_equal. rewrite Z.add_0_r. apply u64_small. unfold is_u64. lia.
Qed.

Lemma arena_alloc_rewinds_witness :
  ∃ a', nkit_arena_alloc (Some demo_arena) (2 ^ 64 - 128) = (Some (2 ^ 30 + 128), Some a') ∧
    arena_used a' = 0 ∧ (nkit_arena_alloc (Some a') 64).1 = Some (2 ^ 30).
Proof.
  by apply (arena_alloc_rewinds (demo_os false true) demo_arena (2 ^ 64 - 128)
    (demo_os_ok false true) demo_arena_ok).
Defined.

(** Binding is best effort: when the strict [mbind] fails the arena is
    still returned, after one more call with the soft policy whose result is
    never looked at. *)
Theorem arena_create_soft_fallback os node size a calls :
  nkit_arena_create os node size = (Some a, calls) →
  let mask := node_mask os node in
  calls = Mbind (arena_base a) (arena_size a) MPOL_BIND mask ::
    (if os_mbind os (arena_base a) (arena_size a) MPOL_BIND mask <? 0
     then [Mbind (arena_base a) (arena_size a) MPOL_PREFERRED mask] else []).
Proof.
  intros Hc. unfold nkit_arena_create in Hc. destruct (size =? 0); [done|].
  destruct (negb _); [done|].
  destruct (_ =? MAP_FAILED); [destruct (_ =? MAP_FAILED); [done|]|];
    simplify_eq; simpl; by destruct (_ <? 0).
Qed.

Lemma arena_create_soft_fallback_witness :
  (nkit_arena_create (demo_os true false) 1 64).2 =
    [Mbind (2 ^ 30) (2 ^ 21) MPOL_BIND 2; Mbind (2 ^ 30) (2 ^ 21) MPOL_PREFERRED 2].
Proof.
  exact (arena_create_soft_fallback (demo_os true false) 1 64
    (mk_arena (2 ^ 30) (2 ^ 21) 0 1 1) _ eq_refl).
Defined.
