(* ===== verification/Ring.v ===== *)
(** * The lock-free ring buffer, one thread at a time
    (src/structs/ring_buffer.c, include/numakit/structs/ring_buffer.h)

    Creation, push and pop as sequential code, with the 64-bit counters and
    their wrap-around, the signed sequence comparison and the spurious failures
    of the weak compare-and-swap.  The interleavings of several producers and
    consumers are in [RingConc]. *)

From stdpp Require Import prelude.
From Stdlib Require Import ZArith Lia.
From S2P Require Import Prelude Words Arena.
Local Open Scope Z_scope.
Local Open Scope word_scope.

(** ** Data *)

Record nkit_cell_t := mk_cell {
  cell_sequence : Z;
  cell_data : Z;
}.

Record nkit_ring_t := mk_ring {
  ring_head : Z;
  ring_tail : Z;
  ring_capacity : Z;
  ring_mask : Z;
  ring_cells : list nkit_cell_t;
  ring_arena : option nkit_arena_t;
}.

Definition sizeof_nkit_ring_t : Z := 384.
Definition sizeof_nkit_cell_t : Z := 16.

(** ** Operations *)

(** The loop [for i < capacity: atomic_init(&cells[i].sequence, i)] over fresh
    zero-filled memory. *)
Definition init_cells (capacity : Z) : list nkit_cell_t :=
  map (λ i, mk_cell (Z.of_nat i) 0) (seq 0 (Z.to_nat capacity)).

(** [UB] when the cell array initialised in step 5 does not fit the block. *)
Definition nkit_ring_create (os : arena_os) (node_id capacity : Z)
    : outcome (option nkit_ring_t) :=
  if negb (valid_pow2_capacity capacity) then Ret None else
  let struct_sz := sizeof_nkit_ring_t in
  let cells_sz := sizeof_nkit_cell_t *w capacity in
  let total_sz := struct_sz +w cells_sz in
  match nkit_arena_create os node_id total_sz with
  | (None, _) => Ret None
  | (Some arena, _) =>
      match nkit_arena_alloc (Some arena) total_sz with
      | (Some block, arena') =>
          let cells := block +w struct_sz in
          if cells + sizeof_nkit_cell_t * capacity <=? arena_base arena + arena_size arena
          then Ret (Some (mk_ring 0 0 capacity (capacity -w 1) (init_cells capacity) arena'))
          else UB
      | (None, _) => Ret None
      end
  end.

Definition nkit_ring_free (ring : option nkit_ring_t) : list os_call :=
  match ring with
  | Some r => nkit_arena_destroy (ring_arena r)
  | None => []
  end.

(** [atomic_compare_exchange_weak] succeeds on an equal value unless it fails
    spuriously; [spurious] is how many times in a row it will.  The result is
    [None] when the fuel runs out or a cell outside the array is addressed. *)
Fixpoint ring_push_loop (fuel spurious : nat) (ring : nkit_ring_t) (head item : Z)
    : option (bool * nkit_ring_t) :=
  match fuel with
  | O => None
  | S fuel =>
      let idx := Z.to_nat (Z.land head (ring_mask ring)) in
      match ring_cells ring !! idx with
      | None => None
      | Some cell =>
          let seq := cell_sequence cell in
          let diff := s64 (s64 seq - s64 head) in
          if diff =? 0 then
            if negb (ring_head ring =? head) then
              ring_push_loop fuel spurious ring (ring_head ring) item
            else match spurious with
            | S spurious => ring_push_loop fuel spurious ring (ring_head ring) item
            | O =>
                Some (true,
                  mk_ring (head +w 1) (ring_tail ring) (ring_capacity ring) (ring_mask ring)
                    (<[idx := mk_cell (head +w 1) item]> (ring_cells ring))
                    (ring_arena ring))
            end
          else if diff <? 0 then Some (false, ring)
          else ring_push_loop fuel spurious ring (ring_head ring) item
      end
  end.

Definition nkit_ring_push (fuel spurious : nat) (ring : nkit_ring_t) (item : Z)
    : option (bool * nkit_ring_t) :=
  ring_push_loop fuel spurious ring (ring_head ring) item.

(** On success the popped item; [None] inside is the [false] return. *)
Fixpoint ring_pop_loop (fuel spurious : nat) (ring : nkit_ring_t) (tail : Z)
    : option (option Z * nkit_ring_t) :=
  match fuel with
  | O => None
  | S fuel =>
      let idx := Z.to_nat (Z.land tail (ring_mask ring)) in
      match ring_cells ring !! idx with
      | None => None
      | Some cell =>
          let seq := cell_sequence cell in
          let diff := s64 (s64 seq - s64 (tail +w 1)) in
          if diff =? 0 then
            if negb (ring_tail ring =? tail) then
              ring_pop_loop fuel spurious ring (ring_tail ring)
            else match spurious with
            | S spurious => ring_pop_loop fuel spurious ring (ring_tail ring)
            | O =>
                Some (Some (cell_data cell),
                  mk_ring (ring_head ring) (tail +w 1) (ring_capacity ring) (ring_mask ring)
                    (<[idx := mk_cell (tail +w ring_mask ring +w 1) (cell_data cell)]>
                       (ring_cells ring))
                    (ring_arena ring))
            end
          else if diff <? 0 then Some (None, ring)
          else ring_pop_loop fuel spurious ring (ring_tail ring)
      end
  end.

Definition nkit_ring_pop (fuel spurious : nat) (ring : nkit_ring_t)
    : option (option Z * nkit_ring_t) :=
  ring_pop_loop fuel spurious ring (ring_tail ring).

(** ** Specification: a bounded FIFO queue *)

Inductive queue_op := QPush (x : Z) | QPop.
Inductive queue_res := RPush (ok : bool) | RPop (x : option Z).

Definition queue_step (cap : Z) (q : list Z) (o : queue_op) : queue_res * list Z :=
  match o with
  | QPush x => if Z.of_nat (length q) <? cap then (RPush true, q ++ [x]) else (RPush false, q)
  | QPop => match q with x :: q' => (RPop (Some x), q') | [] => (RPop None, []) end
  end.

Fixpoint queue_exec (cap : Z) (q : list Z) (ops : list queue_op) : list queue_res * list Z :=
  match ops with
  | [] => ([], q)
  | o :: ops =>
      let '(r, q1) := queue_step cap q o in
      let '(rs, q2) := queue_exec cap q1 ops in (r :: rs, q2)
  end.

(** What a queue implementation promises to the components built on it: the
    slab's free-list, the task pool's free queue, the mailboxes. *)
Class BoundedQueue (Q : Type) := {
  bq_push : Q → Z → option (bool * Q);
  bq_pop : Q → option (option Z * Q);
  bq_cap : Q → Z;
  bq_rep : Q → list Z → Prop;
  bq_room r q : bq_rep r q → Z.of_nat (length q) ≤ bq_cap r;
  bq_push_ok r q x : bq_rep r q → Z.of_nat (length q) < bq_cap r →
    ∃ r', bq_push r x = Some (true, r') ∧ bq_rep r' (q ++ [x]) ∧ bq_cap r' = bq_cap r;
  bq_push_full r q x : bq_rep r q → Z.of_nat (length q) = bq_cap r →
    bq_push r x = Some (false, r);
  bq_pop_ok r x q : bq_rep r (x :: q) →
    ∃ r', bq_pop r = Some (Some x, r') ∧ bq_rep r' q ∧ bq_cap r' = bq_cap r;
  bq_pop_empty r : bq_rep r [] → bq_pop r = Some (None, r);
}.

Section clients.
Context {Q : Type} {BQ : BoundedQueue Q}.

Definition bq_step (r : Q) (o : queue_op) : option (queue_res * Q) :=
  match o with
  | QPush x => match bq_push r x with Some (b, r') => Some (RPush b, r') | None => None end
  | QPop => match bq_pop r with Some (x, r') => Some (RPop x, r') | None => None end
  end.

Fixpoint bq_exec (r : Q) (ops : list queue_op) : option (list queue_res * Q) :=
  match ops with
  | [] => Some ([], r)
  | o :: ops =>
      match bq_step r o with
      | None => None
      | Some (res, r1) =>
          match bq_exec r1 ops with
          | None => None
          | Some (rs, r2) => Some (res :: rs, r2)
          end
      end
  end.

Lemma bq_step_spec r q o :
  bq_rep r q → ∃ r', bq_step r o = Some ((queue_step (bq_cap r) q o).1, r') ∧
    bq_rep r' (queue_step (bq_cap r) q o).2 ∧ bq_cap r' = bq_cap r.
Proof.
  intros Hr. destruct o as [x|]; simpl.
  - destruct (Z.ltb_spec (Z.of_nat (length q)) (bq_cap r)).
    + destruct (bq_push_ok r q x) as (r' & -> & ? & ?); eauto.
    + pose proof (bq_room r q Hr). rewrite (bq_push_full r q x) by (auto; lia). eauto.
  - destruct q as [|x q].
    + rewrite bq_pop_empty by done. eauto.
    + destruct (bq_pop_ok r x q) as (r' & -> & ? & ?); eauto.
Qed.

(** Every run of a queue implementation is the run of the specification. *)
Lemma bq_exec_spec ops : ∀ r q,
  bq_rep r q → ∃ r', bq_exec r ops = Some ((queue_exec (bq_cap r) q ops).1, r') ∧
    bq_rep r' (queue_exec (bq_cap r) q ops).2 ∧ bq_cap r' = bq_cap r.
Proof.
  induction ops as [|o ops IH]; intros r q Hr; [by exists r|].
  destruct (bq_step_spec r q o Hr) as (r1 & E1 & Hr1 & Hc1).
  destruct (IH r1 _ Hr1) as (r2 & E2 & Hr2 & Hc2).
  exists r2. cbn [bq_exec queue_exec].
  rewrite E1, E2. rewrite Hc1 in *.
  destruct (queue_step (bq_cap r) q o) as [res q1]. simpl in *.
  destruct (queue_exec (bq_cap r) q1 ops) as [rs q2]. simpl in *. split_and!; congruence.
Qed.
End clients.

(** ** Representation

    [T] is the number of pops since creation, unbounded; the stored counters are
    its residues.  The slot of position [p] is [p mod capacity]: a pending item
    at position [T + i] has sequence [T + i + 1], a free slot for position
    [T + i] has sequence [T + i]. *)
Definition cell_for (T : Z) (q : list Z) (i : Z) (c : nkit_cell_t) : Prop :=
  match q !! Z.to_nat i with
  | Some x => cell_sequence c = u64 (T + i + 1) ∧ cell_data c = x
  | None => cell_sequence c = u64 (T + i)
  end.

Record ring_at (T : Z) (r : nkit_ring_t) (q : list Z) : Prop := {
  ring_at_pow2 : ∃ k, 1 ≤ k < 64 ∧ ring_capacity r = 2 ^ k;
  ring_at_mask : ring_mask r = ring_capacity r - 1;
  ring_at_len : Z.of_nat (length (ring_cells r)) = ring_capacity r;
  ring_at_room : Z.of_nat (length q) ≤ ring_capacity r;
  ring_at_tail : ring_tail r = u64 T;
  ring_at_head : ring_head r = u64 (T + Z.of_nat (length q));
  ring_at_cells i : 0 ≤ i < ring_capacity r →
    ∃ c, ring_cells r !! Z.to_nat ((T + i) mod ring_capacity r) = Some c ∧ cell_for T q i c;
}.

Definition ring_rep (r : nkit_ring_t) (q : list Z) : Prop := ∃ T, ring_at T r q.

(** ** Helper lemmas *)

Lemma capacity_bounds r :
  (∃ k, 1 ≤ k < 64 ∧ ring_capacity r = 2 ^ k) → 2 ≤ ring_capacity r ≤ 2 ^ 63.
Proof.
  intros (k & Hk & ->). split.
  - apply (Z.pow_le_mono_r 2 1 k); lia.
  - apply Z.pow_le_mono_r; lia.
Qed.

(** A masked counter is the slot of its position. *)
Lemma masked_index r p :
  (∃ k, 1 ≤ k < 64 ∧ ring_capacity r = 2 ^ k) → ring_mask r = ring_capacity r - 1 →
  Z.land (u64 p) (ring_mask r) = p mod ring_capacity r.
Proof.
  intros (k & Hk & E) ->. rewrite E, land_mask, u64_mod_pow2 by lia. done.
Qed.

(** After pushing, every slot is as the longer queue requires. *)
Lemma cells_after_push T r q x i :
  ring_at T r q → Z.of_nat (length q) < ring_capacity r → 0 ≤ i < ring_capacity r →
  ∃ c, <[Z.to_nat ((T + Z.of_nat (length q)) mod ring_capacity r)
           := mk_cell (u64 (T + Z.of_nat (length q) + 1)) x]> (ring_cells r)
         !! Z.to_nat ((T + i) mod ring_capacity r) = Some c ∧ cell_for T (q ++ [x]) i c.
Proof.
  intros Hr Hlt Hi. pose proof (ring_at_len _ _ _ Hr).
  destruct (ring_at_cells _ _ _ Hr i Hi) as (c & Hc & Hf).
  destruct (Z.eq_dec i (Z.of_nat (length q))) as [->|Hne].
  - rewrite list_lookup_insert_eq by (by eapply lookup_lt_Some).
    eexists; split; [done|]. unfold cell_for.
    by rewrite Nat2Z.id, lookup_app_r, Nat.sub_diag by lia.
  - rewrite list_lookup_insert_ne.
    2:{ intros E. apply slot_inj in E; lia. }
    exists c. split; [done|]. unfold cell_for in *.
    destruct (Z.lt_ge_cases i (Z.of_nat (length q))).
    + by rewrite lookup_app_l by lia.
    + rewrite lookup_ge_None_2 in Hf by lia.
      by rewrite lookup_ge_None_2 by (rewrite length_app; simpl; lia).
Qed.

Lemma cells_after_pop T r x q i :
  ring_at T r (x :: q) → 0 ≤ i < ring_capacity r →
  ∃ c, <[Z.to_nat (T mod ring_capacity r) := mk_cell (u64 (T + ring_capacity r)) x]>
         (ring_cells r) !! Z.to_nat ((T + 1 + i) mod ring_capacity r) = Some c ∧
       cell_for (T + 1) q i c.
Proof.
  intros Hr Hi. pose proof (capacity_bounds r (ring_at_pow2 _ _ _ Hr)) as Hcap.
  pose proof (ring_at_room _ _ _ Hr) as Hroom. simpl in Hroom.
  destruct (Z.eq_dec i (ring_capacity r - 1)) as [->|Hne].
  - replace (T + 1 + (ring_capacity r - 1)) with (T + 1 * ring_capacity r) by lia.
    rewrite Z.mod_add by lia.
    destruct (ring_at_cells _ _ _ Hr 0) as (c & Hc & _); [lia|].
    rewrite Z.add_0_r in Hc.
    rewrite list_lookup_insert_eq by (by eapply lookup_lt_Some).
    eexists; split; [done|]. unfold cell_for.
    rewrite lookup_ge_None_2 by lia. simpl. f_equal; lia.
  - destruct (ring_at_cells _ _ _ Hr (i + 1)) as (c & Hc & Hf); [lia|].
    replace (T + 1 + i) with (T + (i + 1)) by lia.
    replace (T mod ring_capacity r) with ((T + 0) mod ring_capacity r) by (f_equal; lia).
    rewrite list_lookup_insert_ne.
    2:{ intros E. apply slot_inj in E; lia. }
    exists c. split; [done|]. unfold cell_for in *.
    replace (Z.to_nat (i + 1)) with (S (Z.to_nat i)) in Hf by lia. simpl in Hf.
    destruct (q !! Z.to_nat i).
    + by replace (T + 1 + i + 1) with (T + (i + 1) + 1) by lia.
    + by replace (T + 1 + i) with (T + (i + 1)) by lia.
Qed.

(** The cell a push looks at, and the sign of its sequence difference. *)
Lemma push_cell T r q :
  ring_at T r q →
  ∃ c, ring_cells r !! Z.to_nat (Z.land (ring_head r) (ring_mask r)) = Some c ∧
    s64 (s64 (cell_sequence c) - s64 (ring_head r)) =
      (if Z.of_nat (length q) <? ring_capacity r then 0 else 1 - ring_capacity r).
Proof.
  intros Hr. pose proof (capacity_bounds r (ring_at_pow2 _ _ _ Hr)) as Hcap.
  pose proof (ring_at_room _ _ _ Hr) as Hroom.
  rewrite (ring_at_head _ _ _ Hr), masked_index by apply Hr.
  destruct (Z.ltb_spec (Z.of_nat (length q)) (ring_capacity r)) as [Hlt|Hge].
  - destruct (ring_at_cells _ _ _ Hr (Z.of_nat (length q))) as (c & Hc & Hf); [lia|].
    exists c. split; [done|]. unfold cell_for in Hf.
    rewrite Nat2Z.id, lookup_ge_None_2 in Hf by lia. rewrite Hf.
    rewrite s64_counter_diff by lia. lia.
  - assert (E : Z.of_nat (length q) = ring_capacity r) by lia.
    destruct (ring_at_cells _ _ _ Hr 0) as (c & Hc & Hf); [lia|].
    rewrite E. rewrite Z.add_0_r in Hc.
    replace (T + ring_capacity r) with (T + 1 * ring_capacity r) by lia.
    rewrite Z.mod_add by lia. exists c. split; [done|].
    unfold cell_for in Hf. destruct q as [|x q]; simpl in *; [lia|].
    destruct Hf as [-> _]. rewrite s64_counter_diff by lia. lia.
Qed.

Lemma ring_push_loop_ok T r q x : ∀ spurious fuel,
  ring_at T r q → (spurious < fuel)%nat → Z.of_nat (length q) < ring_capacity r →
  ∃ r', ring_push_loop fuel spurious r (ring_head r) x = Some (true, r') ∧
    ring_at T r' (q ++ [x]) ∧ ring_capacity r' = ring_capacity r.
Proof.
  induction spurious as [|sp IH]; intros [|fuel] Hr Hf Hlt; try lia; simpl.
  all: destruct (push_cell T r q Hr) as (c & -> & ->).
  all: rewrite (proj2 (Z.ltb_lt _ _)) by done; simpl; rewrite Z.eqb_refl; simpl.
  2:{ apply (IH fuel); auto with lia. }
  eexists. split; [done|]. split; [|done].
  destruct Hr as [Hp Hm Hl Hro Ht Hh Hc] eqn:E; clear E. split; simpl; try done.
  - by rewrite length_insert.
  - rewrite length_app. simpl. lia.
  - rewrite length_app, Hh, u64_add_l. simpl. f_equal. lia.
  - rewrite Hh, masked_index, u64_add_l by done. intros i Hi.
    by apply cells_after_push.
Qed.

Lemma ring_push_full T r q x spurious fuel :
  ring_at T r q → (0 < fuel)%nat → Z.of_nat (length q) = ring_capacity r →
  ring_push_loop fuel spurious r (ring_head r) x = Some (false, r).
Proof.
  intros Hr Hf Hfull. destruct fuel as [|fuel]; [lia|]. simpl.
  pose proof (capacity_bounds r (ring_at_pow2 _ _ _ Hr)) as Hcap.
  destruct (push_cell T r q Hr) as (c & -> & ->).
  rewrite (proj2 (Z.ltb_ge _ _)) by lia.
  rewrite (proj2 (Z.eqb_neq _ _)) by lia. by rewrite (proj2 (Z.ltb_lt _ _)) by lia.
Qed.

(** The cell a pop looks at. *)
Lemma pop_cell T r q :
  ring_at T r q →
  ∃ c, ring_cells r !! Z.to_nat (Z.land (ring_tail r) (ring_mask r)) = Some c ∧
    s64 (s64 (cell_sequence c) - s64 (u64 (ring_tail r + 1))) =
      (match q with [] => -1 | _ => 0 end) ∧ ∀ x q', q = x :: q' → cell_data c = x.
Proof.
  intros Hr. pose proof (capacity_bounds r (ring_at_pow2 _ _ _ Hr)) as Hcap.
  rewrite (ring_at_tail _ _ _ Hr), masked_index by apply Hr.
  destruct (ring_at_cells _ _ _ Hr 0) as (c & Hc & Hf); [lia|].
  rewrite Z.add_0_r in Hc. exists c. split; [done|].
  unfold cell_for in Hf. rewrite u64_add_l.
  destruct q as [|x q]; simpl in Hf.
  - rewrite Hf, s64_counter_diff by lia. split; [lia|done].
  - destruct Hf as [-> <-]. rewrite s64_counter_diff by lia.
    split; [lia|]. by intros ? ? [= -> _].
Qed.

Lemma ring_pop_loop_ok T r x q : ∀ spurious fuel,
  ring_at T r (x :: q) → (spurious < fuel)%nat →
  ∃ r', ring_pop_loop fuel spurious r (ring_tail r) = Some (Some x, r') ∧
    ring_at (T + 1) r' q ∧ ring_capacity r' = ring_capacity r.
Proof.
  induction spurious as [|sp IH]; intros [|fuel] Hr Hf; try lia; simpl.
  all: destruct (pop_cell T r _ Hr) as (c & -> & -> & Hx); simpl; rewrite Z.eqb_refl; simpl.
  2:{ apply (IH fuel); auto with lia. }
  rewrite (Hx x q eq_refl). eexists. split; [done|]. split; [|done].
  destruct Hr as [Hp Hm Hl Hro Ht Hh Hc] eqn:E; clear E. simpl in *. split; simpl; try done.
  - by rewrite length_insert.
  - lia.
  - by rewrite Ht, u64_add_l.
  - rewrite Hh. f_equal. lia.
  - rewrite Ht, masked_index, u64_add_l, Hm by done. intros i Hi.
    replace (u64 T + (ring_capacity r - 1) + 1) with (u64 T + ring_capacity r) by lia.
    rewrite u64_add_l. by apply cells_after_pop.
Qed.

Lemma ring_pop_empty T r spurious fuel :
  ring_at T r [] → (0 < fuel)%nat →
  ring_pop_loop fuel spurious r (ring_tail r) = Some (None, r).
Proof.
  intros Hr Hf. destruct fuel as [|fuel]; [lia|]. simpl.
  by destruct (pop_cell T r [] Hr) as (c & -> & -> & _).
Qed.

(** The ring is a bounded queue, however often the weak CAS fails: [S n]
    iterations are enough for [n] spurious failures. *)
#[export] Program Instance ring_queue (n : nat) : BoundedQueue nkit_ring_t := {|
  bq_push r x := nkit_ring_push (S n) n r x;
  bq_pop r := nkit_ring_pop (S n) n r;
  bq_cap := ring_capacity;
  bq_rep := ring_rep;
|}.
Next Obligation. intros n r q [T Hr]. apply Hr. Qed.
Next Obligation.
  intros n r q x [T Hr] Hlt.
  destruct (ring_push_loop_ok T r q x n (S n)) as (r' & ? & ? & ?); auto with lia.
  exists r'. split_and!; auto. by exists T.
Qed.
Next Obligation.
  intros n r q x [T Hr] Hfull. eapply ring_push_full; eauto with lia.
Qed.
Next Obligation.
  intros n r x q [T Hr].
  destruct (ring_pop_loop_ok T r x q n (S n)) as (r' & ? & ? & ?); auto with lia.
  exists r'. split_and!; auto. by exists (T + 1).
Qed.
Next Obligation. intros n r [T Hr]. eapply ring_pop_empty; eauto with lia. Qed.

(** ** Creation *)

Lemma init_cells_length c : 0 ≤ c → Z.of_nat (length (init_cells c)) = c.
Proof. intros. unfold init_cells. rewrite length_map, length_seq. lia. Qed.

Lemma init_cells_lookup c i :
  0 ≤ i < c → init_cells c !! Z.to_nat i = Some (mk_cell i 0).
Proof.
  intros Hi. unfold init_cells. rewrite list_lookup_fmap.
  rewrite lookup_seq_lt by lia. simpl. do 2 f_equal. lia.
Qed.

Lemma fresh_ring_rep k arena :
  1 ≤ k < 64 → ring_at 0 (mk_ring 0 0 (2 ^ k) (2 ^ k - 1) (init_cells (2 ^ k)) arena) [].
Proof.
  intros Hk. assert (2 ^ k ≤ 2 ^ 63) by (apply Z.pow_le_mono_r; lia).
  split; simpl; auto; try lia.
  - by exists k.
  - by rewrite init_cells_length by lia.
  - intros i Hi. rewrite Z.mod_small, init_cells_lookup by lia.
    eexists. split; [done|]. unfold cell_for. simpl.
    rewrite u64_small; [done|unfold is_u64; lia].
Qed.

(** A fresh arena serves its own creation request from its base. *)
Lemma arena_serves_request os node size a calls :
  ArenaOS_ok os → 0 ≤ size ≤ 2 ^ 63 →
  nkit_arena_create os node size = (Some a, calls) →
  ∃ a', nkit_arena_alloc (Some a) size = (Some (arena_base a), Some a') ∧
    arena_ok os a' ∧ arena_base a' = arena_base a ∧ arena_size a' = arena_size a ∧
    size ≤ arena_used a' ∧ arena_base a + size ≤ arena_base a + arena_size a.
Proof.
  intros Hos Hsz Hc.
  destruct (arena_create_inv os node size a calls) as (_ & ? & Ha & Hb & Hu & _); auto; [lia|].
  destruct (cache_aligned_bounds size) as [Hcb Hcd]; [lia|].
  pose proof (divide_64_huge _ (arena_size_aligned _ _ Ha)) as [n Hn].
  destruct Hcd as [m Hm].
  assert (Hfit : cache_aligned size ≤ arena_size a) by nia.
  rewrite (arena_alloc_fits os) by (auto; lia). rewrite Hu, !Z.add_0_l, Z.add_0_r.
  eexists. split_and!; [done| |done|done|simpl; lia|lia].
  pose proof (arena_ok_bump os a (cache_aligned size) Ha) as Hbump.
  rewrite Hu, Z.add_0_l in Hbump. apply Hbump; [lia|by exists m|lia].
Qed.

Lemma ring_create_tail os node capacity r : nkit_ring_create os node capacity = Ret (Some r) → ring_tail r = 0.
Proof.
  unfold nkit_ring_create. destruct (negb _); [done|]. destruct (nkit_arena_create _ _ _) as [[a|] ?]; [|done].
  destruct (nkit_arena_alloc _ _) as [[b|] a1]; [|done]. destruct (_ <=? _); intros H; by simplify_eq/=.
Qed.

(** What [nkit_ring_create] returns, for capacities up to 2^58. *)
Lemma ring_create_spec os node capacity :
  ArenaOS_ok os → 0 ≤ capacity ≤ 2 ^ 58 →
  match nkit_ring_create os node capacity with
  | UB => False
  | Ret None => valid_pow2_capacity capacity = false ∨
      (nkit_arena_create os node (sizeof_nkit_ring_t + sizeof_nkit_cell_t * capacity)).1 = None
  | Ret (Some r) => valid_pow2_capacity capacity = true ∧
      ring_rep r [] ∧ ring_capacity r = capacity ∧
      ∃ a, ring_arena r = Some a ∧ arena_ok os a ∧
           sizeof_nkit_ring_t + sizeof_nkit_cell_t * capacity ≤ arena_used a
  end.
Proof.
  intros Hos Hcap. unfold nkit_ring_create, sizeof_nkit_ring_t, sizeof_nkit_cell_t.
  destruct (valid_pow2_capacity capacity) eqn:Hv; cbn [negb]; [|by left].
  apply valid_pow2_capacity_spec in Hv as (k & Hk & ->); [|unfold is_u64; lia].
  rewrite !(u64_small (16 * 2 ^ k)), (u64_small (384 + _)) by (unfold is_u64; lia).
  destruct (nkit_arena_create _ _ _) as [[a|] calls] eqn:Hc; [|by right].
  destruct (arena_serves_request os node (384 + 16 * 2 ^ k) a calls Hos ltac:(lia) Hc)
    as (a' & Ea & Ha' & Eb & Es & Hu & Hfit).
  rewrite Ea. pose proof (arena_region _ _ Ha'). pose proof (arena_base_pos _ _ Ha').
  rewrite (u64_small (arena_base a + 384)) by (unfold is_u64; lia).
  rewrite (proj2 (Z.leb_le _ _)) by lia.
  split_and!; [done| |done|by exists a'].
  rewrite u64_small by (unfold is_u64; lia). exists 0. by apply fresh_ring_rep.
Qed.

Definition demo_ring : nkit_ring_t :=
  mk_ring 0 0 2 1 (init_cells 2) None.

Lemma demo_ring_rep : ring_rep demo_ring [].
Proof. exists 0. apply (fresh_ring_rep 1). lia. Qed.

(** ** Properties *)

(** C14. FIFO refinement: from any ring that represents a queue, wherever its
    counters are (wrap-around included) and however often the weak CAS fails
    spuriously, every sequence of pushes and pops terminates and returns exactly
    what the bounded FIFO queue of the same capacity returns. *)
Theorem ring_refines_fifo n r q ops :
  ring_rep r q →
  ∃ r', bq_exec (BQ:=ring_queue n) r ops =
          Some ((queue_exec (ring_capacity r) q ops).1, r') ∧
    ring_rep r' (queue_exec (ring_capacity r) q ops).2 ∧
    ring_capacity r' = ring_capacity r.
Proof. apply (bq_exec_spec (BQ:=ring_queue n)). Qed.

Lemma ring_refines_fifo_witness :
  ∃ r', bq_exec (BQ:=ring_queue 1) demo_ring
          [QPop; QPush 7; QPush 8; QPush 9; QPop; QPush 9; QPop; QPop; QPop] =
          Some ([RPop None; RPush true; RPush true; RPush false; RPop (Some 7);
                 RPush true; RPop (Some 8); RPop (Some 9); RPop None], r') ∧
    ring_rep r' [] ∧ ring_capacity r' = 2.
Proof. exact (ring_refines_fifo 1 demo_ring [] _ demo_ring_rep). Defined.

(** Creation: for every capacity the validation accepts and whose cell
    array fits the address arithmetic (at most 2^58), creation stays in bounds,
    and the ring it returns is empty with the requested capacity; for a rejected
    capacity it returns NULL. *)
Theorem ring_create_sound os node capacity :
  ArenaOS_ok os → 0 ≤ capacity ≤ 2 ^ 58 →
  match nkit_ring_create os node capacity with
  | UB => False
  | Ret None => valid_pow2_capacity capacity = false ∨
      (nkit_arena_create os node (sizeof_nkit_ring_t + sizeof_nkit_cell_t * capacity)).1 = None
  | Ret (Some r) => valid_pow2_capacity capacity = true ∧
      ring_rep r [] ∧ ring_capacity r = capacity ∧
      ∃ a, ring_arena r = Some a ∧ arena_ok os a ∧
           sizeof_nkit_ring_t + sizeof_nkit_cell_t * capacity ≤ arena_used a
  end.
Proof. apply ring_create_spec. Qed.

Lemma ring_create_sound_witness :
  match nkit_ring_create (demo_os false true) 0 4 with
  | Ret (Some r) => ring_rep r [] ∧ ring_capacity r = 4
  | _ => False
  end.
Proof.
  pose proof (ring_create_sound (demo_os false true) 0 4 (demo_os_ok _ _) ltac:(lia)) as H.
  destruct (nkit_ring_create (demo_os false true) 0 4) as [[r|]|] eqn:E.
  - split; apply H.
  - vm_compute in E. discriminate E.
  - exact H.
Defined.

(** The unchecked size computation: for the capacities 2^60 to 2^63, which
    pass the power-of-two validation, [sizeof(nkit_cell_t) * capacity] wraps to
    zero, an arena for the header alone is created, and the initialisation loop
    runs outside the block. *)
Theorem ring_create_overflows os node k a calls :
  ArenaOS_ok os → 60 ≤ k ≤ 63 →
  nkit_arena_create os node sizeof_nkit_ring_t = (Some a, calls) →
  valid_pow2_capacity (2 ^ k) = true ∧ nkit_ring_create os node (2 ^ k) = UB.
Proof.
  intros Hos Hk Hc.
  assert (Hlo : 2 ^ 60 ≤ 2 ^ k) by (apply Z.pow_le_mono_r; lia).
  assert (Hhi : 2 ^ k ≤ 2 ^ 63) by (apply Z.pow_le_mono_r; lia).
  assert (Hv : valid_pow2_capacity (2 ^ k) = true).
  { apply valid_pow2_capacity_spec; [unfold is_u64; lia|]. by exists k; split; [lia|]. }
  split; [done|]. unfold nkit_ring_create. rewrite Hv. cbn [negb].
  assert (E0 : u64 (sizeof_nkit_cell_t * 2 ^ k) = 0).
  { unfold u64, sizeof_nkit_cell_t. replace (16 * 2 ^ k) with (2 ^ (k - 60) * 2 ^ 64).
    - apply Z.mod_mul. lia.
    - change 16 with (2 ^ 4). rewrite <-!Z.pow_add_r by lia. f_equal; lia. }
  rewrite E0, Z.add_0_r, (u64_small sizeof_nkit_ring_t), Hc by (unfold is_u64; done).
  destruct (arena_serves_request os node sizeof_nkit_ring_t a calls Hos ltac:(by split) Hc)
    as (a' & Ea & Ha' & Eb & Es & Hu & Hfit).
  rewrite Ea. pose proof (arena_region _ _ Ha'). pose proof (arena_base_pos _ _ Ha').
  destruct (arena_create_inv os node sizeof_nkit_ring_t a calls Hos ltac:(by split) Hc)
    as (_ & _ & _ & Hb & _).
  unfold HUGE_PAGE_SIZE, sizeof_nkit_ring_t, sizeof_nkit_cell_t in *.
  rewrite u64_small by (unfold is_u64; lia). by rewrite (proj2 (Z.leb_gt _ _)) by lia.
Qed.

Lemma ring_create_overflows_witness :
  valid_pow2_capacity (2 ^ 60) = true ∧ nkit_ring_create (demo_os false true) 0 (2 ^ 60) = UB.
Proof.
  exact (ring_create_overflows (demo_os false true) 0 60 _ _ (demo_os_ok _ _)
    ltac:(lia) eq_refl).
Defined.
