(* ===== verification/RingConc.v ===== *)
(** * The ring buffer under concurrency
    (include/numakit/structs/ring_buffer.h)

    Any number of producers and consumers run [nkit_ring_push] and
    [nkit_ring_pop] on one ring and interleave at every access to shared memory:
    the loads of [head], [tail] and of a cell's [sequence], the two
    compare-and-swaps (weak: they may fail spuriously), the plain accesses to
    [data] and the stores of [sequence].

    The counters are 64 bits wide.  A thread may sleep between loading a counter
    and its compare-and-swap, so the results are stated for executions of fewer
    than 2^62 steps, in which no counter comes around to an old value. *)

From stdpp Require Import prelude.
From Stdlib Require Import ZArith Lia.
From S2P Require Import Prelude Words Arena Ring.
Local Open Scope Z_scope.
Local Open Scope word_scope.

(** ** Steps *)

(** Where a thread is: the shared access it makes next, with its locals. *)
Inductive ring_pc :=
| RcIdle
| RcPushStart (item : Z)          (* head = ring->head *)
| RcPushSeq (head item : Z)       (* seq = cell->sequence *)
| RcPushCas (head item : Z)       (* CAS(&ring->head, &head, head + 1) *)
| RcPushWrite (head item : Z)     (* cell->data = item *)
| RcPushCommit (head : Z)         (* cell->sequence = head + 1 *)
| RcPopStart                      (* tail = ring->tail *)
| RcPopSeq (tail : Z)             (* seq = cell->sequence *)
| RcPopCas (tail : Z)             (* CAS(&ring->tail, &tail, tail + 1) *)
| RcPopRead (tail : Z)            (* *item = cell->data *)
| RcPopCommit (tail item : Z).    (* cell->sequence = tail + mask + 1 *)

Record ring_state := mk_rs {
  rs_ring : nkit_ring_t;
  rs_threads : list ring_pc;
}.

Inductive ring_label :=
| RcPush (t : nat) (item : Z)
| RcPop (t : nat)
| RcAdvance (t : nat) (spurious : bool).

(** What a history shows: a producer claims the next position for its item; a
    consumer returns with the item of a position; a call returns [false]. *)
Inductive ring_event :=
| Claim (item : Z)
| Taken (pos item : Z)
| Full (t : nat)
| Empty (t : nat).

Definition cell_index (r : nkit_ring_t) (pos : Z) : nat := Z.to_nat (Z.land pos (ring_mask r)).

Definition with_head (r : nkit_ring_t) (h : Z) : nkit_ring_t :=
  mk_ring h (ring_tail r) (ring_capacity r) (ring_mask r) (ring_cells r) (ring_arena r).
Definition with_tail (r : nkit_ring_t) (t : Z) : nkit_ring_t :=
  mk_ring (ring_head r) t (ring_capacity r) (ring_mask r) (ring_cells r) (ring_arena r).
Definition with_cell (r : nkit_ring_t) (i : nat) (c : nkit_cell_t) : nkit_ring_t :=
  mk_ring (ring_head r) (ring_tail r) (ring_capacity r) (ring_mask r)
          (<[i := c]> (ring_cells r)) (ring_arena r).

(** One access of [nkit_ring_push]: the ring, the thread's next position and
    the events; [None] when the thread is not in a push or addresses a cell
    outside the array. *)
Definition ring_push_step (r : nkit_ring_t) (t : nat) (pc : ring_pc) (spurious : bool)
    : option (nkit_ring_t * ring_pc * list ring_event) :=
  match pc with
  | RcPushStart item => Some (r, RcPushSeq (ring_head r) item, [])
  | RcPushSeq head item =>
      match ring_cells r !! cell_index r head with
      | None => None
      | Some cell =>
          let diff := s64 (s64 (cell_sequence cell) - s64 head) in
          if diff =? 0 then Some (r, RcPushCas head item, [])
          else if diff <? 0 then Some (r, RcIdle, [Full t])
          else Some (r, RcPushStart item, [])
      end
  | RcPushCas head item =>
      if (ring_head r =? head) && negb spurious
      then Some (with_head r (head +w 1), RcPushWrite head item, [Claim item])
      else Some (r, RcPushSeq (ring_head r) item, [])
  | RcPushWrite head item =>
      match ring_cells r !! cell_index r head with
      | None => None
      | Some cell =>
          Some (with_cell r (cell_index r head) (mk_cell (cell_sequence cell) item),
                RcPushCommit head, [])
      end
  | RcPushCommit head =>
      match ring_cells r !! cell_index r head with
      | None => None
      | Some cell =>
          Some (with_cell r (cell_index r head) (mk_cell (head +w 1) (cell_data cell)), RcIdle, [])
      end
  | _ => None
  end.

(** One access of [nkit_ring_pop]. *)
Definition ring_pop_step (r : nkit_ring_t) (t : nat) (pc : ring_pc) (spurious : bool)
    : option (nkit_ring_t * ring_pc * list ring_event) :=
  match pc with
  | RcPopStart => Some (r, RcPopSeq (ring_tail r), [])
  | RcPopSeq tail =>
      match ring_cells r !! cell_index r tail with
      | None => None
      | Some cell =>
          let diff := s64 (s64 (cell_sequence cell) - s64 (tail +w 1)) in
          if diff =? 0 then Some (r, RcPopCas tail, [])
          else if diff <? 0 then Some (r, RcIdle, [Empty t])
          else Some (r, RcPopStart, [])
      end
  | RcPopCas tail =>
      if (ring_tail r =? tail) && negb spurious
      then Some (with_tail r (tail +w 1), RcPopRead tail, [])
      else Some (r, RcPopSeq (ring_tail r), [])
  | RcPopRead tail =>
      match ring_cells r !! cell_index r tail with
      | None => None
      | Some cell => Some (r, RcPopCommit tail (cell_data cell), [])
      end
  | RcPopCommit tail item =>
      match ring_cells r !! cell_index r tail with
      | None => None
      | Some cell =>
          Some (with_cell r (cell_index r tail)
                  (mk_cell (tail +w ring_mask r +w 1) (cell_data cell)),
                RcIdle, [Taken tail item])
      end
  | _ => None
  end.

Definition ring_step (s : ring_state) (l : ring_label) : option (ring_state * list ring_event) :=
  match l with
  | RcPush t item =>
      match rs_threads s !! t with
      | Some RcIdle => Some (mk_rs (rs_ring s) (<[t := RcPushStart item]> (rs_threads s)), [])
      | _ => None
      end
  | RcPop t =>
      match rs_threads s !! t with
      | Some RcIdle => Some (mk_rs (rs_ring s) (<[t := RcPopStart]> (rs_threads s)), [])
      | _ => None
      end
  | RcAdvance t spurious =>
      match rs_threads s !! t with
      | None => None
      | Some pc =>
          let res := match ring_push_step (rs_ring s) t pc spurious with
                     | Some x => Some x
                     | None => ring_pop_step (rs_ring s) t pc spurious
                     end in
          match res with
          | Some (r, pc', es) => Some (mk_rs r (<[t := pc']> (rs_threads s)), es)
          | None => None
          end
      end
  end.

(** A ring as [nkit_ring_create] leaves it, and [n] threads outside any call. *)
Definition ring_start (k : Z) (arena : option nkit_arena_t) (n : nat) : ring_state :=
  mk_rs (mk_ring 0 0 (2 ^ k) (2 ^ k - 1) (init_cells (2 ^ k)) arena) (replicate n RcIdle).

Definition claims (es : list ring_event) : list Z :=
  omap (λ e, match e with Claim x => Some x | _ => None end) es.
Definition takes (es : list ring_event) : list (Z * Z) :=
  omap (λ e, match e with Taken p x => Some (p, x) | _ => None end) es.

(** ** The invariant *)

Definition push_claim (pc : ring_pc) : option Z :=
  match pc with RcPushWrite h _ | RcPushCommit h => Some h | _ => None end.
Definition pop_claim (pc : ring_pc) : option Z :=
  match pc with RcPopRead t | RcPopCommit t _ => Some t | _ => None end.

(** Some thread has claimed position [p], and no two threads the same one. *)
Definition claiming (f : ring_pc → option Z) (ths : list ring_pc) (p : Z) : Prop :=
  ∃ t pc, ths !! t = Some pc ∧ f pc = Some p.
Definition claimed_once (f : ring_pc → option Z) (ths : list ring_pc) : Prop :=
  ∀ t1 t2 pc1 pc2 p, ths !! t1 = Some pc1 → ths !! t2 = Some pc2 →
    f pc1 = Some p → f pc2 = Some p → t1 = t2.

Abbreviation pushing := (claiming push_claim).
Abbreviation popping := (claiming pop_claim).

(** [cap] is the capacity, [hd] and [tl] the counters, [ps] all items ever
    claimed, by position. *)
Section invariant.
Context (cap hd tl : Z) (ps : list Z) (ths : list ring_pc).

Definition item_at (p x : Z) : Prop := 0 ≤ p ∧ ps !! Z.to_nat p = Some x.

(** The five states of the cell whose latest claimed position is [p]. *)
Inductive cell_phase (p : Z) (c : nkit_cell_t) : Prop :=
| ph_fresh : p < 0 → cell_sequence c = p + cap → cell_phase p c
| ph_pushing : 0 ≤ p → tl ≤ p → cell_sequence c = p → pushing ths p → cell_phase p c
| ph_ready : tl ≤ p → cell_sequence c = p + 1 → item_at p (cell_data c) →
    ¬ pushing ths p → cell_phase p c
| ph_popping : p < tl → cell_sequence c = p + 1 → item_at p (cell_data c) →
    popping ths p → ¬ pushing ths p → cell_phase p c
| ph_free : 0 ≤ p → p < tl → cell_sequence c = p + cap →
    ¬ popping ths p → ¬ pushing ths p → cell_phase p c.

Definition released (p : Z) : Prop := p < 0 ∨ (p < tl ∧ ¬ popping ths p).

Definition thread_ok (cells : list nkit_cell_t) (pc : ring_pc) : Prop :=
  match pc with
  | RcIdle | RcPushStart _ | RcPopStart => True
  | RcPushSeq h _ => 0 ≤ h ≤ hd
  | RcPushCas h _ => 0 ≤ h ≤ hd ∧ (h = hd → released (h - cap))
  | RcPushWrite h x => hd - cap ≤ h < hd ∧ tl ≤ h ∧ item_at h x
  | RcPushCommit h => hd - cap ≤ h < hd ∧ tl ≤ h ∧
      ∃ c, cells !! Z.to_nat (h mod cap) = Some c ∧ item_at h (cell_data c)
  | RcPopSeq t => 0 ≤ t ≤ tl
  | RcPopCas t => 0 ≤ t ≤ tl ∧ (t = tl → t < hd ∧ ¬ pushing ths t)
  | RcPopRead t => hd - cap ≤ t < tl ∧ 0 ≤ t
  | RcPopCommit t x => hd - cap ≤ t < tl ∧ item_at t x
  end.
End invariant.

Record ring_inv (cap hd tl : Z) (ps : list Z) (s : ring_state) : Prop := {
  rv_cap : ∃ k, 1 ≤ k ≤ 61 ∧ cap = 2 ^ k;
  rv_mask : ring_mask (rs_ring s) = cap - 1;
  rv_len : Z.of_nat (length (ring_cells (rs_ring s))) = cap;
  rv_head : ring_head (rs_ring s) = hd;
  rv_tail : ring_tail (rs_ring s) = tl;
  rv_order : 0 ≤ tl ≤ hd ∧ hd ≤ tl + cap;
  rv_items : Z.of_nat (length ps) = hd;
  rv_cells : ∀ p, hd - cap ≤ p < hd →
    ∃ c, ring_cells (rs_ring s) !! Z.to_nat (p mod cap) = Some c ∧
         cell_phase cap tl ps (rs_threads s) p c;
  rv_threads : ∀ t pc, rs_threads s !! t = Some pc →
    thread_ok cap hd tl ps (rs_threads s) (ring_cells (rs_ring s)) pc;
  rv_push_once : claimed_once push_claim (rs_threads s);
  rv_pop_once : claimed_once pop_claim (rs_threads s);
}.

(** ** Claims under an update of one thread *)

Section claims_update.
Context (f : ring_pc → option Z) (ths : list ring_pc) (t : nat) (pc pc' : ring_pc).
Hypothesis Ht : ths !! t = Some pc.

Lemma claiming_insert p :
  claiming f (<[t := pc']> ths) p ↔
  f pc' = Some p ∨ ∃ t' pc0, t' ≠ t ∧ ths !! t' = Some pc0 ∧ f pc0 = Some p.
Proof.
  pose proof (lookup_lt_Some _ _ _ Ht) as Hlt. split.
  - intros (t' & pc0 & Hl & Hf). destruct (decide (t' = t)) as [->|Hne].
    + rewrite list_lookup_insert_eq in Hl by done. simplify_eq. by left.
    + rewrite list_lookup_insert_ne in Hl by done. right. eauto.
  - intros [Hf|(t' & pc0 & Hne & Hl & Hf)].
    + exists t, pc'. by rewrite list_lookup_insert_eq.
    + exists t', pc0. by rewrite list_lookup_insert_ne.
Qed.

Lemma claiming_keep p : f pc' = f pc → claiming f (<[t := pc']> ths) p ↔ claiming f ths p.
Proof.
  intros E. rewrite claiming_insert, E. split.
  - intros [Hf|(t' & pc0 & _ & Hl & Hf)]; unfold claiming; eauto.
  - intros (t' & pc0 & Hl & Hf). destruct (decide (t' = t)) as [->|Hne]; [left; congruence|].
    right. eauto.
Qed.

Lemma claiming_add p q :
  f pc = None → f pc' = Some q → claiming f (<[t := pc']> ths) p ↔ p = q ∨ claiming f ths p.
Proof.
  intros E E'. rewrite claiming_insert, E'. split.
  - intros [Hf|(t' & pc0 & _ & Hl & Hf)]; [left; congruence|right]. unfold claiming; eauto.
  - intros [->|(t' & pc0 & Hl & Hf)]; [by left|right]. exists t', pc0.
    split_and!; [|done|done]. intros ->. congruence.
Qed.

Lemma claiming_drop p q :
  claimed_once f ths → f pc = Some q → f pc' = None →
  claiming f (<[t := pc']> ths) p ↔ p ≠ q ∧ claiming f ths p.
Proof.
  intros Hu E E'. rewrite claiming_insert, E'. split.
  - intros [?|(t' & pc0 & Hne & Hl & Hf)]; [done|]. split; [|unfold claiming; eauto].
    intros ->. apply Hne. by apply (Hu t' t pc0 pc q).
  - intros [Hne (t' & pc0 & Hl & Hf)]. right. exists t', pc0. split_and!; [|done|done].
    intros ->. congruence.
Qed.

Lemma claimed_once_insert :
  claimed_once f ths → (∀ p, f pc' = Some p → f pc = Some p ∨ ¬ claiming f ths p) →
  claimed_once f (<[t := pc']> ths).
Proof.
  intros Hu Hnew t1 t2 pc1 pc2 p H1 H2 F1 F2. pose proof (lookup_lt_Some _ _ _ Ht) as Hlt.
  rewrite lookup_insert_decide in H1, H2 by done.
  do 2 case_decide; simplify_eq; [done| | |by eapply Hu].
  - exfalso. destruct (Hnew p F2) as [F|F]; [|apply F; by exists t1, pc1].
    by assert (t1 = t) by (by eapply Hu).
  - exfalso. destruct (Hnew p F1) as [F|F]; [|apply F; by exists t2, pc2].
    by assert (t = t2) by (by eapply Hu).
Qed.
End claims_update.

(** ** Cells and positions *)

Lemma item_at_app ps l p x : item_at ps p x → item_at (ps ++ l) p x.
Proof. intros [Hp Hl]. split; [done|]. by apply lookup_app_l_Some. Qed.

Lemma cell_phase_iff cap tl ps ps' ths ths' p c :
  (∀ x, item_at ps p x → item_at ps' p x) →
  (pushing ths' p ↔ pushing ths p) → (popping ths' p ↔ popping ths p) →
  cell_phase cap tl ps ths p c → cell_phase cap tl ps' ths' p c.
Proof.
  intros Hps Hpu Hpo [? ?|? ? ? ?|? ? ? ?|? ? ? ? ?|? ? ? ? ?].
  - by apply ph_fresh.
  - apply ph_pushing; tauto.
  - apply ph_ready; try tauto. auto.
  - apply ph_popping; try tauto. auto.
  - apply ph_free; tauto.
Qed.

(** Every position has a representative in the window. *)
Lemma window_rep cap hd p :
  0 < cap → ∃ q, hd - cap ≤ q < hd ∧ q mod cap = p mod cap.
Proof.
  intros Hc. exists (hd - cap + (p - (hd - cap)) mod cap).
  pose proof (Z.mod_pos_bound (p - (hd - cap)) cap Hc). split; [lia|].
  rewrite Zplus_mod_idemp_r. f_equal. lia.
Qed.

Section steps.
Context (cap hd tl : Z) (ps : list Z) (s : ring_state).
Hypothesis I : ring_inv cap hd tl ps s.
Abbreviation ths := (rs_threads s).
Abbreviation cells := (ring_cells (rs_ring s)).

Lemma cap_bounds : 2 ≤ cap ≤ 2 ^ 61.
Proof.
  destruct (rv_cap _ _ _ _ _ I) as (k & Hk & ->). split.
  - apply (Z.pow_le_mono_r 2 1 k); lia.
  - apply Z.pow_le_mono_r; lia.
Qed.

Lemma cell_index_mod p : cell_index (rs_ring s) p = Z.to_nat (p mod cap).
Proof.
  unfold cell_index. rewrite (rv_mask _ _ _ _ _ I).
  destruct (rv_cap _ _ _ _ _ I) as (k & Hk & ->). by rewrite land_mask by lia.
Qed.

Lemma cell_exists p : ∃ c, cells !! Z.to_nat (p mod cap) = Some c.
Proof.
  apply lookup_lt_is_Some_2. pose proof cap_bounds. pose proof (rv_len _ _ _ _ _ I).
  pose proof (Z.mod_pos_bound p cap). lia.
Qed.

(** The cell of a position, through its representative in the window. *)
Lemma cell_of p c :
  cells !! Z.to_nat (p mod cap) = Some c →
  ∃ q, hd - cap ≤ q < hd ∧ q mod cap = p mod cap ∧ cell_phase cap tl ps ths q c.
Proof.
  intros Hc. pose proof cap_bounds. destruct (window_rep cap hd p) as (q & Hq & E); [lia|].
  destruct (rv_cells _ _ _ _ _ I q Hq) as (c' & Hc' & Hph). rewrite E in Hc'.
  simplify_eq. eauto.
Qed.

Lemma thread_ok_keep t pc pc' pc0 :
  ths !! t = Some pc → push_claim pc' = push_claim pc → pop_claim pc' = pop_claim pc →
  thread_ok cap hd tl ps ths cells pc0 → thread_ok cap hd tl ps (<[t := pc']> ths) cells pc0.
Proof.
  intros Ht E1 E2. pose proof (claiming_keep push_claim ths t pc pc' Ht) as K1.
  pose proof (claiming_keep pop_claim ths t pc pc' Ht) as K2.
  destruct pc0; simpl; unfold released; try done.
  - by rewrite K2.
  - by rewrite K1.
Qed.

(** A thread moves on without touching the ring or its claims. *)
Lemma ring_local t pc pc' :
  ths !! t = Some pc → push_claim pc' = push_claim pc → pop_claim pc' = pop_claim pc →
  thread_ok cap hd tl ps ths cells pc' →
  ring_inv cap hd tl ps (mk_rs (rs_ring s) (<[t := pc']> ths)).
Proof.
  intros Ht E1 E2 Hok. split; simpl; try apply I.
  - intros p Hp. destruct (rv_cells _ _ _ _ _ I p Hp) as (c & Hc & Hph). exists c.
    split; [done|]. apply (cell_phase_iff cap tl ps _ ths); [done| | |exact Hph]; by apply (claiming_keep _ _ _ pc).
  - apply (forall_insert (λ _ pc, thread_ok _ _ _ _ _ _ pc)).
    + by apply (thread_ok_keep t pc).
    + intros t' pc0 _ H0. apply (thread_ok_keep t pc); auto. by apply (rv_threads _ _ _ _ _ I t').
  - eapply claimed_once_insert; [done|apply I|]. intros p. rewrite E1. by left.
  - eapply claimed_once_insert; [done|apply I|]. intros p. rewrite E2. by left.
Qed.

(** ** What a load of a cell's sequence tells *)

Lemma phase_seq_range p c :
  hd < 2 ^ 62 → hd - cap ≤ p < hd → cell_phase cap tl ps ths p c →
  0 ≤ cell_sequence c < 2 ^ 63.
Proof.
  intros Hb Hp. pose proof cap_bounds. pose proof (rv_order _ _ _ _ _ I).
  intros [? E|? ? E ?|? E [? _] ?|? E [? _] ? ?|? ? E ? ?]; lia.
Qed.

Lemma s64_diff a b : 0 ≤ a < 2 ^ 63 → 0 ≤ b < 2 ^ 63 → s64 (s64 a - s64 b) = a - b.
Proof. intros Ha Hb. rewrite (s64_small a), (s64_small b), s64_small by lia. done. Qed.

Lemma push_seq_ready h c :
  cells !! Z.to_nat (h mod cap) = Some c → cell_sequence c = h → h = hd →
  released tl ths (h - cap).
Proof.
  intros Hc Hs ->. pose proof cap_bounds as Hcap. pose proof (rv_order _ _ _ _ _ I).
  destruct (cell_of hd c Hc) as (q & Hq & Em & Hph).
  assert (q = hd - cap) as ->.
  { apply (window_slot cap hd); [lia|lia|lia|]. rewrite Em. f_equal.
    replace (hd - cap) with (hd + (-1) * cap) by lia. by rewrite Z_mod_plus_full. }
  unfold released. destruct Hph as [? E|? ? E ?|? E [? _] ?|? E [? _] ? ?|? ? E ? ?]; [left|..]; try lia.
  right. by split.
Qed.

Lemma pop_seq_ready t c :
  cells !! Z.to_nat (t mod cap) = Some c → cell_sequence c = t + 1 → t = tl →
  t < hd ∧ ¬ pushing ths t.
Proof.
  intros Hc Hs ->. pose proof cap_bounds as Hcap. pose proof (rv_order _ _ _ _ _ I).
  destruct (cell_of tl c Hc) as (q & Hq & Em & Hph).
  destruct (Z.lt_ge_cases tl hd) as [Hlt|Hge].
  - assert (q = tl) as -> by (apply (window_slot cap hd); [lia|lia|lia|by rewrite Em]).
    split; [done|]. destruct Hph as [? E|? ? E ?|? E [? _] ?|? E [? _] ? ?|? ? E ? ?]; try lia. done.
  - exfalso. assert (q = tl - cap) as ->.
    { apply (window_slot cap hd); [lia|lia|lia|]. rewrite Em. f_equal.
      replace (tl - cap) with (tl + (-1) * cap) by lia. by rewrite Z_mod_plus_full. }
    destruct Hph as [? E|? ? E ?|? E [? _] ?|? E [? _] ? ?|? ? E ? ?]; lia.
Qed.

(** Threads with a claim, and the phase of the claimed cell. *)
Lemma push_claim_window t pc h :
  ths !! t = Some pc → push_claim pc = Some h → hd - cap ≤ h < hd ∧ tl ≤ h.
Proof.
  intros Ht Hc. pose proof (rv_threads _ _ _ _ _ I t pc Ht) as Hok.
  destruct pc; simplify_eq/=; destruct Hok as (? & ? & _); done.
Qed.

Lemma pop_claim_window t pc h :
  ths !! t = Some pc → pop_claim pc = Some h → hd - cap ≤ h < tl ∧ 0 ≤ h.
Proof.
  intros Ht Hc. pose proof (rv_threads _ _ _ _ _ I t pc Ht) as Hok.
  destruct pc; simplify_eq/=; [done|]. by destruct Hok as (? & ? & _).
Qed.

Lemma slot_same h c' : <[Z.to_nat (h mod cap) := c']> cells !! Z.to_nat (h mod cap) = Some c'.
Proof. destruct (cell_exists h) as [c Hc]. apply list_lookup_insert_eq. by eapply lookup_lt_Some. Qed.

Lemma slot_other h p c' :
  hd - cap ≤ h < hd → hd - cap ≤ p < hd → p ≠ h →
  <[Z.to_nat (h mod cap) := c']> cells !! Z.to_nat (p mod cap) = cells !! Z.to_nat (p mod cap).
Proof.
  intros Hh Hp Hne. pose proof cap_bounds. apply list_lookup_insert_ne. intros E.
  apply Hne. symmetry. apply (window_slot cap hd); [lia|done|done|done].
Qed.

(** The other threads' view of a cell that is written by a claimant. *)
Lemma thread_ok_cells h c' pc0 t0 :
  hd - cap ≤ h < hd → ths !! t0 = Some pc0 → push_claim pc0 ≠ Some h →
  thread_ok cap hd tl ps ths cells pc0 →
  thread_ok cap hd tl ps ths (<[Z.to_nat (h mod cap) := c']> cells) pc0.
Proof.
  intros Hh Ht0 Hne. destruct pc0; simpl; try done. intros (Hw & Htl & c & Hc & Hi).
  split; [done|]. split; [done|]. exists c. split; [|done]. rewrite slot_other; auto. simpl in Hne. congruence.
Qed.

(** ** The steps that change the ring *)

Lemma push_cas_inv t item :
  hd + 1 < 2 ^ 62 → ths !! t = Some (RcPushCas hd item) →
  ring_inv cap (hd + 1) tl (ps ++ [item])
    (mk_rs (with_head (rs_ring s) (hd +w 1)) (<[t := RcPushWrite hd item]> ths)).
Proof.
  intros Hb Ht. pose proof cap_bounds as Hcap. pose proof (rv_order _ _ _ _ _ I) as Hord.
  destruct (rv_threads _ _ _ _ _ I t _ Ht) as [_ Hrel]. specialize (Hrel eq_refl).
  pose proof (claiming_keep pop_claim ths t _ (RcPushWrite hd item) Ht) as Kpop.
  pose proof (λ p, claiming_add push_claim ths t _ (RcPushWrite hd item) Ht p hd eq_refl eq_refl) as Kpush.
  assert (Hlow : hd - cap < tl) by (destruct Hrel; lia).
  assert (Hitem : item_at (ps ++ [item]) hd item).
  { split; [lia|]. pose proof (rv_items _ _ _ _ _ I).
    rewrite lookup_app_r by lia. by replace (Z.to_nat hd - length ps)%nat with 0%nat by lia. }
  split; simpl; try apply I.
  - apply u64_small. unfold is_u64. lia.
  - lia.
  - rewrite length_app. simpl. pose proof (rv_items _ _ _ _ _ I). lia.
  - intros p Hp. destruct (Z.eq_dec p hd) as [->|Hne].
    + destruct (rv_cells _ _ _ _ _ I (hd - cap)) as (c & Hc & Hph); [lia|].
      exists c. split.
      { rewrite <-Hc. do 2 f_equal. replace (hd - cap) with (hd + (-1) * cap) by lia.
        by rewrite Z_mod_plus_full. }
      apply ph_pushing; [lia|lia| |apply Kpush; by left].
      unfold released in Hrel.
      destruct Hph as [? E|? ? E ?|? E [? _] ?|? E [? _] ? ?|? ? E ? ?]; try lia.
      destruct Hrel as [?|[_ ?]]; [lia|done].
    + destruct (rv_cells _ _ _ _ _ I p) as (c & Hc & Hph); [lia|]. exists c. split; [done|].
      apply (cell_phase_iff cap tl ps _ ths); [intros x; apply item_at_app| | |exact Hph].
      * rewrite Kpush. tauto.
      * by apply Kpop.
  - apply (forall_insert (λ _ pc, thread_ok _ _ _ _ _ _ pc)).
    + simpl. split; [lia|]. by split; [lia|].
    + intros t' pc0 Hne0 H0. pose proof (rv_threads _ _ _ _ _ I t' pc0 H0) as Hok.
      destruct pc0 as [|x|h x|h x|h x|h| |u|u|u|u x]; simpl in *; try lia.
      * destruct Hok as (Hw & Htl & Hi). split; [lia|]. split; [lia|]. by apply item_at_app.
      * destruct Hok as (Hw & Htl & c & Hc & Hi). split; [lia|]. split; [lia|].
        exists c. split; [done|]. by apply item_at_app.
      * split; [lia|]. intros ->. destruct Hok as [_ Hok]. destruct (Hok eq_refl) as [? Hnp].
        split; [lia|]. rewrite Kpush. intros [?|?]; [lia|done].
      * assert (u ≠ hd - cap); [|lia]. intros ->. destruct Hrel as [?|[_ Hnp]]; [lia|].
        apply Hnp. by exists t', (RcPopRead (hd - cap)).
      * destruct Hok as [Hw Hi]. split; [|by apply item_at_app].
        assert (u ≠ hd - cap); [|lia]. intros ->. destruct Hrel as [?|[_ Hnp]]; [by destruct Hi; lia|].
        apply Hnp. by exists t', (RcPopCommit (hd - cap) x).
  - eapply claimed_once_insert; [done|apply I|]. intros p [= <-]. right.
    intros (t' & pc0 & H0 & Hc). pose proof (push_claim_window t' pc0 hd H0 Hc). lia.
  - eapply claimed_once_insert; [done|apply I|]. intros p. by left.
Qed.

Lemma push_write_inv t h item c :
  ths !! t = Some (RcPushWrite h item) → cells !! Z.to_nat (h mod cap) = Some c →
  ring_inv cap hd tl ps
    (mk_rs (with_cell (rs_ring s) (Z.to_nat (h mod cap)) (mk_cell (cell_sequence c) item))
           (<[t := RcPushCommit h]> ths)).
Proof.
  intros Ht Hc. destruct (rv_threads _ _ _ _ _ I t _ Ht) as (Hw & Htl & Hi).
  pose proof (claiming_keep push_claim ths t _ (RcPushCommit h) Ht) as Kpush.
  pose proof (claiming_keep pop_claim ths t _ (RcPushCommit h) Ht) as Kpop.
  assert (Hpush : pushing ths h) by (by exists t, (RcPushWrite h item)).
  split; simpl; try apply I.
  - rewrite length_insert. apply I.
  - intros p Hp. destruct (Z.eq_dec p h) as [->|Hne].
    + rewrite slot_same. eexists. split; [done|].
      destruct (rv_cells _ _ _ _ _ I h Hw) as (c' & Hc' & Hph). simplify_eq.
      destruct Hi as [? _]. destruct Hph; try lia; try done. apply ph_pushing; auto. by apply Kpush.
    + rewrite slot_other by done. destruct (rv_cells _ _ _ _ _ I p Hp) as (c' & Hc' & Hph).
      exists c'. split; [done|].
      apply (cell_phase_iff cap tl ps _ ths); [done|by apply Kpush|by apply Kpop|exact Hph].
  - apply (forall_insert (λ _ pc, thread_ok _ _ _ _ _ _ pc)).
    + simpl. split; [done|]. split; [done|]. eexists. by rewrite slot_same.
    + intros t' pc0 Hne0 H0. pose proof (rv_threads _ _ _ _ _ I t' pc0 H0) as Hok.
      apply (thread_ok_cells h (mk_cell (cell_sequence c) item) pc0 t') in Hok; auto.
      * destruct pc0; simpl in *; unfold released in *; rewrite ?Kpush, ?Kpop by done; done.
      * intros E. apply Hne0. by apply (rv_push_once _ _ _ _ _ I t' t pc0 _ h H0 Ht).
  - eapply claimed_once_insert; [done|apply I|]. intros p. by left.
  - eapply claimed_once_insert; [done|apply I|]. intros p. by left.
Qed.

Lemma push_commit_inv t h c :
  ths !! t = Some (RcPushCommit h) → cells !! Z.to_nat (h mod cap) = Some c →
  ring_inv cap hd tl ps
    (mk_rs (with_cell (rs_ring s) (Z.to_nat (h mod cap)) (mk_cell (h + 1) (cell_data c)))
           (<[t := RcIdle]> ths)).
Proof.
  intros Ht Hc. destruct (rv_threads _ _ _ _ _ I t _ Ht) as (Hw & Htl & c0 & Hc0 & Hi).
  rewrite Hc in Hc0. simplify_eq.
  pose proof (λ p, claiming_drop push_claim ths t _ RcIdle Ht p h (rv_push_once _ _ _ _ _ I)
    eq_refl eq_refl) as Kpush.
  pose proof (claiming_keep pop_claim ths t _ RcIdle Ht) as Kpop.
  split; simpl; try apply I.
  - rewrite length_insert. apply I.
  - intros p Hp. destruct (Z.eq_dec p h) as [->|Hne].
    + rewrite slot_same. eexists. split; [done|]. apply ph_ready; auto. rewrite Kpush. tauto.
    + rewrite slot_other by done. destruct (rv_cells _ _ _ _ _ I p Hp) as (c' & Hc' & Hph).
      exists c'. split; [done|].
      apply (cell_phase_iff cap tl ps _ ths); [done|rewrite Kpush; tauto|by apply Kpop|exact Hph].
  - apply (forall_insert (λ _ pc, thread_ok _ _ _ _ _ _ pc)); [done|].
    intros t' pc0 Hne0 H0. pose proof (rv_threads _ _ _ _ _ I t' pc0 H0) as Hok.
    apply (thread_ok_cells h (mk_cell (h + 1) (cell_data c0)) pc0 t') in Hok; auto.
    + destruct pc0; simpl in *; unfold released in *; rewrite ?Kpush, ?Kpop by done; try done.
      destruct Hok as [? Hok]. split; [done|]. intros E. specialize (Hok E). tauto.
    + intros E. apply Hne0. by apply (rv_push_once _ _ _ _ _ I t' t pc0 _ h H0 Ht).
  - eapply claimed_once_insert; [done|apply I|]. done.
  - eapply claimed_once_insert; [done|apply I|]. done.
Qed.

Lemma pop_cas_inv t :
  ths !! t = Some (RcPopCas tl) → tl + 1 < 2 ^ 62 →
  ring_inv cap hd (tl + 1) ps
    (mk_rs (with_tail (rs_ring s) (tl +w 1)) (<[t := RcPopRead tl]> ths)).
Proof.
  intros Ht Hb. pose proof cap_bounds as Hcap. pose proof (rv_order _ _ _ _ _ I) as Hord.
  destruct (rv_threads _ _ _ _ _ I t _ Ht) as [_ Hrd]. destruct (Hrd eq_refl) as [Hlt Hnp].
  pose proof (claiming_keep push_claim ths t _ (RcPopRead tl) Ht) as Kpush.
  pose proof (λ p, claiming_add pop_claim ths t _ (RcPopRead tl) Ht p tl eq_refl eq_refl) as Kpop.
  split; simpl; try apply I.
  - apply u64_small. unfold is_u64. lia.
  - lia.
  - intros p Hp. destruct (rv_cells _ _ _ _ _ I p Hp) as (c & Hc & Hph). exists c.
    split; [done|]. specialize (Kpush p eq_refl). specialize (Kpop p).
    destruct Hph as [? E|? ? E ?|? E ? ?|? E ? ? ?|? ? E ? ?].
    + by apply ph_fresh.
    + assert (p ≠ tl) by congruence. apply ph_pushing; try lia; tauto.
    + destruct (Z.eq_dec p tl) as [->|]; [apply ph_popping|apply ph_ready]; try lia; try tauto.
    + apply ph_popping; try lia; tauto.
    + apply ph_free; try lia; try tauto. rewrite Kpop. intros [?|?]; [lia|done].
  - apply (forall_insert (λ _ pc, thread_ok _ _ _ _ _ _ pc)); [simpl; lia|].
    intros t' pc0 Hne0 H0. pose proof (rv_threads _ _ _ _ _ I t' pc0 H0) as Hok.
    assert (Hown : push_claim pc0 ≠ Some tl) by (intros E; apply Hnp; by exists t', pc0).
    destruct pc0 as [|x|h x|h x|h x|h| |u|u|u|u x]; simpl in *; try lia.
    + destruct Hok as [? Hok]. split; [done|]. intros E. destruct (Hok E) as [?|[? ?]]; [by left|right].
      split; [lia|]. rewrite Kpop. intros [?|?]; [lia|done].
    + destruct Hok as (Hw & Htl & Hi). assert (h ≠ tl) by congruence.
      split; [done|]. split; [lia|done].
    + destruct Hok as (Hw & Htl & Hi). assert (h ≠ tl) by congruence.
      split; [done|]. split; [lia|done].
    + destruct Hok as [Hw Hi]. split; [lia|done].
  - eapply claimed_once_insert; [done|apply I|]. intros p. by left.
  - eapply claimed_once_insert; [done|apply I|]. intros p [= <-]. right.
    intros (t' & pc0 & H0 & Hc). pose proof (pop_claim_window t' pc0 tl H0 Hc). lia.
Qed.

Lemma pop_commit_inv t u x c :
  ths !! t = Some (RcPopCommit u x) → cells !! Z.to_nat (u mod cap) = Some c →
  ring_inv cap hd tl ps
    (mk_rs (with_cell (rs_ring s) (Z.to_nat (u mod cap)) (mk_cell (u + cap) (cell_data c)))
           (<[t := RcIdle]> ths)).
Proof.
  intros Ht Hc. destruct (rv_threads _ _ _ _ _ I t _ Ht) as [Hw Hi].
  pose proof (rv_order _ _ _ _ _ I) as Hord. pose proof (proj1 Hi) as Hu.
  pose proof (λ p, claiming_drop pop_claim ths t _ RcIdle Ht p u (rv_pop_once _ _ _ _ _ I)
    eq_refl eq_refl) as Kpop.
  pose proof (claiming_keep push_claim ths t _ RcIdle Ht) as Kpush.
  assert (Hpop : popping ths u) by (by exists t, (RcPopCommit u x)).
  assert (Hwu : hd - cap ≤ u < hd) by lia.
  split; simpl; try apply I.
  - rewrite length_insert. apply I.
  - intros p Hp. destruct (Z.eq_dec p u) as [->|Hne].
    + rewrite slot_same. eexists. split; [done|].
      destruct (rv_cells _ _ _ _ _ I u Hwu) as (c' & Hc' & Hph).
      destruct Hph; try lia; try done.
      apply ph_free; try done; [rewrite Kpop; tauto|by rewrite Kpush].
    + rewrite slot_other by done. destruct (rv_cells _ _ _ _ _ I p Hp) as (c' & Hc' & Hph).
      exists c'. split; [done|].
      apply (cell_phase_iff cap tl ps _ ths); [done|by apply Kpush|rewrite Kpop; tauto|exact Hph].
  - apply (forall_insert (λ _ pc, thread_ok _ _ _ _ _ _ pc)); [done|].
    intros t' pc0 Hne0 H0. pose proof (rv_threads _ _ _ _ _ I t' pc0 H0) as Hok.
    apply (thread_ok_cells u (mk_cell (u + cap) (cell_data c)) pc0 t') in Hok; auto.
    + destruct pc0; simpl in *; unfold released in *; rewrite ?Kpush, ?Kpop by done; try done.
      destruct Hok as [? Hok]. split; [done|]. intros E. specialize (Hok E). tauto.
    + intros E. pose proof (push_claim_window t' pc0 u H0 E). lia.
  - eapply claimed_once_insert; [done|apply I|]. done.
  - eapply claimed_once_insert; [done|apply I|]. done.
Qed.
End steps.

(** ** Histories *)

(** The bookkeeping of the items: what was taken is what was claimed for that
    position, no position is taken twice, and none is lost. *)
Record takes_ok (tl : Z) (ps : list Z) (ths : list ring_pc) (es : list ring_event) : Prop := {
  tk_claims : claims es = ps;
  tk_items : ∀ p x, (p, x) ∈ takes es → item_at ps p x ∧ p < tl ∧ ¬ popping ths p;
  tk_nodup : NoDup (takes es).*1;
  tk_all : ∀ p, 0 ≤ p < tl → popping ths p ∨ p ∈ (takes es).*1;
}.

Definition conc_inv (cap : Z) (n : nat) (es : list ring_event) (s : ring_state) : Prop :=
  Z.of_nat n < 2 ^ 62 →
  ∃ hd tl, hd ≤ Z.of_nat n ∧ ring_inv cap hd tl (claims es) s ∧
    takes_ok tl (claims es) (rs_threads s) es.

(** An event-free step that keeps the claims keeps the bookkeeping. *)
Lemma takes_ok_keep tl ps ths ths' es :
  (∀ p, popping ths' p ↔ popping ths p) → takes_ok tl ps ths es → takes_ok tl ps ths' es.
Proof.
  intros K [Hc Hi Hn Ha]. split; auto.
  - intros p x Hx. rewrite K. auto.
  - intros p Hp. rewrite K. auto.
Qed.

Lemma takes_claims_silent es es' :
  takes es' = [] → claims es' = [] → takes (es ++ es') = takes es ∧ claims (es ++ es') = claims es.
Proof. intros H1 H2. unfold takes, claims in *. by rewrite !omap_app, H1, H2, !app_nil_r. Qed.

Lemma takes_ok_silent tl ps ths es es' :
  takes es' = [] → claims es' = [] → takes_ok tl ps ths es → takes_ok tl ps ths (es ++ es').
Proof.
  intros H1 H2 [Hc Hi Hn Ha]. destruct (takes_claims_silent es es' H1 H2) as [E1 E2].
  split; rewrite ?E1, ?E2; auto.
Qed.

Section history.
Context (cap : Z) (n : nat) (es : list ring_event) (s : ring_state) (hd tl : Z).
Hypothesis Hn : Z.of_nat (S n) < 2 ^ 62.
Hypothesis Hhd : hd ≤ Z.of_nat n.
Hypothesis I : ring_inv cap hd tl (claims es) s.
Hypothesis K : takes_ok tl (claims es) (rs_threads s) es.

(** The state of the history after a step. *)
Definition after (es' : list ring_event) (s' : ring_state) : Prop :=
  ∃ hd' tl', hd' ≤ Z.of_nat (S n) ∧ ring_inv cap hd' tl' (claims (es ++ es')) s' ∧
    takes_ok tl' (claims (es ++ es')) (rs_threads s') (es ++ es').

Lemma after_quiet es' r' t pc pc' :
  takes es' = [] → claims es' = [] → rs_threads s !! t = Some pc → pop_claim pc' = pop_claim pc →
  ring_inv cap hd tl (claims es) (mk_rs r' (<[t := pc']> (rs_threads s))) →
  after es' (mk_rs r' (<[t := pc']> (rs_threads s))).
Proof.
  intros H1 H2 Ht E I'. exists hd, tl.
  destruct (takes_claims_silent es es' H1 H2) as [_ Ec]. rewrite Ec.
  split; [lia|]. split; [done|]. apply takes_ok_silent; auto.
  apply (takes_ok_keep tl _ (rs_threads s)); auto. intros p. by apply (claiming_keep _ _ _ pc).
Qed.

Lemma after_local es' t pc pc' :
  takes es' = [] → claims es' = [] → rs_threads s !! t = Some pc →
  push_claim pc' = push_claim pc → pop_claim pc' = pop_claim pc →
  thread_ok cap hd tl (claims es) (rs_threads s) (ring_cells (rs_ring s)) pc' →
  after es' (mk_rs (rs_ring s) (<[t := pc']> (rs_threads s))).
Proof.
  intros H1 H2 Ht E1 E2 Hok. apply (after_quiet _ _ _ pc); auto. by apply (ring_local _ _ _ _ _ I _ pc).
Qed.

Lemma claims_snoc x : claims (es ++ [Claim x]) = claims es ++ [x] ∧ takes (es ++ [Claim x]) = takes es.
Proof. unfold claims, takes. rewrite !omap_app. simpl. by rewrite app_nil_r. Qed.

Lemma after_push_cas t item :
  rs_threads s !! t = Some (RcPushCas hd item) →
  after [Claim item] (mk_rs (with_head (rs_ring s) (hd +w 1))
                            (<[t := RcPushWrite hd item]> (rs_threads s))).
Proof.
  intros Ht. exists (hd + 1), tl. destruct (claims_snoc item) as [Ec Et].
  split; [lia|]. split; [rewrite Ec; apply push_cas_inv; auto; lia|].
  destruct K as [Hc Hi Hnd Ha]. split; rewrite ?Et; auto.
  - intros p x Hx. destruct (Hi p x Hx) as (H1 & H2 & H3). rewrite Ec. simpl.
    split; [by apply item_at_app|]. split; [done|]. by rewrite (claiming_keep _ _ _ _ _ Ht).
  - intros p Hp. simpl. rewrite (claiming_keep _ _ _ _ _ Ht) by done. auto.
Qed.

Lemma after_pop_cas t :
  rs_threads s !! t = Some (RcPopCas tl) →
  after [] (mk_rs (with_tail (rs_ring s) (tl +w 1)) (<[t := RcPopRead tl]> (rs_threads s))).
Proof.
  intros Ht. pose proof (rv_order _ _ _ _ _ I). exists hd, (tl + 1). unfold after. rewrite app_nil_r.
  split; [lia|]. split; [apply pop_cas_inv; auto; lia|].
  pose proof (λ p, claiming_add pop_claim _ t _ (RcPopRead tl) Ht p tl eq_refl eq_refl) as Kp.
  destruct K as [Hc Hi Hnd Ha]. split; simpl; auto.
  - intros p x Hx. destruct (Hi p x Hx) as (H1 & H2 & H3). split; [done|]. split; [lia|].
    rewrite Kp. intros [?|?]; [lia|done].
  - intros p Hp. rewrite Kp. destruct (Z.eq_dec p tl) as [->|]; [by left; left|].
    destruct (Ha p) as [?|?]; [lia|by left; right|by right].
Qed.

Lemma after_pop_commit t u x c :
  rs_threads s !! t = Some (RcPopCommit u x) →
  ring_cells (rs_ring s) !! Z.to_nat (u mod cap) = Some c →
  after [Taken u x]
    (mk_rs (with_cell (rs_ring s) (Z.to_nat (u mod cap)) (mk_cell (u + cap) (cell_data c)))
           (<[t := RcIdle]> (rs_threads s))).
Proof.
  intros Ht Hc. exists hd, tl.
  assert (Ec : claims (es ++ [Taken u x]) = claims es)
    by (unfold claims; rewrite omap_app; simpl; by rewrite app_nil_r).
  assert (Et : takes (es ++ [Taken u x]) = takes es ++ [(u, x)])
    by (unfold takes; by rewrite omap_app).
  rewrite Ec. split; [lia|]. split; [by apply pop_commit_inv with x|].
  destruct (rv_threads _ _ _ _ _ I t _ Ht) as [Hw Hx].
  pose proof (λ p, claiming_drop pop_claim _ t _ RcIdle Ht p u (rv_pop_once _ _ _ _ _ I)
    eq_refl eq_refl) as Kp.
  assert (Hpop : popping (rs_threads s) u) by (by exists t, (RcPopCommit u x)).
  destruct K as [Hcl Hi Hnd Ha]. split; rewrite ?Ec, ?Et, ?fmap_app; simpl; auto.
  - intros p y. rewrite elem_of_app, list_elem_of_singleton, Kp. intros [Hy|[= -> ->]].
    + destruct (Hi p y Hy) as (H1 & H2 & H3). tauto.
    + split; [done|]. split; [lia|tauto].
  - apply NoDup_app. split; [done|]. split; [|apply NoDup_singleton].
    intros p Hp ->%list_elem_of_singleton. apply list_elem_of_fmap in Hp as ([q y] & E & Hq).
    simpl in E. subst q. by destruct (Hi u y Hq) as (_ & _ & ?).
  - intros p Hp. rewrite Kp, elem_of_app, list_elem_of_singleton.
    destruct (Z.eq_dec p u) as [->|]; [tauto|]. destruct (Ha p Hp); tauto.
Qed.

Lemma after_push_step t pc sp r' pc' es' :
  rs_threads s !! t = Some pc → ring_push_step (rs_ring s) t pc sp = Some (r', pc', es') →
  after es' (mk_rs r' (<[t := pc']> (rs_threads s))).
Proof.
  intros Ht Hs. pose proof (rv_threads _ _ _ _ _ I t pc Ht) as Hok.
  pose proof (cap_bounds _ _ _ _ _ I) as Hcap. pose proof (rv_order _ _ _ _ _ I) as Hord.
  destruct pc as [|x|h x|h x|h x|h| |u|u|u|u x]; cbn [ring_push_step] in Hs; simplify_eq;
    try rewrite !(cell_index_mod _ _ _ _ _ I) in Hs.
  - apply (after_local _ _ (RcPushStart x)); auto. simpl. rewrite (rv_head _ _ _ _ _ I). lia.
  - destruct (ring_cells (rs_ring s) !! _) as [c|] eqn:Hc; [|done]. simpl in Hok.
    destruct (cell_of _ _ _ _ _ I h c Hc) as (q & Hq & Em & Hph).
    rewrite s64_diff in Hs
      by (try lia; eapply (phase_seq_range _ _ _ _ _ I q); try done; lia).
    destruct (Z.eqb_spec (cell_sequence c - h) 0) as [Ez|Ez]; [|destruct (Z.ltb_spec (cell_sequence c - h) 0)];
      simplify_eq; apply (after_local _ _ (RcPushSeq h x)); auto; simpl; try done.
    split; [done|]. intros Eh. eapply (push_seq_ready _ _ _ _ _ I); [done|lia|done].
  - rewrite (rv_head _ _ _ _ _ I) in Hs. destruct (Z.eqb_spec hd h) as [<-|Hne], sp;
      cbn [andb negb] in Hs; simplify_eq.
    + apply (after_local _ _ (RcPushCas hd x)); auto. simpl. lia.
    + by apply after_push_cas.
    + apply (after_local _ _ (RcPushCas h x)); auto. simpl. lia.
    + apply (after_local _ _ (RcPushCas h x)); auto. simpl. lia.
  - destruct (ring_cells (rs_ring s) !! _) as [c|] eqn:Hc; [|done]. simplify_eq.
    apply (after_quiet _ _ _ (RcPushWrite h x)); auto. by apply push_write_inv.
  - destruct (ring_cells (rs_ring s) !! _) as [c|] eqn:Hc; [|done]. simplify_eq. simpl in Hok.
    rewrite u64_small by (unfold is_u64; lia).
    apply (after_quiet _ _ _ (RcPushCommit h)); auto. by apply push_commit_inv.
Qed.

Lemma after_pop_step t pc sp r' pc' es' :
  rs_threads s !! t = Some pc → ring_pop_step (rs_ring s) t pc sp = Some (r', pc', es') →
  after es' (mk_rs r' (<[t := pc']> (rs_threads s))).
Proof.
  intros Ht Hs. pose proof (rv_threads _ _ _ _ _ I t pc Ht) as Hok.
  pose proof (cap_bounds _ _ _ _ _ I) as Hcap. pose proof (rv_order _ _ _ _ _ I) as Hord.
  destruct pc as [|x|h x|h x|h x|h| |u|u|u|u x]; cbn [ring_pop_step] in Hs; simplify_eq;
    try rewrite !(cell_index_mod _ _ _ _ _ I) in Hs.
  - apply (after_local _ _ RcPopStart); auto. simpl. rewrite (rv_tail _ _ _ _ _ I). lia.
  - destruct (ring_cells (rs_ring s) !! _) as [c|] eqn:Hc; [|done]. simpl in Hok.
    destruct (cell_of _ _ _ _ _ I u c Hc) as (q & Hq & Em & Hph).
    rewrite (u64_small (u + 1)) in Hs by (unfold is_u64; lia). rewrite s64_diff in Hs
      by (try lia; eapply (phase_seq_range _ _ _ _ _ I q); try done; lia).
    destruct (Z.eqb_spec (cell_sequence c - (u + 1)) 0) as [Ez|Ez];
      [|destruct (Z.ltb_spec (cell_sequence c - (u + 1)) 0)];
      simplify_eq; apply (after_local _ _ (RcPopSeq u)); auto; simpl; try done.
    split; [done|]. intros Eh. eapply (pop_seq_ready _ _ _ _ _ I); [done|lia|done].
  - rewrite (rv_tail _ _ _ _ _ I) in Hs. destruct (Z.eqb_spec tl u) as [<-|Hne], sp;
      cbn [andb negb] in Hs; simplify_eq.
    + apply (after_local _ _ (RcPopCas tl)); auto. simpl. lia.
    + by apply after_pop_cas.
    + apply (after_local _ _ (RcPopCas u)); auto. simpl. lia.
    + apply (after_local _ _ (RcPopCas u)); auto. simpl. lia.
  - destruct (ring_cells (rs_ring s) !! _) as [c|] eqn:Hc; [|done]. simplify_eq. simpl in Hok.
    apply (after_local _ _ (RcPopRead u)); auto. simpl. split; [lia|].
    destruct (rv_cells _ _ _ _ _ I u) as (c' & Hc' & Hph); [lia|]. simplify_eq.
    assert (Hpop : popping (rs_threads s) u) by (by exists t, (RcPopRead u)).
    destruct Hph; try lia; done.
  - destruct (ring_cells (rs_ring s) !! _) as [c|] eqn:Hc; [|done]. simplify_eq.
    destruct Hok as [Hw [Hu _]]. rewrite (rv_mask _ _ _ _ _ I).
    rewrite (u64_small (u + _)), u64_small by (unfold is_u64; lia).
    replace (u + (cap - 1) + 1) with (u + cap) by lia. by apply after_pop_commit.
Qed.
End history.

Lemma conc_inv_step cap n es s l s' es' :
  conc_inv cap n es s → ring_step s l = Some (s', es') → conc_inv cap (S n) (es ++ es') s'.
Proof.
  intros Hinv Hs Hn. destruct Hinv as (hd & tl & Hhd & I & K); [lia|].
  change (after cap n es es' s').
  destruct l as [t x|t|t sp]; cbn [ring_step] in Hs;
    destruct (rs_threads s !! t) as [pc|] eqn:Ht; try done.
  - destruct pc; simplify_eq. by apply (after_local cap n es s hd tl Hn Hhd I K _ _ RcIdle).
  - destruct pc; simplify_eq. by apply (after_local cap n es s hd tl Hn Hhd I K _ _ RcIdle).
  - destruct (ring_push_step _ t pc sp) as [[[r' pc'] es1]|] eqn:E1; simplify_eq.
    + by eapply (after_push_step cap n es s hd tl Hn Hhd I K).
    + destruct (ring_pop_step _ t pc sp) as [[[r' pc'] es1]|] eqn:E2; simplify_eq.
      by eapply (after_pop_step cap n es s hd tl Hn Hhd I K).
Qed.

(** ** The start *)

Lemma ring_start_inv k arena n :
  1 ≤ k ≤ 61 → ring_inv (2 ^ k) 0 0 [] (ring_start k arena n).
Proof.
  intros Hk. assert (Hc : 0 < 2 ^ k) by lia.
  assert (Hidle : ∀ t pc, rs_threads (ring_start k arena n) !! t = Some pc → pc = RcIdle).
  { simpl. by intros t pc [-> _]%lookup_replicate. }
  split; simpl; try done.
  - by exists k.
  - apply init_cells_length. lia.
  - lia.
  - intros p Hp. exists (mk_cell (p + 2 ^ k) 0). split.
    + rewrite <-init_cells_lookup with (c := 2 ^ k) by lia. do 2 f_equal.
      rewrite <-(Z_mod_plus_full p 1), Z.mod_small by lia. lia.
    + apply ph_fresh; simpl; lia.
  - intros t pc Ht. by rewrite (Hidle t pc Ht).
  - intros t1 t2 pc1 pc2 p H1 H2 F1. by rewrite (Hidle t1 pc1 H1) in F1.
  - intros t1 t2 pc1 pc2 p H1 H2 F1. by rewrite (Hidle t1 pc1 H1) in F1.
Qed.

Lemma conc_run k arena n sched s es :
  1 ≤ k ≤ 61 → Z.of_nat (length sched) < 2 ^ 62 →
  traced ring_step (ring_start k arena n) sched = Some (s, es) →
  ∃ hd tl, hd ≤ Z.of_nat (length sched) ∧ ring_inv (2 ^ k) hd tl (claims es) s ∧
    takes_ok tl (claims es) (rs_threads s) es.
Proof.
  intros Hk Hlen Hr.
  refine (traced_invariant ring_step (conc_inv (2 ^ k)) _ _ _ sched s es Hr Hlen).
  - intros _. exists 0, 0. split; [lia|]. split; [by apply ring_start_inv|].
    split; simpl; try done; [by intros p x Hx%not_elem_of_nil|constructor|lia].
  - intros n0 es0 s0 l s1 es1. apply conc_inv_step.
Qed.

(** What a refused call saw. *)
Lemma full_means cap hd tl ps s h c :
  ring_inv cap hd tl ps s → 0 ≤ h ≤ hd →
  ring_cells (rs_ring s) !! Z.to_nat (h mod cap) = Some c → cell_sequence c < h →
  hd = tl + cap ∨ popping (rs_threads s) (hd - cap).
Proof.
  intros I Hh Hc Hlt. pose proof (cap_bounds _ _ _ _ _ I) as Hcap.
  pose proof (rv_order _ _ _ _ _ I) as Hord.
  destruct (cell_of _ _ _ _ _ I h c Hc) as (q & Hq & Em & Hph).
  assert (Hqh : h < hd → h ≤ q).
  { intros Hl. destruct (Z.lt_ge_cases h (hd - cap)); [lia|].
    apply Z.eq_le_incl. symmetry. apply (window_slot cap hd); [lia|lia|lia|by rewrite Em]. }
  destruct (Z.eq_dec h hd) as [->|Hne].
  - assert (q = hd - cap) as ->.
    { apply (window_slot cap hd); [lia|lia|lia|]. rewrite Em. f_equal.
      replace (hd - cap) with (hd + (-1) * cap) by lia. by rewrite Z_mod_plus_full. }
    destruct Hph; try lia. by right.
  - exfalso. destruct Hph; lia.
Qed.

Lemma empty_means cap hd tl ps s u c :
  ring_inv cap hd tl ps s → 0 ≤ u ≤ tl →
  ring_cells (rs_ring s) !! Z.to_nat (u mod cap) = Some c → cell_sequence c < u + 1 →
  hd = tl ∨ pushing (rs_threads s) tl.
Proof.
  intros I Hu Hc Hlt. pose proof (cap_bounds _ _ _ _ _ I) as Hcap.
  pose proof (rv_order _ _ _ _ _ I) as Hord.
  destruct (Z.eq_dec hd tl) as [|Hne]; [by left|right].
  destruct (cell_of _ _ _ _ _ I u c Hc) as (q & Hq & Em & Hph).
  destruct (Z.lt_ge_cases u (hd - cap)) as [Hl|Hge].
  - exfalso. destruct Hph; lia.
  - assert (q = u) as -> by (apply (window_slot cap hd); [lia|lia|lia|by rewrite Em]).
    destruct Hph; try lia. by replace tl with u by lia.
Qed.

(** Which step refuses. *)
Lemma push_step_refuses r t pc sp r' pc' es' u :
  ring_push_step r t pc sp = Some (r', pc', es') →
  (Empty u ∉ es') ∧
  (Full u ∈ es' → ∃ h x c, pc = RcPushSeq h x ∧ ring_cells r !! cell_index r h = Some c ∧
     s64 (s64 (cell_sequence c) - s64 h) < 0).
Proof.
  assert (Hnil : ∀ e : ring_event, ¬ e ∈ []) by (intros e; apply not_elem_of_nil).
  destruct pc as [|x|h x|h x|h x|h| |v|v|v|v x]; cbn [ring_push_step]; try done; intros Hs.
  all: repeat case_match; simplify_eq; rewrite ?list_elem_of_singleton.
  all: split; [intros He|intros Hf]; try (by apply Hnil in He); try (by apply Hnil in Hf); try done.
  do 3 eexists. split; [done|]. split; [done|]. by apply Z.ltb_lt.
Qed.

Lemma pop_step_refuses r t pc sp r' pc' es' u :
  ring_pop_step r t pc sp = Some (r', pc', es') →
  (Full u ∉ es') ∧
  (Empty u ∈ es' → ∃ v c, pc = RcPopSeq v ∧ ring_cells r !! cell_index r v = Some c ∧
     s64 (s64 (cell_sequence c) - s64 (v +w 1)) < 0).
Proof.
  assert (Hnil : ∀ e : ring_event, ¬ e ∈ []) by (intros e; apply not_elem_of_nil).
  destruct pc as [|x|h x|h x|h x|h| |v|v|v|v x]; cbn [ring_pop_step]; try done; intros Hs.
  all: repeat case_match; simplify_eq; rewrite ?list_elem_of_singleton.
  all: split; [intros He|intros Hf]; try (by apply Hnil in He); try (by apply Hnil in Hf); try done.
  do 2 eexists. split; [done|]. split; [done|]. by apply Z.ltb_lt.
Qed.

(** A thread inside a call always has a next step. *)
Lemma ring_enabled cap hd tl ps s t pc sp :
  ring_inv cap hd tl ps s → rs_threads s !! t = Some pc → pc ≠ RcIdle → is_Some (ring_step s (RcAdvance t sp)).
Proof.
  intros I Ht Hpc. cbn [ring_step]. rewrite Ht.
  destruct pc as [|x|h x|h x|h x|h| |u|u|u|u x]; cbn [ring_push_step ring_pop_step]; try done;
    rewrite ?(cell_index_mod _ _ _ _ _ I).
  all: try (destruct (cell_exists _ _ _ _ _ I h) as [c ->]).
  all: try (destruct (cell_exists _ _ _ _ _ I u) as [c ->]).
  all: repeat case_match; done.
Qed.

(** What a refused call saw, by the step that refuses. *)
Lemma ring_refusals cap hd tl ps s l s' es' t :
  hd < 2 ^ 62 → ring_inv cap hd tl ps s → ring_step s l = Some (s', es') →
  (Full t ∈ es' → hd = tl + cap ∨ popping (rs_threads s) (hd - cap)) ∧
  (Empty t ∈ es' → hd = tl ∨ pushing (rs_threads s) tl).
Proof.
  intros Hhd I Hs.
  pose proof (cap_bounds _ _ _ _ _ I). pose proof (rv_order _ _ _ _ _ I).
  destruct l as [u x|u|u sp]; cbn [ring_step] in Hs;
    destruct (rs_threads s !! u) as [pc|] eqn:Hu; try done.
  1,2: destruct pc; simplify_eq; split; intros ?%not_elem_of_nil; done.
  pose proof (rv_threads _ _ _ _ _ I u pc Hu) as Hok.
  assert (Hrange : ∀ p c, ring_cells (rs_ring s) !! Z.to_nat (p mod cap) = Some c →
                   0 ≤ cell_sequence c < 2 ^ 63).
  { intros p c Hc. destruct (cell_of _ _ _ _ _ I p c Hc) as (q & Hq & _ & Hph).
    apply (phase_seq_range _ _ _ _ _ I q c); [lia|done|done]. }
  destruct (ring_push_step _ u pc sp) as [[[r' pc'] es1]|] eqn:E1; simplify_eq.
  - destruct (push_step_refuses _ _ _ _ _ _ _ t E1) as [He Hf]. split; [|done].
    intros Hin. destruct (Hf Hin) as (h & x & c & -> & Hc & Hd). simpl in Hok.
    rewrite (cell_index_mod _ _ _ _ _ I) in Hc. pose proof (Hrange _ _ Hc).
    rewrite s64_diff in Hd by lia. apply (full_means _ hd tl _ s h c I); auto; lia.
  - destruct (ring_pop_step _ u pc sp) as [[[r' pc'] es1]|] eqn:E2; simplify_eq.
    destruct (pop_step_refuses _ _ _ _ _ _ _ t E2) as [Hf He]. split; [done|].
    intros Hin. destruct (He Hin) as (v & c & -> & Hc & Hd). simpl in Hok.
    rewrite (cell_index_mod _ _ _ _ _ I) in Hc. pose proof (Hrange _ _ Hc).
    rewrite u64_small, s64_diff in Hd by (unfold is_u64; lia).
    apply (empty_means _ hd tl _ s v c I); auto; lia.
Qed.

(** ** Properties *)

(** In every interleaving of producers and consumers (fewer than 2^62
    steps, capacity 2..2^61): each item taken is the item some producer claimed
    that position for, no position is taken twice, every position below the
    tail has been taken or is being taken, and the counters stay within one
    capacity of each other.  So items come out once each, in claim order. *)
Theorem ring_conc_exactly_once k arena n sched s es :
  1 ≤ k ≤ 61 → Z.of_nat (length sched) < 2 ^ 62 →
  traced ring_step (ring_start k arena n) sched = Some (s, es) →
  let hd := ring_head (rs_ring s) in
  let tl := ring_tail (rs_ring s) in
  (∀ p x, (p, x) ∈ takes es → 0 ≤ p ∧ claims es !! Z.to_nat p = Some x) ∧
  NoDup (takes es).*1 ∧
  (∀ p, 0 ≤ p < tl → popping (rs_threads s) p ∨ p ∈ (takes es).*1) ∧
  hd = Z.of_nat (length (claims es)) ∧ 0 ≤ tl ≤ hd ∧ hd ≤ tl + 2 ^ k.
Proof.
  intros Hk Hlen Hr. destruct (conc_run k arena n sched s es Hk Hlen Hr) as (hd & tl & _ & I & K).
  simpl. rewrite (rv_head _ _ _ _ _ I), (rv_tail _ _ _ _ _ I).
  destruct K as [_ Hi Hnd Ha]. split; [intros p x Hx; by apply Hi|].
  split; [done|]. split; [done|]. split; [symmetry; apply I|apply I].
Qed.

(** C37. No data race on a cell: two threads that are inside the claimed part of
    their calls (writing, reading or publishing a cell) always work on different
    cells, and no thread ever addresses a cell outside the array. *)
Theorem ring_conc_race_free k arena n sched s es :
  1 ≤ k ≤ 61 → Z.of_nat (length sched) < 2 ^ 62 →
  traced ring_step (ring_start k arena n) sched = Some (s, es) →
  (∀ t1 t2 pc1 pc2 p1 p2, t1 ≠ t2 →
     rs_threads s !! t1 = Some pc1 → rs_threads s !! t2 = Some pc2 →
     (push_claim pc1 = Some p1 ∨ pop_claim pc1 = Some p1) →
     (push_claim pc2 = Some p2 ∨ pop_claim pc2 = Some p2) →
     cell_index (rs_ring s) p1 ≠ cell_index (rs_ring s) p2) ∧
  ∀ t pc sp, rs_threads s !! t = Some pc → pc ≠ RcIdle →
    is_Some (ring_step s (RcAdvance t sp)).
Proof.
  intros Hk Hlen Hr. destruct (conc_run k arena n sched s es Hk Hlen Hr) as (hd & tl & _ & I & _).
  pose proof (cap_bounds _ _ _ _ _ I). pose proof (rv_order _ _ _ _ _ I). split.
  - intros t1 t2 pc1 pc2 p1 p2 Hne H1 H2 C1 C2. rewrite !(cell_index_mod _ _ _ _ _ I). intros E.
    assert (p1 = p2) as ->.
    { apply (window_slot (2 ^ k) hd); [lia| | |done].
      - destruct C1 as [C|C]; [pose proof (push_claim_window _ _ _ _ _ I _ _ _ H1 C)
                              |pose proof (pop_claim_window _ _ _ _ _ I _ _ _ H1 C)]; lia.
      - destruct C2 as [C|C]; [pose proof (push_claim_window _ _ _ _ _ I _ _ _ H2 C)
                              |pose proof (pop_claim_window _ _ _ _ _ I _ _ _ H2 C)]; lia. }
    destruct C1 as [C1|C1], C2 as [C2|C2].
    + apply Hne. by apply (rv_push_once _ _ _ _ _ I t1 t2 pc1 pc2 p2).
    + pose proof (push_claim_window _ _ _ _ _ I _ _ _ H1 C1).
      pose proof (pop_claim_window _ _ _ _ _ I _ _ _ H2 C2). lia.
    + pose proof (pop_claim_window _ _ _ _ _ I _ _ _ H1 C1).
      pose proof (push_claim_window _ _ _ _ _ I _ _ _ H2 C2). lia.
    + apply Hne. by apply (rv_pop_once _ _ _ _ _ I t1 t2 pc1 pc2 p2).
  - intros t pc sp. by apply (ring_enabled _ _ _ _ _ _ _ _ I).
Qed.

(** A refused call was right to refuse: [nkit_ring_push] returns false only
    in a state where the ring holds [capacity] items or the consumer that took
    the oldest of them has not given its cell back, and [nkit_ring_pop] only when
    the ring is empty or the producer of the next item has not published it. *)
Theorem ring_conc_refusals k arena n sched s es l s' es' t :
  1 ≤ k ≤ 61 → Z.of_nat (length sched) < 2 ^ 62 →
  traced ring_step (ring_start k arena n) sched = Some (s, es) →
  ring_step s l = Some (s', es') →
  let hd := ring_head (rs_ring s) in
  let tl := ring_tail (rs_ring s) in
  (Full t ∈ es' → hd = tl + 2 ^ k ∨ popping (rs_threads s) (hd - 2 ^ k)) ∧
  (Empty t ∈ es' → hd = tl ∨ pushing (rs_threads s) tl).
Proof.
  intros Hk Hlen Hr Hs. destruct (conc_run k arena n sched s es Hk Hlen Hr) as (hd & tl & Hhd & I & _).
  simpl. rewrite (rv_head _ _ _ _ _ I), (rv_tail _ _ _ _ _ I). apply (ring_refusals _ _ _ _ _ l s' es' t (Z.le_lt_trans _ _ _ Hhd Hlen) I Hs).
Qed.

(** Two producers race for position 0; the loser retries at 1; a consumer takes
    position 0 while position 1 is not yet published. *)
Definition demo_ring_sched : list ring_label :=
  [RcPush 0 10; RcPush 1 20; RcAdvance 0 false; RcAdvance 1 false;
   RcAdvance 0 false; RcAdvance 1 false; RcAdvance 1 false; RcAdvance 0 false;
   RcAdvance 0 false; RcAdvance 0 false; RcAdvance 1 false; RcAdvance 1 false;
   RcPop 2; RcAdvance 2 false; RcAdvance 2 false; RcAdvance 2 false; RcAdvance 2 false;
   RcAdvance 2 false; RcPop 2; RcAdvance 2 false].

Lemma ring_conc_exactly_once_witness :
  match traced ring_step (ring_start 1 None 3) demo_ring_sched with
  | Some (s, es) => takes es = [(0, 20)] ∧ claims es !! 0%nat = Some 20
  | None => False
  end.
Proof.
  destruct (traced _ _ _) as [[s es]|] eqn:E; [|by vm_compute in E].
  destruct (ring_conc_exactly_once 1 None 3 demo_ring_sched s es ltac:(lia) ltac:(done) E)
    as [H _].
  assert (Ht : takes es = [(0, 20)]) by (vm_compute in E; by simplify_eq).
  split; [done|]. apply (H 0 20). rewrite Ht. by left.
Defined.

Lemma ring_conc_race_free_witness :
  match traced ring_step (ring_start 1 None 3) demo_ring_sched with
  | Some (s, es) => is_Some (ring_step s (RcAdvance 2 false))
  | None => False
  end.
Proof.
  destruct (traced _ _ _) as [[s es]|] eqn:E; [|by vm_compute in E].
  destruct (ring_conc_race_free 1 None 3 demo_ring_sched s es ltac:(lia) ltac:(done) E)
    as [_ H].
  apply (H 2%nat (RcPopSeq 1) false); [|done]. vm_compute in E. by simplify_eq.
Defined.

(** The consumer's second pop finds position 1 claimed but not published. *)
Lemma ring_conc_refusals_witness :
  match traced ring_step (ring_start 1 None 3) demo_ring_sched with
  | Some (s, es) =>
      match ring_step s (RcAdvance 2 false) with
      | Some (s', es') => es' = [Empty 2] ∧
          (ring_head (rs_ring s) = ring_tail (rs_ring s) ∨
           pushing (rs_threads s) (ring_tail (rs_ring s)))
      | None => False
      end
  | None => False
  end.
Proof.
  destruct (traced _ _ _) as [[s es]|] eqn:E; [|by vm_compute in E].
  destruct (ring_step s (RcAdvance 2 false)) as [[s' es']|] eqn:E'.
  - destruct (ring_conc_refusals 1 None 3 demo_ring_sched s es _ s' es' 2
      ltac:(lia) ltac:(done) E E') as [_ H].
    vm_compute in E. simplify_eq. vm_compute in E'. simplify_eq.
    split; [done|]. apply H. by left.
  - vm_compute in E. simplify_eq.
Defined.
