(* ===== verification/RingFree.v ===== *)
(** * The shared ring does not stall (include/numakit/structs/ring_buffer.h)

    The header calls push and pop lock-free.  Here the accesses are counted: a call
    starts over only when another call has succeeded since it loaded the counter, or
    when its compare-and-swap fails spuriously, so the work of all calls together is
    bounded by their number. *)

From stdpp Require Import prelude.
From Stdlib Require Import ZArith Lia.
From S2P Require Import Prelude Words Arena Ring RingConc.
Local Open Scope Z_scope.
Local Open Scope word_scope.

(** ** Counting *)

Definition is_call (l : ring_label) : bool := match l with RcAdvance _ _ => false | _ => true end.
Definition is_spurious (l : ring_label) : bool := match l with RcAdvance _ true => true | _ => false end.

Definition count (f : ring_label → bool) (sched : list ring_label) : nat := length (filter f sched).

Lemma count_snoc f sched l : count f (sched ++ [l]) = (count f sched + (if f l then 1 else 0))%nat.
Proof.
  unfold count. rewrite filter_app, length_app. f_equal.
  destruct (f l) eqn:E; [rewrite filter_cons_True by (by rewrite E)|rewrite filter_cons_False by (rewrite E; by intros [])]; done.
Qed.

(** What a thread may still cost with the counters at [hd] and [tl]: its own
    accesses, [w] for the threads it will send back when its compare-and-swap
    succeeds, and the way back when the counter it loaded has moved on. *)
Definition fresh_or_back (current loaded : Z) (n : nat) : nat := if current =? loaded then n else (2 + n)%nat.

Definition cost (w : nat) (hd tl : Z) (pc : ring_pc) : nat :=
  match pc with
  | RcIdle => 0
  | RcPushStart _ | RcPopStart => 5 + w
  | RcPushSeq h _ => fresh_or_back hd h (4 + w)
  | RcPushCas h _ => fresh_or_back hd h (3 + w)
  | RcPopSeq u => fresh_or_back tl u (4 + w)
  | RcPopCas u => fresh_or_back tl u (3 + w)
  | RcPushWrite _ _ | RcPopRead _ => 2
  | RcPushCommit _ | RcPopCommit _ _ => 1
  end.

Definition costs (w : nat) (s : ring_state) : nat :=
  sum_list_with (cost w (ring_head (rs_ring s)) (ring_tail (rs_ring s))) (rs_threads s).

Lemma sum_insert {A} (f : A → nat) l i x y :
  l !! i = Some y → (sum_list_with f (<[i := x]> l) + f y = sum_list_with f l + f x)%nat.
Proof.
  revert i. induction l as [|z l IH]; intros [|i] H; simplify_eq/=; [lia|]. pose proof (IH i H). lia.
Qed.

Lemma sum_le {A} (f g : A → nat) k l :
  (∀ x, g x ≤ f x + k)%nat → (sum_list_with g l ≤ sum_list_with f l + k * length l)%nat.
Proof. intros H. induction l as [|x l IH]; cbn; [lia|]. pose proof (H x). lia. Qed.

(** A counter that moves sends a thread back once. *)
Lemma cost_moves w hd tl hd' tl' pc : (cost w hd' tl' pc ≤ cost w hd tl pc + 2)%nat.
Proof. destruct pc; cbn; unfold fresh_or_back; repeat case_match; lia. Qed.

(** ** One step *)

Section step.
Context (cap hd tl : Z) (ps : list Z) (r : nkit_ring_t) (ths : list ring_pc) (t : nat) (pc : ring_pc).
Hypothesis I : ring_inv cap hd tl ps (mk_rs r ths).
Hypothesis Ht : ths !! t = Some pc.
Hypothesis Hb : hd < 2 ^ 62.

(** The cell of the next position to push to never looks ahead. *)
Lemma push_cell_behind c : ring_cells r !! Z.to_nat (hd mod cap) = Some c → cell_sequence c ≤ hd.
Proof.
  intros Hc. pose proof (cap_bounds _ _ _ _ _ I). pose proof (rv_order _ _ _ _ _ I).
  destruct (cell_of _ _ _ _ _ I hd c Hc) as (q & Hq & Em & Hph).
  assert (q = hd - cap) as ->.
  { apply (window_slot cap hd); [lia|lia|lia|]. rewrite Em. f_equal.
    replace (hd - cap) with (hd + (-1) * cap) by lia. by rewrite Z_mod_plus_full. }
  destruct Hph; lia.
Qed.

Lemma pop_cell_behind c : ring_cells r !! Z.to_nat (tl mod cap) = Some c → cell_sequence c ≤ tl + 1.
Proof.
  intros Hc. pose proof (cap_bounds _ _ _ _ _ I). pose proof (rv_order _ _ _ _ _ I).
  destruct (cell_of _ _ _ _ _ I tl c Hc) as (q & Hq & Em & Hph).
  destruct (Z.eq_dec hd tl) as [E|Hne]; [rewrite <-E in Hc; pose proof (push_cell_behind c Hc); lia|].
  assert (q = tl) as -> by (apply (window_slot cap hd); [lia|lia|lia|by rewrite Em]).
  destruct Hph; lia.
Qed.

Lemma cell_seq_range p c : ring_cells r !! Z.to_nat (p mod cap) = Some c → 0 ≤ cell_sequence c < 2 ^ 63.
Proof.
  intros Hc. destruct (cell_of _ _ _ _ _ I p c Hc) as (q & Hq & _ & Hph).
  pose proof (rv_order _ _ _ _ _ I). apply (phase_seq_range _ _ _ _ _ I q c); [lia|done|done].
Qed.

Abbreviation w := (2 * length ths)%nat.

(** The thread's own cost goes down, the counters staying. *)
Lemma costs_stay r' pc' extra :
  ring_head r' = hd → ring_tail r' = tl → (cost w hd tl pc' + 1 ≤ cost w hd tl pc + extra)%nat →
  (costs w (mk_rs r' (<[t := pc']> ths)) + 1 ≤ costs w (mk_rs r ths) + extra)%nat.
Proof.
  intros Eh Et H. unfold costs. cbn [rs_ring rs_threads]. rewrite Eh, Et.
  pose proof (rv_head _ _ _ _ _ I) as Hh. pose proof (rv_tail _ _ _ _ _ I) as Hl. cbn [rs_ring] in Hh, Hl. rewrite Hh, Hl.
  pose proof (sum_insert (cost w hd tl) ths t pc' pc Ht). lia.
Qed.

(** A compare-and-swap succeeds and sends the others back. *)
Lemma costs_advance r' pc' hd' tl' :
  ring_head r' = hd' → ring_tail r' = tl' → (cost w hd' tl' pc' + 1 + w ≤ cost w hd' tl' pc)%nat →
  (costs w (mk_rs r' (<[t := pc']> ths)) + 1 ≤ costs w (mk_rs r ths))%nat.
Proof.
  intros Eh Et H. unfold costs. cbn [rs_ring rs_threads]. rewrite Eh, Et.
  pose proof (sum_insert (cost w hd' tl') ths t pc' pc Ht).
  pose proof (sum_le (cost w (ring_head r) (ring_tail r)) (cost w hd' tl') 2 ths (cost_moves w _ _ _ _)). lia.
Qed.
End step.

Ltac stays I Ht := eapply costs_stay; [exact I|exact Ht|auto|auto|].

Section accesses.
Context (cap hd tl : Z) (ps : list Z) (r : nkit_ring_t) (ths : list ring_pc) (t : nat) (pc : ring_pc).
Hypothesis I : ring_inv cap hd tl ps (mk_rs r ths).
Hypothesis Ht : ths !! t = Some pc.
Hypothesis Hb : hd < 2 ^ 62.
Abbreviation w := (2 * length ths)%nat.

Lemma push_costs sp r' pc' ev :
  ring_push_step r t pc sp = Some (r', pc', ev) →
  (costs w (mk_rs r' (<[t := pc']> ths)) + 1 ≤ costs w (mk_rs r ths) + (if sp then 2 else 0))%nat.
Proof.
  intros Hs. pose proof (rv_head _ _ _ _ _ I) as Hh. pose proof (rv_tail _ _ _ _ _ I) as Hl. cbn [rs_ring] in Hh, Hl.
  pose proof (rv_threads _ _ _ _ _ I t pc Ht) as Hok. pose proof (rv_order _ _ _ _ _ I).
  destruct pc as [|x|h x|h x|h x|h| |u|u|u|u x]; cbn [ring_push_step] in Hs; try done.
  - injection Hs as <- <- <-. stays I Ht. rewrite Hh. cbn. unfold fresh_or_back. rewrite Z.eqb_refl. lia.
  - pose proof (cell_index_mod _ _ _ _ _ I h) as Ei. cbn [rs_ring] in Ei. rewrite Ei in Hs.
    destruct (ring_cells r !! _) as [c|] eqn:Hc; [|done]. cbn in Hok.
    rewrite s64_diff in Hs by (try lia; by eapply cell_seq_range).
    assert (Hfresh : hd = h → cell_sequence c ≤ hd) by (intros <-; by eapply push_cell_behind).
    destruct (Z.eqb_spec (cell_sequence c - h) 0); [|destruct (Z.ltb_spec (cell_sequence c - h) 0)];
      injection Hs as <- <- <-; stays I Ht; cbn; unfold fresh_or_back; destruct (Z.eqb_spec hd h); lia.
  - destruct (Z.eqb_spec (ring_head r) h) as [Eh|Hne]; destruct sp; cbn [andb negb] in Hs; injection Hs as <- <- <-.
    + stays I Ht. cbn. unfold fresh_or_back. rewrite Hh, Z.eqb_refl. destruct (hd =? h); lia.
    + rewrite Nat.add_0_r. eapply (costs_advance r ths t _ Ht _ _ (h +w 1) tl); auto. cbn. unfold fresh_or_back.
      rewrite u64_small by (unfold is_u64; lia). rewrite (proj2 (Z.eqb_neq _ _)) by lia. lia.
    + stays I Ht. cbn. unfold fresh_or_back. rewrite Hh, Z.eqb_refl. destruct (hd =? h); lia.
    + stays I Ht. cbn. unfold fresh_or_back. rewrite Hh, Z.eqb_refl, (proj2 (Z.eqb_neq hd h)) by congruence. lia.
  - destruct (ring_cells r !! _) as [c|]; [|done]. injection Hs as <- <- <-. stays I Ht. cbn. lia.
  - destruct (ring_cells r !! _) as [c|]; [|done]. injection Hs as <- <- <-. stays I Ht. cbn. lia.
Qed.

Lemma pop_costs sp r' pc' ev :
  ring_pop_step r t pc sp = Some (r', pc', ev) →
  (costs w (mk_rs r' (<[t := pc']> ths)) + 1 ≤ costs w (mk_rs r ths) + (if sp then 2 else 0))%nat.
Proof.
  intros Hs. pose proof (rv_head _ _ _ _ _ I) as Hh. pose proof (rv_tail _ _ _ _ _ I) as Hl. cbn [rs_ring] in Hh, Hl.
  pose proof (rv_threads _ _ _ _ _ I t pc Ht) as Hok. pose proof (rv_order _ _ _ _ _ I).
  destruct pc as [|x|h x|h x|h x|h| |u|u|u|u x]; cbn [ring_pop_step] in Hs; try done.
  - injection Hs as <- <- <-. stays I Ht. rewrite Hl. cbn. unfold fresh_or_back. rewrite Z.eqb_refl. lia.
  - pose proof (cell_index_mod _ _ _ _ _ I u) as Ei. cbn [rs_ring] in Ei. rewrite Ei in Hs.
    destruct (ring_cells r !! _) as [c|] eqn:Hc; [|done]. cbn in Hok.
    rewrite (u64_small (u + 1)) in Hs by (unfold is_u64; lia). rewrite s64_diff in Hs by (try lia; by eapply cell_seq_range).
    assert (Hfresh : tl = u → cell_sequence c ≤ tl + 1) by (intros <-; by eapply pop_cell_behind).
    destruct (Z.eqb_spec (cell_sequence c - (u + 1)) 0); [|destruct (Z.ltb_spec (cell_sequence c - (u + 1)) 0)];
      injection Hs as <- <- <-; stays I Ht; cbn; unfold fresh_or_back; destruct (Z.eqb_spec tl u); lia.
  - destruct (Z.eqb_spec (ring_tail r) u) as [Eu|Hne]; destruct sp; cbn [andb negb] in Hs; injection Hs as <- <- <-.
    + stays I Ht. cbn. unfold fresh_or_back. rewrite Hl, Z.eqb_refl. destruct (tl =? u); lia.
    + rewrite Nat.add_0_r. eapply (costs_advance r ths t _ Ht _ _ hd (u +w 1)); auto. cbn. unfold fresh_or_back.
      rewrite u64_small by (unfold is_u64; lia). rewrite (proj2 (Z.eqb_neq _ _)) by lia. lia.
    + stays I Ht. cbn. unfold fresh_or_back. rewrite Hl, Z.eqb_refl. destruct (tl =? u); lia.
    + stays I Ht. cbn. unfold fresh_or_back. rewrite Hl, Z.eqb_refl, (proj2 (Z.eqb_neq tl u)) by congruence. lia.
  - destruct (ring_cells r !! _) as [c|]; [|done]. injection Hs as <- <- <-. stays I Ht. cbn. lia.
  - destruct (ring_cells r !! _) as [c|]; [|done]. injection Hs as <- <- <-. stays I Ht. cbn. lia.
Qed.
End accesses.

(** A call adds what it may cost; an access pays for itself. *)
Lemma step_costs cap hd tl ps s l s' ev :
  ring_inv cap hd tl ps s → hd < 2 ^ 62 → ring_step s l = Some (s', ev) →
  let w := (2 * length (rs_threads s))%nat in
  length (rs_threads s') = length (rs_threads s) ∧
  (costs w s' + (if is_call l then 0 else 1) ≤ costs w s + (if is_call l then 5 + w else 0) + (if is_spurious l then 2 else 0))%nat.
Proof.
  intros I Hb Hs w. destruct s as [r ths]. destruct l as [t x|t|t sp]; cbn [ring_step rs_threads rs_ring is_call is_spurious] in *;
    destruct (ths !! t) as [pc|] eqn:Ht; try done.
  1,2: destruct pc; try done; injection Hs as <- <-; cbn [rs_threads]; rewrite length_insert; (split; [done|]);
    unfold costs; cbn [rs_ring rs_threads];
    match goal with |- context [<[_ := ?p]> _] =>
      pose proof (sum_insert (cost w (ring_head r) (ring_tail r)) ths t p RcIdle Ht) as E end; cbn [cost] in E; lia.
  destruct (ring_push_step r t pc sp) as [[[r' pc'] ev1]|] eqn:E1.
  - injection Hs as <- <-. cbn [rs_threads]. rewrite length_insert. split; [done|].
    pose proof (push_costs cap hd tl ps r ths t pc I Ht Hb sp r' pc' ev1 E1). subst w; cbn [rs_threads]; destruct sp; lia.
  - destruct (ring_pop_step r t pc sp) as [[[r' pc'] ev1]|] eqn:E2; [|done].
    injection Hs as <- <-. cbn [rs_threads]. rewrite length_insert. split; [done|].
    pose proof (pop_costs cap hd tl ps r ths t pc I Ht Hb sp r' pc' ev1 E2). subst w; cbn [rs_threads]; destruct sp; lia.
Qed.

Lemma free_run k arena n sched s es :
  1 ≤ k ≤ 61 → Z.of_nat (length sched) < 2 ^ 62 →
  traced ring_step (ring_start k arena n) sched = Some (s, es) →
  length (rs_threads s) = n ∧
  (length sched - count is_call sched + costs (2 * n) s ≤
     (5 + 2 * n) * count is_call sched + 2 * count is_spurious sched)%nat.
Proof.
  intros Hk. revert s es. induction sched as [|l sched IH] using rev_ind; intros s es Hlen Hr.
  { cbn in Hr. injection Hr as <- <-. cbn [rs_threads ring_start]. rewrite length_replicate. split; [done|].
    assert (E : ∀ w m, sum_list_with (cost w 0 0) (replicate m RcIdle) = 0%nat) by (intros w; by induction m).
    unfold costs. cbn [ring_start rs_ring rs_threads ring_head ring_tail]. rewrite E. cbn. lia. }
  rewrite length_app in Hlen. rewrite traced_app in Hr.
  destruct (traced ring_step (ring_start k arena n) sched) as [[s1 es1]|] eqn:E; [|done]. cbn [traced] in Hr.
  destruct (ring_step s1 l) as [[s2 es2]|] eqn:Hs; [|done]. injection Hr as <- <-.
  destruct (IH s1 es1) as [Hn H]; [lia|done|].
  destruct (conc_run k arena n sched s1 es1 Hk ltac:(lia) E) as (hd & tl & Hhd & I & _).
  destruct (step_costs _ _ _ _ _ _ _ _ I ltac:(lia) Hs) as [Hn' Hc]. rewrite Hn in *. split; [congruence|].
  rewrite !count_snoc, length_app. cbn [length].
  assert (Hle : (count is_call sched ≤ length sched)%nat) by apply length_filter.
  destruct (is_call l), (is_spurious l); lia.
Qed.

(** ** Properties *)

(** C13. The ring is lock-free, with a bound.  In every interleaving of pushes and pops
    by [n] threads (fewer than 2^62 steps, capacity 2..2^61), the accesses the calls
    have made are no more than 5 and twice the number of threads for each call begun,
    and two for each access at which the compare-and-swap was to fail spuriously.  So
    however the threads are scheduled, calls keep returning. *)
Theorem ring_lock_free k arena n sched s es :
  1 ≤ k ≤ 61 → Z.of_nat (length sched) < 2 ^ 62 →
  traced ring_step (ring_start k arena n) sched = Some (s, es) →
  (length sched - count is_call sched ≤ (5 + 2 * n) * count is_call sched + 2 * count is_spurious sched)%nat.
Proof.
  intros Hk Hlen Hr. destruct (free_run k arena n sched s es Hk Hlen Hr) as [_ H]. lia.
Qed.

(** Two producers race for position 0 and a consumer pops: 16 accesses, where 44 are
    allowed. *)
Lemma ring_lock_free_witness :
  match traced ring_step (ring_start 1 None 3) demo_ring_sched with
  | Some _ => (length demo_ring_sched - count is_call demo_ring_sched = 16 ∧ 16 ≤ (5 + 2 * 3) * 4 + 2 * 0)%nat
  | None => False
  end.
Proof.
  destruct (traced _ _ _) as [[s es]|] eqn:E; [|by vm_compute in E].
  split; [done|]. exact (ring_lock_free 1 None 3 demo_ring_sched s es ltac:(lia) ltac:(done) E).
Defined.
