(* ===== verification/RingItems.v ===== *)
(** * Where the items of a shared ring are
    (include/numakit/structs/ring_buffer.h)

    The ring used as a free-list: at every moment each item is in the ring, in the
    hands of a thread inside push or pop, or outside.  No step makes one or loses
    one, but a refused push leaves its item to the caller.  [RingConc]'s start is
    an empty ring; here also one that was filled by its creator. *)

From stdpp Require Import prelude.
From Stdlib Require Import ZArith Lia.
From S2P Require Import Prelude Words Arena Ring RingConc.
Local Open Scope Z_scope.
Local Open Scope word_scope.

(** ** Counting items *)

(** What a thread holds inside a call: a producer its item until it has claimed a
    position, a consumer the item of the position it claimed. *)
Definition hold (ps : list Z) (pc : ring_pc) : list Z :=
  match pc with
  | RcPushStart x | RcPushSeq _ x | RcPushCas _ x | RcPopCommit _ x => [x]
  | RcPopRead u => option_list (ps !! Z.to_nat u)
  | _ => []
  end.

Definition ring_items (ps : list Z) (s : ring_state) : list Z :=
  drop (Z.to_nat (ring_tail (rs_ring s))) ps ++ holdings (hold ps) (rs_threads s).

(** The item a call brings in. *)
Definition brought (l : ring_label) : list Z := match l with RcPush _ x => [x] | _ => [] end.

(** The items that leave: taken by a pop that returns, or left to the caller of a
    push that is refused. *)
Definition leaving (s : ring_state) (l : ring_label) (ev : list ring_event) : list Z :=
  match l, ev with
  | RcAdvance _ _, [Taken _ x] => [x]
  | RcAdvance t _, [Full _] => default [] (hold [] <$> rs_threads s !! t)
  | _, _ => []
  end.

Section items.
Context (cap hd tl : Z) (ps : list Z) (s : ring_state).
Hypothesis I : ring_inv cap hd tl ps s.

(** Later claims do not change what is held. *)
Lemma hold_more x t pc : rs_threads s !! t = Some pc → hold (ps ++ [x]) pc = hold ps pc.
Proof.
  intros Ht. pose proof (rv_threads _ _ _ _ _ I t pc Ht) as Hok. pose proof (rv_order _ _ _ _ _ I).
  pose proof (rv_items _ _ _ _ _ I). destruct pc; cbn in *; try done. rewrite lookup_app_l by lia. done.
Qed.

End items.

(** A thread moves and the ring's tail stays. *)
Lemma items_move ps r r' ths t pc pc' :
  ring_tail r' = ring_tail r → ths !! t = Some pc →
  hold ps pc ++ ring_items ps (mk_rs r' (<[t := pc']> ths)) ≡ₚ hold ps pc' ++ ring_items ps (mk_rs r ths).
Proof.
  intros Et Ht. unfold ring_items. cbn [rs_ring rs_threads]. rewrite Et. pose proof (holdings_insert (hold ps) ths t pc' pc Ht). count_perm.
Qed.

(** The steps of push and of pop, one thread at [pc]. *)
Section step_items.
Context (cap hd tl : Z) (ps : list Z) (r : nkit_ring_t) (ths : list ring_pc) (t : nat) (pc : ring_pc).
Hypothesis I : ring_inv cap hd tl ps (mk_rs r ths).
Hypothesis Ht : ths !! t = Some pc.

Lemma push_items sp r' pc' ev :
  ring_push_step r t pc sp = Some (r', pc', ev) →
  ring_items ps (mk_rs r ths) ≡ₚ
    ring_items (ps ++ claims ev) (mk_rs r' (<[t := pc']> ths)) ++ leaving (mk_rs r ths) (RcAdvance t sp) ev.
Proof.
  intros Hs. pose proof (rv_order _ _ _ _ _ I) as Hord. pose proof (rv_items _ _ _ _ _ I) as Hlen.
  pose proof (rv_tail _ _ _ _ _ I) as Htl. cbn [rs_ring] in Htl.
  assert (Hmv : ∀ r' pc' ev, claims ev = [] → ring_tail r' = ring_tail r →
    leaving (mk_rs r ths) (RcAdvance t sp) ev ++ hold ps pc' ≡ₚ hold ps pc →
    ring_items ps (mk_rs r ths) ≡ₚ
      ring_items (ps ++ claims ev) (mk_rs r' (<[t := pc']> ths)) ++ leaving (mk_rs r ths) (RcAdvance t sp) ev).
  { intros r1 pc1 ev1 Hc E H. rewrite Hc, app_nil_r. pose proof (items_move ps r r1 ths t pc pc1 E Ht) as P. count_perm. }
  destruct pc as [|x|h x|h x|h x|h| |u|u|u|u x]; cbn [ring_push_step] in Hs; try done.
  - injection Hs as <- <- <-. by apply Hmv.
  - destruct (ring_cells r !! _) as [c|]; [|done]. destruct (_ =? 0); [|destruct (_ <? 0)]; injection Hs as <- <- <-; apply Hmv; try done.
    cbn [leaving rs_threads]. by rewrite Ht.
  - destruct ((ring_head r =? h) && negb sp); injection Hs as <- <- <-; [|by apply Hmv].
    cbn [leaving]. change (claims [Claim x]) with [x]. unfold ring_items. cbn [rs_ring rs_threads with_head ring_tail].
    assert (E : holdings (hold (ps ++ [x])) (<[t := RcPushWrite h x]> ths) = holdings (hold ps) (<[t := RcPushWrite h x]> ths)).
    { unfold holdings. assert (Hall : Forall (λ pc, hold (ps ++ [x]) pc = hold ps pc) (<[t := RcPushWrite h x]> ths)).
      { apply Forall_lookup. apply (forall_insert (λ _ pc, hold (ps ++ [x]) pc = hold ps pc)); [done|].
        intros j y _ Hj. by apply (hold_more _ _ _ _ _ I x j). }
      clear -Hall. induction Hall as [|q l E _ IH]; [done|]. by rewrite !bind_cons, E, IH. }
    rewrite E, drop_app_le by lia. pose proof (holdings_insert (hold ps) ths t (RcPushWrite h x) _ Ht) as P.
    cbn [hold] in P. count_perm.
  - destruct (ring_cells r !! _) as [c|]; [|done]. injection Hs as <- <- <-. by apply Hmv.
  - destruct (ring_cells r !! _) as [c|]; [|done]. injection Hs as <- <- <-. by apply Hmv.
Qed.

Lemma pop_items sp r' pc' ev :
  tl + 1 < 2 ^ 64 → ring_pop_step r t pc sp = Some (r', pc', ev) →
  (∀ u x, pc' = RcPopCommit u x → item_at ps u x) →
  ring_items ps (mk_rs r ths) ≡ₚ
    ring_items ps (mk_rs r' (<[t := pc']> ths)) ++ leaving (mk_rs r ths) (RcAdvance t sp) ev ∧ claims ev = [].
Proof.
  intros Hb Hs Hit. pose proof (rv_order _ _ _ _ _ I) as Hord. pose proof (rv_items _ _ _ _ _ I) as Hlen.
  pose proof (rv_tail _ _ _ _ _ I) as Htl. cbn [rs_ring] in Htl. pose proof (rv_threads _ _ _ _ _ I t pc Ht) as Hok.
  assert (Hmv : ∀ r' pc' ev, ring_tail r' = ring_tail r →
    leaving (mk_rs r ths) (RcAdvance t sp) ev ++ hold ps pc' ≡ₚ hold ps pc → claims ev = [] →
    ring_items ps (mk_rs r ths) ≡ₚ
      ring_items ps (mk_rs r' (<[t := pc']> ths)) ++ leaving (mk_rs r ths) (RcAdvance t sp) ev ∧ claims ev = []).
  { intros r1 pc1 ev1 E H Hc. split; [|done]. pose proof (items_move ps r r1 ths t pc pc1 E Ht) as P. count_perm. }
  destruct pc as [|x|h x|h x|h x|h| |u|u|u|u x]; cbn [ring_pop_step] in Hs; try done.
  - injection Hs as <- <- <-. by apply Hmv.
  - destruct (ring_cells r !! _) as [c|]; [|done]. destruct (_ =? 0); [|destruct (_ <? 0)]; injection Hs as <- <- <-; by apply Hmv.
  - destruct (Z.eqb_spec (ring_tail r) u) as [Eu|]; destruct sp; cbn [andb negb] in Hs; injection Hs as <- <- <-; try by apply Hmv.
    split; [|done]. cbn [leaving]. unfold ring_items. cbn [rs_ring rs_threads with_tail ring_tail].
    destruct Hok as [Hu Hr]. destruct Hr as [Hlt _]; [lia|]. rewrite u64_small by (unfold is_u64; lia).
    destruct (lookup_lt_is_Some_2 ps (Z.to_nat u)) as [x Hx]; [lia|]. rewrite Eu, (drop_S _ x _ Hx).
    replace (Z.to_nat (u + 1)) with (S (Z.to_nat u)) by lia.
    pose proof (holdings_insert (hold ps) ths t (RcPopRead u) _ Ht) as P. cbn [hold] in P. rewrite Hx in P.
    change (option_list (Some x)) with [x] in P. change (x :: drop (S (Z.to_nat u)) ps) with ([x] ++ drop (S (Z.to_nat u)) ps). count_perm.
  - destruct (ring_cells r !! _) as [c|]; [|done]. injection Hs as <- <- <-. apply Hmv; try done.
    destruct (Hit u (cell_data c)) as [_ Hx]; [done|]. cbn [leaving hold]. by rewrite Hx.
  - destruct (ring_cells r !! _) as [c|]; [|done]. injection Hs as <- <- <-. by apply Hmv.
Qed.
End step_items.

Lemma ring_step_items cap n es s l s' ev :
  Z.of_nat (S n) < 2 ^ 62 → conc_inv cap n es s → ring_step s l = Some (s', ev) →
  ring_items (claims es) s ++ brought l ≡ₚ ring_items (claims (es ++ ev)) s' ++ leaving s l ev.
Proof.
  intros Hn Inv Hs. pose proof (conc_inv_step _ _ _ _ _ _ _ Inv Hs Hn) as (hd' & tl' & _ & I' & _).
  destruct Inv as (hd & tl & Hhd & I & _); [lia|].
  assert (Ec : claims (es ++ ev) = claims es ++ claims ev) by (apply omap_app). rewrite Ec in *.
  destruct s as [r ths]. destruct l as [t x|t|t sp]; cbn [ring_step rs_threads rs_ring] in Hs;
    destruct (ths !! t) as [pc|] eqn:Ht; try done.
  - destruct pc; try done. injection Hs as <- <-. cbn [brought leaving]. change (claims []) with (@nil Z). rewrite !app_nil_r.
    pose proof (items_move (claims es) r r ths t RcIdle (RcPushStart x) eq_refl Ht) as P. cbn [hold] in P. count_perm.
  - destruct pc; try done. injection Hs as <- <-. cbn [brought leaving]. change (claims []) with (@nil Z). rewrite !app_nil_r.
    pose proof (items_move (claims es) r r ths t RcIdle RcPopStart eq_refl Ht) as P. cbn [hold] in P. count_perm.
  - cbn [brought]. rewrite app_nil_r. destruct (ring_push_step r t pc sp) as [[[r' pc'] ev1]|] eqn:E1.
    + injection Hs as <- <-. by apply (push_items cap hd tl _ r ths t pc I Ht).
    + destruct (ring_pop_step r t pc sp) as [[[r' pc'] ev1]|] eqn:E2; [|done]. injection Hs as <- <-.
      pose proof (rv_order _ _ _ _ _ I).
      destruct (pop_items cap hd tl (claims es) r ths t pc I Ht sp r' pc' ev1) as [P Hc]; [lia|done| |].
      * intros u x ->. assert (Hc : claims ev1 = []) by (destruct pc; cbn in E2; repeat case_match; by simplify_eq).
        rewrite Hc, app_nil_r in I'. destruct (rv_threads _ _ _ _ _ I' t (RcPopCommit u x)) as [_ ?]; [|done].
        cbn. apply list_lookup_insert_eq. by eapply lookup_lt_Some.
      * by rewrite Hc, app_nil_r.
Qed.

(** ** Calls of one thread *)

Definition in_pop (pc : ring_pc) : Prop :=
  match pc with RcPopStart | RcPopSeq _ | RcPopCas _ | RcPopRead _ | RcPopCommit _ _ => True | _ => False end.

Definition in_push (x : Z) (pc : ring_pc) : Prop :=
  match pc with
  | RcPushStart y | RcPushSeq _ y | RcPushCas _ y | RcPushWrite _ y => y = x
  | RcPushCommit _ => True
  | _ => False
  end.

(** What a pop's next access does: it goes on, or it returns. *)
Lemma pop_advances rs t pc sp rs' ev :
  rs_threads rs !! t = Some pc → in_pop pc → ring_step rs (RcAdvance t sp) = Some (rs', ev) →
  ∃ pc', rs_threads rs' = <[t := pc']> (rs_threads rs) ∧
    ((in_pop pc' ∧ ev = []) ∨ (pc' = RcIdle ∧ ((∃ u x, ev = [Taken u x]) ∨ ev = [Empty t]))).
Proof.
  intros Ht Hpc Hs. cbn [ring_step] in Hs. rewrite Ht in Hs.
  destruct pc; cbn in Hpc; try done; cbn in Hs; repeat case_match; simplify_eq; cbn [rs_threads];
    eexists; (split; [done|]); first [left; by split|right; split; [done|]; eauto].
Qed.

Lemma push_advances rs t x pc sp rs' ev :
  rs_threads rs !! t = Some pc → in_push x pc → ring_step rs (RcAdvance t sp) = Some (rs', ev) →
  ∃ pc', rs_threads rs' = <[t := pc']> (rs_threads rs) ∧
    ((in_push x pc' ∧ leaving rs (RcAdvance t sp) ev = [] ∧ (ev = [] ∨ ev = [Claim x])) ∨
     (pc' = RcIdle ∧ ((ev = [] ∧ leaving rs (RcAdvance t sp) ev = []) ∨
                      (ev = [Full t] ∧ leaving rs (RcAdvance t sp) ev = [x])))).
Proof.
  intros Ht Hpc Hs. cbn [ring_step leaving] in *. rewrite Ht in *.
  destruct pc; cbn in Hpc; try done; cbn in Hs; repeat case_match; simplify_eq; cbn [rs_threads];
    eexists; (split; [done|]); first [left; split_and!; try done; first [by left|by right]|right; split; [done|]; first [by left|by right]].
Qed.

(** ** One consumer *)

(** Items come out in the order of their positions. *)
Definition in_order (es : list ring_event) : Prop := (takes es).*1 = seqZ 0 (Z.of_nat (length (takes es))).

(** With one consumer inside a pop, its position is the next one. *)
Lemma next_in_order tl ps ths es p x :
  takes_ok tl ps ths es → in_order es → (∀ q, popping ths q → q = p) → popping ths p → 0 ≤ p < tl →
  in_order (es ++ [Taken p x]).
Proof.
  intros [_ Hi _ Ha] Ho Hone Hp Hr. unfold in_order in *.
  assert (Et : takes (es ++ [Taken p x]) = takes es ++ [(p, x)]) by (unfold takes; by rewrite omap_app).
  assert (Hnot : p ∉ (takes es).*1) by (intros ([q y] & -> & Hq)%list_elem_of_fmap; by destruct (Hi q y Hq) as (_ & _ & ?)).
  assert (p = Z.of_nat (length (takes es))) as ->.
  { rewrite Ho, elem_of_seqZ in Hnot. destruct (decide (p = Z.of_nat (length (takes es)))) as [|Hne]; [done|]. exfalso.
    destruct (Ha (Z.of_nat (length (takes es)))) as [Hq|Hq]; [lia| |].
    - apply Hone in Hq. lia.
    - rewrite Ho, elem_of_seqZ in Hq. lia. }
  rewrite Et, fmap_app, Ho, length_app, Nat2Z.inj_add. cbn [length]. rewrite seqZ_app by lia. done.
Qed.

(** What came out is a prefix of what went in. *)
Lemma in_order_prefix tl ps ths es :
  takes_ok tl ps ths es → in_order es → (takes es).*2 = take (length (takes es)) ps.
Proof.
  intros [_ Hi _ _] Ho. apply list_eq. intros j. destruct (decide (j < length (takes es))%nat) as [Hj|Hj].
  - destruct (lookup_lt_is_Some_2 (takes es) j Hj) as [[p x] E]. rewrite list_lookup_fmap, E, lookup_take_lt by done. cbn.
    destruct (Hi p x) as [[Hp Hx] _]; [by eapply list_elem_of_lookup_2|]. unfold in_order in Ho.
    assert (Hpj : (takes es).*1 !! j = Some p) by (by rewrite list_lookup_fmap, E). rewrite Ho, lookup_seqZ in Hpj.
    destruct Hpj as [Ep _]. replace (Z.to_nat p) with j in Hx by lia. done.
  - rewrite !lookup_ge_None_2; [done| |]; rewrite ?length_fmap, ?length_take; lia.
Qed.

(** ** A ring its creator has filled *)

Definition filled (q : list Z) : list ring_event := Claim <$> q.

Lemma claims_filled q : claims (filled q) = q ∧ takes (filled q) = [].
Proof. unfold filled. induction q as [|x q [IH1 IH2]]; [done|]. cbn. split; [f_equal; apply IH1|apply IH2]. Qed.

(** A counter that reads 0 may be taken to be 0. *)
Lemma ring_at_zero T r q : ring_at T r q → ring_tail r = 0 → ring_at 0 r q.
Proof.
  intros [Hp Hm Hl Hro Ht Hh Hc] E. rewrite E in Ht. symmetry in Ht. unfold u64 in Ht.
  pose proof Hp as (k & Hk & Ecap). apply Z.mod_divide in Ht as [z Hz]; [|lia].
  assert (Hmod : ∀ i, (T + i) mod ring_capacity r = (0 + i) mod ring_capacity r).
  { intros i. rewrite Hz, Ecap. replace 64 with (64 - k + k) by lia. rewrite Z.pow_add_r by lia.
    rewrite Z.mul_assoc, Z.add_comm, Z_mod_plus_full. done. }
  assert (Hw : ∀ i, u64 (T + i) = u64 (0 + i)).
  { intros i. unfold u64. rewrite Hz, Z.add_comm, Z_mod_plus_full. done. }
  split; auto.
  - rewrite Hh. apply Hw.
  - intros i Hi. destruct (Hc i Hi) as (c & Hx & Hf). exists c. rewrite <-Hmod. split; [done|]. unfold cell_for in *.
    destruct (q !! Z.to_nat i).
    + replace (0 + i + 1) with (0 + (i + 1)) by lia. rewrite <-Hw. by replace (T + (i + 1)) with (T + i + 1) by lia.
    + by rewrite <-Hw.
Qed.

Lemma filled_inv k r q n :
  1 ≤ k ≤ 61 → ring_capacity r = 2 ^ k → ring_at 0 r q →
  ring_inv (2 ^ k) (Z.of_nat (length q)) 0 q (mk_rs r (replicate n RcIdle)).
Proof.
  intros Hk Ecap [_ Hm Hl Hro Ht Hh Hc]. rewrite Ecap in *.
  assert (Hcap : 2 ^ k ≤ 2 ^ 61) by (apply Z.pow_le_mono_r; lia).
  assert (Hidle : ∀ t pc, replicate n RcIdle !! t = Some pc → pc = RcIdle) by (by intros t pc [-> _]%lookup_replicate).
  assert (Hnone : ∀ f p, f RcIdle = None → ¬ claiming f (replicate n RcIdle) p)
    by (intros f p Hf (t & pc & Hpc & E); by rewrite (Hidle t pc Hpc), Hf in E).
  split; cbn [rs_ring rs_threads]; try done.
  - by exists k.
  - rewrite Hh. rewrite u64_small by (unfold is_u64; lia). lia.
  - lia.
  - intros p Hp. destruct (Z.lt_ge_cases p 0) as [Hneg|Hpos].
    + destruct (Hc (p + 2 ^ k)) as (c & Hx & Hf); [lia|]. exists c. split.
      * rewrite <-Hx. do 2 f_equal. replace (0 + (p + 2 ^ k)) with (p + 1 * 2 ^ k) by lia. by rewrite Z_mod_plus_full.
      * apply ph_fresh; [done|]. unfold cell_for in Hf. rewrite lookup_ge_None_2 in Hf by lia. rewrite Hf.
        apply u64_small. unfold is_u64. lia.
    + destruct (Hc p) as (c & Hx & Hf); [lia|]. rewrite Z.add_0_l in Hx. exists c. split; [done|].
      unfold cell_for in Hf. destruct (lookup_lt_is_Some_2 q (Z.to_nat p)) as [x Hq]; [lia|]. rewrite Hq in Hf.
      destruct Hf as [Hs <-]. apply ph_ready; [lia| |by split|by apply Hnone].
      rewrite Hs. apply u64_small. unfold is_u64. lia.
  - intros t pc Hpc. by rewrite (Hidle t pc Hpc).
  - intros t1 t2 pc1 pc2 p H1 H2 F1. by rewrite (Hidle t1 pc1 H1) in F1.
  - intros t1 t2 pc1 pc2 p H1 H2 F1. by rewrite (Hidle t1 pc1 H1) in F1.
Qed.

Lemma filled_conc k r q n m :
  1 ≤ k ≤ 61 → ring_capacity r = 2 ^ k → ring_at 0 r q → (length q ≤ m)%nat →
  conc_inv (2 ^ k) m (filled q) (mk_rs r (replicate n RcIdle)) ∧
  ring_items (claims (filled q)) (mk_rs r (replicate n RcIdle)) = q.
Proof.
  intros Hk Ecap Hr Hm. destruct (claims_filled q) as [Ec Et]. rewrite Ec. split.
  - intros _. exists (Z.of_nat (length q)), 0. rewrite Ec. split; [lia|]. split; [by apply filled_inv|].
    split; rewrite ?Et; try done; [by intros p x Hx%not_elem_of_nil|constructor|lia].
  - unfold ring_items. cbn [rs_ring rs_threads]. rewrite (ring_at_tail _ _ _ Hr). cbn.
    by rewrite holdings_replicate, app_nil_r.
Qed.

(** ** A ring as a free-list *)

(** The items [all] are the ring's, in the hands of its callers, or [out].  [n]
    counts the items the ring was filled with and the steps since. *)
Definition free_list (cap : Z) (all : list Z) (n : nat) (rs : ring_state) (out : list Z) : Prop :=
  Z.of_nat n < 2 ^ 62 → ∃ es, conc_inv cap n es rs ∧ ring_items (claims es) rs ++ out ≡ₚ all.

Lemma free_list_start k r q all n m :
  1 ≤ k ≤ 61 → ring_capacity r = 2 ^ k → ring_at 0 r q → (length q ≤ m)%nat → q ≡ₚ all →
  free_list (2 ^ k) all m (mk_rs r (replicate n RcIdle)) [].
Proof.
  intros Hk Ecap Hr Hm P _. destruct (filled_conc k r q n m Hk Ecap Hr Hm) as [Hc Hi].
  exists (filled q). split; [exact Hc|]. by rewrite Hi, app_nil_r.
Qed.

(** A step of the ring: what its caller gets and gives. *)
Lemma free_list_step cap all n rs out l rs' ev out' :
  free_list cap all n rs out → ring_step rs l = Some (rs', ev) →
  out ++ leaving rs l ev ≡ₚ out' ++ brought l → free_list cap all (S n) rs' out'.
Proof.
  intros F Hs Ho Hn. destruct F as (es & Inv & P); [lia|]. exists (es ++ ev). split; [by eapply conc_inv_step|].
  pose proof (ring_step_items cap n es rs l rs' ev Hn Inv Hs) as Pi. count_perm.
Qed.

(** Other steps, which leave this ring alone. *)
Lemma free_list_keep cap all n n' rs out out' :
  free_list cap all n rs out → (n ≤ n')%nat → out ≡ₚ out' → free_list cap all n' rs out'.
Proof.
  intros F Hn Ho Hb. destruct F as (es & Inv & P); [lia|]. exists es. split; [|by rewrite <-Ho].
  intros _. destruct Inv as (hd & tl & ? & ?); [lia|]. exists hd, tl. split; [lia|done].
Qed.

Lemma free_list_inv cap all n rs out :
  free_list cap all n rs out → Z.of_nat n < 2 ^ 62 →
  ∃ hd tl ps, hd ≤ Z.of_nat n ∧ ring_inv cap hd tl ps rs ∧ ring_items ps rs ++ out ≡ₚ all.
Proof.
  intros F Hn. destruct (F Hn) as (es & Inv & P). destruct (Inv Hn) as (hd & tl & ? & ? & _). by exists hd, tl, (claims es).
Qed.

(** A thread inside a call always has a next access. *)
Lemma free_list_enabled cap all n rs out t pc sp :
  free_list cap all n rs out → Z.of_nat n < 2 ^ 62 → rs_threads rs !! t = Some pc → pc ≠ RcIdle →
  is_Some (ring_step rs (RcAdvance t sp)).
Proof.
  intros F Hn Ht Hpc. destruct (free_list_inv _ _ _ _ _ F Hn) as (hd & tl & ps & _ & I & _).
  by apply (ring_enabled cap hd tl ps rs t pc).
Qed.

(** With nobody inside a call the ring has the rest. *)
Lemma free_list_quiet cap all n rs out :
  free_list cap all n rs out → Z.of_nat n < 2 ^ 62 → (∀ t pc, rs_threads rs !! t = Some pc → pc = RcIdle) →
  0 ≤ ring_tail (rs_ring rs) ≤ ring_head (rs_ring rs) ∧ ring_head (rs_ring rs) < 2 ^ 62 ∧
  ring_head (rs_ring rs) - ring_tail (rs_ring rs) = Z.of_nat (length all) - Z.of_nat (length out).
Proof.
  intros F Hn Hidle. destruct (free_list_inv _ _ _ _ _ F Hn) as (hd & tl & ps & Hhd & I & P).
  apply Permutation_length in P. unfold ring_items in P. rewrite !length_app, length_drop in P.
  rewrite (holdings_none _ (rs_threads rs)) in P.
  2:{ intros pc [t Ht]%list_elem_of_lookup. by rewrite (Hidle t pc Ht). }
  pose proof (rv_order _ _ _ _ _ I). pose proof (rv_items _ _ _ _ _ I) as Hps. cbn [length] in P.
  rewrite (rv_head _ _ _ _ _ I), (rv_tail _ _ _ _ _ I) in *. lia.
Qed.

(** What is out is part of [all]. *)
Lemma free_list_out cap all n rs out :
  free_list cap all n rs out → Z.of_nat n < 2 ^ 62 → NoDup all → NoDup out ∧ ∀ p, p ∈ out → p ∈ all.
Proof.
  intros F Hn Hnd. destruct (free_list_inv _ _ _ _ _ F Hn) as (hd & tl & ps & _ & _ & P). rewrite <-P in Hnd.
  apply NoDup_app in Hnd as (_ & _ & Hnd). split; [done|]. intros p Hp. rewrite <-P. apply elem_of_app. by right.
Qed.

(** ** At every moment, and at rest *)

(** A thread that has an item in hand. *)
Definition carrying (pc : ring_pc) : bool :=
  match pc with
  | RcPushStart _ | RcPushSeq _ _ | RcPushCas _ _ | RcPopRead _ | RcPopCommit _ _ => true
  | _ => false
  end.

(** The items are on the ring, in the hands of a thread inside a call, one each, or
    out. *)
Lemma free_list_places cap all n rs out :
  free_list cap all n rs out → Z.of_nat n < 2 ^ 62 →
  ∃ waiting inside, waiting ++ inside ++ out ≡ₚ all ∧
    Z.of_nat (length waiting) = ring_head (rs_ring rs) - ring_tail (rs_ring rs) ∧
    length inside = length (filter (λ pc, carrying pc = true) (rs_threads rs)).
Proof.
  intros F Hn. destruct (free_list_inv _ _ _ _ _ F Hn) as (hd & tl & ps & Hhd & I & P).
  pose proof (rv_order _ _ _ _ _ I). pose proof (rv_items _ _ _ _ _ I) as Hps.
  exists (drop (Z.to_nat (ring_tail (rs_ring rs))) ps), (holdings (hold ps) (rs_threads rs)).
  split; [unfold ring_items in P; by rewrite <-app_assoc in P|].
  rewrite length_drop, (rv_head _ _ _ _ _ I), (rv_tail _ _ _ _ _ I). split; [lia|].
  assert (Hlen : Forall (λ pc, length (hold ps pc) = if carrying pc then 1%nat else 0%nat) (rs_threads rs)).
  { apply Forall_lookup. intros t pc Ht. pose proof (rv_threads _ _ _ _ _ I t pc Ht) as Hok. destruct pc; cbn in *; try done.
    destruct (lookup_lt_is_Some_2 ps (Z.to_nat tail)) as [x ->]; [lia|done]. }
  clear -Hlen. induction Hlen as [|pc l E _ IH]; [done|]. unfold holdings in *.
  rewrite bind_cons, length_app, E, IH, filter_cons. by destruct (carrying pc).
Qed.

(** A ring nobody is at is the sequential ring of [Ring]. *)
Lemma idle_ring_at cap hd tl ps rs :
  ring_inv cap hd tl ps rs → hd < 2 ^ 62 → (∀ t pc, rs_threads rs !! t = Some pc → pc = RcIdle) →
  ring_capacity (rs_ring rs) = cap → ring_at tl (rs_ring rs) (drop (Z.to_nat tl) ps).
Proof.
  intros I Hhd Hidle Hcap. pose proof (rv_order _ _ _ _ _ I) as Hord. pose proof (rv_items _ _ _ _ _ I) as Hps.
  destruct (rv_cap _ _ _ _ _ I) as (k & Hk & Ek). assert (Hc61 : cap ≤ 2 ^ 61) by (rewrite Ek; apply Z.pow_le_mono_r; lia).
  assert (Hnone : ∀ f p, f RcIdle = None → ¬ claiming f (rs_threads rs) p)
    by (intros f p Hf (t & pc & Hpc & E); by rewrite (Hidle t pc Hpc), Hf in E).
  assert (Hlen : Z.of_nat (length (drop (Z.to_nat tl) ps)) = hd - tl) by (rewrite length_drop; lia).
  split; rewrite ?Hcap, ?Hlen, ?(rv_tail _ _ _ _ _ I), ?(rv_head _ _ _ _ _ I); try apply I.
  - exists k. split; [lia|done].
  - lia.
  - symmetry. apply u64_small. unfold is_u64. lia.
  - symmetry. rewrite u64_small by (unfold is_u64; lia). lia.
  - intros i Hi. unfold cell_for. rewrite lookup_drop. destruct (Z.lt_ge_cases i (hd - tl)) as [Hlt|Hge].
    + destruct (rv_cells _ _ _ _ _ I (tl + i)) as (c & Hx & Hph); [lia|]. exists c. split; [done|].
      destruct Hph as [?|? ? ? Hp|? Hs [_ Hit] _|?|?]; [lia|by apply Hnone in Hp| |lia|lia].
      replace (Z.to_nat tl + Z.to_nat i)%nat with (Z.to_nat (tl + i)) by lia. rewrite Hit. split; [|done].
      rewrite Hs. symmetry. apply u64_small. unfold is_u64. lia.
    + destruct (rv_cells _ _ _ _ _ I (tl + i - cap)) as (c & Hx & Hph); [lia|]. exists c. split.
      * rewrite <-Hx. do 2 f_equal. replace (tl + i) with (tl + i - cap + 1 * cap) at 1 by lia. by rewrite Z_mod_plus_full.
      * rewrite lookup_ge_None_2 by lia. rewrite u64_small by (unfold is_u64; lia).
        destruct Hph as [? Hs|?|?|? ? ? Hp|? ? Hs]; [lia|lia|lia|by apply Hnone in Hp|lia].
Qed.

Lemma free_list_rest cap all n rs out :
  free_list cap all n rs out → Z.of_nat n < 2 ^ 62 → (∀ t pc, rs_threads rs !! t = Some pc → pc = RcIdle) →
  ring_capacity (rs_ring rs) = cap → ∃ q, ring_rep (rs_ring rs) q ∧ q ++ out ≡ₚ all.
Proof.
  intros F Hn Hidle Hcap. destruct (free_list_inv _ _ _ _ _ F Hn) as (hd & tl & ps & Hhd & I & P).
  exists (drop (Z.to_nat tl) ps). split; [exists tl; apply (idle_ring_at cap hd); [done|lia|done..]|].
  unfold ring_items in P. rewrite (holdings_none _ (rs_threads rs)), app_nil_r, (rv_tail _ _ _ _ _ I) in P; [done|].
  intros pc [t Ht]%list_elem_of_lookup. by rewrite (Hidle t pc Ht).
Qed.

(** No access changes the capacity. *)
Lemma ring_step_capacity rs l rs' ev :
  ring_step rs l = Some (rs', ev) → ring_capacity (rs_ring rs') = ring_capacity (rs_ring rs).
Proof.
  intros Hs. destruct l as [t x|t|t sp]; cbn [ring_step] in Hs.
  1,2: repeat case_match; by simplify_eq.
  destruct (rs_threads rs !! t) as [pc|]; [|done]. destruct pc; cbn in Hs; repeat case_match; by simplify_eq.
Qed.

(** The thread whose push is refused was looking at a sequence number. *)
Lemma refused_pc rs t sp rs' ev pc v :
  ring_step rs (RcAdvance t sp) = Some (rs', ev) → rs_threads rs !! t = Some pc → Full v ∈ ev → ∃ h x, pc = RcPushSeq h x.
Proof.
  intros Hs Ht Hf. cbn [ring_step] in Hs. rewrite Ht in Hs.
  destruct (ring_push_step (rs_ring rs) t pc sp) as [[[r1 pc1] ev1]|] eqn:E1.
  - injection Hs as <- <-. destruct (push_step_refuses _ _ _ _ _ _ _ v E1) as [_ H]. destruct (H Hf) as (h & x & c & -> & _). eauto.
  - destruct (ring_pop_step (rs_ring rs) t pc sp) as [[[r1 pc1] ev1]|] eqn:E2; [|done]. injection Hs as <- <-.
    by destruct (pop_step_refuses _ _ _ _ _ _ _ v E2) as [H _].
Qed.

(** A push of one of the items is refused only while another thread's pop has claimed
    the oldest cell and not given it back; the ring has room then. *)
Lemma free_list_refuses cap all n rs out t sp rs' v (r := rs_ring rs) :
  free_list cap all n rs out → Z.of_nat n < 2 ^ 62 → Z.of_nat (length all) ≤ cap →
  ring_step rs (RcAdvance t sp) = Some (rs', [Full v]) →
  0 ≤ ring_head r - ring_tail r < cap ∧
  ∃ t' pc, t' ≠ t ∧ rs_threads rs !! t' = Some pc ∧ pop_claim pc = Some (ring_head r - cap).
Proof.
  intros F Hn Hall Hst. destruct (free_list_inv _ _ _ _ _ F Hn) as (hd & tl & ps & Hhd & I & P).
  pose proof (rv_order _ _ _ _ _ I) as Hord. pose proof (rv_items _ _ _ _ _ I) as Hps. subst r.
  rewrite (rv_head _ _ _ _ _ I), (rv_tail _ _ _ _ _ I).
  destruct (rs_threads rs !! t) as [pc|] eqn:Ht; [|cbn [ring_step] in Hst; by rewrite Ht in Hst].
  destruct (refused_pc _ _ _ _ _ _ _ Hst Ht ltac:(by left)) as (h & x & ->).
  destruct (ring_refusals _ hd tl _ _ (RcAdvance t sp) rs' [Full v] v ltac:(lia) I Hst) as [Hfull _].
  assert (Hroom : hd - tl < cap).
  { apply Permutation_length in P. unfold ring_items in P. rewrite !length_app, length_drop, (rv_tail _ _ _ _ _ I) in P.
    assert (Hin : x ∈ holdings (hold ps) (rs_threads rs)) by (apply elem_of_holdings; exists t, (RcPushSeq h x); split; [done|by left]).
    destruct (holdings _ (rs_threads rs)) as [|y ys]; [by apply not_elem_of_nil in Hin|]. cbn [length] in P. lia. }
  split; [lia|]. destruct Hfull as [?|(t' & pc' & Ht' & Hpc')]; [by left|lia|]. exists t', pc'. split; [|done].
  intros ->. rewrite Ht in Ht'. by injection Ht' as <-.
Qed.
