(* ===== verification/Slab.v ===== *)
(** * The slab allocator (src/memory/slab.c)

    Fixed-size objects carved from one arena; a bounded queue of slot pointers
    is the free-list.  Allocation and freeing are proved against the
    [BoundedQueue] interface, so against what the ring buffer promises; creation
    uses the ring itself. *)

From stdpp Require Import prelude.
From Stdlib Require Import ZArith Lia.
From S2P Require Import Prelude Words Arena Ring.
Local Open Scope Z_scope.
Local Open Scope word_scope.

(** ** Data *)

Record nkit_slab_t (Q : Type) := mk_slab {
  slab_arena : option nkit_arena_t;
  slab_freelist : Q;
  slab_base : Z;
  slab_obj_size : Z;
  slab_capacity : Z;
}.
Arguments mk_slab {Q}.
Arguments slab_arena {Q}.
Arguments slab_freelist {Q}.
Arguments slab_base {Q}.
Arguments slab_obj_size {Q}.
Arguments slab_capacity {Q}.

Definition SLAB_ALIGN : Z := 64.
Definition sizeof_nkit_slab_s : Z := 40.

(** ** Operations *)

Section operations.
Context {Q : Type} {BQ : BoundedQueue Q}.

Definition with_freelist (s : nkit_slab_t Q) (q : Q) : nkit_slab_t Q :=
  mk_slab (slab_arena s) q (slab_base s) (slab_obj_size s) (slab_capacity s).

(** The pointer returned and the slab; [None] only if the queue does not return. *)
Definition nkit_slab_alloc (slab : option (nkit_slab_t Q)) : option (Z * option (nkit_slab_t Q)) :=
  match slab with
  | None => Some (NULL, None)
  | Some s =>
      match bq_pop (slab_freelist s) with
      | Some (Some ptr, q) => Some (ptr, Some (with_freelist s q))
      | Some (None, q) => Some (NULL, Some (with_freelist s q))
      | None => None
      end
  end.

Definition nkit_slab_free (slab : option (nkit_slab_t Q)) (ptr : Z)
    : option (option (nkit_slab_t Q)) :=
  match slab with
  | None => Some None
  | Some s =>
      if ptr =? NULL then Some (Some s) else
      match bq_push (slab_freelist s) ptr with
      | Some (_, q) => Some (Some (with_freelist s q))
      | None => None
      end
  end.

(** The loop of step 7 of [nkit_slab_create], from slot [i] for [n] slots; the
    result of each push is ignored. *)
Fixpoint populate (q : Q) (base aligned i : Z) (n : nat) : option Q :=
  match n with
  | O => Some q
  | S n =>
      match bq_push q (base +w (i *w aligned)) with
      | Some (_, q) => populate q base aligned (i +w 1) n
      | None => None
      end
  end.

Definition nkit_slab_capacity (slab : option (nkit_slab_t Q)) : Z :=
  match slab with None => 0 | Some s => slab_capacity s end.
End operations.

(** The slab, and the calls that release its arena on a failing path.  [n] is
    the number of spurious compare-and-swap failures of each push. *)
Definition nkit_slab_create (n : nat) (os : arena_os) (node_id obj_size capacity : Z)
    : outcome (option (nkit_slab_t nkit_ring_t) * list os_call) :=
  if negb (valid_pow2_capacity capacity) then Ret (None, []) else
  if obj_size =? 0 then Ret (None, []) else
  let aligned := Z.land (obj_size +w (SLAB_ALIGN - 1)) (not64 (SLAB_ALIGN - 1)) in
  let data_bytes := aligned *w capacity in
  let total_bytes := sizeof_nkit_slab_s +w data_bytes in
  match nkit_arena_create os node_id total_bytes with
  | (None, _) => Ret (None, [])
  | (Some arena, _) =>
      match nkit_arena_alloc (Some arena) sizeof_nkit_slab_s with
      | (None, arena) => Ret (None, nkit_arena_destroy arena)
      | (Some slab, arena) =>
          match nkit_arena_alloc arena data_bytes with
          | (None, arena) => Ret (None, nkit_arena_destroy arena)
          | (Some base, arena) =>
              let* ring := nkit_ring_create os node_id capacity in
              match ring with
              | None => Ret (None, nkit_arena_destroy arena)
              | Some ring =>
                  match populate (BQ:=ring_queue n) ring base aligned 0 (Z.to_nat capacity) with
                  | Some ring => Ret (Some (mk_slab arena ring base aligned capacity), [])
                  | None => UB
                  end
              end
          end
      end
  end.

Definition nkit_slab_destroy (slab : option (nkit_slab_t nkit_ring_t)) : list os_call :=
  match slab with
  | None => []
  | Some s => nkit_ring_free (Some (slab_freelist s)) ++ nkit_arena_destroy (slab_arena s)
  end.

(** [head >= tail ? (head - tail) : 0], on the two numbers loaded. *)
Definition available (head tail : Z) : Z := if tail <=? head then head -w tail else 0.

Definition nkit_slab_available (slab : option (nkit_slab_t nkit_ring_t)) : Z :=
  match slab with
  | None => 0
  | Some s => available (ring_head (slab_freelist s)) (ring_tail (slab_freelist s))
  end.

(** ** Invariant *)

Definition slots (base size : Z) (n : nat) : list Z :=
  (λ i, base + Z.of_nat i * size) <$> seq 0 n.

Definition all_slots {Q} (s : nkit_slab_t Q) : list Z :=
  slots (slab_base s) (slab_obj_size s) (Z.to_nat (slab_capacity s)).

Section correctness.
Context {Q : Type} {BQ : BoundedQueue Q}.
Implicit Types (s : nkit_slab_t Q) (free live : list Z).

(** [free] is the free-list's contents, [live] the pointers handed out. *)
Record slab_ok s free live : Prop := {
  so_rep : bq_rep (slab_freelist s) free;
  so_cap : bq_cap (slab_freelist s) = slab_capacity s;
  so_perm : free ++ live ≡ₚ slots (slab_base s) (slab_obj_size s) (Z.to_nat (slab_capacity s));
  so_base : 0 < slab_base s ∧ (64 | slab_base s);
  so_size : 0 < slab_obj_size s ∧ (64 | slab_obj_size s);
  so_region : slab_base s + slab_obj_size s * slab_capacity s ≤ 2 ^ 63;
}.

Lemma slots_length base size n : length (slots base size n) = n.
Proof. unfold slots. by rewrite length_fmap, length_seq. Qed.

Lemma slots_elem base size n p :
  p ∈ slots base size n ↔ ∃ i, 0 ≤ i < Z.of_nat n ∧ p = base + i * size.
Proof.
  unfold slots. rewrite list_elem_of_fmap. split.
  - intros (i & -> & Hi). apply elem_of_seq in Hi. exists (Z.of_nat i). split; [lia|done].
  - intros (i & Hi & ->). exists (Z.to_nat i). rewrite Z2Nat.id by lia.
    split; [done|]. apply elem_of_seq. lia.
Qed.

Lemma slots_NoDup base size n : 0 < size → NoDup (slots base size n).
Proof.
  intros Hs. apply NoDup_fmap_2_strong; [|apply NoDup_seq].
  intros i j _ _ E. nia.
Qed.

Lemma slab_lengths s free live :
  slab_ok s free live → 0 ≤ slab_capacity s →
  Z.of_nat (length free) + Z.of_nat (length live) = slab_capacity s.
Proof.
  intros H Hc. pose proof (so_perm _ _ _ H) as Hp. apply Permutation_length in Hp.
  rewrite length_app, slots_length in Hp. lia.
Qed.

Lemma slab_cap_nonneg s free live : slab_ok s free live → 0 ≤ slab_capacity s.
Proof.
  intros H. rewrite <-(so_cap _ _ _ H). pose proof (bq_room _ _ (so_rep _ _ _ H)). lia.
Qed.

Lemma slab_ptr s free live p :
  slab_ok s free live → p ∈ free ++ live →
  slab_base s ≤ p ∧ p + slab_obj_size s ≤ slab_base s + slab_obj_size s * slab_capacity s ∧
  (64 | p).
Proof.
  intros H Hin. pose proof (slab_cap_nonneg _ _ _ H). destruct (so_base _ _ _ H) as [Hb [b Eb]].
  destruct (so_size _ _ _ H) as [Hs [z Ez]].
  rewrite (so_perm _ _ _ H), slots_elem in Hin. destruct Hin as (i & Hi & ->).
  split; [nia|]. split; [nia|]. exists (b + i * z). rewrite Eb, Ez at 1. lia.
Qed.

(** Distinct slots do not overlap. *)
Lemma slab_disjoint s free live p q :
  slab_ok s free live → p ∈ free ++ live → q ∈ free ++ live → p ≠ q →
  disjoint_blocks (p, slab_obj_size s) (q, slab_obj_size s).
Proof.
  intros H Hp Hq Hne. destruct (so_size _ _ _ H) as [Hs _].
  rewrite (so_perm _ _ _ H), slots_elem in Hp, Hq.
  destruct Hp as (i & Hi & ->), Hq as (j & Hj & ->). unfold disjoint_blocks. simpl.
  assert (i ≠ j) by congruence. destruct (Z.lt_ge_cases i j); [left|right]; nia.
Qed.

(** ** Allocation and freeing *)

Lemma slab_alloc_spec s free live :
  slab_ok s free live →
  match free with
  | [] => nkit_slab_alloc (Some s) = Some (NULL, Some s)
  | p :: free' => p ≠ NULL ∧
      ∃ s', nkit_slab_alloc (Some s) = Some (p, Some s') ∧ slab_ok s' free' (p :: live) ∧
            slab_obj_size s' = slab_obj_size s ∧ slab_base s' = slab_base s ∧
            slab_capacity s' = slab_capacity s
  end.
Proof.
  intros H. pose proof H as [Hr Hc Hp Hb Hs Hre]. unfold nkit_slab_alloc. destruct free as [|p free].
  - rewrite bq_pop_empty by done. by destruct s.
  - destruct (bq_pop_ok _ p free Hr) as (q & -> & Hr' & Hc').
    pose proof (slab_ptr s (p :: free) live p H ltac:(by left)) as Hptr.
    split; [unfold NULL; lia|]. eexists. split; [done|]. split; [|done].
    split; simpl; try done; [congruence|]. rewrite <-Hp. simpl. by rewrite Permutation_middle.
Qed.

Lemma slab_free_spec s free live live' p :
  slab_ok s free live → live ≡ₚ p :: live' →
  ∃ s', nkit_slab_free (Some s) p = Some (Some s') ∧ slab_ok s' (free ++ [p]) live' ∧
        slab_obj_size s' = slab_obj_size s ∧ slab_base s' = slab_base s ∧
        slab_capacity s' = slab_capacity s.
Proof.
  intros H Hl. pose proof H as [Hr Hc Hp Hb Hs Hre].
  pose proof (slab_lengths _ _ _ H (slab_cap_nonneg _ _ _ H)) as Hlen.
  assert (Hin : p ∈ free ++ live) by (rewrite Hl; apply elem_of_app; right; by left).
  pose proof (slab_ptr s free live p H Hin) as Hptr.
  rewrite Hl in Hlen. simpl in Hlen. unfold nkit_slab_free, NULL.
  rewrite (proj2 (Z.eqb_neq p 0)) by lia.
  destruct (bq_push_ok _ free p Hr) as (q & -> & Hr' & Hc'); [lia|].
  eexists. split; [done|]. split; [|done]. split; simpl; try done; [congruence|].
  rewrite <-Hp, Hl, <-app_assoc. done.
Qed.

(** ** Runs of a client *)

(** A client allocates, or frees the [i]-th pointer it holds. *)
Inductive slab_op := SAlloc | SFree (i : nat).

Definition slab_step s live (o : slab_op) : option (nkit_slab_t Q * list Z) :=
  match o with
  | SAlloc =>
      match nkit_slab_alloc (Some s) with
      | Some (p, Some s') => Some (s', if p =? NULL then live else p :: live)
      | _ => None
      end
  | SFree i =>
      match live !! i with
      | None => Some (s, live)
      | Some p =>
          match nkit_slab_free (Some s) p with
          | Some (Some s') => Some (s', delete i live)
          | _ => None
          end
      end
  end.

Fixpoint slab_exec s live (ops : list slab_op) : option (nkit_slab_t Q * list Z) :=
  match ops with
  | [] => Some (s, live)
  | o :: ops =>
      match slab_step s live o with
      | Some (s', live') => slab_exec s' live' ops
      | None => None
      end
  end.

Lemma slab_step_ok s free live o :
  slab_ok s free live →
  ∃ s' free' live', slab_step s live o = Some (s', live') ∧ slab_ok s' free' live' ∧
    slab_obj_size s' = slab_obj_size s ∧ slab_base s' = slab_base s ∧
    slab_capacity s' = slab_capacity s.
Proof.
  intros H. destruct o as [|i]; cbn [slab_step].
  - pose proof (slab_alloc_spec s free live H) as Ha. destruct free as [|p free].
    + rewrite Ha, Z.eqb_refl. by exists s, [], live.
    + destruct Ha as [Hp (s' & -> & H' & E1 & E2 & E3)]. rewrite (proj2 (Z.eqb_neq p NULL)) by done.
      by exists s', free, (p :: live).
  - destruct (live !! i) as [p|] eqn:Hi; [|by exists s, free, live].
    destruct (slab_free_spec s free live (delete i live) p H) as (s' & -> & H' & E1 & E2 & E3).
    { by apply delete_Permutation. }
    by exists s', (free ++ [p]), (delete i live).
Qed.

Lemma slab_exec_ok ops : ∀ s free live,
  slab_ok s free live →
  ∃ s' free' live', slab_exec s live ops = Some (s', live') ∧ slab_ok s' free' live' ∧
    slab_obj_size s' = slab_obj_size s ∧ slab_base s' = slab_base s ∧
    slab_capacity s' = slab_capacity s.
Proof.
  induction ops as [|o ops IH]; intros s free live H; cbn [slab_exec].
  { by exists s, free, live. }
  destruct (slab_step_ok s free live o H) as (s1 & f1 & l1 & -> & H1 & E1 & E2 & E3).
  destruct (IH s1 f1 l1 H1) as (s2 & f2 & l2 & -> & H2 & F1 & F2 & F3).
  exists s2, f2, l2. split; [done|]. split; [done|]. by rewrite F1, F2, F3.
Qed.

(** ** Population *)

Lemma populate_spec base size n : ∀ q l i,
  bq_rep q l → Z.of_nat (length l) + Z.of_nat n ≤ bq_cap q →
  0 ≤ i → 0 ≤ size → 0 ≤ base → base + (i + Z.of_nat n) * size ≤ 2 ^ 63 → i + Z.of_nat n < 2 ^ 63 →
  ∃ q', populate q base size i n = Some q' ∧ bq_cap q' = bq_cap q ∧
        bq_rep q' (l ++ ((λ j, base + (i + Z.of_nat j) * size) <$> seq 0 n)).
Proof.
  induction n as [|n IH]; intros q l i Hr Hroom Hi Hsz Hb Hreg Hn; cbn [populate].
  { exists q. simpl. by rewrite app_nil_r. }
  assert (H1 : 0 ≤ i * size ≤ 2 ^ 63) by nia.
  rewrite (u64_small (i * size)), (u64_small (base + _)), (u64_small (i + 1))
    by (unfold is_u64; nia).
  destruct (bq_push_ok q l (base + i * size) Hr) as (q1 & -> & Hr1 & Hc1); [lia|].
  destruct (IH q1 (l ++ [base + i * size]) (i + 1)) as (q2 & -> & Hc2 & Hr2); auto;
    try (rewrite ?length_app; simpl; lia); try nia.
  exists q2. split; [done|]. split; [congruence|].
  replace (l ++ _) with ((l ++ [base + i * size]) ++
    ((λ j, base + (i + 1 + Z.of_nat j) * size) <$> seq 0 n)); [done|].
  rewrite <-app_assoc. f_equal. simpl. rewrite Z.add_0_r. f_equal.
  rewrite <-seq_shift, <-list_fmap_compose. apply list_fmap_ext. intros k j _. simpl.
  f_equal. f_equal. lia.
Qed.
End correctness.

(** ** Creation *)

(** The arena always holds the control structure and the objects: rounding the
    structure up to a cache line never exceeds the arena's own rounding. *)
Lemma slab_arena_layout os node data a calls :
  ArenaOS_ok os → 0 < data ≤ 2 ^ 62 → (64 | data) →
  nkit_arena_create os node (sizeof_nkit_slab_s + data) = (Some a, calls) →
  ∃ a1 a2, nkit_arena_alloc (Some a) sizeof_nkit_slab_s = (Some (arena_base a), Some a1) ∧
    nkit_arena_alloc (Some a1) data = (Some (arena_base a + 64), Some a2) ∧ arena_ok os a2 ∧
    arena_base a2 = arena_base a ∧ arena_size a2 = arena_size a ∧ arena_used a2 = 64 + data.
Proof.
  intros Hos Hd [m Hm] Hc. unfold sizeof_nkit_slab_s in *.
  destruct (arena_create_inv os node (40 + data) a calls) as (_ & _ & Ha & Hb & Hu & _); auto; [lia|].
  pose proof (divide_64_huge _ (arena_size_aligned _ _ Ha)) as [z Hz].
  assert (E40 : cache_aligned 40 = 64) by done.
  assert (Edata : cache_aligned data = data).
  { destruct (cache_aligned_bounds data) as [Hcb [w Hw]]; lia. }
  destruct (arena_alloc_cases os a 40 Hos Ha ltac:(lia)) as [[_ ?]|(a1 & E1 & H1 & B1 & S1 & U1)]; [lia|].
  destruct (arena_alloc_cases os a1 data Hos H1 ltac:(lia)) as [[_ ?]|(a2 & E2 & H2 & B2 & S2 & U2)]; [lia|].
  exists a1, a2. rewrite Hu, Z.add_0_r in E1. rewrite U1, B1, Hu, E40 in E2.
  split_and!; try done; try congruence. lia.
Qed.

Definition slab_bytes (obj_size capacity : Z) : Z := cache_aligned obj_size * capacity.

Lemma slab_create_spec n os node obj_size capacity :
  ArenaOS_ok os → 0 ≤ obj_size < 2 ^ 62 → 0 ≤ capacity ≤ 2 ^ 58 →
  slab_bytes obj_size capacity ≤ 2 ^ 62 →
  match nkit_slab_create n os node obj_size capacity with
  | UB => False
  | Ret (None, _) => valid_pow2_capacity capacity = false ∨ obj_size = 0 ∨
      (nkit_arena_create os node (sizeof_nkit_slab_s + slab_bytes obj_size capacity)).1 = None ∨
      (nkit_arena_create os node (sizeof_nkit_ring_t + sizeof_nkit_cell_t * capacity)).1 = None
  | Ret (Some s, calls) => calls = [] ∧
      slab_ok (BQ:=ring_queue n) s
        (slots (slab_base s) (slab_obj_size s) (Z.to_nat capacity)) [] ∧
      slab_capacity s = capacity ∧ slab_obj_size s = cache_aligned obj_size ∧
      ∃ a, slab_arena s = Some a ∧ arena_ok os a ∧ slab_base s = arena_base a + 64 ∧
           slab_base s + slab_obj_size s * capacity ≤ arena_base a + arena_size a ∧
           ∃ a0, (nkit_arena_create os node (sizeof_nkit_slab_s + slab_bytes obj_size capacity)).1
                   = Some a0 ∧ arena_base a = arena_base a0 ∧ arena_size a = arena_size a0
  end.
Proof.
  intros Hos Hobj Hcap Hbytes. unfold nkit_slab_create.
  pose proof (ring_create_spec os node capacity Hos Hcap) as Hring.
  destruct (valid_pow2_capacity capacity) eqn:Hv; cbn [negb]; [|by left].
  pose proof Hv as Hv'. apply valid_pow2_capacity_spec in Hv' as (k & Hk & Ek); [|unfold is_u64; lia].
  destruct (Z.eqb_spec obj_size 0) as [|Hne]; [by right; left|].
  change (Z.land _ _) with (cache_aligned obj_size).
  destruct (cache_aligned_bounds obj_size) as [Hcb [m Hm]]; [lia|]. unfold slab_bytes in *.
  assert (Hc2 : 2 ≤ capacity) by (rewrite Ek; apply (Z.pow_le_mono_r 2 1 k); lia).
  assert (Hpos : 0 < cache_aligned obj_size * capacity) by nia.
  rewrite (u64_small (cache_aligned obj_size * capacity)) by (unfold is_u64; lia).
  rewrite u64_small by (unfold is_u64, sizeof_nkit_slab_s; lia).
  destruct (nkit_arena_create os node (sizeof_nkit_slab_s + _)) as [[a|] calls] eqn:Hc;
    [|by right; right; left].
  destruct (slab_arena_layout os node (cache_aligned obj_size * capacity) a calls Hos ltac:(lia)
    ltac:(exists (m * capacity); nia) Hc)
    as (a1 & a2 & -> & -> & Ha2 & B2 & S2 & U2).
  destruct (nkit_ring_create os node capacity) as [[r|]|]; 
    [|right; right; right; destruct Hring; [congruence|done]|done].
  cbn [obind]. destruct Hring as (_ & Hr & Hrc & _).
  pose proof (arena_region _ _ Ha2). pose proof (arena_used_bounds _ _ Ha2).
  pose proof (arena_base_pos _ _ Ha2). destruct (arena_base_64 os a2 Hos Ha2) as [b Hb64].
  destruct (populate_spec (BQ:=ring_queue n) (arena_base a + 64) (cache_aligned obj_size)
    (Z.to_nat capacity) r [] 0) as (q & -> & Hqc & Hq); simpl; auto; try lia; try nia.
  split; [done|]. split.
  - split; simpl.
    + exact Hq.
    + by rewrite <-Hrc.
    + by rewrite app_nil_r.
    + split; [lia|]. exists (b + 1). lia.
    + split; [lia|]. by exists m.
    + nia.
  - split; [done|]. split; [done|]. exists a2. split; [done|]. split; [done|]. split; [simpl; lia|]. split; [simpl; lia|].
    by exists a.
Qed.

(** Population moves the head only. *)
Lemma push_keeps_tail fuel spurious r head item b r' :
  ring_push_loop fuel spurious r head item = Some (b, r') → ring_tail r' = ring_tail r.
Proof.
  revert spurious head. induction fuel as [|fuel IH]; intros spurious head H; cbn [ring_push_loop] in H; [done|].
  destruct (ring_cells r !! _); [|done]. repeat case_match; simplify_eq; eauto.
Qed.

Lemma populate_keeps_tail n m : ∀ r base aligned i r',
  populate (BQ := ring_queue n) r base aligned i m = Some r' → ring_tail r' = ring_tail r.
Proof.
  induction m as [|m IH]; intros r base aligned i r' H; cbn [populate] in H; [by simplify_eq|].
  destruct (bq_push r _) as [[b r1]|] eqn:E; [|done]. rewrite (IH _ _ _ _ _ H).
  cbn [bq_push ring_queue] in E. by eapply push_keeps_tail.
Qed.

Lemma slab_create_tail n os node obj_size capacity s calls :
  nkit_slab_create n os node obj_size capacity = Ret (Some s, calls) → ring_tail (slab_freelist s) = 0.
Proof.
  unfold nkit_slab_create. destruct (negb _); [done|]. destruct (obj_size =? 0); [done|].
  destruct (nkit_arena_create _ _ _) as [[a|] ?]; [|done]. destruct (nkit_arena_alloc _ _) as [[b|] a1]; [|done].
  destruct (nkit_arena_alloc _ _) as [[c|] a2]; [|done]. destruct (nkit_ring_create os node capacity) as [[r|]|] eqn:Er; try done.
  cbn [obind]. destruct (populate _ _ _ _ _) as [r'|] eqn:Ep; [|done]. intros [= <- _]. cbn [slab_freelist].
  rewrite (populate_keeps_tail _ _ _ _ _ _ _ Ep). by eapply ring_create_tail.
Qed.

(** ** Properties *)

(** Creation (objects below 2^62 bytes in all, at most 2^58 of them): it
    fails only for rejected arguments or when the system has no memory; a slab
    that is returned has every slot on its free-list, each slot at least the
    requested size, cache-line aligned and inside the slab's own arena, and no
    memory of a failing path is kept. *)
Theorem slab_create_sound n os node obj_size capacity :
  ArenaOS_ok os → 0 ≤ obj_size < 2 ^ 62 → 0 ≤ capacity ≤ 2 ^ 58 →
  slab_bytes obj_size capacity ≤ 2 ^ 62 →
  match nkit_slab_create n os node obj_size capacity with
  | UB => False
  | Ret (None, _) => valid_pow2_capacity capacity = false ∨ obj_size = 0 ∨
      (nkit_arena_create os node (sizeof_nkit_slab_s + slab_bytes obj_size capacity)).1 = None ∨
      (nkit_arena_create os node (sizeof_nkit_ring_t + sizeof_nkit_cell_t * capacity)).1 = None
  | Ret (Some s, calls) => calls = [] ∧
      slab_ok (BQ:=ring_queue n) s
        (slots (slab_base s) (slab_obj_size s) (Z.to_nat capacity)) [] ∧
      slab_capacity s = capacity ∧ obj_size ≤ slab_obj_size s < obj_size + 64 ∧
      ∃ a, slab_arena s = Some a ∧ arena_ok os a ∧ slab_base s = arena_base a + 64 ∧
           slab_base s + slab_obj_size s * capacity ≤ arena_base a + arena_size a
  end.
Proof.
  intros Hos Hobj Hcap Hb. pose proof (slab_create_spec n os node obj_size capacity Hos Hobj Hcap Hb) as H.
  destruct (nkit_slab_create n os node obj_size capacity) as [[[s|] calls]|]; auto.
  destruct H as (E1 & H1 & E2 & E3 & Ha). destruct (cache_aligned_bounds obj_size) as [Hcb _]; [lia|].
  destruct Ha as (a & ? & ? & ? & ? & _). split; [done|]. split; [done|]. split; [done|].
  split; [by rewrite E3|]. by exists a.
Qed.

(** For every sequence of allocations and frees by a client that frees only
    what it holds: every call returns, the pointers held are pairwise disjoint
    blocks of the object size, cache-line aligned and inside the slab's region,
    at most [capacity] of them, and an allocation returns NULL exactly when all
    slots are held. *)
Theorem slab_blocks_disjoint {Q} {BQ : BoundedQueue Q} (s : nkit_slab_t Q) free live ops :
  slab_ok s free live →
  ∃ s' live', slab_exec s live ops = Some (s', live') ∧
    Z.of_nat (length live') ≤ slab_capacity s ∧
    (∀ i j p q, live' !! i = Some p → live' !! j = Some q → i ≠ j →
       disjoint_blocks (p, slab_obj_size s) (q, slab_obj_size s)) ∧
    (∀ p, p ∈ live' → slab_base s ≤ p ∧ (64 | p) ∧
       p + slab_obj_size s ≤ slab_base s + slab_obj_size s * slab_capacity s) ∧
    (∃ p s'', nkit_slab_alloc (Some s') = Some (p, Some s'') ∧
       (p = NULL ↔ Z.of_nat (length live') = slab_capacity s)).
Proof.
  intros H. destruct (slab_exec_ok ops s free live H) as (s' & free' & live' & E & H' & E1 & E2 & E3).
  exists s', live'. pose proof (slab_lengths _ _ _ H' (slab_cap_nonneg _ _ _ H')) as Hlen.
  rewrite <-E1, <-E2, <-E3. split; [done|]. split; [lia|].
  assert (Hnd : NoDup live').
  { destruct (so_size _ _ _ H') as [Hs _].
    pose proof (slots_NoDup (slab_base s') (slab_obj_size s') (Z.to_nat (slab_capacity s')) Hs) as Hn.
    rewrite <-(so_perm _ _ _ H') in Hn. by apply NoDup_app in Hn as (_ & _ & ?). }
  split; [|split].
  - intros i j p q Hi Hj Hne. apply (slab_disjoint s' free' live' p q H').
    + apply elem_of_app. right. by eapply list_elem_of_lookup_2.
    + apply elem_of_app. right. by eapply list_elem_of_lookup_2.
    + intros ->. apply Hne. by eapply NoDup_lookup.
  - intros p Hp. destruct (slab_ptr s' free' live' p H') as (? & ? & ?); [|done].
    apply elem_of_app. by right.
  - pose proof (slab_alloc_spec s' free' live' H') as Ha. destruct free' as [|p free'].
    + exists NULL, s'. split; [done|]. simpl in Hlen. split; [lia|done].
    + destruct Ha as [Hp (s'' & E'' & _)]. exists p, s''. split; [done|].
      simpl in Hlen. split; [done|lia].
Qed.

(** The size computation is not checked: 16 objects of 2^60 bytes are
    accepted, and the slab returned hands out slots far outside its arena. *)
Theorem slab_create_overflows :
  ∃ s a p, nkit_slab_create 0 (demo_os false true) 0 (2 ^ 60) 16 = Ret (Some s, []) ∧
    slab_arena s = Some a ∧ arena_size a = 2 ^ 21 ∧
    p ∈ slots (slab_base s) (slab_obj_size s) 16 ∧ arena_base a + arena_size a < p ∧
    ring_cells (slab_freelist s) !! 1%nat = Some (mk_cell 2 p).
Proof.
  destruct (nkit_slab_create 0 (demo_os false true) 0 (2 ^ 60) 16) as [[[s|] c]|] eqn:E;
    vm_compute in E; simplify_eq.
  do 3 eexists. split; [reflexivity|]. split; [reflexivity|]. split; [reflexivity|].
  split; [|split; [|reflexivity]]; [|vm_compute; reflexivity].
  unfold slots. simpl. right. left.
Qed.

Definition demo_slab : outcome (option (nkit_slab_t nkit_ring_t) * list os_call) :=
  nkit_slab_create 1 (demo_os false true) 0 100 2.

Lemma slab_create_sound_witness :
  match demo_slab with
  | Ret (Some s, calls) => calls = [] ∧ slab_capacity s = 2 ∧ 100 ≤ slab_obj_size s < 164
  | _ => False
  end.
Proof.
  pose proof (slab_create_sound 1 (demo_os false true) 0 100 2 (demo_os_ok _ _)
    ltac:(lia) ltac:(lia) ltac:(by vm_compute)) as H.
  unfold demo_slab. destruct (nkit_slab_create _ _ _ _ _) as [[[s|] calls]|] eqn:E.
  - destruct H as (-> & _ & -> & Hs & _). split; [done|]. split; [done|lia].
  - by vm_compute in E.
  - by vm_compute in E.
Defined.

Definition demo_slab_ops : list slab_op := [SAlloc; SAlloc; SAlloc; SFree 1; SAlloc].

Lemma slab_blocks_disjoint_witness :
  match demo_slab with
  | Ret (Some s, _) => ∃ s' p q, slab_exec (BQ:=ring_queue 1) s [] demo_slab_ops = Some (s', [p; q]) ∧
      disjoint_blocks (p, slab_obj_size s) (q, slab_obj_size s)
  | _ => False
  end.
Proof.
  pose proof (slab_create_spec 1 (demo_os false true) 0 100 2 (demo_os_ok _ _)
    ltac:(lia) ltac:(lia) ltac:(by vm_compute)) as H.
  unfold demo_slab. destruct (nkit_slab_create _ _ _ _ _) as [[[s|] calls]|] eqn:E.
  - destruct H as (_ & Hok & _).
    destruct (slab_blocks_disjoint (BQ:=ring_queue 1) s _ [] demo_slab_ops Hok)
      as (s' & live' & Ex & _ & Hd & _).
    vm_compute in E. simplify_eq. vm_compute in Ex. simplify_eq.
    do 3 eexists. split; [by vm_compute|]. by apply (Hd 0%nat 1%nat).
  - by vm_compute in E.
  - by vm_compute in E.
Defined.
