(* ===== verification/SlabConc.v ===== *)
(** * The slab with many callers (src/memory/slab.c)

    Any number of threads allocate from one slab and free to it, interleaving at
    every access to the ring that is the free-list.  A block may be freed by
    another thread than the one that allocated it. *)

From stdpp Require Import prelude.
From Stdlib Require Import ZArith Lia.
From S2P Require Import Prelude Words Arena Ring RingConc RingItems Slab.
Local Open Scope Z_scope.
Local Open Scope word_scope.

(** ** Steps *)

(** The free-list with the threads inside its operations, and the pointers the
    callers hold. *)
Record sc_state := mk_sc {
  sc_ring : ring_state;
  sc_live : list Z;
}.

(** A call begins: an allocation, or a free of the [i]-th pointer held; or a
    thread makes its next access. *)
Inductive sc_label :=
| ScAlloc (t : nat)
| ScFree (t i : nat)
| ScAdvance (t : nat) (spurious : bool).

(** [nkit_slab_alloc] returns a pointer or NULL; the push of [nkit_slab_free] is
    refused and the pointer is dropped. *)
Inductive sc_event :=
| ScGot (t : nat) (p : Z)
| ScExhausted (t : nat)
| ScLost (t : nat) (p : Z).

(** What the returning ring operation makes of the call: [nkit_slab_alloc] hands
    the popped pointer out; [nkit_slab_free] does not look at the result of its
    push. *)
Definition sc_returns (t : nat) (pc : ring_pc) (ev : list ring_event) : list sc_event :=
  match ev with
  | [Taken _ x] => [ScGot t x]
  | [Empty _] => [ScExhausted t]
  | [Full _] => ScLost t <$> hold [] pc
  | _ => []
  end.

Definition got (es : list sc_event) : list Z := omap (λ e, match e with ScGot _ p => Some p | _ => None end) es.
Definition lost (es : list sc_event) : list Z := omap (λ e, match e with ScLost _ p => Some p | _ => None end) es.

Definition sc_step (s : sc_state) (l : sc_label) : option (sc_state * list sc_event) :=
  match l with
  | ScAlloc t =>
      match ring_step (sc_ring s) (RcPop t) with
      | Some (r, _) => Some (mk_sc r (sc_live s), [])
      | None => None
      end
  | ScFree t i =>
      match sc_live s !! i with
      | None => None
      | Some p =>
          if p =? NULL then Some (s, []) else
          match ring_step (sc_ring s) (RcPush t p) with
          | Some (r, _) => Some (mk_sc r (delete i (sc_live s)), [])
          | None => None
          end
      end
  | ScAdvance t sp =>
      match rs_threads (sc_ring s) !! t with
      | None => None
      | Some pc =>
          match ring_step (sc_ring s) (RcAdvance t sp) with
          | Some (r, ev) => let es := sc_returns t pc ev in Some (mk_sc r (got es ++ sc_live s), es)
          | None => None
          end
      end
  end.

(** A slab as [nkit_slab_create] returns it, and [n] threads. *)
Definition sc_start (slab : nkit_slab_t nkit_ring_t) (n : nat) : sc_state :=
  mk_sc (mk_rs (slab_freelist slab) (replicate n RcIdle)) [].

(** ** The invariant *)

(** Every slot is in exactly one place. *)
Definition sc_inv (cap : Z) (all : list Z) (n : nat) (es : list sc_event) (s : sc_state) : Prop :=
  free_list cap all (length all + n) (sc_ring s) (sc_live s ++ lost es).

(** A step emits at most one event, and a return matches what left the ring. *)
Lemma leaving_returns rs t pc sp ev :
  rs_threads rs !! t = Some pc → (∃ rs', ring_step rs (RcAdvance t sp) = Some (rs', ev)) →
  leaving rs (RcAdvance t sp) ev = got (sc_returns t pc ev) ++ lost (sc_returns t pc ev).
Proof.
  intros Ht [rs' Hs]. cbn [leaving ring_step] in *. rewrite Ht in *.
  assert (Hfull : ∀ l : list Z, got (ScLost t <$> l) = [] ∧ lost (ScLost t <$> l) = l)
    by (induction l as [|x l [IH1 IH2]]; [done|]; cbn; split; [apply IH1|f_equal; apply IH2]).
  assert (Hlen : (length ev ≤ 1)%nat).
  { destruct pc; cbn in Hs; repeat case_match; simplify_eq; cbn; lia. }
  destruct ev as [|[x|p x|u|u] [|]]; cbn in Hlen; try lia; cbn [sc_returns]; try done.
  destruct (Hfull (hold [] pc)) as [-> ->]. done.
Qed.

Lemma sc_inv_step cap all n es s l s' ev :
  sc_inv cap all n es s → sc_step s l = Some (s', ev) → sc_inv cap all (S n) (es ++ ev) s'.
Proof.
  unfold sc_inv. rewrite Nat.add_succ_r. intros F Hs.
  assert (El : lost (es ++ ev) = lost es ++ lost ev) by apply omap_app. rewrite El.
  destruct l as [t|t i|t sp]; cbn [sc_step] in Hs.
  - destruct (ring_step (sc_ring s) (RcPop t)) as [[r rev]|] eqn:Hr; [|done]. injection Hs as <- <-.
    eapply free_list_step; [done..|]. cbn [leaving brought sc_live]. change (lost []) with (@nil Z). by rewrite !app_nil_r.
  - destruct (sc_live s !! i) as [p|] eqn:Hi; [|done]. destruct (p =? NULL).
    + injection Hs as <- <-. eapply free_list_keep; [done|lia|]. change (lost []) with (@nil Z). by rewrite app_nil_r.
    + destruct (ring_step (sc_ring s) (RcPush t p)) as [[r rev]|] eqn:Hr; [|done]. injection Hs as <- <-.
      eapply free_list_step; [done..|]. cbn [leaving brought sc_live].
      change (lost []) with (@nil Z). pose proof (delete_Permutation _ _ _ Hi) as Pd. change (p :: ?l) with ([p] ++ l) in Pd. count_perm.
  - destruct (rs_threads (sc_ring s) !! t) as [pc|] eqn:Ht; [|done].
    destruct (ring_step (sc_ring s) (RcAdvance t sp)) as [[r rev]|] eqn:Hr; [|done]. injection Hs as <- <-.
    eapply free_list_step; [done..|]. rewrite (leaving_returns _ t pc sp rev Ht) by eauto. cbn [brought sc_live]. count_perm.
Qed.

(** ** The counters of the free-list *)

(** A step moves [head] and [tail] by one at most, and forward. *)
Lemma ring_step_counters rs l rs' ev (r := rs_ring rs) (r' := rs_ring rs') :
  ring_step rs l = Some (rs', ev) →
  (ring_head r' = ring_head r ∨ ring_head r' = ring_head r +w 1) ∧
  (ring_tail r' = ring_tail r ∨ ring_tail r' = ring_tail r +w 1).
Proof.
  subst r r'. intros Hs. destruct l as [t x|t|t sp]; cbn [ring_step] in Hs.
  1,2: repeat case_match; simplify_eq; auto.
  destruct (rs_threads rs !! t) as [pc|]; [|done].
  destruct pc; cbn in Hs; repeat case_match; simplify_eq; cbn; auto;
    repeat match goal with H : _ && _ = true |- _ => apply andb_prop in H as [?%Z.eqb_eq ?] end; subst; auto.
Qed.

Lemma sc_step_counters s l s' ev (r := rs_ring (sc_ring s)) (r' := rs_ring (sc_ring s')) :
  sc_step s l = Some (s', ev) →
  (ring_head r' = ring_head r ∨ ring_head r' = ring_head r +w 1) ∧
  (ring_tail r' = ring_tail r ∨ ring_tail r' = ring_tail r +w 1).
Proof.
  subst r r'. intros Hs. destruct l as [t|t i|t sp]; cbn [sc_step] in Hs; repeat case_match; simplify_eq; auto;
    by eapply ring_step_counters.
Qed.

Lemma sc_inv_counters cap all n es s (r := rs_ring (sc_ring s)) :
  sc_inv cap all n es s → Z.of_nat (length all + n) < 2 ^ 62 →
  0 ≤ ring_tail r ≤ ring_head r ∧ ring_head r < 2 ^ 62.
Proof.
  intros F Hn. destruct (free_list_inv _ _ _ _ _ F Hn) as (hd & tl & ps & Hhd & I & _). subst r.
  rewrite (rv_head _ _ _ _ _ I), (rv_tail _ _ _ _ _ I). pose proof (rv_order _ _ _ _ _ I). lia.
Qed.

(** So they do not go back in a run that is not too long. *)
Lemma sc_counters_grow cap all n es s sched s' es' (r := rs_ring (sc_ring s)) (r' := rs_ring (sc_ring s')) :
  sc_inv cap all n es s → traced sc_step s sched = Some (s', es') →
  Z.of_nat (length all + (n + length sched)) < 2 ^ 62 →
  sc_inv cap all (n + length sched) (es ++ es') s' ∧ ring_head r ≤ ring_head r' ∧ ring_tail r ≤ ring_tail r'.
Proof.
  intros F Hr Hn. split; [|revert Hn].
  - refine (traced_invariant sc_step (λ m e x, sc_inv cap all (n + m) (es ++ e) x) s _ _ sched s' es' Hr).
    + by rewrite Nat.add_0_r, app_nil_r.
    + intros m e x l x' e' I Hs. rewrite Nat.add_succ_r, app_assoc. by eapply sc_inv_step.
  - refine (proj2 (traced_invariant sc_step (λ m e x, sc_inv cap all (n + m) (es ++ e) x ∧
      (Z.of_nat (length all + (n + m)) < 2 ^ 62 →
       ring_head r ≤ ring_head (rs_ring (sc_ring x)) ∧ ring_tail r ≤ ring_tail (rs_ring (sc_ring x)))) s _ _ sched s' es' Hr)).
    + rewrite Nat.add_0_r, app_nil_r. split; [done|]. subst r. lia.
    + intros m e x l x' e' [I IH] Hs. rewrite Nat.add_succ_r, app_assoc. split; [by eapply sc_inv_step|].
      intros Hb. destruct IH as [IH1 IH2]; [lia|]. destruct (sc_inv_counters _ _ _ _ _ I) as [? ?]; [lia|].
      destruct (sc_step_counters _ _ _ _ Hs) as [[->| ->] [->| ->]]; rewrite ?u64_small by (unfold is_u64; lia); lia.
Qed.

(** [head] loaded first and [tail] later: no more than there was, and than there is. *)
Lemma available_racing h t h' t' :
  0 ≤ t ≤ h → 0 ≤ t' ≤ h' → h' < 2 ^ 62 → h ≤ h' → t ≤ t' →
  0 ≤ available h t' ∧ available h t' ≤ available h t ∧ available h t' ≤ available h' t' ∧
  (t' = t → available h t' = available h t).
Proof.
  intros. unfold available. destruct (Z.leb_spec t' h), (Z.leb_spec t h), (Z.leb_spec t' h'); try lia;
    rewrite ?u64_small by (unfold is_u64; lia); lia.
Qed.

(** No step changes the free-list's capacity. *)
Lemma sc_capacity sched s s' es :
  traced sc_step s sched = Some (s', es) →
  ring_capacity (rs_ring (sc_ring s')) = ring_capacity (rs_ring (sc_ring s)).
Proof.
  intros Hr. refine (traced_invariant sc_step (λ _ _ x, ring_capacity (rs_ring (sc_ring x)) =
    ring_capacity (rs_ring (sc_ring s))) s eq_refl _ sched s' es Hr).
  intros _ _ x l x' ev IH Hs. rewrite <-IH. destruct l as [t|t i|t sp]; cbn [sc_step] in Hs; repeat case_match; simplify_eq; auto;
    by eapply ring_step_capacity.
Qed.

(** ** A slab as it is created *)

Section created.
Context (n : nat) (os : arena_os) (node obj_size capacity : Z) (slab : nkit_slab_t nkit_ring_t) (calls : list os_call).
Hypothesis Hos : ArenaOS_ok os.
Hypothesis Hobj : 0 ≤ obj_size < 2 ^ 62.
Hypothesis Hcap : 0 ≤ capacity ≤ 2 ^ 58.
Hypothesis Hbytes : slab_bytes obj_size capacity ≤ 2 ^ 62.
Hypothesis Hcreate : nkit_slab_create n os node obj_size capacity = Ret (Some slab, calls).

Lemma created_ok :
  slab_ok (BQ := ring_queue n) slab (all_slots slab) [] ∧ slab_capacity slab = capacity ∧
  ∃ k, 1 ≤ k ≤ 58 ∧ capacity = 2 ^ k.
Proof.
  pose proof (slab_create_spec n os node obj_size capacity Hos Hobj Hcap Hbytes) as H.
  assert (Hv : valid_pow2_capacity capacity = true).
  { pose proof Hcreate as E. unfold nkit_slab_create in E. by destruct (valid_pow2_capacity capacity). }
  rewrite Hcreate in H. destruct H as (_ & Hok & Ec & _). unfold all_slots. rewrite Ec. split; [done|]. split; [done|].
  apply valid_pow2_capacity_spec in Hv as (k & Hk & E); [|unfold is_u64; lia]. exists k. split; [|done].
  split; [lia|]. destruct (Z.le_gt_cases k 58); [done|]. exfalso.
  assert (2 ^ 59 ≤ 2 ^ k) by (apply Z.pow_le_mono_r; lia). lia.
Qed.

Lemma sc_run threads sched s es :
  traced sc_step (sc_start slab threads) sched = Some (s, es) →
  sc_inv capacity (all_slots slab) (length sched) es s.
Proof.
  intros Hr. destruct created_ok as (Hok & Ec & k & Hk & Ek).
  refine (traced_invariant sc_step (sc_inv capacity (all_slots slab)) _ _ _ sched s es Hr).
  - destruct (so_rep _ _ _ Hok) as [T HT].
    pose proof (ring_at_zero T _ _ HT (slab_create_tail _ _ _ _ _ _ _ Hcreate)) as H0.
    unfold sc_inv. rewrite Ek. apply (free_list_start k _ (all_slots slab)); [lia| |done|lia|done].
    rewrite <-Ek, <-Ec. apply (so_cap _ _ _ Hok).
  - intros m es0 s0 l s1 es1. apply sc_inv_step.
Qed.

Lemma all_slots_length : Z.of_nat (length (all_slots slab)) = capacity.
Proof. destruct created_ok as (_ & Ec & _). unfold all_slots. rewrite slots_length, Ec. lia. Qed.

(** At rest the free-list is a sequential ring of what is neither held nor lost. *)
Lemma sc_rest threads sched s es :
  Z.of_nat (length sched) < 2 ^ 61 → traced sc_step (sc_start slab threads) sched = Some (s, es) →
  (∀ t pc, rs_threads (sc_ring s) !! t = Some pc → pc = RcIdle) →
  ∃ q, ring_rep (rs_ring (sc_ring s)) q ∧ q ++ sc_live s ++ lost es ≡ₚ all_slots slab.
Proof.
  intros Hlen Hr Hidle. destruct created_ok as (Hok & Ec & _). pose proof all_slots_length.
  apply (free_list_rest capacity (all_slots slab) (length (all_slots slab) + length sched));
    [by eapply sc_run|lia|done|].
  rewrite (sc_capacity _ _ _ _ Hr), <-Ec. apply (so_cap _ _ _ Hok).
Qed.

Lemma all_slots_nodup : NoDup (all_slots slab).
Proof. destruct created_ok as (Hok & _). apply slots_NoDup. apply (so_size _ _ _ Hok). Qed.
End created.

(** ** Properties *)

(** C12. Allocation by many threads.  From a slab [nkit_slab_create] returned, in
    every interleaving of allocations and frees (each of a pointer that is held;
    fewer than 2^61 steps): the pointers held at any moment are pairwise disjoint
    blocks of the object size, cache-line aligned and inside the slab's region;
    no step is ever stuck; and at every moment every slot is in exactly one place: on
    the free-list, in the hands of a thread inside a call (one each), held by a caller,
    or lost by a free whose push was refused.  So no block is ever handed out twice,
    and when all calls have returned the free-list is a well-formed ring of exactly the
    slots that are neither held nor lost.  [nkit_slab_available] loads [head] and
    [tail] at different moments; whatever happens in between, it reports no more than
    the free-list had at the first moment and no more than it has at the second, and
    exactly what it had if nothing was taken since. *)
Theorem slab_conc_blocks n os node obj_size capacity slab calls threads sched s es :
  ArenaOS_ok os → 0 ≤ obj_size < 2 ^ 62 → 0 ≤ capacity ≤ 2 ^ 58 → slab_bytes obj_size capacity ≤ 2 ^ 62 →
  nkit_slab_create n os node obj_size capacity = Ret (Some slab, calls) → Z.of_nat (length sched) < 2 ^ 61 →
  traced sc_step (sc_start slab threads) sched = Some (s, es) →
  (∀ i j p q, sc_live s !! i = Some p → sc_live s !! j = Some q → i ≠ j →
     disjoint_blocks (p, slab_obj_size slab) (q, slab_obj_size slab)) ∧
  (∀ p, p ∈ sc_live s → (p ∉ lost es) ∧ slab_base slab ≤ p ∧ (64 | p) ∧
     p + slab_obj_size slab ≤ slab_base slab + slab_obj_size slab * capacity) ∧
  (∀ t pc sp, rs_threads (sc_ring s) !! t = Some pc → pc ≠ RcIdle → is_Some (sc_step s (ScAdvance t sp))) ∧
  (∃ waiting inside, waiting ++ inside ++ sc_live s ++ lost es ≡ₚ all_slots slab ∧
     Z.of_nat (length waiting) = ring_head (rs_ring (sc_ring s)) - ring_tail (rs_ring (sc_ring s)) ∧
     length inside = length (filter (λ pc, carrying pc = true) (rs_threads (sc_ring s)))) ∧
  ((∀ t pc, rs_threads (sc_ring s) !! t = Some pc → pc = RcIdle) →
     (∃ q, ring_rep (rs_ring (sc_ring s)) q ∧ q ++ sc_live s ++ lost es ≡ₚ all_slots slab) ∧
     nkit_slab_available (Some (with_freelist slab (rs_ring (sc_ring s)))) =
       capacity - Z.of_nat (length (sc_live s)) - Z.of_nat (length (lost es))) ∧
  (∀ sched' s' es', Z.of_nat (length sched + length sched') < 2 ^ 61 → traced sc_step s sched' = Some (s', es') →
     let r := rs_ring (sc_ring s) in let r' := rs_ring (sc_ring s') in
     let answer := available (ring_head r) (ring_tail r') in
     0 ≤ answer ∧ answer ≤ nkit_slab_available (Some (with_freelist slab r)) ∧
     answer ≤ nkit_slab_available (Some (with_freelist slab r')) ∧
     (ring_tail r' = ring_tail r → answer = nkit_slab_available (Some (with_freelist slab r)))).
Proof.
  intros Hos Hobj Hcap Hb Hc Hlen Hr.
  destruct (created_ok n os node obj_size capacity slab calls Hos Hobj Hcap Hb Hc) as (Hok & Ec & _).
  pose proof (all_slots_length n os node obj_size capacity slab calls Hos Hobj Hcap Hb Hc) as Hall.
  pose proof (sc_run n os node obj_size capacity slab calls Hos Hobj Hcap Hb Hc threads sched s es Hr) as F.
  assert (Hn : Z.of_nat (length (all_slots slab) + length sched) < 2 ^ 62) by lia.
  destruct (free_list_out _ _ _ _ _ F Hn) as [Hnd Hin]; [by eapply all_slots_nodup|].
  pose proof Hnd as (Hndl & Hlost & _)%NoDup_app.
  assert (Hslot : ∀ p, p ∈ sc_live s → p ∈ all_slots slab ++ []) by (intros p Hp; rewrite app_nil_r; apply Hin; set_solver).
  split; [|split; [|split; [|split; [by apply (free_list_places capacity _ _ _ _ F Hn)|split]]]].
  - intros i j p q Hi Hj Hne. apply (slab_disjoint slab (all_slots slab) [] p q Hok).
    + apply Hslot. by eapply list_elem_of_lookup_2.
    + apply Hslot. by eapply list_elem_of_lookup_2.
    + intros ->. apply Hne. by eapply NoDup_lookup.
  - intros p Hp. split; [by apply Hlost|]. rewrite <-Ec. destruct (slab_ptr slab (all_slots slab) [] p Hok) as (? & ? & ?); auto.
  - intros t pc sp Ht Hpc. cbn [sc_step]. rewrite Ht.
    by destruct (free_list_enabled _ _ _ _ _ t pc sp F Hn Ht Hpc) as [[r ev] ->].
  - intros Hidle. split; [by eapply (sc_rest n os node obj_size capacity slab calls)|].
    destruct (free_list_quiet _ _ _ _ _ F Hn Hidle) as (Hle & Hlt & E). rewrite length_app in E.
    cbn [nkit_slab_available with_freelist slab_freelist]. unfold available.
    destruct (Z.leb_spec (ring_tail (rs_ring (sc_ring s))) (ring_head (rs_ring (sc_ring s)))); [|lia].
    rewrite u64_small by (unfold is_u64; lia). lia.
  - intros sched' s' es' Hlen' Hr'.
    destruct (sc_counters_grow _ _ _ _ _ _ _ _ F Hr') as (F' & Hh & Ht); [lia|].
    destruct (sc_inv_counters _ _ _ _ _ F), (sc_inv_counters _ _ _ _ _ F'); try lia. by apply available_racing.
Qed.

(** C27. When a free loses its block.  [nkit_slab_free] does not look at the result
    of its push.  The push is refused only while another thread's allocation has
    claimed the oldest cell of the free-list and not given it back, which never
    means that the free-list is full: it holds fewer pointers than it has room
    for. *)
Theorem slab_conc_loss n os node obj_size capacity slab calls threads sched s es l s' ev t p :
  ArenaOS_ok os → 0 ≤ obj_size < 2 ^ 62 → 0 ≤ capacity ≤ 2 ^ 58 → slab_bytes obj_size capacity ≤ 2 ^ 62 →
  nkit_slab_create n os node obj_size capacity = Ret (Some slab, calls) → Z.of_nat (length sched) < 2 ^ 61 →
  traced sc_step (sc_start slab threads) sched = Some (s, es) →
  sc_step s l = Some (s', ev) → ScLost t p ∈ ev →
  let r := rs_ring (sc_ring s) in
  0 ≤ ring_head r - ring_tail r < capacity ∧
  ∃ t' pc, t' ≠ t ∧ rs_threads (sc_ring s) !! t' = Some pc ∧ pop_claim pc = Some (ring_head r - capacity).
Proof.
  intros Hos Hobj Hcap Hb Hc Hlen Hr Hs Hlost r.
  pose proof (all_slots_length n os node obj_size capacity slab calls Hos Hobj Hcap Hb Hc) as Hall.
  pose proof (sc_run n os node obj_size capacity slab calls Hos Hobj Hcap Hb Hc threads sched s es Hr) as F.
  destruct l as [u|u i|u sp]; cbn [sc_step] in Hs.
  1,2: repeat case_match; simplify_eq; by apply not_elem_of_nil in Hlost.
  destruct (rs_threads (sc_ring s) !! u) as [pc|] eqn:Hu; [|done].
  destruct (ring_step (sc_ring s) (RcAdvance u sp)) as [[r' rev]|] eqn:Hst; [|done]. injection Hs as <- <-.
  assert (Hf : ∃ v, rev = [Full v] ∧ u = t).
  { destruct rev as [|[x|q x|v|v] [|]]; cbn [sc_returns] in Hlost; try (by apply not_elem_of_nil in Hlost);
      try (apply list_elem_of_singleton in Hlost; done).
    apply list_elem_of_fmap in Hlost as (y & [= -> ->] & Hy). by exists v. }
  destruct Hf as (v & -> & ->). by apply (free_list_refuses capacity _ _ _ _ t sp r' v F); [lia|lia|].
Qed.

(** ** A block is lost *)

(** Thread 0 claims the first slot and pauses; thread 1 allocates the second and
    frees it; thread 0 goes on, and frees its own. *)
Definition leak_sched : list sc_label :=
  (ScAlloc 0 :: replicate 3 (ScAdvance 0 false)) ++ (ScAlloc 1 :: replicate 5 (ScAdvance 1 false)) ++
  (ScFree 1 0 :: replicate 2 (ScAdvance 1 false)) ++
  (replicate 2 (ScAdvance 0 false) ++ ScFree 0 0 :: replicate 5 (ScAdvance 0 false)).

Section leak.
Context (k : Z) (arena : option nkit_arena_t) (x0 x1 : Z) (cells : list nkit_cell_t) (ths : list ring_pc).
Abbreviation cap := (2 ^ k).
Abbreviation ring h t cs := (mk_ring h t cap (cap - 1) cs arena).
Abbreviation at_pc r a b live := (mk_sc (mk_rs r (a :: b :: ths)) live).
Hypothesis Hk : 1 ≤ k ≤ 58.
Hypothesis Hx0 : x0 ≠ NULL.
Hypothesis Hx1 : x1 ≠ NULL.

(** The capacity, the cells and the sequence numbers the run meets. *)
Lemma leak_capacity : 2 ≤ cap ≤ 2 ^ 58.
Proof. split; [apply (Z.pow_le_mono_r 2 1 k); lia|apply Z.pow_le_mono_r; lia]. Qed.

Lemma index_0 h t cs : cell_index (ring h t cs) 0 = 0%nat.
Proof. done. Qed.
Lemma index_1 h t cs : cell_index (ring h t cs) 1 = 1%nat.
Proof. pose proof leak_capacity. unfold cell_index. cbn [ring_mask]. rewrite land_mask, Z.mod_small by lia. done. Qed.
Lemma index_cap h t cs : cell_index (ring h t cs) cap = 0%nat.
Proof. pose proof leak_capacity. unfold cell_index. cbn [ring_mask]. rewrite land_mask, Z_mod_same_full by lia. done. Qed.

Lemma seq_gone : s64 (s64 1 - s64 cap) = 1 - cap.
Proof. pose proof leak_capacity. rewrite (s64_small cap), (s64_small 1), s64_small by lia. done. Qed.
Lemma seq_back : s64 (s64 cap - s64 cap) = 0.
Proof. by rewrite Z.sub_diag. Qed.
Lemma word_next a b : 0 ≤ a → 0 ≤ b → a + b < 2 ^ 64 → a +w b = a + b.
Proof. intros. apply u64_small. unfold is_u64. lia. Qed.

Lemma traced_goes {S L E} (step : S → L → option (S * list E)) s l s1 e1 ls s2 e2 :
  step s l = Some (s1, e1) → traced step s1 ls = Some (s2, e2) → traced step s (l :: ls) = Some (s2, e1 ++ e2).
Proof. intros H1 H2. cbn [traced]. by rewrite H1, H2. Qed.

Ltac go_to s' ev := refine (traced_goes sc_step _ _ s' ev _ _ _ _ _); [cbn [sc_step sc_ring sc_live rs_threads rs_ring ring_step ring_push_step ring_pop_step lookup list_lookup insert list_insert nth_error ring_head ring_tail ring_cells cell_sequence cell_data]|].

Definition cells_with (s0 s1 : Z) : list nkit_cell_t := mk_cell s0 x0 :: mk_cell s1 x1 :: cells.

(** Thread 0 claims the first slot and pauses. *)
Lemma leak_claims :
  traced sc_step (at_pc (ring cap 0 (cells_with 1 2)) RcIdle RcIdle []) (ScAlloc 0 :: replicate 3 (ScAdvance 0 false)) =
    Some (at_pc (ring cap 1 (cells_with 1 2)) (RcPopRead 0) RcIdle [], []).
Proof.
  go_to (at_pc (ring cap 0 (cells_with 1 2)) RcPopStart RcIdle []) (@nil sc_event); [reflexivity|].
  go_to (at_pc (ring cap 0 (cells_with 1 2)) (RcPopSeq 0) RcIdle []) (@nil sc_event); [reflexivity|].
  go_to (at_pc (ring cap 0 (cells_with 1 2)) (RcPopCas 0) RcIdle []) (@nil sc_event); [rewrite index_0; reflexivity|].
  go_to (at_pc (ring cap 1 (cells_with 1 2)) (RcPopRead 0) RcIdle []) (@nil sc_event); reflexivity.
Qed.

(** Thread 1 allocates the second one. *)
Lemma leak_takes :
  traced sc_step (at_pc (ring cap 1 (cells_with 1 2)) (RcPopRead 0) RcIdle []) (ScAlloc 1 :: replicate 5 (ScAdvance 1 false)) =
    Some (at_pc (ring cap 2 (cells_with 1 (cap + 1))) (RcPopRead 0) RcIdle [x1], [ScGot 1 x1]).
Proof using Hk.
  pose proof leak_capacity.
  go_to (at_pc (ring cap 1 (cells_with 1 2)) (RcPopRead 0) RcPopStart []) (@nil sc_event); [reflexivity|].
  go_to (at_pc (ring cap 1 (cells_with 1 2)) (RcPopRead 0) (RcPopSeq 1) []) (@nil sc_event); [reflexivity|].
  go_to (at_pc (ring cap 1 (cells_with 1 2)) (RcPopRead 0) (RcPopCas 1) []) (@nil sc_event); [rewrite index_1; reflexivity|].
  go_to (at_pc (ring cap 2 (cells_with 1 2)) (RcPopRead 0) (RcPopRead 1) []) (@nil sc_event); [reflexivity|].
  go_to (at_pc (ring cap 2 (cells_with 1 2)) (RcPopRead 0) (RcPopCommit 1 x1) []) (@nil sc_event); [rewrite index_1; reflexivity|].
  go_to (at_pc (ring cap 2 (cells_with 1 (cap + 1))) (RcPopRead 0) RcIdle [x1]) [ScGot 1 x1]; [|reflexivity].
  rewrite index_1. cbn. rewrite (word_next 1 (cap - 1)), (word_next (1 + (cap - 1)) 1) by lia. replace (1 + (cap - 1) + 1) with (cap + 1) by lia. reflexivity.
Qed.

(** Its free is refused: the cell at [head] is the one thread 0 has not released. *)
Lemma leak_loses :
  traced sc_step (at_pc (ring cap 2 (cells_with 1 (cap + 1))) (RcPopRead 0) RcIdle [x1]) (ScFree 1 0 :: replicate 2 (ScAdvance 1 false)) =
    Some (at_pc (ring cap 2 (cells_with 1 (cap + 1))) (RcPopRead 0) RcIdle [], [ScLost 1 x1]).
Proof using Hk Hx1.
  pose proof leak_capacity.
  go_to (at_pc (ring cap 2 (cells_with 1 (cap + 1))) (RcPopRead 0) (RcPushStart x1) []) (@nil sc_event);
    [rewrite (proj2 (Z.eqb_neq x1 NULL) Hx1); reflexivity|].
  go_to (at_pc (ring cap 2 (cells_with 1 (cap + 1))) (RcPopRead 0) (RcPushSeq cap x1) []) (@nil sc_event); [reflexivity|].
  go_to (at_pc (ring cap 2 (cells_with 1 (cap + 1))) (RcPopRead 0) RcIdle []) [ScLost 1 x1]; [|reflexivity].
  rewrite index_cap. cbn [cells_with lookup list_lookup cell_sequence]. rewrite seq_gone.
  destruct (Z.eqb_spec (1 - cap) 0), (Z.ltb_spec (1 - cap) 0); (lia || reflexivity).
Qed.

(** Thread 0 takes its block and frees it. *)
Lemma leak_ends :
  traced sc_step (at_pc (ring cap 2 (cells_with 1 (cap + 1))) (RcPopRead 0) RcIdle [])
    (replicate 2 (ScAdvance 0 false) ++ ScFree 0 0 :: replicate 5 (ScAdvance 0 false)) =
    Some (at_pc (ring (cap + 1) 2 (cells_with (cap + 1) (cap + 1))) RcIdle RcIdle [], [ScGot 0 x0]).
Proof using Hk Hx0.
  pose proof leak_capacity. pose proof seq_back.
  go_to (at_pc (ring cap 2 (cells_with 1 (cap + 1))) (RcPopCommit 0 x0) RcIdle []) (@nil sc_event); [rewrite index_0; reflexivity|].
  go_to (at_pc (ring cap 2 (cells_with cap (cap + 1))) RcIdle RcIdle [x0]) [ScGot 0 x0].
  { rewrite index_0. cbn. rewrite (word_next 0 (cap - 1)), (word_next (0 + (cap - 1)) 1) by lia. replace (0 + (cap - 1) + 1) with cap by lia. reflexivity. }
  go_to (at_pc (ring cap 2 (cells_with cap (cap + 1))) (RcPushStart x0) RcIdle []) (@nil sc_event);
    [rewrite (proj2 (Z.eqb_neq x0 NULL) Hx0); reflexivity|].
  go_to (at_pc (ring cap 2 (cells_with cap (cap + 1))) (RcPushSeq cap x0) RcIdle []) (@nil sc_event); [reflexivity|].
  go_to (at_pc (ring cap 2 (cells_with cap (cap + 1))) (RcPushCas cap x0) RcIdle []) (@nil sc_event).
  { rewrite index_cap. cbn [cells_with lookup list_lookup cell_sequence]. rewrite seq_back. reflexivity. }
  go_to (at_pc (ring (cap + 1) 2 (cells_with cap (cap + 1))) (RcPushWrite cap x0) RcIdle []) (@nil sc_event).
  { rewrite Z.eqb_refl. cbn. by rewrite word_next by lia. }
  go_to (at_pc (ring (cap + 1) 2 (cells_with cap (cap + 1))) (RcPushCommit cap) RcIdle []) (@nil sc_event).
  { rewrite index_cap. reflexivity. }
  go_to (at_pc (ring (cap + 1) 2 (cells_with (cap + 1) (cap + 1))) RcIdle RcIdle []) (@nil sc_event); [|reflexivity].
  rewrite index_cap. cbn. by rewrite word_next by lia.
Qed.

Lemma leak_run :
  traced sc_step (at_pc (ring cap 0 (cells_with 1 2)) RcIdle RcIdle []) leak_sched =
    Some (at_pc (ring (cap + 1) 2 (cells_with (cap + 1) (cap + 1))) RcIdle RcIdle [],
          [ScGot 1 x1; ScLost 1 x1; ScGot 0 x0]).
Proof using Hk Hx0 Hx1.
  unfold leak_sched. rewrite traced_app, leak_claims, traced_app, leak_takes, traced_app, leak_loses, leak_ends. reflexivity.
Qed.
End leak.

(** The first two cells of a slab's free-list as it is created. *)
Lemma created_cells k r q :
  1 ≤ k ≤ 58 → ring_at 0 r q → ring_capacity r = 2 ^ k → Z.of_nat (length q) = 2 ^ k →
  ∃ x0 x1 cells, r = mk_ring (2 ^ k) 0 (2 ^ k) (2 ^ k - 1) (cells_with x0 x1 cells 1 2) (ring_arena r) ∧
    x0 ∈ q ∧ x1 ∈ q.
Proof.
  intros Hk [_ Hm Hl _ Ht Hh Hc] Ecap Hq. pose proof (leak_capacity k Hk) as Hb. rewrite Ecap in *.
  destruct (lookup_lt_is_Some_2 q 0) as [x0 H0]; [lia|]. destruct (lookup_lt_is_Some_2 q 1) as [x1 H1]; [lia|].
  destruct (Hc 0) as (c0 & E0 & F0); [lia|]. destruct (Hc 1) as (c1 & E1 & F1); [lia|].
  unfold cell_for in F0, F1. change (Z.to_nat 0) with 0%nat in F0. change (Z.to_nat 1) with 1%nat in F1.
  rewrite H0 in F0. rewrite H1 in F1. destruct F0 as [S0 <-], F1 as [S1 <-].
  rewrite Z.mod_small in E0, E1 by lia. cbn in E0, E1.
  destruct r as [h t c m cs ar]. cbn in *. destruct cs as [|d0 [|d1 cells]]; try done. simplify_eq/=.
  exists (cell_data c0), (cell_data c1), cells. split; [|split; by eapply list_elem_of_lookup_2].
  unfold cells_with. destruct c0, c1. cbn in *. subst. rewrite Hq.
  f_equal; [apply u64_small; unfold is_u64; lia|done..].
Qed.

(** C28. A block can be lost for good although every call returns and every block is
    given back.  Of every slab [nkit_slab_create] returns, with at least two threads:
    there is a run in which two threads allocate one block each and both free it, all
    calls return and nobody holds a block, but one of the frees was refused because the
    other thread was between taking its block and releasing the cell.  From then on, in
    every continuation (of fewer than 2^60 steps), nobody ever holds that block again,
    and what is held and what is available come to one less than the capacity at most,
    at every moment. *)
Theorem slab_conc_leak n os node obj_size capacity slab calls threads :
  ArenaOS_ok os → 0 ≤ obj_size < 2 ^ 62 → 0 ≤ capacity ≤ 2 ^ 58 → slab_bytes obj_size capacity ≤ 2 ^ 62 →
  nkit_slab_create n os node obj_size capacity = Ret (Some slab, calls) → (2 ≤ threads)%nat →
  ∃ sched s es p q, traced sc_step (sc_start slab threads) sched = Some (s, es) ∧
    es = [ScGot 1 q; ScLost 1 q; ScGot 0 p] ∧ sc_live s = [] ∧
    (∀ t pc, rs_threads (sc_ring s) !! t = Some pc → pc = RcIdle) ∧
    ∀ sched' s' es', Z.of_nat (length sched') < 2 ^ 60 → traced sc_step s sched' = Some (s', es') →
      (q ∉ sc_live s') ∧
      nkit_slab_available (Some (with_freelist slab (rs_ring (sc_ring s')))) + Z.of_nat (length (sc_live s')) ≤ capacity - 1.
Proof.
  intros Hos Hobj Hcap Hb Hc Hth.
  destruct (created_ok n os node obj_size capacity slab calls Hos Hobj Hcap Hb Hc) as (Hok & Ec & k & Hk & Ek).
  pose proof (all_slots_length n os node obj_size capacity slab calls Hos Hobj Hcap Hb Hc) as Hall.
  destruct (so_rep _ _ _ Hok) as [T HT].
  pose proof (ring_at_zero T _ _ HT (slab_create_tail _ _ _ _ _ _ _ Hc)) as H0.
  destruct (created_cells k _ _ Hk H0) as (x0 & x1 & cells & Er & Hx0 & Hx1); [rewrite <-Ek, <-Ec; apply (so_cap _ _ _ Hok)|congruence|].
  assert (Hnull : ∀ p, p ∈ all_slots slab → p ≠ NULL).
  { intros p Hp. destruct (slab_ptr slab (all_slots slab) [] p Hok) as (Hge & _); [rewrite app_nil_r; done|].
    pose proof (so_base _ _ _ Hok). unfold NULL. lia. }
  destruct threads as [|[|threads]]; [lia..|].
  pose proof (leak_run k (ring_arena (slab_freelist slab)) x0 x1 cells (replicate threads RcIdle) Hk (Hnull _ Hx0) (Hnull _ Hx1)) as Hrun.
  rewrite <-Er in Hrun. exists leak_sched. do 4 eexists. split; [exact Hrun|]. split; [done|]. split; [done|]. split.
  { intros [|[|t]] pc; cbn; [by intros [= <-]..|]. by intros [-> _]%lookup_replicate. }
  intros sched' s' es' Hlen Hr'.
  assert (Hfull : traced sc_step (sc_start slab (S (S threads))) (leak_sched ++ sched') =
    Some (s', [ScGot 1 x1; ScLost 1 x1; ScGot 0 x0] ++ es')).
  { rewrite traced_app. unfold sc_start. cbn [replicate]. rewrite Hrun. by rewrite Hr'. }
  pose proof (sc_run n os node obj_size capacity slab calls Hos Hobj Hcap Hb Hc _ _ _ _ Hfull) as F. rewrite length_app in F.
  assert (Hn : Z.of_nat (length (all_slots slab) + (length leak_sched + length sched')) < 2 ^ 62) by (cbn; lia).
  destruct (free_list_out _ _ _ _ _ F Hn) as [Hnd _]; [by eapply all_slots_nodup|]. split.
  - intros Hin. apply NoDup_app in Hnd as (_ & Hnd & _). apply (Hnd _ Hin). left.
  - destruct (free_list_places _ _ _ _ _ F Hn) as (waiting & inside & P & Hw & _). apply Permutation_length in P.
    destruct (sc_inv_counters _ _ _ _ _ F Hn) as [Hle Hlt].
    rewrite !length_app in P. cbn [lost omap list_omap length app] in P. cbn [nkit_slab_available with_freelist slab_freelist].
    unfold available. destruct (Z.leb_spec (ring_tail (rs_ring (sc_ring s'))) (ring_head (rs_ring (sc_ring s')))); [|lia].
    rewrite u64_small by (unfold is_u64; lia). lia.
Qed.

Definition demo_slab_value : nkit_slab_t nkit_ring_t :=
  match demo_slab with
  | Ret (Some s, _) => s
  | _ => mk_slab None (mk_ring 0 0 0 0 [] None) 0 0 0
  end.

Lemma demo_slab_created : nkit_slab_create 1 (demo_os false true) 0 100 2 = Ret (Some demo_slab_value, []).
Proof. vm_compute. reflexivity. Qed.

Lemma slab_conc_leak_witness :
  slab_capacity demo_slab_value = 2 ∧
  ∃ sched s es p q, traced sc_step (sc_start demo_slab_value 3) sched = Some (s, es) ∧
    es = [ScGot 1 q; ScLost 1 q; ScGot 0 p] ∧ sc_live s = [].
Proof.
  split; [by vm_compute|].
  destruct (slab_conc_leak 1 (demo_os false true) 0 100 2 demo_slab_value [] 3 (demo_os_ok _ _)
    ltac:(lia) ltac:(lia) ltac:(by vm_compute) demo_slab_created ltac:(lia)) as (sched & s & es & p & q & H1 & H2 & H3 & _).
  eauto 10.
Defined.

(** The schedule up to the refusal, and the whole. *)
Definition demo_leak_before : list sc_label := take 12 leak_sched.

(** Then thread 0 claims the block that is left. *)
Definition demo_next_alloc : list sc_label := [ScAlloc 0; ScAdvance 0 false; ScAdvance 0 false; ScAdvance 0 false].

Lemma slab_conc_blocks_witness :
  match traced sc_step (sc_start demo_slab_value 2) leak_sched with
  | Some (s, es) => length (lost es) = 1%nat ∧
      nkit_slab_available (Some (with_freelist demo_slab_value (rs_ring (sc_ring s)))) = 2 - 0 - 1 ∧
      match traced sc_step s demo_next_alloc with
      | Some (s', _) => available (ring_head (rs_ring (sc_ring s))) (ring_tail (rs_ring (sc_ring s'))) ≤
          nkit_slab_available (Some (with_freelist demo_slab_value (rs_ring (sc_ring s'))))
      | None => False
      end
  | None => False
  end.
Proof.
  destruct (traced _ _ leak_sched) as [[s es]|] eqn:E; [|by vm_compute in E].
  destruct (slab_conc_blocks 1 (demo_os false true) 0 100 2 demo_slab_value [] 2 leak_sched s es (demo_os_ok _ _)
    ltac:(lia) ltac:(lia) ltac:(by vm_compute) demo_slab_created ltac:(by vm_compute) E) as (_ & _ & _ & _ & Hav & Hrace).
  destruct (traced sc_step s demo_next_alloc) as [[s' es']|] eqn:E'.
  2:{ vm_compute in E. injection E as <- <-. by vm_compute in E'. }
  pose proof (proj1 (proj2 (proj2 (Hrace demo_next_alloc s' es' ltac:(by vm_compute) E')))) as H0. clear Hrace E'.
  split; [by vm_compute in E; injection E as <- <-|]. split; [|exact H0].
  clear H0. vm_compute in E. injection E as <- <-. apply Hav. by intros [|[|t]] pc [= <-].
Defined.

Lemma slab_conc_loss_witness :
  match traced sc_step (sc_start demo_slab_value 2) demo_leak_before with
  | Some (s, es) => ∃ t' pc, t' ≠ 1%nat ∧ rs_threads (sc_ring s) !! t' = Some pc ∧
      pop_claim pc = Some (ring_head (rs_ring (sc_ring s)) - 2)
  | None => False
  end.
Proof.
  destruct (traced _ _ demo_leak_before) as [[s es]|] eqn:E; [|by vm_compute in E].
  destruct (sc_step s (ScAdvance 1 false)) as [[s' ev]|] eqn:E'.
  2:{ exfalso. vm_compute in E. injection E as <- <-. by vm_compute in E'. }
  assert (He : ∃ q, ev = [ScLost 1 q]).
  { clear -E E'. vm_compute in E. injection E as <- <-. vm_compute in E'. injection E' as <- <-. by eexists. }
  destruct He as [q ->].
  exact (proj2 (slab_conc_loss 1 (demo_os false true) 0 100 2 demo_slab_value [] 2 demo_leak_before s es _ s' _ 1 q (demo_os_ok _ _)
    ltac:(lia) ltac:(lia) ltac:(by vm_compute) demo_slab_created ltac:(by vm_compute) E E' ltac:(by left))).
Defined.
