(* ===== verification/Context.v ===== *)
(** * The library context and the node queries
    (src/internal.h, src/sched/affinity.c, src/topology/)

    The global [g_nkit_ctx] as a record passed explicitly, the functions that ask
    where the calling thread runs, and the topology queries.  The kernel, libnuma
    and hwloc are parameters. *)

From stdpp Require Import prelude.
From Stdlib Require Import ZArith Lia.
From S2P Require Import Prelude Words Double Arena Ring.
Local Open Scope Z_scope.

(** ** Data (internal.h) *)

(** A mailbox; [None] is a NULL ring, left when its creation failed. *)
Record nkit_mailbox_t (Q : Type) := mk_mailbox { mailbox_ring : option Q }.
Arguments mk_mailbox {Q}.
Arguments mailbox_ring {Q}.

(** The pointer [mailboxes]: NULL, an array with as many elements as were asked of
    [calloc] (each NULL or a mailbox), or the address of an array already freed. *)
Inductive mailbox_array (Q : Type) :=
| MbNull
| MbArray (l : list (option (nkit_mailbox_t Q)))
| MbDangling.
Arguments MbNull {Q}.
Arguments MbArray {Q}.
Arguments MbDangling {Q}.

(** [topo] is whether the handle is set. *)
Record nkit_context_t (Q : Type) := mk_ctx {
  ctx_topo : bool;
  ctx_num_nodes : Z;
  ctx_num_pus : Z;
  ctx_initialized : bool;
  ctx_active_threads : Z;
  ctx_mailboxes : mailbox_array Q;
  ctx_threshold : double;
  ctx_numa_supported : bool;
}.
Arguments mk_ctx {Q}.
Arguments ctx_topo {Q}.
Arguments ctx_num_nodes {Q}.
Arguments ctx_num_pus {Q}.
Arguments ctx_initialized {Q}.
Arguments ctx_active_threads {Q}.
Arguments ctx_mailboxes {Q}.
Arguments ctx_threshold {Q}.
Arguments ctx_numa_supported {Q}.

(** ** Where the calling thread runs (affinity.c) *)

(** Conversion of an [unsigned int] to [int]. *)
Definition s32 (z : Z) : Z :=
  let u := u32 z in if u <? 2 ^ 31 then u else u - 2 ^ 32.

Lemma s32_small z : - 2 ^ 31 ≤ z < 2 ^ 31 → s32 z = z.
Proof.
  intros Hz. unfold s32, u32. destruct (decide (0 ≤ z)).
  - rewrite Z.mod_small by lia. destruct (Z.ltb_spec z (2 ^ 31)); lia.
  - replace (z mod 2 ^ 32) with (z + 2 ^ 32) by (apply (Z.mod_unique_pos _ _ (-1)); lia).
    destruct (Z.ltb_spec (z + 2 ^ 32) (2 ^ 31)); lia.
Qed.

(** [getcpu] is what the system call wrote, [None] when it failed. *)
Definition nkit_current_node (getcpu : option (Z * Z)) : Z :=
  match getcpu with Some (_, node) => s32 node | None => -1 end.

Definition nkit_current_cpu (getcpu : option (Z * Z)) : Z :=
  match getcpu with Some (cpu, _) => s32 cpu | None => -1 end.

Definition nkit_get_current_core (sched_getcpu : Z) : Z := sched_getcpu.

Definition nkit_get_current_node (sched_getcpu numa_available : Z) (numa_node_of_cpu : Z → Z) : Z :=
  if sched_getcpu <? 0 then -1 else
  if 0 <=? numa_available then numa_node_of_cpu sched_getcpu else 0.

(** ** Topology queries (hwloc_backend.c, query.c) *)

(** What hwloc and libnuma answer about one machine: the objects of the NUMA
    level (cpuset and local memory), the processing units inside a cpuset, the
    distance table and the free memory of a node. *)
Record topo_backend := {
  hw_node : Z → option (Z * Z);
  hw_pus_inside : Z → Z;
  lib_distance : Z → Z → Z;
  lib_node_free : Z → Z;
}.

Section queries.
Context {Q : Type} (hw : topo_backend) (ctx : nkit_context_t Q).

Definition nkit_get_hwloc_node (node_id : Z) : option (Z * Z) :=
  if negb (ctx_topo ctx) then None else
  if (node_id <? 0) || (ctx_num_nodes ctx <=? node_id) then None
  else hw_node hw node_id.

Definition nkit_topo_num_nodes : Z :=
  if negb (ctx_initialized ctx) then -1 else ctx_num_nodes ctx.

Definition nkit_topo_num_cpus : Z :=
  if negb (ctx_initialized ctx) then -1 else ctx_num_pus ctx.

Definition nkit_topo_cpus_on_node (node_id : Z) : Z :=
  if negb (ctx_initialized ctx) then -1 else
  match nkit_get_hwloc_node node_id with
  | None => -1
  | Some (cpuset, _) => hw_pus_inside hw cpuset
  end.

Definition nkit_topo_distance (from_node to_node : Z) : Z :=
  if negb (ctx_initialized ctx) then -1 else
  let uma := if from_node =? to_node then 10 else 20 in
  match nkit_get_hwloc_node from_node, nkit_get_hwloc_node to_node with
  | Some _, Some _ =>
      if ctx_numa_supported ctx then
        let dist := lib_distance hw from_node to_node in
        if 0 <? dist then dist else uma
      else uma
  | _, _ => -1
  end.

(** The result and what is stored through [total_bytes] and [free_bytes]; the
    arguments say whether the caller passed a pointer. *)
Definition nkit_topo_node_memory (node_id : Z) (total_bytes free_bytes : bool)
    : Z * option Z * option Z :=
  if negb (ctx_initialized ctx) then (-1, None, None) else
  match nkit_get_hwloc_node node_id with
  | None => (-1, None, None)
  | Some (_, local_memory) =>
      (0, if total_bytes then Some local_memory else None,
       if free_bytes then
         Some (if ctx_numa_supported ctx then u64 (lib_node_free hw node_id) else local_memory)
       else None)
  end.

Definition nkit_topo_is_numa : Z :=
  if negb (ctx_initialized ctx) then 0 else if ctx_numa_supported ctx then 1 else 0.
End queries.

(** ** Properties *)

Lemma hwloc_node_valid {Q} hw (ctx : nkit_context_t Q) i :
  ctx_topo ctx = true →
  (∀ j, 0 ≤ j < ctx_num_nodes ctx → hw_node hw j ≠ None) →
  nkit_get_hwloc_node hw ctx i ≠ None ↔ 0 ≤ i < ctx_num_nodes ctx.
Proof.
  intros Ht Hn. unfold nkit_get_hwloc_node. rewrite Ht. cmp_cases; split; try done; try lia.
  intros _. apply Hn. lia.
Qed.

(** Distances: on an initialised library whose topology has an object for
    every node it counts, a distance is refused ([-1]) exactly when one of the
    node ids is out of range, and is positive otherwise; on a machine without
    NUMA support it is 10 on the diagonal and 20 elsewhere, so symmetric. *)
Theorem topo_distance_sound {Q} hw (ctx : nkit_context_t Q) i j :
  ctx_initialized ctx = true → ctx_topo ctx = true →
  (∀ k, 0 ≤ k < ctx_num_nodes ctx → hw_node hw k ≠ None) →
  (nkit_topo_distance hw ctx i j = -1 ↔
     ¬ (0 ≤ i < ctx_num_nodes ctx) ∨ ¬ (0 ≤ j < ctx_num_nodes ctx)) ∧
  (nkit_topo_distance hw ctx i j ≠ -1 → 0 < nkit_topo_distance hw ctx i j) ∧
  (ctx_numa_supported ctx = false →
     nkit_topo_distance hw ctx i j = nkit_topo_distance hw ctx j i ∧
     (0 ≤ i < ctx_num_nodes ctx → nkit_topo_distance hw ctx i i = 10)).
Proof.
  intros Hi Ht Hn. pose proof (λ k, hwloc_node_valid hw ctx k Ht Hn) as Hv.
  pose proof (Hv i) as Vi. pose proof (Hv j) as Vj. unfold nkit_topo_distance. rewrite Hi. cbn [negb].
  rewrite (Z.eqb_sym j i), Z.eqb_refl.
  destruct (nkit_get_hwloc_node hw ctx i) as [oi|];
    [assert (0 ≤ i < ctx_num_nodes ctx) by (by apply Vi)
    |assert (¬ (0 ≤ i < ctx_num_nodes ctx)) by (intros E; by apply Vi in E)];
  (destruct (nkit_get_hwloc_node hw ctx j) as [oj|];
    [assert (0 ≤ j < ctx_num_nodes ctx) by (by apply Vj)
    |assert (¬ (0 ≤ j < ctx_num_nodes ctx)) by (intros E; by apply Vj in E)]);
  clear Vi Vj Hv Hn; destruct (ctx_numa_supported ctx); cmp_cases;
  (split; [split; [lia|intros [?|?]; first [done|lia]]|split; [lia|intros ?; split; first [done|lia]]]).
Qed.

Definition demo_backend : topo_backend := {|
  hw_node i := if (0 <=? i) && (i <? 2) then Some (Z.shiftl 15 (4 * i), 2 ^ 34) else None;
  hw_pus_inside _ := 4;
  lib_distance i j := if i =? j then 10 else 21;
  lib_node_free _ := 2 ^ 33;
|}.

Definition demo_ctx {Q} (mailboxes : mailbox_array Q) : nkit_context_t Q :=
  mk_ctx true 2 8 true 0 mailboxes (dbl_of_Z 50) true.

Lemma topo_distance_sound_witness :
  nkit_topo_distance demo_backend (demo_ctx (Q:=Z) MbNull) 0 1 = 21 ∧
  nkit_topo_distance demo_backend (demo_ctx (Q:=Z) MbNull) 0 2 = -1.
Proof.
  split; [reflexivity|].
  refine (proj2 (proj1 (topo_distance_sound demo_backend (demo_ctx (Q:=Z) MbNull) 0 2
    eq_refl eq_refl _)) _).
  - intros k Hk. simpl in *. unfold hw_node, demo_backend. cmp_cases; [done|lia..].
  - right. simpl. lia.
Defined.
