(* ===== verification/PCounter.v ===== *)
(** * The partitioned counter (src/sync/pcounter.c)

    One 64-bit slot per NUMA node: additions go to the caller's slot, a read sums
    the slots one after the other while other threads keep adding.  The allocators
    and [getcpu] are parameters.  The sequential operations come first; the second
    half lets any number of threads interleave at every access to a slot. *)

From stdpp Require Import prelude gmap.
From Stdlib Require Import ZArith Lia.
From S2P Require Import Prelude Words Arena Ring Context.
Local Open Scope Z_scope.

(** ** Data *)

(** The handle with its own address, the array [slots] with its address, and
    [num_nodes].  The values live in memory, at the slots' addresses. *)
Record nkit_pcounter_t := mk_pcounter {
  pc_self : Z;
  pc_slots_addr : Z;
  pc_slots : list Z;
  pc_num_nodes : Z;
}.

Abbreviation memory := (gmap Z Z).

(** Memory obtained and released, with the allocator: [true] is libnuma's
    ([numa_alloc_onnode]/[numa_free]), [false] the C heap. *)
Inductive mem_event := Obtain (numa : bool) (p : Z) | Release (numa : bool) (p : Z).

Definition obtained (es : list mem_event) : list (bool * Z) :=
  omap (λ e, match e with Obtain b p => Some (b, p) | Release _ _ => None end) es.
Definition released (es : list mem_event) : list (bool * Z) :=
  omap (λ e, match e with Release b p => Some (b, p) | Obtain _ _ => None end) es.

(** What the allocators return: the handle, the array, the slot of each node. *)
Record pcounter_os := {
  po_malloc : Z;
  po_calloc : Z;
  po_slot : bool → Z → Z;
}.

(** ** Operations *)

Section create.
Variables (numa : bool) (os : pcounter_os).

(** The loop over nodes from [i], [n] nodes left, with the slots stored so far. *)
Fixpoint create_loop (n : nat) (i : Z) (slots : list Z) (mem : memory)
    : option (list Z) * memory * list mem_event :=
  match n with
  | O => (Some slots, mem, [])
  | S n =>
      let p := po_slot os numa i in
      if p =? NULL then
        (None, mem, ((λ q, Release numa q) <$> slots) ++
                    [Release false (po_calloc os); Release false (po_malloc os)])
      else
        let '(r, mem, es) := create_loop n (i + 1) (slots ++ [p]) (<[p := 0]> mem) in
        (r, mem, Obtain numa p :: es)
  end.

Definition nkit_pcounter_create (ctx_num_nodes : Z) (mem : memory)
    : option nkit_pcounter_t * memory * list mem_event :=
  let num_nodes := if ctx_num_nodes <=? 0 then 1 else ctx_num_nodes in
  if po_malloc os =? NULL then (None, mem, []) else
  if po_calloc os =? NULL then
    (None, mem, [Obtain false (po_malloc os); Release false (po_malloc os)])
  else
    let '(r, mem, es) := create_loop (Z.to_nat num_nodes) 0 [] mem in
    ((λ slots, mk_pcounter (po_malloc os) (po_calloc os) slots num_nodes) <$> r, mem,
     [Obtain false (po_malloc os); Obtain false (po_calloc os)] ++ es).

Fixpoint destroy_loop (c : nkit_pcounter_t) (i n : nat) : outcome (list mem_event) :=
  match n with
  | O => Ret []
  | S n =>
      match pc_slots c !! i with
      | None => UB
      | Some p =>
          let* es := destroy_loop c (S i) n in
          Ret ((if p =? NULL then [] else [Release numa p]) ++ es)
      end
  end.

Definition nkit_pcounter_destroy (counter : option nkit_pcounter_t) : outcome (list mem_event) :=
  match counter with
  | None => Ret []
  | Some c =>
      if pc_slots_addr c =? NULL then Ret [Release false (pc_self c)] else
      let* es := destroy_loop c 0 (Z.to_nat (pc_num_nodes c)) in
      Ret (es ++ [Release false (pc_slots_addr c); Release false (pc_self c)])
  end.
End create.

(** The slot an addition goes to: the caller's node, or node 0 when the node is
    unknown or was not there at creation. *)
Definition pc_node (c : nkit_pcounter_t) (getcpu : option (Z * Z)) : Z :=
  let node := nkit_current_node getcpu in
  if (node <? 0) || (pc_num_nodes c <=? node) then 0 else node.

(** The object [slots[i]->value]. *)
Definition slot_value (c : nkit_pcounter_t) (mem : memory) (i : Z) : outcome (Z * Z) :=
  match pc_slots c !! Z.to_nat i with
  | Some p => match mem !! p with Some x => Ret (p, x) | None => UB end
  | None => UB
  end.

Definition nkit_pcounter_add (c : nkit_pcounter_t) (getcpu : option (Z * Z)) (value : Z)
    (mem : memory) : outcome memory :=
  let* px := slot_value c mem (pc_node c getcpu) in
  Ret (<[px.1 := s64 (px.2 + value)]> mem).

Definition nkit_pcounter_inc c getcpu mem := nkit_pcounter_add c getcpu 1 mem.
Definition nkit_pcounter_dec c getcpu mem := nkit_pcounter_add c getcpu (-1) mem.

(** One turn of the read loop; [sum += ...] is signed, so leaving its range is
    undefined. *)
Definition read_turn (c : nkit_pcounter_t) (mem : memory) (i sum : Z) : outcome Z :=
  let* px := slot_value c mem i in
  let sum := sum + px.2 in
  if (- 2 ^ 63 <=? sum) && (sum <? 2 ^ 63) then Ret sum else UB.

Definition reset_turn (c : nkit_pcounter_t) (mem : memory) (i : Z) : outcome memory :=
  let* px := slot_value c mem i in Ret (<[px.1 := 0]> mem).

Fixpoint read_loop (c : nkit_pcounter_t) (mem : memory) (n : nat) (i sum : Z) : outcome Z :=
  match n with
  | O => Ret sum
  | S n => let* sum := read_turn c mem i sum in read_loop c mem n (i + 1) sum
  end.

Definition nkit_pcounter_read (c : nkit_pcounter_t) (mem : memory) : outcome Z :=
  read_loop c mem (Z.to_nat (pc_num_nodes c)) 0 0.

Fixpoint reset_loop (c : nkit_pcounter_t) (n : nat) (i : Z) (mem : memory) : outcome memory :=
  match n with
  | O => Ret mem
  | S n => let* mem := reset_turn c mem i in reset_loop c n (i + 1) mem
  end.

Definition nkit_pcounter_reset (c : nkit_pcounter_t) (mem : memory) : outcome memory :=
  reset_loop c (Z.to_nat (pc_num_nodes c)) 0 mem.

(** ** Several threads *)

(** Where a thread is: outside, in the read loop before slot [i], in the reset
    loop before slot [i], or past an undefined operation. *)
Inductive pc_pc :=
| PcIdle
| PcReading (i sum : Z)
| PcResetting (i : Z)
| PcFault.

Inductive pc_label :=
| PcAdd (t : nat) (getcpu : option (Z * Z)) (v : Z)
| PcRead (t : nat)
| PcReset (t : nat)
| PcStep (t : nat).

(** A read that returned, by thread. *)
Inductive pc_event := PcReadRet (t : nat) (r : Z).

Record pc_state := mk_pc_state { ps_mem : memory; ps_pcs : list pc_pc }.

Section threads.
Variable c : nkit_pcounter_t.

Definition pc_move (t : nat) (s : pc_state) (p : pc_pc) : pc_state :=
  mk_pc_state (ps_mem s) (<[t := p]> (ps_pcs s)).

Definition pc_thread_step (t : nat) (s : pc_state) : option (pc_state * list pc_event) :=
  match ps_pcs s !! t with
  | Some (PcReading i sum) =>
      if i <? pc_num_nodes c then
        match read_turn c (ps_mem s) i sum with
        | Ret sum => Some (pc_move t s (PcReading (i + 1) sum), [])
        | UB => Some (pc_move t s PcFault, [])
        end
      else Some (pc_move t s PcIdle, [PcReadRet t sum])
  | Some (PcResetting i) =>
      if i <? pc_num_nodes c then
        match reset_turn c (ps_mem s) i with
        | Ret mem => Some (mk_pc_state mem (<[t := PcResetting (i + 1)]> (ps_pcs s)), [])
        | UB => Some (pc_move t s PcFault, [])
        end
      else Some (pc_move t s PcIdle, [])
  | _ => None
  end.

Definition pc_step (s : pc_state) (l : pc_label) : option (pc_state * list pc_event) :=
  match l with
  | PcAdd t getcpu v =>
      match ps_pcs s !! t with
      | Some PcIdle =>
          match nkit_pcounter_add c getcpu v (ps_mem s) with
          | Ret mem => Some (mk_pc_state mem (ps_pcs s), [])
          | UB => Some (pc_move t s PcFault, [])
          end
      | _ => None
      end
  | PcRead t =>
      match ps_pcs s !! t with
      | Some PcIdle => Some (pc_move t s (PcReading 0 0), [])
      | _ => None
      end
  | PcReset t =>
      match ps_pcs s !! t with
      | Some PcIdle => Some (pc_move t s (PcResetting 0), [])
      | _ => None
      end
  | PcStep t => pc_thread_step t s
  end.
End threads.

(** ** Invariant *)

Definition zsum (l : list Z) : Z := foldr Z.add 0 l.

(** The values of the slots, in node order. *)
Definition vals (c : nkit_pcounter_t) (mem : memory) : list Z :=
  (λ p, default 0 (mem !! p)) <$> pc_slots c.

Record pc_ok (c : nkit_pcounter_t) (mem : memory) : Prop := {
  pk_len : Z.of_nat (length (pc_slots c)) = pc_num_nodes c;
  pk_pos : 1 ≤ pc_num_nodes c;
  pk_nodup : NoDup (pc_slots c);
  pk_mem : ∀ p, p ∈ pc_slots c → is_Some (mem !! p);
}.

(** ** Helper lemmas *)

Lemma zsum_app l k : zsum (l ++ k) = zsum l + zsum k.
Proof. induction l; simpl; lia. Qed.

Lemma zsum_insert l i x y : l !! i = Some y → zsum (<[i:=x]> l) = zsum l + x - y.
Proof.
  revert i. induction l as [|z l IH]; intros [|i] H; simplify_eq/=; [lia|].
  rewrite (IH i H). lia.
Qed.

Lemma zsum_abs l k : zsum (Z.abs <$> l) < k → - k < zsum l < k.
Proof.
  revert k. induction l as [|z l IH]; intros k H; csimpl in *; [lia|].
  specialize (IH (k - Z.abs z)). lia.
Qed.

Lemma zsum_nonneg l : Forall (λ x, 0 ≤ x) l → 0 ≤ zsum l.
Proof. induction 1; simpl; lia. Qed.

Lemma zsum_take_S l i x : l !! i = Some x → zsum (take (S i) l) = zsum (take i l) + x.
Proof. intros H. rewrite (take_S_r l i x H), zsum_app. simpl. lia. Qed.

Lemma zsum_take_drop l i : zsum l = zsum (take i l) + zsum (drop i l).
Proof. by rewrite <-zsum_app, take_drop. Qed.

Lemma zsum_abs_take l i : zsum (Z.abs <$> take i l) ≤ zsum (Z.abs <$> l).
Proof.
  rewrite <-(take_drop i l) at 2. rewrite fmap_app, zsum_app.
  pose proof (zsum_nonneg (Z.abs <$> drop i l)) as H. apply Z.le_sub_le_add_l.
  rewrite Z.sub_diag. apply H. apply Forall_fmap, Forall_true. intros. simpl. lia.
Qed.

Section invariant.
Context (c : nkit_pcounter_t).

Lemma vals_length mem : length (vals c mem) = length (pc_slots c).
Proof. apply length_fmap. Qed.

Lemma slot_value_ok mem i :
  pc_ok c mem → 0 ≤ i < pc_num_nodes c →
  ∃ p x, slot_value c mem i = Ret (p, x) ∧ pc_slots c !! Z.to_nat i = Some p ∧
    vals c mem !! Z.to_nat i = Some x.
Proof.
  intros [Hl Hp Hn Hm] Hi. unfold slot_value.
  destruct (lookup_lt_is_Some_2 (pc_slots c) (Z.to_nat i)) as [p Hs]; [lia|].
  destruct (Hm p) as [x Hx]; [by eapply list_elem_of_lookup_2|].
  exists p, x. rewrite Hs, Hx. split; [done|]. split; [done|].
  unfold vals. by rewrite list_lookup_fmap, Hs, <-Hx; simpl; rewrite Hx.
Qed.

(** A store to a slot changes that slot only. *)
Lemma vals_store mem i p v :
  pc_ok c mem → pc_slots c !! i = Some p →
  vals c (<[p := v]> mem) = <[i := v]> (vals c mem) ∧ pc_ok c (<[p := v]> mem).
Proof.
  intros [Hl Hp Hn Hm] Hi. split.
  - apply list_eq. intros j. pose proof (lookup_lt_Some _ _ _ Hi).
    rewrite lookup_insert_decide by by rewrite vals_length.
    unfold vals. rewrite !list_lookup_fmap. case_decide as E; subst.
    + rewrite Hi. simpl. by rewrite lookup_insert_eq.
    + destruct (pc_slots c !! j) as [q|] eqn:Hj; simpl; [|done].
      rewrite lookup_insert_ne; [done|]. intros ->. apply E. by eapply NoDup_lookup.
  - split; try done. intros q Hq. destruct (decide (q = p)) as [->|].
    + rewrite lookup_insert_eq. eauto.
    + rewrite lookup_insert_ne by done. auto.
Qed.

Lemma pc_node_range mem g : pc_ok c mem → 0 ≤ pc_node c g < pc_num_nodes c.
Proof. intros [_ Hp _ _]. unfold pc_node. cmp_cases; lia. Qed.

Lemma add_ok mem g v :
  pc_ok c mem →
  ∃ x mem', nkit_pcounter_add c g v mem = Ret mem' ∧ pc_ok c mem' ∧
    vals c mem !! Z.to_nat (pc_node c g) = Some x ∧
    vals c mem' = <[Z.to_nat (pc_node c g) := s64 (x + v)]> (vals c mem).
Proof.
  intros H. pose proof (pc_node_range mem g H) as Hg.
  destruct (slot_value_ok mem (pc_node c g) H Hg) as (p & x & E & Hs & Hv).
  unfold nkit_pcounter_add. rewrite E. simpl.
  destruct (vals_store mem _ p (s64 (x + v)) H Hs). eauto 10.
Qed.

Lemma reset_turn_ok mem i :
  pc_ok c mem → 0 ≤ i < pc_num_nodes c →
  ∃ mem', reset_turn c mem i = Ret mem' ∧ pc_ok c mem' ∧
    vals c mem' = <[Z.to_nat i := 0]> (vals c mem).
Proof.
  intros H Hi. destruct (slot_value_ok mem i H Hi) as (p & x & E & Hs & Hv).
  unfold reset_turn. rewrite E. simpl. destruct (vals_store mem _ p 0 H Hs). eauto.
Qed.

Lemma read_turn_ok mem i sum :
  pc_ok c mem → 0 ≤ i < pc_num_nodes c →
  ∃ x, vals c mem !! Z.to_nat i = Some x ∧
    (- 2 ^ 63 ≤ sum + x < 2 ^ 63 → read_turn c mem i sum = Ret (sum + x)).
Proof.
  intros H Hi. destruct (slot_value_ok mem i H Hi) as (p & x & E & Hs & Hv).
  exists x. split; [done|]. intros Hr. unfold read_turn. rewrite E. simpl. cmp_cases; [done|lia..].
Qed.

(** ** The loops, run alone *)

Lemma read_loop_ok mem n : ∀ i,
  pc_ok c mem → zsum (Z.abs <$> vals c mem) < 2 ^ 63 → 0 ≤ i →
  i + Z.of_nat n = pc_num_nodes c →
  read_loop c mem n i (zsum (take (Z.to_nat i) (vals c mem))) = Ret (zsum (vals c mem)).
Proof.
  induction n as [|n IH]; intros i H Hb Hi E; cbn [read_loop].
  - rewrite take_ge; [done|]. rewrite vals_length. pose proof (pk_len _ _ H). lia.
  - destruct (read_turn_ok mem i (zsum (take (Z.to_nat i) (vals c mem))) H) as (x & Hx & Hr); [lia|].
    rewrite <-(zsum_take_S _ _ _ Hx), <-Z2Nat.inj_succ in Hr by lia.
    rewrite Hr; cbn [obind].
    + apply (IH (i + 1)); auto; lia.
    + pose proof (zsum_abs_take (vals c mem) (Z.to_nat (Z.succ i))).
      pose proof (zsum_abs (take (Z.to_nat (Z.succ i)) (vals c mem)) (2 ^ 63)). lia.
Qed.

Lemma reset_loop_ok n : ∀ i mem,
  pc_ok c mem → 0 ≤ i → i + Z.of_nat n = pc_num_nodes c →
  (∀ j x, 0 ≤ j < i → vals c mem !! Z.to_nat j = Some x → x = 0) →
  ∃ mem', reset_loop c n i mem = Ret mem' ∧ pc_ok c mem' ∧ Forall (.= 0) (vals c mem').
Proof.
  induction n as [|n IH]; intros i mem H Hi E Hz; cbn [reset_loop].
  - exists mem. split; [done|]. split; [done|]. apply Forall_lookup. intros j x Hj.
    pose proof (lookup_lt_Some _ _ _ Hj) as Hl. rewrite vals_length in Hl.
    pose proof (pk_len _ _ H). apply (Hz (Z.of_nat j)); [lia|]. by rewrite Nat2Z.id.
  - destruct (reset_turn_ok mem i H) as (mem1 & -> & H1 & Ev); [lia|]. cbn [obind].
    apply IH; auto; [lia..|]. intros j x Hj Hx. rewrite Ev in Hx.
    apply list_lookup_insert_Some in Hx as [(_ & <- & _)|[Hne Hx]]; [done|].
    apply (Hz j); [|done]. destruct (decide (j = i)); [by subst|lia].
Qed.
End invariant.

(** ** Specification: one integer *)

Inductive pc_op :=
| OpAdd (getcpu : option (Z * Z)) (v : Z)
| OpInc (getcpu : option (Z * Z))
| OpDec (getcpu : option (Z * Z))
| OpRead
| OpReset.

Definition op_delta (o : pc_op) : Z :=
  match o with OpAdd _ v => v | OpInc _ => 1 | OpDec _ => -1 | OpRead | OpReset => 0 end.

(** The values the reads of a run must return. *)
Fixpoint counter_spec (total : Z) (ops : list pc_op) : list Z :=
  match ops with
  | [] => []
  | OpRead :: ops => total :: counter_spec total ops
  | OpReset :: ops => counter_spec 0 ops
  | o :: ops => counter_spec (total + op_delta o) ops
  end.

Definition pc_exec_op (c : nkit_pcounter_t) (o : pc_op) (mem : memory) : outcome (list Z * memory) :=
  match o with
  | OpAdd g v => let* mem := nkit_pcounter_add c g v mem in Ret ([], mem)
  | OpInc g => let* mem := nkit_pcounter_inc c g mem in Ret ([], mem)
  | OpDec g => let* mem := nkit_pcounter_dec c g mem in Ret ([], mem)
  | OpRead => let* r := nkit_pcounter_read c mem in Ret ([r], mem)
  | OpReset => let* mem := nkit_pcounter_reset c mem in Ret ([], mem)
  end.

Fixpoint pc_exec (c : nkit_pcounter_t) (ops : list pc_op) (mem : memory) : outcome (list Z * memory) :=
  match ops with
  | [] => Ret ([], mem)
  | o :: ops =>
      let* r1 := pc_exec_op c o mem in
      let* r2 := pc_exec c ops r1.2 in
      Ret (r1.1 ++ r2.1, r2.2)
  end.

Definition magnitude (c : nkit_pcounter_t) (mem : memory) : Z := zsum (Z.abs <$> vals c mem).

Lemma magnitude_nonneg c mem : 0 ≤ magnitude c mem.
Proof. apply zsum_nonneg, Forall_fmap, Forall_true. intros. simpl. lia. Qed.

Lemma zsum_zero l : Forall (.= 0) l → zsum l = 0 ∧ zsum (Z.abs <$> l) = 0.
Proof. induction 1 as [|x l -> _ IH]; csimpl; lia. Qed.

Lemma add_total c mem g v :
  pc_ok c mem → magnitude c mem + Z.abs v < 2 ^ 63 →
  ∃ mem', nkit_pcounter_add c g v mem = Ret mem' ∧ pc_ok c mem' ∧
    zsum (vals c mem') = zsum (vals c mem) + v ∧
    magnitude c mem' ≤ magnitude c mem + Z.abs v.
Proof.
  intros H Hb. destruct (add_ok c mem g v H) as (x & mem' & E & H' & Hx & Ev).
  exists mem'. split; [done|]. split; [done|]. unfold magnitude in *.
  pose proof (zsum_insert (Z.abs <$> vals c mem) _ 0 (Z.abs x) ltac:(by rewrite list_lookup_fmap, Hx)) as Hi.
  assert (Hnn : 0 ≤ zsum (<[Z.to_nat (pc_node c g) := 0]> (Z.abs <$> vals c mem))).
  { apply zsum_nonneg, Forall_insert; [|lia]. apply Forall_fmap, Forall_true. intros. simpl. lia. }
  rewrite Ev, s64_small by lia. split.
  - rewrite (zsum_insert _ _ _ x) by done. lia.
  - rewrite list_fmap_insert, (zsum_insert _ _ _ (Z.abs x)) by by rewrite list_lookup_fmap, Hx. lia.
Qed.

Lemma exec_op_ok c o mem :
  pc_ok c mem → magnitude c mem + Z.abs (op_delta o) < 2 ^ 63 →
  ∃ out mem', pc_exec_op c o mem = Ret (out, mem') ∧ pc_ok c mem' ∧
    (∀ ops, counter_spec (zsum (vals c mem)) (o :: ops) = out ++ counter_spec (zsum (vals c mem')) ops) ∧
    magnitude c mem' ≤ magnitude c mem + Z.abs (op_delta o).
Proof.
  intros H Hb.
  destruct o as [g v|g|g| |]; cbn [pc_exec_op op_delta counter_spec] in *;
    unfold nkit_pcounter_inc, nkit_pcounter_dec.
  1-3: edestruct (add_total c mem g) as (mem' & -> & ? & E & ?);
    [done|exact Hb|exists [], mem'; split_and!; rewrite ?E; done].
  - unfold nkit_pcounter_read. pose proof (pk_len _ _ H). pose proof (pk_pos _ _ H).
    pose proof (read_loop_ok c mem (Z.to_nat (pc_num_nodes c)) 0 H ltac:(unfold magnitude in Hb; lia)
      ltac:(lia) ltac:(lia)) as E.
    change (zsum (take (Z.to_nat 0) (vals c mem))) with 0 in E. rewrite E.
    exists [zsum (vals c mem)], mem. split_and!; try done. lia.
  - unfold nkit_pcounter_reset. pose proof (pk_pos _ _ H).
    destruct (reset_loop_ok c (Z.to_nat (pc_num_nodes c)) 0 mem H) as (mem' & -> & H' & Hz); [lia..|intros; lia|].
    pose proof (pk_len _ _ H). destruct (zsum_zero _ Hz) as [Ez Em].
    exists [], mem'. cbn [obind]. split_and!; try done.
    + by rewrite Ez.
    + pose proof (magnitude_nonneg c mem). unfold magnitude in *. lia.
Qed.

Lemma pc_exec_ok c ops : ∀ mem,
  pc_ok c mem → magnitude c mem + zsum ((λ o, Z.abs (op_delta o)) <$> ops) < 2 ^ 63 →
  ∃ mem', pc_exec c ops mem = Ret (counter_spec (zsum (vals c mem)) ops, mem') ∧ pc_ok c mem'.
Proof.
  induction ops as [|o ops IH]; intros mem H Hb; cbn [pc_exec].
  - eexists. done.
  - csimpl in Hb. assert (0 ≤ zsum ((λ o, Z.abs (op_delta o)) <$> ops)).
    { apply zsum_nonneg, Forall_fmap, Forall_true. intros. simpl. lia. }
    destruct (exec_op_ok c o mem H) as (out & mem1 & -> & H1 & E1 & Hm); [lia|]. cbn [obind fst snd].
    destruct (IH mem1 H1) as (mem2 & -> & H2); [lia|]. rewrite E1. eexists. done.
Qed.

(** ** Creation *)

Lemma obtained_app es1 es2 : obtained (es1 ++ es2) = obtained es1 ++ obtained es2.
Proof. apply omap_app. Qed.

Lemma released_app es1 es2 : released (es1 ++ es2) = released es1 ++ released es2.
Proof. apply omap_app. Qed.

Lemma obtained_releases numa slots : obtained ((λ q, Release numa q) <$> slots) = [].
Proof. by induction slots. Qed.

Lemma released_releases numa slots : released ((λ q, Release numa q) <$> slots) = ((numa,.) <$> slots).
Proof. induction slots as [|p slots IH]; csimpl; [done|]. by rewrite <-IH. Qed.

(** The slots the loop obtains, and that it releases them and the two blocks
    obtained before it when it fails. *)
Lemma create_loop_spec numa os n : ∀ i slots mem r mem' es,
  create_loop numa os n i slots mem = (r, mem', es) →
  match r with
  | Some all => ∃ new, all = slots ++ new ∧ length new = n ∧
      new = ((λ k, po_slot os numa (i + Z.of_nat k)) <$> seq 0 n) ∧ (NULL ∉ new) ∧
      obtained es = ((numa,.) <$> new) ∧ released es = [] ∧
      (∀ p, p ∈ new → mem' !! p = Some 0) ∧ (∀ p, p ∉ new → mem' !! p = mem !! p)
  | None => released es ≡ₚ obtained es ++ ((numa,.) <$> slots) ++ [(false, po_calloc os); (false, po_malloc os)]
  end.
Proof.
  induction n as [|n IH]; intros i slots mem r mem' es E; cbn [create_loop] in E.
  - simplify_eq. exists []. rewrite app_nil_r. split_and!; try done. all: set_solver.
  - destruct (Z.eqb_spec (po_slot os numa i) NULL) as [Ez|Hz].
    + simplify_eq. rewrite released_app, released_releases, obtained_app, obtained_releases. done.
    + destruct (create_loop _ _ _ _ _ _) as [[r1 mem1] es1] eqn:E1. simplify_eq.
      apply IH in E1. destruct r as [all|].
      * destruct E1 as (new & -> & Hl & Hnew & Hnn & Ho & Hr & Hm & Hm').
        exists (po_slot os numa i :: new). rewrite <-app_assoc. split; [done|].
        split; [by simpl; f_equal|]. split.
        { csimpl. f_equal; [by rewrite Z.add_0_r|]. rewrite Hnew, <-fmap_S_seq, <-list_fmap_compose.
          apply list_fmap_ext. intros _ k _. simpl. f_equal. lia. }
        split; [apply not_elem_of_cons; by split|]. split; [csimpl; by rewrite <-Ho|].
        split; [done|]. split.
        { intros p. destruct (decide (p ∈ new)) as [|Hp]; [auto|].
          intros [->|?]%elem_of_cons; [|done]. by rewrite Hm', lookup_insert_eq. }
        { intros p [??]%not_elem_of_cons. by rewrite Hm', lookup_insert_ne. }
      * csimpl.
        rewrite E1, fmap_app, <-!app_assoc. csimpl.
        by rewrite (Permutation_middle (obtained es1)), (Permutation_middle ((numa,.) <$> slots)).
Qed.

Lemma destroy_loop_spec numa c n : ∀ i,
  (i + n = length (pc_slots c))%nat → NULL ∉ pc_slots c →
  destroy_loop numa c i n = Ret ((λ q, Release numa q) <$> drop i (pc_slots c)).
Proof.
  induction n as [|n IH]; intros i Hl Hn; cbn [destroy_loop].
  - by rewrite drop_ge by lia.
  - destruct (lookup_lt_is_Some_2 (pc_slots c) i) as [p Hp]; [lia|].
    rewrite Hp, IH by (auto; lia). cbn [obind]. rewrite (drop_S _ _ _ Hp).
    destruct (Z.eqb_spec p NULL) as [->|]; [|done].
    exfalso. apply Hn. by eapply list_elem_of_lookup_2.
Qed.

(** ** Interleavings: additions, and one read in progress *)

Definition label_adds (l : pc_label) : Prop :=
  match l with PcAdd _ _ v => 0 ≤ v | PcReset _ => False | _ => True end.

Definition label_delta (l : pc_label) : Z :=
  match l with PcAdd _ _ v => v | _ => 0 end.

Definition label_thread (l : pc_label) : nat :=
  match l with PcAdd t _ _ | PcRead t | PcReset t | PcStep t => t end.

(** How often thread [t] takes a step of its own in a schedule. *)
Fixpoint own_steps (t : nat) (ls : list pc_label) : Z :=
  match ls with
  | [] => 0
  | PcStep u :: ls => (if decide (u = t) then 1 else 0) + own_steps t ls
  | _ :: ls => own_steps t ls
  end.

Definition pc_total (c : nkit_pcounter_t) (s : pc_state) : Z := zsum (vals c (ps_mem s)).

(** Counting up: no thread resets, slots are not negative. *)
Record pc_up (c : nkit_pcounter_t) (s : pc_state) : Prop := {
  pu_ok : pc_ok c (ps_mem s);
  pu_nonneg : Forall (λ x, 0 ≤ x) (vals c (ps_mem s));
  pu_reset : ∀ t i, ps_pcs s !! t ≠ Some (PcResetting i);
}.

Lemma zsum_lookup_le l i x : Forall (λ x, 0 ≤ x) l → l !! i = Some x → 0 ≤ x ≤ zsum l.
Proof.
  intros Hf Hi. rewrite (zsum_take_drop l (S i)), (zsum_take_S _ _ _ Hi).
  pose proof (zsum_nonneg _ (Forall_take (λ x, 0 ≤ x) i l Hf)).
  pose proof (zsum_nonneg _ (Forall_drop (λ x, 0 ≤ x) (S i) l Hf)).
  pose proof (Forall_lookup_1 _ _ _ _ Hf Hi). simpl in *. lia.
Qed.

(** An addition, prefix by prefix: sums of an initial segment grow by at most
    the addend and never shrink. *)
Lemma insert_prefix l i x v k :
  l !! i = Some x → 0 ≤ v →
  zsum (take k l) ≤ zsum (take k (<[i := x + v]> l)) ≤ zsum (take k l) + v.
Proof.
  intros Hi Hv. destruct (decide (i < k)%nat).
  - rewrite take_insert_lt by done. rewrite (zsum_insert _ _ _ x) by (by rewrite lookup_take_lt). lia.
  - rewrite take_insert_ge by lia. lia.
Qed.

Lemma up_add c s g v :
  pc_up c s → 0 ≤ v → pc_total c s + v < 2 ^ 63 →
  ∃ mem', nkit_pcounter_add c g v (ps_mem s) = Ret mem' ∧ pc_up c (mk_pc_state mem' (ps_pcs s)) ∧
    zsum (vals c mem') = pc_total c s + v ∧
    ∀ k, zsum (take k (vals c (ps_mem s))) ≤ zsum (take k (vals c mem')) ≤
         zsum (take k (vals c (ps_mem s))) + v.
Proof.
  intros [Hok Hnn Hre] Hv Hb. unfold pc_total in *.
  destruct (add_ok c (ps_mem s) g v Hok) as (x & mem' & E & H' & Hx & Ev).
  pose proof (zsum_lookup_le _ _ _ Hnn Hx). rewrite s64_small in Ev by lia.
  exists mem'. split; [done|]. split; [|split].
  - split; simpl; auto. rewrite Ev. apply Forall_insert; [done|lia].
  - rewrite Ev, (zsum_insert _ _ _ x) by done. lia.
  - intros k. rewrite Ev. by apply insert_prefix.
Qed.

Lemma up_move c s t p :
  pc_up c s → (∀ i, p ≠ PcResetting i) → pc_up c (pc_move t s p).
Proof.
  intros [Hok Hnn Hre] Hp. split; simpl; auto. intros u i Hu.
  apply list_lookup_insert_Some in Hu as [(_ & -> & _)|[_ Hu]]; [by apply (Hp i)|by apply (Hre u i)].
Qed.

(** One step while counting up. *)
Lemma up_step c s l s' es :
  pc_up c s → label_adds l → pc_total c s + label_delta l < 2 ^ 63 →
  pc_step c s l = Some (s', es) →
  pc_up c s' ∧ pc_total c s' = pc_total c s + label_delta l ∧
  (∀ k, zsum (take k (vals c (ps_mem s))) ≤ zsum (take k (vals c (ps_mem s'))) ≤
        zsum (take k (vals c (ps_mem s))) + label_delta l) ∧
  (∀ u, label_thread l ≠ u → ps_pcs s' !! u = ps_pcs s !! u ∧ ∀ r, PcReadRet u r ∉ es).
Proof.
  intros Hup Hl Hb E.
  assert (Hmove : ∀ t p, (∀ i, p ≠ PcResetting i) → (s', es) = (pc_move t s p, es) →
    label_thread l = t → label_delta l = 0 → (∀ u r, t ≠ u → PcReadRet u r ∉ es) →
    pc_up c s' ∧ pc_total c s' = pc_total c s + label_delta l ∧
    (∀ k, zsum (take k (vals c (ps_mem s))) ≤ zsum (take k (vals c (ps_mem s'))) ≤
          zsum (take k (vals c (ps_mem s))) + label_delta l) ∧
    (∀ u, label_thread l ≠ u → ps_pcs s' !! u = ps_pcs s !! u ∧ ∀ r, PcReadRet u r ∉ es)).
  { intros t p Hp Es Et Ed He. injection Es as ->. rewrite Ed. split; [by apply up_move|].
    unfold pc_total. simpl. split; [lia|]. split; [lia|]. intros u Hu. subst t.
    rewrite list_lookup_insert_ne by done. split; [done|]. eauto. }
  destruct l as [t g v|t|t|t]; cbn [pc_step] in E.
  - destruct (ps_pcs s !! t) as [[]|]; try done. cbn [label_adds label_delta] in *.
    destruct (up_add c s g v Hup Hl Hb) as (mem' & Ea & Hup' & Et & Hk). rewrite Ea in E. simplify_eq.
    split; [done|]. split; [done|]. split; [done|]. intros u _. split; [done|]. intros r. apply not_elem_of_nil.
  - destruct (ps_pcs s !! t) as [[]|]; try done. simplify_eq.
    apply (Hmove t (PcReading 0 0)); try done. intros u r _. apply not_elem_of_nil.
  - done.
  - unfold pc_thread_step in E. destruct (ps_pcs s !! t) as [[|i sum|i|]|] eqn:Et; try done.
    + destruct (i <? pc_num_nodes c).
      * destruct (read_turn c (ps_mem s) i sum) as [sum'|]; simplify_eq;
          [apply (Hmove t (PcReading (i + 1) sum'))|apply (Hmove t PcFault)]; try done;
          intros u r _; apply not_elem_of_nil.
      * simplify_eq. apply (Hmove t PcIdle); try done.
        intros u r Hne [=]%list_elem_of_singleton. congruence.
    + by destruct (pu_reset _ _ Hup t i).
Qed.

(** A thread's own step inside the read loop. *)
Lemma up_read_step c s t i sum s' es :
  pc_up c s → ps_pcs s !! t = Some (PcReading i sum) → 0 ≤ i → 0 ≤ sum →
  sum ≤ zsum (take (Z.to_nat i) (vals c (ps_mem s))) → pc_total c s < 2 ^ 63 →
  pc_step c s (PcStep t) = Some (s', es) →
  (pc_num_nodes c ≤ i ∧ es = [PcReadRet t sum]) ∨
  (i < pc_num_nodes c ∧ es = [] ∧ ∃ x, vals c (ps_mem s) !! Z.to_nat i = Some x ∧ 0 ≤ x ∧
     s' = pc_move t s (PcReading (i + 1) (sum + x))).
Proof.
  intros Hup Ht Hi Hsum Hle Hb E. cbn [pc_step] in E. unfold pc_thread_step in E. rewrite Ht in E.
  destruct (Z.ltb_spec i (pc_num_nodes c)) as [Hlt|Hge]; [right|left; split; [done|by simplify_eq]].
  destruct (read_turn_ok c (ps_mem s) i sum (pu_ok _ _ Hup)) as (x & Hx & Hr); [lia|].
  pose proof (zsum_lookup_le _ _ _ (pu_nonneg _ _ Hup) Hx). unfold pc_total in Hb.
  pose proof (zsum_take_drop (vals c (ps_mem s)) (S (Z.to_nat i))) as Hsp.
  rewrite (zsum_take_S _ _ _ Hx) in Hsp.
  pose proof (zsum_nonneg _ (Forall_drop _ (S (Z.to_nat i)) _ (pu_nonneg _ _ Hup))).
  rewrite Hr in E by lia. simplify_eq. split; [done|]. split; [done|].
  exists x. split; [done|]. split; [lia|done].
Qed.

Lemma deltas_nonneg ls : Forall label_adds ls → 0 ≤ zsum (label_delta <$> ls).
Proof.
  induction 1 as [|l ls Hl _ IH]; csimpl; [done|].
  destruct l; simpl in *; try done. lia.
Qed.

Lemma up_trace_total c ls : ∀ s s' es,
  pc_up c s → Forall label_adds ls → pc_total c s + zsum (label_delta <$> ls) < 2 ^ 63 →
  traced (pc_step c) s ls = Some (s', es) →
  pc_up c s' ∧ pc_total c s' = pc_total c s + zsum (label_delta <$> ls).
Proof.
  induction ls as [|l ls IH]; intros s s' es Hup Hf Hb E; cbn [traced] in E; csimpl in *.
  - simplify_eq. split; [done|lia].
  - apply Forall_cons in Hf as [Hl Hf]. destruct (pc_step c s l) as [[s1 es1]|] eqn:E1; [|done].
    destruct (traced (pc_step c) s1 ls) as [[s2 es2]|] eqn:E2; [|done]. simplify_eq.
    pose proof (deltas_nonneg ls Hf).
    destruct (up_step c s l s1 es1 Hup Hl ltac:(lia) E1) as (Hup1 & Et & _).
    destruct (IH s1 s' es2 Hup1 Hf ltac:(lia) E2). split; [done|lia].
Qed.

(** A read in progress, followed through a whole schedule: it has returned a
    value between the totals, or it is still under way after as many of its own
    steps as the schedule has. *)
Lemma up_read_trace c t T0 ls : ∀ s s' es i sum,
  pc_up c s → Forall label_adds ls → pc_total c s + zsum (label_delta <$> ls) < 2 ^ 63 →
  traced (pc_step c) s ls = Some (s', es) →
  ps_pcs s !! t = Some (PcReading i sum) → 0 ≤ i ≤ pc_num_nodes c → 0 ≤ sum →
  sum ≤ zsum (take (Z.to_nat i) (vals c (ps_mem s))) →
  T0 ≤ sum + zsum (drop (Z.to_nat i) (vals c (ps_mem s))) →
  (∃ es1 r es2, es = es1 ++ PcReadRet t r :: es2 ∧ (∀ r', PcReadRet t r' ∉ es1) ∧
     T0 ≤ r ≤ pc_total c s') ∨
  (i + own_steps t ls ≤ pc_num_nodes c ∧ ∀ r', PcReadRet t r' ∉ es).
Proof.
  induction ls as [|l ls IH]; intros s s' es i sum Hup Hf Hb E Ht Hi H0 Hlo Hhi;
    cbn [traced] in E; csimpl in *.
  - simplify_eq. right. split; [lia|]. intros. apply not_elem_of_nil.
  - apply Forall_cons in Hf as [Hl Hf]. destruct (pc_step c s l) as [[s1 es1]|] eqn:E1; [|done].
    destruct (traced (pc_step c) s1 ls) as [[s2 es2]|] eqn:E2; [|done]. simplify_eq.
    pose proof (deltas_nonneg ls Hf).
    assert (0 ≤ label_delta l) by (destruct l; simpl in *; lia).
    destruct (up_step c s l s1 es1 Hup Hl ltac:(lia) E1) as (Hup1 & Et & Hk & Hoth).
    assert (Htail : ∀ i' sum', ps_pcs s1 !! t = Some (PcReading i' sum') → 0 ≤ i' ≤ pc_num_nodes c →
      0 ≤ sum' → sum' ≤ zsum (take (Z.to_nat i') (vals c (ps_mem s1))) →
      T0 ≤ sum' + zsum (drop (Z.to_nat i') (vals c (ps_mem s1))) →
      (∀ r', PcReadRet t r' ∉ es1) → i' + own_steps t ls = i + own_steps t (l :: ls) →
      (∃ es3 r es4, es1 ++ es2 = es3 ++ PcReadRet t r :: es4 ∧ (∀ r', PcReadRet t r' ∉ es3) ∧
         T0 ≤ r ≤ pc_total c s') ∨
      (i + own_steps t (l :: ls) ≤ pc_num_nodes c ∧ ∀ r', PcReadRet t r' ∉ es1 ++ es2)).
    { intros i' sum' Ht' Hi' H0' Hlo' Hhi' Hno Hown.
      destruct (IH s1 s' es2 i' sum' Hup1 Hf ltac:(lia) E2 Ht' Hi' H0' Hlo' Hhi')
        as [(es3 & r & es4 & -> & Hn & Hr)|[Hle Hn]].
      - left. exists (es1 ++ es3), r, es4. rewrite <-app_assoc. split; [done|]. split; [|done].
        intros r' [?|?]%elem_of_app; [by apply (Hno r')|by apply (Hn r')].
      - right. split; [lia|]. intros r' [?|?]%elem_of_app; [by apply (Hno r')|by apply (Hn r')]. }
    destruct (decide (label_thread l = t)) as [Hlt|Hne].
    + destruct l as [u g v|u|u|u]; simpl in Hlt; subst u; cbn [pc_step] in E1.
      1-3: by rewrite Ht in E1.
      destruct (up_read_step c s t i sum s1 es1 Hup Ht) as [[Hge ->]|(Hlt & -> & x & Hx & Hx0 & ->)];
        try done; try lia.
      * left. exists [], sum, es2. split; [done|]. split; [intros; apply not_elem_of_nil|].
        split.
        { rewrite drop_ge in Hhi; [simpl in Hhi; lia|]. rewrite vals_length.
          pose proof (pk_len _ _ (pu_ok _ _ Hup)). lia. }
        pose proof (zsum_take_drop (vals c (ps_mem s)) (Z.to_nat i)).
        pose proof (zsum_nonneg _ (Forall_drop _ (Z.to_nat i) _ (pu_nonneg _ _ Hup))).
        destruct (up_trace_total c ls s1 s' es2 Hup1 Hf ltac:(lia) E2) as [_ Etot].
        unfold pc_total in *. lia.
      * rewrite (drop_S _ _ _ Hx) in Hhi. simpl in Hhi.
        apply (Htail (i + 1) (sum + x)); simpl; try lia.
        -- apply list_lookup_insert_eq. by eapply lookup_lt_Some.
        -- replace (Z.to_nat (i + 1)) with (S (Z.to_nat i)) by lia. rewrite (zsum_take_S _ _ _ Hx). lia.
        -- replace (Z.to_nat (i + 1)) with (S (Z.to_nat i)) by lia. lia.
        -- intros. apply not_elem_of_nil.
        -- rewrite decide_True by done. lia.
    + destruct (Hoth t Hne) as [Ep Hno]. specialize (Hk (Z.to_nat i)).
      apply (Htail i sum); try done; [by rewrite Ep|lia| |].
      * pose proof (zsum_take_drop (vals c (ps_mem s)) (Z.to_nat i)).
        pose proof (zsum_take_drop (vals c (ps_mem s1)) (Z.to_nat i)). unfold pc_total in *. lia.
      * destruct l; simpl in *; try done. by rewrite decide_False.
Qed.

Lemma slots_distinct (f : Z → Z) n :
  (∀ i j, 0 ≤ i < j → f i ≠ NULL → f i ≠ f j) → NULL ∉ ((λ k, f (0 + Z.of_nat k)) <$> seq 0 n) →
  NoDup ((λ k, f (0 + Z.of_nat k)) <$> seq 0 n).
Proof.
  intros Hd Hnn. apply NoDup_fmap_2_strong; [|apply NoDup_seq]. intros x y Hx Hy Exy.
  assert (Hin : ∀ k, k ∈ seq 0 n → f (0 + Z.of_nat k) ≠ NULL).
  { intros k Hk Ek. apply Hnn. rewrite <-Ek. by apply (list_elem_of_fmap_2 (λ k, f (0 + Z.of_nat k))). }
  destruct (Nat.lt_trichotomy x y) as [Hlt|[E|Hlt]]; [|done|]; exfalso.
  - apply (Hd (0 + Z.of_nat x) (0 + Z.of_nat y)); [lia|by apply Hin|done].
  - apply (Hd (0 + Z.of_nat y) (0 + Z.of_nat x)); [lia|by apply Hin|done].
Qed.

(** ** Properties *)

(** Run one at a time, as long as the magnitudes added since the start stay
    below 2^63, any sequence of additions, increments, decrements, reads and
    resets, each from any node (also one that is unknown, or was not there when
    the counter was made), stays defined and its reads return the value of one
    integer counter. *)
Theorem pcounter_refines_counter c mem ops :
  pc_ok c mem → magnitude c mem + zsum ((λ o, Z.abs (op_delta o)) <$> ops) < 2 ^ 63 →
  ∃ mem', pc_exec c ops mem = Ret (counter_spec (zsum (vals c mem)) ops, mem') ∧ pc_ok c mem'.
Proof. apply pc_exec_ok. Qed.

(** C21. A read among concurrent increments, in every interleaving: what it
    returns lies between the counter's value when the read began and its value
    at the end of the schedule, it is never undefined, and it has returned once
    its thread has taken one step per node and one more. *)
Theorem pcounter_read_between c s t ls s' es :
  pc_up c s → Forall label_adds ls → pc_total c s + zsum (label_delta <$> ls) < 2 ^ 63 →
  traced (pc_step c) s (PcRead t :: ls) = Some (s', es) →
  pc_total c s' = pc_total c s + zsum (label_delta <$> ls) ∧
  ((∃ es1 r es2, es = es1 ++ PcReadRet t r :: es2 ∧ (∀ r', PcReadRet t r' ∉ es1) ∧
      pc_total c s ≤ r ≤ pc_total c s') ∨
   (own_steps t ls ≤ pc_num_nodes c ∧ ∀ r', PcReadRet t r' ∉ es)).
Proof.
  intros Hup Hf Hb E. cbn [traced pc_step] in E.
  destruct (ps_pcs s !! t) as [[]|] eqn:Ht; try done.
  destruct (traced (pc_step c) (pc_move t s (PcReading 0 0)) ls) as [[s1 es1]|] eqn:E1; [|done].
  simplify_eq. assert (Hup' : pc_up c (pc_move t s (PcReading 0 0))) by by apply up_move.
  destruct (up_trace_total c ls _ s' es1 Hup' Hf Hb E1) as [_ ->]. split; [done|].
  pose proof (pk_pos _ _ (pu_ok _ _ Hup)).
  destruct (up_read_trace c t (pc_total c s) ls _ s' es1 0 0 Hup' Hf Hb E1)
    as [(es2 & r & es3 & -> & Hn & Hr)|[Hle Hn]]; try done; try lia.
  - apply list_lookup_insert_eq. by eapply lookup_lt_Some.
  - left. exists es2, r, es3. destruct (up_trace_total c ls _ s' _ Hup' Hf Hb E1) as [_ Et].
    rewrite Et in Hr. done.
  - right. split; [lia|done].
Qed.

(** Creation and destruction: a creation that fails has released all it
    obtained, each block with the matching call; one that succeeds gives a
    zero counter with a slot for every node (one if no node is known), and
    destroying it releases exactly what creation obtained.  The allocators are
    only assumed to return distinct slots. *)
Theorem pcounter_create_no_leak numa os num_nodes mem r mem' es :
  (∀ i j, 0 ≤ i < j → po_slot os numa i ≠ NULL → po_slot os numa i ≠ po_slot os numa j) →
  nkit_pcounter_create numa os num_nodes mem = (r, mem', es) →
  match r with
  | None => released es ≡ₚ obtained es
  | Some c => pc_ok c mem' ∧ pc_num_nodes c = Z.max 1 num_nodes ∧
      nkit_pcounter_read c mem' = Ret 0 ∧
      ∃ ds, nkit_pcounter_destroy numa (Some c) = Ret ds ∧
        obtained ds = [] ∧ released es = [] ∧ released ds ≡ₚ obtained es
  end.
Proof.
  intros Hd E. unfold nkit_pcounter_create in E.
  set (N := if num_nodes <=? 0 then 1 else num_nodes) in *.
  assert (HN : N = Z.max 1 num_nodes) by (unfold N; cmp_cases; lia). clearbody N.
  destruct (Z.eqb_spec (po_malloc os) NULL); [by simplify_eq|].
  destruct (Z.eqb_spec (po_calloc os) NULL) as [|Hc]; [by simplify_eq|].
  destruct (create_loop _ _ _ _ _ _) as [[r1 mem1] es1] eqn:El. simplify_eq.
  apply create_loop_spec in El. destruct r1 as [all|]; csimpl.
  - destruct El as (new & -> & Hl & Hnew & Hnn & Ho & Hr & Hm & _). simpl.
    set (c := mk_pcounter _ _ _ _). assert (Hok : pc_ok c mem').
    { split; simpl; [lia|lia| |by eauto]. rewrite Hnew in Hnn |- *. by eapply slots_distinct. }
    split; [done|]. split; [done|].
    assert (Hz : Forall (.= 0) (vals c mem')).
    { unfold vals. apply Forall_fmap, Forall_forall. intros p Hp. simpl. by rewrite (Hm p Hp). }
    destruct (zsum_zero _ Hz) as [Ez Ea]. split.
    { pose proof (read_loop_ok c mem' (Z.to_nat (pc_num_nodes c)) 0 Hok ltac:(lia) ltac:(lia) ltac:(simpl; lia)) as El.
      by rewrite Ez in El. }
    unfold nkit_pcounter_destroy. simpl. rewrite (proj2 (Z.eqb_neq _ _) Hc).
    rewrite (destroy_loop_spec numa c _ 0) by (simpl; auto; lia). eexists. split; [done|].
    rewrite obtained_app, obtained_releases, released_app, released_releases. simpl.
    split; [done|]. split; [done|]. rewrite Ho, drop_0. simpl.
    rewrite Permutation_app_comm. apply Permutation_swap.
  - rewrite El. simpl. by rewrite (Permutation_app_comm (obtained es1)), Permutation_swap.
Qed.

(** ** Concrete counters *)

Definition demo_pc_os : pcounter_os :=
  {| po_malloc := 16; po_calloc := 48; po_slot _ i := 4096 * (i + 1) |}.

Definition demo_pc : nkit_pcounter_t := mk_pcounter 16 48 [4096; 8192] 2.
Definition demo_pc_mem : memory := <[8192 := 0]> (<[4096 := 0]> ∅).

Lemma demo_pc_ok : pc_ok demo_pc demo_pc_mem.
Proof.
  split; [done|done| |].
  - apply (bool_decide_unpack _). by vm_compute.
  - intros p Hp. apply elem_of_cons in Hp as [->|Hp]; [by eexists|].
    apply list_elem_of_singleton in Hp as ->. by eexists.
Qed.

Lemma pcounter_refines_counter_witness :
  ∃ mem', pc_exec demo_pc [OpInc (Some (0, 1)); OpAdd (Some (5, 0)) 41; OpRead; OpDec None;
                           OpInc (Some (3, 7)); OpRead; OpReset; OpRead] demo_pc_mem
          = Ret ([42; 42; 0], mem').
Proof.
  destruct (pcounter_refines_counter demo_pc demo_pc_mem
    [OpInc (Some (0, 1)); OpAdd (Some (5, 0)) 41; OpRead; OpDec None;
     OpInc (Some (3, 7)); OpRead; OpReset; OpRead] demo_pc_ok ltac:(by vm_compute)) as (mem' & E & _).
  exists mem'. exact E.
Defined.

Definition demo_pc_state : pc_state := mk_pc_state demo_pc_mem [PcIdle; PcIdle].

Lemma demo_pc_up : pc_up demo_pc demo_pc_state.
Proof.
  split; [apply demo_pc_ok|apply (bool_decide_unpack _); by vm_compute|].
  intros [|[|t]] i; done.
Qed.

Definition demo_pc_schedule : list pc_label :=
  [PcAdd 1 (Some (0, 0)) 1; PcStep 0; PcAdd 1 (Some (0, 0)) 1; PcAdd 1 (Some (4, 1)) 1;
   PcStep 0; PcStep 0].

Lemma pcounter_read_between_witness :
  match traced (pc_step demo_pc) demo_pc_state (PcRead 0 :: demo_pc_schedule) with
  | Some (s', es) => es = [PcReadRet 0 2] ∧ pc_total demo_pc s' = 3
  | None => False
  end.
Proof.
  destruct (traced (pc_step demo_pc) demo_pc_state (PcRead 0 :: demo_pc_schedule))
    as [[s' es]|] eqn:E; [|by vm_compute in E].
  destruct (pcounter_read_between demo_pc demo_pc_state 0 demo_pc_schedule s' es demo_pc_up)
    as [-> _]; [|by vm_compute|done|].
  - repeat constructor; simpl; lia.
  - split; [|reflexivity]. vm_compute in E. by simplify_eq.
Defined.

Lemma pcounter_create_no_leak_witness :
  let '(r, mem', es) := nkit_pcounter_create true demo_pc_os 3 ∅ in
  match r with Some c => nkit_pcounter_read c mem' = Ret 0 ∧ length (obtained es) = 5%nat | None => False end.
Proof.
  destruct (nkit_pcounter_create true demo_pc_os 3 ∅) as [[r mem'] es] eqn:E.
  pose proof (pcounter_create_no_leak true demo_pc_os 3 ∅ r mem' es
    ltac:(intros i j Hi _; cbn [po_slot demo_pc_os]; lia) E) as H.
  destruct r as [c|]; [|by vm_compute in E].
  destruct H as (_ & _ & Hr & _). split; [done|]. vm_compute in E. by simplify_eq.
Defined.

(** With decrements a read is not a value the counter had: here the counter is 0
    or 1 at every moment, and the read returns -1. *)
Example pcounter_torn_read :
  let sched := [PcRead 0; PcStep 0; PcAdd 1 (Some (0, 0)) 1; PcAdd 1 (Some (1, 1)) (-1);
                PcStep 0; PcStep 0] in
  (∀ k s es, traced (pc_step demo_pc) demo_pc_state (take k sched) = Some (s, es) →
     0 ≤ pc_total demo_pc s ≤ 1) ∧
  ∃ s, traced (pc_step demo_pc) demo_pc_state sched = Some (s, [PcReadRet 0 (-1)]).
Proof.
  split; [|eexists; vm_compute; reflexivity].
  intros k s es E. do 6 (destruct k as [|k]; [vm_compute in E; simplify_eq; vm_compute; split; congruence|]).
  rewrite take_ge in E by (simpl; lia). vm_compute in E. simplify_eq. vm_compute. split; congruence.
Qed.
