(* ===== verification/Messaging.v ===== *)
(** * Initialisation, teardown and node mailboxes
    (src/init.c, src/sched/messaging.c)

    One mailbox per node, each holding a ring.  Sending and processing are proved
    against the [BoundedQueue] interface; initialisation builds the rings.
    hwloc, libnuma and the allocators are parameters. *)

From stdpp Require Import prelude.
From Stdlib Require Import ZArith Lia.
From S2P Require Import Prelude Words Double Arena Ring Context.
Local Open Scope Z_scope.
Local Open Scope word_scope.

(** ** Sending and processing (messaging.c) *)

Section messaging.
Context {Q : Type} {BQ : BoundedQueue Q}.
Implicit Types (ctx : nkit_context_t Q).

(** The ring [mailboxes[node]->ring]: undefined outside the array, through a
    NULL mailbox, or when the ring is NULL (every use dereferences it). *)
Definition mailbox_at ctx (node : Z) : outcome Q :=
  match ctx_mailboxes ctx with
  | MbArray l =>
      match l !! Z.to_nat node with
      | Some (Some mb) => match mailbox_ring mb with Some r => Ret r | None => UB end
      | _ => UB
      end
  | _ => UB
  end.

Definition with_mailboxes ctx (m : mailbox_array Q) : nkit_context_t Q :=
  mk_ctx (ctx_topo ctx) (ctx_num_nodes ctx) (ctx_num_pus ctx) (ctx_initialized ctx)
    (ctx_active_threads ctx) m (ctx_threshold ctx) (ctx_numa_supported ctx).

(** The ring of a node after an operation on it. *)
Definition set_ring ctx (node : Z) (r : Q) : nkit_context_t Q :=
  match ctx_mailboxes ctx with
  | MbArray l => with_mailboxes ctx (MbArray (<[Z.to_nat node := Some (mk_mailbox (Some r))]> l))
  | _ => ctx
  end.

Definition valid_node ctx (node : Z) : bool :=
  negb ((node <? 0) || (ctx_num_nodes ctx <=? node)).

Definition nkit_send ctx (target_node data : Z) : outcome (Z * nkit_context_t Q) :=
  if negb (valid_node ctx target_node) then Ret (-1, ctx) else
  let* ring := mailbox_at ctx target_node in
  match bq_push ring data with
  | Some (ok, ring) => Ret (if ok : bool then 0 else -2, set_ring ctx target_node ring)
  | None => UB
  end.

(** What happens to messages: accepted by a mailbox, or given to the handler. *)
Inductive msg_event := Accepted (node d : Z) | Handled (node d : Z).

(** A handler is known here by the messages it sends, given the one it gets. *)
Fixpoint run_sends ctx (sends : list (Z * Z)) : outcome (nkit_context_t Q * list msg_event) :=
  match sends with
  | [] => Ret (ctx, [])
  | (target, d) :: sends =>
      let* r := nkit_send ctx target d in
      let* r2 := run_sends r.2 sends in
      Ret (r2.1, (if r.1 =? 0 then [Accepted target d] else []) ++ r2.2)
  end.

Definition call_handler ctx (handler : option (Z → list (Z * Z))) (d : Z)
    : outcome (nkit_context_t Q * list msg_event) :=
  match handler with Some h => run_sends ctx (h d) | None => Ret (ctx, []) end.

(** The processing loop; [None] is running out of fuel. *)
Fixpoint process_loop (fuel : nat) ctx (node : Z) (handler : option (Z → list (Z * Z)))
    (limit processed : Z) : option (outcome (Z * nkit_context_t Q * list msg_event)) :=
  match fuel with
  | O => None
  | S fuel =>
      if (limit =? 0) || (processed <? limit) then
        match mailbox_at ctx node with
        | UB => Some UB
        | Ret ring =>
            match bq_pop ring with
            | None => Some UB
            | Some (None, ring) => Some (Ret (processed, set_ring ctx node ring, []))
            | Some (Some d, ring) =>
                match call_handler (set_ring ctx node ring) handler d with
                | UB => Some UB
                | Ret (ctx, es) =>
                    match process_loop fuel ctx node handler limit (processed +w 1) with
                    | Some (Ret (n, ctx, es2)) => Some (Ret (n, ctx, Handled node d :: es ++ es2))
                    | r => r
                    end
                end
            end
        end
      else Some (Ret (processed, ctx, []))
  end.

Definition nkit_process_local (fuel : nat) ctx (getcpu : option (Z * Z))
    (handler : option (Z → list (Z * Z))) (limit : Z)
    : option (outcome (Z * nkit_context_t Q * list msg_event)) :=
  let current_node := nkit_current_node getcpu in
  if negb (valid_node ctx current_node) then Some (Ret (0, ctx, [])) else
  match mailbox_at ctx current_node with
  | UB => Some UB
  | Ret _ => process_loop fuel ctx current_node handler limit 0
  end.
End messaging.

(** ** Initialisation and teardown (init.c) *)

Definition DEFAULT_MPKI : double := dbl_of_Z 50.
Definition MAILBOX_CAPACITY : Z := 4096.

(** What the outside answers during initialisation: libnuma's availability, the
    results of the two hwloc calls, whether [calloc] and each mailbox allocation
    succeed, the system under each ring, and the numbers of objects found. *)
Record init_os := {
  io_numa_available : Z;
  io_topo_init : Z;
  io_topo_load : Z;
  io_calloc : bool;
  io_mailbox : bool → Z → bool;
  io_ring : Z → arena_os;
  io_nodes : Z;
  io_pus : Z;
}.

(** The context as the program starts: all zero. *)
Definition g_nkit_ctx {Q} : nkit_context_t Q := mk_ctx false 0 0 false 0 MbNull (dbl_of_Z 0) false.

Section init.
Variable io : init_os.
Implicit Types (ctx : nkit_context_t nkit_ring_t).

(** Lines 15-32: the flag and the run-once exchange; [true] when the caller is the
    one that initialises. *)
Definition init_enter ctx : bool * nkit_context_t nkit_ring_t :=
  if ctx_initialized ctx then (false, ctx) else
  let supported := negb (io_numa_available io <? 0) in
  (true, mk_ctx (ctx_topo ctx) (ctx_num_nodes ctx) (ctx_num_pus ctx) true
           (ctx_active_threads ctx) (ctx_mailboxes ctx) (ctx_threshold ctx) supported).

(** The loop of step 6, from node [i]. *)
Fixpoint init_mailboxes (numa : bool) (n : nat) (i : Z)
    : outcome (list (option (nkit_mailbox_t nkit_ring_t))) :=
  match n with
  | O => Ret []
  | S n =>
      let* mb :=
        if io_mailbox io numa i then
          let* ring := nkit_ring_create (io_ring io i) i MAILBOX_CAPACITY in
          Ret (Some (mk_mailbox ring))
        else Ret None in
      let* rest := init_mailboxes numa n (i + 1) in
      Ret (mb :: rest)
  end.

(** Lines 34-82. *)
Definition init_body ctx : outcome (Z * nkit_context_t nkit_ring_t) :=
  let with_topo (topo initialized : bool) :=
    mk_ctx topo (ctx_num_nodes ctx) (ctx_num_pus ctx) initialized (ctx_active_threads ctx)
      (ctx_mailboxes ctx) (ctx_threshold ctx) (ctx_numa_supported ctx) in
  if negb (io_topo_init io =? 0) then Ret (-1, with_topo (ctx_topo ctx) false) else
  if negb (io_topo_load io =? 0) then Ret (-1, with_topo true false) else
  let* mailboxes :=
    if io_calloc io then
      let* l := init_mailboxes (ctx_numa_supported ctx) (Z.to_nat (ctx_num_nodes ctx)) 0 in
      Ret (MbArray l)
    else Ret MbNull in
  let num_nodes := if io_nodes io <=? 0 then 1 else io_nodes io in
  Ret (0, mk_ctx true num_nodes (io_pus io) (ctx_initialized ctx) (ctx_active_threads ctx)
            mailboxes DEFAULT_MPKI (ctx_numa_supported ctx)).

Definition nkit_init ctx : outcome (Z * nkit_context_t nkit_ring_t) :=
  match init_enter ctx with
  | (false, ctx) => Ret (0, ctx)
  | (true, ctx) => init_body ctx
  end.
End init.

(** The loop over the mailboxes in [nkit_teardown]: the calls that release each
    ring and its mailbox. *)
Fixpoint teardown_loop (numa : bool) (l : list (option (nkit_mailbox_t nkit_ring_t))) (i n : nat)
    : outcome (list os_call) :=
  match n with
  | O => Ret []
  | S n =>
      match l !! i with
      | None => UB
      | Some mb =>
          let* rest := teardown_loop numa l (S i) n in
          Ret (match mb with
               | Some mb => nkit_ring_free (mailbox_ring mb) ++
                            [if numa then NumaFreeHandle else FreeHandle]
               | None => []
               end ++ rest)
      end
  end.

Definition nkit_teardown (ctx : nkit_context_t nkit_ring_t)
    : outcome (list os_call * nkit_context_t nkit_ring_t) :=
  let* cm :=
    match ctx_mailboxes ctx with
    | MbNull => Ret ([], MbNull)
    | MbArray l =>
        let* calls := teardown_loop (ctx_numa_supported ctx) l 0 (Z.to_nat (ctx_num_nodes ctx)) in
        Ret (calls ++ [FreeHandle], MbDangling)
    | MbDangling => UB
    end in
  let '(topo, initialized) :=
    if ctx_initialized ctx then (false, false) else (ctx_topo ctx, ctx_initialized ctx) in
  Ret (cm.1, mk_ctx topo (ctx_num_nodes ctx) (ctx_num_pus ctx) initialized
               (ctx_active_threads ctx) cm.2 (ctx_threshold ctx) (ctx_numa_supported ctx)).

(** ** Invariant and message flow *)

Definition accepted (i : nat) (es : list msg_event) : list Z :=
  omap (λ e, match e with Accepted n d => if decide (Z.to_nat n = i) then Some d else None
                        | Handled _ _ => None end) es.
Definition handled (i : nat) (es : list msg_event) : list Z :=
  omap (λ e, match e with Handled n d => if decide (Z.to_nat n = i) then Some d else None
                        | Accepted _ _ => None end) es.

(** First in, first out at every node: what was there and what was accepted is
    what was handled followed by what is there. *)
Definition flow (qs : list (list Z)) (es : list msg_event) (qs' : list (list Z)) : Prop :=
  length qs' = length qs ∧
  ∀ i q q', qs !! i = Some q → qs' !! i = Some q' → q ++ accepted i es = handled i es ++ q'.

Lemma flow_nil qs : flow qs [] qs.
Proof. split; [done|]. intros i q q' ? ?. simplify_eq/=. by rewrite app_nil_r. Qed.

Lemma flow_app qs1 es1 qs2 es2 qs3 :
  flow qs1 es1 qs2 → flow qs2 es2 qs3 → flow qs1 (es1 ++ es2) qs3.
Proof.
  intros [L1 F1] [L2 F2]. split; [congruence|]. intros i q q' Hq Hq'.
  destruct (lookup_lt_is_Some_2 qs2 i) as [q2 Hq2]; [rewrite L1; by eapply lookup_lt_Some|].
  unfold accepted, handled in *. rewrite !omap_app.
  rewrite app_assoc, (F1 i q q2), <-!app_assoc, (F2 i q2 q') by done. done.
Qed.

Section correctness.
Context {Q : Type} {BQ : BoundedQueue Q} (cap : Z).
Implicit Types (ctx : nkit_context_t Q) (qs : list (list Z)).

(** A context with a mailbox for every node, holding the messages [qs]. *)
Record ctx_ok ctx qs : Prop := {
  co_nodes : ctx_num_nodes ctx = Z.of_nat (length qs);
  co_rings : ∃ l, ctx_mailboxes ctx = MbArray l ∧
    Forall2 (λ mb q, ∃ r, mb = Some (mk_mailbox (Some r)) ∧ bq_rep r q ∧ bq_cap r = cap) l qs;
}.

Lemma valid_node_spec ctx node : valid_node ctx node = true ↔ 0 ≤ node < ctx_num_nodes ctx.
Proof. unfold valid_node. cmp_cases; split; try done; lia. Qed.

Lemma mailbox_at_ok ctx qs node :
  ctx_ok ctx qs → valid_node ctx node = true →
  ∃ r q, mailbox_at ctx node = Ret r ∧ qs !! Z.to_nat node = Some q ∧ bq_rep r q ∧ bq_cap r = cap.
Proof.
  intros [Hn (l & El & Hl)] Hv%valid_node_spec. unfold mailbox_at. rewrite El.
  destruct (lookup_lt_is_Some_2 qs (Z.to_nat node)) as [q Hq]; [lia|].
  destruct (Forall2_lookup_r _ _ _ _ _ Hl Hq) as (mb & -> & r & -> & Hr & Hc). simpl. eauto 10.
Qed.

Lemma set_ring_ok ctx qs node r q :
  ctx_ok ctx qs → valid_node ctx node = true → bq_rep r q → bq_cap r = cap →
  ctx_ok (set_ring ctx node r) (<[Z.to_nat node := q]> qs).
Proof.
  intros [Hn (l & El & Hl)] Hv Hr Hc. unfold set_ring. rewrite El. split; simpl.
  - by rewrite length_insert.
  - eexists. split; [done|]. apply Forall2_insert; eauto.
Qed.

Lemma set_ring_valid ctx node r n : valid_node (set_ring ctx node r) n = valid_node ctx n.
Proof. unfold set_ring. by destruct (ctx_mailboxes ctx). Qed.

Lemma flow_accept qs node q d :
  qs !! Z.to_nat node = Some q →
  flow qs [Accepted node d] (<[Z.to_nat node := q ++ [d]]> qs).
Proof.
  intros Hq. split; [by rewrite length_insert|]. intros i p p' Hp Hp'. simpl.
  rewrite lookup_insert_decide in Hp' by by eapply lookup_lt_Some.
  destruct (decide (i = Z.to_nat node)) as [->|Hne]; simplify_eq.
  - by rewrite decide_True.
  - rewrite decide_False by congruence. by rewrite app_nil_r.
Qed.

Lemma flow_handle qs node d q :
  qs !! Z.to_nat node = Some (d :: q) →
  flow qs [Handled node d] (<[Z.to_nat node := q]> qs).
Proof.
  intros Hq. split; [by rewrite length_insert|]. intros i p p' Hp Hp'. simpl.
  rewrite lookup_insert_decide in Hp' by by eapply lookup_lt_Some.
  destruct (decide (i = Z.to_nat node)) as [->|Hne]; simplify_eq.
  - rewrite decide_True by done. by rewrite app_nil_r.
  - rewrite decide_False by congruence. by rewrite app_nil_r.
Qed.

(** ** Sending *)

(** The three return codes and their meaning. *)
Lemma send_ok ctx qs target d :
  ctx_ok ctx qs →
  ∃ code ctx' qs', nkit_send ctx target d = Ret (code, ctx') ∧ ctx_ok ctx' qs' ∧
    (∀ n, valid_node ctx' n = valid_node ctx n) ∧
    flow qs (if code =? 0 then [Accepted target d] else []) qs' ∧
    (∀ i, i ≠ Z.to_nat target → qs' !! i = qs !! i) ∧
    ((code = -1 ∧ valid_node ctx target = false ∧ qs' = qs) ∨
     (∃ q, valid_node ctx target = true ∧ qs !! Z.to_nat target = Some q ∧
        ((code = -2 ∧ Z.of_nat (length q) = cap ∧ qs' = qs) ∨
         (code = 0 ∧ Z.of_nat (length q) < cap ∧ qs' = <[Z.to_nat target := q ++ [d]]> qs)))).
Proof.
  intros H. unfold nkit_send. destruct (valid_node ctx target) eqn:Hv; cbn [negb].
  2:{ exists (-1), ctx, qs. split_and!; try done; [apply flow_nil|by left]. }
  destruct (mailbox_at_ok ctx qs target H Hv) as (r & q & -> & Hq & Hr & Hc). cbn [obind].
  pose proof (bq_room r q Hr).
  destruct (Z.lt_ge_cases (Z.of_nat (length q)) cap) as [Hlt|Hge].
  - destruct (bq_push_ok r q d Hr) as (r' & -> & Hr' & Hc'); [lia|].
    exists 0, (set_ring ctx target r'), (<[Z.to_nat target := q ++ [d]]> qs). split; [done|].
    split; [by apply set_ring_ok; auto; congruence|]. split; [apply set_ring_valid|].
    split; [by apply flow_accept|]. split; [|right; exists q; eauto 10].
    intros i Hi. by rewrite list_lookup_insert_ne.
  - rewrite (bq_push_full r q d) by (auto; lia).
    exists (-2), (set_ring ctx target r), qs. split; [done|].
    split; [rewrite <-(list_insert_id qs _ _ Hq); by apply set_ring_ok|].
    split; [apply set_ring_valid|]. split; [apply flow_nil|]. split; [done|].
    right. exists q. split; [done|]. split; [done|]. left. split; [done|]. split; [lia|done].
Qed.

Lemma run_sends_ok sends : ∀ ctx qs,
  ctx_ok ctx qs →
  ∃ ctx' qs' es, run_sends ctx sends = Ret (ctx', es) ∧ ctx_ok ctx' qs' ∧
    (∀ n, valid_node ctx' n = valid_node ctx n) ∧ flow qs es qs' ∧
    (∀ i, handled i es = []) ∧
    (∀ i, Forall (λ s, Z.to_nat s.1 ≠ i) sends → qs' !! i = qs !! i ∧ accepted i es = []).
Proof.
  induction sends as [|[target d] sends IH]; intros ctx qs H; cbn [run_sends].
  - exists ctx, qs, []. split_and!; try done. apply flow_nil.
  - destruct (send_ok ctx qs target d H) as (code & ctx1 & qs1 & -> & H1 & V1 & F1 & O1 & _).
    cbn [obind snd fst]. destruct (IH ctx1 qs1 H1) as (ctx2 & qs2 & es2 & -> & H2 & V2 & F2 & N2 & O2).
    cbn [obind snd fst]. eexists ctx2, qs2, _. split; [done|]. split; [done|].
    split; [intros; by rewrite V2|]. split; [by eapply flow_app|]. split.
    + intros i. unfold handled in *. rewrite omap_app, N2. by destruct (code =? 0).
    + intros i [Hi Hr]%Forall_cons. destruct (O2 i Hr) as [-> Ha]. split; [by apply O1|].
      unfold accepted in *. rewrite omap_app, Ha, app_nil_r. simpl in Hi.
      destruct (code =? 0); simpl; [by rewrite decide_False|done].
Qed.

Definition quiet (node : Z) (handler : option (Z → list (Z * Z))) : Prop :=
  ∀ h d, handler = Some h → Forall (λ s : Z * Z, Z.to_nat s.1 ≠ Z.to_nat node) (h d).

Lemma call_handler_ok ctx qs handler d node :
  ctx_ok ctx qs →
  ∃ ctx' qs' es, call_handler ctx handler d = Ret (ctx', es) ∧ ctx_ok ctx' qs' ∧
    (∀ n, valid_node ctx' n = valid_node ctx n) ∧ flow qs es qs' ∧ (∀ i, handled i es = []) ∧
    (quiet node handler →
       qs' !! Z.to_nat node = qs !! Z.to_nat node ∧ accepted (Z.to_nat node) es = []).
Proof.
  intros H. destruct handler as [h|]; simpl.
  - destruct (run_sends_ok (h d) ctx qs H) as (ctx' & qs' & es & E & ? & ? & ? & ? & O).
    exists ctx', qs', es. split_and!; try done. intros Hq. by apply O, Hq.
  - exists ctx, qs, []. split_and!; try done. apply flow_nil.
Qed.

(** ** Processing *)

(** The turns the loop still has to make: all messages there, or up to the limit. *)
Definition turns (limit processed : Z) (q : list Z) : Z :=
  if limit =? 0 then Z.of_nat (length q) else limit - processed.

Lemma process_loop_ok fuel handler limit node : ∀ ctx qs q processed,
  ctx_ok ctx qs → valid_node ctx node = true → qs !! Z.to_nat node = Some q →
  0 ≤ processed → 0 ≤ limit < 2 ^ 64 → (limit ≠ 0 → processed ≤ limit) →
  (limit = 0 → quiet node handler ∧ processed + Z.of_nat (length q) < 2 ^ 64) →
  turns limit processed q < Z.of_nat fuel →
  ∃ n ctx' qs' es, process_loop fuel ctx node handler limit processed = Some (Ret (n, ctx', es)) ∧
    ctx_ok ctx' qs' ∧ flow qs es qs' ∧ (∀ m, valid_node ctx' m = valid_node ctx m) ∧
    n = processed + Z.of_nat (length (handled (Z.to_nat node) es)) ∧
    (qs' !! Z.to_nat node = Some [] ∨ (limit ≠ 0 ∧ n = limit)) ∧ (limit ≠ 0 → n ≤ limit) ∧
    (quiet node handler → accepted (Z.to_nat node) es = []).
Proof.
  induction fuel as [|fuel IH]; intros ctx qs q processed H Hv Hq Hp Hl Hle H0 Hf;
    [unfold turns in Hf; cmp_cases; lia|].
  cbn [process_loop]. destruct ((limit =? 0) || (processed <? limit)) eqn:Eg.
  2:{ exists processed, ctx, qs, []. split; [done|]. split; [done|]. split; [apply flow_nil|].
      split; [done|]. cmp_cases; try done. simpl. split_and!; auto; lia. }
  destruct (mailbox_at_ok ctx qs node H Hv) as (r & q0 & -> & Hq0 & Hr & Hc). simplify_eq.
  destruct q as [|d q].
  - rewrite bq_pop_empty by done. exists processed, (set_ring ctx node r), qs, [].
    split; [done|]. split; [rewrite <-(list_insert_id qs _ _ Hq); by apply set_ring_ok|].
    split; [apply flow_nil|]. split; [apply set_ring_valid|]. simpl. split_and!; auto; lia.
  - destruct (bq_pop_ok r d q Hr) as (r' & -> & Hr' & Hc').
    pose proof (flow_handle qs node d q Hq) as F1.
    assert (H1 : ctx_ok (set_ring ctx node r') (<[Z.to_nat node := q]> qs)).
    { apply set_ring_ok; auto. congruence. }
    destruct (call_handler_ok _ _ handler d node H1) as (ctx2 & qs2 & es2 & -> & H2 & V2 & F2 & N2 & O2).
    destruct (lookup_lt_is_Some_2 qs2 (Z.to_nat node)) as [q2 Hq2].
    { rewrite (proj1 F2), length_insert. by eapply lookup_lt_Some. }
    assert (Hq0' : limit = 0 → q2 = q).
    { intros E. rewrite (proj1 (O2 (proj1 (H0 E)))), list_lookup_insert_eq in Hq2; [by simplify_eq|].
      by eapply lookup_lt_Some. }
    assert (Hu : processed +w 1 = processed + 1).
    { apply u64_small. unfold is_u64. simpl in H0. cmp_cases; try done; lia. }
    rewrite Hu. destruct (IH ctx2 qs2 q2 (processed + 1)) as (n & ctx3 & qs3 & es3 & -> & H3 & F3 & V3 & En & Hend & Hn & Ha);
      auto; try lia.
    + by rewrite V2, set_ring_valid.
    + intros E. destruct (H0 E). simpl in *. rewrite (Hq0' E). split; [done|lia].
    + unfold turns in *. cmp_cases; try done; try lia. rewrite Hq0' by done. simpl in Hf. lia.
    + exists n, ctx3, qs3, (Handled node d :: es2 ++ es3). split; [done|]. split; [done|].
      split; [apply (flow_app qs [Handled node d] (<[Z.to_nat node := q]> qs)); [done|by eapply flow_app]|].
      split; [intros; by rewrite V3, V2, set_ring_valid|].
      assert (Eh : handled (Z.to_nat node) (Handled node d :: es2 ++ es3)
                   = d :: handled (Z.to_nat node) es3).
      { unfold handled in *. simpl. rewrite decide_True, omap_app, N2 by done. done. }
      rewrite Eh, En. simpl. split; [lia|]. split; [by rewrite <-En|]. split; [lia|].
      intros Hqu. unfold accepted in *. simpl. by rewrite omap_app, (proj2 (O2 Hqu)), (Ha Hqu).
Qed.

(** The whole call. *)
Lemma process_local_ok fuel ctx qs getcpu handler limit :
  ctx_ok ctx qs → cap < 2 ^ 63 → 0 ≤ limit < 2 ^ 64 →
  (limit = 0 → quiet (nkit_current_node getcpu) handler) →
  Z.max limit cap < Z.of_nat fuel →
  ∃ n ctx' qs' es, nkit_process_local fuel ctx getcpu handler limit = Some (Ret (n, ctx', es)) ∧
    ctx_ok ctx' qs' ∧ flow qs es qs' ∧
    match qs !! Z.to_nat (nkit_current_node getcpu) with
    | Some q =>
        if valid_node ctx (nkit_current_node getcpu) then
          n = Z.of_nat (length (handled (Z.to_nat (nkit_current_node getcpu)) es)) ∧
          (qs' !! Z.to_nat (nkit_current_node getcpu) = Some [] ∨ (limit ≠ 0 ∧ n = limit)) ∧
          (limit ≠ 0 → n ≤ limit) ∧
          (quiet (nkit_current_node getcpu) handler →
             accepted (Z.to_nat (nkit_current_node getcpu)) es = [])
        else n = 0 ∧ es = []
    | None => n = 0 ∧ es = []
    end.
Proof.
  intros H Hc Hl Hq Hf. unfold nkit_process_local. set (node := nkit_current_node getcpu) in *.
  destruct (valid_node ctx node) eqn:Hv; cbn [negb].
  - destruct (mailbox_at_ok ctx qs node H Hv) as (r & q & -> & Hlq & Hr & Er). rewrite Hlq.
    pose proof (bq_room r q Hr).
    destruct (process_loop_ok fuel handler limit node ctx qs q 0) as (n & ctx' & qs' & es & E & ? & ? & _ & ? & ? & ? & ?);
      auto; try lia.
    + intros E0. split; [auto|lia].
    + unfold turns. cmp_cases; lia.
    + exists n, ctx', qs', es. split_and!; done.
  - exists 0, ctx, qs, []. split; [done|]. split; [done|]. split; [apply flow_nil|].
    by destruct (qs !! Z.to_nat node).
Qed.

(** ** Runs of sends and processing calls *)

Inductive msg_op :=
| MSend (target d : Z)
| MProcess (getcpu : option (Z * Z)) (handler : option (Z → list (Z * Z))) (limit : Z).

(** Unlimited processing is allowed for handlers that do not send to their own
    node; a limit always bounds it. *)
Definition op_ok (fuel : nat) (o : msg_op) : Prop :=
  match o with
  | MSend _ _ => True
  | MProcess getcpu handler limit =>
      0 ≤ limit < 2 ^ 64 ∧ limit < Z.of_nat fuel ∧
      (limit = 0 → quiet (nkit_current_node getcpu) handler)
  end.

(** The return values, the final context and the trace. *)
Fixpoint msg_exec (fuel : nat) ctx (ops : list msg_op)
    : option (outcome (list Z * nkit_context_t Q * list msg_event)) :=
  match ops with
  | [] => Some (Ret ([], ctx, []))
  | o :: ops =>
      match
        match o with
        | MSend target d =>
            match nkit_send ctx target d with
            | Ret (code, ctx) => Some (Ret (code, ctx, if code =? 0 then [Accepted target d] else []))
            | UB => Some UB
            end
        | MProcess getcpu handler limit => nkit_process_local fuel ctx getcpu handler limit
        end
      with
      | Some (Ret (r, ctx, es)) =>
          match msg_exec fuel ctx ops with
          | Some (Ret (rs, ctx, es2)) => Some (Ret (r :: rs, ctx, es ++ es2))
          | x => x
          end
      | Some UB => Some UB
      | None => None
      end
  end.

Lemma msg_exec_ok fuel ops : ∀ ctx qs,
  ctx_ok ctx qs → cap < 2 ^ 63 → cap < Z.of_nat fuel → Forall (op_ok fuel) ops →
  ∃ rs ctx' qs' es, msg_exec fuel ctx ops = Some (Ret (rs, ctx', es)) ∧
    length rs = length ops ∧ ctx_ok ctx' qs' ∧ flow qs es qs'.
Proof.
  induction ops as [|o ops IH]; intros ctx qs H Hc Hf Ho; cbn [msg_exec].
  - exists [], ctx, qs, []. split_and!; try done. apply flow_nil.
  - apply Forall_cons in Ho as [Hop Ho]. destruct o as [target d|g h limit]; cbn [op_ok] in Hop.
    + destruct (send_ok ctx qs target d H) as (code & ctx1 & qs1 & -> & H1 & _ & F1 & _).
      destruct (IH ctx1 qs1 H1 Hc Hf Ho) as (rs & ctx2 & qs2 & es2 & -> & Hl & H2 & F2).
      eexists _, ctx2, qs2, _. split; [done|]. split; [by simpl; f_equal|]. split; [done|].
      by eapply flow_app.
    + destruct Hop as (Hl & Hlf & Hq).
      destruct (process_local_ok fuel ctx qs g h limit H Hc Hl Hq) as (n & ctx1 & qs1 & es1 & -> & H1 & F1 & _);
        [lia|].
      destruct (IH ctx1 qs1 H1 Hc Hf Ho) as (rs & ctx2 & qs2 & es2 & -> & Hlr & H2 & F2).
      eexists _, ctx2, qs2, _. split; [done|]. split; [by simpl; f_equal|]. split; [done|].
      by eapply flow_app.
Qed.
End correctness.

(** ** Initialisation *)

Lemma init_mailboxes_ok io numa m n : ∀ i,
  (∀ j, i ≤ j < i + Z.of_nat n → io_mailbox io numa j = true ∧ ArenaOS_ok (io_ring io j) ∧
     (nkit_arena_create (io_ring io j) j
        (sizeof_nkit_ring_t + sizeof_nkit_cell_t * MAILBOX_CAPACITY)).1 ≠ None) →
  ∃ l, init_mailboxes io numa n i = Ret l ∧
    Forall2 (λ mb q, ∃ r, mb = Some (mk_mailbox (Some r)) ∧ bq_rep (BoundedQueue:=ring_queue m) r q ∧
                          bq_cap (BoundedQueue:=ring_queue m) r = MAILBOX_CAPACITY) l (replicate n []).
Proof.
  induction n as [|n IH]; intros i H; cbn [init_mailboxes].
  - by exists [].
  - destruct (H i ltac:(lia)) as (-> & Hos & Ha).
    pose proof (ring_create_spec (io_ring io i) i MAILBOX_CAPACITY Hos ltac:(unfold MAILBOX_CAPACITY; lia)) as Hr.
    destruct (nkit_ring_create _ _ _) as [[r|]|]; [|by destruct Hr|done].
    destruct (IH (i + 1)) as (l & -> & Hl); [intros j Hj; apply H; lia|]. cbn [obind].
    destruct Hr as (_ & Hr & Hcap & _). eexists. split; [done|]. simpl. constructor; [|done].
    exists r. split_and!; done.
Qed.

(** What releasing one mailbox calls. *)
Definition release_mailbox (numa : bool) (mb : option (nkit_mailbox_t nkit_ring_t)) : list os_call :=
  match mb with
  | Some mb => nkit_ring_free (mailbox_ring mb) ++ [if numa then NumaFreeHandle else FreeHandle]
  | None => []
  end.

Lemma teardown_loop_ok numa l n : ∀ i,
  (i + n = length l)%nat →
  teardown_loop numa l i n = Ret (concat (release_mailbox numa <$> drop i l)).
Proof.
  induction n as [|n IH]; intros i Hi; cbn [teardown_loop].
  - by rewrite drop_ge by lia.
  - destruct (lookup_lt_is_Some_2 l i) as [mb Hmb]; [lia|].
    rewrite Hmb, IH by lia. cbn [obind]. by rewrite (drop_S _ _ _ Hmb).
Qed.

(** ** Properties *)

(** C15. For every run of sends and processing calls on a context with a mailbox
    per node (unlimited processing only with handlers that do not send to their
    own node): every call returns, nothing is undefined, and at every node the
    messages accepted are the messages handled followed by those waiting, in
    order, so each accepted message is handled at most once, in the order of
    arrival, and none is lost. *)
Theorem messages_exactly_once {Q} {BQ : BoundedQueue Q} cap fuel (ctx : nkit_context_t Q) qs ops :
  ctx_ok cap ctx qs → cap < 2 ^ 63 → cap < Z.of_nat fuel → Forall (op_ok fuel) ops →
  ∃ rs ctx' qs' es, msg_exec fuel ctx ops = Some (Ret (rs, ctx', es)) ∧
    length rs = length ops ∧ ctx_ok cap ctx' qs' ∧ length qs' = length qs ∧
    ∀ i q q', qs !! i = Some q → qs' !! i = Some q' → q ++ accepted i es = handled i es ++ q'.
Proof.
  intros H Hc Hf Ho. destruct (msg_exec_ok cap fuel ops ctx qs H Hc Hf Ho)
    as (rs & ctx' & qs' & es & E & Hl & H' & [Fl F]). exists rs, ctx', qs', es. split_and!; done.
Qed.

(** One processing call at a valid node, with a handler that does not send to
    that node: it hands over the waiting messages in order, all of them without a
    limit and the first [limit] otherwise, and returns how many. *)
Theorem process_local_correct {Q} {BQ : BoundedQueue Q} cap fuel (ctx : nkit_context_t Q) qs q
    getcpu handler limit :
  let node := nkit_current_node getcpu in
  ctx_ok cap ctx qs → cap < 2 ^ 63 → 0 ≤ limit < 2 ^ 64 → Z.max limit cap < Z.of_nat fuel →
  quiet node handler → valid_node ctx node = true → qs !! Z.to_nat node = Some q →
  ∃ n ctx' qs' es, nkit_process_local fuel ctx getcpu handler limit = Some (Ret (n, ctx', es)) ∧
    ctx_ok cap ctx' qs' ∧
    n = (if limit =? 0 then Z.of_nat (length q) else Z.min limit (Z.of_nat (length q))) ∧
    handled (Z.to_nat node) es = take (Z.to_nat n) q ∧
    qs' !! Z.to_nat node = Some (drop (Z.to_nat n) q).
Proof.
  intros node H Hc Hl Hf Hqu Hv Hq.
  destruct (process_local_ok cap fuel ctx qs getcpu handler limit H Hc Hl ltac:(done) Hf)
    as (n & ctx' & qs' & es & E & H' & [Fl F] & Hres). fold node in Hres. rewrite Hq, Hv in Hres.
  destruct Hres as (En & Hend & Hle & Ha). specialize (Ha Hqu).
  destruct (lookup_lt_is_Some_2 qs' (Z.to_nat node)) as [q' Hq'].
  { rewrite Fl. by eapply lookup_lt_Some. }
  specialize (F _ _ _ Hq Hq'). rewrite Ha, app_nil_r in F. subst q.
  exists n, ctx', qs', es. split; [done|]. split; [done|]. rewrite Hq', length_app.
  rewrite En, Nat2Z.id, take_app_length, drop_app_length. split; [|done].
  destruct Hend as [Hend|[H0 Hn]]; [rewrite Hq' in Hend; simplify_eq/=|]; cmp_cases; lia.
Qed.

(** The first initialisation of a process sizes the mailbox array with
    [num_nodes], which is still zero and is only set afterwards: it succeeds, but
    then every send to a node in range and every processing call on one accesses
    a mailbox outside the array, and so does teardown. *)
Theorem init_first_mailboxes_missing io m :
  io_topo_init io = 0 → io_topo_load io = 0 →
  ∃ ctx, nkit_init io g_nkit_ctx = Ret (0, ctx) ∧ 1 ≤ ctx_num_nodes ctx ∧
    (∀ node d, 0 ≤ node < ctx_num_nodes ctx → nkit_send (BQ:=ring_queue m) ctx node d = UB) ∧
    (∀ fuel getcpu handler limit, 0 ≤ nkit_current_node getcpu < ctx_num_nodes ctx →
       nkit_process_local (BQ:=ring_queue m) fuel ctx getcpu handler limit = Some UB) ∧
    (io_calloc io = true → nkit_teardown ctx = UB).
Proof.
  intros H1 H2. unfold nkit_init, init_enter, init_body. simpl. rewrite H1, H2. simpl.
  set (n := if io_nodes io <=? 0 then 1 else io_nodes io).
  assert (Hn : 1 ≤ n) by (unfold n; cmp_cases; lia).
  assert (Hpos : Z.to_nat n = S (Z.to_nat (n - 1))) by lia. clearbody n.
  destruct (io_calloc io); simpl; (eexists; split; [done|]; simpl; split; [done|]; split; [|split]).
  1,4: intros node d Hv; unfold nkit_send; by rewrite (proj2 (valid_node_spec _ _)) by exact Hv.
  1,3: intros fuel g h limit Hv; unfold nkit_process_local;
    by rewrite (proj2 (valid_node_spec _ _)) by exact Hv.
  - intros _. unfold nkit_teardown. cbn [ctx_mailboxes ctx_num_nodes]. by rewrite Hpos.
  - done.
Qed.

(** An initialisation that finds [num_nodes] already set (by an earlier one)
    to the number of nodes of the machine makes a working mailbox for each of
    them, when memory is there; teardown then releases each mailbox and its ring
    once, and a second teardown uses the freed array. *)
Theorem reinit_mailboxes io m (ctx : nkit_context_t nkit_ring_t) :
  ctx_initialized ctx = false → ctx_num_nodes ctx = io_nodes io → 1 ≤ io_nodes io →
  io_topo_init io = 0 → io_topo_load io = 0 → io_calloc io = true →
  (∀ numa j, 0 ≤ j < io_nodes io → io_mailbox io numa j = true ∧ ArenaOS_ok (io_ring io j) ∧
     (nkit_arena_create (io_ring io j) j
        (sizeof_nkit_ring_t + sizeof_nkit_cell_t * MAILBOX_CAPACITY)).1 ≠ None) →
  ∃ ctx' l ctx'', nkit_init io ctx = Ret (0, ctx') ∧ ctx_mailboxes ctx' = MbArray l ∧
    ctx_ok (BQ:=ring_queue m) MAILBOX_CAPACITY ctx' (replicate (Z.to_nat (io_nodes io)) []) ∧
    nkit_teardown ctx' =
      Ret (concat (release_mailbox (ctx_numa_supported ctx') <$> l) ++ [FreeHandle], ctx'') ∧
    ctx_initialized ctx'' = false ∧ nkit_teardown ctx'' = UB.
Proof.
  intros Hi Hn Hpos H1 H2 Hc Hall. unfold nkit_init, init_enter. rewrite Hi. unfold init_body. simpl.
  rewrite H1, H2, Hc, Hn. simpl. set (numa := negb (io_numa_available io <? 0)).
  destruct (init_mailboxes_ok io numa m (Z.to_nat (io_nodes io)) 0) as (l & -> & Hl).
  { intros j Hj. apply Hall. lia. }
  cbn [obind]. rewrite (proj2 (Z.leb_gt _ _)) by lia.
  pose proof (Forall2_length _ _ _ Hl) as Hlen. rewrite length_replicate in Hlen.
  eexists _, l, _. split; [done|]. simpl. split; [done|]. split.
  { split; simpl; [rewrite length_replicate; lia|]. eauto. }
  unfold nkit_teardown at 1. simpl. rewrite teardown_loop_ok by (simpl; lia). cbn [obind].
  rewrite drop_0. split; [done|]. done.
Qed.

(** ** Concrete contexts *)

Definition demo_msg_ctx : nkit_context_t nkit_ring_t :=
  demo_ctx (MbArray [Some (mk_mailbox (Some demo_ring)); Some (mk_mailbox (Some demo_ring))]).

Lemma demo_msg_ctx_ok : ctx_ok (BQ:=ring_queue 1) 2 demo_msg_ctx [[]; []].
Proof.
  split; [done|]. eexists. split; [done|].
  repeat constructor; exists demo_ring; (split; [done|]; split; [apply demo_ring_rep|done]).
Qed.

(** Messages at node 0 are forwarded to node 1, with one added. *)
Definition demo_forward : option (Z → list (Z * Z)) := Some (λ d, [(1, d + 1)]).

Definition demo_msg_ops : list msg_op :=
  [MSend 0 10; MSend 0 20; MSend 0 30; MSend 5 1; MProcess (Some (0, 0)) demo_forward 0;
   MProcess (Some (3, 1)) None 1].

Lemma demo_quiet getcpu : nkit_current_node getcpu = 0 → quiet (nkit_current_node getcpu) demo_forward.
Proof. intros -> h d [= <-]. repeat constructor. simpl. lia. Qed.

Lemma messages_exactly_once_witness :
  ∃ ctx' es, msg_exec (BQ:=ring_queue 1) 10 demo_msg_ctx demo_msg_ops
    = Some (Ret ([0; 0; -2; -1; 2; 1], ctx', es)) ∧ handled 1 es = [11] ∧
    ∃ q', accepted 1 es = [11] ++ q'.
Proof.
  destruct (messages_exactly_once (BQ:=ring_queue 1) 2 10 demo_msg_ctx [[]; []] demo_msg_ops
    demo_msg_ctx_ok ltac:(lia) ltac:(lia)) as (rs & ctx' & qs' & es & E & _ & _ & Hl & F).
  { repeat constructor; simpl; try lia; try done. intros _. by apply (demo_quiet (Some (0, 0))). }
  destruct (lookup_lt_is_Some_2 qs' 1) as [q' Hq']; [rewrite Hl; simpl; lia|].
  specialize (F 1%nat [] q' eq_refl Hq'). vm_compute in E. simplify_eq.
  eexists _, _. split; [by vm_compute|]. split; [done|]. by exists [21].
Defined.

Lemma process_local_correct_witness :
  ∃ ctx' qs' es, nkit_process_local (BQ:=ring_queue 1) 10 demo_msg_ctx (Some (0, 1)) None 3
    = Some (Ret (0, ctx', es)) ∧ qs' !! 1%nat = Some [] ∧ ctx_ok (BQ:=ring_queue 1) 2 ctx' qs'.
Proof.
  destruct (process_local_correct (BQ:=ring_queue 1) 2 10 demo_msg_ctx [[]; []] [] (Some (0, 1)) None 3
    demo_msg_ctx_ok) as (n & ctx' & qs' & es & E & H & -> & _ & Hq); try done.
  exists ctx', qs', es. split_and!; done.
Defined.

Definition demo_io : init_os := {|
  io_numa_available := 0; io_topo_init := 0; io_topo_load := 0; io_calloc := true;
  io_mailbox _ _ := true; io_ring _ := demo_os false true; io_nodes := 2; io_pus := 8;
|}.

Lemma init_first_mailboxes_missing_witness :
  ∃ ctx, nkit_init demo_io g_nkit_ctx = Ret (0, ctx) ∧ nkit_send (BQ:=ring_queue 0) ctx 0 42 = UB.
Proof.
  destruct (init_first_mailboxes_missing demo_io 0 eq_refl eq_refl) as (ctx & E & Hn & Hs & _).
  exists ctx. split; [done|]. apply Hs. lia.
Defined.

Lemma reinit_mailboxes_witness :
  ∃ ctx', nkit_init demo_io (with_mailboxes (mk_ctx false 2 8 false 0 MbNull (dbl_of_Z 50) true) MbDangling)
          = Ret (0, ctx') ∧
    ctx_ok (BQ:=ring_queue 0) MAILBOX_CAPACITY ctx' [[]; []].
Proof.
  destruct (reinit_mailboxes demo_io 0
    (with_mailboxes (mk_ctx false 2 8 false 0 MbNull (dbl_of_Z 50) true) MbDangling))
    as (ctx' & l & ctx'' & E & _ & H & _); try done.
  - intros numa j _. split; [done|]. split; [apply demo_os_ok|]. by vm_compute.
  - exists ctx'. by split.
Defined.
