(* ===== verification/InitConc.v ===== *)
(** * Initialisation raced by several threads (src/init.c)

    Any number of threads call [nkit_init] at once and interleave at every access to
    the context: the test of the flag, the store of [numa_supported], the
    compare-and-swap, the two hwloc calls, the mailbox array and each mailbox of it,
    and the stores of the cached numbers.  hwloc and [calloc] may fail at each
    attempt; the other answers are those of the machine. *)

From stdpp Require Import prelude.
From Stdlib Require Import ZArith Lia.
From S2P Require Import Prelude Words Double Arena Ring Context Messaging.
Local Open Scope Z_scope.

(** ** Steps *)

(** Where a thread is: the access of [nkit_init] it makes next. *)
Inductive ic_pc :=
| IcIdle
| IcCheck              (* if (g_nkit_ctx.initialized) return 0 *)
| IcAvail              (* numa_supported = numa_available() >= 0 *)
| IcCas                (* CAS(&initialized, false, true) *)
| IcTopoInit           (* hwloc_topology_init(&topo) *)
| IcTopoLoad           (* hwloc_topology_set_flags, hwloc_topology_load *)
| IcUndo               (* hwloc_topology_destroy(topo) *)
| IcReset              (* initialized = false; return -1 *)
| IcCalloc             (* mailboxes = calloc(num_nodes, ...) *)
| IcMailbox (i : nat)  (* the loop over the mailboxes, at i *)
| IcThreshold          (* balancer_threshold_mpki = DEFAULT_MPKI *)
| IcNodes              (* num_nodes = ... *)
| IcPus                (* num_pus = ... *)
| IcFallback.          (* if (num_nodes <= 0) num_nodes = 1; return 0 *)

Record ic_state := mk_ic {
  ic_ctx : nkit_context_t nkit_ring_t;
  ic_threads : list ic_pc;
}.

(** How a call ends: it has done the work; it was told that there is nothing to do;
    it failed. *)
Inductive ic_event := Ready (t : nat) | Told (t : nat) | Failed (t : nat).

(** [ok]: the result of the hwloc call or of [calloc]. *)
Inductive ic_label := IcCall (t : nat) | IcGo (t : nat) (ok : bool).

Section fields.
Implicit Types (ctx : nkit_context_t nkit_ring_t).

Definition set_topo ctx (b : bool) :=
  mk_ctx b (ctx_num_nodes ctx) (ctx_num_pus ctx) (ctx_initialized ctx) (ctx_active_threads ctx)
    (ctx_mailboxes ctx) (ctx_threshold ctx) (ctx_numa_supported ctx).
Definition set_nodes ctx (n : Z) :=
  mk_ctx (ctx_topo ctx) n (ctx_num_pus ctx) (ctx_initialized ctx) (ctx_active_threads ctx)
    (ctx_mailboxes ctx) (ctx_threshold ctx) (ctx_numa_supported ctx).
Definition set_pus ctx (n : Z) :=
  mk_ctx (ctx_topo ctx) (ctx_num_nodes ctx) n (ctx_initialized ctx) (ctx_active_threads ctx)
    (ctx_mailboxes ctx) (ctx_threshold ctx) (ctx_numa_supported ctx).
Definition set_initialized ctx (b : bool) :=
  mk_ctx (ctx_topo ctx) (ctx_num_nodes ctx) (ctx_num_pus ctx) b (ctx_active_threads ctx)
    (ctx_mailboxes ctx) (ctx_threshold ctx) (ctx_numa_supported ctx).
Definition set_threshold ctx (d : double) :=
  mk_ctx (ctx_topo ctx) (ctx_num_nodes ctx) (ctx_num_pus ctx) (ctx_initialized ctx) (ctx_active_threads ctx)
    (ctx_mailboxes ctx) d (ctx_numa_supported ctx).
Definition set_supported ctx (b : bool) :=
  mk_ctx (ctx_topo ctx) (ctx_num_nodes ctx) (ctx_num_pus ctx) (ctx_initialized ctx) (ctx_active_threads ctx)
    (ctx_mailboxes ctx) (ctx_threshold ctx) b.
End fields.

Section steps.
Variable io : init_os.
Implicit Types (ctx : nkit_context_t nkit_ring_t).

Definition supported : bool := negb (io_numa_available io <? 0).

(** One turn of the mailbox loop: the mailbox, and its ring. *)
Definition new_mailbox (numa : bool) (i : Z) : outcome (option (nkit_mailbox_t nkit_ring_t)) :=
  if io_mailbox io numa i then
    let* ring := nkit_ring_create (io_ring io i) i MAILBOX_CAPACITY in
    Ret (Some (mk_mailbox ring))
  else Ret None.

(** One access of thread [t]; [None] when it is outside a call or an access is
    undefined. *)
Definition nkit_init_step ctx (t : nat) (pc : ic_pc) (ok : bool)
    : option (nkit_context_t nkit_ring_t * ic_pc * list ic_event) :=
  match pc with
  | IcIdle => None
  | IcCheck => if ctx_initialized ctx then Some (ctx, IcIdle, [Told t]) else Some (ctx, IcAvail, [])
  | IcAvail => Some (set_supported ctx supported, IcCas, [])
  | IcCas =>
      if ctx_initialized ctx then Some (ctx, IcIdle, [Told t])
      else Some (set_initialized ctx true, IcTopoInit, [])
  | IcTopoInit => if ok then Some (set_topo ctx true, IcTopoLoad, []) else Some (ctx, IcReset, [])
  | IcTopoLoad => Some (ctx, if ok then IcCalloc else IcUndo, [])
  | IcUndo => Some (ctx, IcReset, [])
  | IcReset => Some (set_initialized ctx false, IcIdle, [Failed t])
  | IcCalloc =>
      if ok then Some (with_mailboxes ctx (MbArray (replicate (Z.to_nat (ctx_num_nodes ctx)) None)), IcMailbox 0, [])
      else Some (with_mailboxes ctx MbNull, IcThreshold, [])
  | IcMailbox i =>
      if Z.of_nat i <? ctx_num_nodes ctx then
        match ctx_mailboxes ctx, new_mailbox (ctx_numa_supported ctx) (Z.of_nat i) with
        | MbArray l, Ret mb =>
            if (i <? length l)%nat then Some (with_mailboxes ctx (MbArray (<[i := mb]> l)), IcMailbox (S i), [])
            else None
        | _, _ => None
        end
      else Some (ctx, IcThreshold, [])
  | IcThreshold => Some (set_threshold ctx DEFAULT_MPKI, IcNodes, [])
  | IcNodes => Some (set_nodes ctx (io_nodes io), IcPus, [])
  | IcPus => Some (set_pus ctx (io_pus io), IcFallback, [])
  | IcFallback => Some (if ctx_num_nodes ctx <=? 0 then set_nodes ctx 1 else ctx, IcIdle, [Ready t])
  end.

Definition init_step (s : ic_state) (l : ic_label) : option (ic_state * list ic_event) :=
  match l with
  | IcCall t =>
      match ic_threads s !! t with
      | Some IcIdle => Some (mk_ic (ic_ctx s) (<[t := IcCheck]> (ic_threads s)), [])
      | _ => None
      end
  | IcGo t ok =>
      match ic_threads s !! t with
      | Some pc =>
          match nkit_init_step (ic_ctx s) t pc ok with
          | Some (ctx, pc', es) => Some (mk_ic ctx (<[t := pc']> (ic_threads s)), es)
          | None => None
          end
      | None => None
      end
  end.

Definition init_start ctx (n : nat) : ic_state := mk_ic ctx (replicate n IcIdle).

Definition ready (es : list ic_event) : list nat :=
  omap (λ e, match e with Ready t => Some t | _ => None end) es.

(** Between the exchange of the flag and the return. *)
Definition in_body (pc : ic_pc) : bool :=
  match pc with IcIdle | IcCheck | IcAvail | IcCas => false | _ => true end.

(** The answers of an attempt that succeeds. *)
Definition answers (calloc_ok : bool) : init_os := {|
  io_numa_available := io_numa_available io; io_topo_init := 0; io_topo_load := 0; io_calloc := calloc_ok;
  io_mailbox := io_mailbox io; io_ring := io_ring io; io_nodes := io_nodes io; io_pus := io_pus io;
|}.

(** How many accesses a call has left at most, with [n] mailboxes to make. *)
Definition accesses_left (n : nat) (pc : ic_pc) : nat :=
  match pc with
  | IcIdle => 0
  | IcCheck => 12 + n | IcAvail => 11 + n | IcCas => 10 + n
  | IcTopoInit => 9 + n | IcTopoLoad => 8 + n | IcUndo => 2 | IcReset => 1
  | IcCalloc => 7 + n | IcMailbox i => 5 + (n - i)
  | IcThreshold => 4 | IcNodes => 3 | IcPus => 2 | IcFallback => 1
  end.

(** ** The invariant *)

Context (ctx0 : nkit_context_t nkit_ring_t).
Hypothesis Hfresh : ctx_initialized ctx0 = false.

(** The context as it was, but for the given fields. *)
Definition ctx_with (topo flag : bool) (m : mailbox_array nkit_ring_t) (d : double) (n p : Z) (sup : bool) :=
  mk_ctx topo n p flag (ctx_active_threads ctx0) m d sup.

Abbreviation n0 := (ctx_num_nodes ctx0).
Abbreviation p0 := (ctx_num_pus ctx0).
Abbreviation m0 := (ctx_mailboxes ctx0).
Abbreviation d0 := (ctx_threshold ctx0).

(** The mailboxes when the loop is over. *)
Definition mailboxes_done (m : mailbox_array nkit_ring_t) : Prop :=
  m = MbNull ∨ ∃ l, init_mailboxes io supported (Z.to_nat n0) 0 = Ret l ∧ m = MbArray l.

(** What the thread that initialises has done so far. *)
Definition built (pc : ic_pc) ctx : Prop :=
  match pc with
  | IcTopoInit | IcUndo | IcReset => ∃ b, ctx = ctx_with b true m0 d0 n0 p0 supported
  | IcTopoLoad | IcCalloc => ctx = ctx_with true true m0 d0 n0 p0 supported
  | IcMailbox i => (i ≤ Z.to_nat n0)%nat ∧ ∃ l, init_mailboxes io supported i 0 = Ret l ∧ length l = i ∧
      ctx = ctx_with true true (MbArray (l ++ replicate (Z.to_nat n0 - i) None)) d0 n0 p0 supported
  | IcThreshold => ∃ m, mailboxes_done m ∧ ctx = ctx_with true true m d0 n0 p0 supported
  | IcNodes => ∃ m, mailboxes_done m ∧ ctx = ctx_with true true m DEFAULT_MPKI n0 p0 supported
  | IcPus => ∃ m, mailboxes_done m ∧ ctx = ctx_with true true m DEFAULT_MPKI (io_nodes io) p0 supported
  | IcFallback => ∃ m, mailboxes_done m ∧ ctx = ctx_with true true m DEFAULT_MPKI (io_nodes io) (io_pus io) supported
  | _ => False
  end.

Definition complete ctx : Prop := ∃ b, nkit_init (answers b) ctx0 = Ret (0, ctx).

Definition nobody (ths : list ic_pc) : Prop := ∀ t pc, ths !! t = Some pc → in_body pc = false.

Inductive ic_inv (es : list ic_event) (s : ic_state) : Prop :=
| ic_open topo sup :
    ready es = [] → nobody (ic_threads s) → ic_ctx s = ctx_with topo false m0 d0 n0 p0 sup →
    (∀ t, ic_threads s !! t = Some IcCas → sup = supported) → ic_inv es s
| ic_working t pc :
    ready es = [] → ic_threads s !! t = Some pc → built pc (ic_ctx s) →
    (∀ u pc', u ≠ t → ic_threads s !! u = Some pc' → in_body pc' = false) → ic_inv es s
| ic_ready t :
    ready es = [t] → nobody (ic_threads s) → complete (ic_ctx s) → ic_inv es s.

(** ** Steps keep it *)

Lemma init_mailboxes_snoc numa k j l mb :
  init_mailboxes io numa k j = Ret l → new_mailbox numa (j + Z.of_nat k) = Ret mb →
  init_mailboxes io numa (S k) j = Ret (l ++ [mb]).
Proof.
  revert j l. induction k as [|k IH]; intros j l Hl Hmb.
  - cbn in Hl. injection Hl as <-. cbn [init_mailboxes]. rewrite Z.add_0_r in Hmb. unfold new_mailbox in Hmb.
    by rewrite Hmb.
  - cbn [init_mailboxes] in Hl. change (init_mailboxes io numa (S (S k)) j) with
      (let* mb := new_mailbox numa j in let* rest := init_mailboxes io numa (S k) (j + 1) in Ret (mb :: rest)).
    fold (new_mailbox numa j) in Hl. destruct (new_mailbox numa j) as [mb0|]; [|done]. cbn [obind] in *.
    destruct (init_mailboxes io numa k (j + 1)) as [l1|] eqn:E; [|done]. cbn [obind] in Hl. injection Hl as <-.
    rewrite (IH (j + 1) l1 E); [done|]. rewrite <-Hmb. f_equal. lia.
Qed.

Lemma ctx0_eta : ctx0 = ctx_with (ctx_topo ctx0) false m0 d0 n0 p0 (ctx_numa_supported ctx0).
Proof using Hfresh. unfold ctx_with. rewrite <-Hfresh. by destruct ctx0. Qed.

(** The last access gives what a call on its own gives. *)
Lemma fallback_complete m :
  mailboxes_done m →
  complete (let ctx := ctx_with true true m DEFAULT_MPKI (io_nodes io) (io_pus io) supported in
            if ctx_num_nodes ctx <=? 0 then set_nodes ctx 1 else ctx).
Proof using Hfresh.
  intros [-> |(l & Hl & ->)]; [exists false|exists true]; unfold nkit_init, init_enter; rewrite Hfresh; cbn.
  - by destruct (io_nodes io <=? 0).
  - change (init_mailboxes (answers true) (negb (io_numa_available io <? 0)) (Z.to_nat n0) 0 = Ret l) in Hl.
    rewrite Hl. cbn. by destruct (io_nodes io <=? 0).
Qed.

Lemma complete_fields ctx : complete ctx → ctx_initialized ctx = true ∧ ctx_numa_supported ctx = supported.
Proof using Hfresh.
  intros [b H]. unfold nkit_init, init_enter in H. rewrite Hfresh in H. cbn in H.
  destruct b; cbn in H; [destruct (init_mailboxes _ _ _ _); [|done]; cbn in H|]; by injection H as <-.
Qed.

Lemma built_fields pc ctx : built pc ctx → ctx_initialized ctx = true ∧ ctx_numa_supported ctx = supported ∧ in_body pc = true.
Proof. destruct pc; cbn; try done; naive_solver. Qed.

(** A thread that is not the one that initialises. *)
Lemma outside_step ctx t pc ok ctx' pc' es' :
  in_body pc = false → nkit_init_step ctx t pc ok = Some (ctx', pc', es') →
  (ctx_initialized ctx = true → ctx_numa_supported ctx = supported → ctx' = ctx ∧ in_body pc' = false ∧ ready es' = []).
Proof.
  intros Hb Hs Hi Hn. destruct pc; cbn in Hb, Hs; try done; rewrite ?Hi in Hs; simplify_eq; try done.
  split; [|done]. rewrite <-Hn. by destruct ctx.
Qed.

(** A step of the thread that initialises: the next access, the end, or the failure. *)
Lemma body_step ctx t pc ok ctx' pc' es' :
  built pc ctx → nkit_init_step ctx t pc ok = Some (ctx', pc', es') →
  (built pc' ctx' ∧ ready es' = []) ∨
  (pc' = IcIdle ∧ ready es' = [t] ∧ complete ctx') ∨
  (pc' = IcIdle ∧ ready es' = [] ∧ ∃ b, ctx' = ctx_with b false m0 d0 n0 p0 supported).
Proof using Hfresh.
  intros Hb Hs. destruct pc; cbn [built] in Hb; try done; cbn [nkit_init_step] in Hs.
  - destruct Hb as [b ->]. destruct ok; simplify_eq; left; cbn; eauto.
  - subst ctx. destruct ok; simplify_eq; left; cbn; eauto.
  - destruct Hb as [b ->]. simplify_eq. left; cbn; eauto.
  - destruct Hb as [b ->]. simplify_eq. right. right. cbn. eauto.
  - subst ctx. destruct ok; simplify_eq; left; (split; [|done]); cbn.
    + split; [lia|]. exists []. by rewrite Nat.sub_0_r.
    + exists MbNull. split; [by left|done].
  - destruct Hb as (Hi & l & Hl & Hlen & ->). cbn [ctx_with ctx_num_nodes ctx_mailboxes ctx_numa_supported] in Hs. left.
    destruct (Z.ltb_spec (Z.of_nat i) n0) as [Hlt|Hge].
    + destruct (new_mailbox supported (Z.of_nat i)) as [mb|] eqn:Hmb; [|done].
      destruct (Nat.ltb_spec i (length (l ++ replicate (Z.to_nat n0 - i) None))); [|done]. simplify_eq.
      split; [|done]. cbn [built]. split; [lia|]. exists (l ++ [mb]). split; [by apply init_mailboxes_snoc|].
      split; [rewrite length_app; cbn; lia|]. cbn. unfold ctx_with. do 2 f_equal.
      replace (Z.to_nat n0 - length l)%nat with (S (Z.to_nat n0 - S (length l))) by lia. cbn [replicate].
      rewrite insert_app_r_alt, Nat.sub_diag by lia. cbn. by rewrite <-app_assoc.
    + simplify_eq. split; [|done]. eexists. split; [|done]. right. exists l.
      replace (Z.to_nat n0) with (length l) at 1 by lia. split; [done|].
      replace (Z.to_nat n0 - length l)%nat with 0%nat by lia. by rewrite app_nil_r.
  - destruct Hb as (m & Hm & ->). simplify_eq. left. cbn. eauto.
  - destruct Hb as (m & Hm & ->). simplify_eq. left. cbn. eauto.
  - destruct Hb as (m & Hm & ->). simplify_eq. left. cbn. eauto.
  - destruct Hb as (m & Hm & ->). simplify_eq. right. left. split; [done|]. split; [done|]. by apply fallback_complete.
Qed.

Lemma ready_app es es' : ready (es ++ es') = ready es ++ ready es'.
Proof. apply omap_app. Qed.

Lemma nobody_insert ths t pc : nobody ths → in_body pc = false → nobody (<[t := pc]> ths).
Proof. intros Hn Hpc. unfold nobody. apply (forall_insert (λ _ pc, in_body pc = false)); [done|]. intros j y _. apply Hn. Qed.

(** A thread outside the work moves and leaves the context alone. *)
Lemma outside_moves es es' s t pc pc' :
  ic_inv es s → ic_threads s !! t = Some pc → in_body pc = false → in_body pc' = false → pc' ≠ IcCas →
  ready es' = [] → ic_inv (es ++ es') (mk_ic (ic_ctx s) (<[t := pc']> (ic_threads s))).
Proof.
  intros I Ht Hpc Hpc' Hcas He. pose proof (lookup_lt_Some _ _ _ Ht) as Hlt.
  destruct I as [topo sup Hr Hn Hc Hs|v pcv Hr Hv Hb Ho|v Hr Hn Hc].
  - apply (ic_open _ _ topo sup); rewrite ?ready_app, ?Hr, ?He; cbn; auto; [by apply nobody_insert|].
    intros u. rewrite lookup_insert_decide by done. case_decide; [congruence|eauto].
  - assert (v ≠ t) by (intros ->; simplify_eq; destruct (built_fields _ _ Hb) as (_ & _ & ?); congruence).
    apply (ic_working _ _ v pcv); rewrite ?ready_app, ?Hr, ?He; cbn; auto; [by rewrite list_lookup_insert_ne|].
    intros u pcu Hu. rewrite lookup_insert_decide by done. case_decide; [by intros [= <-]|eauto].
  - apply (ic_ready _ _ v); rewrite ?ready_app, ?Hr, ?He; cbn; auto. by apply nobody_insert.
Qed.

Lemma go_inv es s t pc ok ctx' pc' es' :
  ic_inv es s → ic_threads s !! t = Some pc → nkit_init_step (ic_ctx s) t pc ok = Some (ctx', pc', es') →
  ic_inv (es ++ es') (mk_ic ctx' (<[t := pc']> (ic_threads s))).
Proof using Hfresh.
  intros I Ht Hs. pose proof (lookup_lt_Some _ _ _ Ht) as Hlt.
  destruct I as [topo sup Hr Hn Hc Hcas|v pcv Hr Hv Hb Ho|v Hr Hn Hc].
  - pose proof (Hn t pc Ht) as Hpc. assert (I : ic_inv es s) by by apply (ic_open _ _ topo sup).
    destruct pc; cbn in Hpc; try done; cbn [nkit_init_step] in Hs; rewrite Hc in Hs; cbn in Hs; simplify_eq.
    + rewrite <-Hc. by apply (outside_moves _ _ _ _ IcCheck).
    + apply (ic_open _ _ topo supported); cbn; auto; [by rewrite ready_app, Hr|by apply nobody_insert].
    + pose proof (Hcas t Ht) as ->. apply (ic_working _ _ t IcTopoInit); cbn.
      * by rewrite ready_app, Hr.
      * by apply list_lookup_insert_eq.
      * by exists topo.
      * intros u pcu Hu. rewrite list_lookup_insert_ne by done. apply Hn.
  - destruct (built_fields _ _ Hb) as (Hi & Hsup & Hin). destruct (decide (t = v)) as [->|Hne].
    + simplify_eq. destruct (body_step _ _ _ _ _ _ _ Hb Hs) as [[Hb' He]|[(-> & He & Hdone)|(-> & He & b & ->)]].
      * apply (ic_working _ _ v pc'); cbn; auto; [by rewrite ready_app, Hr|by apply list_lookup_insert_eq|].
        intros u pcu Hu. rewrite list_lookup_insert_ne by done. by apply Ho.
      * apply (ic_ready _ _ v); cbn; auto; [by rewrite ready_app, Hr, He|].
        intros u pcu. rewrite lookup_insert_decide by done. case_decide; [by intros [= <-]|eauto].
      * apply (ic_open _ _ b supported); cbn; auto; [by rewrite ready_app, Hr, He|].
        intros u pcu. rewrite lookup_insert_decide by done. case_decide; [by intros [= <-]|eauto].
    + destruct (outside_step _ _ _ _ _ _ _ (Ho t pc Hne Ht) Hs Hi Hsup) as (-> & Hpc' & He).
      apply (ic_working _ _ v pcv); cbn; auto; [by rewrite ready_app, Hr, He|by rewrite list_lookup_insert_ne|].
      intros u pcu Hu. rewrite lookup_insert_decide by done. case_decide; [by intros [= <-]|eauto].
  - destruct (complete_fields _ Hc) as [Hi Hsup].
    destruct (outside_step _ _ _ _ _ _ _ (Hn t pc Ht) Hs Hi Hsup) as (-> & Hpc' & He).
    apply (ic_ready _ _ v); cbn; auto; [by rewrite ready_app, Hr, He|by apply nobody_insert].
Qed.

Lemma init_step_inv es s l s' es' :
  ic_inv es s → init_step s l = Some (s', es') → ic_inv (es ++ es') s'.
Proof using Hfresh.
  intros I Hs. destruct l as [t|t ok]; cbn [init_step] in Hs; destruct (ic_threads s !! t) as [pc|] eqn:Ht; try done.
  - destruct pc; simplify_eq. by apply (outside_moves _ _ _ _ IcIdle).
  - destruct (nkit_init_step _ _ _ _) as [[[ctx' pc'] es1]|] eqn:E; [|done]. simplify_eq. by eapply go_inv.
Qed.

Lemma init_run n sched s es : traced init_step (init_start ctx0 n) sched = Some (s, es) → ic_inv es s.
Proof using Hfresh.
  intros Hr. refine (traced_invariant init_step (λ _, ic_inv) _ _ _ sched s es Hr).
  - apply (ic_open _ _ (ctx_topo ctx0) (ctx_numa_supported ctx0)); cbn; auto.
    + by intros t pc [-> _]%lookup_replicate.
    + apply ctx0_eta.
    + by intros t [? _]%lookup_replicate.
  - intros _ es0 s0 l s1 es1. apply init_step_inv.
Qed.

(** A call goes on to its end. *)
Lemma init_progress es s t pc ok :
  ic_inv es s → (∀ j, nkit_ring_create (io_ring io j) j MAILBOX_CAPACITY ≠ UB) →
  ic_threads s !! t = Some pc → pc ≠ IcIdle →
  ∃ ctx' pc' es', nkit_init_step (ic_ctx s) t pc ok = Some (ctx', pc', es') ∧
    (accesses_left (Z.to_nat n0) pc' < accesses_left (Z.to_nat n0) pc)%nat.
Proof using Hfresh.
  intros I Hring Ht Hpc.
  assert (Hmb : ∀ i, pc = IcMailbox i → built pc (ic_ctx s)).
  { intros i ->. destruct I as [? ? _ Hn _ _|v pcv _ Hv Hb Ho|? _ Hn _]; [by specialize (Hn t _ Ht)| |by specialize (Hn t _ Ht)].
    destruct (decide (t = v)) as [->|Hne]; [by simplify_eq|by specialize (Ho t _ Hne Ht)]. }
  destruct pc; cbn [nkit_init_step]; try done; try (repeat case_match; do 3 eexists; (split; [done|cbn; lia])).
  destruct (Hmb i eq_refl) as (Hi & l & Hl & Hlen & ->). cbn [ctx_with ctx_num_nodes ctx_mailboxes ctx_numa_supported].
  destruct (Z.ltb_spec (Z.of_nat i) n0) as [Hlt|Hge]; [|do 3 eexists; (split; [done|cbn; lia])].
  assert (Hnew : ∃ mb, new_mailbox supported (Z.of_nat i) = Ret mb).
  { unfold new_mailbox. destruct (io_mailbox io _ _); [|eauto]. specialize (Hring (Z.of_nat i)).
    destruct (nkit_ring_create _ _ _); [cbn; eauto|done]. }
  destruct Hnew as [mb ->]. rewrite (proj2 (Nat.ltb_lt _ _)) by (rewrite length_app, length_replicate; lia).
  do 3 eexists. split; [done|]. cbn. lia.
Qed.
End steps.

(** ** Properties *)

(** C19. Initialisation runs once.  Any number of threads call [nkit_init] any number
    of times, in any interleaving, on a library that is not initialised, hwloc and
    [calloc] failing as they like.  At most one thread works at a time, and at most
    one call ever completes the work.  From the moment it has, the context is the one
    a call on its own would have left, and it stays so; as long as none has and no
    thread is at work, the flag is clear and the context is as it was, so that the
    next call tries again.  No call waits: each returns within 12 accesses of its own
    and one for each mailbox, as long as creating a ring is defined. *)
Theorem init_runs_once io (ctx0 : nkit_context_t nkit_ring_t) n sched s es :
  ctx_initialized ctx0 = false → traced (init_step io) (init_start ctx0 n) sched = Some (s, es) →
  (∀ t1 t2 pc1 pc2, ic_threads s !! t1 = Some pc1 → ic_threads s !! t2 = Some pc2 →
     in_body pc1 = true → in_body pc2 = true → t1 = t2) ∧
  (length (ready es) ≤ 1)%nat ∧
  (ready es ≠ [] → ∃ b, nkit_init (answers io b) ctx0 = Ret (0, ic_ctx s)) ∧
  (ready es = [] → nobody (ic_threads s) →
     ∃ topo sup, ic_ctx s = set_supported (set_topo ctx0 topo) sup) ∧
  ((∀ j, nkit_ring_create (io_ring io j) j MAILBOX_CAPACITY ≠ UB) →
   ∀ t pc ok, ic_threads s !! t = Some pc → pc ≠ IcIdle →
     ∃ ctx' pc' es', nkit_init_step io (ic_ctx s) t pc ok = Some (ctx', pc', es') ∧
       (accesses_left (Z.to_nat (ctx_num_nodes ctx0)) pc' < accesses_left (Z.to_nat (ctx_num_nodes ctx0)) pc)%nat).
Proof.
  intros H0 Hr. pose proof (init_run io ctx0 H0 n sched s es Hr) as I. split_and!.
  - intros t1 t2 pc1 pc2 H1 H2 B1 B2.
    destruct I as [? ? _ Hn _ _|v pcv _ Hv Hb Ho|? _ Hn _]; [by rewrite (Hn t1 pc1) in B1| |by rewrite (Hn t1 pc1) in B1].
    destruct (decide (t1 = v)) as [->|N1]; [|by rewrite (Ho t1 pc1) in B1].
    destruct (decide (t2 = v)) as [->|N2]; [done|by rewrite (Ho t2 pc2) in B2].
  - destruct I as [? ? -> _ _ _|? ? -> _ _ _|? -> _ _]; cbn; lia.
  - intros Hne. by destruct I as [? ? E _ _ _|? ? E _ _ _|? _ _ [b Hc]]; [..|exists b].
  - intros E Hn. destruct I as [topo sup _ _ -> _|v pcv _ Hv Hb _|? E' _ _].
    + exists topo, sup. unfold ctx_with, set_supported, set_topo. cbn. by rewrite H0.
    + destruct (built_fields _ _ _ _ Hb) as (_ & _ & Hin). by rewrite (Hn v pcv Hv) in Hin.
    + congruence.
  - intros Hring t pc ok Ht Hne. by apply (init_progress io ctx0 H0 es).
Qed.

(** Two threads test the flag; the second takes it, and the first is told. *)
Definition demo_init_sched : list ic_label :=
  [IcCall 0; IcCall 1; IcGo 0 true; IcGo 1 true; IcGo 0 true; IcGo 1 true; IcGo 1 true; IcGo 0 true] ++
  replicate 8 (IcGo 1 true).

Lemma init_runs_once_witness :
  match traced (init_step demo_io) (init_start g_nkit_ctx 2) demo_init_sched with
  | Some (s, es) => es = [Told 0; Ready 1] ∧ ∃ b, nkit_init (answers demo_io b) g_nkit_ctx = Ret (0, ic_ctx s)
  | None => False
  end.
Proof.
  destruct (traced _ _ _) as [[s es]|] eqn:E; [|by vm_compute in E].
  destruct (init_runs_once demo_io g_nkit_ctx 2 demo_init_sched s es eq_refl E) as (_ & _ & H & _).
  assert (Ee : es = [Told 0; Ready 1]) by (vm_compute in E; by injection E as <- <-).
  split; [done|]. apply H. by rewrite Ee.
Defined.

(** C35. A thread that loses the race is told that the library is ready when it is not.
    There is a run in which [nkit_init] has returned 0 to thread 1 while thread 0 has
    not begun to load the topology: the library says it has 0 nodes and refuses every
    node number.  And there is a run in which thread 0's attempt then fails: both
    calls are over, thread 1 was told 0, and the library is not initialised. *)
Theorem init_told_too_early :
  (∃ sched s, traced (init_step demo_io) (init_start g_nkit_ctx 2) sched = Some (s, [Told 1]) ∧
     nkit_topo_num_nodes (ic_ctx s) = 0 ∧
     ∀ i j, nkit_topo_distance demo_backend (ic_ctx s) i j = -1) ∧
  (∃ sched s, traced (init_step demo_io) (init_start g_nkit_ctx 2) sched = Some (s, [Told 1; Failed 0]) ∧
     ic_threads s = [IcIdle; IcIdle] ∧ nkit_topo_num_nodes (ic_ctx s) = -1).
Proof.
  split.
  - exists [IcCall 0; IcGo 0 true; IcGo 0 true; IcGo 0 true; IcCall 1; IcGo 1 true].
    eexists. split; [vm_compute; reflexivity|]. done.
  - exists [IcCall 0; IcGo 0 true; IcGo 0 true; IcGo 0 true; IcCall 1; IcGo 1 true; IcGo 0 false; IcGo 0 true].
    eexists. split; [vm_compute; reflexivity|]. done.
Qed.
