(* ===== verification/MsgConc.v ===== *)
(** * Node mailboxes with many senders and receivers (src/sched/messaging.c)

    Any number of threads send to the mailboxes and process them, interleaving at
    every access to a mailbox's ring; handlers send messages of their own in the
    middle of a processing call. *)

From stdpp Require Import prelude list_numbers.
From Stdlib Require Import ZArith Lia.
From S2P Require Import Prelude Words Double Arena Ring RingConc RingItems Context Messaging.
Local Open Scope Z_scope.
Local Open Scope word_scope.

(** ** Steps *)

(** The locals of [nkit_process_local].  A handler is known by the messages it
    sends, given the one it gets. *)
Record ms_proc := mk_proc {
  pr_node : Z;
  pr_handler : option (Z → list (Z * Z));
  pr_limit : Z;
  pr_processed : Z;
}.

(** Outside any call; inside [nkit_ring_push] of a send, which a client makes or a
    handler with [rest] left to do; inside [nkit_ring_pop] of a processing call;
    inside its handler, with [sends] left to do. *)
Inductive ms_pc :=
| MsIdle
| MsSend (target d : Z) (rest : option (ms_proc * list (Z * Z)))
| MsPop (p : ms_proc)
| MsHandler (p : ms_proc) (sends : list (Z * Z)).

Record ms_state := mk_ms {
  ms_ctx : nkit_context_t ring_state;
  ms_threads : list ms_pc;
}.

(** [getcpu] is what the system call answers. *)
Inductive ms_label :=
| MsCallSend (t : nat) (target d : Z)
| MsCallProcess (t : nat) (getcpu : option (Z * Z)) (handler : option (Z → list (Z * Z))) (limit : Z)
| MsGo (t : nat) (spurious : bool).

(** A push begins; something happens at a mailbox's ring; [nkit_send] returns; the
    handler is called; [nkit_process_local] returns. *)
Inductive ms_event :=
| MsBegun (i : nat) (d : Z)
| MsRing (i : nat) (e : ring_event)
| MsSent (t : nat) (target d code : Z)
| MsHandled (t i : nat) (d : Z)
| MsProcessed (t : nat) (n : Z).

(** A step of the ring of a mailbox. *)
Definition box_ring (ctx : nkit_context_t ring_state) (node : Z) (l : ring_label)
    : option (nkit_context_t ring_state * ring_state * list ring_event) :=
  match mailbox_at ctx node with
  | Ret rs =>
      match ring_step rs l with
      | Some (rs', ev) => Some (set_ring ctx node rs', rs', ev)
      | None => None
      end
  | UB => None
  end.

Definition send_returns (rest : option (ms_proc * list (Z * Z))) : ms_pc :=
  match rest with None => MsIdle | Some (p, sends) => MsHandler p sends end.

Definition send_begins (ctx : nkit_context_t ring_state) (t : nat) (target d : Z) (rest : option (ms_proc * list (Z * Z)))
    : option (nkit_context_t ring_state * ms_pc * list ms_event) :=
  if negb (valid_node ctx target) then Some (ctx, send_returns rest, [MsSent t target d (-1)]) else
  match box_ring ctx target (RcPush t d) with
  | Some (ctx, _, _) => Some (ctx, MsSend target d rest, [MsBegun (Z.to_nat target) d])
  | None => None
  end.

(** The test of the processing loop, and the beginning of the pop. *)
Definition loop_tests (ctx : nkit_context_t ring_state) (t : nat) (p : ms_proc)
    : option (nkit_context_t ring_state * ms_pc * list ms_event) :=
  if (pr_limit p =? 0) || (pr_processed p <? pr_limit p) then
    match box_ring ctx (pr_node p) (RcPop t) with
    | Some (ctx, _, _) => Some (ctx, MsPop p, [])
    | None => None
    end
  else Some (ctx, MsIdle, [MsProcessed t (pr_processed p)]).

Definition handles (p : ms_proc) (d : Z) : list (Z * Z) :=
  match pr_handler p with Some h => h d | None => [] end.

Definition ms_go (ctx : nkit_context_t ring_state) (t : nat) (pc : ms_pc) (spurious : bool)
    : option (nkit_context_t ring_state * ms_pc * list ms_event) :=
  match pc with
  | MsIdle => None
  | MsSend target d rest =>
      match box_ring ctx target (RcAdvance t spurious) with
      | None => None
      | Some (ctx, rs, ev) =>
          let code := match ev with [Full _] => -2 | _ => 0 end in
          let '(pc', sent) :=
            match rs_threads rs !! t with
            | Some RcIdle => (send_returns rest, [MsSent t target d code])
            | _ => (pc, [])
            end in
          Some (ctx, pc', (MsRing (Z.to_nat target) <$> ev) ++ sent)
      end
  | MsPop p =>
      match box_ring ctx (pr_node p) (RcAdvance t spurious) with
      | None => None
      | Some (ctx, _, ev) =>
          let i := Z.to_nat (pr_node p) in
          let '(pc', done) :=
            match ev with
            | [Taken _ d] => (MsHandler p (handles p d), [MsHandled t i d])
            | [Empty _] => (MsIdle, [MsProcessed t (pr_processed p)])
            | _ => (pc, [])
            end in
          Some (ctx, pc', (MsRing i <$> ev) ++ done)
      end
  | MsHandler p ((target, d) :: sends) => send_begins ctx t target d (Some (p, sends))
  | MsHandler p [] => loop_tests ctx t (mk_proc (pr_node p) (pr_handler p) (pr_limit p) (pr_processed p +w 1))
  end.

Definition ms_step (s : ms_state) (l : ms_label) : option (ms_state * list ms_event) :=
  let moved t (r : option (nkit_context_t ring_state * ms_pc * list ms_event)) :=
    match r with
    | Some (ctx, pc, ev) => Some (mk_ms ctx (<[t := pc]> (ms_threads s)), ev)
    | None => None
    end in
  match l with
  | MsCallSend t target d =>
      match ms_threads s !! t with
      | Some MsIdle => moved t (send_begins (ms_ctx s) t target d None)
      | _ => None
      end
  | MsCallProcess t getcpu handler limit =>
      match ms_threads s !! t with
      | Some MsIdle =>
          let current_node := nkit_current_node getcpu in
          if negb (valid_node (ms_ctx s) current_node) then Some (s, [MsProcessed t 0]) else
          match mailbox_at (ms_ctx s) current_node with
          | UB => None
          | Ret _ => moved t (loop_tests (ms_ctx s) t (mk_proc current_node handler limit 0))
          end
      | _ => None
      end
  | MsGo t spurious =>
      match ms_threads s !! t with
      | Some pc => moved t (ms_go (ms_ctx s) t pc spurious)
      | None => None
      end
  end.

(** ** What a history shows of one mailbox *)

Definition history (i : nat) (es : list ms_event) : list ring_event :=
  omap (λ e, match e with MsRing j e => if decide (j = i) then Some e else None | _ => None end) es.
Definition begun (i : nat) (es : list ms_event) : list Z :=
  omap (λ e, match e with MsBegun j d => if decide (j = i) then Some d else None | _ => None end) es.
Definition sent (code : Z) (i : nat) (es : list ms_event) : list Z :=
  omap (λ e, match e with
             | MsSent _ target d c => if decide (Z.to_nat target = i ∧ c = code) then Some d else None
             | _ => None end) es.
Definition handled_at (i : nat) (es : list ms_event) : list Z :=
  omap (λ e, match e with MsHandled _ j d => if decide (j = i) then Some d else None | _ => None end) es.

(** Accepted and refused sends. *)
Abbreviation accepted_at := (sent 0).
Abbreviation refused_at := (sent (-2)).

Lemma history_app i es ev : history i (es ++ ev) = history i es ++ history i ev.
Proof. apply omap_app. Qed.
Lemma begun_app i es ev : begun i (es ++ ev) = begun i es ++ begun i ev.
Proof. apply omap_app. Qed.
Lemma sent_app c i es ev : sent c i (es ++ ev) = sent c i es ++ sent c i ev.
Proof. apply omap_app. Qed.
Lemma handled_at_app i es ev : handled_at i (es ++ ev) = handled_at i es ++ handled_at i ev.
Proof. apply omap_app. Qed.

(** Events of a ring, recorded at its mailbox. *)
Lemma ring_events i j rev : history j (MsRing i <$> rev) = (if decide (i = j) then rev else []) ∧
  begun j (MsRing i <$> rev) = [] ∧ (∀ c, sent c j (MsRing i <$> rev) = []) ∧ handled_at j (MsRing i <$> rev) = [].
Proof.
  induction rev as [|e rev (IH1 & IH2 & IH3 & IH4)]; [by case_decide|]. split_and!; [|exact IH2|exact IH3|exact IH4].
  cbn. case_decide; [f_equal; exact IH1|exact IH1].
Qed.

(** The message a thread is sending to mailbox [i]. *)
Definition sending (i : nat) (pc : ms_pc) : list Z :=
  match pc with MsSend target d _ => if decide (Z.to_nat target = i) then [d] else [] | _ => [] end.

(** Where a thread at [pc] is in the ring of mailbox [i]. *)
Definition pc_at (i : nat) (pc : ms_pc) (rpc : ring_pc) : Prop :=
  match pc with
  | MsSend target d _ => if decide (Z.to_nat target = i) then in_push d rpc else rpc = RcIdle
  | MsPop p => if decide (Z.to_nat (pr_node p) = i) then in_pop rpc else rpc = RcIdle
  | _ => rpc = RcIdle
  end.

Definition calm (pc : ms_pc) : Prop := match pc with MsIdle | MsHandler _ _ => True | _ => False end.

Lemma calm_at i pc rpc : calm pc → pc_at i pc rpc ↔ rpc = RcIdle.
Proof. by destruct pc. Qed.

Lemma calm_sends i pc : calm pc → sending i pc = [].
Proof. by destruct pc. Qed.

(** ** The invariant *)

Lemma mailbox_at_index ctx node : mailbox_at (Q := ring_state) ctx node = mailbox_at ctx (Z.of_nat (Z.to_nat node)).
Proof. unfold mailbox_at. by rewrite Nat2Z.id. Qed.

Lemma mailbox_set (ctx : nkit_context_t ring_state) node r0 r i :
  mailbox_at ctx node = Ret r0 →
  mailbox_at (set_ring ctx node r) (Z.of_nat i) = if decide (i = Z.to_nat node) then Ret r else mailbox_at ctx (Z.of_nat i).
Proof.
  unfold mailbox_at, set_ring. destruct (ctx_mailboxes ctx) as [|l|]; try done. destruct (l !! Z.to_nat node) as [mb|] eqn:E; [|done].
  intros _. cbn [ctx_mailboxes with_mailboxes]. rewrite Nat2Z.id, lookup_insert_decide by (by eapply lookup_lt_Some).
  by case_decide.
Qed.

Section boxes.
Context (cap : Z) (nodes : nat).

(** The processing call a thread is in. *)
Definition proc_of (pc : ms_pc) : option ms_proc :=
  match pc with MsPop p | MsHandler p _ | MsSend _ _ (Some (p, _)) => Some p | _ => None end.

Definition node_ok (pc : ms_pc) : Prop :=
  (∀ p, proc_of pc = Some p → (Z.to_nat (pr_node p) < nodes)%nat) ∧
  match pc with MsSend target _ _ => (Z.to_nat target < nodes)%nat | _ => True end.

Record box_inv (n : nat) (es : list ms_event) (s : ms_state) (i : nat) (rs : ring_state) : Prop := {
  bx_ring : mailbox_at (ms_ctx s) (Z.of_nat i) = Ret rs;
  bx_conc : conc_inv cap n (history i es) rs;
  bx_items : ring_items (claims (history i es)) rs ++ handled_at i es ++ refused_at i es ≡ₚ begun i es;
  bx_sends : holdings (sending i) (ms_threads s) ++ accepted_at i es ++ refused_at i es ≡ₚ begun i es;
  bx_handled : handled_at i es = (takes (history i es)).*2;
  bx_threads : Forall2 (pc_at i) (ms_threads s) (rs_threads rs);
}.

Record ms_inv (n : nat) (es : list ms_event) (s : ms_state) : Prop := {
  mv_nodes : ctx_num_nodes (ms_ctx s) = Z.of_nat nodes;
  mv_boxes : ∀ i, (i < nodes)%nat → ∃ rs, box_inv n es s i rs;
  mv_threads : ∀ t pc, ms_threads s !! t = Some pc → node_ok pc;
}.

(** Events that touch no ring and no accounting. *)
Definition silent (i : nat) (ev : list ms_event) : Prop :=
  history i ev = [] ∧ begun i ev = [] ∧ accepted_at i ev = [] ∧ refused_at i ev = [] ∧ handled_at i ev = [].

Lemma conc_inv_more n m es rs : conc_inv cap n es rs → (n ≤ m)%nat → conc_inv cap m es rs.
Proof. intros H Hm Hb. destruct H as (hd & tl & ? & ?); [lia|]. exists hd, tl. split; [lia|done]. Qed.

(** A mailbox another step does not touch. *)
Lemma box_kept n es s i rs ctx t pc pc' ev :
  box_inv n es s i rs → ms_threads s !! t = Some pc → mailbox_at ctx (Z.of_nat i) = Ret rs → silent i ev →
  (∀ rpc, pc_at i pc rpc → pc_at i pc' rpc) → sending i pc' = sending i pc →
  box_inv (S n) (es ++ ev) (mk_ms ctx (<[t := pc']> (ms_threads s))) i rs.
Proof.
  intros [Hr Hc Hi Hs Hh HF] Ht Er (E1 & E2 & E3 & E4 & E5) Hpc Hsend.
  split; cbn [ms_ctx ms_threads]; rewrite ?history_app, ?begun_app, ?sent_app, ?handled_at_app, ?E1, ?E2, ?E3, ?E4, ?E5, ?app_nil_r;
    try done.
  - apply (conc_inv_more n); [done|lia].
  - pose proof (holdings_insert (sending i) (ms_threads s) t pc' pc Ht) as P. rewrite Hsend in P. count_perm.
  - destruct (Forall2_lookup_l _ _ _ _ _ HF Ht) as (rpc & Hrp & Hin). rewrite <-(list_insert_id _ _ _ Hrp).
    apply Forall2_insert; auto.
Qed.

Lemma threads_kept s t pc' :
  (∀ t pc, ms_threads s !! t = Some pc → node_ok pc) → node_ok pc' →
  ∀ u pc, <[t := pc']> (ms_threads s) !! u = Some pc → node_ok pc.
Proof. intros H Hpc. apply (forall_insert (λ _ pc, node_ok pc)); [done|]. intros j y _ Hj. by apply (H j). Qed.

(** A thread moves outside the rings. *)
Lemma inv_calm n es s t pc pc' ev :
  ms_inv n es s → ms_threads s !! t = Some pc → calm pc → calm pc' → node_ok pc' → (∀ i, silent i ev) →
  ms_inv (S n) (es ++ ev) (mk_ms (ms_ctx s) (<[t := pc']> (ms_threads s))).
Proof.
  intros [Hn Hb Ht] Hpc Hc Hc' Ho He. split; [done| |by apply threads_kept].
  intros i Hi. destruct (Hb i Hi) as [rs B]. exists rs. eapply box_kept; try done; [apply B| |].
  - intros rpc. by rewrite !calm_at.
  - by rewrite !calm_sends.
Qed.

(** A thread moves inside the ring of mailbox [node]. *)
Lemma inv_box n es s t pc pc' node rs l rs' rev rpc ev :
  let i := Z.to_nat node in
  ms_inv n es s → Z.of_nat (S n) < 2 ^ 62 → ms_threads s !! t = Some pc → (i < nodes)%nat → node_ok pc' →
  box_inv n es s i rs → ring_step rs l = Some (rs', rev) →
  rs_threads rs' = <[t := rpc]> (rs_threads rs) → pc_at i pc' rpc →
  history i ev = rev → handled_at i ev = (takes rev).*2 →
  sending i pc ++ begun i ev ≡ₚ sending i pc' ++ accepted_at i ev ++ refused_at i ev →
  leaving rs l rev ++ begun i ev ≡ₚ handled_at i ev ++ refused_at i ev ++ brought l →
  (∀ j, j ≠ i → silent j ev ∧ (∀ rpc, pc_at j pc rpc → pc_at j pc' rpc) ∧ sending j pc' = sending j pc) →
  ms_inv (S n) (es ++ ev) (mk_ms (set_ring (ms_ctx s) node rs') (<[t := pc']> (ms_threads s))).
Proof.
  intros i [Hn Hb Ht] Hlen Hpc Hi Ho [Er Hc Hit Hsn Hh HF] Es Ep Hin Eh Et Hs P Hother.
  assert (Em : mailbox_at (ms_ctx s) node = Ret rs) by (by rewrite mailbox_at_index).
  split; [cbn; unfold set_ring; by destruct (ctx_mailboxes _)| |by apply threads_kept].
  intros j Hj. destruct (decide (j = i)) as [->|Hne].
  - exists rs'. split; cbn [ms_ctx ms_threads]; rewrite ?history_app, ?begun_app, ?sent_app, ?handled_at_app, ?Eh.
    + by rewrite (mailbox_set _ _ _ _ _ Em), decide_True.
    + by eapply conc_inv_step.
    + pose proof (ring_step_items cap n _ rs l rs' rev Hlen Hc Es) as Pi. count_perm.
    + pose proof (holdings_insert (sending i) (ms_threads s) t pc' pc Hpc) as Ps. count_perm.
    + unfold takes in *. by rewrite Hh, Et, omap_app, fmap_app.
    + rewrite Ep. by apply Forall2_insert.
  - destruct (Hb j Hj) as [rs2 B]. destruct (Hother j Hne) as (Hsl & Hp & Hse). exists rs2. eapply box_kept; try done.
    rewrite (mailbox_set _ _ _ _ _ Em), decide_False by done. apply B.
Qed.

(** ** Each step *)

(** A thread outside the rings may enter one. *)
Lemma box_begins n es s t pc node :
  ms_inv n es s → ms_threads s !! t = Some pc → calm pc → (Z.to_nat node < nodes)%nat →
  ∃ rs, box_inv n es s (Z.to_nat node) rs ∧ rs_threads rs !! t = Some RcIdle ∧
    ∀ l, box_ring (ms_ctx s) node l =
      match ring_step rs l with Some (rs', ev) => Some (set_ring (ms_ctx s) node rs', rs', ev) | None => None end.
Proof.
  intros I Ht Hc Hi. destruct (mv_boxes _ _ _ I _ Hi) as [rs B]. exists rs. split; [done|]. split.
  - destruct (Forall2_lookup_l _ _ _ _ _ (bx_threads _ _ _ _ _ B) Ht) as (rpc & Hr & Hin). apply calm_at in Hin; [|done]. by subst.
  - intros l. unfold box_ring. by rewrite mailbox_at_index, (bx_ring _ _ _ _ _ B).
Qed.

Lemma valid_index ctx node : ctx_num_nodes (Q := ring_state) ctx = Z.of_nat nodes → valid_node ctx node = true →
  (Z.to_nat node < nodes)%nat.
Proof. intros E Hv. apply valid_node_spec in Hv. lia. Qed.

Lemma sent_other c t target d code j : code ≠ c ∨ Z.to_nat target ≠ j → sent c j [MsSent t target d code] = [].
Proof. intros H. unfold sent. cbn. by rewrite decide_False by naive_solver. Qed.

Lemma sent_same c t target d code :
  sent c (Z.to_nat target) [MsSent t target d code] = if decide (code = c) then [d] else [].
Proof. unfold sent. cbn. repeat case_decide; naive_solver. Qed.

Lemma inv_send_begins n es s t pc target d rest :
  ms_inv n es s → Z.of_nat (S n) < 2 ^ 62 → ms_threads s !! t = Some pc → calm pc → node_ok (send_returns rest) →
  ∃ ctx pc' ev, send_begins (ms_ctx s) t target d rest = Some (ctx, pc', ev) ∧
    ms_inv (S n) (es ++ ev) (mk_ms ctx (<[t := pc']> (ms_threads s))).
Proof.
  intros I Hn Ht Hc Ho. unfold send_begins. destruct (valid_node (ms_ctx s) target) eqn:Hv; cbn [negb].
  2:{ do 3 eexists. split; [done|]. eapply inv_calm; try done; [by destruct rest as [[]|]|]. intros i.
      repeat split; try done; apply sent_other; by left. }
  pose proof (valid_index _ _ (mv_nodes _ _ _ I) Hv) as Hi.
  destruct (box_begins n es s t pc target I Ht Hc Hi) as (rs & B & Hr & Eb). rewrite Eb.
  destruct (ring_step rs (RcPush t d)) as [[rs' ev]|] eqn:Es; cbn [ring_step] in Es; rewrite Hr in Es; [|done].
  injection Es as <- <-. do 3 eexists. split; [done|].
  eapply (inv_box n es s t pc _ target rs (RcPush t d) _ _ (RcPushStart d)); try done.
  - split; [|done]. intros p Hp. apply Ho. by destruct rest as [[]|].
  - cbn [ring_step]. by rewrite Hr.
  - cbn. by rewrite decide_True.
  - rewrite calm_sends by done. unfold begun. cbn. by rewrite !decide_True.
  - unfold begun. cbn. by rewrite decide_True.
  - intros j Hj. split; [repeat split; unfold begun; cbn; by rewrite ?decide_False by done|]. split.
    + intros rpc Hin. apply calm_at in Hin; [|done]. subst. cbn. by rewrite decide_False.
    + rewrite (calm_sends j pc) by done. cbn. by rewrite decide_False.
Qed.

Lemma inv_loop n es s t pc p :
  ms_inv n es s → Z.of_nat (S n) < 2 ^ 62 → ms_threads s !! t = Some pc → calm pc → (Z.to_nat (pr_node p) < nodes)%nat →
  ∃ ctx pc' ev, loop_tests (ms_ctx s) t p = Some (ctx, pc', ev) ∧
    ms_inv (S n) (es ++ ev) (mk_ms ctx (<[t := pc']> (ms_threads s))).
Proof.
  intros I Hn Ht Hc Hi. unfold loop_tests. destruct (_ || _).
  2:{ do 3 eexists. split; [done|]. eapply inv_calm; try done. }
  destruct (box_begins n es s t pc (pr_node p) I Ht Hc Hi) as (rs & B & Hr & Eb). rewrite Eb.
  destruct (ring_step rs (RcPop t)) as [[rs' ev]|] eqn:Es; cbn [ring_step] in Es; rewrite Hr in Es; [|done].
  injection Es as <- <-. do 3 eexists. split; [done|].
  eapply (inv_box n es s t pc _ (pr_node p) rs (RcPop t) _ _ RcPopStart); try done.
  - split; [|done]. by intros ? [= <-].
  - cbn [ring_step]. by rewrite Hr.
  - cbn. by rewrite decide_True.
  - by rewrite calm_sends.
  - intros j Hj. split; [done|]. split.
    + intros rpc Hin. apply calm_at in Hin; [|done]. subst. cbn. by rewrite decide_False.
    + by rewrite (calm_sends j pc).
Qed.

Lemma box_enabled n es s t pc node sp :
  ms_inv n es s → Z.of_nat n < 2 ^ 62 → ms_threads s !! t = Some pc → (Z.to_nat node < nodes)%nat →
  (∀ rpc, pc_at (Z.to_nat node) pc rpc → rpc ≠ RcIdle) → is_Some (box_ring (ms_ctx s) node (RcAdvance t sp)).
Proof.
  intros I Hn Ht Hi Hidle. destruct (mv_boxes _ _ _ I _ Hi) as [rs B].
  destruct (Forall2_lookup_l _ _ _ _ _ (bx_threads _ _ _ _ _ B) Ht) as (rpc & Hr & Hin).
  unfold box_ring. rewrite mailbox_at_index, (bx_ring _ _ _ _ _ B). destruct (bx_conc _ _ _ _ _ B Hn) as (hd & tl & _ & Iv & _).
  by destruct (ring_enabled _ _ _ _ _ t rpc sp Iv Hr (Hidle _ Hin)) as [[rs' ev] ->].
Qed.

(** The ring step behind a thread's access. *)
Lemma box_step n es s t pc node l ctx rs' rev :
  ms_inv n es s → ms_threads s !! t = Some pc → (Z.to_nat node < nodes)%nat →
  box_ring (ms_ctx s) node l = Some (ctx, rs', rev) →
  ∃ rs rpc, box_inv n es s (Z.to_nat node) rs ∧ ring_step rs l = Some (rs', rev) ∧ rs_threads rs !! t = Some rpc ∧
    pc_at (Z.to_nat node) pc rpc ∧ ctx = set_ring (ms_ctx s) node rs'.
Proof.
  intros I Ht Hi Hb. destruct (mv_boxes _ _ _ I _ Hi) as [rs B]. unfold box_ring in Hb.
  rewrite mailbox_at_index, (bx_ring _ _ _ _ _ B) in Hb. destruct (ring_step rs l) as [[rs1 rev1]|] eqn:E; [|done].
  injection Hb as <- -> ->. destruct (Forall2_lookup_l _ _ _ _ _ (bx_threads _ _ _ _ _ B) Ht) as (rpc & Hr & Hin). by exists rs, rpc.
Qed.

(** Events of the ring of one mailbox, then those of the returning call. *)
Lemma ring_then_silent i j rev ev : j ≠ i → silent j ev → silent j ((MsRing i <$> rev) ++ ev).
Proof.
  intros Hj (S1 & S2 & S3 & S4 & S5). destruct (ring_events i j rev) as (Q1 & Q2 & Q3 & Q4). rewrite decide_False in Q1 by done.
  repeat split; by rewrite ?history_app, ?begun_app, ?sent_app, ?handled_at_app, ?Q1, ?Q2, ?Q3, ?Q4, ?S1, ?S2, ?S3, ?S4, ?S5.
Qed.

Lemma inv_send n es s t target d rest sp ctx pc' ev :
  ms_inv n es s → Z.of_nat (S n) < 2 ^ 62 → ms_threads s !! t = Some (MsSend target d rest) →
  ms_go (ms_ctx s) t (MsSend target d rest) sp = Some (ctx, pc', ev) →
  ms_inv (S n) (es ++ ev) (mk_ms ctx (<[t := pc']> (ms_threads s))).
Proof.
  intros I Hn Ht Hs. cbn [ms_go] in Hs. pose proof (mv_threads _ _ _ I t _ Ht) as Hok. pose proof Hok as [Hp Hi].
  destruct (box_ring (ms_ctx s) target (RcAdvance t sp)) as [[[ctx1 rs'] rev]|] eqn:Eb; [|done].
  destruct (box_step n es s t _ target _ _ _ _ I Ht Hi Eb) as (rs & rpc & B & Est & Hr & Hin & ->).
  cbn in Hin. rewrite decide_True in Hin by done.
  assert (Hlt : (t < length (rs_threads rs))%nat) by by eapply lookup_lt_Some.
  destruct (push_advances rs t d rpc sp rs' rev Hr Hin Est) as (rpc' & Eth & Hcase). rewrite Eth, list_lookup_insert_eq in Hs by done.
  destruct (ring_events (Z.to_nat target) (Z.to_nat target) rev) as (R1 & R2 & R3 & R4). rewrite decide_True in R1 by done.
  assert (Hret : node_ok (send_returns rest)) by (split; [intros p Hq; apply Hp; by destruct rest as [[]|]|by destruct rest as [[]|]]).
  destruct Hcase as [(Hin' & El & Hrev)|[-> Hcase]].
  - assert (Hpc : ctx = set_ring (ms_ctx s) target rs' ∧ pc' = MsSend target d rest ∧ ev = (MsRing (Z.to_nat target) <$> rev) ++ [])
      by (destruct rpc'; try done; by injection Hs as <- <- <-).
    destruct Hpc as (-> & -> & ->).
    apply (inv_box n es s t (MsSend target d rest) _ target rs (RcAdvance t sp) rs' rev rpc'); try done; rewrite ?app_nil_r.
    + cbn. by rewrite decide_True.
    + done.
    + rewrite R4. by destruct Hrev as [-> | ->].
    + by rewrite R2, !R3.
    + by rewrite El, R2, R3, R4.
    + intros j Hj. split; [|done]. rewrite <-(app_nil_r (_ <$> _)). by apply ring_then_silent.
  - injection Hs as <- <- <-.
    apply (inv_box n es s t (MsSend target d rest) _ target rs (RcAdvance t sp) rs' rev RcIdle); try done.
    + by destruct rest as [[]|].
    + by rewrite history_app, R1, app_nil_r.
    + rewrite handled_at_app, R4. by destruct Hcase as [[-> _]|[-> _]].
    + rewrite begun_app, !sent_app, R2, !R3, (calm_sends _ (send_returns rest)) by (by destruct rest as [[]|]).
      cbn [sending]. rewrite decide_True, !sent_same by done. by destruct Hcase as [[-> _]|[-> _]].
    + rewrite begun_app, handled_at_app, sent_app, R2, R3, R4, sent_same. by destruct Hcase as [[-> ->]|[-> ->]].
    + intros j Hj. split; [|].
      * apply ring_then_silent; [done|]. repeat split; try done; apply sent_other; by right.
      * assert (Hc : calm (send_returns rest)) by (by destruct rest as [[]|]). split.
        -- intros rpc2 Hq. cbn in Hq. rewrite decide_False in Hq by done. by apply calm_at.
        -- rewrite (calm_sends j _ Hc). cbn. by rewrite decide_False.
Qed.

Lemma inv_pop_go n es s t p sp ctx pc' ev :
  ms_inv n es s → Z.of_nat (S n) < 2 ^ 62 → ms_threads s !! t = Some (MsPop p) →
  ms_go (ms_ctx s) t (MsPop p) sp = Some (ctx, pc', ev) →
  ms_inv (S n) (es ++ ev) (mk_ms ctx (<[t := pc']> (ms_threads s))).
Proof.
  intros I Hn Ht Hs. cbn [ms_go] in Hs. pose proof (mv_threads _ _ _ I t _ Ht) as Hok.
  pose proof (proj1 Hok p eq_refl) as Hi. set (i := Z.to_nat (pr_node p)) in *.
  destruct (box_ring (ms_ctx s) (pr_node p) (RcAdvance t sp)) as [[[ctx1 rs'] rev]|] eqn:Eb; [|done].
  destruct (box_step n es s t _ (pr_node p) _ _ _ _ I Ht Hi Eb) as (rs & rpc & B & Est & Hr & Hin & ->). fold i in B, Hin.
  cbn in Hin. fold i in Hin. rewrite decide_True in Hin by done.
  destruct (pop_advances rs t rpc sp rs' rev Hr Hin Est) as (rpc' & Eth & Hcase).
  destruct (ring_events i i rev) as (R1 & R2 & R3 & R4). rewrite decide_True in R1 by done.
  assert (Hgo : ∀ pc1 done1, node_ok pc1 → (pc1 = MsPop p ∨ calm pc1) → pc_at i pc1 rpc' →
    (∀ j, j ≠ i → silent j done1) → history i done1 = [] → begun i done1 = [] → (∀ c, sent c i done1 = []) →
    handled_at i done1 = (takes rev).*2 → leaving rs (RcAdvance t sp) rev = (takes rev).*2 →
    ms_inv (S n) (es ++ (MsRing i <$> rev) ++ done1) (mk_ms (set_ring (ms_ctx s) (pr_node p) rs') (<[t := pc1]> (ms_threads s)))).
  { intros pc1 done1 Ho Hpc1 Hpa Hsil D1 D2 D3 D4 El.
    apply (inv_box n es s t (MsPop p) _ (pr_node p) rs (RcAdvance t sp) rs' rev rpc'); try done; fold i;
      rewrite ?history_app, ?begun_app, ?sent_app, ?handled_at_app, ?R1, ?R2, ?R3, ?R4, ?D1, ?D2, ?D3, ?D4, ?El, ?app_nil_r; try done.
    - destruct Hpc1 as [->|Hc]; [done|]. by rewrite (calm_sends _ _ Hc).
    - intros j Hj. split; [by apply ring_then_silent; [|apply Hsil]|]. destruct Hpc1 as [->|Hc]; [done|]. split; [|by rewrite (calm_sends _ _ Hc)].
      intros rpc2 Hq. cbn in Hq. fold i in Hq. rewrite decide_False in Hq by done. by apply calm_at. }
  destruct Hcase as [[Hin' ->]|[-> [(u & x & ->)| ->]]]; injection Hs as <- <- <-.
  - apply Hgo; try done; [by left|]. cbn. fold i. by rewrite decide_True.
  - apply Hgo; try done; [by right| |].
    + intros j Hj. repeat split. unfold handled_at. cbn. by rewrite decide_False.
    + unfold handled_at. cbn. by rewrite decide_True.
  - apply Hgo; try done. by right.
Qed.

(** A step is defined, and keeps the invariant. *)
Definition good (n : nat) (es : list ms_event) (s : ms_state) (t : nat)
    (r : option (nkit_context_t ring_state * ms_pc * list ms_event)) : Prop :=
  ∃ ctx pc ev, r = Some (ctx, pc, ev) ∧ ms_inv (S n) (es ++ ev) (mk_ms ctx (<[t := pc]> (ms_threads s))).

Lemma ms_inv_go n es s t pc sp :
  ms_inv n es s → Z.of_nat (S n) < 2 ^ 62 → ms_threads s !! t = Some pc → pc ≠ MsIdle → good n es s t (ms_go (ms_ctx s) t pc sp).
Proof.
  intros I Hn Ht Hpc. pose proof (mv_threads _ _ _ I t _ Ht) as Hok. destruct pc as [|target d rest|p|p [|[target d] sends]]; [done| | | |].
  - destruct (box_enabled n es s t _ target sp I ltac:(lia) Ht (proj2 Hok)) as [[[ctx rs] rev] E].
    { intros rpc Hin. cbn in Hin. rewrite decide_True in Hin by done. by destruct rpc. }
    destruct (ms_go (ms_ctx s) t (MsSend target d rest) sp) as [[[ctx1 pc1] ev1]|] eqn:Eg.
    + do 3 eexists. split; [done|]. by eapply inv_send.
    + cbn [ms_go] in Eg. rewrite E in Eg. destruct (rs_threads rs !! t) as [[]|]; discriminate.
  - destruct (box_enabled n es s t _ (pr_node p) sp I ltac:(lia) Ht (proj1 Hok p eq_refl)) as [[[ctx rs] rev] E].
    { intros rpc Hin. cbn in Hin. rewrite decide_True in Hin by done. by destruct rpc. }
    destruct (ms_go (ms_ctx s) t (MsPop p) sp) as [[[ctx1 pc1] ev1]|] eqn:Eg.
    + do 3 eexists. split; [done|]. by eapply inv_pop_go.
    + cbn [ms_go] in Eg. rewrite E in Eg. destruct rev as [|[] []]; discriminate.
  - apply (inv_loop n es s t (MsHandler p []) _ I Hn Ht); [done|exact (proj1 Hok p eq_refl)].
  - apply (inv_send_begins n es s t (MsHandler p ((target, d) :: sends)) _ _ _ I Hn Ht); [done|].
    split; [|done]. intros q Hq. by apply (proj1 Hok).
Qed.

Lemma ms_inv_step n es s l s' ev :
  ms_inv n es s → Z.of_nat (S n) < 2 ^ 62 → ms_step s l = Some (s', ev) → ms_inv (S n) (es ++ ev) s'.
Proof.
  intros I Hn Hs. destruct l as [t target d|t getcpu handler limit|t sp]; cbn [ms_step] in Hs;
    destruct (ms_threads s !! t) as [pc|] eqn:Ht; try done.
  - destruct pc; try done. destruct (inv_send_begins n es s t MsIdle target d None I Hn Ht) as (ctx & pc & ev1 & E & I'); try done.
    rewrite E in Hs. by injection Hs as <- <-.
  - destruct pc; try done. destruct (valid_node (ms_ctx s) (nkit_current_node getcpu)) eqn:Hv; cbn [negb] in Hs.
    + destruct (mailbox_at _ _); [|done].
      destruct (inv_loop n es s t MsIdle (mk_proc (nkit_current_node getcpu) handler limit 0) I Hn Ht) as (ctx & pc & ev1 & E & I'); [done| |].
      { by eapply valid_index; [apply I|]. }
      rewrite E in Hs. by injection Hs as <- <-.
    + injection Hs as <- <-. pose proof (inv_calm n es s t MsIdle MsIdle [MsProcessed t 0] I Ht) as H.
      rewrite (list_insert_id _ _ _ Ht) in H. destruct s. by apply H.
  - assert (Hpc : pc ≠ MsIdle) by (by intros ->).
    destruct (ms_inv_go n es s t pc sp I Hn Ht Hpc) as (ctx & pc1 & ev1 & E & I'). rewrite E in Hs. by injection Hs as <- <-.
Qed.

(** ** One receiver per mailbox *)

Context (i c : nat).

(** Only thread [c] processes mailbox [i]. *)
Definition one_reader (l : ms_label) : Prop :=
  match l with MsCallProcess t getcpu _ _ => nkit_current_node getcpu = Z.of_nat i → t = c | _ => True end.

Definition reads_box (pc : ms_pc) : Prop := ∃ p, proc_of pc = Some p ∧ Z.to_nat (pr_node p) = i.

Record fifo (es : list ms_event) (s : ms_state) : Prop := {
  ff_order : in_order (history i es);
  ff_reader : ∀ t pc, ms_threads s !! t = Some pc → reads_box pc → t = c;
}.

Lemma fifo_quiet es s ctx t pc' ev :
  fifo es s → takes (history i ev) = [] → (reads_box pc' → t = c) →
  fifo (es ++ ev) (mk_ms ctx (<[t := pc']> (ms_threads s))).
Proof.
  intros [Ho Hr] He Hpc. split.
  - unfold in_order in *. rewrite history_app. unfold takes in *. by rewrite omap_app, He, app_nil_r.
  - cbn [ms_threads]. intros u pc Hu Hb. apply list_lookup_insert_Some in Hu as [(<- & -> & _)|(_ & Hu)]; eauto.
Qed.

Lemma send_begins_fifo ctx0 t target d rest ctx pc ev :
  send_begins ctx0 t target d rest = Some (ctx, pc, ev) → history i ev = [] ∧ proc_of pc = proc_of (send_returns rest).
Proof.
  unfold send_begins. intros H. repeat case_match; simplify_eq; (split; [done|]); destruct rest as [[]|]; done.
Qed.

Lemma loop_tests_fifo ctx0 t p ctx pc ev :
  loop_tests ctx0 t p = Some (ctx, pc, ev) → history i ev = [] ∧ (proc_of pc = None ∨ proc_of pc = Some p).
Proof. unfold loop_tests. intros H. repeat case_match; simplify_eq; split; auto; done. Qed.

(** The positions being popped at mailbox [i] are all the reader's. *)
Lemma only_position n es s rs t rpc u x :
  fifo es s → box_inv n es s i rs → rs_threads rs !! t = Some rpc → t = c → rpc = RcPopCommit u x →
  ∀ q, popping (rs_threads rs) q → q = u.
Proof.
  intros F B Hr -> -> q (t' & rpc' & Hr' & Hq). destruct (Forall2_lookup_r _ _ _ _ _ (bx_threads _ _ _ _ _ B) Hr') as (pc' & Hpc & Hin).
  assert (Hp : reads_box pc').
  { destruct pc' as [|target d rest|p|p sends]; cbn in Hin; try (by subst rpc'); case_decide as Hd; try (by subst rpc').
    - by destruct rpc'.
    - by exists p. }
  rewrite (ff_reader _ _ F t' pc' Hpc Hp) in Hr'. rewrite Hr in Hr'. injection Hr' as <-. by injection Hq.
Qed.

Lemma fifo_pop n es s t p sp ctx pc ev :
  ms_inv n es s → Z.of_nat n < 2 ^ 62 → fifo es s → ms_threads s !! t = Some (MsPop p) →
  ms_go (ms_ctx s) t (MsPop p) sp = Some (ctx, pc, ev) →
  fifo (es ++ ev) (mk_ms ctx (<[t := pc]> (ms_threads s))).
Proof.
  intros I Hn F Ht Hs. cbn [ms_go] in Hs. pose proof (proj1 (mv_threads _ _ _ I t _ Ht) p eq_refl) as Hi.
  destruct (box_ring (ms_ctx s) (pr_node p) (RcAdvance t sp)) as [[[ctx1 rs'] rev]|] eqn:Eb; [|done].
  destruct (box_step n es s t _ (pr_node p) _ _ _ _ I Ht Hi Eb) as (rs & rpc & B & Est & Hr & Hin & ->).
  cbn in Hin. rewrite decide_True in Hin by done. destruct (ring_events (Z.to_nat (pr_node p)) i rev) as (R1 & _).
  assert (Hpc : reads_box pc → t = c).
  { intros (p' & Hp' & Hi'). apply (ff_reader _ _ F t _ Ht). exists p. split; [done|].
    destruct rev as [|[] [|]]; injection Hs as <- <- <-; by simplify_eq/=. }
  assert (Hev : history i ev = history i (MsRing (Z.to_nat (pr_node p)) <$> rev)).
  { match type of Hs with (let '(_, _) := ?x in _) = _ => destruct x as [pc1 done1] eqn:Em end. injection Hs as <- <- <-.
    assert (Ed : history i done1 = []) by (destruct rev as [|[] [|]]; by simplify_eq/=). by rewrite history_app, Ed, app_nil_r. }
  rewrite R1 in Hev. destruct (decide (Z.to_nat (pr_node p) = i)) as [Ei|Hne]; [|by apply fifo_quiet; [|rewrite Hev|]].
  assert (Htc : t = c) by (apply (ff_reader _ _ F t _ Ht); by exists p).
  destruct (pop_advances rs t rpc sp rs' rev Hr Hin Est) as (rpc' & Eth & [[_ ->]|[-> [(u & x & ->)| ->]]]);
    injection Hs as <- <- Ee; try (by apply fifo_quiet; rewrite ?Hev).
  assert (rpc = RcPopCommit u x) as ->.
  { cbn [ring_step] in Est. rewrite Hr in Est. destruct rpc; try done; cbn in Est; repeat case_match; by simplify_eq. }
  rewrite Ei in B. destruct (bx_conc _ _ _ _ _ B Hn) as (hd & tl & _ & Iv & K).
  split; [|intros t' pc' Ht' Hb; cbn in Ht'; apply list_lookup_insert_Some in Ht' as [(<- & <- & _)|(_ & Ht')]; [done|by apply (ff_reader _ _ F t' pc')]].
  rewrite history_app, Hev. destruct (pop_claim_window _ _ _ _ _ Iv t _ u Hr eq_refl) as [Hw H0].
  apply (next_in_order tl _ _ _ u x K); [apply F|by eapply only_position|by exists t, (RcPopCommit u x)|lia].
Qed.

Lemma fifo_step n es s l s' ev :
  ms_inv n es s → Z.of_nat n < 2 ^ 62 → one_reader l → fifo es s → ms_step s l = Some (s', ev) → fifo (es ++ ev) s'.
Proof.
  intros I Hn Hl F Hs. destruct l as [t target d|t getcpu handler limit|t sp]; cbn [ms_step] in Hs;
    destruct (ms_threads s !! t) as [pc|] eqn:Ht; try done.
  - destruct pc; try done. destruct (send_begins _ _ _ _ _) as [[[ctx pc] ev1]|] eqn:E; [|done]. injection Hs as <- <-.
    destruct (send_begins_fifo _ _ _ _ _ _ _ _ E) as [Eh Ep]. apply fifo_quiet; [done|by rewrite Eh|]. intros (p & Hp & _). by rewrite Ep in Hp.
  - destruct pc; try done. destruct (valid_node (ms_ctx s) (nkit_current_node getcpu)) eqn:Hv; cbn [negb] in Hs.
    + destruct (mailbox_at _ _); [|done]. destruct (loop_tests _ _ _) as [[[ctx pc] ev1]|] eqn:E; [|done]. injection Hs as <- <-.
      destruct (loop_tests_fifo _ _ _ _ _ _ E) as [Eh Ep]. apply fifo_quiet; [done|by rewrite Eh|]. intros (p & Hp & Hi).
      destruct Ep as [Ep|Ep]; rewrite Hp in Ep; [done|]. injection Ep as ->. cbn in Hi. apply valid_node_spec in Hv. apply Hl. lia.
    + injection Hs as <- <-. pose proof (fifo_quiet es s (ms_ctx s) t MsIdle [MsProcessed t 0] F eq_refl) as H.
      rewrite (list_insert_id _ _ _ Ht) in H. destruct s. apply H. by intros (p & Hp & _).
  - destruct (ms_go (ms_ctx s) t pc sp) as [[[ctx pc1] ev1]|] eqn:E; [|done]. injection Hs as <- <-.
    assert (Hsame : proc_of pc1 = proc_of pc → reads_box pc1 → t = c).
    { intros Ep (p & Hp & Hi). apply (ff_reader _ _ F t pc Ht). exists p. by rewrite <-Ep. }
    destruct pc as [|target d rest|p|p [|[target d] sends]]; [done| |by eapply fifo_pop| |]; cbn [ms_go] in E.
    + pose proof (proj2 (mv_threads _ _ _ I t _ Ht)) as Hi. cbn in Hi.
      destruct (box_ring (ms_ctx s) target (RcAdvance t sp)) as [[[ctx1 rs'] rev]|] eqn:Eb; [|done].
      destruct (box_step n es s t _ target _ _ _ _ I Ht Hi Eb) as (rs & rpc & B & Est & Hr & Hin & ->).
      cbn in Hin. rewrite decide_True in Hin by done. destruct (ring_events (Z.to_nat target) i rev) as (R1 & _).
      destruct (push_advances rs t d rpc sp rs' rev Hr Hin Est) as (rpc' & _ & Hcase).
      assert (Htk : takes rev = []) by (destruct Hcase as [(_ & _ & [-> | ->])|[_ [[-> _]|[-> _]]]]; done).
      assert (Hev : takes (history i ev1) = [] ∧ proc_of pc1 = proc_of (MsSend target d rest)).
      { repeat case_match; simplify_eq; rewrite history_app, R1; (split; [case_decide; by rewrite ?app_nil_r|]); by destruct rest as [[]|]. }
      destruct Hev. apply fifo_quiet; auto.
    + destruct (loop_tests_fifo _ _ _ _ _ _ E) as [Eh Ep]. apply fifo_quiet; [done|by rewrite Eh|]. intros (q & Hq & Hi).
      apply (ff_reader _ _ F t _ Ht). exists p. split; [done|]. destruct Ep as [Ep|Ep]; rewrite Hq in Ep; [done|]. by injection Ep as ->.
    + destruct (send_begins_fifo _ _ _ _ _ _ _ _ E) as [Eh Ep]. apply fifo_quiet; [done|by rewrite Eh|]. by apply Hsame.
Qed.
End boxes.

(** ** The start *)

Definition shared_box (n : nat) (mb : nkit_mailbox_t nkit_ring_t) : nkit_mailbox_t ring_state :=
  mk_mailbox (option_map (λ r, mk_rs r (replicate n RcIdle)) (mailbox_ring mb)).

Definition shared_array (n : nat) (m : mailbox_array nkit_ring_t) : mailbox_array ring_state :=
  match m with
  | MbNull => MbNull
  | MbArray l => MbArray (option_map (shared_box n) <$> l)
  | MbDangling => MbDangling
  end.

(** The context, its mailboxes shared by [n] threads. *)
Definition ms_start (ctx : nkit_context_t nkit_ring_t) (n : nat) : ms_state :=
  mk_ms (mk_ctx (ctx_topo ctx) (ctx_num_nodes ctx) (ctx_num_pus ctx) (ctx_initialized ctx) (ctx_active_threads ctx)
           (shared_array n (ctx_mailboxes ctx)) (ctx_threshold ctx) (ctx_numa_supported ctx))
        (replicate n MsIdle).

(** A working, empty mailbox for every node, as initialisation leaves it. *)
Record ms_ready (spurious : nat) (cap : Z) (nodes : nat) (ctx : nkit_context_t nkit_ring_t) : Prop := {
  mr_ok : ctx_ok (BQ := ring_queue spurious) cap ctx (replicate nodes []);
  mr_new : ∀ node r, mailbox_at ctx node = Ret r → ring_tail r = 0;
  mr_cap : cap ≤ 2 ^ 61;
}.

Lemma ms_start_inv spurious cap nodes ctx n :
  ms_ready spurious cap nodes ctx → ms_inv cap nodes 0 [] (ms_start ctx n).
Proof.
  intros [Hok Hnew Hcap]. pose proof (co_nodes _ _ _ Hok) as En. rewrite length_replicate in En. split; [done| |].
  2:{ intros t pc [-> _]%lookup_replicate. split; [|done]. by intros p. }
  intros i Hi. assert (Hv : valid_node ctx (Z.of_nat i) = true) by (apply valid_node_spec; lia).
  destruct (mailbox_at_ok cap ctx _ (Z.of_nat i) Hok Hv) as (r & q & Em & Hq & [T HT] & Hc).
  apply lookup_replicate in Hq as [-> _]. pose proof (ring_at_zero T r [] HT (Hnew _ _ Em)) as H0.
  destruct (ring_at_pow2 _ _ _ H0) as (k & Hk & Ek). cbn [bq_cap ring_queue] in Hc.
  assert (k ≤ 61) by (apply (Z.pow_le_mono_r_iff 2); lia).
  destruct (filled_conc k r [] n 0 ltac:(lia) Ek H0 ltac:(done)) as [Hcv Hit].
  exists (mk_rs r (replicate n RcIdle)). split.
  - unfold mailbox_at, ms_start in *. cbn [ms_ctx ctx_mailboxes]. destruct (ctx_mailboxes ctx) as [|l|]; try done. cbn [shared_array].
    rewrite list_lookup_fmap. destruct (l !! Z.to_nat (Z.of_nat i)) as [[[[r1|]]|]|]; try done. by injection Em as ->.
  - rewrite <-Hc, Ek. exact Hcv.
  - change (history i []) with (@nil ring_event). change (claims (filled [])) with (claims []) in Hit. by rewrite Hit.
  - cbn. by rewrite holdings_replicate.
  - done.
  - cbn [ms_threads rs_threads ms_start]. by apply Forall2_replicate.
Qed.

Lemma ms_run spurious cap nodes ctx n sched s es :
  ms_ready spurious cap nodes ctx → Z.of_nat (length sched) < 2 ^ 62 →
  traced ms_step (ms_start ctx n) sched = Some (s, es) → ms_inv cap nodes (length sched) es s.
Proof.
  intros R Hn Hr. revert Hn.
  refine (traced_invariant ms_step (λ n es s, Z.of_nat n < 2 ^ 62 → ms_inv cap nodes n es s) _ _ _ sched s es Hr).
  - intros _. by eapply ms_start_inv.
  - intros m es0 s0 l s1 es1 I Hs Hm. apply (ms_inv_step cap nodes m es0 s0 l); [apply I; lia|done|done].
Qed.

Lemma fifo_run spurious cap nodes ctx n sched s es i c :
  ms_ready spurious cap nodes ctx → Z.of_nat (length sched) < 2 ^ 62 → Forall (one_reader i c) sched →
  traced ms_step (ms_start ctx n) sched = Some (s, es) → fifo i c es s.
Proof.
  intros R Hn Hone Hr. assert (H : Z.of_nat (length sched) < 2 ^ 62 → ms_inv cap nodes (length sched) es s ∧ fifo i c es s); [|by apply H].
  refine (traced_invariant_on ms_step (one_reader i c)
    (λ n es s, Z.of_nat n < 2 ^ 62 → ms_inv cap nodes n es s ∧ fifo i c es s) _ _ _ sched s es Hone Hr).
  - intros _. split; [by eapply ms_start_inv|]. split; [done|]. intros t pc [-> _]%lookup_replicate (p & Hp & _). done.
  - intros m es0 s0 l s1 es1 Hl I Hs Hm. destruct I as [I F]; [lia|].
    split; [by apply (ms_inv_step cap nodes m es0 s0 l)|]. apply (fifo_step cap nodes i c m es0 s0 l); try done. lia.
Qed.

(** Initialisation with the number of nodes already known gives such mailboxes. *)
Lemma init_tails io numa n : ∀ i l,
  init_mailboxes io numa n i = Ret l → Forall (λ mb, ∀ b r, mb = Some b → mailbox_ring b = Some r → ring_tail r = 0) l.
Proof.
  induction n as [|n IH]; intros i l H; cbn [init_mailboxes] in H; [by simplify_eq|].
  destruct (io_mailbox io numa i); [destruct (nkit_ring_create _ _ _) as [o|] eqn:Er; [|done]|]; cbn [obind] in H;
    destruct (init_mailboxes io numa n (i + 1)) as [l'|] eqn:El; try done; cbn [obind] in H; injection H as <-; constructor; eauto; try done.
  intros b r [= <-] Hb. cbn in Hb. subst o. by eapply ring_create_tail.
Qed.

Lemma reinit_ready io m (ctx : nkit_context_t nkit_ring_t) :
  ctx_initialized ctx = false → ctx_num_nodes ctx = io_nodes io → 1 ≤ io_nodes io →
  io_topo_init io = 0 → io_topo_load io = 0 → io_calloc io = true →
  (∀ numa j, 0 ≤ j < io_nodes io → io_mailbox io numa j = true ∧ ArenaOS_ok (io_ring io j) ∧
     (nkit_arena_create (io_ring io j) j (sizeof_nkit_ring_t + sizeof_nkit_cell_t * MAILBOX_CAPACITY)).1 ≠ None) →
  ∃ ctx', nkit_init io ctx = Ret (0, ctx') ∧ ms_ready m MAILBOX_CAPACITY (Z.to_nat (io_nodes io)) ctx'.
Proof.
  intros Hi Hn Hpos H1 H2 Hc Hall. destruct (reinit_mailboxes io m ctx Hi Hn Hpos H1 H2 Hc Hall) as (ctx' & l & _ & E & El & Hok & _).
  exists ctx'. split; [done|]. split; [done| |by vm_compute]. intros node r Hm. unfold mailbox_at in Hm. rewrite El in Hm.
  destruct (l !! Z.to_nat node) as [[b|]|] eqn:Eb; try done. destruct (mailbox_ring b) as [r'|] eqn:Er; [|done]. injection Hm as ->.
  unfold nkit_init, init_enter in E. rewrite Hi in E. unfold init_body in E. simpl in E. rewrite H1, H2, Hc in E. simpl in E.
  destruct (init_mailboxes _ _ _ _) as [l'|] eqn:Ei; [|done]. cbn [obind] in E. injection E as <-. cbn in El. injection El as ->.
  pose proof (init_tails _ _ _ _ _ Ei) as Hf. rewrite Forall_lookup in Hf. by apply (Hf _ _ Eb b r).
Qed.

(** ** Properties *)

(** C11. Messages between threads.  From working, empty mailboxes, in every
    interleaving of sends and processing calls, handlers' own sends included (fewer
    than 2^61 steps), and for every node: each message whose sending has begun is
    handled once, refused, in the mailbox or in the hands of a thread that is
    pushing or popping it; the send that brought it has returned 0, or -2, or is
    still under way; no call gets stuck; once no thread is inside a send or a pop,
    the messages accepted are those handled and those that wait, as many as the
    ring's counters say; and if one thread only processes the mailbox, it handles
    the messages in the order in which the mailbox accepted them. *)
Theorem messages_conc spurious cap nodes ctx threads sched s es :
  ms_ready spurious cap nodes ctx → Z.of_nat (length sched) < 2 ^ 61 →
  traced ms_step (ms_start ctx threads) sched = Some (s, es) →
  (∀ t pc sp, ms_threads s !! t = Some pc → pc ≠ MsIdle → is_Some (ms_step s (MsGo t sp))) ∧
  ∀ i, (i < nodes)%nat → ∃ rs, mailbox_at (ms_ctx s) (Z.of_nat i) = Ret rs ∧
    handled_at i es ++ refused_at i es ++ ring_items (claims (history i es)) rs ≡ₚ begun i es ∧
    accepted_at i es ++ refused_at i es ++ holdings (sending i) (ms_threads s) ≡ₚ begun i es ∧
    ((∀ t pc, ms_threads s !! t = Some pc → calm pc) →
       ∃ waiting, accepted_at i es ≡ₚ handled_at i es ++ waiting ∧
         Z.of_nat (length waiting) = ring_head (rs_ring rs) - ring_tail (rs_ring rs)) ∧
    (∀ c, Forall (one_reader i c) sched →
       handled_at i es = take (length (handled_at i es)) (claims (history i es))).
Proof.
  intros R Hlen Hr. assert (Hn : Z.of_nat (length sched) < 2 ^ 62) by lia. pose proof (ms_run _ _ _ _ _ _ _ _ R Hn Hr) as I. split.
  - intros t pc sp Ht Hpc. destruct (ms_inv_go cap nodes _ es s t pc sp I ltac:(lia) Ht Hpc) as (ctx' & pc' & ev & E & _).
    cbn [ms_step]. by rewrite Ht, E.
  - intros i Hi. destruct (mv_boxes _ _ _ _ _ I i Hi) as [rs [Er Hc Hit Hs Hh HF]]. exists rs.
    destruct (Hc Hn) as (hd & tl & _ & Iv & K). split; [done|]. split; [rewrite <-Hit; count_perm|]. split; [rewrite <-Hs; count_perm|]. split.
    + intros Hcalm. exists (ring_items (claims (history i es)) rs).
      assert (Hidle : ∀ rpc, rpc ∈ rs_threads rs → rpc = RcIdle).
      { intros rpc [t Ht]%list_elem_of_lookup. destruct (Forall2_lookup_r _ _ _ _ _ HF Ht) as (pc & Hpc & Hin).
        apply calm_at in Hin; eauto. }
      assert (E1 : holdings (sending i) (ms_threads s) = []).
      { apply holdings_none. intros pc [t Ht]%list_elem_of_lookup. apply calm_sends. eauto. }
      rewrite E1 in Hs. split; [count_perm|]. unfold ring_items. rewrite holdings_none, app_nil_r, length_drop by (intros rpc Hp; by rewrite (Hidle rpc Hp)).
      pose proof (rv_order _ _ _ _ _ Iv). pose proof (rv_items _ _ _ _ _ Iv).
      rewrite (rv_head _ _ _ _ _ Iv), (rv_tail _ _ _ _ _ Iv). lia.
    + intros c Hone. pose proof (fifo_run _ _ _ _ _ _ _ _ _ _ R Hn Hone Hr) as F.
      rewrite Hh, length_fmap. by apply (in_order_prefix tl _ (rs_threads rs)), F.
Qed.

(** ** A concrete run *)

(** Two mailboxes of two messages each. *)
Definition demo_boxes : nkit_context_t nkit_ring_t :=
  let mb := Some (mk_mailbox (Some (mk_ring 0 0 2 1 (init_cells 2) None))) in demo_ctx (MbArray [mb; mb]).

Lemma demo_boxes_ready : ms_ready 0 2 2 demo_boxes.
Proof.
  split; [| |lia].
  - split; [done|]. eexists. split; [done|]. cbn [replicate].
    repeat constructor; (eexists; split; [done|]; split; [exists 0; apply (fresh_ring_rep 1 None); lia|done]).
  - intros node r. unfold mailbox_at, demo_boxes. cbn. destruct (Z.to_nat node) as [|[|m]]; cbn; try done; by intros [= <-].
Qed.

(** Threads 0 and 1 send to node 0 at the same time, and thread 0 once more, which
    is refused; thread 2 processes node 0 and forwards each message to node 1. *)
Definition demo_msg_sched : list ms_label :=
  [MsCallSend 0 0 10; MsCallSend 1 0 20] ++ concat (replicate 5 [MsGo 1 false; MsGo 0 false]) ++ [MsGo 0 false; MsGo 0 false; MsCallSend 0 0 30] ++
  replicate 2 (MsGo 0 false) ++ [MsCallProcess 2 (Some (3, 0)) demo_forward 0] ++ replicate 26 (MsGo 2 false).

Lemma messages_conc_witness :
  match traced ms_step (ms_start demo_boxes 3) demo_msg_sched with
  | Some (s, es) => handled_at 0 es = [20; 10] ∧ refused_at 0 es = [30] ∧
      handled_at 0 es = take (length (handled_at 0 es)) (claims (history 0 es)) ∧
      ∃ rs waiting, mailbox_at (ms_ctx s) (Z.of_nat 1) = Ret rs ∧ accepted_at 1 es ≡ₚ [] ++ waiting ∧
        Z.of_nat (length waiting) = ring_head (rs_ring rs) - ring_tail (rs_ring rs)
  | None => False
  end.
Proof.
  destruct (traced _ _ demo_msg_sched) as [[s es]|] eqn:E; [|by vm_compute in E].
  destruct (messages_conc 0 2 2 demo_boxes 3 demo_msg_sched s es demo_boxes_ready ltac:(by vm_compute) E) as [_ Hi].
  assert (Es : (λ x, (handled_at 0 (snd x), refused_at 0 (snd x), handled_at 1 (snd x),
      map (λ pc, match pc with MsIdle => true | _ => false end) (ms_threads (fst x)))) <$>
    traced ms_step (ms_start demo_boxes 3) demo_msg_sched = Some ([20; 10], [30], [], [true; true; true])) by (vm_compute; reflexivity).
  rewrite E in Es. cbn [fmap option_fmap option_map fst snd] in Es. clear E. injection Es as H1 H2 H3 Hidle.
  destruct (Hi 0%nat ltac:(lia)) as (_ & _ & _ & _ & _ & Hfifo). destruct (Hi 1%nat ltac:(lia)) as (rs & Er & _ & _ & Hq & _).
  split; [done|]. split; [done|]. split.
  - apply (Hfifo 2%nat), Forall_forall. intros l Hl. clear -Hl. unfold demo_msg_sched in Hl. cbn [app concat replicate] in Hl.
    repeat (apply elem_of_cons in Hl as [->|Hl]; [done|]). by apply not_elem_of_nil in Hl.
  - destruct Hq as (waiting & Hw & Hl).
    + intros t pc Ht. assert (Hb : map (λ pc, match pc with MsIdle => true | _ => false end) (ms_threads s) !! t = Some (match pc with MsIdle => true | _ => false end))
        by (change (map ?f ?l) with (f <$> l); by rewrite list_lookup_fmap, Ht).
      rewrite Hidle in Hb. destruct t as [|[|[|]]]; cbn in Hb; by destruct pc.
    + rewrite H3 in Hw. exists rs, waiting. split; [exact Er|]. split; [exact Hw|exact Hl].
Defined.
