(* ===== verification/Pool.v ===== *)
(** * The size-class memory pool (src/memory/pool.c)

    Ten slabs per NUMA node.  A block is a slab slot whose first word is a header
    with the slab it came from; the client gets the address after it.  The memory
    the headers live in is explicit, and client stores to held blocks go through
    the same memory. *)

From stdpp Require Import prelude gmap.
From Stdlib Require Import ZArith Lia.
From S2P Require Import Prelude Words Arena Ring Slab Context.
Local Open Scope Z_scope.
Local Open Scope word_scope.

(** ** Data *)

Definition NUM_SIZE_CLASSES : nat := 10.
Definition MAX_NODES : Z := 64.
Definition SIZE_CLASSES : list Z := [32; 64; 128; 256; 512; 1024; 2048; 4096; 8192; 16384].
Definition INITIAL_CAPACITY_PER_SLAB : Z := 1024.
Definition sizeof_nkit_mempool_header_t : Z := 8.

(** A slab pointer is known by the node and the class it is stored under. *)
Definition slab_id : Type := nat * nat.

Record nkit_mempool_node_t (Q : Type) := mk_pool_node {
  logical_node_id : Z;
  node_slabs : list (option (nkit_slab_t Q));
}.
Arguments mk_pool_node {Q}.
Arguments logical_node_id {Q}.
Arguments node_slabs {Q}.

Record nkit_mempool_t (Q : Type) := mk_pool {
  pool_num_nodes : Z;
  pool_nodes : list (nkit_mempool_node_t Q);
}.
Arguments mk_pool {Q}.
Arguments pool_num_nodes {Q}.
Arguments pool_nodes {Q}.

(** The header words in memory, by address: [owner_slab], [None] for NULL.  An
    address without an entry holds no slab pointer. *)
Abbreviation header_memory := (gmap Z (option slab_id)).

(** A client's store of one byte at [a] destroys the header words it overlaps. *)
Definition clobber (a : Z) (mem : header_memory) : header_memory :=
  filter (λ kv : Z * option slab_id, ¬ (kv.1 ≤ a < kv.1 + sizeof_nkit_mempool_header_t)) mem.

(** ** Operations *)

Section operations.
Context {Q : Type} {BQ : BoundedQueue Q}.
Implicit Types (pool : nkit_mempool_t Q) (mem : header_memory).

(** [pool->nodes[n].slabs[sc]], undefined outside the arrays. *)
Definition pool_slab pool (id : slab_id) : outcome (option (nkit_slab_t Q)) :=
  match pool_nodes pool !! id.1 with
  | Some nd => match node_slabs nd !! id.2 with Some s => Ret s | None => UB end
  | None => UB
  end.

Definition set_slab pool (id : slab_id) (s : option (nkit_slab_t Q)) : nkit_mempool_t Q :=
  mk_pool (pool_num_nodes pool)
    (alter (λ nd, mk_pool_node (logical_node_id nd) (<[id.2 := s]> (node_slabs nd))) id.1
       (pool_nodes pool)).

(** The loop that finds the first class at least as large as [size]. *)
Fixpoint find_class (size : Z) (classes : list Z) (i : nat) : option nat :=
  match classes with
  | [] => None
  | c :: classes => if size <=? c then Some i else find_class size classes (S i)
  end.

Definition try_slab pool (id : slab_id) : outcome (Z * nkit_mempool_t Q) :=
  let* s := pool_slab pool id in
  match nkit_slab_alloc s with
  | Some (p, s) => Ret (p, set_slab pool id s)
  | None => UB
  end.

(** The search of the other nodes, from [i] with [n] nodes left: the block, the
    slab it came from and the pool. *)
Fixpoint fallback_loop pool (current sc : nat) (i n : nat)
    : outcome (Z * slab_id * nkit_mempool_t Q) :=
  match n with
  | O => Ret (NULL, (i, sc), pool)
  | S n =>
      if decide (i = current) then fallback_loop pool current sc (S i) n else
      let* r := try_slab pool (i, sc) in
      if r.1 =? NULL then fallback_loop r.2 current sc (S i) n
      else Ret (r.1, (i, sc), r.2)
  end.

(** [node] is what [nkit_get_current_node] returned. *)
Definition nkit_mempool_alloc (pool : option (nkit_mempool_t Q)) (node size : Z) mem
    : outcome (Z * option (nkit_mempool_t Q) * header_memory) :=
  match pool with
  | None => Ret (NULL, None, mem)
  | Some pool =>
      if size =? 0 then Ret (NULL, Some pool, mem) else
      if List.last SIZE_CLASSES 0 <? size then Ret (NULL, Some pool, mem) else
      let current_node :=
        if (node <? 0) || (pool_num_nodes pool <=? node) then 0 else node in
      match find_class size SIZE_CLASSES 0 with
      | None => Ret (NULL, Some pool, mem)
      | Some sc_idx =>
          let current := Z.to_nat current_node in
          let* r := try_slab pool (current, sc_idx) in
          let* r :=
            if r.1 =? NULL
            then fallback_loop r.2 current sc_idx 0 (Z.to_nat (pool_num_nodes pool))
            else Ret (r.1, (current, sc_idx), r.2) in
          let '(raw_block, target, pool) := r in
          if raw_block =? NULL then Ret (NULL, Some pool, mem) else
          Ret (raw_block +w sizeof_nkit_mempool_header_t, Some pool,
               <[raw_block := Some target]> mem)
      end
  end.

Definition nkit_mempool_free (pool : option (nkit_mempool_t Q)) (ptr : Z) mem
    : outcome (option (nkit_mempool_t Q)) :=
  match pool with
  | None => Ret None
  | Some pool =>
      if ptr =? NULL then Ret (Some pool) else
      let header := ptr -w sizeof_nkit_mempool_header_t in
      match mem !! header with
      | None => UB
      | Some None => Ret (Some pool)
      | Some (Some id) =>
          let* s := pool_slab pool id in
          match nkit_slab_free s header with
          | Some s => Ret (Some (set_slab pool id s))
          | None => UB
          end
      end
  end.
End operations.

(** Destruction and creation, on slabs with ring free-lists. *)

Fixpoint destroy_classes (slabs : list (option (nkit_slab_t nkit_ring_t))) : list os_call :=
  match slabs with
  | [] => []
  | s :: slabs => nkit_slab_destroy s ++ destroy_classes slabs
  end.

Fixpoint destroy_nodes (pool : nkit_mempool_t nkit_ring_t) (i n : nat) : outcome (list os_call) :=
  match n with
  | O => Ret []
  | S n =>
      match pool_nodes pool !! i with
      | None => UB
      | Some nd =>
          let* rest := destroy_nodes pool (S i) n in
          Ret (destroy_classes (node_slabs nd) ++ rest)
      end
  end.

Definition nkit_mempool_destroy (pool : option (nkit_mempool_t nkit_ring_t)) : outcome (list os_call) :=
  match pool with
  | None => Ret []
  | Some pool =>
      let* calls := destroy_nodes pool 0 (Z.to_nat (pool_num_nodes pool)) in
      Ret (calls ++ [FreeHandle])
  end.

Section create.
(** Spurious failures per push, and the system under each slab. *)
Variables (spurious : nat) (oss : Z → nat → arena_os).

(** The inner loop, from class [sc]; the boolean is false when a slab failed.
    The calls are those of the slabs' own failing paths. *)
Fixpoint create_classes (pool : nkit_mempool_t nkit_ring_t) (node : nat) (sc n : nat)
    : outcome (bool * nkit_mempool_t nkit_ring_t * list os_call) :=
  match n with
  | O => Ret (true, pool, [])
  | S n =>
      let total_obj_size := sizeof_nkit_mempool_header_t +w nth sc SIZE_CLASSES 0 in
      let* r := nkit_slab_create spurious (oss (Z.of_nat node) sc) (Z.of_nat node) total_obj_size
                  INITIAL_CAPACITY_PER_SLAB in
      match r with
      | (Some s, _) => create_classes (set_slab pool (node, sc) (Some s)) node (S sc) n
      | (None, calls) => Ret (false, pool, calls)
      end
  end.

Fixpoint create_nodes (pool : nkit_mempool_t nkit_ring_t) (node n : nat)
    : outcome (bool * nkit_mempool_t nkit_ring_t * list os_call) :=
  match n with
  | O => Ret (true, pool, [])
  | S n =>
      let pool := mk_pool (pool_num_nodes pool)
        (alter (λ nd, mk_pool_node (Z.of_nat node) (node_slabs nd)) node (pool_nodes pool)) in
      let* r := create_classes pool node 0 NUM_SIZE_CLASSES in
      let '(ok, pool, calls) := r in
      if ok : bool then create_nodes pool (S node) n else Ret (false, pool, calls)
  end.

(** The zeroed structure. *)
Definition empty_pool (num_nodes : Z) : nkit_mempool_t nkit_ring_t :=
  mk_pool num_nodes
    (replicate (Z.to_nat MAX_NODES) (mk_pool_node 0 (replicate NUM_SIZE_CLASSES None))).

Definition nkit_mempool_create {M} (ctx : nkit_context_t M) (malloc_ok : bool)
    : outcome (option (nkit_mempool_t nkit_ring_t) * list os_call) :=
  if negb (ctx_initialized ctx) then Ret (None, []) else
  if negb malloc_ok then Ret (None, []) else
  let num_nodes := if MAX_NODES <? ctx_num_nodes ctx then MAX_NODES else ctx_num_nodes ctx in
  let* r := create_nodes (empty_pool num_nodes) 0 (Z.to_nat num_nodes) in
  let '(ok, pool, calls) := r in
  if ok : bool then Ret (Some pool, [])
  else
    let* destroyed := nkit_mempool_destroy (Some pool) in
    Ret (None, calls ++ destroyed).
End create.

(** ** Invariant *)

(** A held block: its slot, the slab of the slot and the size asked for. *)
Record block := mk_block { blk_raw : Z; blk_slab : slab_id; blk_size : Z }.

(** The held slots of one slab. *)
Definition raws (id : slab_id) (held : list block) : list Z :=
  omap (λ b, if decide (blk_slab b = id) then Some (blk_raw b) else None) held.

Definition class_size (sc : nat) : Z := nth sc SIZE_CLASSES 0.

Definition valid_id (nodes : Z) (id : slab_id) : Prop :=
  Z.of_nat id.1 < nodes ∧ (id.2 < NUM_SIZE_CLASSES)%nat.

Section invariant.
Context {Q : Type} {BQ : BoundedQueue Q}.
Implicit Types (pool : nkit_mempool_t Q) (mem : header_memory) (held : list block).

(** The slab stored under [id], with the slots held from it. *)
Definition slab_held (geo : slab_id → Z * Z) pool held (id : slab_id) : Prop :=
  ∃ s free, pool_slab pool id = Ret (Some s) ∧ slab_ok s free (raws id held) ∧
    sizeof_nkit_mempool_header_t + class_size id.2 ≤ slab_obj_size s ∧
    geo id = (slab_base s, slab_obj_size s * slab_capacity s).

(** [geo] gives the region of every slab; regions do not overlap, because each is
    inside a mapping of its own. *)
Record pool_ok (geo : slab_id → Z * Z) pool mem held : Prop := {
  po_nodes : 1 ≤ pool_num_nodes pool;
  po_slabs : ∀ id, valid_id (pool_num_nodes pool) id → slab_held geo pool held id;
  po_apart : ∀ id id', valid_id (pool_num_nodes pool) id → valid_id (pool_num_nodes pool) id' →
    id ≠ id' → disjoint_blocks (geo id) (geo id');
  po_held : ∀ b, b ∈ held → valid_id (pool_num_nodes pool) (blk_slab b) ∧
    0 < blk_size b ≤ class_size (blk_slab b).2 ∧
    mem !! blk_raw b = Some (Some (blk_slab b));
}.

Lemma pool_slab_set pool id id' s s0 :
  pool_slab pool id = Ret s0 →
  pool_slab (set_slab pool id s) id' = if decide (id' = id) then Ret s else pool_slab pool id'.
Proof.
  destruct id as [n sc], id' as [n' sc']. unfold pool_slab, set_slab. simpl.
  destruct (pool_nodes pool !! n) as [nd|] eqn:En; [|done].
  destruct (node_slabs nd !! sc) as [s1|] eqn:Es; [|done]. intros _.
  destruct (decide (n' = n)) as [->|Hn].
  - rewrite list_lookup_alter_eq, En. simpl.
    rewrite lookup_insert_decide by by eapply lookup_lt_Some.
    repeat case_decide; simplify_eq; done.
  - rewrite list_lookup_alter_ne by done. rewrite decide_False by congruence. done.
Qed.

Lemma set_slab_id pool id s : pool_slab pool id = Ret s → set_slab pool id s = pool.
Proof.
  destruct id as [n sc], pool as [nn nodes]. unfold pool_slab, set_slab. simpl.
  destruct (nodes !! n) as [nd|] eqn:En; [|done]. destruct (node_slabs nd !! sc) eqn:Es; [|done].
  intros [= ->]. f_equal. apply list_eq. intros i. destruct (decide (i = n)) as [->|].
  - rewrite list_lookup_alter_eq, En. simpl. rewrite list_insert_id by done. by destruct nd.
  - by rewrite list_lookup_alter_ne.
Qed.

Lemma raws_elem id held r :
  r ∈ raws id held ↔ ∃ b, b ∈ held ∧ blk_slab b = id ∧ blk_raw b = r.
Proof.
  unfold raws. rewrite list_elem_of_omap. split.
  - intros (b & Hb & E). case_decide; simplify_eq. eauto.
  - intros (b & Hb & <- & <-). exists b. split; [done|]. by rewrite decide_True.
Qed.

(** The slot of a held block, whole. *)
Lemma held_slot geo pool mem held b :
  pool_ok geo pool mem held → b ∈ held →
  ∃ s free, pool_slab pool (blk_slab b) = Ret (Some s) ∧ slab_ok s free (raws (blk_slab b) held) ∧
    blk_raw b ∈ raws (blk_slab b) held ∧
    sizeof_nkit_mempool_header_t + blk_size b ≤ slab_obj_size s ∧
    geo (blk_slab b) = (slab_base s, slab_obj_size s * slab_capacity s).
Proof.
  intros H Hb. destruct (po_held _ _ _ _ H b Hb) as (Hv & Hs & Hm).
  destruct (po_slabs _ _ _ _ H _ Hv) as (s & free & E & Hok & Hsz & Hg).
  exists s, free. split; [done|]. split; [done|]. split; [apply raws_elem; eauto|].
  split; [lia|done].
Qed.

Lemma slab_ok_live_nodup (s : nkit_slab_t Q) free live : slab_ok s free live → NoDup (free ++ live).
Proof.
  intros H. rewrite (so_perm _ _ _ H). apply slots_NoDup. by apply (so_size _ _ _ H).
Qed.

(** Two slots in use, or one in use and one free, do not overlap. *)
Lemma slots_apart geo pool mem held id id' s s' free free' p p' :
  pool_ok geo pool mem held →
  valid_id (pool_num_nodes pool) id → valid_id (pool_num_nodes pool) id' →
  pool_slab pool id = Ret (Some s) → slab_ok s free (raws id held) →
  pool_slab pool id' = Ret (Some s') → slab_ok s' free' (raws id' held) →
  geo id = (slab_base s, slab_obj_size s * slab_capacity s) →
  geo id' = (slab_base s', slab_obj_size s' * slab_capacity s') →
  p ∈ free ++ raws id held → p' ∈ free' ++ raws id' held → (id = id' → p ≠ p') →
  disjoint_blocks (p, slab_obj_size s) (p', slab_obj_size s').
Proof.
  intros H Hv Hv' Es Hs Es' Hs' Hg Hg' Hp Hp' Hne. destruct (decide (id = id')) as [<-|Hd].
  - rewrite Es in Es'. simplify_eq. rewrite (so_perm _ _ _ Hs') in Hp'.
    apply (slab_disjoint s' free (raws id held)); auto. by rewrite (so_perm _ _ _ Hs).
  - destruct (slab_ptr s free _ p Hs Hp) as (? & ? & _).
    destruct (slab_ptr s' free' _ p' Hs' Hp') as (? & ? & _).
    pose proof (po_apart _ _ _ _ H id id' Hv Hv' Hd) as Ha. rewrite Hg, Hg' in Ha.
    unfold disjoint_blocks in *. simpl in *. lia.
Qed.

(** Replacing one slab and the slots held from it. *)
Lemma pool_ok_update geo pool mem held mem' held' id s0 s free :
  pool_ok geo pool mem held → valid_id (pool_num_nodes pool) id →
  pool_slab pool id = Ret s0 → slab_ok s free (raws id held') →
  sizeof_nkit_mempool_header_t + class_size id.2 ≤ slab_obj_size s →
  geo id = (slab_base s, slab_obj_size s * slab_capacity s) →
  (∀ id', id' ≠ id → raws id' held' = raws id' held) →
  (∀ b, b ∈ held' → valid_id (pool_num_nodes pool) (blk_slab b) ∧
     0 < blk_size b ≤ class_size (blk_slab b).2 ∧ mem' !! blk_raw b = Some (Some (blk_slab b))) →
  pool_ok geo (set_slab pool id (Some s)) mem' held'.
Proof.
  intros H Hv Es Hs Hsz Hg Hr Hh. split; [apply H| |apply H|done].
  intros id' Hv'. unfold slab_held. rewrite (pool_slab_set _ _ _ _ _ Es).
  destruct (decide (id' = id)) as [->|Hne]; [by exists s, free|].
  rewrite (Hr id' Hne). by apply (po_slabs _ _ _ _ H).
Qed.

(** All slots of a slab are held. *)
Definition exhausted pool held (id : slab_id) : Prop :=
  ∃ s, pool_slab pool id = Ret (Some s) ∧ Z.of_nat (length (raws id held)) = slab_capacity s.

(** What a slab gives the pool: nothing when exhausted, else a slot that can be
    handed out for any size of the class. *)
Lemma try_slab_ok geo pool mem held id :
  pool_ok geo pool mem held → valid_id (pool_num_nodes pool) id →
  (try_slab pool id = Ret (NULL, pool) ∧ exhausted pool held id) ∨
  (∃ p pool', try_slab pool id = Ret (p, pool') ∧ 0 < p < 2 ^ 63 ∧ (64 | p) ∧ ¬ exhausted pool held id ∧
     ∀ size, 0 < size ≤ class_size id.2 →
       pool_ok geo pool' (<[p := Some id]> mem) (mk_block p id size :: held)).
Proof.
  intros H Hv. destruct (po_slabs _ _ _ _ H id Hv) as (s & free & Es & Hs & Hsz & Hg).
  unfold try_slab. rewrite Es. cbn [obind]. pose proof (slab_alloc_spec s free _ Hs) as Ha.
  pose proof (slab_lengths _ _ _ Hs (slab_cap_nonneg _ _ _ Hs)) as Hl.
  destruct free as [|p free].
  - left. rewrite Ha, (set_slab_id _ _ _ Es). split; [done|]. exists s. split; [done|]. simpl in Hl. lia.
  - right. destruct Ha as [Hp (s' & -> & Hs' & E1 & E2 & E3)].
    exists p, (set_slab pool id (Some s')). split; [done|].
    assert (Hin : p ∈ (p :: free) ++ raws id held) by by left.
    destruct (slab_ptr s _ _ p Hs Hin) as (? & ? & ?). pose proof (so_base _ _ _ Hs).
    pose proof (so_size _ _ _ Hs) as [Hpos _]. pose proof (so_region _ _ _ Hs).
    split; [lia|]. split; [done|]. split.
    { intros (s1 & Es1 & Hx). rewrite Es in Es1. simplify_eq. simpl in Hl. lia. }
    intros size Hsize. apply (pool_ok_update geo pool mem held _ _ id (Some s) s' free); auto.
    + unfold raws. simpl. by rewrite decide_True.
    + by rewrite E1.
    + by rewrite E1, E2, E3.
    + intros id' Hne. unfold raws. simpl. by rewrite decide_False.
    + intros b [->|Hb]%elem_of_cons; simpl; [by rewrite lookup_insert_eq|].
      destruct (po_held _ _ _ _ H b Hb) as (Hvb & Hsb & Hmb). split; [done|]. split; [done|].
      rewrite lookup_insert_ne; [done|]. intros ->.
      destruct (held_slot geo pool mem held b H Hb) as (sb & fb & Eb & Hokb & Hrb & Hszb & Hgb).
      pose proof (so_size _ _ _ Hokb) as [Hposb _].
      assert (Hd : disjoint_blocks (blk_raw b, slab_obj_size s) (blk_raw b, slab_obj_size sb)).
      { apply (slots_apart geo pool mem held id (blk_slab b) s sb (blk_raw b :: free) fb); auto.
        - apply elem_of_app. by right.
        - intros ->. exfalso. pose proof (slab_ok_live_nodup _ _ _ Hs) as Hnd. simpl in Hnd.
          apply NoDup_cons in Hnd as [Hnd _]. apply Hnd, elem_of_app. by right. }
      unfold disjoint_blocks in Hd. simpl in Hd. lia.
Qed.

(** A slot that can be handed out from [id]. *)
Definition gives geo pool' mem held (id : slab_id) (p : Z) : Prop :=
  0 < p < 2 ^ 63 ∧ (64 | p) ∧
  ∀ size, 0 < size ≤ class_size id.2 →
    pool_ok geo pool' (<[p := Some id]> mem) (mk_block p id size :: held).

Lemma fallback_ok geo pool mem held current sc n : ∀ i,
  pool_ok geo pool mem held → Z.of_nat i + Z.of_nat n = pool_num_nodes pool →
  (sc < NUM_SIZE_CLASSES)%nat →
  (∃ j, fallback_loop pool current sc i n = Ret (NULL, j, pool) ∧
     ∀ k, (i ≤ k)%nat → Z.of_nat k < pool_num_nodes pool → k ≠ current → exhausted pool held (k, sc)) ∨
  (∃ p k pool', fallback_loop pool current sc i n = Ret (p, (k, sc), pool') ∧ k ≠ current ∧
     valid_id (pool_num_nodes pool) (k, sc) ∧ ¬ exhausted pool held (k, sc) ∧
     gives geo pool' mem held (k, sc) p).
Proof.
  induction n as [|n IH]; intros i H Hn Hsc; cbn [fallback_loop].
  - left. eexists. split; [done|]. intros k ? ?. lia.
  - assert (Hv : valid_id (pool_num_nodes pool) (i, sc)) by (split; simpl; [lia|done]).
    case_decide as Hd.
    + destruct (IH (S i) H ltac:(lia) Hsc) as [(j & E & Hx)|Hr]; [left|by right].
      exists j. split; [done|]. intros k Hk ? ?. apply Hx; [|done..]. destruct (decide (k = i)); [congruence|lia].
    + destruct (try_slab_ok geo pool mem held (i, sc) H Hv) as [[-> Hx]|(p & pool' & -> & Hp & H64 & Hnx & Hok)];
        cbn [obind fst snd].
      * rewrite Z.eqb_refl. destruct (IH (S i) H ltac:(lia) Hsc) as [(j & E & Hx')|Hr]; [left|by right].
        exists j. split; [done|]. intros k Hk ? ?. destruct (decide (k = i)) as [->|]; [done|].
        apply Hx'; [lia|done..].
      * right. rewrite (proj2 (Z.eqb_neq p NULL)) by (unfold NULL; lia).
        exists p, i, pool'. split_and!; try done.
Qed.
End invariant.

Lemma find_class_spec size classes : ∀ i,
  match find_class size classes i with
  | Some j => ∃ k c, j = (i + k)%nat ∧ classes !! k = Some c ∧ size ≤ c ∧
      ∀ k' c', (k' < k)%nat → classes !! k' = Some c' → c' < size
  | None => ∀ c, c ∈ classes → c < size
  end.
Proof.
  induction classes as [|c classes IH]; intros i; cbn [find_class].
  - intros c Hc. by apply not_elem_of_nil in Hc.
  - destruct (Z.leb_spec size c).
    + exists 0%nat, c. split; [lia|]. split; [done|]. split; [done|]. lia.
    + specialize (IH (S i)). destruct (find_class size classes (S i)) as [j|].
      * destruct IH as (k & c1 & -> & Hk & Hle & Hlt). exists (S k), c1. split; [lia|].
        split; [done|]. split; [done|]. intros [|k'] c' Hk' Hc'; simplify_eq/=; [done|].
        apply (Hlt k'); [lia|done].
      * intros c1 [->|Hc]%elem_of_cons; [done|auto].
Qed.

(** The class a request is served from: the smallest that fits. *)
Definition is_class (size : Z) (sc : nat) : Prop :=
  (sc < NUM_SIZE_CLASSES)%nat ∧ size ≤ class_size sc ∧
  ∀ sc', (sc' < sc)%nat → class_size sc' < size.

Lemma find_class_ok size :
  size ≤ 16384 → ∃ sc, find_class size SIZE_CLASSES 0 = Some sc ∧ is_class size sc.
Proof.
  intros Hs. pose proof (find_class_spec size SIZE_CLASSES 0) as H.
  destruct (find_class size SIZE_CLASSES 0) as [j|].
  - destruct H as (k & c & -> & Hk & Hle & Hlt). exists k. split; [done|].
    assert (Hn : ∀ m c, SIZE_CLASSES !! m = Some c → class_size m = c).
    { intros m c1 Hm. unfold class_size. rewrite nth_lookup. by rewrite Hm. }
    pose proof (lookup_lt_Some _ _ _ Hk) as Hkl. split; [done|]. split; [by rewrite (Hn k c)|].
    intros sc' Hsc'. destruct (lookup_lt_is_Some_2 SIZE_CLASSES sc') as [c' Hc']; [lia|].
    rewrite (Hn _ _ Hc'). by apply (Hlt sc').
  - assert (16384 < size); [|lia]. apply H. repeat (try (by left); right).
Qed.

Section calls.
Context {Q : Type} {BQ : BoundedQueue Q}.
Implicit Types (pool : nkit_mempool_t Q) (mem : header_memory) (held : list block).

(** The node a request from [node] is served at first. *)
Definition home pool (node : Z) : nat :=
  Z.to_nat (if (node <? 0) || (pool_num_nodes pool <=? node) then 0 else node).

Lemma pool_alloc_ok geo pool mem held node size :
  pool_ok geo pool mem held → 0 ≤ size →
  (nkit_mempool_alloc (Some pool) node size mem = Ret (NULL, Some pool, mem) ∧
     (size = 0 ∨ 16384 < size ∨
      ∃ sc, is_class size sc ∧
        ∀ n, Z.of_nat n < pool_num_nodes pool → exhausted pool held (n, sc))) ∨
  (∃ p pool' mem' id,
     nkit_mempool_alloc (Some pool) node size mem = Ret (p + 8, Some pool', mem') ∧
     0 < p < 2 ^ 63 ∧ (64 | p) ∧ (is_class size id.2 ∧ 0 < size ≤ 16384 ∧ ¬ exhausted pool held id) ∧
     (id.1 = home pool node ∨ exhausted pool held (home pool node, id.2)) ∧
     pool_ok geo pool' mem' (mk_block p id size :: held)).
Proof.
  intros H Hsize. unfold nkit_mempool_alloc. change (List.last SIZE_CLASSES 0) with 16384.
  destruct (Z.eqb_spec size 0) as [|H0]; [left; by auto|].
  destruct (Z.ltb_spec 16384 size) as [|Hmax]; [left; by auto|].
  destruct (find_class_ok size Hmax) as (sc & -> & Hc). fold (home pool node).
  pose proof Hc as (Hsc & Hfit & _). pose proof (po_nodes _ _ _ _ H).
  assert (Hhome : Z.of_nat (home pool node) < pool_num_nodes pool) by (unfold home; cmp_cases; lia).
  assert (Hgive : ∀ p id pool', id.2 = sc → gives geo pool' mem held id p →
    p ≠ NULL ∧ p +w sizeof_nkit_mempool_header_t = p + 8 ∧ 0 < p < 2 ^ 63 ∧ (64 | p) ∧
    pool_ok geo pool' (<[p := Some id]> mem) (mk_block p id size :: held)).
  { intros p id pool' <- (Hp & H64 & Hok). unfold NULL, sizeof_nkit_mempool_header_t.
    rewrite u64_small by (unfold is_u64; lia). split_and!; try done; try lia. apply Hok. lia. }
  destruct (try_slab_ok geo pool mem held (home pool node, sc) H ltac:(by split)) as
    [[-> Hx]|(p & pool' & -> & Hp & H64 & Hnx & Hok)]; cbn [obind fst snd].
  - rewrite Z.eqb_refl.
    destruct (fallback_ok geo pool mem held (home pool node) sc (Z.to_nat (pool_num_nodes pool)) 0 H
      ltac:(lia) Hsc) as [(j & -> & Hall)|(p & k & pool' & -> & Hk & Hv & Hnx & Hg)]; cbn [obind].
    + left. rewrite Z.eqb_refl. split; [done|]. right. right. exists sc. split; [done|].
      intros n Hn. destruct (decide (n = home pool node)) as [->|]; [done|]. apply Hall; auto. lia.
    + right. destruct (Hgive p (k, sc) pool' eq_refl Hg) as (Hnz & -> & ? & ? & Hok').
      rewrite (proj2 (Z.eqb_neq p NULL)) by done. eexists p, pool', _, (k, sc).
      do 3 (split; [done|]). split; [by split; [|split; [lia|]]|]. split; [by right|done].
  - right. destruct (Hgive p (home pool node, sc) pool' eq_refl) as (Hnz & Ew & ? & ? & Hok'); [done|].
    rewrite (proj2 (Z.eqb_neq p NULL)) by done. cbn [obind].
    rewrite (proj2 (Z.eqb_neq p NULL)), Ew by done. eexists p, pool', _, (home pool node, sc).
    do 3 (split; [done|]). split; [by split; [|split; [lia|]]|]. split; [by left|done].
Qed.

#[export] Instance raws_proper id : Proper ((≡ₚ) ==> (≡ₚ)) (raws id).
Proof. intros l1 l2 E. unfold raws. by rewrite E. Qed.

Lemma raws_delete id held i b :
  held !! i = Some b → blk_slab b = id → raws id held ≡ₚ blk_raw b :: raws id (delete i held).
Proof.
  intros Hi Hb. rewrite (delete_Permutation held i b Hi) at 1. unfold raws. simpl.
  by rewrite decide_True.
Qed.

Lemma raws_delete_ne id held i b :
  held !! i = Some b → blk_slab b ≠ id → raws id (delete i held) = raws id held.
Proof.
  revert i. induction held as [|c held IH]; intros [|i] Hi Hb; simplify_eq/=.
  - unfold raws. simpl. by rewrite decide_False.
  - unfold raws in *. simpl. by rewrite (IH i).
Qed.

Lemma pool_free_ok geo pool mem held i b :
  pool_ok geo pool mem held → held !! i = Some b →
  ∃ pool', nkit_mempool_free (Some pool) (blk_raw b + 8) mem = Ret (Some pool') ∧
    pool_num_nodes pool' = pool_num_nodes pool ∧ pool_ok geo pool' mem (delete i held).
Proof.
  intros H Hi. assert (Hb : b ∈ held) by by eapply list_elem_of_lookup_2.
  destruct (po_held _ _ _ _ H b Hb) as (Hv & Hsz & Hm).
  destruct (po_slabs _ _ _ _ H _ Hv) as (s & free & Es & Hs & Hobj & Hg).
  assert (Hin : blk_raw b ∈ free ++ raws (blk_slab b) held).
  { apply elem_of_app. right. apply raws_elem. eauto. }
  destruct (slab_ptr s free _ _ Hs Hin) as (? & ? & _). pose proof (so_base _ _ _ Hs).
  pose proof (so_size _ _ _ Hs) as [? _]. pose proof (so_region _ _ _ Hs).
  unfold nkit_mempool_free, NULL, sizeof_nkit_mempool_header_t.
  rewrite (proj2 (Z.eqb_neq _ 0)) by lia.
  rewrite u64_small by (unfold is_u64; lia). replace (blk_raw b + 8 - 8) with (blk_raw b) by lia.
  rewrite Hm, Es. cbn [obind].
  destruct (slab_free_spec s free (raws (blk_slab b) held) (raws (blk_slab b) (delete i held)) (blk_raw b) Hs)
    as (s' & -> & Hs' & E1 & E2 & E3); [by apply raws_delete|].
  eexists. split; [done|]. split; [done|].
  apply (pool_ok_update geo pool mem held mem (delete i held) (blk_slab b) (Some s) s' (free ++ [blk_raw b])); auto.
  - by rewrite E1.
  - by rewrite E1, E2, E3.
  - intros id' Hne. by apply (raws_delete_ne id' held i b).
  - intros b' Hb'. apply (po_held _ _ _ _ H).
    rewrite (delete_Permutation held i b Hi). by right.
Qed.

Lemma elem_of_delete_ne {A} (l : list A) i j x : l !! j = Some x → i ≠ j → x ∈ delete i l.
Proof.
  intros Hj Hne. apply list_elem_of_lookup. destruct (decide (j < i)%nat).
  - exists j. by rewrite list_lookup_delete_lt.
  - exists (Nat.pred j). rewrite list_lookup_delete_ge by lia. by replace (S (Nat.pred j)) with j by lia.
Qed.

(** ** Runs of a client *)

(** Two held blocks, headers included, do not overlap. *)
Lemma held_apart geo pool mem held i j b b' :
  pool_ok geo pool mem held → held !! i = Some b → held !! j = Some b' → i ≠ j →
  disjoint_blocks (blk_raw b, sizeof_nkit_mempool_header_t + blk_size b)
                  (blk_raw b', sizeof_nkit_mempool_header_t + blk_size b').
Proof.
  intros H Hi Hj Hne. pose proof (list_elem_of_lookup_2 _ _ _ Hi) as Hb.
  pose proof (list_elem_of_lookup_2 _ _ _ Hj) as Hb'.
  destruct (held_slot _ _ _ _ _ H Hb) as (s & free & Es & Hs & Hr & Hsz & Hg).
  destruct (held_slot _ _ _ _ _ H Hb') as (s' & free' & Es' & Hs' & Hr' & Hsz' & Hg').
  assert (Hd : disjoint_blocks (blk_raw b, slab_obj_size s) (blk_raw b', slab_obj_size s')).
  { apply (slots_apart geo pool mem held (blk_slab b) (blk_slab b') s s' free free'); auto.
    - by apply (po_held _ _ _ _ H).
    - by apply (po_held _ _ _ _ H).
    - apply elem_of_app. by right.
    - apply elem_of_app. by right.
    - intros Eid Er. pose proof (slab_ok_live_nodup _ _ _ Hs) as Hnd.
      apply NoDup_app in Hnd as (_ & _ & Hnd). rewrite (raws_delete _ _ _ _ Hi eq_refl) in Hnd.
      apply NoDup_cons in Hnd as [Hnd _]. apply Hnd, raws_elem. exists b'.
      split; [|by rewrite Eid, Er]. by eapply elem_of_delete_ne. }
  unfold disjoint_blocks in *. simpl in *. lia.
Qed.

(** A store inside a held block leaves every header intact. *)
Lemma pool_write_ok geo pool mem held i b off :
  pool_ok geo pool mem held → held !! i = Some b → 0 ≤ off < blk_size b →
  pool_ok geo pool (clobber (blk_raw b + 8 + off) mem) held.
Proof.
  intros H Hi Hoff. split; [apply H..|]. intros b' Hb'.
  destruct (po_held _ _ _ _ H b' Hb') as (Hv & Hs & Hm). split; [done|]. split; [done|].
  unfold clobber. apply map_lookup_filter_Some. split; [done|]. simpl.
  apply list_elem_of_lookup in Hb' as [j Hj]. unfold sizeof_nkit_mempool_header_t.
  destruct (decide (i = j)) as [<-|Hne]; [simplify_eq; lia|].
  pose proof (held_apart _ _ _ _ _ _ _ _ H Hi Hj Hne) as Hd.
  unfold disjoint_blocks, sizeof_nkit_mempool_header_t in Hd. simpl in Hd. lia.
Qed.

(** A client allocates, frees the [i]-th block it holds, or stores a byte into it. *)
Inductive pool_op := PAlloc (node size : Z) | PFree (i : nat) | PWrite (i : nat) (off : Z).

(** The client's blocks: pointer and size. *)
Definition pool_step pool mem (blocks : list (Z * Z)) (o : pool_op)
    : outcome (nkit_mempool_t Q * header_memory * list (Z * Z)) :=
  match o with
  | PAlloc node size =>
      let* r := nkit_mempool_alloc (Some pool) node size mem in
      match r with
      | (p, Some pool, mem) => Ret (pool, mem, if p =? NULL then blocks else (p, size) :: blocks)
      | (_, None, _) => UB
      end
  | PFree i =>
      match blocks !! i with
      | None => Ret (pool, mem, blocks)
      | Some (p, _) =>
          let* r := nkit_mempool_free (Some pool) p mem in
          match r with
          | Some pool => Ret (pool, mem, delete i blocks)
          | None => UB
          end
      end
  | PWrite i off =>
      match blocks !! i with
      | Some (p, size) =>
          if (0 <=? off) && (off <? size) then Ret (pool, clobber (p + off) mem, blocks)
          else Ret (pool, mem, blocks)
      | None => Ret (pool, mem, blocks)
      end
  end.

Fixpoint pool_exec pool mem (blocks : list (Z * Z)) (ops : list pool_op)
    : outcome (nkit_mempool_t Q * header_memory * list (Z * Z)) :=
  match ops with
  | [] => Ret (pool, mem, blocks)
  | o :: ops =>
      let* r := pool_step pool mem blocks o in
      let '(pool, mem, blocks) := r in pool_exec pool mem blocks ops
  end.

(** What the client sees of a held block. *)
Definition view (b : block) : Z * Z := (blk_raw b + 8, blk_size b).

Definition sane (o : pool_op) : Prop := match o with PAlloc _ size => 0 ≤ size | _ => True end.

Lemma pool_step_ok geo pool mem held o :
  pool_ok geo pool mem held → sane o →
  ∃ pool' mem' held', pool_step pool mem (view <$> held) o = Ret (pool', mem', view <$> held') ∧
    pool_ok geo pool' mem' held'.
Proof.
  intros H Ho. destruct o as [node size|i|i off]; cbn [pool_step sane] in *.
  - destruct (pool_alloc_ok geo pool mem held node size H Ho) as
      [[-> _]|(p & pool' & mem' & id & -> & Hp & _ & _ & _ & H')]; cbn [obind].
    + rewrite Z.eqb_refl. by exists pool, mem, held.
    + rewrite (proj2 (Z.eqb_neq _ _)) by (unfold NULL; lia).
      by exists pool', mem', (mk_block p id size :: held).
  - rewrite list_lookup_fmap. destruct (held !! i) as [b|] eqn:Hi;
      cbn [fmap option_fmap option_map view]; [|by exists pool, mem, held].
    destruct (pool_free_ok geo pool mem held i b H Hi) as (pool' & -> & _ & H'). cbn [obind].
    exists pool', mem, (delete i held). by rewrite list_fmap_delete.
  - rewrite list_lookup_fmap. destruct (held !! i) as [b|] eqn:Hi;
      cbn [fmap option_fmap option_map view]; [|by exists pool, mem, held].
    destruct ((0 <=? off) && (off <? blk_size b)) eqn:E; [|by exists pool, mem, held].
    eexists pool, _, held. split; [done|]. apply (pool_write_ok geo pool mem held i b off H Hi).
    cmp_cases; try done; lia.
Qed.

Lemma pool_exec_ok geo ops : ∀ pool mem held,
  pool_ok geo pool mem held → Forall sane ops →
  ∃ pool' mem' held', pool_exec pool mem (view <$> held) ops = Ret (pool', mem', view <$> held') ∧
    pool_ok geo pool' mem' held'.
Proof.
  induction ops as [|o ops IH]; intros pool mem held H Ho; cbn [pool_exec]; [eauto|].
  apply Forall_cons in Ho as [Ho Hos].
  destruct (pool_step_ok geo pool mem held o H Ho) as (pool1 & mem1 & held1 & -> & H1). eauto.
Qed.
End calls.

(** ** Creation *)

Lemma class_size_bounds sc : (sc < NUM_SIZE_CLASSES)%nat → 32 ≤ class_size sc ≤ 16384.
Proof.
  unfold NUM_SIZE_CLASSES, class_size, SIZE_CLASSES. intros H.
  do 10 (destruct sc as [|sc]; [simpl; lia|]). lia.
Qed.

Section creation.
Context (spurious : nat) (oss : Z → nat → arena_os).
Implicit Types (pool : nkit_mempool_t nkit_ring_t).

(** The arenas of the slab of one class at one node, and of its free-list. *)
Definition slab_arena_of (id : slab_id) : option nkit_arena_t :=
  (nkit_arena_create (oss (Z.of_nat id.1) id.2) (Z.of_nat id.1)
     (sizeof_nkit_slab_s + slab_bytes (sizeof_nkit_mempool_header_t + class_size id.2)
                                       INITIAL_CAPACITY_PER_SLAB)).1.
Definition ring_arena_of (id : slab_id) : option nkit_arena_t :=
  (nkit_arena_create (oss (Z.of_nat id.1) id.2) (Z.of_nat id.1)
     (sizeof_nkit_ring_t + sizeof_nkit_cell_t * INITIAL_CAPACITY_PER_SLAB)).1.

(** A slab as creation leaves it: empty, large enough, inside its own arena. *)
Definition built pool (id : slab_id) : Prop :=
  ∃ s a free, pool_slab pool id = Ret (Some s) ∧ slab_ok (BQ:=ring_queue spurious) s free [] ∧
    sizeof_nkit_mempool_header_t + class_size id.2 ≤ slab_obj_size s ∧
    slab_capacity s = INITIAL_CAPACITY_PER_SLAB ∧ slab_arena_of id = Some a ∧
    arena_base a ≤ slab_base s ∧
    slab_base s + slab_obj_size s * slab_capacity s ≤ arena_base a + arena_size a ∧
    ring_tail (slab_freelist s) = 0.

(** The arrays have their declared lengths. *)
Definition shaped pool : Prop :=
  length (pool_nodes pool) = Z.to_nat MAX_NODES ∧
  ∀ id, (id.1 < Z.to_nat MAX_NODES)%nat → (id.2 < NUM_SIZE_CLASSES)%nat → pool_slab pool id ≠ UB.

Lemma slab_create_class id :
  ArenaOS_ok (oss (Z.of_nat id.1) id.2) → (id.2 < NUM_SIZE_CLASSES)%nat →
  match nkit_slab_create spurious (oss (Z.of_nat id.1) id.2) (Z.of_nat id.1)
          (sizeof_nkit_mempool_header_t +w nth id.2 SIZE_CLASSES 0) INITIAL_CAPACITY_PER_SLAB with
  | UB => False
  | Ret (None, _) => slab_arena_of id = None ∨ ring_arena_of id = None
  | Ret (Some s, _) => ∀ pool, pool_slab pool id = Ret (Some s) → built pool id
  end.
Proof.
  intros Hos Hsc. pose proof (class_size_bounds _ Hsc) as Hc. fold (class_size id.2).
  unfold sizeof_nkit_mempool_header_t at 1. rewrite u64_small by (unfold is_u64; lia).
  destruct (cache_aligned_bounds (8 + class_size id.2)) as [Hcb _]; [lia|].
  pose proof (slab_create_spec spurious (oss (Z.of_nat id.1) id.2) (Z.of_nat id.1)
    (8 + class_size id.2) INITIAL_CAPACITY_PER_SLAB Hos) as H.
  pose proof (slab_create_tail spurious (oss (Z.of_nat id.1) id.2) (Z.of_nat id.1) (8 + class_size id.2) INITIAL_CAPACITY_PER_SLAB) as Ht.
  destruct (nkit_slab_create _ _ _ _ _) as [[[s|] calls]|].
  - destruct H as (_ & Hs & Ec & Es & a & _ & Ha & Hb & Hr & a0 & E0 & Eb & Esz);
      [lia|unfold INITIAL_CAPACITY_PER_SLAB; lia|unfold slab_bytes, INITIAL_CAPACITY_PER_SLAB; lia|].
    intros pool Ep. exists s, a0. eexists. split; [done|]. split; [done|].
    unfold sizeof_nkit_mempool_header_t. rewrite Es. split; [lia|]. split; [done|]. split; [done|].
    rewrite <-Eb, <-Esz, Ec. rewrite Es in Hr. split; [lia|]. split; [lia|]. by apply (Ht s calls).
  - destruct H as [H|[H|H]];
      [lia|unfold INITIAL_CAPACITY_PER_SLAB; lia|unfold slab_bytes, INITIAL_CAPACITY_PER_SLAB; lia| | |].
    + by vm_compute in H.
    + lia.
    + exact H.
  - apply H; [lia|unfold INITIAL_CAPACITY_PER_SLAB; lia|unfold slab_bytes, INITIAL_CAPACITY_PER_SLAB; lia].
Qed.

Lemma shaped_set pool id s : shaped pool → (id.1 < Z.to_nat MAX_NODES)%nat →
  (id.2 < NUM_SIZE_CLASSES)%nat →
  shaped (set_slab pool id s) ∧
  ∀ id', pool_slab (set_slab pool id s) id' = if decide (id' = id) then Ret s else pool_slab pool id'.
Proof.
  intros [Hl Hd] H1 H2. specialize (Hd id H1 H2) as Hne.
  destruct (pool_slab pool id) as [s0|] eqn:E; [|done].
  assert (Hset : ∀ id', pool_slab (set_slab pool id s) id' =
    if decide (id' = id) then Ret s else pool_slab pool id') by (intros; by eapply pool_slab_set).
  split; [|done]. split; [unfold set_slab; simpl; by rewrite length_alter|].
  intros id' H1' H2'. rewrite Hset. case_decide; [done|auto].
Qed.

(** Some slab could not be had. *)
Definition short_of_memory (nodes : Z) : Prop :=
  ∃ id, valid_id nodes id ∧ (slab_arena_of id = None ∨ ring_arena_of id = None).

Lemma built_ext pool pool' id : pool_slab pool' id = pool_slab pool id → built pool id → built pool' id.
Proof. intros E (s & a & free & Es & H). exists s, a, free. by rewrite E. Qed.

Lemma create_classes_ok node n : ∀ pool sc,
  shaped pool → (node < Z.to_nat MAX_NODES)%nat → (sc + n = NUM_SIZE_CLASSES)%nat →
  (∀ k, (k < NUM_SIZE_CLASSES)%nat → ArenaOS_ok (oss (Z.of_nat node) k)) →
  match create_classes spurious oss pool node sc n with
  | UB => False
  | Ret (ok, pool', _) => shaped pool' ∧ pool_num_nodes pool' = pool_num_nodes pool ∧
      (∀ id, id.1 ≠ node ∨ (id.2 < sc)%nat → pool_slab pool' id = pool_slab pool id) ∧
      if ok : bool then ∀ k, (sc ≤ k < NUM_SIZE_CLASSES)%nat → built pool' (node, k)
      else ∃ k, (k < NUM_SIZE_CLASSES)%nat ∧
             (slab_arena_of (node, k) = None ∨ ring_arena_of (node, k) = None)
  end.
Proof.
  induction n as [|n IH]; intros pool sc Hsh Hn Hsc Hos; cbn [create_classes].
  - split; [done|]. split; [done|]. split; [done|]. lia.
  - pose proof (slab_create_class (node, sc) (Hos sc ltac:(lia)) ltac:(simpl; lia)) as Hc. simpl in Hc.
    destruct (nkit_slab_create _ _ _ _ _) as [[[s|] calls]|]; cbn [obind]; [| |done].
    + destruct (shaped_set pool (node, sc) (Some s) Hsh) as [Hsh1 Hset]; [done|simpl; lia|].
      specialize (IH (set_slab pool (node, sc) (Some s)) (S sc) Hsh1 Hn ltac:(lia) Hos).
      destruct (create_classes _ _ _ _ _ _) as [[[ok pool'] calls']|]; [|done].
      destruct IH as (Hsh' & Enn & Hkeep & Hok). split; [done|]. split; [done|]. split.
      * intros id Hid. rewrite Hkeep by (destruct Hid; [by left|right; lia]).
        rewrite Hset, decide_False; [done|]. intros ->. simpl in Hid. lia.
      * destruct ok; [|done]. intros k Hk. destruct (decide (k = sc)) as [->|]; [|apply Hok; lia].
        apply Hc. rewrite Hkeep by (right; simpl; lia). rewrite Hset. by rewrite decide_True.
    + split; [done|]. split; [done|]. split; [done|]. exists sc. split; [lia|done].
Qed.

Lemma logical_id_slab pool node nid id :
  pool_slab (mk_pool (pool_num_nodes pool)
    (alter (λ nd, mk_pool_node nid (node_slabs nd)) node (pool_nodes pool))) id = pool_slab pool id.
Proof.
  unfold pool_slab. simpl. destruct (decide (id.1 = node)) as [->|].
  - rewrite list_lookup_alter_eq. by destruct (pool_nodes pool !! node).
  - by rewrite list_lookup_alter_ne.
Qed.

Lemma create_nodes_ok n : ∀ pool node,
  shaped pool → (node + n ≤ Z.to_nat MAX_NODES)%nat →
  (∀ i k, (i < node + n)%nat → (k < NUM_SIZE_CLASSES)%nat → ArenaOS_ok (oss (Z.of_nat i) k)) →
  match create_nodes spurious oss pool node n with
  | UB => False
  | Ret (ok, pool', _) => shaped pool' ∧ pool_num_nodes pool' = pool_num_nodes pool ∧
      (∀ id, (id.1 < node)%nat → pool_slab pool' id = pool_slab pool id) ∧
      if ok : bool
      then ∀ i k, (node ≤ i < node + n)%nat → (k < NUM_SIZE_CLASSES)%nat → built pool' (i, k)
      else short_of_memory (Z.of_nat (node + n))
  end.
Proof.
  induction n as [|n IH]; intros pool node Hsh Hn Hos; cbn [create_nodes].
  - split; [done|]. split; [done|]. split; [done|]. lia.
  - set (pool1 := mk_pool _ _). assert (E1 : ∀ id, pool_slab pool1 id = pool_slab pool id).
    { intros id. apply logical_id_slab. }
    assert (Hsh1 : shaped pool1).
    { destruct Hsh as [Hl Hd]. split; [simpl; by rewrite length_alter|].
      intros id ? ?. rewrite E1. auto. }
    pose proof (create_classes_ok node NUM_SIZE_CLASSES pool1 0 Hsh1 ltac:(lia) eq_refl
      ltac:(intros; apply Hos; lia)) as Hc.
    destruct (create_classes _ _ _ _ _ _) as [[[ok pool2] calls]|]; cbn [obind]; [|done].
    destruct Hc as (Hsh2 & En2 & Hk2 & Hok). destruct ok.
    + specialize (IH pool2 (S node) Hsh2 ltac:(lia) ltac:(intros; apply Hos; lia)).
      destruct (create_nodes _ _ _ _ _) as [[[ok pool3] calls3]|]; [|done].
      destruct IH as (Hsh3 & En3 & Hk3 & Hok3). split; [done|]. split; [by rewrite En3, En2|]. split.
      * intros id Hid. rewrite Hk3 by lia. rewrite Hk2 by lia. apply E1.
      * destruct ok; [|by rewrite <-Nat.add_succ_comm].
        intros i k Hi Hk. destruct (decide (i = node)) as [->|]; [|apply Hok3; lia].
        apply (built_ext pool2); [apply Hk3; simpl; lia|]. apply Hok. lia.
    + split; [done|]. split; [by rewrite En2|]. split; [intros id Hid; rewrite Hk2 by lia; apply E1|].
      destruct Hok as (k & Hk & Hf). exists (node, k). split; [split; simpl; lia|done].
Qed.

Lemma destroy_nodes_defined pool n : ∀ i,
  shaped pool → (i + n ≤ Z.to_nat MAX_NODES)%nat → destroy_nodes pool i n ≠ UB.
Proof.
  induction n as [|n IH]; intros i Hsh Hn; cbn [destroy_nodes]; [done|].
  destruct (lookup_lt_is_Some_2 (pool_nodes pool) i) as [nd ->]; [rewrite (proj1 Hsh); lia|].
  specialize (IH (S i) Hsh ltac:(lia)). by destruct (destroy_nodes pool (S i) n).
Qed.

(** The region of every slab of a pool. *)
Definition pool_geo pool (id : slab_id) : Z * Z :=
  match pool_slab pool id with
  | Ret (Some s) => (slab_base s, slab_obj_size s * slab_capacity s)
  | _ => (0, 0)
  end.

Lemma built_pool_ok pool :
  1 ≤ pool_num_nodes pool → (∀ id, valid_id (pool_num_nodes pool) id → built pool id) →
  (∀ id id' a a', valid_id (pool_num_nodes pool) id → valid_id (pool_num_nodes pool) id' → id ≠ id' →
     slab_arena_of id = Some a → slab_arena_of id' = Some a' →
     disjoint_blocks (arena_base a, arena_size a) (arena_base a', arena_size a')) →
  pool_ok (BQ:=ring_queue spurious) (pool_geo pool) pool ∅ [].
Proof.
  intros Hn Hb Ha. split; [done| | |].
  - intros id Hv. destruct (Hb id Hv) as (s & a & free & Es & Hs & Hsz & _).
    exists s, free. unfold pool_geo. rewrite Es. split_and!; done.
  - intros id id' Hv Hv' Hne. destruct (Hb id Hv) as (s & a & free & Es & Hs & _ & _ & Ea & ? & ?).
    destruct (Hb id' Hv') as (s' & a' & free' & Es' & Hs' & _ & _ & Ea' & ? & ?).
    pose proof (Ha id id' a a' Hv Hv' Hne Ea Ea') as Hd. unfold pool_geo. rewrite Es, Es'.
    unfold disjoint_blocks in *. simpl in *. lia.
  - intros b Hb'. by apply not_elem_of_nil in Hb'.
Qed.
End creation.

Lemma empty_pool_shaped n : shaped (empty_pool n).
Proof.
  split; [done|]. intros [i k] Hi Hk. unfold pool_slab, empty_pool.
  cbn [pool_nodes fst snd]. rewrite lookup_replicate_2 by done. cbn [node_slabs].
  by rewrite lookup_replicate_2.
Qed.

(** ** Properties *)

(** Creation, on an initialised library that knows at least one node, with
    mappings that do not overlap: it fails only when memory is short, and never
    in an undefined way; a pool that is returned has its ten slabs, all slots
    free, for each of the first 64 nodes. *)
Theorem mempool_create_sound {M} spurious oss (ctx : nkit_context_t M) malloc_ok :
  let nodes := Z.min MAX_NODES (ctx_num_nodes ctx) in
  1 ≤ ctx_num_nodes ctx →
  (∀ id, valid_id nodes id → ArenaOS_ok (oss (Z.of_nat id.1) id.2)) →
  (∀ id id' a a', valid_id nodes id → valid_id nodes id' → id ≠ id' →
     slab_arena_of oss id = Some a → slab_arena_of oss id' = Some a' →
     disjoint_blocks (arena_base a, arena_size a) (arena_base a', arena_size a')) →
  match nkit_mempool_create spurious oss ctx malloc_ok with
  | UB => False
  | Ret (None, _) => ctx_initialized ctx = false ∨ malloc_ok = false ∨ short_of_memory oss nodes
  | Ret (Some pool, calls) => calls = [] ∧ pool_num_nodes pool = nodes ∧
      (∀ id, valid_id nodes id → built spurious oss pool id) ∧
      pool_ok (BQ:=ring_queue spurious) (pool_geo pool) pool ∅ []
  end.
Proof.
  intros nodes Hn Hos Ha. unfold nkit_mempool_create.
  destruct (ctx_initialized ctx); cbn [negb]; [|by left].
  destruct malloc_ok; cbn [negb]; [|by right; left].
  assert (En : (if MAX_NODES <? ctx_num_nodes ctx then MAX_NODES else ctx_num_nodes ctx) = nodes).
  { unfold nodes. cmp_cases; lia. }
  rewrite En. assert (Hb : 1 ≤ nodes ≤ 64) by (unfold nodes, MAX_NODES; lia). clearbody nodes. clear En.
  pose proof (create_nodes_ok spurious oss (Z.to_nat nodes) (empty_pool nodes) 0 (empty_pool_shaped _)
    ltac:(unfold MAX_NODES; lia)) as Hc.
  destruct (create_nodes _ _ _ _ _) as [[[ok pool] calls]|]; cbn [obind].
  - destruct Hc as (Hsh & Enn & _ & Hok); [intros i k Hi Hk; apply (Hos (i, k)); split; simpl; lia|].
    simpl in Enn. destruct ok.
    + assert (Hbu : ∀ id, valid_id nodes id → built spurious oss pool id).
      { intros [i k] [Hi Hk]. simpl in *. apply Hok; lia. }
      split; [done|]. split; [done|]. split; [done|]. apply (built_pool_ok spurious oss); rewrite Enn; auto. lia.
    + cbn [nkit_mempool_destroy]. rewrite Enn.
      pose proof (destroy_nodes_defined pool (Z.to_nat nodes) 0 Hsh ltac:(unfold MAX_NODES; lia)).
      destruct (destroy_nodes _ _ _) as [ds|]; [|done]. cbn [obind]. right. right.
      destruct Hok as ([i k] & [Hi Hk] & Hf). exists (i, k). simpl in *. split; [split; simpl; lia|done].
  - apply Hc. intros i k Hi Hk. apply (Hos (i, k)). split; simpl; lia.
Qed.

(** For every run of a client that allocates from any node, frees blocks it
    holds and stores into them: every call returns and finds its headers intact,
    and the blocks held, headers included, are pairwise disjoint. *)
Theorem mempool_blocks_disjoint {Q} {BQ : BoundedQueue Q} geo (pool : nkit_mempool_t Q) mem held ops :
  pool_ok geo pool mem held → Forall sane ops →
  ∃ pool' mem' held', pool_exec pool mem (view <$> held) ops = Ret (pool', mem', view <$> held') ∧
    pool_ok geo pool' mem' held' ∧
    ∀ i j p size p' size', (view <$> held') !! i = Some (p, size) →
      (view <$> held') !! j = Some (p', size') → i ≠ j →
      disjoint_blocks (p - 8, 8 + size) (p' - 8, 8 + size').
Proof.
  intros H Ho. destruct (pool_exec_ok geo ops pool mem held H Ho) as (pool' & mem' & held' & E & H').
  exists pool', mem', held'. split; [done|]. split; [done|]. intros i j p size p' size' Hi Hj Hne.
  rewrite list_lookup_fmap in Hi, Hj. destruct (held' !! i) as [b|] eqn:Ei; [|done].
  destruct (held' !! j) as [b'|] eqn:Ej; [|done]. unfold view in *. simplify_eq/=.
  pose proof (held_apart geo pool' mem' held' i j b b' H' Ei Ej Hne) as Hd.
  unfold disjoint_blocks, sizeof_nkit_mempool_header_t in *. simpl in *. lia.
Qed.

(** One allocation: it returns NULL exactly for size zero, for sizes above
    16 KiB, and when the smallest class that fits is exhausted at every node;
    otherwise the block comes from that class, from the caller's own node unless
    it is exhausted there, and its address is 8 past a cache line. *)
Theorem mempool_alloc_correct {Q} {BQ : BoundedQueue Q} geo (pool : nkit_mempool_t Q) mem held node size :
  pool_ok geo pool mem held → 0 ≤ size →
  ∃ p pool' mem', nkit_mempool_alloc (Some pool) node size mem = Ret (p, Some pool', mem') ∧
    (p = NULL →
       size = 0 ∨ 16384 < size ∨
       ∃ sc, is_class size sc ∧
         ∀ n, Z.of_nat n < pool_num_nodes pool → exhausted pool held (n, sc)) ∧
    (p ≠ NULL → 0 < size ≤ 16384 ∧ p mod 64 = 8 ∧
       ∃ id, is_class size id.2 ∧ (¬ exhausted pool held id) ∧
         (id.1 = home pool node ∨ exhausted pool held (home pool node, id.2)) ∧
         pool_ok geo pool' mem' (mk_block (p - 8) id size :: held)).
Proof.
  intros H Hs. destruct (pool_alloc_ok geo pool mem held node size H Hs) as
    [[-> Hx]|(p & pool' & mem' & id & -> & Hp & [z Hz] & (Hc & Hs' & Hnx) & Hl & Hok)].
  - by exists NULL, pool, mem.
  - exists (p + 8), pool', mem'. split; [done|]. split; [unfold NULL; lia|]. intros _. split; [done|]. split.
    + rewrite Hz, Z.add_comm, Z.mod_add by lia. done.
    + exists id. by replace (p + 8 - 8) with p by lia.
Qed.

(** ** A concrete pool *)

(** Mappings at addresses of their own for every node and class. *)
Definition demo_pool_os (node : Z) (k : nat) : arena_os := {|
  os_malloc := true;
  os_shift_out _ := 0;
  os_mmap len huge :=
    if (len =? 0) || (2 ^ 30 <? len) || huge then MAP_FAILED
    else 2 ^ 30 * (1 + 16 * (node mod 64) + Z.of_nat k mod 16);
  os_mbind _ _ _ _ := 0;
  os_madvise _ _ := 0;
  os_pagesize := 4096;
|}.

#[export] Instance demo_pool_os_ok node k : ArenaOS_ok (demo_pool_os node k).
Proof.
  pose proof (Z.mod_pos_bound node 64 ltac:(lia)). pose proof (Z.mod_pos_bound (Z.of_nat k) 16 ltac:(lia)).
  split; cbn [os_mmap demo_pool_os os_pagesize].
  - done.
  - intros len huge. destruct (_ || _ || _) eqn:E; [done|]. intros _.
    rewrite !orb_false_iff, Z.ltb_ge in E. lia.
  - intros len. destruct (_ || _ || _); [done|]. intros _.
    exists (2 ^ 18 * (1 + 16 * (node mod 64) + Z.of_nat k mod 16)). lia.
  - intros len. by rewrite orb_true_r.
  - by exists 12.
Qed.

Definition demo_pool_ctx : nkit_context_t Z := demo_ctx MbNull.

Lemma demo_pool_arena id :
  valid_id 2 id →
  ∃ a, slab_arena_of demo_pool_os id = Some a ∧ ring_arena_of demo_pool_os id ≠ None ∧
    arena_base a = 2 ^ 30 * (1 + 16 * Z.of_nat id.1 + Z.of_nat id.2) ∧ arena_size a ≤ 2 ^ 25.
Proof.
  destruct id as [i k]. intros [Hi Hk]. simpl in Hi, Hk. unfold NUM_SIZE_CLASSES in Hk.
  do 2 (destruct i as [|i]; [do 10 (destruct k as [|k];
    [eexists; split; [vm_compute; reflexivity|by vm_compute]|]); lia|]). lia.
Qed.

Lemma demo_pool_apart id id' a a' :
  valid_id 2 id → valid_id 2 id' → id ≠ id' →
  slab_arena_of demo_pool_os id = Some a → slab_arena_of demo_pool_os id' = Some a' →
  disjoint_blocks (arena_base a, arena_size a) (arena_base a', arena_size a').
Proof.
  intros Hv Hv' Hne Ea Ea'. destruct (demo_pool_arena id Hv) as (b & Eb & _ & Hb & Hs).
  destruct (demo_pool_arena id' Hv') as (b' & Eb' & _ & Hb' & Hs'). simplify_eq.
  destruct Hv as [Hi Hk], Hv' as [Hi' Hk'], id as [i k], id' as [i' k'].
  unfold NUM_SIZE_CLASSES, disjoint_blocks in *. simpl in *. rewrite Hb, Hb'.
  assert (Hd : i ≠ i' ∨ k ≠ k') by (destruct (decide (i = i')); [right; congruence|by left]).
  lia.
Qed.

Lemma mempool_create_sound_witness :
  ∃ pool, nkit_mempool_create 0 demo_pool_os demo_pool_ctx true = Ret (Some pool, []) ∧
    pool_num_nodes pool = 2 ∧ pool_ok (BQ:=ring_queue 0) (pool_geo pool) pool ∅ [].
Proof.
  pose proof (mempool_create_sound 0 demo_pool_os demo_pool_ctx true ltac:(by vm_compute)
    (λ id _, demo_pool_os_ok _ _) demo_pool_apart) as H.
  destruct (nkit_mempool_create _ _ _ _) as [[[pool|] calls]|]; [| |done].
  - destruct H as (-> & En & _ & Hok). exists pool. by split; [|split].
  - destruct H as [H|[H|(id & Hv & Hx)]]; [done|done|].
    destruct (demo_pool_arena id Hv) as (b & Eb & Er & _). destruct Hx; congruence.
Defined.

(** A pool over two nodes, made by creation. *)
Lemma demo_pool_exists :
  ∃ pool, pool_num_nodes pool = 2 ∧ pool_ok (BQ:=ring_queue 0) (pool_geo pool) pool ∅ [] ∧
    ∀ id, valid_id 2 id → ¬ exhausted pool [] id.
Proof.
  pose proof (create_nodes_ok 0 demo_pool_os 2 (empty_pool 2) 0 (empty_pool_shaped _)
    ltac:(vm_compute; lia) ltac:(intros; apply demo_pool_os_ok)) as Hc.
  destruct (create_nodes _ _ _ _ _) as [[[ok pool] calls]|]; [|done].
  destruct Hc as (_ & En & _ & Hok). destruct ok.
  - assert (Hb : ∀ id, valid_id 2 id → built 0 demo_pool_os pool id).
    { intros [i k] [Hi Hk]. simpl in *. apply Hok; lia. }
    exists pool. split; [done|]. split.
    + apply (built_pool_ok 0 demo_pool_os); rewrite En; [done|done|apply demo_pool_apart].
    + intros id Hv (s & Es & Hx). destruct (Hb id Hv) as (s' & a & free & Es' & _ & _ & Hcap & _).
      rewrite Es in Es'. simplify_eq. by rewrite Hcap in Hx.
  - destruct Hok as (id & Hv & Hx). destruct (demo_pool_arena id Hv) as (b & Eb & Er & _).
    destruct Hx; congruence.
Qed.

Lemma mempool_blocks_disjoint_witness :
  ∃ pool : nkit_mempool_t nkit_ring_t, pool_num_nodes pool = 2 ∧
  ∃ pool' mem' held',
    pool_exec (BQ:=ring_queue 0) pool ∅ [] [PAlloc 0 100; PAlloc 1 100; PWrite 0 99; PFree 1; PAlloc 7 1]
      = Ret (pool', mem', view <$> held') ∧
    pool_ok (BQ:=ring_queue 0) (pool_geo pool) pool' mem' held'.
Proof.
  destruct demo_pool_exists as (pool & En & Hok & _). exists pool. split; [done|].
  destruct (mempool_blocks_disjoint (BQ:=ring_queue 0) (pool_geo pool) pool ∅ []
    [PAlloc 0 100; PAlloc 1 100; PWrite 0 99; PFree 1; PAlloc 7 1] Hok)
    as (pool' & mem' & held' & E & H' & _).
  - repeat constructor; simpl; lia.
  - by exists pool', mem', held'.
Defined.

Lemma mempool_alloc_correct_witness :
  ∃ (pool : nkit_mempool_t nkit_ring_t) p pool' mem',
    nkit_mempool_alloc (BQ:=ring_queue 0) (Some pool) 1 100 ∅ = Ret (p, Some pool', mem') ∧ p mod 64 = 8.
Proof.
  destruct demo_pool_exists as (pool & En & Hok & Hnx). exists pool.
  destruct (mempool_alloc_correct (BQ:=ring_queue 0) (pool_geo pool) pool ∅ [] 1 100 Hok ltac:(lia))
    as (p & pool' & mem' & E & Hnull & Hsome). exists p, pool', mem'. split; [done|].
  destruct (decide (p = NULL)) as [Hp|Hp]; [|by apply Hsome].
  destruct (Hnull Hp) as [|[|(sc & Hc & Hx)]]; [done|done|]. exfalso. apply (Hnx (0%nat, sc)).
  - split; [simpl; lia|apply Hc].
  - apply Hx. rewrite En. simpl. lia.
Defined.
