(* ===== verification/PoolConc.v ===== *)
(** * The memory pool with many callers (src/memory/pool.c)

    Any number of threads allocate from one pool and free to it, interleaving at
    every access to a slab's free-list and to a block's header; clients store into
    the blocks they hold at any moment.  A block may be freed by another thread,
    on another node, than the one that allocated it. *)

From stdpp Require Import prelude gmap.
From Stdlib Require Import ZArith Lia.
From S2P Require Import Prelude Words Arena Ring RingConc RingItems Slab Context Pool.
Local Open Scope Z_scope.
Local Open Scope word_scope.

(** ** Steps *)

(** Where a thread is: outside any call; in the loop over the other nodes, at node
    [i]; inside [nkit_slab_alloc] of the slab [id], [i] the node to go on with;
    about to write the header of the slot it got; inside [nkit_slab_free]. *)
Inductive mp_pc :=
| MpIdle
| MpTry (current sc i : nat) (size : Z)
| MpPop (id : slab_id) (current i : nat) (size : Z)
| MpHeader (id : slab_id) (raw_block size : Z)
| MpPush (id : slab_id) (header : Z).

(** The pool, where a free-list is a ring with the threads inside its operations;
    the headers; the blocks the clients hold. *)
Record mp_state := mk_mp {
  mp_pool : nkit_mempool_t ring_state;
  mp_mem : header_memory;
  mp_threads : list mp_pc;
  mp_held : list block;
}.

(** A call begins: an allocation by a thread that runs on [node], or a free of the
    [i]-th block held; a client stores a byte into the [i]-th block; a thread makes
    its next access. *)
Inductive mp_label :=
| MpAlloc (t : nat) (node size : Z)
| MpFree (t i : nat)
| MpWrite (i : nat) (off : Z)
| MpGo (t : nat) (spurious : bool).

(** [nkit_mempool_alloc] returns a pointer or NULL; the push of a free is refused and
    its block is dropped. *)
Inductive mp_event :=
| MpGot (t : nat) (ptr : Z)
| MpNull (t : nat)
| MpLost (t : nat) (id : slab_id) (raw : Z).

(** A step of the free-list of the slab [id]. *)
Definition slab_ring (pool : nkit_mempool_t ring_state) (id : slab_id) (l : ring_label)
    : option (nkit_mempool_t ring_state * ring_state * list ring_event) :=
  match pool_slab pool id with
  | Ret (Some s) =>
      match ring_step (slab_freelist s) l with
      | Some (rs, ev) => Some (set_slab pool id (Some (with_freelist s rs)), rs, ev)
      | None => None
      end
  | _ => None
  end.

(** [nkit_slab_alloc(pool->nodes[id.1].slabs[id.2])] begins; a NULL slab has no
    block. *)
Definition alloc_begins (s : mp_state) (t : nat) (id : slab_id) (current i : nat) (size : Z)
    : option (nkit_mempool_t ring_state * mp_pc) :=
  match pool_slab (mp_pool s) id with
  | UB => None
  | Ret None => Some (mp_pool s, MpTry current id.2 i size)
  | Ret (Some _) =>
      match slab_ring (mp_pool s) id (RcPop t) with
      | Some (pool, _, _) => Some (pool, MpPop id current i size)
      | None => None
      end
  end.

(** One access of a thread inside a call. *)
Definition mp_go (s : mp_state) (t : nat) (pc : mp_pc) (spurious : bool) : option (mp_state * list mp_event) :=
  let moved pool pc' ev := Some (mk_mp pool (mp_mem s) (<[t := pc']> (mp_threads s)) (mp_held s), ev) in
  match pc with
  | MpIdle => None
  | MpTry current sc i size =>
      if Z.of_nat i <? pool_num_nodes (mp_pool s) then
        if decide (i = current) then moved (mp_pool s) (MpTry current sc (S i) size) [] else
        match alloc_begins s t (i, sc) current (S i) size with
        | Some (pool, pc') => moved pool pc' []
        | None => None
        end
      else moved (mp_pool s) MpIdle [MpNull t]
  | MpPop id current i size =>
      match slab_ring (mp_pool s) id (RcAdvance t spurious) with
      | None => None
      | Some (pool, _, ev) =>
          match ev with
          | [Taken _ x] => moved pool (if x =? NULL then MpTry current id.2 i size else MpHeader id x size) []
          | [Empty _] => moved pool (MpTry current id.2 i size) []
          | _ => moved pool pc []
          end
      end
  | MpHeader id raw size =>
      Some (mk_mp (mp_pool s) (<[raw := Some id]> (mp_mem s)) (<[t := MpIdle]> (mp_threads s))
              (mk_block raw id size :: mp_held s), [MpGot t (raw +w sizeof_nkit_mempool_header_t)])
  | MpPush id header =>
      match slab_ring (mp_pool s) id (RcAdvance t spurious) with
      | None => None
      | Some (pool, rs, ev) =>
          let pc' := match rs_threads rs !! t with Some RcIdle => MpIdle | _ => pc end in
          moved pool pc' (match ev with [Full _] => [MpLost t id header] | _ => [] end)
      end
  end.

Definition mp_step (s : mp_state) (l : mp_label) : option (mp_state * list mp_event) :=
  match l with
  | MpAlloc t node size =>
      match mp_threads s !! t with
      | Some MpIdle =>
          if size =? 0 then Some (s, [MpNull t]) else
          if List.last SIZE_CLASSES 0 <? size then Some (s, [MpNull t]) else
          match find_class size SIZE_CLASSES 0 with
          | None => Some (s, [MpNull t])
          | Some sc =>
              let current := home (mp_pool s) node in
              match alloc_begins s t (current, sc) current 0 size with
              | Some (pool, pc) => Some (mk_mp pool (mp_mem s) (<[t := pc]> (mp_threads s)) (mp_held s), [])
              | None => None
              end
          end
      | _ => None
      end
  | MpFree t i =>
      match mp_threads s !! t, mp_held s !! i with
      | Some MpIdle, Some b =>
          let freed pool pc := Some (mk_mp pool (mp_mem s) (<[t := pc]> (mp_threads s)) (delete i (mp_held s)), []) in
          let ptr := blk_raw b +w sizeof_nkit_mempool_header_t in
          if ptr =? NULL then freed (mp_pool s) MpIdle else
          let header := ptr -w sizeof_nkit_mempool_header_t in
          match mp_mem s !! header with
          | None => None
          | Some None => freed (mp_pool s) MpIdle
          | Some (Some id) =>
              match pool_slab (mp_pool s) id with
              | UB => None
              | Ret None => freed (mp_pool s) MpIdle
              | Ret (Some _) =>
                  if header =? NULL then freed (mp_pool s) MpIdle else
                  match slab_ring (mp_pool s) id (RcPush t header) with
                  | Some (pool, _, _) => freed pool (MpPush id header)
                  | None => None
                  end
              end
          end
      | _, _ => None
      end
  | MpWrite i off =>
      match mp_held s !! i with
      | Some b =>
          if (0 <=? off) && (off <? blk_size b)
          then Some (mk_mp (mp_pool s) (clobber (blk_raw b + 8 + off) (mp_mem s)) (mp_threads s) (mp_held s), [])
          else None
      | None => None
      end
  | MpGo t spurious =>
      match mp_threads s !! t with
      | Some pc => mp_go s t pc spurious
      | None => None
      end
  end.

(** The slab [s], its free-list shared by the threads of [rs]. *)
Definition put_ring (s : nkit_slab_t nkit_ring_t) (rs : ring_state) : nkit_slab_t ring_state :=
  mk_slab (slab_arena s) rs (slab_base s) (slab_obj_size s) (slab_capacity s).

Definition shared_slab (n : nat) (s : nkit_slab_t nkit_ring_t) : nkit_slab_t ring_state :=
  put_ring s (mk_rs (slab_freelist s) (replicate n RcIdle)).

Definition shared_node (n : nat) (nd : nkit_mempool_node_t nkit_ring_t) : nkit_mempool_node_t ring_state :=
  mk_pool_node (logical_node_id nd) (option_map (shared_slab n) <$> node_slabs nd).

(** A pool no client holds a block of, and [n] threads. *)
Definition mp_start (pool : nkit_mempool_t nkit_ring_t) (n : nat) : mp_state :=
  mk_mp (mk_pool (pool_num_nodes pool) (shared_node n <$> pool_nodes pool)) ∅ (replicate n MpIdle) [].

(** ** Threads inside a free-list *)

(** Which threads are inside the free-list of the slab [id]. *)
Definition pc_in (id : slab_id) (pc : mp_pc) (rpc : ring_pc) : Prop :=
  match pc with
  | MpPop id' _ _ _ => if decide (id' = id) then in_pop rpc else rpc = RcIdle
  | MpPush id' h => if decide (id' = id) then in_push h rpc else rpc = RcIdle
  | _ => rpc = RcIdle
  end.

(** Outside every free-list. *)
Definition outside (pc : mp_pc) : Prop := match pc with MpPop _ _ _ _ | MpPush _ _ => False | _ => True end.

Lemma pc_in_outside id pc : outside pc → pc_in id pc RcIdle.
Proof. by destruct pc. Qed.

Lemma pc_in_other id id' pc rpc :
  pc_in id pc rpc → (outside pc ∨ ∃ c i z, pc = MpPop id' c i z) ∨ (∃ h, pc = MpPush id' h) → id ≠ id' → rpc = RcIdle.
Proof. intros H [[Ho|(c & i & z & ->)]|[h ->]] Hne; [by destruct pc|..]; cbn in H; by rewrite decide_False in H. Qed.

(** ** The invariant *)

(** The slot of [id] a thread has got and not yet handed out. *)
Definition in_hand (id : slab_id) (pc : mp_pc) : list Z :=
  match pc with MpHeader id' raw _ => if decide (id' = id) then [raw] else [] | _ => [] end.

Definition lost_at (id : slab_id) (es : list mp_event) : list Z :=
  omap (λ e, match e with MpLost _ id' raw => if decide (id' = id) then Some raw else None | _ => None end) es.

(** The slots of [id] that are not on its free-list. *)
Definition out (id : slab_id) (es : list mp_event) (s : mp_state) : list Z :=
  raws id (mp_held s) ++ holdings (in_hand id) (mp_threads s) ++ lost_at id es.

Lemma lost_at_app id es ev : lost_at id (es ++ ev) = lost_at id es ++ lost_at id ev.
Proof. apply omap_app. Qed.

(** A thread moves, and the held blocks change. *)
Lemma out_moves id es ev s t pc pc' pool mem held :
  mp_threads s !! t = Some pc →
  raws id (mp_held s) ++ in_hand id pc ++ out id (es ++ ev) (mk_mp pool mem (<[t := pc']> (mp_threads s)) held) ≡ₚ
  raws id held ++ in_hand id pc' ++ lost_at id ev ++ out id es s.
Proof.
  intros Ht. unfold out. cbn [mp_held mp_threads]. rewrite lost_at_app.
  pose proof (holdings_insert (in_hand id) (mp_threads s) t pc' pc Ht). count_perm.
Qed.

Section pool.
Context (spurious : nat) (geo : slab_id → Z * Z) (p0 : nkit_mempool_t nkit_ring_t).
Let nodes := pool_num_nodes p0.

(** All slots are free, the free-lists as creation leaves them. *)
Record pool_ready : Prop := {
  pr_ok : pool_ok (BQ := ring_queue spurious) geo p0 ∅ [];
  pr_new : ∀ id s, valid_id nodes id → pool_slab p0 id = Ret (Some s) →
    ring_tail (slab_freelist s) = 0 ∧ slab_capacity s ≤ 2 ^ 58;
}.
Hypothesis Ready : pool_ready.

Definition fits (pc : mp_pc) : Prop :=
  match pc with
  | MpIdle => True
  | MpTry _ sc _ size => (sc < NUM_SIZE_CLASSES)%nat ∧ 0 < size ≤ class_size sc
  | MpPop id _ _ size | MpHeader id _ size => valid_id nodes id ∧ 0 < size ≤ class_size id.2
  | MpPush id _ => valid_id nodes id
  end.

Definition block_ok (mem : header_memory) (b : block) : Prop :=
  valid_id nodes (blk_slab b) ∧ 0 < blk_size b ≤ class_size (blk_slab b).2 ∧ mem !! blk_raw b = Some (Some (blk_slab b)).

Record slab_shared (n : nat) (es : list mp_event) (s : mp_state) (id : slab_id) (s0 : nkit_slab_t nkit_ring_t) (rs : ring_state)
    : Prop := {
  ss_slab : pool_slab (mp_pool s) id = Ret (Some (put_ring s0 rs));
  ss_free : free_list (slab_capacity s0) (all_slots s0) (length (all_slots s0) + n) rs (out id es s);
  ss_threads : Forall2 (pc_in id) (mp_threads s) (rs_threads rs);
  ss_capacity : ring_capacity (rs_ring rs) = slab_capacity s0;
}.

Record mp_inv (n : nat) (es : list mp_event) (s : mp_state) : Prop := {
  mi_nodes : pool_num_nodes (mp_pool s) = nodes;
  mi_slabs : ∀ id s0, valid_id nodes id → pool_slab p0 id = Ret (Some s0) → ∃ rs, slab_shared n es s id s0 rs;
  mi_held : ∀ b, b ∈ mp_held s → block_ok (mp_mem s) b;
  mi_threads : ∀ t pc, mp_threads s !! t = Some pc → fits pc;
}.

Lemma slab_exists id : valid_id nodes id →
  ∃ s0 free, pool_slab p0 id = Ret (Some s0) ∧ slab_ok (BQ := ring_queue spurious) s0 free [] ∧
    sizeof_nkit_mempool_header_t + class_size id.2 ≤ slab_obj_size s0 ∧
    geo id = (slab_base s0, slab_obj_size s0 * slab_capacity s0).
Proof. intros Hv. exact (po_slabs _ _ _ _ (pr_ok Ready) id Hv). Qed.

(** ** Steps keep it *)

(** No thread moves. *)
Lemma inv_same n es s mem ev :
  mp_inv n es s → (∀ b, b ∈ mp_held s → block_ok mem b) → (∀ id, lost_at id ev = []) →
  mp_inv (S n) (es ++ ev) (mk_mp (mp_pool s) mem (mp_threads s) (mp_held s)).
Proof.
  intros [Hn Hs Hh Ht] Hb Hl. split; try done. intros id s0 Hv E. destruct (Hs id s0 Hv E) as [rs [E1 F HF HC]].
  exists rs. split; [done| |done|done]. apply (free_list_keep _ _ _ _ _ _ _ F); [lia|]. unfold out. by rewrite lost_at_app, Hl, app_nil_r.
Qed.

(** A thread moves outside the free-lists. *)
Lemma inv_outside n es s t pc pc' mem held ev :
  mp_inv n es s → mp_threads s !! t = Some pc → outside pc → outside pc' → fits pc' →
  (∀ b, b ∈ held → block_ok mem b) →
  (∀ id, raws id (mp_held s) ++ in_hand id pc ≡ₚ raws id held ++ in_hand id pc' ++ lost_at id ev) →
  mp_inv (S n) (es ++ ev) (mk_mp (mp_pool s) mem (<[t := pc']> (mp_threads s)) held).
Proof.
  intros [Hn Hs Hh Ht] Hpc Ho Ho' Hf Hb Hp. split; [done| |done|].
  - intros id s0 Hv E. destruct (Hs id s0 Hv E) as [rs [E1 F HF HC]]. exists rs. split; [done| | |done].
    + apply (free_list_keep _ _ _ _ _ _ _ F); [lia|]. specialize (Hp id).
      pose proof (out_moves id es ev s t pc pc' (mp_pool s) mem held Hpc). count_perm.
    + destruct (Forall2_lookup_l _ _ _ _ _ HF Hpc) as (rpc & Hr & Hin). cbn [mp_threads].
      rewrite <-(list_insert_id _ _ _ Hr). apply Forall2_insert; [done|].
      replace rpc with RcIdle by (by destruct pc). by apply pc_in_outside.
  - apply (forall_insert (λ _ pc, fits pc)); [done|]. intros j y _ Hj. by apply (Ht j).
Qed.

(** A thread moves inside the free-list of [id]. *)
Lemma inv_ring n es s t pc pc' id l pool rs' rev held ev :
  mp_inv n es s → mp_threads s !! t = Some pc → valid_id nodes id → fits pc' →
  slab_ring (mp_pool s) id l = Some (pool, rs', rev) →
  (∀ rs, Forall2 (pc_in id) (mp_threads s) (rs_threads rs) → ring_step rs l = Some (rs', rev) →
     (∃ rpc, rs_threads rs' = <[t := rpc]> (rs_threads rs) ∧ pc_in id pc' rpc) ∧
     raws id (mp_held s) ++ in_hand id pc ++ leaving rs l rev ≡ₚ raws id held ++ in_hand id pc' ++ lost_at id ev ++ brought l) →
  (∀ id', id' ≠ id → (∀ rpc, pc_in id' pc rpc → pc_in id' pc' rpc) ∧
     raws id' (mp_held s) ++ in_hand id' pc ≡ₚ raws id' held ++ in_hand id' pc' ++ lost_at id' ev) →
  (∀ b, b ∈ held → block_ok (mp_mem s) b) →
  mp_inv (S n) (es ++ ev) (mk_mp pool (mp_mem s) (<[t := pc']> (mp_threads s)) held).
Proof.
  intros [Hn Hs Hh Ht] Hpc Hv Hf Hr Hid Hother Hb. unfold slab_ring in Hr.
  destruct (slab_exists id Hv) as (s0 & free & E0 & _). destruct (Hs id s0 Hv E0) as [rs [E1 F HF HC]].
  rewrite E1 in Hr. cbn [slab_freelist put_ring] in Hr. destruct (ring_step rs l) as [[rs1 rev1]|] eqn:Es; [|done].
  injection Hr as <- -> ->. destruct (Hid rs HF Es) as ((rpc & Er & Hin) & P). split; [done| |done|].
  - intros id' s0' Hv' E'. cbn [mp_pool]. destruct (decide (id' = id)) as [->|Hne].
    + rewrite E0 in E'. injection E' as <-. exists rs'. split.
      * cbn [mp_pool]. rewrite (pool_slab_set _ _ _ _ _ E1), decide_True by done. done.
      * rewrite Nat.add_succ_r. eapply free_list_step; [done..|].
        pose proof (out_moves id es ev s t pc pc' (mp_pool s) (mp_mem s) held Hpc) as Po.
        unfold out in Po |- *. cbn [mp_held mp_threads] in *. count_perm.
      * cbn [mp_threads]. rewrite Er. by apply Forall2_insert.
      * by rewrite (ring_step_capacity _ _ _ _ Es).
    + destruct (Hs id' s0' Hv' E') as [rs2 [E2 F2 HF2 HC2]]. destruct (Hother id' Hne) as [Hin2 P2]. exists rs2. split.
      * cbn [mp_pool]. by rewrite (pool_slab_set _ _ _ _ _ E1), decide_False.
      * apply (free_list_keep _ _ _ _ _ _ _ F2); [lia|].
        pose proof (out_moves id' es ev s t pc pc' (mp_pool s) (mp_mem s) held Hpc) as Po.
        unfold out in Po |- *. cbn [mp_held mp_threads] in *. count_perm.
      * destruct (Forall2_lookup_l _ _ _ _ _ HF2 Hpc) as (rpc2 & Hr2 & Hi2). cbn [mp_threads].
        rewrite <-(list_insert_id _ _ _ Hr2). apply Forall2_insert; auto.
      * done.
  - apply (forall_insert (λ _ pc, fits pc)); [done|]. intros j y _ Hj. by apply (Ht j).
Qed.

(** ** Slots *)

Definition in_range (n : nat) : Prop := Z.of_nat n < 2 ^ 61.

Lemma slots_few id s0 n :
  valid_id nodes id → pool_slab p0 id = Ret (Some s0) → in_range n → Z.of_nat (length (all_slots s0) + n) < 2 ^ 62.
Proof.
  intros Hv E Hn. destruct (pr_new Ready id s0 Hv E) as [_ Hc]. destruct (slab_exists id Hv) as (s1 & free & E1 & Hok & _).
  rewrite E in E1. injection E1 as <-. pose proof (slab_cap_nonneg _ _ _ Hok). unfold in_range, all_slots in *.
  rewrite slots_length. lia.
Qed.

Lemma slot_ptr id s0 p :
  valid_id nodes id → pool_slab p0 id = Ret (Some s0) → p ∈ all_slots s0 →
  0 < p ∧ p + slab_obj_size s0 ≤ 2 ^ 63 ∧ (64 | p) ∧ sizeof_nkit_mempool_header_t + class_size id.2 ≤ slab_obj_size s0 ∧
  (geo id).1 ≤ p ∧ p + slab_obj_size s0 ≤ (geo id).1 + (geo id).2.
Proof.
  intros Hv E Hp. destruct (slab_exists id Hv) as (s1 & free & E1 & Hok & Hsz & Hg). rewrite E in E1. injection E1 as <-.
  destruct (slab_ptr s0 free [] p Hok) as (? & ? & ?); [by rewrite (so_perm _ _ _ Hok)|].
  pose proof (so_base _ _ _ Hok). pose proof (so_region _ _ _ Hok). rewrite Hg. cbn [fst snd]. split_and!; try done; lia.
Qed.

Lemma out_slots n es s id s0 :
  mp_inv n es s → in_range n → valid_id nodes id → pool_slab p0 id = Ret (Some s0) →
  NoDup (out id es s) ∧ ∀ p, p ∈ out id es s → p ∈ all_slots s0.
Proof.
  intros I Hn Hv E. destruct (mi_slabs _ _ _ I id s0 Hv E) as [rs [_ F _ _]].
  apply (free_list_out _ _ _ _ _ F); [by eapply slots_few|]. destruct (slab_exists id Hv) as (s1 & free & E1 & Hok & _).
  rewrite E in E1. injection E1 as <-. apply slots_NoDup, (so_size _ _ _ Hok).
Qed.

(** Two slots that are out do not overlap. *)
Lemma out_apart n es s id id' p p' :
  mp_inv n es s → in_range n → valid_id nodes id → valid_id nodes id' → p ∈ out id es s → p' ∈ out id' es s →
  (id = id' → p ≠ p') →
  disjoint_blocks (p, sizeof_nkit_mempool_header_t + class_size id.2) (p', sizeof_nkit_mempool_header_t + class_size id'.2).
Proof.
  intros I Hn Hv Hv' Hp Hp' Hne. destruct (slab_exists id Hv) as (s0 & free & E & Hok & Hsz & Hg).
  destruct (slab_exists id' Hv') as (s0' & free' & E' & Hok' & Hsz' & Hg').
  apply (out_slots n es s id s0 I Hn Hv E) in Hp. apply (out_slots n es s id' s0' I Hn Hv' E') in Hp'.
  assert (Hd : disjoint_blocks (p, slab_obj_size s0) (p', slab_obj_size s0')); [|unfold disjoint_blocks in *; cbn in *; lia].
  destruct (decide (id = id')) as [<-|Hid].
  - rewrite E in E'. injection E' as <-. apply (slab_disjoint s0 free [] p p' Hok); [by rewrite (so_perm _ _ _ Hok)..|auto].
  - pose proof (po_apart _ _ _ _ (pr_ok Ready) id id' Hv Hv' Hid) as Ha.
    destruct (slot_ptr id s0 p Hv E Hp) as (_ & _ & _ & _ & ? & ?). destruct (slot_ptr id' s0' p' Hv' E' Hp') as (_ & _ & _ & _ & ? & ?).
    unfold disjoint_blocks in *. cbn in *. lia.
Qed.

Lemma held_out es s b : b ∈ mp_held s → blk_raw b ∈ out (blk_slab b) es s.
Proof. intros Hb. apply elem_of_app. left. apply raws_elem. eauto. Qed.

Lemma hand_out es s t id raw size :
  mp_threads s !! t = Some (MpHeader id raw size) → raw ∈ out id es s.
Proof.
  intros Ht. apply elem_of_app. right. apply elem_of_app. left. apply elem_of_holdings. exists t, (MpHeader id raw size).
  split; [done|]. cbn. rewrite decide_True by done. by left.
Qed.

(** Held blocks, headers included, do not overlap. *)
Lemma held_disjoint n es s i j b b' :
  mp_inv n es s → in_range n → mp_held s !! i = Some b → mp_held s !! j = Some b' → i ≠ j →
  disjoint_blocks (blk_raw b, sizeof_nkit_mempool_header_t + blk_size b) (blk_raw b', sizeof_nkit_mempool_header_t + blk_size b').
Proof.
  intros I Hn Hi Hj Hne. pose proof (list_elem_of_lookup_2 _ _ _ Hi) as Hb. pose proof (list_elem_of_lookup_2 _ _ _ Hj) as Hb'.
  destruct (mi_held _ _ _ I b Hb) as (Hv & Hs & _). destruct (mi_held _ _ _ I b' Hb') as (Hv' & Hs' & _).
  destruct (slab_exists _ Hv) as (s0 & _ & E & _).
  pose proof (out_apart n es s _ _ _ _ I Hn Hv Hv' (held_out es s b Hb) (held_out es s b' Hb')) as Hd.
  assert (disjoint_blocks (blk_raw b, sizeof_nkit_mempool_header_t + class_size (blk_slab b).2)
    (blk_raw b', sizeof_nkit_mempool_header_t + class_size (blk_slab b').2)) as Hd'; [|unfold disjoint_blocks in *; cbn in *; lia].
  apply Hd. intros Eid Er. destruct (out_slots n es s _ s0 I Hn Hv E) as [Hnd _]. unfold out in Hnd.
  apply NoDup_app in Hnd as (Hnd & _). rewrite (raws_delete _ _ _ _ Hi eq_refl) in Hnd. apply NoDup_cons in Hnd as [Hnd _].
  apply Hnd, raws_elem. exists b'. split; [|by rewrite Eid, Er]. by eapply elem_of_delete_ne.
Qed.

(** ** Each step *)

(** The header of a slot that was in a thread's hands does not touch another. *)
Lemma inv_header n es s t id raw size :
  mp_inv n es s → in_range n → mp_threads s !! t = Some (MpHeader id raw size) →
  mp_inv (S n) (es ++ [MpGot t (raw +w sizeof_nkit_mempool_header_t)])
    (mk_mp (mp_pool s) (<[raw := Some id]> (mp_mem s)) (<[t := MpIdle]> (mp_threads s)) (mk_block raw id size :: mp_held s)).
Proof.
  intros I Hn Ht. destruct (mi_threads _ _ _ I t _ Ht) as [Hv Hsz]. pose proof (hand_out es s t id raw size Ht) as Hraw.
  apply (inv_outside n es s t _ _ _ _ _ I Ht); try done.
  - intros b [->|Hb]%elem_of_cons; [split; cbn; [done|]; split; [done|]; apply lookup_insert_eq|].
    destruct (mi_held _ _ _ I b Hb) as (Hv' & Hs' & Hm). split; [done|]. split; [done|]. rewrite lookup_insert_ne; [done|].
    intros ->. pose proof (out_apart n es s id (blk_slab b) (blk_raw b) (blk_raw b) I Hn Hv Hv' Hraw (held_out es s b Hb)) as Hd.
    assert (Hne : id = blk_slab b → blk_raw b ≠ blk_raw b).
    { intros ->. exfalso. destruct (slab_exists _ Hv) as (s0 & _ & E & _). destruct (out_slots n es s _ s0 I Hn Hv E) as [Hnd _].
      unfold out in Hnd. apply NoDup_app in Hnd as (_ & Hnd & _). apply (Hnd (blk_raw b)); [apply raws_elem; eauto|].
      apply elem_of_app. left. apply elem_of_holdings. exists t, (MpHeader (blk_slab b) (blk_raw b) size).
      split; [done|]. cbn. rewrite decide_True by done. by left. }
    specialize (Hd Hne). unfold disjoint_blocks, sizeof_nkit_mempool_header_t in Hd. cbn [fst snd] in Hd.
    pose proof (class_size_bounds _ (proj2 Hv)). pose proof (class_size_bounds _ (proj2 Hv')). lia.
  - intros id'. cbn [in_hand]. change (lost_at id' [_]) with (@nil Z). unfold raws. cbn [omap list_omap blk_slab blk_raw].
    case_decide; [|by rewrite !app_nil_r]. rewrite !app_nil_r. by rewrite Permutation_app_comm.
Qed.

(** A store into a held block leaves every header as it is. *)
Lemma inv_write n es s i b off :
  mp_inv n es s → in_range n → mp_held s !! i = Some b → 0 ≤ off < blk_size b →
  mp_inv (S n) (es ++ []) (mk_mp (mp_pool s) (clobber (blk_raw b + 8 + off) (mp_mem s)) (mp_threads s) (mp_held s)).
Proof.
  intros I Hn Hi Hoff. apply inv_same; try done. intros b' Hb'. destruct (mi_held _ _ _ I b' Hb') as (Hv & Hs & Hm).
  split; [done|]. split; [done|]. unfold clobber. apply map_lookup_filter_Some. split; [done|]. cbn.
  apply list_elem_of_lookup in Hb' as [j Hj]. destruct (decide (i = j)) as [<-|Hne]; [unfold sizeof_nkit_mempool_header_t; simplify_eq; lia|].
  pose proof (held_disjoint n es s i j b b' I Hn Hi Hj Hne) as Hd.
  unfold disjoint_blocks, sizeof_nkit_mempool_header_t in *. cbn in Hd. lia.
Qed.

(** A thread outside the free-lists may enter any of them. *)
Lemma ring_begins n es s t pc id :
  mp_inv n es s → mp_threads s !! t = Some pc → outside pc → valid_id nodes id →
  ∃ s1 rs, pool_slab (mp_pool s) id = Ret (Some s1) ∧ slab_freelist s1 = rs ∧ rs_threads rs !! t = Some RcIdle.
Proof.
  intros I Ht Ho Hv. destruct (slab_exists id Hv) as (s0 & free & E & _). destruct (mi_slabs _ _ _ I id s0 Hv E) as [rs [E1 _ HF]].
  exists (put_ring s0 rs), rs. split; [done|]. split; [done|]. destruct (Forall2_lookup_l _ _ _ _ _ HF Ht) as (rpc & Hr & Hin).
  by replace RcIdle with rpc by (by destruct pc).
Qed.

Lemma inv_begins n es s t pc id current i size :
  mp_inv n es s → mp_threads s !! t = Some pc → outside pc → (∀ id, in_hand id pc = []) →
  valid_id nodes id → 0 < size ≤ class_size id.2 →
  ∃ pool, alloc_begins s t id current i size = Some (pool, MpPop id current i size) ∧
    mp_inv (S n) (es ++ []) (mk_mp pool (mp_mem s) (<[t := MpPop id current i size]> (mp_threads s)) (mp_held s)).
Proof.
  intros I Ht Ho Hh Hv Hsz. destruct (ring_begins n es s t pc id I Ht Ho Hv) as (s1 & rs & E1 & Er & Hr).
  unfold alloc_begins, slab_ring. rewrite E1. cbn [ring_step]. rewrite Er, Hr. eexists. split; [done|].
  eapply (inv_ring n es s t pc _ id (RcPop t)); try done.
  - unfold slab_ring. rewrite E1. cbn [ring_step]. by rewrite Er, Hr.
  - intros rs1 HF Hs. cbn [ring_step] in Hs. destruct (rs_threads rs1 !! t) as [[]|]; try done. injection Hs as Hs.
    split; [|cbn [in_hand leaving brought]; rewrite Hh; change (lost_at id []) with (@nil Z); by rewrite !app_nil_r].
    exists RcPopStart. split; [|cbn; by rewrite decide_True]. by rewrite <-Hs.
  - intros id' Hne. split; [intros rpc Hin; cbn; rewrite decide_False by done; by destruct pc|].
    cbn [in_hand]. rewrite Hh. done.
  - apply I.
Qed.

Lemma taken_slot n es s t id sp pool rs' u x :
  mp_inv n es s → in_range (S n) → valid_id nodes id →
  slab_ring (mp_pool s) id (RcAdvance t sp) = Some (pool, rs', [Taken u x]) → x ≠ NULL.
Proof.
  intros I Hn Hv Hr. destruct (slab_exists id Hv) as (s0 & free & E & Hok & _). destruct (mi_slabs _ _ _ I id s0 Hv E) as [rs [E1 F _]].
  unfold slab_ring in Hr. rewrite E1 in Hr. cbn [slab_freelist put_ring] in Hr.
  destruct (ring_step rs _) as [[rs1 rev]|] eqn:Es; [|done]. injection Hr as _ -> ->.
  assert (F' : free_list (slab_capacity s0) (all_slots s0) (S (length (all_slots s0) + n)) rs' (out id es s ++ [x]))
    by (eapply free_list_step; [done..|]; cbn [leaving brought]; by rewrite app_nil_r).
  destruct (free_list_out _ _ _ _ _ F') as [_ Hin].
  - rewrite <-Nat.add_succ_r. by eapply slots_few.
  - apply slots_NoDup, (so_size _ _ _ Hok).
  - destruct (slot_ptr id s0 x Hv E) as [? _]; [apply Hin; set_solver|]. unfold NULL. lia.
Qed.

(** The access of a thread inside a pop of the free-list of [id]. *)
Lemma inv_pop n es s t id current i size sp s' ev :
  mp_inv n es s → in_range (S n) → mp_threads s !! t = Some (MpPop id current i size) →
  mp_go s t (MpPop id current i size) sp = Some (s', ev) → mp_inv (S n) (es ++ ev) s'.
Proof.
  intros I Hn Ht Hs. cbn [mp_go] in Hs. destruct (mi_threads _ _ _ I t _ Ht) as [Hv Hsz].
  destruct (slab_ring (mp_pool s) id (RcAdvance t sp)) as [[[pool rs'] rev]|] eqn:Er; [|done].
  assert (Hgo : ∀ pc', fits pc' → outside pc' ∨ pc' = MpPop id current i size →
    (∀ id', id' ≠ id → in_hand id' pc' = []) →
    (∀ rs rpc rpc', rs_threads rs !! t = Some rpc → in_pop rpc → rs_threads rs' = <[t := rpc']> (rs_threads rs) →
       (in_pop rpc' ∧ rev = []) ∨ (rpc' = RcIdle ∧ ((∃ u x, rev = [Taken u x]) ∨ rev = [Empty t])) →
       pc_in id pc' rpc' ∧ leaving rs (RcAdvance t sp) rev ≡ₚ in_hand id pc') →
    mp_inv (S n) (es ++ []) (mk_mp pool (mp_mem s) (<[t := pc']> (mp_threads s)) (mp_held s))).
  { intros pc' Hf Hpc' Hhand Hret. eapply (inv_ring n es s t _ pc' id (RcAdvance t sp)); try done.
    - intros rs HF Hst. destruct (Forall2_lookup_l _ _ _ _ _ HF Ht) as (rpc & Hr & Hin). cbn in Hin. rewrite decide_True in Hin by done.
      destruct (pop_advances rs t rpc sp rs' rev Hr Hin Hst) as (rpc' & Eth & Hcase).
      destruct (Hret rs rpc rpc' Hr Hin Eth Hcase) as [Hin' P]. split; [eauto|].
      change (lost_at id []) with (@nil Z). cbn [in_hand brought]. count_perm.
    - intros id' Hne. rewrite (Hhand id' Hne). split; [|done]. intros rpc Hin. cbn in Hin. rewrite decide_False in Hin by done. subst rpc.
      destruct Hpc' as [?| ->]; [by apply pc_in_outside|]. cbn. by rewrite decide_False.
    - apply I. }
  assert (Htry : fits (MpTry current id.2 i size)) by (split; [apply Hv|done]).
  assert (Hrev : rev = [] ∨ (∃ u x, rev = [Taken u x]) ∨ rev = [Empty t]).
  { destruct (slab_exists id Hv) as (s0 & _ & E & _). destruct (mi_slabs _ _ _ I id s0 Hv E) as [rs [E1 _ HF]].
    unfold slab_ring in Er. rewrite E1 in Er. cbn [slab_freelist put_ring] in Er.
    destruct (ring_step rs _) as [[rs1 rev1]|] eqn:Est; [|done]. injection Er as _ -> ->.
    destruct (Forall2_lookup_l _ _ _ _ _ HF Ht) as (rpc & Hr & Hin). cbn in Hin. rewrite decide_True in Hin by done.
    destruct (pop_advances rs t rpc sp rs' rev Hr Hin Est) as (rpc' & _ & [[_ ?]|[_ ?]]); auto. }
  destruct Hrev as [->|[(u & x & ->)| ->]].
  - injection Hs as <- <-. apply Hgo; [done|by right|done|]. intros rs rpc rpc' _ _ _ [[H _]|[_ [(u & x & H)|H]]]; [|done..].
    split; [cbn; by rewrite decide_True|done].
  - pose proof (taken_slot n es s t id sp pool rs' u x I Hn Hv Er) as Hx. destruct (Z.eqb_spec x NULL); [done|].
    injection Hs as <- <-. apply Hgo; [done|by left| |].
    + intros id' Hne. cbn. by rewrite decide_False.
    + intros rs rpc rpc' _ _ _ [[_ H]|[-> _]]; [done|]. split; [done|]. cbn. by rewrite decide_True.
  - injection Hs as <- <-. apply Hgo; [done|by left|done|]. intros rs rpc rpc' _ _ _ [[_ H]|[-> _]]; done.
Qed.

(** The access of a thread inside a push. *)
Lemma inv_push n es s t id header sp s' ev :
  mp_inv n es s → mp_threads s !! t = Some (MpPush id header) →
  mp_go s t (MpPush id header) sp = Some (s', ev) → mp_inv (S n) (es ++ ev) s'.
Proof.
  intros I Ht Hs. cbn [mp_go] in Hs. pose proof (mi_threads _ _ _ I t _ Ht) as Hv.
  destruct (slab_ring (mp_pool s) id (RcAdvance t sp)) as [[[pool rs'] rev]|] eqn:Er; [|done].
  injection Hs as <- <-. eapply (inv_ring n es s t _ _ id (RcAdvance t sp)); try done.
  - by repeat case_match.
  - intros rs HF Hst. destruct (Forall2_lookup_l _ _ _ _ _ HF Ht) as (rpc & Hr & Hin). cbn in Hin. rewrite decide_True in Hin by done.
    assert (Hlt : (t < length (rs_threads rs))%nat) by by eapply lookup_lt_Some.
    destruct (push_advances rs t header rpc sp rs' rev Hr Hin Hst) as (rpc' & Eth & Hcase). rewrite Eth, list_lookup_insert_eq by done.
    destruct Hcase as [(Hin' & -> & Hnf)|[-> Hcase]].
    + assert (E : (match rpc' with RcIdle => MpIdle | _ => MpPush id header end) = MpPush id header) by (by destruct rpc').
      rewrite E. split; [exists rpc'; split; [done|]; cbn; by rewrite decide_True|].
      assert (El : lost_at id (match rev with [Full _] => [MpLost t id header] | _ => [] end) = [])
        by (by destruct Hnf as [-> | ->]).
      by rewrite El.
    + split; [by exists RcIdle|]. destruct Hcase as [[-> ->]|[-> ->]]; [done|].
      cbn [in_hand brought]. unfold lost_at. cbn. by rewrite decide_True.
  - intros id' Hne. split.
    + intros rpc Hin. cbn in Hin. rewrite decide_False in Hin by done. subst rpc.
      repeat case_match; try done; cbn; by rewrite decide_False.
    + assert (El : lost_at id' (match rev with [Full _] => [MpLost t id header] | _ => [] end) = []).
      { destruct rev as [|[| |u|] [|]]; try done. unfold lost_at. cbn. by rewrite decide_False. }
      rewrite El. by repeat case_match.
  - apply I.
Qed.

(** A free of a held block finds its header and enters the free-list it names. *)
Lemma inv_free n es s t i b :
  mp_inv n es s → in_range n → mp_threads s !! t = Some MpIdle → mp_held s !! i = Some b →
  ∃ pool, mp_step s (MpFree t i) =
      Some (mk_mp pool (mp_mem s) (<[t := MpPush (blk_slab b) (blk_raw b)]> (mp_threads s)) (delete i (mp_held s)), []) ∧
    mp_inv (S n) (es ++ [])
      (mk_mp pool (mp_mem s) (<[t := MpPush (blk_slab b) (blk_raw b)]> (mp_threads s)) (delete i (mp_held s))).
Proof.
  intros I Hn Ht Hi. pose proof (list_elem_of_lookup_2 _ _ _ Hi) as Hb. destruct (mi_held _ _ _ I b Hb) as (Hv & Hsz & Hm).
  destruct (slab_exists _ Hv) as (s0 & free & E & _). destruct (out_slots n es s _ s0 I Hn Hv E) as [_ Hin].
  destruct (slot_ptr _ s0 _ Hv E (Hin _ (held_out es s b Hb))) as (Hp & Hp' & _ & Hobj & _). unfold sizeof_nkit_mempool_header_t in *.
  destruct (ring_begins n es s t _ _ I Ht Logic.I Hv) as (s1 & rs & E1 & Er & Hr).
  cbn [mp_step]. rewrite Ht, Hi. unfold sizeof_nkit_mempool_header_t, NULL. rewrite !u64_small by (unfold is_u64; lia).
  rewrite (proj2 (Z.eqb_neq _ 0)) by lia. replace (blk_raw b + 8 - 8) with (blk_raw b) by lia. rewrite Hm, E1.
  rewrite (proj2 (Z.eqb_neq _ 0)) by lia. unfold slab_ring. rewrite E1. cbn [ring_step]. rewrite Er, Hr.
  eexists. split; [done|]. eapply (inv_ring n es s t MpIdle _ (blk_slab b) (RcPush t (blk_raw b))); try done.
  - unfold slab_ring. rewrite E1. cbn [ring_step]. by rewrite Er, Hr.
  - intros rs1 HF Hs. cbn [ring_step] in Hs. destruct (rs_threads rs1 !! t) as [[]|]; try done. injection Hs as Hs. split.
    + exists (RcPushStart (blk_raw b)). split; [by rewrite <-Hs|]. cbn. by rewrite decide_True.
    + cbn [in_hand leaving brought]. change (lost_at _ []) with (@nil Z). rewrite !app_nil_r. cbn [app].
      rewrite (raws_delete _ _ _ _ Hi eq_refl). by rewrite Permutation_cons_append.
  - intros id' Hne. split; [intros rpc ->; cbn; by rewrite decide_False|]. cbn [in_hand]. change (lost_at _ []) with (@nil Z).
    rewrite !app_nil_r. by rewrite (raws_delete_ne id' _ i b).
  - intros b' Hb'. apply I. rewrite (delete_Permutation _ i b Hi). by right.
Qed.

(** Sizes are of type [size_t]. *)
Definition mp_ok (l : mp_label) : Prop := match l with MpAlloc _ _ size => 0 ≤ size | _ => True end.

Lemma home_valid pool node : pool_num_nodes pool = nodes → Z.of_nat (home (Q := ring_state) pool node) < nodes.
Proof. pose proof (po_nodes _ _ _ _ (pr_ok Ready)) as H. fold nodes in H. intros E. unfold home. rewrite E. cmp_cases; lia. Qed.

(** The start of an allocation, on every branch. *)
Lemma inv_alloc n es s t node size :
  mp_inv n es s → mp_threads s !! t = Some MpIdle → 0 ≤ size →
  ∃ s' ev, mp_step s (MpAlloc t node size) = Some (s', ev) ∧ mp_inv (S n) (es ++ ev) s'.
Proof.
  intros I Ht H0. cbn [mp_step]. rewrite Ht. change (List.last SIZE_CLASSES 0) with 16384.
  assert (Hnull : mp_inv (S n) (es ++ [MpNull t]) s) by (pose proof (inv_same n es s (mp_mem s) [MpNull t] I (mi_held _ _ _ I) (λ _, eq_refl)); by destruct s).
  destruct (Z.eqb_spec size 0); [by eauto|]. destruct (Z.ltb_spec 16384 size); [by eauto|].
  destruct (find_class_ok size ltac:(lia)) as (sc & -> & Hsc & Hfit & _).
  destruct (inv_begins n es s t MpIdle (home (mp_pool s) node, sc) (home (mp_pool s) node) 0 size I Ht)
    as (pool & -> & I'); try done; [|cbn [snd]; lia|by eauto]. split; [|done]. apply home_valid, I.
Qed.

Lemma inv_try n es s t current sc i size sp :
  mp_inv n es s → mp_threads s !! t = Some (MpTry current sc i size) →
  ∃ s' ev, mp_go s t (MpTry current sc i size) sp = Some (s', ev) ∧ mp_inv (S n) (es ++ ev) s'.
Proof.
  intros I Ht. destruct (mi_threads _ _ _ I t _ Ht) as [Hsc Hsz]. cbn [mp_go]. rewrite (mi_nodes _ _ _ I).
  destruct (Z.ltb_spec (Z.of_nat i) nodes) as [Hi|].
  - case_decide.
    + do 2 eexists. split; [done|]. by apply (inv_outside n es s t _ _ _ _ _ I Ht); [..|apply I|].
    + destruct (inv_begins n es s t _ (i, sc) current (S i) size I Ht) as (pool & -> & I'); try done. by eauto.
  - do 2 eexists. split; [done|]. by apply (inv_outside n es s t _ _ _ _ _ I Ht); [..|apply I|].
Qed.

Lemma mp_inv_step n es s l s' ev :
  mp_ok l → mp_inv n es s → in_range (S n) → mp_step s l = Some (s', ev) → mp_inv (S n) (es ++ ev) s'.
Proof.
  intros Hl I Hn Hs. assert (Hn' : in_range n) by (unfold in_range in *; lia).
  destruct l as [t node size|t i|i off|t sp].
  - assert (Ht : mp_threads s !! t = Some MpIdle) by (cbn [mp_step] in Hs; by destruct (mp_threads s !! t) as [[]|]).
    destruct (inv_alloc n es s t node size I Ht Hl) as (s1 & ev1 & E & I'). rewrite Hs in E. by simplify_eq.
  - assert (Ht : mp_threads s !! t = Some MpIdle ∧ ∃ b, mp_held s !! i = Some b) by (cbn [mp_step] in Hs; destruct (mp_threads s !! t) as [[]|], (mp_held s !! i); eauto; done).
    destruct Ht as [Ht [b Hb]]. destruct (inv_free n es s t i b I Hn' Ht Hb) as (pool & E & I'). rewrite Hs in E. by simplify_eq.
  - cbn [mp_step] in Hs. destruct (mp_held s !! i) as [b|] eqn:Hi; [|done].
    destruct ((0 <=? off) && (off <? blk_size b)) eqn:Eo; [|done]. injection Hs as <- <-.
    apply (inv_write n es s i b off I Hn' Hi). cmp_cases; try done; lia.
  - cbn [mp_step] in Hs. destruct (mp_threads s !! t) as [pc|] eqn:Ht; [|done].
    destruct pc as [|current sc i size|id current i size|id raw size|id header].
    + done.
    + destruct (inv_try n es s t current sc i size sp I Ht) as (s1 & ev1 & E & I'). rewrite Hs in E. by simplify_eq.
    + by eapply inv_pop.
    + injection Hs as <- <-. by apply inv_header.
    + by eapply inv_push.
Qed.

(** A thread inside a call always has a next access. *)
Lemma mp_enabled n es s t pc sp :
  mp_inv n es s → in_range n → mp_threads s !! t = Some pc → pc ≠ MpIdle → is_Some (mp_step s (MpGo t sp)).
Proof.
  intros I Hn Ht Hpc. cbn [mp_step]. rewrite Ht.
  assert (Hring : ∀ id, valid_id nodes id → (∀ rpc, pc_in id pc rpc → rpc ≠ RcIdle) →
    is_Some (slab_ring (mp_pool s) id (RcAdvance t sp))).
  { intros id Hv Hidle. destruct (slab_exists id Hv) as (s0 & _ & E & _). destruct (mi_slabs _ _ _ I id s0 Hv E) as [rs [E1 F HF HC]].
    destruct (Forall2_lookup_l _ _ _ _ _ HF Ht) as (rpc & Hr & Hin). unfold slab_ring. rewrite E1. cbn [slab_freelist put_ring].
    destruct (free_list_enabled _ _ _ _ _ t rpc sp F ltac:(by eapply slots_few) Hr (Hidle _ Hin)) as [[rs' ev] ->]. done. }
  pose proof (mi_threads _ _ _ I t _ Ht) as Hf. destruct pc as [|current sc i size|id current i size|id raw size|id header]; try done.
  - destruct (inv_try n es s t current sc i size sp I Ht) as (s1 & ev1 & -> & _). done.
  - destruct (Hring id) as [[[pool rs] ev] E]; [apply Hf|intros rpc Hin; cbn in Hin; rewrite decide_True in Hin by done; by destruct rpc|].
    cbn [mp_go]. rewrite E. by repeat case_match.
  - destruct (Hring id) as [[[pool rs] ev] E]; [apply Hf|intros rpc Hin; cbn in Hin; rewrite decide_True in Hin by done; by destruct rpc|].
    cbn [mp_go]. by rewrite E.
Qed.

(** ** The start *)

Lemma start_slab n id s0 :
  pool_slab p0 id = Ret (Some s0) → pool_slab (mp_pool (mp_start p0 n)) id = Ret (Some (shared_slab n s0)).
Proof.
  unfold pool_slab, mp_start. cbn [mp_pool pool_nodes]. rewrite list_lookup_fmap. destruct (pool_nodes p0 !! id.1) as [nd|]; [|done].
  cbn [fmap option_fmap option_map shared_node node_slabs]. rewrite list_lookup_fmap. destruct (node_slabs nd !! id.2) as [[s1|]|]; try done.
  by intros [= ->].
Qed.

Lemma mp_start_inv n : mp_inv 0 [] (mp_start p0 n).
Proof.
  split; [done| |by intros b Hb%not_elem_of_nil|].
  2:{ intros t pc [-> _]%lookup_replicate. done. }
  intros id s0 Hv E. destruct (slab_exists id Hv) as (s1 & free & E1 & Hok & _). rewrite E in E1. injection E1 as <-.
  destruct (pr_new Ready id s0 Hv E) as [Htl Hc]. exists (mk_rs (slab_freelist s0) (replicate n RcIdle)). split.
  - by apply start_slab.
  - destruct (so_rep _ _ _ Hok) as [T HT]. pose proof (ring_at_zero T _ _ HT Htl) as H0. pose proof (ring_at_pow2 _ _ _ H0) as (k & Hk & Ek).
    pose proof (so_cap _ _ _ Hok) as Ec. cbn [bq_cap ring_queue] in Ec. pose proof (so_perm _ _ _ Hok) as P. rewrite app_nil_r in P.
    assert (k ≤ 58) by (apply (Z.pow_le_mono_r_iff 2); lia). rewrite <-Ec, Ek.
    assert (Eo : out id [] (mp_start p0 n) = []) by (unfold out; cbn; by rewrite holdings_replicate). rewrite Eo.
    apply (free_list_start k _ free); [lia|done|done| |done]. unfold all_slots. rewrite <-(Permutation_length P). lia.
  - cbn [mp_threads rs_threads mp_start]. apply Forall2_replicate. done.
  - apply (so_cap _ _ _ Hok).
Qed.

Lemma mp_run threads sched s es :
  Forall mp_ok sched → in_range (length sched) → traced mp_step (mp_start p0 threads) sched = Some (s, es) →
  mp_inv (length sched) es s.
Proof.
  intros Hok Hn Hr. revert Hn.
  refine (traced_invariant_on mp_step mp_ok (λ n es s, in_range n → mp_inv n es s) _ _ _ sched s es Hok Hr).
  - intros _. apply mp_start_inv.
  - intros n es0 s0 l s1 es1 Hl I Hs Hn. apply (mp_inv_step n es0 s0 l s1 es1); try done. apply I. unfold in_range in *. lia.
Qed.
End pool.

(** A pool as [nkit_mempool_create] returns it. *)
Lemma created_ready {M} spurious oss (ctx : nkit_context_t M) malloc_ok pool calls :
  let nodes := Z.min MAX_NODES (ctx_num_nodes ctx) in
  1 ≤ ctx_num_nodes ctx → (∀ id, valid_id nodes id → ArenaOS_ok (oss (Z.of_nat id.1) id.2)) →
  (∀ id id' a a', valid_id nodes id → valid_id nodes id' → id ≠ id' →
     slab_arena_of oss id = Some a → slab_arena_of oss id' = Some a' →
     disjoint_blocks (arena_base a, arena_size a) (arena_base a', arena_size a')) →
  nkit_mempool_create spurious oss ctx malloc_ok = Ret (Some pool, calls) → pool_ready spurious (pool_geo pool) pool.
Proof.
  intros nodes Hn Hos Ha E. pose proof (mempool_create_sound spurious oss ctx malloc_ok Hn Hos Ha) as H.
  rewrite E in H. destruct H as (_ & En & Hb & Hok). split; [done|]. intros id s Hv Es. rewrite En in Hv.
  destruct (Hb id Hv) as (s1 & a & free & Es1 & _ & _ & Hc & _ & _ & _ & Ht). rewrite Es in Es1. injection Es1 as <-.
  split; [done|]. rewrite Hc. by vm_compute.
Qed.

(** ** Properties *)

(** When nobody is inside a call, the free-list of a slab has the slots that are
    neither held nor lost. *)
Lemma mp_rest spurious geo pool n es s id s0 :
  pool_ready spurious geo pool → mp_inv pool n es s → in_range n →
  (∀ t pc, mp_threads s !! t = Some pc → pc = MpIdle) →
  valid_id (pool_num_nodes pool) id → pool_slab pool id = Ret (Some s0) →
  ∃ rs q, pool_slab (mp_pool s) id = Ret (Some (put_ring s0 rs)) ∧ ring_rep (rs_ring rs) q ∧
    q ++ raws id (mp_held s) ++ lost_at id es ≡ₚ all_slots s0.
Proof.
  intros R I Hn Hidle Hv E. destruct (mi_slabs _ _ _ _ I id s0 Hv E) as [rs [E1 F HF HC]]. exists rs.
  destruct (free_list_rest _ _ _ _ _ F ltac:(by eapply slots_few)) as (q & Hq & P); [|done|].
  { intros t rpc Ht. destruct (Forall2_lookup_r _ _ _ _ _ HF Ht) as (pc & Hpc & Hin). by rewrite (Hidle t pc Hpc) in Hin. }
  exists q. split; [done|]. split; [done|]. unfold out in P. rewrite (holdings_none _ (mp_threads s)) in P; [done|].
  intros pc [t Ht]%list_elem_of_lookup. by rewrite (Hidle t pc Ht).
Qed.

(** A block is lost. *)
Lemma mp_loses spurious geo pool n es s l s' ev t id raw :
  pool_ready spurious geo pool → mp_inv pool n es s → in_range n →
  mp_step s l = Some (s', ev) → MpLost t id raw ∈ ev →
  ∃ s0 rs, pool_slab (mp_pool s) id = Ret (Some (put_ring s0 rs)) ∧
    0 ≤ ring_head (rs_ring rs) - ring_tail (rs_ring rs) < slab_capacity s0 ∧
    ∃ t' pc, t' ≠ t ∧ rs_threads rs !! t' = Some pc ∧ pop_claim pc = Some (ring_head (rs_ring rs) - slab_capacity s0).
Proof.
  intros R I Hn Hs Hlost.
  assert (Hgo : ∃ sp header, l = MpGo t sp ∧ mp_threads s !! t = Some (MpPush id header) ∧
    ∃ p rs' v, slab_ring (mp_pool s) id (RcAdvance t sp) = Some (p, rs', [Full v])).
  { destruct l as [u node size|u i|i off|u sp]; cbn [mp_step] in Hs.
    1-3: repeat case_match; simplify_eq; rewrite ?list_elem_of_singleton in Hlost; try done; by apply not_elem_of_nil in Hlost.
    destruct (mp_threads s !! u) as [pc|] eqn:Hu; [|done].
    destruct pc as [|current sc i size|id' current i size|id' raw' size|id' header]; cbn [mp_go] in Hs; [done|..].
    1-3: repeat case_match; simplify_eq; rewrite ?list_elem_of_singleton in Hlost; try done; by apply not_elem_of_nil in Hlost.
    destruct (slab_ring (mp_pool s) id' (RcAdvance u sp)) as [[[p rs'] rev]|] eqn:Er; [|done]. injection Hs as <- <-.
    destruct rev as [|[x|q x|v|v] [|]]; try (by apply not_elem_of_nil in Hlost).
    apply list_elem_of_singleton in Hlost as [= -> -> ->]. exists sp, header. split; [done|]. split; [done|]. eauto. }
  destruct Hgo as (sp & header & _ & Ht & p & rs' & v & Er). pose proof (mi_threads _ _ _ _ I t _ Ht) as Hv. cbn in Hv.
  destruct (slab_exists _ _ _ R id Hv) as (s0 & free & E & Hok & _). destruct (mi_slabs _ _ _ _ I id s0 Hv E) as [rs [E1 F HF HC]].
  exists s0, rs. split; [done|]. unfold slab_ring in Er. rewrite E1 in Er. cbn [slab_freelist put_ring] in Er.
  destruct (ring_step rs (RcAdvance t sp)) as [[rs1 rev]|] eqn:Hst; [|done]. injection Er as _ -> ->.
  pose proof (slab_cap_nonneg _ _ _ Hok).
  apply (free_list_refuses _ _ _ _ _ t sp rs' v F); [by eapply slots_few| |done].
  unfold all_slots. rewrite slots_length. lia.
Qed.

(** C10. Allocation by many threads, from a pool all of whose slots are free (as
    creation leaves it).  In every interleaving of allocations, frees and client
    stores into held blocks (fewer than 2^61 steps): the blocks held, headers
    included, are pairwise disjoint; each has the size asked for, an address 8 past
    a cache line and an intact header that names its own slab; no call gets stuck,
    a free of a held block least of all.  At every moment every slot of every slab is
    in exactly one place: on that slab's own free-list, in the hands of a thread
    inside a call on it, held by a client, or lost.  When all calls have returned, each
    slab's free-list is a well-formed ring of exactly its own slots that are neither
    held nor lost.  A free loses its block only when its push is refused, which
    happens only while another thread's allocation from the same slab has claimed the
    oldest cell of the free-list and not given it back; the free-list has room then. *)
Theorem mempool_conc_blocks spurious geo pool threads sched s es :
  pool_ready spurious geo pool → Forall mp_ok sched → Z.of_nat (length sched) < 2 ^ 61 →
  traced mp_step (mp_start pool threads) sched = Some (s, es) →
  (∀ i j b b', mp_held s !! i = Some b → mp_held s !! j = Some b' → i ≠ j →
     disjoint_blocks (blk_raw b, 8 + blk_size b) (blk_raw b', 8 + blk_size b')) ∧
  (∀ b, b ∈ mp_held s → mp_mem s !! blk_raw b = Some (Some (blk_slab b)) ∧ (64 | blk_raw b) ∧
     0 < blk_size b ≤ class_size (blk_slab b).2 ∧ (geo (blk_slab b)).1 ≤ blk_raw b ∧
     blk_raw b + 8 + blk_size b ≤ (geo (blk_slab b)).1 + (geo (blk_slab b)).2) ∧
  (∀ t pc sp, mp_threads s !! t = Some pc → pc ≠ MpIdle → is_Some (mp_step s (MpGo t sp))) ∧
  (∀ t i, mp_threads s !! t = Some MpIdle → is_Some (mp_held s !! i) → is_Some (mp_step s (MpFree t i))) ∧
  (∀ id s0, valid_id (pool_num_nodes pool) id → pool_slab pool id = Ret (Some s0) →
     ∃ rs waiting inside, pool_slab (mp_pool s) id = Ret (Some (put_ring s0 rs)) ∧
       waiting ++ inside ++ raws id (mp_held s) ++ holdings (in_hand id) (mp_threads s) ++ lost_at id es ≡ₚ all_slots s0 ∧
       Z.of_nat (length waiting) = ring_head (rs_ring rs) - ring_tail (rs_ring rs) ∧
       length inside = length (filter (λ pc, carrying pc = true) (rs_threads rs))) ∧
  ((∀ t pc, mp_threads s !! t = Some pc → pc = MpIdle) →
     ∀ id s0, valid_id (pool_num_nodes pool) id → pool_slab pool id = Ret (Some s0) →
     ∃ rs q, pool_slab (mp_pool s) id = Ret (Some (put_ring s0 rs)) ∧ ring_rep (rs_ring rs) q ∧
       q ++ raws id (mp_held s) ++ lost_at id es ≡ₚ all_slots s0) ∧
  (∀ l s' ev t id raw, mp_step s l = Some (s', ev) → MpLost t id raw ∈ ev →
     ∃ s0 rs, pool_slab (mp_pool s) id = Ret (Some (put_ring s0 rs)) ∧
       0 ≤ ring_head (rs_ring rs) - ring_tail (rs_ring rs) < slab_capacity s0 ∧
       ∃ t' pc, t' ≠ t ∧ rs_threads rs !! t' = Some pc ∧
         pop_claim pc = Some (ring_head (rs_ring rs) - slab_capacity s0)).
Proof.
  intros R Hok Hn Hr. pose proof (mp_run spurious geo pool R threads sched s es Hok Hn Hr) as I. split_and!.
  - intros i j b b'. apply (held_disjoint spurious geo pool R _ _ s i j b b' I Hn).
  - intros b Hb. destruct (mi_held _ _ _ _ I b Hb) as (Hv & Hs & Hm). destruct (slab_exists _ _ _ R _ Hv) as (s0 & _ & E & _).
    destruct (out_slots _ _ _ R _ _ _ _ s0 I Hn Hv E) as [_ Hin].
    destruct (slot_ptr _ _ _ R _ s0 _ Hv E (Hin _ (held_out es s b Hb))) as (_ & _ & ? & ? & ? & ?).
    unfold sizeof_nkit_mempool_header_t in *. split_and!; try done; lia.
  - intros t pc sp. apply (mp_enabled spurious geo pool R _ es s t pc sp I Hn).
  - intros t i Ht [b Hb]. destruct (inv_free spurious geo pool R _ es s t i b I Hn Ht Hb) as (p & -> & _). done.
  - intros id s0 Hv E. destruct (mi_slabs _ _ _ _ I id s0 Hv E) as [rs [E1 F HF HC]].
    destruct (free_list_places _ _ _ _ _ F ltac:(by eapply slots_few)) as (waiting & inside & P & Hw & Hi).
    exists rs, waiting, inside. by split_and!.
  - intros Hidle id s0. by apply (mp_rest spurious geo pool (length sched)).
  - intros l s' ev t id raw. by apply (mp_loses spurious geo pool (length sched) es).
Qed.

(** ** A concrete pool *)

(** Two nodes, slabs of two slots each. *)
Definition demo_small_slab (id : slab_id) : option (nkit_slab_t nkit_ring_t) :=
  match nkit_slab_create 0 (demo_pool_os (Z.of_nat id.1) id.2) (Z.of_nat id.1) (8 + class_size id.2) 2 with
  | Ret (s, _) => s
  | UB => None
  end.

Definition demo_small_pool : nkit_mempool_t nkit_ring_t :=
  mk_pool 2 ((λ n, mk_pool_node (Z.of_nat n) ((λ k, demo_small_slab (n, k)) <$> seq 0 NUM_SIZE_CLASSES)) <$> seq 0 2).

Lemma demo_small_slab_ok id : valid_id 2 id →
  ∃ s free, pool_slab demo_small_pool id = Ret (Some s) ∧ slab_ok (BQ := ring_queue 0) s free [] ∧
    slab_base s = 2 ^ 30 * (1 + 16 * Z.of_nat id.1 + Z.of_nat id.2) + 64 ∧ slab_capacity s = 2 ∧
    8 + class_size id.2 ≤ slab_obj_size s < 2 ^ 20 ∧ ring_tail (slab_freelist s) = 0.
Proof.
  intros Hv. pose proof Hv as [Hn Hk]. pose proof (class_size_bounds _ Hk) as Hc.
  assert (E : pool_slab demo_small_pool id = Ret (demo_small_slab id)).
  { destruct id as [n k]. cbn [fst snd] in *. unfold pool_slab, demo_small_pool. cbn [fst snd pool_nodes].
    rewrite list_lookup_fmap, lookup_seq_lt by lia. cbn [fmap option_fmap option_map node_slabs].
    rewrite list_lookup_fmap, lookup_seq_lt by lia. done. }
  assert (Hbase : match demo_small_slab id with
    | Some s => slab_base s = 2 ^ 30 * (1 + 16 * Z.of_nat id.1 + Z.of_nat id.2) + 64
    | None => False end).
  { destruct id as [n k]. cbn [fst snd] in *. unfold NUM_SIZE_CLASSES in Hk.
    do 2 (destruct n as [|n]; [do 10 (destruct k as [|k]; [by vm_compute|]); lia|]). lia. }
  rewrite E. unfold demo_small_slab in *.
  destruct (cache_aligned_bounds (8 + class_size id.2)) as [Hcb _]; [lia|].
  pose proof (slab_create_spec 0 (demo_pool_os (Z.of_nat id.1) id.2) (Z.of_nat id.1) (8 + class_size id.2) 2 _
    ltac:(lia) ltac:(lia) ltac:(unfold slab_bytes; lia)) as H.
  pose proof (slab_create_tail 0 (demo_pool_os (Z.of_nat id.1) id.2) (Z.of_nat id.1) (8 + class_size id.2) 2) as Ht.
  destruct (nkit_slab_create _ _ _ _ _) as [[[s|] calls]|]; [|done..].
  destruct H as (_ & Hok & Ec & Es & _). do 2 eexists. split; [done|]. split; [exact Hok|]. rewrite Es.
  split_and!; try done; try lia. by apply (Ht s calls).
Qed.

Lemma demo_small_ready : pool_ready 0 (pool_geo demo_small_pool) demo_small_pool.
Proof.
  split; [split; [done| | |by intros b Hb%not_elem_of_nil]|].
  - intros id Hv. destruct (demo_small_slab_ok id Hv) as (s & free & E & Hok & _ & _ & Hsz & _). exists s, free.
    unfold pool_geo, sizeof_nkit_mempool_header_t. rewrite E. split_and!; try done. lia.
  - intros id id' Hv Hv' Hne. destruct (demo_small_slab_ok id Hv) as (s & _ & E & _ & Hb & Hc & Hsz & _).
    destruct (demo_small_slab_ok id' Hv') as (s' & _ & E' & _ & Hb' & Hc' & Hsz' & _). unfold pool_geo. rewrite E, E', Hb, Hb', Hc, Hc'.
    destruct Hv as [Hi Hk], Hv' as [Hi' Hk'], id as [i k], id' as [i' k'].
    unfold disjoint_blocks, NUM_SIZE_CLASSES in *. cbn [fst snd pool_num_nodes demo_small_pool] in *.
    assert (Hd : i ≠ i' ∨ k ≠ k') by (destruct (decide (i = i')); [right; congruence|by left]). lia.
  - intros id s Hv E. destruct (demo_small_slab_ok id Hv) as (s1 & free & E1 & _ & _ & Hc & _ & Ht). rewrite E in E1. injection E1 as <-.
    split; [done|]. rewrite Hc. lia.
Qed.

(** Two threads on node 0 take its two slots of 40 bytes at the same time; the
    third request goes to node 1; a store; thread 1 frees what thread 0 got there. *)
Definition demo_pool_sched : list mp_label :=
  [MpAlloc 0 0 30; MpAlloc 1 0 32] ++ concat (replicate 6 [MpGo 0 false; MpGo 1 false]) ++
  [MpGo 1 false; MpGo 1 false; MpAlloc 0 0 20] ++ replicate 10 (MpGo 0 false) ++ [MpWrite 0 19; MpFree 1 0] ++ replicate 5 (MpGo 1 false).

Lemma mempool_conc_blocks_witness :
  match traced mp_step (mp_start demo_small_pool 2) demo_pool_sched with
  | Some (s, es) => es = [MpGot 0 1073741896; MpGot 1 1073741960; MpGot 0 18253611080] ∧
      disjoint_blocks (1073741952, 8 + 32) (1073741888, 8 + 30) ∧
      ∃ s0 rs q, pool_slab (mp_pool s) (1%nat, 0%nat) = Ret (Some (put_ring s0 rs)) ∧
        ring_rep (rs_ring rs) q ∧ q ≡ₚ all_slots s0
  | None => False
  end.
Proof.
  destruct (traced _ _ demo_pool_sched) as [[s es]|] eqn:E; [|by vm_compute in E].
  assert (Hok : Forall mp_ok demo_pool_sched) by (repeat (apply Forall_cons; split; [first [exact I|cbn; lia]|]); done).
  assert (Hv : valid_id 2 (1%nat, 0%nat)) by (split; cbn; unfold NUM_SIZE_CLASSES; lia).
  destruct (demo_small_slab_ok _ Hv) as (s0 & free & E0 & _ & _ & Hc & _).
  destruct (mempool_conc_blocks 0 (pool_geo demo_small_pool) demo_small_pool 2 demo_pool_sched s es demo_small_ready Hok
    ltac:(by vm_compute) E) as (Hd & _ & _ & _ & _ & Hrest & _).
  vm_compute in E. injection E as <- <-. split; [done|]. split; [exact (Hd 0%nat 1%nat _ _ eq_refl eq_refl ltac:(done))|].
  destruct (Hrest ltac:(by intros [|[|t]] pc [= <-]) _ s0 Hv E0) as (rs & q & E1 & Hq & P). exists s0, rs, q.
  split; [done|]. split; [done|]. by rewrite <-P, app_nil_r.
Defined.
