(* ===== verification/Pages.v ===== *)
(** * Pages: migration and the huge page size
    (src/memory/migrate.c, src/memory/hugepage_ops.c)

    [nkit_memory_migrate] turns a range of bytes into the pages that hold it and
    asks the kernel to move them.  [_nkit_get_hugepage_size] reads a number from
    the text of /proc/meminfo; the text is the parameter, and the C library's
    [fgets], [strncmp] and [sscanf] are modelled on it. *)

From stdpp Require Import prelude strings.
From Stdlib Require Import ZArith Lia Ascii.
From S2P Require Import Prelude Words.
Local Open Scope Z_scope.
Local Open Scope word_scope.

(** ** Migration (migrate.c) *)

Definition MPOL_BIND : Z := 2.
Definition MPOL_MF_MOVE : Z := 2.
Definition MIGRATE_EINVAL : Z := 22.

(** The arguments of one call of [mbind]; a mask of nodes is an integer. *)
Record mbind_args := mk_mbind {
  mb_addr : Z;
  mb_len : Z;
  mb_mode : Z;
  mb_nodemask : Z;
  mb_maxnode : Z;
  mb_flags : Z;
}.

(** libnuma and the kernel: [mo_nodemask n] is a fresh mask after setting bit
    [n], [mo_mask_size] its size in bits, [mo_mbind] the result of the call. *)
Record migrate_os := {
  mo_available : Z;
  mo_max_node : Z;
  mo_page_size : Z;
  mo_nodemask : Z → Z;
  mo_mask_size : Z;
  mo_mbind : mbind_args → Z;
}.

(** The return value, the value the function itself stores to [errno], and the
    call it makes. *)
Definition nkit_memory_migrate (os : migrate_os) (ptr size target_node : Z)
    : Z * option Z * option mbind_args :=
  if (mo_available os <? 0) || (mo_max_node os <? target_node) then (-1, Some MIGRATE_EINVAL, None) else
  let page_size := mo_page_size os in
  let uptr := ptr in
  let aligned_ptr := Z.land uptr (not64 (page_size - 1)) in
  let offset := uptr -w aligned_ptr in
  let aligned_size := size +w offset in
  let args := mk_mbind aligned_ptr aligned_size MPOL_BIND (mo_nodemask os target_node)
                (mo_mask_size os + 1) MPOL_MF_MOVE in
  let ret := mo_mbind os args in
  if negb (ret =? 0) then (-1, None, Some args) else (0, None, Some args).

(** C40. The pages asked for are the ones that hold the block: for a page size
    that is a power of two and a block inside the address space, the range starts
    at the page of the first byte and ends at the last byte of the block; the
    result is the kernel's, and an unknown node is refused without a call. *)
Theorem migrate_covers os ptr size node j :
  0 ≤ j ≤ 63 → mo_page_size os = 2 ^ j → 0 ≤ ptr → 0 ≤ size → ptr + size < 2 ^ 64 →
  let r := nkit_memory_migrate os ptr size node in
  (mo_available os < 0 ∨ mo_max_node os < node → r = (-1, Some MIGRATE_EINVAL, None)) ∧
  (0 ≤ mo_available os → node ≤ mo_max_node os → ∃ args,
     r.2 = Some args ∧ (r.1.1 = if mo_mbind os args =? 0 then 0 else -1) ∧
     mb_nodemask args = mo_nodemask os node ∧
     (2 ^ j | mb_addr args) ∧ ptr - 2 ^ j < mb_addr args ≤ ptr ∧
     mb_addr args + mb_len args = ptr + size).
Proof.
  intros Hj Hps Hp Hs Hend. cbn zeta. unfold nkit_memory_migrate. split.
  { intros H. destruct (Z.ltb_spec (mo_available os) 0); [done|].
    destruct (Z.ltb_spec (mo_max_node os) node); [done|lia]. }
  intros Ha Hn. destruct (Z.ltb_spec (mo_available os) 0); [lia|].
  destruct (Z.ltb_spec (mo_max_node os) node); [lia|]. cbn [orb]. rewrite Hps.
  assert (Eal : Z.land ptr (not64 (2 ^ j - 1)) = ptr - ptr mod 2 ^ j).
  { rewrite land_not64_mask by (unfold is_u64; lia). reflexivity. }
  rewrite Eal. assert (0 < 2 ^ j) by lia. pose proof (Z.mod_pos_bound ptr (2 ^ j) ltac:(lia)) as Hm.
  pose proof (Z.div_mod ptr (2 ^ j) ltac:(lia)) as Hd.
  assert (0 ≤ ptr / 2 ^ j) by (apply Z.div_pos; lia).
  assert (Eoff : u64 (ptr - (ptr - ptr mod 2 ^ j)) = ptr mod 2 ^ j).
  { replace (ptr - (ptr - ptr mod 2 ^ j)) with (ptr mod 2 ^ j) by lia. apply u64_small. unfold is_u64. nia. }
  rewrite Eoff.
  assert (Esz : u64 (size + ptr mod 2 ^ j) = size + ptr mod 2 ^ j).
  { apply u64_small. unfold is_u64. nia. }
  rewrite Esz. eexists. split; [by destruct (negb _)|]. split; [by destruct (mo_mbind os _ =? 0)|].
  cbn [mb_nodemask mb_addr mb_len]. split; [done|]. split; [|lia].
  exists (ptr / 2 ^ j). lia.
Qed.

Definition demo_migrate : migrate_os := {|
  mo_available := 0; mo_max_node := 1; mo_page_size := 4096;
  mo_nodemask n := Z.shiftl 1 n; mo_mask_size := 1024;
  mo_mbind a := if mb_addr a mod 4096 =? 0 then 0 else -1;
|}.

Lemma migrate_covers_witness :
  nkit_memory_migrate demo_migrate 5000 100 1 = (0, None, Some (mk_mbind 4096 1004 2 2 1025 2)) ∧
  ∃ args, (nkit_memory_migrate demo_migrate 5000 100 1).2 = Some args ∧
    mb_addr args + mb_len args = 5100.
Proof.
  split; [by vm_compute|].
  destruct (proj2 (migrate_covers demo_migrate 5000 100 1 12 ltac:(lia) eq_refl ltac:(lia) ltac:(lia) ltac:(lia))
    ltac:(cbn; lia) ltac:(cbn; lia)) as (args & E & _ & _ & _ & _ & Hl).
  exists args. split; [exact E|]. rewrite Hl. reflexivity.
Defined.

(** ** The huge page size (hugepage_ops.c) *)

Definition text : Type := list ascii.

Definition str (s : string) : text := String.list_ascii_of_string s.

Definition newline : ascii := ascii_of_nat 10.

(** [isspace] in the C locale. *)
Definition isspace (c : ascii) : bool :=
  let n := nat_of_ascii c in (n =? 32)%nat || ((9 <=? n)%nat && (n <=? 13)%nat).

Definition digit (c : ascii) : option Z :=
  let n := Z.of_nat (nat_of_ascii c) in
  if (48 <=? n) && (n <=? 57) then Some (n - 48) else None.

(** [fgets(line, size, fp)]: up to [size - 1] characters, through a newline; the
    line and what is left of the file. *)
Fixpoint take_line (n : nat) (file : text) : text * text :=
  match n, file with
  | O, _ | _, [] => ([], file)
  | S n, c :: file =>
      if decide (c = newline) then ([c], file)
      else let r := take_line n file in (c :: r.1, r.2)
  end.

Definition fgets (size : nat) (file : text) : option (text * text) :=
  match file with [] => None | _ => Some (take_line (size - 1) file) end.

(** [strncmp(line, s, strlen(s)) == 0] for a text without NUL. *)
Fixpoint starts_with (s line : text) : bool :=
  match s, line with
  | [], _ => true
  | a :: s, b :: line => bool_decide (a = b) && starts_with s line
  | _ :: _, [] => false
  end.

(** The longest prefix whose characters satisfy [f], and the rest. *)
Fixpoint span (f : ascii → bool) (l : text) : text * text :=
  match l with
  | [] => ([], [])
  | c :: l' => if f c then let r := span f l' in (c :: r.1, r.2) else ([], l)
  end.

(** The digits at the head of a text. *)
Definition is_digit (c : ascii) : bool := match digit c with Some _ => true | None => false end.
Definition number (l : text) : Z := foldl (λ v c, 10 * v + default 0 (digit c)) 0 l.

(** The conversion of [%zu] on a text with leading blanks removed: an optional
    sign, then digits; a number that does not fit gives the largest value whatever
    its sign, and one that fits is negated modulo 2^64 after a minus. *)
Definition scan_zu (l : text) : option Z :=
  let convert neg l :=
    match (span is_digit l).1 with
    | [] => None
    | ds =>
        let v := number ds in
        Some (if 2 ^ 64 <=? v then 2 ^ 64 - 1 else if neg : bool then u64 (- v) else v)
    end in
  match l with
  | c :: l' =>
      if decide (c = "-"%char) then convert true l'
      else if decide (c = "+"%char) then convert false l' else convert false l
  | [] => None
  end.

(** [sscanf(line, "%*s %zu", &v)]: [Some v] when it returns 1. *)
Definition sscanf_skip_zu (line : text) : option Z :=
  let l := (span isspace line).2 in
  match span (λ c, negb (isspace c)) l with
  | ([], _) => None
  | (_, l) => scan_zu (span isspace l).2
  end.

Definition hugepagesize_key : text := str "Hugepagesize:".

(** The loop; each line read shortens the file, so the length is enough fuel. *)
Fixpoint scan_meminfo (fuel : nat) (file : text) : Z :=
  match fuel with
  | O => 0
  | S fuel =>
      match fgets 128 file with
      | None => 0
      | Some (line, file) =>
          if starts_with hugepagesize_key line then
            match sscanf_skip_zu line with Some v => v | None => scan_meminfo fuel file end
          else scan_meminfo fuel file
      end
  end.

(** [meminfo] is the text of the file, [None] when it cannot be opened. *)
Definition nkit_get_hugepage_size (meminfo : option text) : Z :=
  match meminfo with
  | None => 0
  | Some file => scan_meminfo (S (length file)) file *w 1024
  end.

(** ** What the kernel prints *)

(** The decimal digits of a number. *)
Fixpoint decimal (fuel : nat) (n : Z) : text :=
  match fuel with
  | O => []
  | S fuel =>
      let c := ascii_of_nat (Z.to_nat (48 + n mod 10)) in
      if n <? 10 then [c] else decimal fuel (n / 10) ++ [c]
  end.

Definition print_number (n : Z) : text := decimal (S (Z.to_nat (Z.log2 n))) n.

(** A line such as "Hugepagesize:       2048 kB". *)
Definition hugepagesize_line (blanks : nat) (n : Z) : text :=
  hugepagesize_key ++ replicate (S blanks) " "%char ++ print_number n ++ str " kB" ++ [newline].

(** What [fgets] puts in the buffer of 128 bytes before the end of the file: a
    line, or, of a line that does not fit, 127 characters; the rest of that line is
    what the next call reads. *)
Definition buffer_full (p : text) : Prop :=
  (∃ l, p = l ++ [newline] ∧ (newline ∉ l) ∧ (length l < 127)%nat) ∨
  ((newline ∉ p) ∧ length p = 127%nat).

(** A buffer the loop passes over: it does not start with the key, or no number
    follows its first word. *)
Definition passed_over (p : text) : Prop :=
  starts_with hugepagesize_key p = false ∨ sscanf_skip_zu p = None.

(** ** Round trip *)

Lemma digit_print d : 0 ≤ d < 10 → digit (ascii_of_nat (Z.to_nat (48 + d))) = Some d.
Proof.
  intros Hd. assert (d = 0 ∨ d = 1 ∨ d = 2 ∨ d = 3 ∨ d = 4 ∨ d = 5 ∨ d = 6 ∨ d = 7 ∨ d = 8 ∨ d = 9) as H by lia.
  by destruct_or! H; subst d.
Qed.

Lemma decimal_number fuel n :
  0 ≤ n < 2 ^ Z.of_nat fuel → number (decimal fuel n) = n ∧ Forall is_digit (decimal fuel n).
Proof.
  revert n. induction fuel as [|fuel IH]; intros n Hn.
  { cbn in *. split; [lia|constructor]. }
  pose proof (Z.mod_pos_bound n 10 ltac:(lia)) as Hm. pose proof (Z.div_mod n 10 ltac:(lia)) as Hd.
  pose proof (digit_print (n mod 10) Hm) as Hdig. cbn [decimal].
  assert (Hone : Forall is_digit [ascii_of_nat (Z.to_nat (48 + n mod 10))]).
  { constructor; [unfold is_digit; by rewrite Hdig|constructor]. }
  destruct (Z.ltb_spec n 10).
  - split; [|done]. unfold number. cbn [foldl]. rewrite Hdig, Z.mod_small by lia. cbn. lia.
  - destruct (IH (n / 10)) as [E F].
    { split; [apply Z.div_pos; lia|]. rewrite Nat2Z.inj_succ, Z.pow_succ_r in Hn by lia.
      apply Z.div_lt_upper_bound; lia. }
    split; [|by apply Forall_app].
    unfold number in *. rewrite foldl_app. cbn [foldl]. rewrite E, Hdig. cbn. lia.
Qed.

Lemma print_number_spec n :
  0 ≤ n → number (print_number n) = n ∧ Forall is_digit (print_number n) ∧ print_number n ≠ [].
Proof.
  intros Hn. unfold print_number.
  destruct (decimal_number (S (Z.to_nat (Z.log2 n))) n) as [E F].
  { split; [done|]. rewrite Nat2Z.inj_succ, Z2Nat.id by apply Z.log2_nonneg.
    destruct (decide (n = 0)) as [->|]; [done|]. apply Z.log2_spec. lia. }
  split_and!; [done..|]. cbn [decimal]. destruct (n <? 10); [done|]. by intros [_ ?]%app_nil.
Qed.

(** Splitting a text after a run. *)
Lemma span_app (f : ascii → bool) l1 c l2 :
  Forall f l1 → f c = false → span f (l1 ++ c :: l2) = (l1, c :: l2).
Proof.
  intros Hl Hc. induction Hl as [|a l1 Ha Hl IH]; cbn [app span].
  - by rewrite Hc.
  - destruct (f a); [|done]. by rewrite IH.
Qed.

Lemma take_line_app n l rest :
  newline ∉ l → (length l < n)%nat → take_line n (l ++ newline :: rest) = (l ++ [newline], rest).
Proof.
  revert n. induction l as [|c l IH]; intros [|n] Hnl Hlen; cbn [length app take_line] in *; try lia.
  - by rewrite decide_True.
  - apply not_elem_of_cons in Hnl as [Hc Hnl]. rewrite decide_False by done.
    rewrite IH by (done || lia). done.
Qed.

(** No character of a number is a blank, a sign or a newline. *)
Lemma digit_char c : is_digit c = true → isspace c = false ∧ c ≠ newline ∧ c ≠ "-"%char ∧ c ≠ "+"%char.
Proof.
  intros H. destruct c as [[] [] [] [] [] [] [] []]; vm_compute in H; try done;
    split_and!; by vm_compute.
Qed.

Lemma not_space_char c : is_digit c = true → negb (isspace c) = true.
Proof. intros [-> _]%digit_char. done. Qed.

(** Reading back the line that was printed. *)
Lemma sscanf_line blanks n :
  0 ≤ n < 2 ^ 64 → sscanf_skip_zu (hugepagesize_line blanks n) = Some n.
Proof.
  intros Hn. destruct (print_number_spec n ltac:(lia)) as (Ev & Ed & Hne).
  unfold sscanf_skip_zu, hugepagesize_line.
  set (rest := str " kB" ++ [newline]).
  assert (E1 : span isspace (hugepagesize_key ++ replicate (S blanks) " "%char ++ print_number n ++ rest) =
    ([], hugepagesize_key ++ replicate (S blanks) " "%char ++ print_number n ++ rest)) by reflexivity.
  rewrite E1. cbn [snd replicate app].
  rewrite (span_app (λ c, negb (isspace c)) hugepagesize_key " "%char) by (try done; repeat constructor).
  change (hugepagesize_key) with ("H"%char :: tail hugepagesize_key) at 1. cbv beta iota.
  destruct (print_number n) as [|c ds] eqn:Ep; [done|]. clear Hne.
  assert (Hc : is_digit c = true) by (apply Forall_cons in Ed as [H _]; by destruct (is_digit c)).
  destruct (digit_char c Hc) as (Hs & _ & Hminus & Hplus).
  change (" "%char :: replicate blanks " "%char ++ (c :: ds) ++ rest)
    with (replicate (S blanks) " "%char ++ c :: (ds ++ rest)).
  rewrite (span_app isspace); [|by apply Forall_replicate|done]. cbn [snd scan_zu].
  rewrite !decide_False by done.
  change (c :: ds ++ rest) with ((c :: ds) ++ " "%char :: (str "kB" ++ [newline])).
  rewrite (span_app is_digit) by done. cbv beta iota zeta delta [fst]. rewrite Ev.
  destruct (Z.leb_spec (2 ^ 64) n); [lia|done].
Qed.

Lemma line_without_newline blanks n :
  0 ≤ n →
  ∃ l, hugepagesize_line blanks n = l ++ [newline] ∧ (newline ∉ l) ∧
       (length l = blanks + 17 + length (print_number n))%nat.
Proof.
  intros Hn. destruct (print_number_spec n Hn) as (_ & Ed & _).
  exists (hugepagesize_key ++ replicate (S blanks) " "%char ++ print_number n ++ str " kB").
  split; [unfold hugepagesize_line; by rewrite <-!app_assoc|]. split.
  - assert (H1 : newline ∉ hugepagesize_key) by (apply (bool_decide_unpack _); by vm_compute).
    assert (H2 : newline ∉ str " kB") by (apply (bool_decide_unpack _); by vm_compute).
    rewrite !elem_of_app. intros [H|[H|[H|H]]]; [done| | |done].
    + by apply elem_of_replicate in H as [? _].
    + rewrite Forall_forall in Ed. apply Ed in H.
      destruct (is_digit newline) eqn:E; by vm_compute in E.
  - rewrite !length_app, length_replicate. cbn. lia.
Qed.

Lemma fgets_line l rest :
  newline ∉ l → (length l < 127)%nat → fgets 128 (l ++ newline :: rest) = Some (l ++ [newline], rest).
Proof.
  intros Hn Hl. unfold fgets.
  assert (E : ∃ c t, l ++ newline :: rest = c :: t) by (destruct l; eauto).
  destruct E as (c & t & E). rewrite E, <-E. by rewrite take_line_app.
Qed.

Lemma take_line_full n l rest : newline ∉ l → length l = n → take_line n (l ++ rest) = (l, rest).
Proof.
  intros Hnl <-. induction l as [|c l IH]; cbn [length app take_line]; [by destruct rest|].
  apply not_elem_of_cons in Hnl as [Hc Hnl]. rewrite decide_False by done. by rewrite IH.
Qed.

Lemma fgets_full p rest : buffer_full p → fgets 128 (p ++ rest) = Some (p, rest).
Proof.
  intros [(l & -> & Hn & Hl)|[Hn Hl]].
  - rewrite <-app_assoc. by apply fgets_line.
  - assert (E : ∃ c t, p ++ rest = c :: t) by (destruct p; [done|by eexists _, _]).
    destruct E as (c & t & E). unfold fgets. rewrite E, <-E. by rewrite take_line_full.
Qed.

Lemma buffer_full_length p : buffer_full p → (0 < length p)%nat.
Proof. intros [(l & -> & _)|[_ ->]]; [rewrite length_app; cbn; lia|lia]. Qed.

(** The loop reads past the buffers it passes over. *)
Lemma scan_passes before rest fuel :
  Forall (λ p, buffer_full p ∧ passed_over p) before →
  (length before ≤ fuel)%nat →
  scan_meminfo fuel (concat before ++ rest) = scan_meminfo (fuel - length before) rest.
Proof.
  intros Hb. revert fuel. induction Hb as [|p before [Hp Hs] Hb IH]; intros fuel Hf; cbn [length] in *.
  { by rewrite Nat.sub_0_r. }
  destruct fuel as [|fuel]; [lia|]. cbn [concat scan_meminfo Nat.sub].
  rewrite <-app_assoc, fgets_full by done. rewrite IH by lia.
  destruct Hs as [->| ->]; [done|by destruct (starts_with _ _)].
Qed.

Lemma length_concat_full before :
  Forall (λ p, buffer_full p ∧ passed_over p) before → (length before ≤ length (concat before))%nat.
Proof.
  induction 1 as [|p before [Hp _] _ IH]; cbn [concat length]; [lia|].
  apply buffer_full_length in Hp. rewrite length_app. lia.
Qed.

(** A text without newline that fits the buffer is read at once: the end of the
    file. *)
Lemma fgets_last p : p ≠ [] → newline ∉ p → (length p < 127)%nat → fgets 128 p = Some (p, []).
Proof.
  intros Hne Hnl Hl. assert (E : take_line 127 p = (p, [])).
  { clear Hne. revert Hl. generalize 127%nat. induction p as [|c p IH]; intros [|n] Hl; cbn [length take_line] in *; try lia; [done|].
    apply not_elem_of_cons in Hnl as [Hc Hnl]. rewrite decide_False by done. rewrite IH by (done || lia). done. }
  unfold fgets. destruct p; [done|]. change (128 - 1)%nat with 127%nat. by rewrite E.
Qed.

Lemma scan_last last fuel :
  (1 < fuel)%nat → newline ∉ last → (length last < 127)%nat → passed_over last → scan_meminfo fuel last = 0.
Proof.
  intros Hf Hnl Hl Hs. destruct fuel as [|[|fuel]]; [lia..|]. cbn [scan_meminfo].
  destruct last as [|c l] eqn:E; [done|]. rewrite <-E in *. rewrite fgets_last by (subst; done).
  destruct Hs as [->| ->]; [done|by destruct (starts_with _ _)].
Qed.

Lemma scan_finds blanks n after fuel :
  0 ≤ n < 2 ^ 64 → (blanks + 17 + length (print_number n) < 127)%nat → (0 < fuel)%nat →
  scan_meminfo fuel (hugepagesize_line blanks n ++ after) = n.
Proof.
  intros Hn Hlen Hf. destruct fuel as [|fuel]; [lia|]. cbn [scan_meminfo].
  destruct (line_without_newline blanks n ltac:(lia)) as (l & El & Hnl & Hl).
  pose proof (sscanf_line blanks n Hn) as Hsc. rewrite El in *.
  rewrite <-app_assoc. cbn [app]. rewrite fgets_line by (done || lia).
  assert (Hk : starts_with hugepagesize_key (l ++ [newline]) = true) by (by rewrite <-El).
  by rewrite Hk, Hsc.
Qed.

(** C39. Reading back what the kernel prints.  Cut the text before it into the
    buffers [fgets] fills (whole lines, or 127 characters of a line that is longer
    than the buffer).  If none of them both starts with the key and has a number
    after its first word, and the next characters are "Hugepagesize:", blanks, a
    number [n] of kilobytes, " kB" and a newline, a line that fits the buffer, then
    the function returns [n] * 1024 bytes (modulo 2^64), whatever follows.  If the
    whole file is made of such buffers and a last line without a newline, or if the
    file cannot be opened, it returns 0. *)
Theorem hugepage_size_roundtrip before :
  Forall (λ p, buffer_full p ∧ passed_over p) before →
  (∀ blanks n after, 0 ≤ n < 2 ^ 64 → (blanks + 17 + length (print_number n) < 127)%nat →
     nkit_get_hugepage_size (Some (concat before ++ hugepagesize_line blanks n ++ after)) = n *w 1024) ∧
  (∀ last, newline ∉ last → (length last < 127)%nat → passed_over last →
     nkit_get_hugepage_size (Some (concat before ++ last)) = 0) ∧
  nkit_get_hugepage_size None = 0.
Proof.
  intros Hb. pose proof (length_concat_full before Hb) as Hc. split; [|split; [|done]].
  - intros blanks n after Hn Hlen. unfold nkit_get_hugepage_size. rewrite length_app.
    rewrite scan_passes by (done || lia). rewrite scan_finds; [done..|lia].
  - intros last Hnl Hl Hs. unfold nkit_get_hugepage_size. rewrite length_app.
    rewrite scan_passes by (done || lia). destruct last as [|c l] eqn:E.
    { rewrite Nat.add_0_r. by destruct (S _ - _)%nat. }
    rewrite <-E in *. rewrite scan_last; [done| |done..]. subst last. cbn [length]. lia.
Qed.

(** A usual line before the key, and a line of 127 characters that goes on with the
    key: the second buffer starts with it, so the number after it is the answer and
    the line of the kernel's own, further on, is not reached. *)
Lemma hugepage_size_roundtrip_witness :
  nkit_get_hugepage_size (Some (str "MemTotal:       16384 kB" ++ [newline] ++
    str "Hugepagesize:       2048 kB" ++ [newline])) = 2097152 ∧
  nkit_get_hugepage_size (Some (replicate 127 "x"%char ++ str "Hugepagesize: 1 kB" ++ [newline] ++
    str "Hugepagesize:       2048 kB" ++ [newline])) = 1024.
Proof.
  split.
  - refine (proj1 (hugepage_size_roundtrip [str "MemTotal:       16384 kB" ++ [newline]] _) 6%nat 2048 [] _ _);
      [|lia|apply (bool_decide_unpack _); by vm_compute].
    constructor; [|constructor]. split; [|left; by vm_compute]. left. eexists. split; [done|].
    split; [apply (bool_decide_unpack _); by vm_compute|cbn; lia].
  - refine (proj1 (hugepage_size_roundtrip [replicate 127 "x"%char] _) 0%nat 1
      (str "Hugepagesize:       2048 kB" ++ [newline]) _ _);
      [|lia|apply (bool_decide_unpack _); by vm_compute].
    constructor; [|constructor]. split; [|left; by vm_compute]. right.
    split; [apply (bool_decide_unpack _); by vm_compute|done].
Defined.
