(* ===== verification/Balancer.v ===== *)
(** * The balancer (src/sched/balancer.c)

    A thread profiles itself: [nkit_balancer_start] opens two hardware counters,
    [nkit_balancer_check] reads and closes them and advises.  The two descriptors
    are thread-local variables, [-1] when there is none.  Shown here: over any
    calls and any failures the descriptors in use are exactly the ones the thread
    holds; the advice follows the exact ratio of the counts; and the one way in
    which a stale descriptor is closed a second time. *)

From stdpp Require Import prelude gmap.
From Stdlib Require Import ZArith Lia QArith Lqa SpecFloat.
From S2P Require Import Prelude Words Double SchedOs Arena Ring Context.
Local Open Scope Z_scope.

(** ** Data *)

Inductive nkit_advice_e := NKIT_ADVISE_STAY | NKIT_ADVISE_MIGRATE | NKIT_ADVISE_ERROR.

(** The thread-local descriptors. *)
Record balancer_tls := mk_tls { t_fd_miss : Z; t_fd_instr : Z }.

Definition tls_fresh : balancer_tls := mk_tls (-1) (-1).

(** ** Operations *)

Section operations.
Context {K Q : Type} (os : sched_os K).

(** [_open_counter]: a disabled counter of user-space events for the calling
    thread; the result of the system call is converted to [int]. *)
Definition open_counter (type config : Z) : io K Z :=
  fd ← perf_event_open os (mk_attr type config 1 1 1 0) 0;
  mret (s32 fd).

Definition nkit_balancer_set_threshold (ctx : nkit_context_t Q) (mpki : double) : nkit_context_t Q :=
  if dbl_gt mpki (dbl_of_Z 0) then
    mk_ctx (ctx_topo ctx) (ctx_num_nodes ctx) (ctx_num_pus ctx) (ctx_initialized ctx)
      (ctx_active_threads ctx) (ctx_mailboxes ctx) mpki (ctx_numa_supported ctx)
  else ctx.

(** [if (fd != -1) close(fd)] *)
Definition close_if_set (fd : Z) : io K () :=
  if fd =? -1 then mret tt else sys_close os fd.

Definition nkit_balancer_start (t : balancer_tls) : io K (Z * balancer_tls) :=
  close_if_set (t_fd_miss t);;
  close_if_set (t_fd_instr t);;
  fd_miss ← open_counter PERF_TYPE_HARDWARE PERF_COUNT_HW_CACHE_MISSES;
  if fd_miss =? -1 then mret (-1, mk_tls fd_miss (t_fd_instr t)) else
  fd_instr ← open_counter PERF_TYPE_HARDWARE PERF_COUNT_HW_INSTRUCTIONS;
  if fd_instr =? -1 then sys_close os fd_miss;; mret (-1, mk_tls (-1) fd_instr) else
  sys_ioctl os fd_miss PERF_EVENT_IOC_RESET;;
  sys_ioctl os fd_instr PERF_EVENT_IOC_RESET;;
  sys_ioctl os fd_miss PERF_EVENT_IOC_ENABLE;;
  sys_ioctl os fd_instr PERF_EVENT_IOC_ENABLE;;
  mret (0, mk_tls fd_miss fd_instr).

Definition nkit_balancer_check (ctx : nkit_context_t Q) (t : balancer_tls)
    : io K (nkit_advice_e * balancer_tls) :=
  if (t_fd_miss t =? -1) || (t_fd_instr t =? -1) then mret (NKIT_ADVISE_ERROR, t) else
  sys_ioctl os (t_fd_miss t) PERF_EVENT_IOC_DISABLE;;
  sys_ioctl os (t_fd_instr t) PERF_EVENT_IOC_DISABLE;;
  r1 ← sys_read os (t_fd_miss t);
  if (r1.1 =? -1) : bool then mret (NKIT_ADVISE_ERROR, t) else
  r2 ← sys_read os (t_fd_instr t);
  if (r2.1 =? -1) : bool then mret (NKIT_ADVISE_ERROR, t) else
  sys_close os (t_fd_miss t);;
  sys_close os (t_fd_instr t);;
  let count_miss := r1.2 in
  let count_instr := r2.2 in
  if count_instr <? 1000 then mret (NKIT_ADVISE_STAY, mk_tls (-1) (-1)) else
  if dbl_gt (mpki count_miss count_instr) (ctx_threshold ctx)
  then mret (NKIT_ADVISE_MIGRATE, mk_tls (-1) (-1))
  else mret (NKIT_ADVISE_STAY, mk_tls (-1) (-1)).

(** ** Sequences of calls by one thread *)

Inductive balancer_op := BStart | BCheck.

Inductive balancer_res := RStart (ret : Z) | RAdvice (a : nkit_advice_e).

Definition balancer_step (ctx : nkit_context_t Q) (t : balancer_tls) (o : balancer_op)
    : io K (balancer_res * balancer_tls) :=
  match o with
  | BStart => r ← nkit_balancer_start t; mret (RStart r.1, r.2)
  | BCheck => r ← nkit_balancer_check ctx t; mret (RAdvice r.1, r.2)
  end.

Fixpoint balancer_run (ctx : nkit_context_t Q) (t : balancer_tls) (ops : list balancer_op)
    : io K (list balancer_res * balancer_tls) :=
  match ops with
  | [] => mret ([], t)
  | o :: ops =>
      r ← balancer_step ctx t o;
      rs ← balancer_run ctx r.2 ops;
      mret (r.1 :: rs.1, rs.2)
  end.
End operations.

(** The descriptors the thread's variables stand for: both, or none. *)
Definition held (t : balancer_tls) : gset Z :=
  if t_fd_miss t =? -1 then ∅ else {[ t_fd_miss t; t_fd_instr t ]}.

(** ** Lemmas *)

Section descriptors.
Context {K Q : Type} (os : sched_os K) {OS : SchedOS_ok os}.
Implicit Types (k : K) (t : balancer_tls) (F : gset Z).

(** Opening a counter: refused, or a descriptor that was not open. *)
Lemma open_counter_spec type config k :
  ∃ fd k', open_counter os type config k = (fd, k') ∧
    ((fd = -1 ∧ open_fds k' = open_fds k) ∨
     (0 ≤ fd ∧ (fd ∉ open_fds k) ∧ open_fds k' = {[ fd ]} ∪ open_fds k)).
Proof.
  unfold open_counter. run_io. destruct (perf_open_ok (mk_attr type config 1 1 1 0) 0 k) as [_ H].
  destruct (perf_event_open os _ 0 k) as [fd k']. cbn [fst snd] in *.
  rewrite s32_small by lia. exists fd, k'. split; [done|]. destruct H as [?|(? & ? & ?)]; [by left|right]. by split; [lia|].
Qed.

Lemma close_if_set_spec fd k :
  open_fds (close_if_set os fd k).2 = open_fds k ∖ {[ fd ]}.
Proof.
  unfold close_if_set. destruct (Z.eqb_spec fd (-1)) as [->|]; [|apply close_ok].
  cbn. rewrite difference_disjoint_L; [done|]. apply disjoint_singleton_r. intros H%fds_nonneg. lia.
Qed.

(** The invariant over calls: [F] are the descriptors of the rest of the
    process. *)
Record balancer_ok (F : gset Z) t k : Prop := {
  bok_open : open_fds k = F ∪ held t;
  bok_miss : t_fd_miss t ∉ F;
  bok_instr : t_fd_instr t ∉ F;
  bok_both : t_fd_miss t ≠ -1 → t_fd_instr t ≠ -1;
}.

Lemma balancer_ok_none F t k : 
  open_fds k = F → t_fd_miss t = -1 → t_fd_instr t ∉ F → balancer_ok F t k.
Proof.
  intros Hk Hm Hi. split; [|rewrite <-Hk, Hm; intros H%fds_nonneg; lia|done|by rewrite Hm].
  unfold held. rewrite Hm, Hk. cbn. by rewrite union_empty_r_L.
Qed.

(** Closing both variables leaves the rest of the process's descriptors. *)
Lemma closed_both F t k :
  balancer_ok F t k → open_fds k ∖ {[ t_fd_miss t ]} ∖ {[ t_fd_instr t ]} = F.
Proof.
  intros [Hk Hm Hi _]. rewrite Hk. unfold held.
  destruct (Z.eqb_spec (t_fd_miss t) (-1)); set_solver.
Qed.

Lemma balancer_start_ok F t k :
  balancer_ok F t k →
  let r := nkit_balancer_start os t k in
  balancer_ok F r.1.2 r.2 ∧ (r.1.1 = 0 ∧ held r.1.2 ≠ ∅ ∨ r.1.1 = -1 ∧ held r.1.2 = ∅).
Proof.
  intros H. pose proof (closed_both F t k H) as Hc. unfold nkit_balancer_start. run_io.
  set (k1 := (close_if_set os (t_fd_miss t) k).2). set (k2 := (close_if_set os (t_fd_instr t) k1).2).
  assert (E2 : open_fds k2 = F) by (unfold k2, k1; by rewrite !close_if_set_spec).
  destruct (open_counter_spec PERF_TYPE_HARDWARE PERF_COUNT_HW_CACHE_MISSES k2) as (fd & k3 & -> & H3).
  cbn [fst snd]. destruct H3 as [[-> E3]|(Hfd & Hn & E3)]; [cbn|].
  { split; [|by right]. apply balancer_ok_none; [by rewrite E3|done|apply H]. }
  destruct (Z.eqb_spec fd (-1)); [lia|].
  destruct (open_counter_spec PERF_TYPE_HARDWARE PERF_COUNT_HW_INSTRUCTIONS k3) as (fi & k4 & -> & H4).
  cbn [fst snd]. destruct H4 as [[-> E4]|(Hfi & Hni & E4)]; [cbn|].
  { split; [|by right]. apply balancer_ok_none; [|done|].
    - destruct (close_ok fd k4) as [_ ->]. rewrite E4, E3, E2. set_solver.
    - rewrite <-E2. intros Hx%fds_nonneg. cbn in Hx. lia. }
  destruct (Z.eqb_spec fi (-1)); [lia|]. cbn.
  destruct (ioctl_ok fd PERF_EVENT_IOC_RESET k4) as [_ I1].
  set (k5 := (sys_ioctl os fd PERF_EVENT_IOC_RESET k4).2) in *.
  destruct (ioctl_ok fi PERF_EVENT_IOC_RESET k5) as [_ I2].
  set (k6 := (sys_ioctl os fi PERF_EVENT_IOC_RESET k5).2) in *.
  destruct (ioctl_ok fd PERF_EVENT_IOC_ENABLE k6) as [_ I3].
  set (k7 := (sys_ioctl os fd PERF_EVENT_IOC_ENABLE k6).2) in *.
  destruct (ioctl_ok fi PERF_EVENT_IOC_ENABLE k7) as [_ I4].
  assert (Hh : held (mk_tls fd fi) = {[ fd; fi ]}).
  { unfold held. cbn. destruct (Z.eqb_spec fd (-1)); [lia|done]. }
  split; [split|left; split; [done|rewrite Hh; set_solver]].
  - rewrite I4, I3, I2, I1, E4, E3, E2, Hh. set_solver.
  - cbn. by rewrite <-E2.
  - cbn. set_solver.
  - cbn. done.
Qed.

Lemma balancer_check_ok (ctx : nkit_context_t Q) F t k :
  balancer_ok F t k →
  let r := nkit_balancer_check os ctx t k in
  balancer_ok F r.1.2 r.2 ∧ (r.1.1 = NKIT_ADVISE_ERROR ∨ held r.1.2 = ∅).
Proof.
  intros H. unfold nkit_balancer_check.
  destruct ((t_fd_miss t =? -1) || (t_fd_instr t =? -1)) eqn:E; [by split; [|left]|].
  apply orb_false_iff in E as [Em%Z.eqb_neq Ei%Z.eqb_neq]. run_io.
  pose proof (λ fd q k, proj2 (ioctl_ok (os:=os) fd q k)) as Hio.
  pose proof (λ fd k, proj2 (read_ok (os:=os) fd k)) as Hrd.
  set (k1 := (sys_ioctl os (t_fd_miss t) PERF_EVENT_IOC_DISABLE k).2).
  set (k2 := (sys_ioctl os (t_fd_instr t) PERF_EVENT_IOC_DISABLE k1).2).
  destruct (sys_read os (t_fd_miss t) k2) as [[r1 v1] k3] eqn:E3.
  destruct (sys_read os (t_fd_instr t) k3) as [[r2 v2] k4] eqn:E4. cbn [fst snd].
  assert (K3 : open_fds k3 = open_fds k).
  { pose proof (Hrd (t_fd_miss t) k2) as R. rewrite E3 in R. cbn in R. rewrite R. unfold k2, k1. by rewrite !Hio. }
  assert (K4 : open_fds k4 = open_fds k).
  { pose proof (Hrd (t_fd_instr t) k3) as R. rewrite E4 in R. cbn in R. congruence. }
  assert (Hsame : ∀ k', open_fds k' = open_fds k → balancer_ok F t k').
  { intros k' Ek. destruct H. split; [congruence|done..]. }
  destruct (r1 =? -1); [by split; [apply Hsame|left]|].
  rewrite E4. cbn [fst snd]. destruct (r2 =? -1); [by split; [apply Hsame|left]|].
  set (k6 := (sys_close os (t_fd_instr t) (sys_close os (t_fd_miss t) k4).2).2).
  assert (K6 : balancer_ok F (mk_tls (-1) (-1)) k6).
  { assert (E6 : open_fds k6 = F).
    { unfold k6. rewrite (proj2 (close_ok _ _)), (proj2 (close_ok _ _)), K4. by apply closed_both. }
    apply balancer_ok_none; [done..|]. rewrite <-E6. intros Hx%fds_nonneg. cbn in Hx. lia. }
  destruct (v2 <? 1000); [|destruct (dbl_gt _ _)]; (split; [exact K6|by right]).
Qed.

Lemma balancer_run_ok (ctx : nkit_context_t Q) F ops t k :
  balancer_ok F t k →
  let r := balancer_run os ctx t ops k in balancer_ok F r.1.2 r.2.
Proof.
  revert t k. induction ops as [|o ops IH]; intros t k H; [done|].
  cbn [balancer_run]. run_io. apply IH. destruct o; unfold balancer_step; run_io.
  - by apply balancer_start_ok.
  - by apply balancer_check_ok.
Qed.
End descriptors.

(** ** Properties *)

(** No descriptor is leaked: after any sequence of starts and checks by a
    thread, whatever the kernel refuses, the open descriptors of the process are
    the ones that were open before and the ones the thread's variables hold,
    which are both counters or none; so a check that returns an advice leaves
    none behind. *)
Theorem balancer_no_leak {K Q} (os : sched_os K) {OS : SchedOS_ok os} (ctx : nkit_context_t Q)
    (ops : list balancer_op) (k : K) :
  let r := balancer_run os ctx tls_fresh ops k in
  open_fds r.2 = open_fds k ∪ held r.1.2 ∧ open_fds k ## held r.1.2 ∧
  let c := nkit_balancer_check os ctx r.1.2 r.2 in
  c.1.1 ≠ NKIT_ADVISE_ERROR → open_fds c.2 = open_fds k.
Proof.
  intros r. assert (H0 : balancer_ok os (open_fds k) tls_fresh k).
  { apply balancer_ok_none; [done..|]. intros H%fds_nonneg. cbn in H. lia. }
  pose proof (balancer_run_ok os ctx (open_fds k) ops tls_fresh k H0 : balancer_ok _ _ r.1.2 r.2) as H.
  split; [apply H|]. split.
  - destruct H as [_ Hm Hi _]. unfold held. destruct (_ =? _); set_solver.
  - cbn zeta. destruct (balancer_check_ok os ctx _ _ _ H) as [[Ho _ _ _] [E|E]]; [done|].
    intros _. rewrite Ho, E. set_solver.
Qed.

(** 120 misses in 2000 instructions: 60 per thousand. *)
Definition demo_counts (ev : Z) : Z := if ev =? PERF_COUNT_HW_CACHE_MISSES then 120 else 2000.

Lemma balancer_no_leak_witness :
  let os := demo_sched (by_event demo_counts) in
  let k := demo_kernel0 [true; true; true; false] in
  let r := balancer_run os (demo_ctx (Q:=Z) MbNull) tls_fresh [BStart; BStart; BCheck; BStart] k in
  let c := nkit_balancer_check os (demo_ctx (Q:=Z) MbNull) r.1.2 r.2 in
  r.1.1 = [RStart 0; RStart (-1); RAdvice NKIT_ADVISE_ERROR; RStart 0] ∧
  c.1.1 = NKIT_ADVISE_MIGRATE ∧ open_fds (os:=os) c.2 = open_fds (os:=os) k.
Proof.
  split; [by vm_compute|]. split; [by vm_compute|].
  apply (balancer_no_leak (demo_sched (by_event demo_counts)) (demo_ctx (Q:=Z) MbNull)
           [BStart; BStart; BCheck; BStart] (demo_kernel0 [true; true; true; false])).
  by vm_compute.
Defined.

(** C23. The advice is the one the exact ratio calls for.  When both counters are
    held and read [miss] and [instr], a check closes them; fewer than 1000
    instructions give STAY; otherwise the floating-point comparison agrees with
    the exact comparison of [1000 * miss / instr] with the threshold, outside a
    relative distance of 2^-49 of it. *)
Theorem balancer_check_advice {K Q} (os : sched_os K) (ctx : nkit_context_t Q) t k miss instr :
  t_fd_miss t ≠ -1 → t_fd_instr t ≠ -1 →
  (∀ k, (sys_read os (t_fd_miss t) k).1 = (8, miss)) →
  (∀ k, (sys_read os (t_fd_instr t) k).1 = (8, instr)) →
  0 ≤ miss < 2 ^ 63 → 0 ≤ instr < 2 ^ 63 → finite_valid (ctx_threshold ctx) →
  let r := (nkit_balancer_check os ctx t k).1 in
  let ratio := (inject_Z (1000 * miss) / inject_Z instr)%Q in
  let thresh := dval (ctx_threshold ctx) in
  r.2 = tls_fresh ∧
  (instr < 1000 → r.1 = NKIT_ADVISE_STAY) ∧
  (1000 ≤ instr → (thresh * (1 + (1 # 2 ^ 49)) < ratio)%Q → r.1 = NKIT_ADVISE_MIGRATE) ∧
  (1000 ≤ instr → (ratio * (1 + (1 # 2 ^ 49)) <= thresh)%Q → r.1 = NKIT_ADVISE_STAY).
Proof.
  intros Hm Hi Rm Ri Bm Bi Ht r ratio thresh.
  assert (E : r = (if instr <? 1000 then NKIT_ADVISE_STAY else
                   if dbl_gt (mpki miss instr) (ctx_threshold ctx) then NKIT_ADVISE_MIGRATE
                   else NKIT_ADVISE_STAY, tls_fresh)).
  { unfold r, nkit_balancer_check. apply Z.eqb_neq in Hm, Hi. rewrite Hm, Hi. cbn [orb]. run_io.
    rewrite Rm. cbn [fst snd Z.eqb]. rewrite Ri. cbn [fst snd Z.eqb].
    by destruct (instr <? 1000), (dbl_gt (mpki miss instr) (ctx_threshold ctx)). }
  rewrite E. cbn [fst snd]. split; [done|].
  destruct (Z.ltb_spec instr 1000); split_and!; try done; try lia; intros _ H1;
    destruct (mpki_decision miss instr (ctx_threshold ctx) Bm ltac:(lia) Ht) as [A B].
  - by rewrite A.
  - by rewrite B.
Qed.

Lemma balancer_check_advice_witness :
  let os := demo_sched (λ _ fd, (8, if fd =? 3 then 120 else 2000)) in
  (nkit_balancer_check os (demo_ctx (Q:=Z) MbNull) (mk_tls 3 4) (demo_kernel0 [])).1.1
    = NKIT_ADVISE_MIGRATE.
Proof.
  apply (balancer_check_advice (demo_sched (λ _ fd, (8, if fd =? 3 then 120 else 2000)))
           (demo_ctx (Q:=Z) MbNull) (mk_tls 3 4) (demo_kernel0 []) 120 2000); cbn; try done; try lia.
  by exists (Z.to_pos (50 * 2 ^ 47)), (-47).
Defined.

(** A failed restart leaves a stale descriptor behind, and the next start
    closes it again: if the program got the same number for a file of its own in
    between, that file is closed under it, and here its number becomes one of the
    balancer's counters.  The calls: start, a start whose first open fails, two
    opens by the rest of the program, start. *)
Theorem balancer_closes_foreign :
  let os := demo_sched (by_event demo_counts) in
  let s1 := nkit_balancer_start os tls_fresh (demo_kernel0 [true; true; false]) in
  let s2 := nkit_balancer_start os s1.1.2 s1.2 in
  let mine := perf_event_open os (mk_attr 1 0 0 0 0 0) 0 s2.2 in
  let mine' := perf_event_open os (mk_attr 1 0 0 0 0 0) 0 mine.2 in
  let s3 := nkit_balancer_start os s2.1.2 mine'.2 in
  s2.1.1 = -1 ∧ mine'.1 ∈ open_fds (os:=os) mine'.2 ∧ mine'.1 = t_fd_instr s2.1.2 ∧
  held s2.1.2 = ∅ ∧ s3.1.1 = 0 ∧ mine'.1 ∈ held s3.1.2.
Proof. vm_compute. split_and!; done. Qed.
