(* ===== verification/Affinity.v ===== *)
(** * Pinning and launching threads (src/sched/affinity.c)

    Pinning is sequential code over the scheduler's system calls.  Launched
    threads are a step system: callers of [nkit_thread_launch], the threads it
    creates and callers of [nkit_thread_join_all] interleave at every access to
    the counter of running threads, and the argument blocks they pass live in an
    explicit heap.  Where a thread runs is asked in [Context]. *)

From stdpp Require Import prelude gmap.
From Stdlib Require Import ZArith Lia.
From S2P Require Import Prelude Words Double SchedOs Arena Ring Context.
Local Open Scope Z_scope.

(** ** Policies (sched.h) *)

Inductive nkit_policy_type_e := NKIT_POLICY_BIND_NODE | NKIT_POLICY_STRICT_CPU.

(** [policy_id] is the union of [node_id] and [cpu_id]. *)
Record nkit_thread_policy_t := mk_policy { policy_type : nkit_policy_type_e; policy_id : Z }.

(** What hwloc answers: the NUMA object of an index, with its CPU set when it has
    one, and binding the calling thread to a CPU set. *)
Record hwloc_os (K : Type) := {
  hwloc_numanode : Z → option (option Z);
  hwloc_set_cpubind : Z → io K Z;
}.
Arguments hwloc_numanode {K}.
Arguments hwloc_set_cpubind {K}.

Definition EINVAL : Z := 22.

Section pinning.
Context {K Q : Type} (os : sched_os K) (hw : hwloc_os K) (ctx : nkit_context_t Q).

(** [_apply_policy]; a hwloc bitmap is an integer, bit [i] for CPU [i]. *)
Definition apply_policy (policy : nkit_thread_policy_t) : io K Z :=
  if negb (ctx_topo ctx) then mret (-1) else
  let cpuset :=
    match policy_type policy with
    | NKIT_POLICY_BIND_NODE =>
        match hwloc_numanode hw (policy_id policy) with Some (Some c) => Some c | _ => None end
    | NKIT_POLICY_STRICT_CPU => Some (Z.shiftl 1 (u32 (policy_id policy)))
    end in
  match cpuset with
  | None => mret (-1)
  | Some c => r ← hwloc_set_cpubind hw c; mret (if r =? 0 then 0 else -1)
  end.

Definition nkit_bind_thread (node_id : Z) : io K Z :=
  apply_policy (mk_policy NKIT_POLICY_BIND_NODE node_id).

Definition nkit_unbind_thread : io K Z :=
  sched_setaffinity os (fill_online (sysconf_nprocessors os)).

(** The return value, and the value stored to [errno]. *)
Definition pinned (ret : Z) : Z * option Z := if ret =? 0 then (0, None) else (-1, Some ret).

(** [self] is the calling thread. *)
Definition nkit_pin_thread_to_core (self core_id : Z) : io K (Z * option Z) :=
  ret ← pthread_setaffinity_np os self (CPU_SET core_id CPU_ZERO);
  mret (pinned ret).

(** Undefined when libnuma returns no mask: the result is not checked. *)
Definition nkit_pin_thread_to_node (self node_id : Z) : io K (outcome (Z * option Z)) :=
  if numa_available os <? 0 then
    if negb (node_id =? 0) then mret (Ret (-1, Some EINVAL)) else
    ret ← pthread_setaffinity_np os self (fill_online (sysconf_nprocessors os));
    mret (Ret (pinned ret))
  else
  if numa_max_node os <? node_id then mret (Ret (-1, Some EINVAL)) else
  ok ← numa_allocate_cpumask os;
  if negb ok then mret UB else
  r ← numa_node_to_cpus os node_id;
  if negb (r.1 =? 0) then numa_free_cpumask os;; mret (Ret (-1, None)) else
  ret ← pthread_setaffinity_np os self (fill_mask (numa_num_configured_cpus os) r.2);
  numa_free_cpumask os;;
  mret (Ret (pinned ret)).
End pinning.

(** ** Launching and joining *)

Record nkit_trampoline_args_t := mk_args {
  args_policy : nkit_thread_policy_t;
  args_func : Z;
  args_arg : Z;
}.

(** A caller of [nkit_thread_launch]: the next access to shared state. *)
Inductive launch_pc :=
| LIdle
| LAdd (p : nat)
| LCreate (p : nat)
| LSub.

(** A launched thread, inside [_nkit_thread_wrapper]. *)
Inductive wrapper_pc :=
| WApply (p : nat)
| WRun (p : nat)
| WFree (p : nat)
| WSub
| WDone.

#[export] Instance launch_pc_eq_dec : EqDecision launch_pc.
Proof. solve_decision. Defined.
#[export] Instance wrapper_pc_eq_dec : EqDecision wrapper_pc.
Proof. solve_decision. Defined.

Record launch_state (K : Type) := mk_ls {
  ls_kernel : K;
  ls_active : Z;                                   (* g_nkit_ctx.active_threads *)
  ls_heap : list (option nkit_trampoline_args_t);  (* [None]: freed *)
  ls_callers : list launch_pc;
  ls_threads : list wrapper_pc;
}.
Arguments mk_ls {K}.
Arguments ls_kernel {K}.
Arguments ls_active {K}.
Arguments ls_heap {K}.
Arguments ls_callers {K}.
Arguments ls_threads {K}.

Inductive launch_event :=
| Launched (t : nat)
| LaunchFailed
| Ran (t : nat) (func arg : Z)
| JoinReturned.

(** [Launch u a ok]: caller [u] calls launch with [a]; [ok] is whether [malloc]
    succeeds.  [Caller u ok]: its next access, [ok] the result of
    [pthread_create].  [Wrapper t]: the next access of thread [t].  [Join]: one
    test of the counter by some caller of join. *)
Inductive launch_label :=
| Launch (u : nat) (a : nkit_trampoline_args_t) (ok : bool)
| Caller (u : nat) (ok : bool)
| Wrapper (t : nat)
| Join.

Section launching.
Context {K Q : Type} (hw : hwloc_os K) (ctx : nkit_context_t Q).
Implicit Types (s : launch_state K).

(** [free(args)]: undefined when the block is not live. *)
Definition free_args (h : list (option nkit_trampoline_args_t)) (p : nat)
    : option (list (option nkit_trampoline_args_t)) :=
  match h !! p with Some (Some _) => Some (<[p := None]> h) | _ => None end.

Definition nkit_thread_launch_step s (u : nat) (pc : launch_pc) (ok : bool)
    : option (launch_state K * list launch_event) :=
  let at_pc pc' := <[u := pc']> (ls_callers s) in
  match pc with
  | LIdle => None
  | LAdd p =>
      Some (mk_ls (ls_kernel s) (s32 (ls_active s + 1)) (ls_heap s) (at_pc (LCreate p)) (ls_threads s), [])
  | LCreate p =>
      if ok then
        Some (mk_ls (ls_kernel s) (ls_active s) (ls_heap s) (at_pc LIdle) (ls_threads s ++ [WApply p]),
              [Launched (length (ls_threads s))])
      else
        match free_args (ls_heap s) p with
        | None => None
        | Some h => Some (mk_ls (ls_kernel s) (ls_active s) h (at_pc LSub) (ls_threads s), [])
        end
  | LSub =>
      Some (mk_ls (ls_kernel s) (s32 (ls_active s - 1)) (ls_heap s) (at_pc LIdle) (ls_threads s),
            [LaunchFailed])
  end.

(** The result of [_apply_policy] is dropped. *)
Definition nkit_thread_wrapper_step s (t : nat) (pc : wrapper_pc)
    : option (launch_state K * list launch_event) :=
  let at_pc pc' := <[t := pc']> (ls_threads s) in
  match pc with
  | WApply p =>
      match ls_heap s !! p with
      | Some (Some a) =>
          Some (mk_ls (apply_policy hw ctx (args_policy a) (ls_kernel s)).2 (ls_active s) (ls_heap s)
                  (ls_callers s) (at_pc (WRun p)), [])
      | _ => None
      end
  | WRun p =>
      match ls_heap s !! p with
      | Some (Some a) =>
          Some (mk_ls (ls_kernel s) (ls_active s) (ls_heap s) (ls_callers s) (at_pc (WFree p)),
                [Ran t (args_func a) (args_arg a)])
      | _ => None
      end
  | WFree p =>
      match free_args (ls_heap s) p with
      | None => None
      | Some h => Some (mk_ls (ls_kernel s) (ls_active s) h (ls_callers s) (at_pc WSub), [])
      end
  | WSub =>
      Some (mk_ls (ls_kernel s) (s32 (ls_active s - 1)) (ls_heap s) (ls_callers s) (at_pc WDone), [])
  | WDone => None
  end.

(** [nkit_thread_join_all]: the loop condition; a positive count sleeps and
    tests again. *)
Definition nkit_thread_join_all_step s : launch_state K * list launch_event :=
  (s, if 0 <? ls_active s then [] else [JoinReturned]).

Definition launch_step s (l : launch_label) : option (launch_state K * list launch_event) :=
  match l with
  | Launch u a ok =>
      match ls_callers s !! u with
      | Some LIdle =>
          if ok then
            Some (mk_ls (ls_kernel s) (ls_active s) (ls_heap s ++ [Some a])
                    (<[u := LAdd (length (ls_heap s))]> (ls_callers s)) (ls_threads s), [])
          else Some (s, [LaunchFailed])
      | _ => None
      end
  | Caller u ok =>
      match ls_callers s !! u with Some pc => nkit_thread_launch_step s u pc ok | None => None end
  | Wrapper t =>
      match ls_threads s !! t with Some pc => nkit_thread_wrapper_step s t pc | None => None end
  | Join => Some (nkit_thread_join_all_step s)
  end.

Definition launch_start (k : K) (callers : nat) : launch_state K :=
  mk_ls k 0 [] (replicate callers LIdle) [].
End launching.

(** ** Invariant of the launched threads *)

Definition caller_ptr (pc : launch_pc) : list nat :=
  match pc with LAdd p | LCreate p => [p] | _ => [] end.
Definition wrapper_ptr (pc : wrapper_pc) : list nat :=
  match pc with WApply p | WRun p | WFree p => [p] | _ => [] end.

(** The accesses that are between an increment of the counter and the decrement
    that undoes it. *)
Definition caller_counted (pc : launch_pc) : list () :=
  match pc with LCreate _ | LSub => [tt] | _ => [] end.
Definition wrapper_counted (pc : wrapper_pc) : list () :=
  match pc with WDone => [] | _ => [tt] end.

Definition has_run (pc : wrapper_pc) : bool :=
  match pc with WApply _ | WRun _ => false | _ => true end.

Definition launched (es : list launch_event) : list nat :=
  omap (λ e, match e with Launched t => Some t | _ => None end) es.
Definition runs (es : list launch_event) : list nat :=
  omap (λ e, match e with Ran t _ _ => Some t | _ => None end) es.

Section invariant.
Context {K Q : Type} (hw : hwloc_os K) (ctx : nkit_context_t Q).
Implicit Types (s : launch_state K).

(** The blocks somebody still has to free. *)
Definition owned s : list nat :=
  holdings caller_ptr (ls_callers s) ++ holdings wrapper_ptr (ls_threads s).

(** The value of the counter. *)
Definition counted s : nat :=
  (length (holdings caller_counted (ls_callers s)) + length (holdings wrapper_counted (ls_threads s)))%nat.

Record launch_inv (c n : nat) (es : list launch_event) s : Prop := {
  li_callers : length (ls_callers s) = c;
  li_threads : (length (ls_threads s) ≤ n)%nat;
  li_active : ls_active s = Z.of_nat (counted s);
  li_nodup : NoDup (owned s);
  li_live p : p ∈ owned s ↔ ∃ a, ls_heap s !! p = Some (Some a);
  li_launched : launched es = seq 0 (length (ls_threads s));
  li_runs : NoDup (runs es);
  li_ran t : t ∈ runs es ↔ ∃ pc, ls_threads s !! t = Some pc ∧ has_run pc = true;
}.

Lemma length_holdings_le {A} (f : A → list ()) l :
  (∀ x, (length (f x) ≤ 1)%nat) → (length (holdings f l) ≤ length l)%nat.
Proof.
  intros Hf. unfold holdings. induction l as [|x l IH]; [done|].
  rewrite bind_cons, length_app. cbn [length]. specialize (Hf x). lia.
Qed.

Lemma counted_le c n es s : launch_inv c n es s → (counted s ≤ c + n)%nat.
Proof.
  intros [<- Hn _ _ _ _ _ _]. unfold counted.
  pose proof (length_holdings_le caller_counted (ls_callers s) ltac:(intros []; cbn; lia)).
  pose proof (length_holdings_le wrapper_counted (ls_threads s) ltac:(intros []; cbn; lia)). lia.
Qed.

(** A caller or a thread moves and the blocks and events stay what they are. *)
Lemma owned_caller s u pc pc' k a h ts :
  ls_callers s !! u = Some pc → ts = ls_threads s →
  caller_ptr pc ++ owned (mk_ls k a h (<[u := pc']> (ls_callers s)) ts) ≡ₚ caller_ptr pc' ++ owned s.
Proof.
  intros Hu ->. unfold owned. cbn [ls_callers ls_threads]. rewrite !app_assoc. by rewrite (holdings_insert _ _ _ _ _ Hu).
Qed.

Lemma owned_wrapper s t pc pc' k a h cs :
  ls_threads s !! t = Some pc → cs = ls_callers s →
  wrapper_ptr pc ++ owned (mk_ls k a h cs (<[t := pc']> (ls_threads s))) ≡ₚ wrapper_ptr pc' ++ owned s.
Proof.
  intros Ht ->. unfold owned. cbn [ls_callers ls_threads].
  rewrite !(Permutation_app_comm (holdings caller_ptr _)), !app_assoc.
  by rewrite (holdings_insert _ _ _ _ _ Ht).
Qed.

Lemma counted_caller s u pc pc' k a h :
  ls_callers s !! u = Some pc →
  (length (caller_counted pc) + counted (mk_ls k a h (<[u := pc']> (ls_callers s)) (ls_threads s)) =
   length (caller_counted pc') + counted s)%nat.
Proof.
  intros Hu. unfold counted. cbn [ls_callers ls_threads].
  pose proof (holdings_insert_length caller_counted _ _ pc' _ Hu). lia.
Qed.

Lemma counted_wrapper s t pc pc' k a h :
  ls_threads s !! t = Some pc →
  (length (wrapper_counted pc) + counted (mk_ls k a h (ls_callers s) (<[t := pc']> (ls_threads s))) =
   length (wrapper_counted pc') + counted s)%nat.
Proof.
  intros Ht. unfold counted. cbn [ls_callers ls_threads].
  pose proof (holdings_insert_length wrapper_counted _ _ pc' _ Ht). lia.
Qed.

Lemma owned_live c n es s p pc u :
  launch_inv c n es s → ls_callers s !! u = Some pc → p ∈ caller_ptr pc →
  ∃ a, ls_heap s !! p = Some (Some a).
Proof.
  intros I Hu Hp. apply (li_live _ _ _ _ I). unfold owned. apply elem_of_app. left.
  apply elem_of_holdings. eauto.
Qed.

Lemma owned_live_wrapper c n es s p pc t :
  launch_inv c n es s → ls_threads s !! t = Some pc → p ∈ wrapper_ptr pc →
  ∃ a, ls_heap s !! p = Some (Some a).
Proof.
  intros I Ht Hp. apply (li_live _ _ _ _ I). unfold owned. apply elem_of_app. right.
  apply elem_of_holdings. eauto.
Qed.

(** Freeing an owned block. *)
Lemma free_owned (h : list (option nkit_trampoline_args_t)) (o o' : list nat) p :
  (∀ q, q ∈ o ↔ ∃ a, h !! q = Some (Some a)) → NoDup o → p :: o' ≡ₚ o →
  free_args h p = Some (<[p := None]> h) ∧ NoDup o' ∧
  ∀ q, q ∈ o' ↔ ∃ a, <[p := None]> h !! q = Some (Some a).
Proof.
  intros Hl Hnd Hp. assert (Hin : p ∈ o) by (rewrite <-Hp; left).
  pose proof Hin as [a Ha]%Hl. rewrite <-Hp in Hnd. apply NoDup_cons in Hnd as [Hni Hnd].
  pose proof (lookup_lt_Some _ _ _ Ha) as Hlt. split; [unfold free_args; by rewrite Ha|]. split; [done|].
  intros q. rewrite lookup_insert_decide by done. case_decide as E.
  - subst q. split; [done|by intros [? ?]].
  - rewrite <-Hl, <-Hp, elem_of_cons. split; [by right|by intros [->|?]].
Qed.

(** A thread moves without passing its call of the user function. *)
Lemma ran_insert (ths : list wrapper_pc) t pc pc' t0 :
  ths !! t = Some pc → has_run pc' = has_run pc →
  (∃ q, <[t := pc']> ths !! t0 = Some q ∧ has_run q = true) ↔
  (∃ q, ths !! t0 = Some q ∧ has_run q = true).
Proof.
  intros Ht Hr. rewrite lookup_insert_decide by (by eapply lookup_lt_Some).
  case_decide as E; [subst t0; rewrite Ht|done].
  split; intros (q & [= <-] & Hq); eexists; (split; [done|congruence]).
Qed.

(** Steps of a caller that keep the block it holds. *)
Lemma caller_moves c n es s u pc pc' act es' :
  launch_inv c n es s → ls_callers s !! u = Some pc → caller_ptr pc' = caller_ptr pc →
  act + Z.of_nat (length (caller_counted pc)) = ls_active s + Z.of_nat (length (caller_counted pc')) →
  launched es' = [] → runs es' = [] →
  launch_inv c (S n) (es ++ es')
    (mk_ls (ls_kernel s) act (ls_heap s) (<[u := pc']> (ls_callers s)) (ls_threads s)).
Proof.
  intros I Hu Hp Ha Hl Hr.
  pose proof (owned_caller s u pc pc' (ls_kernel s) act (ls_heap s) _ Hu eq_refl) as Ho.
  rewrite Hp in Ho. apply Permutation_app_inv_l in Ho.
  pose proof (counted_caller s u pc pc' (ls_kernel s) act (ls_heap s) Hu) as Hc.
  destruct I as [I1 I2 I3 I4 I5 I6 I7 I8]. split; cbn [ls_callers ls_threads ls_active ls_heap].
  - by rewrite length_insert.
  - lia.
  - lia.
  - by rewrite Ho.
  - intros q. by rewrite Ho.
  - unfold launched in *. by rewrite omap_app, Hl, app_nil_r.
  - unfold runs in *. by rewrite omap_app, Hr, app_nil_r.
  - intros t. unfold runs in *. by rewrite omap_app, Hr, app_nil_r.
Qed.

(** Steps of a thread that keep its block. *)
Lemma wrapper_moves c n es s t pc pc' k :
  launch_inv c n es s → ls_threads s !! t = Some pc → wrapper_ptr pc' = wrapper_ptr pc →
  has_run pc' = has_run pc →
  launch_inv c (S n) (es ++ [])
    (mk_ls k (ls_active s + Z.of_nat (length (wrapper_counted pc')) - Z.of_nat (length (wrapper_counted pc)))
       (ls_heap s) (ls_callers s) (<[t := pc']> (ls_threads s))).
Proof.
  intros I Ht Hp Hr. remember (_ - _) as act eqn:Ea.
  pose proof (owned_wrapper s t pc pc' k act (ls_heap s) _ Ht eq_refl) as Ho.
  rewrite Hp in Ho. apply Permutation_app_inv_l in Ho.
  pose proof (counted_wrapper s t pc pc' k act (ls_heap s) Ht) as Hc.
  destruct I as [I1 I2 I3 I4 I5 I6 I7 I8]. rewrite app_nil_r.
  split; cbn [ls_callers ls_threads ls_active ls_heap]; rewrite ?length_insert; auto.
  - lia.
  - by rewrite Ho.
  - intros q. by rewrite Ho.
  - intros t0. rewrite I8. symmetry. by eapply ran_insert.
Qed.

Lemma launch_new c n es s u a :
  launch_inv c n es s → ls_callers s !! u = Some LIdle →
  launch_inv c (S n) (es ++ [])
    (mk_ls (ls_kernel s) (ls_active s) (ls_heap s ++ [Some a])
       (<[u := LAdd (length (ls_heap s))]> (ls_callers s)) (ls_threads s)).
Proof.
  intros I Hu. set (p := length (ls_heap s)).
  pose proof (owned_caller s u _ (LAdd p) (ls_kernel s) (ls_active s) (ls_heap s ++ [Some a]) _ Hu eq_refl) as Ho.
  pose proof (counted_caller s u _ (LAdd p) (ls_kernel s) (ls_active s) (ls_heap s ++ [Some a]) Hu) as Hc.
  cbn [caller_ptr caller_counted app length] in Ho, Hc.
  assert (Hnew : ls_heap s !! p = None) by (apply lookup_ge_None; unfold p; lia).
  destruct I as [I1 I2 I3 I4 I5 I6 I7 I8]. rewrite app_nil_r.
  assert (Hni : p ∉ owned s) by (rewrite I5; intros [b Hb]; congruence).
  split; cbn [ls_callers ls_threads ls_active ls_heap]; rewrite ?length_insert; auto.
  - lia.
  - rewrite Ho. by constructor.
  - intros q. rewrite Ho, elem_of_cons, I5. split.
    + intros [->|[b Hb]]; [exists a; by apply list_lookup_middle|]. exists b. by apply lookup_app_l_Some.
    + intros [b Hb]. apply lookup_app_Some in Hb as [Hb|[Hge Hb]]; [right; eauto|].
      apply list_lookup_singleton_Some in Hb as [Hz _]. left. unfold p. lia.
Qed.

(** The thread is created: its block passes from the caller to it. *)
Lemma launch_created c n es s u p :
  launch_inv c n es s → ls_callers s !! u = Some (LCreate p) →
  launch_inv c (S n) (es ++ [Launched (length (ls_threads s))])
    (mk_ls (ls_kernel s) (ls_active s) (ls_heap s) (<[u := LIdle]> (ls_callers s))
       (ls_threads s ++ [WApply p])).
Proof.
  intros I Hu.
  pose proof (holdings_insert caller_ptr _ _ LIdle _ Hu) as Ho.
  pose proof (holdings_insert_length caller_counted _ _ LIdle _ Hu) as Hc.
  cbn [caller_ptr caller_counted app length] in Ho, Hc.
  destruct I as [I1 I2 I3 I4 I5 I6 I7 I8].
  assert (Hown : owned (mk_ls (ls_kernel s) (ls_active s) (ls_heap s) (<[u := LIdle]> (ls_callers s))
                   (ls_threads s ++ [WApply p])) ≡ₚ owned s).
  { unfold owned. cbn [ls_callers ls_threads]. rewrite holdings_app, <-Ho. cbn.
    by rewrite app_assoc, <-Permutation_cons_append. }
  split; cbn [ls_callers ls_threads ls_active ls_heap].
  - by rewrite length_insert.
  - rewrite length_app. cbn. lia.
  - rewrite I3. unfold counted. cbn [ls_callers ls_threads]. rewrite holdings_app, length_app. cbn. lia.
  - by rewrite Hown.
  - intros q. by rewrite Hown.
  - unfold launched in *. rewrite omap_app, I6, length_app, seq_app. done.
  - unfold runs in *. by rewrite omap_app, app_nil_r.
  - intros t. unfold runs in *. rewrite omap_app, app_nil_r, I8. split.
    + intros (pc & Hpc & Hr). exists pc. split; [by apply lookup_app_l_Some|done].
    + intros (pc & [Hpc|[Hge Hpc]]%lookup_app_Some & Hr); [by exists pc|].
      apply list_lookup_singleton_Some in Hpc as [_ <-]. done.
Qed.

Lemma create_failed c n es s u p :
  launch_inv c n es s → ls_callers s !! u = Some (LCreate p) →
  ∃ h, free_args (ls_heap s) p = Some h ∧
    launch_inv c (S n) (es ++ [])
      (mk_ls (ls_kernel s) (ls_active s) h (<[u := LSub]> (ls_callers s)) (ls_threads s)).
Proof.
  intros I Hu. set (h := <[p := None]> (ls_heap s)).
  pose proof (owned_caller s u _ LSub (ls_kernel s) (ls_active s) h _ Hu eq_refl) as Ho.
  pose proof (counted_caller s u _ LSub (ls_kernel s) (ls_active s) h Hu) as Hc.
  cbn [caller_ptr caller_counted app length] in Ho, Hc. rewrite app_nil_r.
  destruct I as [I1 I2 I3 I4 I5 I6 I7 I8].
  destruct (free_owned _ _ _ p I5 I4 Ho) as (E & Hnd & Hl). exists h. split; [done|].
  split; cbn [ls_callers ls_threads ls_active ls_heap]; rewrite ?length_insert; auto. lia.
Qed.

Lemma wrapper_ran c n es s t p f a :
  launch_inv c n es s → ls_threads s !! t = Some (WRun p) →
  launch_inv c (S n) (es ++ [Ran t f a])
    (mk_ls (ls_kernel s) (ls_active s) (ls_heap s) (ls_callers s) (<[t := WFree p]> (ls_threads s))).
Proof.
  intros I Ht.
  pose proof (owned_wrapper s t _ (WFree p) (ls_kernel s) (ls_active s) (ls_heap s) _ Ht eq_refl) as Ho.
  apply Permutation_app_inv_l in Ho.
  pose proof (counted_wrapper s t _ (WFree p) (ls_kernel s) (ls_active s) (ls_heap s) Ht) as Hc.
  cbn [wrapper_counted length] in Hc. pose proof (lookup_lt_Some _ _ _ Ht) as Hlt.
  destruct I as [I1 I2 I3 I4 I5 I6 I7 I8].
  assert (Hni : t ∉ runs es) by (rewrite I8, Ht; intros (pc & [= <-] & ?); done).
  split; cbn [ls_callers ls_threads ls_active ls_heap]; rewrite ?length_insert; auto.
  - lia.
  - by rewrite Ho.
  - intros q. by rewrite Ho.
  - unfold launched in *. by rewrite omap_app, app_nil_r.
  - unfold runs in *. rewrite omap_app. cbn. apply NoDup_app. split; [done|].
    split; [|apply NoDup_singleton]. intros x Hx ->%list_elem_of_singleton. done.
  - intros t0. unfold runs in *. rewrite omap_app, elem_of_app, I8. cbn.
    rewrite list_elem_of_singleton, lookup_insert_decide by done. case_decide as E; [|naive_solver].
    subst t0. split; [|by right]. intros _. by exists (WFree p).
Qed.

Lemma wrapper_freed c n es s t p :
  launch_inv c n es s → ls_threads s !! t = Some (WFree p) →
  ∃ h, free_args (ls_heap s) p = Some h ∧
    launch_inv c (S n) (es ++ [])
      (mk_ls (ls_kernel s) (ls_active s) h (ls_callers s) (<[t := WSub]> (ls_threads s))).
Proof.
  intros I Ht. set (h := <[p := None]> (ls_heap s)).
  pose proof (owned_wrapper s t _ WSub (ls_kernel s) (ls_active s) h _ Ht eq_refl) as Ho.
  pose proof (counted_wrapper s t _ WSub (ls_kernel s) (ls_active s) h Ht) as Hc.
  cbn [wrapper_ptr wrapper_counted app length] in Ho, Hc. rewrite app_nil_r.
  destruct I as [I1 I2 I3 I4 I5 I6 I7 I8].
  destruct (free_owned _ _ _ p I5 I4 Ho) as (E & Hnd & Hl). exists h. split; [done|].
  split; cbn [ls_callers ls_threads ls_active ls_heap]; rewrite ?length_insert; auto; [lia|].
  intros t0. rewrite I8. symmetry. by eapply ran_insert.
Qed.

Lemma launch_inv_step c n es s l s' es' :
  Z.of_nat (c + S n) < 2 ^ 31 → launch_inv c n es s → launch_step hw ctx s l = Some (s', es') →
  launch_inv c (S n) (es ++ es') s'.
Proof.
  intros Hb I Hs. pose proof (counted_le c n es s I) as Hle. pose proof (li_active _ _ _ _ I) as Ha.
  destruct l as [u a ok|u ok|t|]; cbn [launch_step] in Hs.
  - destruct (ls_callers s !! u) as [[]|] eqn:Hu; try done. destruct ok; simplify_eq; [by apply launch_new|].
    pose proof (caller_moves c n es s' u LIdle LIdle (ls_active s') [LaunchFailed] I Hu) as H.
    rewrite list_insert_id in H by done. destruct s'. by apply H.
  - destruct (ls_callers s !! u) as [pc|] eqn:Hu; [|done]. destruct pc; cbn [nkit_thread_launch_step] in Hs.
    + done.
    + simplify_eq. rewrite s32_small by lia. apply (caller_moves c n es s u _ _ _ _ I Hu); cbn; done || lia.
    + destruct ok; simplify_eq; [by apply launch_created|].
      destruct (create_failed c n es s u p I Hu) as (h & E & I'). rewrite E in Hs. by simplify_eq.
    + simplify_eq. pose proof (holdings_insert_length caller_counted _ _ LIdle _ Hu) as Hc.
      cbn [caller_counted length] in Hc. unfold counted in *.
      rewrite s32_small by lia. apply (caller_moves c n es s u _ _ _ _ I Hu); cbn; done || lia.
  - destruct (ls_threads s !! t) as [pc|] eqn:Ht; [|done]. destruct pc; cbn [nkit_thread_wrapper_step] in Hs.
    + destruct (ls_heap s !! p) as [[a|]|]; simplify_eq.
      pose proof (wrapper_moves c n es s t _ (WRun p)
        (apply_policy hw ctx (args_policy a) (ls_kernel s)).2 I Ht eq_refl eq_refl) as H.
      cbn [wrapper_counted length] in H. by rewrite Z.add_simpl_r in H.
    + destruct (ls_heap s !! p) as [[a|]|]; simplify_eq. by apply wrapper_ran.
    + destruct (wrapper_freed c n es s t p I Ht) as (h & E & I'). rewrite E in Hs. by simplify_eq.
    + simplify_eq. pose proof (holdings_insert_length wrapper_counted _ _ WDone _ Ht) as Hc.
      cbn [wrapper_counted length] in Hc. unfold counted in *. rewrite s32_small by lia.
      pose proof (wrapper_moves c n es s t _ WDone (ls_kernel s) I Ht eq_refl eq_refl) as H.
      cbn [wrapper_counted length] in H. by rewrite Z.add_0_r in H.
    + done.
  - unfold nkit_thread_join_all_step in Hs. injection Hs as <- <-.
    set (es' := if 0 <? ls_active s then [] else [JoinReturned]).
    assert (launched es' = [] ∧ runs es' = []) as [Hl Hr] by (unfold es'; by destruct (_ <? _)).
    destruct I as [I1 I2 I3 I4 I5 I6 I7 I8]. unfold launched, runs in *.
    split; unfold launched, runs; rewrite ?omap_app, ?Hl, ?Hr, ?app_nil_r; auto.
Qed.

Lemma launch_inv_start k c : launch_inv c 0 [] (launch_start k c).
Proof.
  assert (E1 : holdings caller_ptr (replicate c LIdle) = []) by (by apply holdings_replicate).
  assert (E2 : holdings caller_counted (replicate c LIdle) = []) by (by apply holdings_replicate).
  split; unfold counted, owned, launch_start; cbn [ls_callers ls_threads ls_active ls_heap].
  - apply length_replicate.
  - done.
  - by rewrite E2.
  - rewrite E1. constructor.
  - intros p. rewrite E1. split; [by intros ?%elem_of_nil|by intros [? ?]].
  - done.
  - constructor.
  - intros t. split; [by intros ?%elem_of_nil|by intros (? & ? & _)].
Qed.

Lemma launch_inv_run k c sched s es :
  Z.of_nat (c + length sched) < 2 ^ 31 →
  traced (launch_step hw ctx) (launch_start k c) sched = Some (s, es) →
  launch_inv c (length sched) es s.
Proof.
  intros Hb Hr.
  refine (traced_invariant (launch_step hw ctx)
    (λ n es s, Z.of_nat (c + n) < 2 ^ 31 → launch_inv c n es s) _ _ _ sched s es Hr Hb).
  - intros _. apply launch_inv_start.
  - intros n es0 s0 l s' es' H Hs Hn. eapply launch_inv_step; eauto. apply H. lia.
Qed.

(** Nobody is counted any more. *)
Lemma counted_zero s t pc : counted s = 0%nat → ls_threads s !! t = Some pc → pc = WDone.
Proof.
  intros Hz Ht. unfold counted in Hz.
  assert (H : holdings wrapper_counted (ls_threads s) = []) by (apply nil_length_inv; lia).
  destruct (decide (pc = WDone)) as [|Hne]; [done|].
  assert (Hin : tt ∈ holdings wrapper_counted (ls_threads s)).
  { apply elem_of_holdings. exists t, pc. split; [done|]. destruct pc; [left..|done]. }
  rewrite H in Hin. by apply elem_of_nil in Hin.
Qed.
End invariant.

(** ** Properties *)

(** C20. [nkit_thread_join_all] waits for everyone: when it returns, every thread
    whose launch had returned success has called its function, exactly once, and
    has freed its arguments; it does return once every launched thread is done
    and no launch is in progress.  For any number of callers and any
    interleaving in which the counter of threads fits its [int]; nothing is read
    or freed twice along the way, so every caller and thread can always move. *)
Theorem join_all_waits {K Q} (hw : hwloc_os K) (ctx : nkit_context_t Q) k c sched s es :
  Z.of_nat (c + length sched) < 2 ^ 31 →
  traced (launch_step hw ctx) (launch_start k c) sched = Some (s, es) →
  NoDup (runs es) ∧
  (launch_step hw ctx s Join = Some (s, [JoinReturned]) →
     (∀ t, t ∈ launched es → t ∈ runs es ∧ ls_threads s !! t = Some WDone) ∧
     (∀ p a, ls_heap s !! p = Some (Some a) → ∃ u, ls_callers s !! u = Some (LAdd p))) ∧
  ((∀ t, t ∈ launched es → ls_threads s !! t = Some WDone) →
   (∀ u pc, ls_callers s !! u = Some pc → pc = LIdle) →
     launch_step hw ctx s Join = Some (s, [JoinReturned])) ∧
  (∀ t pc, ls_threads s !! t = Some pc → pc ≠ WDone → is_Some (launch_step hw ctx s (Wrapper t))) ∧
  (∀ u pc ok, ls_callers s !! u = Some pc → pc ≠ LIdle → is_Some (launch_step hw ctx s (Caller u ok))).
Proof.
  intros Hb Hr. pose proof (launch_inv_run hw ctx k c sched s es Hb Hr) as I.
  pose proof (li_active _ _ _ _ I) as Ha. split; [apply I|]. split_and!.
  - cbn [launch_step]. unfold nkit_thread_join_all_step. intros [= E].
    destruct (Z.ltb_spec 0 (ls_active s)) as [|Hle]; [done|]. assert (Hz : counted s = 0%nat) by lia. split.
    + intros t Ht. rewrite (li_launched _ _ _ _ I), elem_of_seq in Ht.
      destruct (ls_threads s !! t) as [pc|] eqn:Epc; [|apply lookup_ge_None in Epc; lia].
      assert (pc = WDone) as -> by by eapply counted_zero. split; [|done].
      apply (li_ran _ _ _ _ I). by exists WDone.
    + intros p a Hp. assert (Hin : p ∈ owned s) by (apply (li_live _ _ _ _ I); eauto).
      unfold owned in Hin. apply elem_of_app in Hin as [Hin|Hin]; apply elem_of_holdings in Hin as (i & pc & Hi & Hx).
      * exists i. destruct pc as [|q|q|]; cbn in Hx; try by apply elem_of_nil in Hx.
        -- by apply list_elem_of_singleton in Hx as ->.
        -- exfalso. unfold counted in Hz.
           assert (H : tt ∈ holdings caller_counted (ls_callers s))
             by (apply elem_of_holdings; exists i, (LCreate q); split; [done|left]).
           destruct (holdings caller_counted (ls_callers s)); [by apply elem_of_nil in H|cbn in Hz; lia].
      * rewrite (counted_zero _ _ _ Hz Hi) in Hx. by apply elem_of_nil in Hx.
  - intros Hd Hidle. cbn [launch_step]. unfold nkit_thread_join_all_step.
    assert (Hz : counted s = 0%nat); [|rewrite Ha, Hz; done]. unfold counted.
    rewrite !holdings_none; [done| |].
    + intros pc [t Ht]%list_elem_of_lookup.
      assert (ls_threads s !! t = Some WDone) as E.
      { apply Hd. rewrite (li_launched _ _ _ _ I), elem_of_seq. apply lookup_lt_Some in Ht. lia. }
      by simplify_eq.
    + intros pc [u Hu]%list_elem_of_lookup. by rewrite (Hidle u pc Hu).
  - intros t pc Ht Hne. cbn [launch_step]. rewrite Ht.
    destruct pc; cbn [nkit_thread_wrapper_step]; try done;
      destruct (owned_live_wrapper _ _ _ _ p _ t I Ht ltac:(left)) as [a Hp];
      unfold free_args; by rewrite Hp.
  - intros u pc ok Hu Hne. cbn [launch_step]. rewrite Hu.
    destruct pc; cbn [nkit_thread_launch_step]; try done. destruct ok; [done|].
    destruct (owned_live _ _ _ _ p _ u I Hu ltac:(left)) as [a Hp]. unfold free_args. by rewrite Hp.
Qed.

Definition demo_hwloc : hwloc_os demo_kernel := {|
  hwloc_numanode i := if (0 <=? i) && (i <? 2) then Some (Some (Z.shiftl 15 (4 * i))) else None;
  hwloc_set_cpubind c k := (0, k);
|}.

Definition demo_args (f : Z) : nkit_trampoline_args_t :=
  mk_args (mk_policy NKIT_POLICY_BIND_NODE 1) f 7.

(** Two callers launch, one creation fails; the first thread runs to its end. *)
Definition demo_launches : list launch_label :=
  [Launch 0 (demo_args 100) true; Caller 0 true; Launch 1 (demo_args 200) true; Caller 0 true;
   Join; Caller 1 true; Wrapper 0; Caller 1 false; Wrapper 0; Caller 1 true; Wrapper 0; Join; Wrapper 0].

Lemma join_all_waits_witness :
  match traced (launch_step demo_hwloc (demo_ctx (Q:=Z) MbNull)) (launch_start (demo_kernel0 []) 2)
          demo_launches with
  | Some (s, es) => es = [Launched 0; Ran 0 100 7; LaunchFailed] ∧
      launch_step demo_hwloc (demo_ctx (Q:=Z) MbNull) s Join = Some (s, [JoinReturned]) ∧
      ∀ t, t ∈ launched es → t ∈ runs es ∧ ls_threads s !! t = Some WDone
  | None => False
  end.
Proof.
  destruct (traced _ _ _) as [[s es]|] eqn:E; [|by vm_compute in E].
  assert (Hj : launch_step demo_hwloc (demo_ctx (Q:=Z) MbNull) s Join = Some (s, [JoinReturned]))
    by (vm_compute in E; by simplify_eq).
  split; [vm_compute in E; by simplify_eq|]. split; [done|].
  apply (join_all_waits demo_hwloc (demo_ctx (Q:=Z) MbNull) (demo_kernel0 []) 2 demo_launches s es
           ltac:(by vm_compute) E). done.
Defined.

(** Pinning to a node, when libnuma works and the node is not above the last
    one: with the node's CPUs [mask] from libnuma, the kernel is asked for exactly
    the configured CPUs of [mask] below 1024, its refusal becomes [-1] with
    [errno] set, its agreement 0, and a libnuma refusal becomes [-1]; on all these
    paths the mask that was allocated is freed. *)
Theorem pin_thread_to_node_correct {K} (os : sched_os K) {OS : SchedOS_ok os} self node k :
  0 ≤ numa_available os → node ≤ numa_max_node os → (numa_allocate_cpumask os k).1 = true →
  let k1 := (numa_allocate_cpumask os k).2 in
  let cpus := (numa_node_to_cpus os node k1).1 in
  let k2 := (numa_node_to_cpus os node k1).2 in
  let res := nkit_pin_thread_to_node os self node k in
  cpumasks res.2 = cpumasks k ∧ open_fds res.2 = open_fds k ∧
  (cpus.1 ≠ 0 → res.1 = Ret (-1, None)) ∧
  (cpus.1 = 0 → ∃ cpuset,
     (∀ c, 0 ≤ c → Z.testbit cpuset c =
        Z.testbit cpus.2 c && (c <? numa_num_configured_cpus os) && (c <? 1024)) ∧
     let r := pthread_setaffinity_np os self cpuset k2 in
     res = (Ret (if r.1 =? 0 then (0, None) else (-1, Some r.1)), (numa_free_cpumask os r.2).2)).
Proof.
  intros Ha Hn Hok. unfold nkit_pin_thread_to_node.
  destruct (Z.ltb_spec (numa_available os) 0); [lia|].
  destruct (Z.ltb_spec (numa_max_node os) node); [lia|]. run_io. rewrite Hok. cbn [negb].
  destruct (alloc_mask_ok k) as [F1 M1]. rewrite Hok in M1.
  set (k1 := (numa_allocate_cpumask os k).2) in *.
  destruct (node_to_cpus_ok node k1) as [F2 M2].
  destruct (numa_node_to_cpus os node k1) as [[ret mask] k2]. cbn [fst snd] in *.
  destruct (Z.eqb_spec ret 0) as [->|Hne]; cbn [negb fst snd].
  - set (cpuset := fill_mask _ mask). destruct (setaffinity_ok self cpuset k2) as [F3 M3].
    destruct (free_mask_ok (pthread_setaffinity_np os self cpuset k2).2) as [F4 M4].
    split; [lia|]. split; [congruence|]. split; [done|]. intros _. exists cpuset.
    split; [intros c Hc; by apply fill_mask_spec|]. unfold pinned. done.
  - destruct (free_mask_ok k2) as [F4 M4]. split; [lia|]. split; [congruence|]. done.
Qed.

Lemma pin_thread_to_node_correct_witness :
  (nkit_pin_thread_to_node (demo_sched (by_event (λ _, 0))) 9 1 (demo_kernel0 [])).1 = Ret (0, None) ∧
  cpumasks (os:=demo_sched (by_event (λ _, 0)))
    (nkit_pin_thread_to_node (demo_sched (by_event (λ _, 0))) 9 1 (demo_kernel0 [])).2
    = cpumasks (os:=demo_sched (by_event (λ _, 0))) (demo_kernel0 []).
Proof.
  split; [by vm_compute|].
  apply (pin_thread_to_node_correct (demo_sched (by_event (λ _, 0))) 9 1 (demo_kernel0 []));
    cbn; done || lia.
Defined.
