(* ===== verification/AutoBalancer.v ===== *)
(** * The automatic balancer (src/sched/auto_balancer.c)

    A monitor thread walks a table of registered threads, samples two counters
    for each and moves a thread to the next node when its ratio is above the
    threshold.  Registration runs under a mutex; the monitor does not take it.
    So the model is a step system: the monitor moves from one access of the table
    to the next, and a registration writes its slot field by field. *)

From stdpp Require Import prelude gmap gmultiset.
From Stdlib Require Import ZArith Lia SpecFloat.
From S2P Require Import Prelude Words Double SchedOs Arena Ring Context.
Local Open Scope Z_scope.
Local Open Scope word_scope.

(** ** Data *)

Definition AB_MAX_THREADS : nat := 64.
Definition AB_MIN_INSTRUCTIONS : Z := 1000.

Record ab_entry_t := mk_entry {
  e_tid : Z;
  e_current_node : Z;
  e_fd_miss : Z;
  e_fd_instr : Z;
  e_active : bool;
}.

(** [ab_callback]: whether a callback was given.  The mutex and the monitor are
    in the step system below. *)
Record nkit_auto_balancer := mk_ab {
  ab_stop : bool;
  ab_interval_ms : Z;
  ab_mpki_threshold : double;
  ab_callback : bool;
  ab_entries : list ab_entry_t;
  ab_migration_count : Z;
}.

Definition set_entries (ab : nkit_auto_balancer) (l : list ab_entry_t) : nkit_auto_balancer :=
  mk_ab (ab_stop ab) (ab_interval_ms ab) (ab_mpki_threshold ab) (ab_callback ab) l (ab_migration_count ab).
Definition set_count (ab : nkit_auto_balancer) (n : Z) : nkit_auto_balancer :=
  mk_ab (ab_stop ab) (ab_interval_ms ab) (ab_mpki_threshold ab) (ab_callback ab) (ab_entries ab) n.
Definition set_stop (ab : nkit_auto_balancer) : nkit_auto_balancer :=
  mk_ab true (ab_interval_ms ab) (ab_mpki_threshold ab) (ab_callback ab) (ab_entries ab) (ab_migration_count ab).

(** ** Creation and the registry *)

(** [calloc_ok], [create_ok]: the results of [calloc] and [pthread_create]. *)
Definition nkit_auto_balancer_create (calloc_ok create_ok : bool) (interval_ms : Z)
    (mpki_thresh : double) (cb : bool) : option nkit_auto_balancer :=
  if interval_ms =? 0 then None else
  if dbl_le mpki_thresh (dbl_of_Z 0) then None else
  if negb calloc_ok then None else
  if negb create_ok then None else
  Some (mk_ab false interval_ms mpki_thresh cb (replicate AB_MAX_THREADS (mk_entry 0 0 (-1) (-1) false)) 0).

(** The first slot that is not active. *)
Definition free_slot (l : list ab_entry_t) : option nat :=
  fst <$> list_find (λ e, e_active e = false) l.

(** The first active slot of a thread. *)
Definition slot_of_thread (l : list ab_entry_t) (tid : Z) : option nat :=
  fst <$> list_find (λ e, e_active e = true ∧ e_tid e = tid) l.

(** The stores of a registration, in order: the thread, the node, the
    descriptors, and last that the slot is active. *)
Definition set_tid (e : ab_entry_t) (tid : Z) : ab_entry_t :=
  mk_entry tid (e_current_node e) (e_fd_miss e) (e_fd_instr e) (e_active e).
Definition set_node (e : ab_entry_t) (node : Z) : ab_entry_t :=
  mk_entry (e_tid e) node (e_fd_miss e) (e_fd_instr e) (e_active e).
Definition set_fds (e : ab_entry_t) (m i : Z) : ab_entry_t :=
  mk_entry (e_tid e) (e_current_node e) m i (e_active e).
Definition set_active (e : ab_entry_t) (b : bool) : ab_entry_t :=
  mk_entry (e_tid e) (e_current_node e) (e_fd_miss e) (e_fd_instr e) b.

Definition nkit_auto_balancer_register (ab : nkit_auto_balancer) (tid node : Z)
    : Z * nkit_auto_balancer :=
  match free_slot (ab_entries ab) with
  | Some i =>
      (0, set_entries ab (alter (λ e, set_active (set_fds (set_node (set_tid e tid) node) (-1) (-1)) true)
                            i (ab_entries ab)))
  | None => (-1, ab)
  end.

Definition nkit_auto_balancer_unregister (ab : nkit_auto_balancer) (tid : Z)
    : Z * nkit_auto_balancer :=
  match slot_of_thread (ab_entries ab) tid with
  | Some i => (0, set_entries ab (alter (λ e, set_active e false) i (ab_entries ab)))
  | None => (-1, ab)
  end.

Definition nkit_auto_balancer_migrations (ab : nkit_auto_balancer) : Z := ab_migration_count ab.

(** ** One sample and one target *)

(** [_find_target_node], with C's remainder. *)
Definition find_target_node (current_node num_nodes : Z) : Z :=
  if num_nodes <=? 1 then current_node else Z.rem (current_node + 1) num_nodes.

Section system.
Context {K : Type} (os : sched_os K).

(** [_ab_perf_open] for the calling thread, as an [int]. *)
Definition ab_perf_open (type config : Z) : io K Z :=
  fd ← perf_event_open os (mk_attr type config 1 1 1 0) 0;
  mret (s32 fd).

(** [if (fd >= 0) close(fd)] *)
Definition close_opened (fd : Z) : io K () := if 0 <=? fd then sys_close os fd else mret tt.

(** The counts of one sampling window; [None] when a counter cannot be opened. *)
Definition ab_sample : io K (option (Z * Z)) :=
  fd_miss ← ab_perf_open PERF_TYPE_HARDWARE PERF_COUNT_HW_CACHE_MISSES;
  fd_instr ← ab_perf_open PERF_TYPE_HARDWARE PERF_COUNT_HW_INSTRUCTIONS;
  if (fd_miss <? 0) || (fd_instr <? 0) then
    close_opened fd_miss;;
    close_opened fd_instr;;
    mret None
  else
    sys_ioctl os fd_miss PERF_EVENT_IOC_RESET;;
    sys_ioctl os fd_instr PERF_EVENT_IOC_RESET;;
    sys_ioctl os fd_miss PERF_EVENT_IOC_ENABLE;;
    sys_ioctl os fd_instr PERF_EVENT_IOC_ENABLE;;
    sys_ioctl os fd_miss PERF_EVENT_IOC_DISABLE;;
    sys_ioctl os fd_instr PERF_EVENT_IOC_DISABLE;;
    r1 ← sys_read os fd_miss;
    r2 ← sys_read os fd_instr;
    sys_close os fd_miss;;
    sys_close os fd_instr;;
    mret (Some (if r1.1 <? 0 then 0 else r1.2, if r2.1 <? 0 then 0 else r2.2)).

(** The CPU set of the target node; [None] when libnuma has none. *)
Definition target_cpus (to : Z) : io K (option Z) :=
  ok ← numa_allocate_cpumask os;
  if negb ok then mret None else
  r ← numa_node_to_cpus os to;
  if (r.1 =? 0) : bool then
    numa_free_cpumask os;; mret (Some (fill_mask (numa_num_configured_cpus os) r.2))
  else numa_free_cpumask os;; mret None.
End system.

(** ** The step system *)

(** The monitor: the next access to the balancer. *)
Inductive monitor_pc :=
| MnTop                 (* while (!ab->stop) *)
| MnAwake               (* if (ab->stop) break *)
| MnEntry (i : nat)     (* the loop test and the load of active *)
| MnSample (i : nat)
| MnFrom (i : nat) (m : double)
| MnMove (i : nat) (from to cpuset : Z) (m : double)
| MnStore (i : nat) (from to : Z) (m : double)
| MnCount (i : nat) (from to : Z) (m : double)
| MnNotify (i : nat) (from to : Z) (m : double)
| MnExit.

(** The client that holds the mutex, inside a registration. *)
Inductive client_pc :=
| RgFind (tid node : Z)
| RgTid (i : nat) (tid node : Z)
| RgNode (i : nat) (node : Z) (tid : Z)
| RgFds (i : nat) (tid node : Z)
| RgActive (i : nat) (tid node : Z).

Record ab_state (K : Type) := mk_abs {
  abs_kernel : K;
  abs_ab : nkit_auto_balancer;
  abs_client : option client_pc;   (* [None]: the mutex is free *)
  abs_monitor : monitor_pc;
}.
Arguments mk_abs {K}.
Arguments abs_kernel {K}.
Arguments abs_ab {K}.
Arguments abs_client {K}.
Arguments abs_monitor {K}.

Inductive ab_event :=
| Asked (tid : Z)          (* a call of register begins *)
| Registered (i : nat) (tid node : Z)
| RegistryFull
| Unregistered (tid : Z) (ret : Z)
| Moved (i : nat) (tid from to : Z) (m : double)      (* the thread of slot [i] *)
| Notified (i : nat) (tid from to : Z) (m : double).

(** [AbRegister], [AbUnregister]: a client takes the mutex; [AbClient]: it goes
    on; [AbMonitor]: the monitor goes on; [AbDestroy]: destroy sets [stop]. *)
Inductive ab_label :=
| AbRegister (tid node : Z)
| AbUnregister (tid : Z)
| AbClient
| AbMonitor
| AbDestroy.

#[export] Instance ab_label_eq_dec : EqDecision ab_label.
Proof. solve_decision. Defined.

Section steps.
Context {K : Type} (os : sched_os K) (num_nodes : Z).
Implicit Types (s : ab_state K).

Definition update_entry (ab : nkit_auto_balancer) (i : nat) (f : ab_entry_t → ab_entry_t) : nkit_auto_balancer :=
  set_entries ab (alter f i (ab_entries ab)).

(** [_ab_monitor] *)
Definition monitor_step s : option (ab_state K * list ab_event) :=
  let ab := abs_ab s in
  let k := abs_kernel s in
  let go pc := Some (mk_abs k ab (abs_client s) pc, []) in
  match abs_monitor s with
  | MnTop => go (if ab_stop ab then MnExit else MnAwake)
  | MnAwake => go (if ab_stop ab then MnExit else MnEntry 0)
  | MnEntry i =>
      match ab_entries ab !! i with
      | None => go MnTop
      | Some e => go (if e_active e then MnSample i else MnEntry (S i))
      end
  | MnSample i =>
      let r := ab_sample os k in
      let pc :=
        match r.1 with
        | None => MnEntry (S i)
        | Some (count_miss, count_instr) =>
            if count_instr <? AB_MIN_INSTRUCTIONS then MnEntry (S i) else
            let m := mpki count_miss count_instr in
            if dbl_gt m (ab_mpki_threshold ab) then MnFrom i m else MnEntry (S i)
        end in
      Some (mk_abs r.2 ab (abs_client s) pc, [])
  | MnFrom i m =>
      match ab_entries ab !! i with
      | None => None
      | Some e =>
          let from := e_current_node e in
          let to := find_target_node from num_nodes in
          if to =? from then go (MnEntry (S i)) else
          let r := target_cpus os to k in
          Some (mk_abs r.2 ab (abs_client s)
                  (match r.1 with None => MnEntry (S i) | Some cpuset => MnMove i from to cpuset m end), [])
      end
  | MnMove i from to cpuset m =>
      match ab_entries ab !! i with
      | None => None
      | Some e =>
          let r := pthread_setaffinity_np os (e_tid e) cpuset k in
          if (r.1 =? 0) : bool then
            Some (mk_abs r.2 ab (abs_client s) (MnStore i from to m), [Moved i (e_tid e) from to m])
          else Some (mk_abs r.2 ab (abs_client s) (MnEntry (S i)), [])
      end
  | MnStore i from to m =>
      Some (mk_abs k (update_entry ab i (λ e, set_node e to)) (abs_client s) (MnCount i from to m), [])
  | MnCount i from to m =>
      Some (mk_abs k (set_count ab (ab_migration_count ab +w 1)) (abs_client s)
              (if ab_callback ab then MnNotify i from to m else MnEntry (S i)), [])
  | MnNotify i from to m =>
      match ab_entries ab !! i with
      | None => None
      | Some e => Some (mk_abs k ab (abs_client s) (MnEntry (S i)), [Notified i (e_tid e) from to m])
      end
  | MnExit => None
  end.

(** A registration between its stores. *)
Definition client_step s (pc : client_pc) : ab_state K * list ab_event :=
  let ab := abs_ab s in
  let go ab pc := (mk_abs (abs_kernel s) ab (Some pc) (abs_monitor s), []) in
  match pc with
  | RgFind tid node =>
      match free_slot (ab_entries ab) with
      | Some i => go ab (RgTid i tid node)
      | None => (mk_abs (abs_kernel s) ab None (abs_monitor s), [RegistryFull])
      end
  | RgTid i tid node => go (update_entry ab i (λ e, set_tid e tid)) (RgNode i node tid)
  | RgNode i node tid => go (update_entry ab i (λ e, set_node e node)) (RgFds i tid node)
  | RgFds i tid node => go (update_entry ab i (λ e, set_fds e (-1) (-1))) (RgActive i tid node)
  | RgActive i tid node =>
      (mk_abs (abs_kernel s) (update_entry ab i (λ e, set_active e true)) None (abs_monitor s),
       [Registered i tid node])
  end.

Definition ab_step s (l : ab_label) : option (ab_state K * list ab_event) :=
  match l with
  | AbRegister tid node =>
      match abs_client s with
      | None => Some (mk_abs (abs_kernel s) (abs_ab s) (Some (RgFind tid node)) (abs_monitor s), [Asked tid])
      | Some _ => None
      end
  | AbUnregister tid =>
      match abs_client s with
      | None =>
          let r := nkit_auto_balancer_unregister (abs_ab s) tid in
          Some (mk_abs (abs_kernel s) r.2 None (abs_monitor s), [Unregistered tid r.1])
      | Some _ => None
      end
  | AbClient =>
      match abs_client s with Some pc => Some (client_step s pc) | None => None end
  | AbMonitor => monitor_step s
  | AbDestroy => Some (mk_abs (abs_kernel s) (set_stop (abs_ab s)) (abs_client s) (abs_monitor s), [])
  end.
End steps.

(** What is left when the monitor has been joined: the descriptors of the table
    that are set are closed. *)
Definition nkit_auto_balancer_destroy {K} (os : sched_os K) (ab : nkit_auto_balancer) : io K () :=
  foldr (λ e rest, close_opened os (e_fd_miss e);; close_opened os (e_fd_instr e);; rest)
    (mret tt) (ab_entries ab).

(** The number of nodes the monitor works with. *)
Definition monitor_nodes (ctx_num_nodes : Z) : Z := if ctx_num_nodes <=? 0 then 1 else ctx_num_nodes.

(** ** The registry as a bounded multiset *)

Definition registered (l : list ab_entry_t) : list Z :=
  omap (λ e, if e_active e then Some (e_tid e) else None) l.

Inductive reg_op := OpRegister (tid node : Z) | OpUnregister (tid : Z).

Definition reg_step (ab : nkit_auto_balancer) (o : reg_op) : Z * nkit_auto_balancer :=
  match o with
  | OpRegister tid node => nkit_auto_balancer_register ab tid node
  | OpUnregister tid => nkit_auto_balancer_unregister ab tid
  end.

(** What a client is promised. *)
Definition reg_spec (X : gmultiset Z) (o : reg_op) : Z * gmultiset Z :=
  match o with
  | OpRegister tid _ =>
      if decide (size X < AB_MAX_THREADS)%nat then (0, {[+ tid +]} ⊎ X) else (-1, X)
  | OpUnregister tid => if decide (tid ∈ X) then (0, X ∖ {[+ tid +]}) else (-1, X)
  end.

Fixpoint reg_run {S} (step : S → reg_op → Z * S) (s : S) (ops : list reg_op) : list Z * S :=
  match ops with
  | [] => ([], s)
  | o :: ops => let r := step s o in let rs := reg_run step r.2 ops in (r.1 :: rs.1, rs.2)
  end.

Lemma registered_alter l i e f :
  l !! i = Some e →
  registered [e] ++ registered (alter f i l) ≡ₚ registered [f e] ++ registered l.
Proof.
  intros Hi. rewrite (alter_as_insert f l i e Hi). unfold registered.
  rewrite <-!omap_app. cbn [app]. by rewrite (insert_permutation l i (f e) e Hi).
Qed.

Lemma registered_cons e l :
  registered (e :: l) = if e_active e then e_tid e :: registered l else registered l.
Proof. unfold registered. cbn. by destruct (e_active e). Qed.

Lemma registered_length l : (length (registered l) ≤ length l)%nat.
Proof.
  induction l as [|e l IH]; [done|]. rewrite registered_cons. destruct (e_active e); cbn [length]; lia.
Qed.

(** There is a free slot exactly when not all are registered. *)
Lemma free_slot_spec l :
  match free_slot l with
  | Some i => ∃ e, l !! i = Some e ∧ e_active e = false ∧ (length (registered l) < length l)%nat
  | None => length (registered l) = length l
  end.
Proof.
  unfold free_slot. induction l as [|e l IH]; [done|]. cbn [list_find]. pose proof (registered_length l).
  rewrite registered_cons. case_decide as Hd; cbn [fmap option_fmap option_map fst].
  - exists e. rewrite Hd. cbn [length]. split_and!; [done..|lia].
  - apply not_false_is_true in Hd. rewrite Hd. cbn [length].
    destruct (list_find _ l) as [[i e']|]; cbn [fmap option_fmap option_map fst prod_map] in *; [|by f_equal].
    destruct IH as (e1 & H1 & H2 & H3). exists e1. split_and!; [done..|]. lia.
Qed.

Lemma slot_of_thread_spec l tid :
  match slot_of_thread l tid with
  | Some i => ∃ e, l !! i = Some e ∧ e_active e = true ∧ e_tid e = tid
  | None => tid ∉ registered l
  end.
Proof.
  unfold slot_of_thread. destruct (list_find _ l) as [[i e]|] eqn:E; cbn.
  - apply list_find_Some in E as (Hi & [Ha Ht] & _). by exists e.
  - apply list_find_None in E. intros (e & He & Hx)%list_elem_of_omap.
    rewrite Forall_forall in E. apply (E e (proj1 (list_elem_of_In _ _) He)). by destruct (e_active e); simplify_eq.
Qed.

(** The multiset a table stands for. *)
Definition table_of (ab : nkit_auto_balancer) : gmultiset Z :=
  list_to_set_disj (registered (ab_entries ab)).

Lemma size_table ab : size (table_of ab) = length (registered (ab_entries ab)).
Proof.
  unfold table_of. induction (registered (ab_entries ab)) as [|x l IH]; [done|].
  rewrite list_to_set_disj_cons, gmultiset_size_disj_union, gmultiset_size_singleton. cbn [length]. lia.
Qed.

Lemma elem_of_table ab tid : tid ∈ table_of ab ↔ tid ∈ registered (ab_entries ab).
Proof. unfold table_of. apply elem_of_list_to_set_disj. Qed.

Lemma reg_step_refines ab o :
  length (ab_entries ab) = AB_MAX_THREADS →
  (reg_step ab o).1 = (reg_spec (table_of ab) o).1 ∧
  table_of (reg_step ab o).2 = (reg_spec (table_of ab) o).2 ∧
  length (ab_entries (reg_step ab o).2) = AB_MAX_THREADS.
Proof.
  intros Hlen. destruct o as [tid node|tid]; cbn [reg_step reg_spec].
  - unfold nkit_auto_balancer_register. pose proof (free_slot_spec (ab_entries ab)) as Hf.
    rewrite size_table, <-Hlen. destruct (free_slot (ab_entries ab)) as [i|].
    + destruct Hf as (e & Hi & He & Hlt). rewrite decide_True by done. cbn [fst snd]. split; [done|].
      split; [|cbn; by rewrite length_alter].
      set (f := λ e, set_active (set_fds (set_node (set_tid e tid) node) (-1) (-1)) true).
      pose proof (registered_alter _ i e f Hi) as Hp. cbn in Hp. rewrite He in Hp. cbn in Hp.
      unfold table_of. cbn [ab_entries set_entries]. by rewrite Hp.
    + rewrite decide_False by lia. done.
  - unfold nkit_auto_balancer_unregister. pose proof (slot_of_thread_spec (ab_entries ab) tid) as Hf.
    destruct (slot_of_thread (ab_entries ab) tid) as [i|].
    + destruct Hf as (e & Hi & He & Ht).
      pose proof (registered_alter _ i e (λ e, set_active e false) Hi) as Hp.
      cbn in Hp. rewrite He, Ht in Hp. cbn in Hp.
      assert (Et : table_of ab = {[+ tid +]} ⊎ list_to_set_disj (registered (alter (λ e, set_active e false) i (ab_entries ab)))).
      { unfold table_of. by rewrite <-Hp. }
      rewrite decide_True by (rewrite Et; multiset_solver). cbn [fst snd]. split; [done|].
      split; [|cbn; by rewrite length_alter]. rewrite Et. unfold table_of. cbn [ab_entries set_entries].
      multiset_solver.
    + rewrite decide_False by (by rewrite elem_of_table). done.
Qed.

(** ** Sampling and targets leave nothing behind *)

Section resources.
Context {K : Type} (os : sched_os K) {OS : SchedOS_ok os}.

(** Two states with the same descriptors and masks. *)
Definition same_resources (k k' : K) : Prop :=
  open_fds (os:=os) k' = open_fds (os:=os) k ∧ cpumasks (os:=os) k' = cpumasks (os:=os) k.

#[export] Instance same_resources_equiv : Equivalence same_resources.
Proof.
  split.
  - by intros k.
  - by intros k k' [].
  - intros k k' k'' [E1 E2] [F1 F2]. split; congruence.
Qed.

Lemma ioctl_same fd q k : same_resources k (sys_ioctl os fd q k).2.
Proof. destruct (ioctl_ok fd q k). by split. Qed.

Lemma read_same fd k : same_resources k (sys_read os fd k).2.
Proof. destruct (read_ok fd k). by split. Qed.

(** A counter: refused, or a fresh descriptor. *)
Lemma ab_perf_open_spec type config k :
  ∃ fd k', ab_perf_open os type config k = (fd, k') ∧ cpumasks (os:=os) k' = cpumasks (os:=os) k ∧
    ((fd = -1 ∧ open_fds (os:=os) k' = open_fds (os:=os) k) ∨
     (0 ≤ fd ∧ (fd ∉ open_fds (os:=os) k) ∧ open_fds (os:=os) k' = {[ fd ]} ∪ open_fds (os:=os) k)).
Proof.
  unfold ab_perf_open. run_io. destruct (perf_open_ok (mk_attr type config 1 1 1 0) 0 k) as [M H].
  destruct (perf_event_open os _ 0 k) as [fd k']. cbn [fst snd] in *.
  rewrite s32_small by lia. exists fd, k'. split; [done|]. split; [done|].
  destruct H as [?|(? & ? & ?)]; [by left|right]. by split; [lia|].
Qed.

Lemma close_opened_spec fd k :
  (fd = -1 ∨ 0 ≤ fd) →
  open_fds (os:=os) (close_opened os fd k).2 = open_fds (os:=os) k ∖ {[ fd ]} ∧
  cpumasks (os:=os) (close_opened os fd k).2 = cpumasks (os:=os) k.
Proof.
  intros Hfd. unfold close_opened.
  destruct (Z.leb_spec 0 fd); [destruct (close_ok fd k); by split|]. cbn. split; [|done].
  rewrite difference_disjoint_L; [done|]. apply disjoint_singleton_r. intros H1%fds_nonneg. lia.
Qed.

Lemma ab_sample_same k : same_resources k (ab_sample os k).2.
Proof.
  unfold ab_sample. run_io.
  destruct (ab_perf_open_spec PERF_TYPE_HARDWARE PERF_COUNT_HW_CACHE_MISSES k) as (fm & k1 & -> & M1 & H1).
  cbn [fst snd].
  destruct (ab_perf_open_spec PERF_TYPE_HARDWARE PERF_COUNT_HW_INSTRUCTIONS k1) as (fi & k2 & -> & M2 & H2).
  cbn [fst snd].
  assert (Hopen : open_fds (os:=os) k2 ∖ {[ fm ]} ∖ {[ fi ]} = open_fds (os:=os) k).
  { assert (-1 ∉ open_fds (os:=os) k) by (intros Hx%fds_nonneg; lia). set_solver. }
  destruct ((fm <? 0) || (fi <? 0)); run_io.
  - destruct (close_opened_spec fm k2 ltac:(lia)) as [F3 M3].
    set (k3 := (close_opened os fm k2).2) in *.
    destruct (close_opened_spec fi k3 ltac:(lia)) as [F4 M4]. split; [by rewrite F4, F3|congruence].
  - set (k3 := (sys_ioctl os fm PERF_EVENT_IOC_RESET k2).2).
    set (k4 := (sys_ioctl os fi PERF_EVENT_IOC_RESET k3).2).
    set (k5 := (sys_ioctl os fm PERF_EVENT_IOC_ENABLE k4).2).
    set (k6 := (sys_ioctl os fi PERF_EVENT_IOC_ENABLE k5).2).
    set (k7 := (sys_ioctl os fm PERF_EVENT_IOC_DISABLE k6).2).
    set (k8 := (sys_ioctl os fi PERF_EVENT_IOC_DISABLE k7).2).
    set (k9 := (sys_read os fm k8).2). set (k10 := (sys_read os fi k9).2).
    assert (S : same_resources k2 k10).
    { transitivity k3; [apply ioctl_same|]. transitivity k4; [apply ioctl_same|].
      transitivity k5; [apply ioctl_same|]. transitivity k6; [apply ioctl_same|].
      transitivity k7; [apply ioctl_same|]. transitivity k8; [apply ioctl_same|].
      transitivity k9; [apply read_same|apply read_same]. }
    destruct S as [F10 M10]. set (k11 := (sys_close os fm k10).2).
    destruct (close_ok fm k10 : _ = _ ∧ open_fds k11 = _) as [M11 F11].
    destruct (close_ok fi k11) as [M12 F12].
    split; [rewrite F12, F11, F10; done|]. etransitivity; [exact M12|]. etransitivity; [exact M11|]. congruence.
Qed.

Lemma target_cpus_same to k : same_resources k (target_cpus os to k).2.
Proof.
  unfold target_cpus. run_io. destruct (alloc_mask_ok k) as [F1 M1].
  destruct (numa_allocate_cpumask os k) as [ok k1]. cbn [fst snd] in *.
  destruct ok; cbn [negb]; [|split; [done|cbn; lia]].
  destruct (node_to_cpus_ok to k1) as [F2 M2]. set (k2 := (numa_node_to_cpus os to k1).2) in *.
  destruct (free_mask_ok k2) as [F3 M3].
  destruct ((numa_node_to_cpus os to k1).1.1 =? 0); run_io; (split; [congruence|lia]).
Qed.

Lemma setaffinity_same t c k : same_resources k (pthread_setaffinity_np os t c k).2.
Proof. destruct (setaffinity_ok t c k). by split. Qed.
End resources.

(** ** The monitor *)

(** The moves made and those the callback heard of: the thread, and the slot, the
    nodes and the ratio. *)
Definition moves (es : list ab_event) : list (Z * (nat * Z * Z * double)) :=
  omap (λ e, match e with Moved i tid from to m => Some (tid, (i, from, to, m)) | _ => None end) es.
Definition notes (es : list ab_event) : list (Z * (nat * Z * Z * double)) :=
  omap (λ e, match e with Notified i tid from to m => Some (tid, (i, from, to, m)) | _ => None end) es.

(** A move that has been made and not counted, or not reported, yet. *)
Definition uncounted (pc : monitor_pc) : nat :=
  match pc with MnStore _ _ _ _ | MnCount _ _ _ _ => 1%nat | _ => 0%nat end.
Definition unreported (pc : monitor_pc) : list (nat * Z * Z * double) :=
  match pc with
  | MnStore i from to m | MnCount i from to m | MnNotify i from to m => [(i, from, to, m)]
  | _ => []
  end.

(** The slot the monitor is looking at after it found it active. *)
Definition scanned (pc : monitor_pc) : option nat :=
  match pc with
  | MnSample i | MnFrom i _ | MnMove i _ _ _ _ | MnStore i _ _ _ | MnCount i _ _ _ | MnNotify i _ _ _ => Some i
  | _ => None
  end.

(** The slot a registration has written its thread to. *)
Definition writing (c : option client_pc) : option nat :=
  match c with
  | Some (RgNode i _ _) | Some (RgFds i _ _) | Some (RgActive i _ _) => Some i
  | _ => None
  end.

(** The thread a registration in progress was asked for. *)
Definition asking (c : client_pc) : Z :=
  match c with
  | RgFind tid _ | RgTid _ tid _ | RgNode _ _ tid | RgFds _ tid _ | RgActive _ tid _ => tid
  end.

Section monitor.
Context {K : Type} (os : sched_os K) {OS : SchedOS_ok os} (num_nodes : Z).
Context (k0 : K) (thresh : double) (cb : bool).
Implicit Types (s : ab_state K) (es : list ab_event).

(** A move the monitor may make. *)
Definition justified (from to : Z) (m : double) : Prop :=
  dbl_gt m thresh = true ∧ 1 < num_nodes ∧ to = Z.rem (from + 1) num_nodes ∧ to ≠ from.

Lemma target_justified from m :
  dbl_gt m thresh = true → find_target_node from num_nodes ≠ from → justified from (find_target_node from num_nodes) m.
Proof. unfold justified, find_target_node. intros Hm. destruct (Z.leb_spec num_nodes 1); [done|]. auto. Qed.

Definition monitor_ok (pc : monitor_pc) : Prop :=
  match pc with
  | MnFrom _ m => dbl_gt m thresh = true
  | MnMove _ from to _ m | MnStore _ from to m | MnCount _ from to m => justified from to m
  | MnNotify _ from to m => cb = true ∧ justified from to m
  | _ => True
  end.

Record ab_inv (es : list ab_event) s : Prop := {
  ai_kernel : same_resources os k0 (abs_kernel s);
  ai_length : length (ab_entries (abs_ab s)) = AB_MAX_THREADS;
  ai_thresh : ab_mpki_threshold (abs_ab s) = thresh;
  ai_cb : ab_callback (abs_ab s) = cb;
  ai_count : ∃ c, length (moves es) = (c + uncounted (abs_monitor s))%nat ∧
                  ab_migration_count (abs_ab s) = u64 (Z.of_nat c);
  ai_notes : if cb then (moves es).*2 = (notes es).*2 ++ unreported (abs_monitor s) else notes es = [];
  ai_pc : monitor_ok (abs_monitor s);
  ai_scanned i : scanned (abs_monitor s) = Some i → (i < AB_MAX_THREADS)%nat;
  ai_moves i tid from to m : Moved i tid from to m ∈ es → justified from to m ∧ Asked tid ∈ es;
  ai_noted i tid from to m : Notified i tid from to m ∈ es → Asked tid ∈ es;
  ai_client c : abs_client s = Some c → Asked (asking c) ∈ es;
  (* a slot that is or was just now in use holds a thread somebody registered *)
  ai_slots i e : ab_entries (abs_ab s) !! i = Some e →
    (e_active e = true ∨ scanned (abs_monitor s) = Some i ∨ writing (abs_client s) = Some i) →
    Asked (e_tid e) ∈ es;
}.

(** A step of the monitor, from what it changes. *)
Lemma monitor_moves es s es' k' ab' pc' :
  ab_inv es s → same_resources os (abs_kernel s) k' →
  (∀ i e', ab_entries ab' !! i = Some e' → ∃ e, ab_entries (abs_ab s) !! i = Some e ∧
     e_tid e = e_tid e' ∧ e_active e = e_active e') →
  length (ab_entries ab') = AB_MAX_THREADS → ab_mpki_threshold ab' = thresh → ab_callback ab' = cb →
  (∃ c, length (moves (es ++ es')) = (c + uncounted pc')%nat ∧ ab_migration_count ab' = u64 (Z.of_nat c)) →
  (if cb then (moves (es ++ es')).*2 = (notes (es ++ es')).*2 ++ unreported pc' else notes (es ++ es') = []) →
  monitor_ok pc' →
  (∀ i, scanned pc' = Some i → (i < AB_MAX_THREADS)%nat ∧
     (scanned (abs_monitor s) = Some i ∨
      ∀ e, ab_entries (abs_ab s) !! i = Some e → e_active e = true)) →
  (∀ i tid from to m, Moved i tid from to m ∈ es' → justified from to m ∧ Asked tid ∈ es) →
  (∀ i tid from to m, Notified i tid from to m ∈ es' → Asked tid ∈ es) →
  ab_inv (es ++ es') (mk_abs k' ab' (abs_client s) pc').
Proof.
  intros I Hk He Hlen Ht Hcb Hc Hn Hpc Hsc Hm Hnt. split; cbn [abs_kernel abs_ab abs_client abs_monitor]; auto.
  - etransitivity; [apply (ai_kernel _ _ I)|done].
  - intros i Hi. by apply Hsc.
  - intros i tid from to m [H|H]%elem_of_app.
    + destruct (ai_moves _ _ I _ _ _ _ _ H). split; [done|]. apply elem_of_app. by left.
    + destruct (Hm _ _ _ _ _ H). split; [done|]. apply elem_of_app. by left.
  - intros i tid from to m [H|H]%elem_of_app; apply elem_of_app; left; [by apply (ai_noted _ _ I) in H|by apply Hnt in H].
  - intros c H. apply elem_of_app. left. by apply (ai_client _ _ I).
  - intros i e' Hi Hw. destruct (He i e' Hi) as (e & Hi0 & <- & Ha). apply elem_of_app. left.
    apply (ai_slots _ _ I i e Hi0). destruct Hw as [Hw|[Hw|Hw]]; [left; congruence| |by right; right].
    destruct (Hsc i Hw) as [_ [H|H]]; [by right; left|left; eauto].
Qed.

(** Steps that neither move a thread nor touch the table. *)
Lemma monitor_goes es s k' pc' :
  ab_inv es s → same_resources os (abs_kernel s) k' → monitor_ok pc' →
  uncounted (abs_monitor s) = 0%nat → uncounted pc' = 0%nat →
  unreported (abs_monitor s) = [] → unreported pc' = [] →
  (∀ i, scanned pc' = Some i → scanned (abs_monitor s) = Some i ∨
     ∃ e, ab_entries (abs_ab s) !! i = Some e ∧ e_active e = true) →
  ab_inv (es ++ []) (mk_abs k' (abs_ab s) (abs_client s) pc').
Proof.
  intros I Hk Hpc U1 U2 R1 R2 Hsc.
  apply (monitor_moves es s); auto; try apply I.
  - intros i e' Hi. by exists e'.
  - rewrite app_nil_r, U2, <-U1. apply (ai_count _ _ I).
  - pose proof (ai_notes _ _ I) as Hn. by rewrite R1 in Hn; rewrite app_nil_r, R2.
  - intros i Hi. destruct (Hsc i Hi) as [H|(e & He & Ha)].
    + split; [by apply (ai_scanned _ _ I)|by left].
    + split; [rewrite <-(ai_length _ _ I); by eapply lookup_lt_Some|]. right. intros e' He'. congruence.
  - by intros ? ? ? ? ? ?%elem_of_nil.
  - by intros ? ? ? ? ? ?%elem_of_nil.
Qed.

Lemma monitor_step_inv es s s' es' :
  ab_inv es s → monitor_step os num_nodes s = Some (s', es') → ab_inv (es ++ es') s'.
Proof.
  intros I Hs. unfold monitor_step in Hs. pose proof (ai_pc _ _ I) as Hpc.
  pose proof (ai_scanned _ _ I) as Hsc. pose proof (ai_count _ _ I) as (c & Hc & Hcount).
  pose proof (ai_notes _ _ I) as Hnotes. pose proof (ai_length _ _ I) as Hlen.
  pose proof (monitor_goes es s) as Hgo. pose proof (monitor_moves es s) as Hmv.
  assert (Hrefl : same_resources os (abs_kernel s) (abs_kernel s)) by reflexivity.
  destruct (abs_monitor s) as [| |i|i|i m|i from to cpuset m|i from to m|i from to m|i from to m|] eqn:Epc;
    cbn [monitor_ok scanned uncounted unreported] in *.
  - simplify_eq. destruct (ab_stop (abs_ab s)); by apply Hgo.
  - simplify_eq. destruct (ab_stop (abs_ab s)); by apply Hgo.
  - destruct (ab_entries (abs_ab s) !! i) as [e|] eqn:He; simplify_eq; [|by apply Hgo].
    destruct (e_active e) eqn:Ha; apply Hgo; try done. intros j [= <-]. right. eauto.
  - pose proof (ab_sample_same os (abs_kernel s)) as Hr. destruct (ab_sample os (abs_kernel s)) as [r k'].
    cbn [fst snd] in *. simplify_eq. destruct r as [[cm ci]|]; [|by apply Hgo].
    destruct (ci <? AB_MIN_INSTRUCTIONS); [by apply Hgo|].
    rewrite (ai_thresh _ _ I). destruct (dbl_gt (mpki cm ci) thresh) eqn:Eg; apply Hgo; try done. by left.
  - destruct (ab_entries (abs_ab s) !! i) as [e|] eqn:He; [|done].
    destruct (Z.eqb_spec (find_target_node (e_current_node e) num_nodes) (e_current_node e)) as [|Hne].
    { simplify_eq. by apply Hgo. }
    pose proof (target_cpus_same os (find_target_node (e_current_node e) num_nodes) (abs_kernel s)) as Hr.
    destruct (target_cpus _ _ _) as [r k']. cbn [fst snd] in *. simplify_eq.
    destruct r as [cpuset|]; apply Hgo; try done; [by apply target_justified|by left].
  - destruct (ab_entries (abs_ab s) !! i) as [e|] eqn:He; [|done].
    pose proof (setaffinity_same os (e_tid e) cpuset (abs_kernel s)) as Hr.
    destruct (pthread_setaffinity_np _ _ _ _) as [r k']. cbn [fst snd] in *.
    destruct (r =? 0); simplify_eq; [|by apply Hgo].
    apply Hmv; try done; try apply I.
    + intros j e' Hj. by exists e'.
    + exists c. unfold moves in *. rewrite omap_app, length_app. cbn. split; [lia|done].
    + unfold moves, notes in *. rewrite !omap_app, ?fmap_app. cbn. destruct cb; [|by rewrite Hnotes].
      by rewrite Hnotes, !app_nil_r.
    + intros j [= <-]. split; [by apply Hsc|by left].
    + intros i' tid f t m0 [= -> -> -> -> ->]%list_elem_of_singleton. split; [done|].
      apply (ai_slots _ _ I i e He). right. left. by rewrite Epc.
    + by intros ? ? ? ? ? ?%list_elem_of_singleton.
  - simplify_eq. apply Hmv; try done; try apply I.
    + intros j e' Hj. cbn [update_entry set_entries ab_entries] in Hj.
      destruct (decide (j = i)) as [->|Hne].
      * rewrite list_lookup_alter_eq in Hj. apply fmap_Some in Hj as (e & He & ->). by exists e.
      * rewrite list_lookup_alter_ne in Hj by done. by exists e'.
    + cbn. by rewrite length_alter.
    + exists c. rewrite app_nil_r. done.
    + by rewrite app_nil_r.
    + intros j [= <-]. split; [by apply Hsc|by left].
    + by intros ? ? ? ? ? ?%elem_of_nil.
    + by intros ? ? ? ? ? ?%elem_of_nil.
  - simplify_eq. apply Hmv; try done; try apply I.
    + intros j e' Hj. by exists e'.
    + exists (S c). rewrite app_nil_r. split; [by destruct (ab_callback _); cbn; lia|].
      cbn. rewrite Hcount, u64_add_l. f_equal. lia.
    + rewrite app_nil_r, (ai_cb _ _ I). destruct cb; [done|done].
    + rewrite (ai_cb _ _ I). destruct cb eqn:Ecb; [by split|done].
    + intros j Hj. destruct (ab_callback _); simplify_eq/=. split; [by apply Hsc|by left].
    + by intros ? ? ? ? ? ?%elem_of_nil.
    + by intros ? ? ? ? ? ?%elem_of_nil.
  - destruct (ab_entries (abs_ab s) !! i) as [e|] eqn:He; simplify_eq.
    apply Hmv; try done; try apply I.
    + intros j e' Hj. by exists e'.
    + exists c. unfold moves in *. rewrite omap_app, length_app. cbn. split; [lia|done].
    + destruct Hpc as [-> _]. unfold moves, notes in *. rewrite !omap_app, !fmap_app. cbn.
      by rewrite Hnotes, !app_nil_r.
    + by intros ? ? ? ? ? ?%list_elem_of_singleton.
    + intros i' tid f t m0 [= -> -> -> -> ->]%list_elem_of_singleton.
      apply (ai_slots _ _ I i e He). right. left. by rewrite Epc.
  - done.
Qed.

(** A step of a client, from what it changes. *)
Lemma client_moves es s es' ab' c' :
  ab_inv es s → moves es' = [] → notes es' = [] →
  length (ab_entries ab') = AB_MAX_THREADS →
  ab_mpki_threshold ab' = ab_mpki_threshold (abs_ab s) → ab_callback ab' = ab_callback (abs_ab s) →
  ab_migration_count ab' = ab_migration_count (abs_ab s) →
  (∀ c, c' = Some c → Asked (asking c) ∈ es ++ es') →
  (∀ i e, ab_entries ab' !! i = Some e →
     (e_active e = true ∨ scanned (abs_monitor s) = Some i ∨ writing c' = Some i) →
     Asked (e_tid e) ∈ es ++ es') →
  ab_inv (es ++ es') (mk_abs (abs_kernel s) ab' c' (abs_monitor s)).
Proof.
  intros I Hm Hn Hlen Ht Hcb Hc Hcl Hs.
  assert (Hm' : moves (es ++ es') = moves es) by (unfold moves in *; by rewrite omap_app, Hm, app_nil_r).
  assert (Hn' : notes (es ++ es') = notes es) by (unfold notes in *; by rewrite omap_app, Hn, app_nil_r).
  split; cbn [abs_kernel abs_ab abs_client abs_monitor]; rewrite ?Hm', ?Hn', ?Ht, ?Hcb, ?Hc; auto; try apply I.
  - intros i tid from to m [H|H]%elem_of_app.
    + destruct (ai_moves _ _ I _ _ _ _ _ H). split; [done|]. apply elem_of_app. by left.
    + exfalso. assert (Hx : (tid, (i, from, to, m)) ∈ moves es').
      { unfold moves. apply list_elem_of_omap. by exists (Moved i tid from to m). }
      rewrite Hm in Hx. by apply elem_of_nil in Hx.
  - intros i tid from to m [H|H]%elem_of_app.
    + apply elem_of_app. left. by apply (ai_noted _ _ I) in H.
    + exfalso. assert (Hx : (tid, (i, from, to, m)) ∈ notes es').
      { unfold notes. apply list_elem_of_omap. by exists (Notified i tid from to m). }
      rewrite Hn in Hx. by apply elem_of_nil in Hx.
Qed.

(** The slots that were in use, after a store to slot [i]. *)
Lemma slots_update es s ab' i f c' :
  ab_inv es s → ab_entries ab' = alter f i (ab_entries (abs_ab s)) →
  (∀ e, ab_entries (abs_ab s) !! i = Some e → e_tid (f e) = e_tid e ∨ Asked (e_tid (f e)) ∈ es) →
  (∀ e, ab_entries (abs_ab s) !! i = Some e → e_active (f e) = true →
     e_active e = true ∨ writing (abs_client s) = Some i) →
  (∀ j, writing c' = Some j → writing (abs_client s) = Some j ∨
     (j = i ∧ ∀ e, ab_entries (abs_ab s) !! i = Some e → Asked (e_tid (f e)) ∈ es)) →
  ∀ j e, ab_entries ab' !! j = Some e →
    (e_active e = true ∨ scanned (abs_monitor s) = Some j ∨ writing c' = Some j) → Asked (e_tid e) ∈ es.
Proof.
  intros I He Ht Ha Hw j e' Hj Hor. rewrite He in Hj.
  destruct (decide (j = i)) as [->|Hne].
  - rewrite list_lookup_alter_eq in Hj. apply fmap_Some in Hj as (e & Hi & ->).
    destruct (Ht e Hi) as [Et|Et]; [|done]. destruct Hor as [H|[H|H]].
    + rewrite Et. destruct (Ha e Hi H) as [H1|H1]; apply (ai_slots _ _ I i e Hi); auto.
    + rewrite Et. apply (ai_slots _ _ I i e Hi). auto.
    + destruct (Hw i H) as [H1|[_ H1]]; [|eauto]. rewrite Et. apply (ai_slots _ _ I i e Hi). auto.
  - rewrite list_lookup_alter_ne in Hj by done. apply (ai_slots _ _ I j e' Hj).
    destruct Hor as [H|[H|H]]; auto. destruct (Hw j H) as [H1|[H1 _]]; [auto|done].
Qed.

Lemma client_step_inv es s pc :
  ab_inv es s → abs_client s = Some pc →
  ab_inv (es ++ (client_step s pc).2) (client_step s pc).1.
Proof.
  intros I Hc. pose proof (ai_client _ _ I pc Hc) as Hask. pose proof (ai_length _ _ I) as Hlen.
  assert (Hup : ∀ i f, length (ab_entries (update_entry (abs_ab s) i f)) = AB_MAX_THREADS)
    by (intros; cbn; by rewrite length_alter).
  assert (Hold : ∀ i e, ab_entries (abs_ab s) !! i = Some e →
    e_active e = true ∨ scanned (abs_monitor s) = Some i ∨ writing None = Some i → Asked (e_tid e) ∈ es).
  { intros i e He [H|[H|H]]; [..|done]; apply (ai_slots _ _ I i e He); auto. }
  destruct pc as [tid node|i tid node|i node tid|i tid node|i tid node]; cbn [client_step asking] in *.
  - destruct (free_slot _) as [i|]; cbn [fst snd]; rewrite ?app_nil_r.
    + rewrite <-(app_nil_r es). apply client_moves; auto; rewrite ?app_nil_r; [by intros c [= <-]|done].
    + apply client_moves; auto; [done|]. intros i e He Hor. apply elem_of_app. left. eauto.
  - rewrite <-(app_nil_r es). apply client_moves; rewrite ?app_nil_r; auto; [by intros c [= <-]|].
    apply (slots_update es s _ i (λ e, set_tid e tid)); auto. cbn. intros j [= <-]. auto.
  - rewrite <-(app_nil_r es). apply client_moves; rewrite ?app_nil_r; auto; [by intros c [= <-]|].
    apply (slots_update es s _ i (λ e, set_node e node)); auto. rewrite Hc. cbn. auto.
  - rewrite <-(app_nil_r es). apply client_moves; rewrite ?app_nil_r; auto; [by intros c [= <-]|].
    apply (slots_update es s _ i (λ e, set_fds e (-1) (-1))); auto. rewrite Hc. cbn. auto.
  - cbn [fst snd]. apply client_moves; auto; [done|]. intros j e Hj Hor. apply elem_of_app. left.
    apply (slots_update es s (update_entry (abs_ab s) i (λ e, set_active e true)) i
      (λ e, set_active e true) None I eq_refl) with j; auto; [|done].
    intros e0 _ _. right. by rewrite Hc.
Qed.

Lemma ab_step_inv es s l s' es' :
  ab_inv es s → ab_step os num_nodes s l = Some (s', es') → ab_inv (es ++ es') s'.
Proof.
  intros I Hs. pose proof (ai_length _ _ I) as Hlen.
  assert (Hold : ∀ es' i e, ab_entries (abs_ab s) !! i = Some e →
    e_active e = true ∨ scanned (abs_monitor s) = Some i ∨ writing (abs_client s) = Some i →
    Asked (e_tid e) ∈ es ++ es').
  { intros es0 i e He H. apply elem_of_app. left. by apply (ai_slots _ _ I i e He). }
  destruct l as [tid node|tid| | |]; cbn [ab_step] in Hs.
  - destruct (abs_client s) as [c|] eqn:Hc; simplify_eq. apply client_moves; auto; [|exact (Hold _)].
    intros c [= <-]. apply elem_of_app. right. left.
  - destruct (abs_client s) as [c|] eqn:Hc; [done|]. injection Hs as <- <-.
    unfold nkit_auto_balancer_unregister.
    destruct (slot_of_thread (ab_entries (abs_ab s)) tid) as [i|] eqn:Hi; cbn [fst snd].
    + apply client_moves; auto; [cbn; by rewrite length_alter|done|].
      intros j e Hj Hor. apply elem_of_app. left.
      apply (slots_update es s (update_entry (abs_ab s) i (λ e, set_active e false)) i
        (λ e, set_active e false) None I eq_refl) with j; auto; done.
    + apply client_moves; auto; [done|exact (Hold _)].
  - destruct (abs_client s) as [c|] eqn:Hc; simplify_eq.
    pose proof (client_step_inv es s c I Hc) as H. destruct (client_step s c). by simplify_eq.
  - by apply monitor_step_inv with s.
  - simplify_eq. apply client_moves; auto; [|exact (Hold _)]. intros c Hc. apply elem_of_app. left. by apply (ai_client _ _ I).
Qed.
End monitor.

(** ** Runs in which nobody is unregistered *)

(** What is on record of the slots: the thread that was registered in it and the
    node it was registered with or last moved to.  A slot is taken once; a thread is
    moved from the node on record for it; and the callback names the thread and the
    node that are on record. *)
Definition ledger_step (L : gmap nat (Z * Z)) (e : ab_event) : option (gmap nat (Z * Z)) :=
  match e with
  | Registered i tid node => match L !! i with None => Some (<[i := (tid, node)]> L) | Some _ => None end
  | Moved i tid from to _ => if decide (L !! i = Some (tid, from)) then Some (<[i := (tid, to)]> L) else None
  | Notified i tid _ to _ => if decide (L !! i = Some (tid, to)) then Some L else None
  | _ => Some L
  end.

Definition no_removal (es : list ab_event) : Prop := ∀ tid, Unregistered tid 0 ∉ es.

(** The slot a registration in progress has found. *)
Definition client_slot (c : option client_pc) : option nat :=
  match c with
  | Some (RgTid i _ _) | Some (RgNode i _ _) | Some (RgFds i _ _) | Some (RgActive i _ _) => Some i
  | _ => None
  end.

(** What it has written there. *)
Definition written (c : option client_pc) (e : ab_entry_t) : Prop :=
  match c with
  | Some (RgNode _ _ tid) => e_tid e = tid
  | Some (RgFds _ tid node) | Some (RgActive _ tid node) => e_tid e = tid ∧ e_current_node e = node
  | _ => True
  end.

(** The node in the slot the monitor is at, and the one on record. *)
Definition node_there (pc : monitor_pc) (n : Z) : Prop :=
  match pc with
  | MnMove _ from _ _ _ | MnStore _ from _ _ => n = from
  | MnCount _ _ to _ | MnNotify _ _ to _ => n = to
  | _ => True
  end.
Definition node_on_record (pc : monitor_pc) (n : Z) : Z := match pc with MnStore _ _ to _ => to | _ => n end.

(** A slot, for a client and a monitor that may be at it ([here], [there]). *)
Definition slot_ok (r : option (Z * Z)) (pc : monitor_pc) (c : option client_pc) (here there : bool) (e : ab_entry_t) : Prop :=
  if e_active e then
    here = false ∧
    r = Some (e_tid e, if there then node_on_record pc (e_current_node e) else e_current_node e) ∧
    (there = true → node_there pc (e_current_node e))
  else r = None ∧ there = false ∧ (here = true → written c e).

Section quiet.
Context {K : Type} (os : sched_os K) (num_nodes : Z).
Implicit Types (s : ab_state K) (es : list ab_event).

Definition at_slot (o : option nat) (i : nat) : bool := bool_decide (o = Some i).

(** The move that has not been reported yet, with the thread in its slot. *)
Definition to_report s : list (Z * (nat * Z * Z * double)) :=
  match scanned (abs_monitor s) ≫= (λ i, ab_entries (abs_ab s) !! i) with
  | Some e => (λ u, (e_tid e, u)) <$> unreported (abs_monitor s)
  | None => []
  end.

Record quiet (L : gmap nat (Z * Z)) es s : Prop := {
  qt_ledger : run ledger_step ∅ es = Some L;
  qt_slots i e : ab_entries (abs_ab s) !! i = Some e →
    slot_ok (L !! i) (abs_monitor s) (abs_client s)
      (at_slot (client_slot (abs_client s)) i) (at_slot (scanned (abs_monitor s)) i) e;
  qt_here i : client_slot (abs_client s) = Some i → is_Some (ab_entries (abs_ab s) !! i);
  qt_there i : scanned (abs_monitor s) = Some i → is_Some (ab_entries (abs_ab s) !! i);
  qt_notes : ab_callback (abs_ab s) = true → moves es = notes es ++ to_report s;
}.

Lemma at_slot_self i : at_slot (Some i) i = true.
Proof. by apply bool_decide_eq_true. Qed.
Lemma at_slot_other i j : j ≠ i → at_slot (Some i) j = false.
Proof. intros Hne. apply bool_decide_eq_false. congruence. Qed.

(** A step of the monitor at slot [i]: what it leaves there. *)
Lemma quiet_monitor L es s i ev L' ab' pc' k' :
  quiet L es s → run ledger_step L ev = Some L' →
  (∀ j, j ≠ i → L' !! j = L !! j ∧ ab_entries ab' !! j = ab_entries (abs_ab s) !! j ∧
     scanned pc' ≠ Some j ∧ scanned (abs_monitor s) ≠ Some j) →
  (∀ e', ab_entries ab' !! i = Some e' →
     slot_ok (L' !! i) pc' (abs_client s) (at_slot (client_slot (abs_client s)) i) (at_slot (scanned pc') i) e') →
  (is_Some (ab_entries ab' !! i) ↔ is_Some (ab_entries (abs_ab s) !! i)) →
  (scanned pc' = Some i → is_Some (ab_entries (abs_ab s) !! i)) →
  (ab_callback ab' = true → moves (es ++ ev) = notes (es ++ ev) ++ to_report (mk_abs k' ab' (abs_client s) pc')) →
  quiet L' (es ++ ev) (mk_abs k' ab' (abs_client s) pc').
Proof.
  intros [Q1 Q2 Q3 Q4 Q5] Hr Hother Hi Hdom Ht Hn.
  split; cbn [abs_ab abs_client abs_monitor]; auto.
  - by rewrite run_app, Q1.
  - intros j e' Hj. destruct (decide (j = i)) as [->|Hne]; [by apply Hi|].
    destruct (Hother j Hne) as (HL & He & Hp & Hp0). rewrite He in Hj. specialize (Q2 j e' Hj).
    rewrite HL. unfold at_slot in *. rewrite (bool_decide_eq_false_2 _ Hp0) in Q2. rewrite (bool_decide_eq_false_2 _ Hp).
    unfold slot_ok in *. destruct (e_active e'); [|done]. by destruct Q2 as (? & ? & _).
  - intros j Hj. destruct (decide (j = i)) as [->|Hne]; [by apply Hdom, Q3|]. destruct (Hother j Hne) as (_ & -> & _). by apply Q3.
  - intros j Hj. destruct (decide (j = i)) as [->|Hne]; [by apply Hdom, Ht|]. by destruct (Hother j Hne) as (_ & _ & Hp & _).
Qed.

(** A step of a client at slot [i]. *)
Lemma quiet_client L es s i ev L' ab' c' :
  quiet L es s → run ledger_step L ev = Some L' → moves ev = [] → notes ev = [] →
  ab_callback ab' = ab_callback (abs_ab s) →
  (∀ j, j ≠ i → L' !! j = L !! j ∧ ab_entries ab' !! j = ab_entries (abs_ab s) !! j ∧
     client_slot c' ≠ Some j ∧ client_slot (abs_client s) ≠ Some j) →
  (∀ e', ab_entries ab' !! i = Some e' →
     slot_ok (L' !! i) (abs_monitor s) c' (at_slot (client_slot c') i) (at_slot (scanned (abs_monitor s)) i) e') →
  (is_Some (ab_entries ab' !! i) ↔ is_Some (ab_entries (abs_ab s) !! i)) →
  (client_slot c' = Some i → is_Some (ab_entries (abs_ab s) !! i)) →
  (scanned (abs_monitor s) = Some i → ab_entries ab' !! i = ab_entries (abs_ab s) !! i) →
  quiet L' (es ++ ev) (mk_abs (abs_kernel s) ab' c' (abs_monitor s)).
Proof.
  intros [Q1 Q2 Q3 Q4 Q5] Hr Hm Hn Hcb Hother Hi Hdom Hc Hsame.
  assert (Hall : ∀ j, scanned (abs_monitor s) = Some j → ab_entries ab' !! j = ab_entries (abs_ab s) !! j).
  { intros j Hj. destruct (decide (j = i)) as [->|Hne]; [by apply Hsame|by destruct (Hother j Hne) as (_ & -> & _)]. }
  split; cbn [abs_ab abs_client abs_monitor]; auto.
  - by rewrite run_app, Q1.
  - intros j e' Hj. destruct (decide (j = i)) as [->|Hne]; [by apply Hi|].
    destruct (Hother j Hne) as (HL & He & Hp & Hp0). rewrite He in Hj. specialize (Q2 j e' Hj).
    rewrite HL. unfold at_slot in *. rewrite (bool_decide_eq_false_2 _ Hp0) in Q2. rewrite (bool_decide_eq_false_2 _ Hp).
    unfold slot_ok in *. destruct (e_active e'); [done|]. by destruct Q2 as (? & ? & _).
  - intros j Hj. destruct (decide (j = i)) as [->|Hne]; [by apply Hdom, Hc|]. by destruct (Hother j Hne) as (_ & _ & Hp & _).
  - intros j Hj. rewrite Hall by done. by apply Q4.
  - unfold moves, notes in *. rewrite !omap_app, Hm, Hn, !app_nil_r, Hcb. intros Ht. rewrite (Q5 Ht). f_equal.
    unfold to_report. cbn [abs_monitor abs_ab]. destruct (scanned (abs_monitor s)) as [j|] eqn:Ej; [|done].
    cbn. by rewrite Hall.
Qed.

(** The same table, the client elsewhere. *)
Lemma quiet_client_same L es s ev c' ab' :
  quiet L es s → run ledger_step L ev = Some L → moves ev = [] → notes ev = [] →
  ab_entries ab' = ab_entries (abs_ab s) → ab_callback ab' = ab_callback (abs_ab s) →
  c' = abs_client s ∨ (client_slot (abs_client s) = None ∧ client_slot c' = None) →
  quiet L (es ++ ev) (mk_abs (abs_kernel s) ab' c' (abs_monitor s)).
Proof.
  intros Q Hr Hm Hn He Hcb [->|[Hc Hc']].
  - destruct Q as [Q1 Q2 Q3 Q4 Q5]. split; cbn [abs_ab abs_client abs_monitor]; rewrite ?He, ?Hcb; auto.
    + by rewrite run_app, Q1.
    + unfold moves, notes in *. rewrite !omap_app, Hm, Hn, !app_nil_r. intros Ht. rewrite (Q5 Ht).
      unfold to_report. cbn [abs_monitor abs_ab]. by rewrite He.
  - apply (quiet_client L es s 0%nat); auto; rewrite ?He, ?Hc, ?Hc'; auto; try done.
    intros e' He'. pose proof (qt_slots _ _ _ Q 0%nat e' He') as H. unfold slot_ok in *. rewrite Hc in H.
    destruct (e_active e'); [done|]. by destruct H as (? & ? & _).
Qed.

(** The slot an idle registration finds. *)
Lemma quiet_find L es s i :
  quiet L es s → client_slot (abs_client s) = None → free_slot (ab_entries (abs_ab s)) = Some i →
  ∃ e, ab_entries (abs_ab s) !! i = Some e ∧ e_active e = false.
Proof. intros Q Hc Hf. pose proof (free_slot_spec (ab_entries (abs_ab s))) as H. rewrite Hf in H. destruct H as (e & ? & ? & _). eauto. Qed.

(** A registration writes to a slot that is not active, where the monitor is not. *)
Lemma quiet_slot L es s i :
  quiet L es s → client_slot (abs_client s) = Some i →
  ∃ e, ab_entries (abs_ab s) !! i = Some e ∧ e_active e = false ∧ L !! i = None ∧
       scanned (abs_monitor s) ≠ Some i ∧ written (abs_client s) e.
Proof.
  intros Q Hc. destruct (qt_here _ _ _ Q i Hc) as [e He]. exists e. split; [done|].
  pose proof (qt_slots _ _ _ Q i e He) as H. rewrite Hc, at_slot_self in H. unfold slot_ok in H.
  destruct (e_active e); [by destruct H|]. destruct H as (H1 & H2 & H3). split_and!; auto.
  intros Hs. rewrite Hs, at_slot_self in H2. done.
Qed.

Lemma quiet_client_writes L es s i f c' ev L' :
  quiet L es s → client_slot (abs_client s) = Some i →
  client_slot c' = Some i ∨ client_slot c' = None →
  run ledger_step L ev = Some L' → moves ev = [] → notes ev = [] →
  (∀ j, j ≠ i → L' !! j = L !! j) →
  (∀ e, ab_entries (abs_ab s) !! i = Some e → e_active e = false → L !! i = None → written (abs_client s) e →
     slot_ok (L' !! i) (abs_monitor s) c' (at_slot (client_slot c') i) false (f e)) →
  quiet L' (es ++ ev) (mk_abs (abs_kernel s) (update_entry (abs_ab s) i f) c' (abs_monitor s)).
Proof.
  intros Q Hc Hc' Hr Hm Hn HL Hf. destruct (quiet_slot L es s i Q Hc) as (e & He & Ha & HLi & Hsc & Hw).
  apply (quiet_client L es s i); auto; cbn [update_entry set_entries ab_entries].
  - intros j Hne. rewrite list_lookup_alter_ne by done. rewrite Hc. split_and!; auto; [|congruence].
    destruct Hc' as [-> | ->]; congruence.
  - intros e' He'. rewrite list_lookup_alter_eq, He in He'. injection He' as <-.
    unfold at_slot at 2. rewrite bool_decide_eq_false_2 by done. by apply Hf.
  - rewrite list_lookup_alter_eq, He. split; eauto.
  - done.
Qed.

Lemma quiet_client_step L es s c :
  quiet L es s → abs_client s = Some c →
  ∃ L', quiet L' (es ++ (client_step s c).2) (client_step s c).1.
Proof.
  intros Q Hc. destruct c as [tid node|i tid node|i node tid|i tid node|i tid node]; cbn [client_step].
  - destruct (free_slot _) as [i|] eqn:Hf; cbn [fst snd].
    + exists L. destruct (quiet_find L es s i Q ltac:(by rewrite Hc) Hf) as (e & He & Ha).
      apply (quiet_client L es s i); auto; cbn [client_slot].
      * intros j Hne. rewrite Hc. cbn. split_and!; auto; congruence.
      * intros e' He'. simplify_eq. pose proof (qt_slots _ _ _ Q i e He) as H. unfold slot_ok in *. rewrite Ha in *.
        destruct H as (H1 & H2 & _). by split_and!.
    + exists L. apply quiet_client_same; auto. right. by rewrite Hc.
  - exists L. cbn [fst snd]. apply (quiet_client_writes L es s i); auto; [by rewrite Hc|].
    intros e He Ha HLi Hw. unfold slot_ok. cbn. rewrite Ha. by split_and!.
  - exists L. cbn [fst snd]. apply (quiet_client_writes L es s i); auto; [by rewrite Hc|].
    intros e He Ha HLi Hw. rewrite Hc in Hw. unfold slot_ok. cbn. rewrite Ha. by split_and!.
  - exists L. cbn [fst snd]. apply (quiet_client_writes L es s i); auto; [by rewrite Hc|].
    intros e He Ha HLi Hw. rewrite Hc in Hw. unfold slot_ok. cbn. rewrite Ha. by split_and!.
  - destruct (quiet_slot L es s i Q ltac:(by rewrite Hc)) as (e0 & _ & _ & HLi & _).
    exists (<[i := (tid, node)]> L). cbn [fst snd]. apply (quiet_client_writes L es s i); auto.
    + by rewrite Hc.
    + cbn. by rewrite HLi.
    + intros j Hne. by rewrite lookup_insert_ne.
    + intros e He Ha _ Hw. rewrite Hc in Hw. destruct Hw as [<- <-]. unfold slot_ok. cbn.
      rewrite lookup_insert_eq. by split_and!.
Qed.

(** The entry the monitor is at. *)
Lemma quiet_scanned L es s i :
  quiet L es s → scanned (abs_monitor s) = Some i →
  ∃ e, ab_entries (abs_ab s) !! i = Some e ∧ e_active e = true ∧ client_slot (abs_client s) ≠ Some i ∧
    L !! i = Some (e_tid e, node_on_record (abs_monitor s) (e_current_node e)) ∧
    node_there (abs_monitor s) (e_current_node e).
Proof.
  intros Q Hs. destruct (qt_there _ _ _ Q i Hs) as [e He]. exists e. split; [done|].
  pose proof (qt_slots _ _ _ Q i e He) as H. rewrite Hs, at_slot_self in H. unfold slot_ok in H.
  destruct (e_active e); [|by destruct H as (_ & ? & _)]. destruct H as (H1 & H2 & H3). split_and!; auto.
  intros Hc. by rewrite Hc, at_slot_self in H1.
Qed.

(** The monitor stays at its slot, or leaves it. *)
Lemma quiet_at L es s i e ev L' f pc' k' ab' :
  quiet L es s → scanned (abs_monitor s) = Some i → ab_entries (abs_ab s) !! i = Some e →
  ab_entries ab' = alter f i (ab_entries (abs_ab s)) → e_tid (f e) = e_tid e → e_active (f e) = e_active e →
  run ledger_step L ev = Some L' → (∀ j, j ≠ i → L' !! j = L !! j) →
  scanned pc' = Some i ∨ scanned pc' = None →
  L' !! i = Some (e_tid e, if at_slot (scanned pc') i then node_on_record pc' (e_current_node (f e)) else e_current_node (f e)) →
  (scanned pc' = Some i → node_there pc' (e_current_node (f e))) →
  (ab_callback ab' = true → moves (es ++ ev) = notes (es ++ ev) ++
     if at_slot (scanned pc') i then (λ u, (e_tid e, u)) <$> unreported pc' else []) →
  quiet L' (es ++ ev) (mk_abs k' ab' (abs_client s) pc').
Proof.
  intros Q Hs He Hab Ht Ha Hr HL Hp HLi Hnode Hn.
  destruct (quiet_scanned L es s i Q Hs) as (e1 & He1 & Hact & Hcl & _). simplify_eq.
  assert (Hi : ab_entries ab' !! i = Some (f e)) by (by rewrite Hab, list_lookup_alter_eq, He).
  apply (quiet_monitor L es s i); auto.
  - intros j Hne. rewrite Hab, list_lookup_alter_ne by done. split_and!; auto; [|congruence].
    destruct Hp as [-> | ->]; congruence.
  - intros e' He'. rewrite Hi in He'. injection He' as <-. unfold slot_ok. rewrite Ha, Hact, Ht.
    split; [by apply bool_decide_eq_false_2|]. split; [done|]. intros Hx%bool_decide_eq_true. by apply Hnode.
  - rewrite Hi, He. split; eauto.
  - intros Hcb. rewrite (Hn Hcb). f_equal. unfold to_report. cbn [abs_monitor abs_ab].
    destruct Hp as [-> | ->]; cbn; [|done]. rewrite at_slot_self, Hi, Ht. done.
Qed.

Lemma alter_same {A} i (l : list A) : alter (λ x, x) i l = l.
Proof. apply list_eq. intros j. rewrite list_lookup_alter. case_decide; [|done]. subst. by destruct (l !! j). Qed.

(** The same with the table left alone and nothing on record changed. *)
Lemma quiet_at_same L es s i e ev pc' k' n :
  quiet L es s → scanned (abs_monitor s) = Some i → ab_entries (abs_ab s) !! i = Some e →
  run ledger_step L ev = Some L → scanned pc' = Some i ∨ scanned pc' = None →
  node_on_record (abs_monitor s) (e_current_node e) = e_current_node e →
  node_on_record pc' (e_current_node e) = e_current_node e →
  (scanned pc' = Some i → node_there pc' (e_current_node e)) →
  (ab_callback (abs_ab s) = true → moves (es ++ ev) = notes (es ++ ev) ++
     if at_slot (scanned pc') i then (λ u, (e_tid e, u)) <$> unreported pc' else []) →
  quiet L (es ++ ev) (mk_abs k' (set_count (abs_ab s) n) (abs_client s) pc').
Proof.
  intros Q Hs He Hr Hp Hn Hn' Hnode Hcb.
  destruct (quiet_scanned L es s i Q Hs) as (e1 & He1 & _ & _ & HL & _). simplify_eq. rewrite Hn in HL.
  apply (quiet_at L es s i e ev L (λ e, e)); auto.
  - symmetry. apply alter_same.
  - rewrite HL, Hn'. by destruct (at_slot _ _).
Qed.

Lemma set_count_same ab : set_count ab (ab_migration_count ab) = ab.
Proof. by destruct ab. Qed.

(** The monitor is at no slot. *)
Lemma quiet_nowhere L es s pc' k' :
  quiet L es s → scanned (abs_monitor s) = None → scanned pc' = None →
  quiet L (es ++ []) (mk_abs k' (abs_ab s) (abs_client s) pc').
Proof.
  intros [Q1 Q2 Q3 Q4 Q5] Hs Hp. rewrite app_nil_r. split; cbn [abs_ab abs_client abs_monitor]; auto.
  - intros i e He. specialize (Q2 i e He). unfold slot_ok in *. rewrite Hs in Q2. rewrite Hp.
    destruct (e_active e); [|done]. by destruct Q2 as (? & ? & _).
  - by rewrite Hp.
  - intros Hcb. rewrite (Q5 Hcb). unfold to_report. cbn [abs_monitor]. by rewrite Hs, Hp.
Qed.

(** The monitor finds slot [i] active. *)
Lemma quiet_arrives L es s i e k' :
  quiet L es s → scanned (abs_monitor s) = None → ab_entries (abs_ab s) !! i = Some e → e_active e = true →
  quiet L (es ++ []) (mk_abs k' (abs_ab s) (abs_client s) (MnSample i)).
Proof.
  intros Q Hs He Ha. apply (quiet_monitor L es s i); auto.
  - intros j Hne. rewrite Hs. cbn. split_and!; congruence.
  - intros e' He'. simplify_eq. pose proof (qt_slots _ _ _ Q i e He) as H. unfold slot_ok in *. rewrite Ha, Hs in *.
    destruct H as (H1 & H2 & _). unfold at_slot in H2. rewrite bool_decide_eq_false_2 in H2 by done.
    split_and!; [done| |done]. by destruct (at_slot (scanned (MnSample i)) i).
  - intros Hcb. rewrite app_nil_r. pose proof (qt_notes _ _ _ Q Hcb) as ->. unfold to_report. cbn [abs_monitor abs_ab scanned].
    rewrite Hs. cbn. by rewrite He.
Qed.

Lemma quiet_monitor_step L es s s' es' :
  quiet L es s → monitor_step os num_nodes s = Some (s', es') → ∃ L', quiet L' (es ++ es') s'.
Proof.
  intros Q Hs. unfold monitor_step in Hs. pose proof (qt_notes _ _ _ Q) as Hnotes.
  pose proof (quiet_nowhere L es s) as Hno. pose proof (quiet_scanned L es s) as Hsc.
  pose proof (quiet_at_same L es s) as Hat. unfold to_report in Hnotes.
  destruct (abs_monitor s) as [| |i|i|i m|i from to cpuset m|i from to m|i from to m|i from to m|] eqn:Epc;
    cbn [scanned unreported mbind option_bind fmap list_fmap] in *.
  - simplify_eq. exists L. apply Hno; auto. by destruct (ab_stop _).
  - simplify_eq. exists L. apply Hno; auto. by destruct (ab_stop _).
  - destruct (ab_entries (abs_ab s) !! i) as [e|] eqn:He; simplify_eq; exists L; [|by apply Hno].
    destruct (e_active e) eqn:Ha; [|by apply Hno]. apply (quiet_arrives L es s i e); auto. by rewrite Epc.
  - destruct (Hsc i Q eq_refl) as (e & He & _). rewrite He in Hnotes. exists L.
    injection Hs as <- <-. rewrite <-(set_count_same (abs_ab s)).
    apply (Hat i e); auto; rewrite ?app_nil_r; repeat case_match; first [done|by auto].
  - destruct (Hsc i Q eq_refl) as (e & He & _). rewrite He in Hs, Hnotes. exists L.
    destruct (_ =? _); injection Hs as <- <-; rewrite <-(set_count_same (abs_ab s));
      apply (Hat i e); auto; rewrite ?app_nil_r; repeat case_match; first [done|by auto|by intros Hcb; rewrite (Hnotes Hcb), app_nil_r].
  - destruct (Hsc i Q eq_refl) as (e & He & Ha & Hcl & HL & Hnd). rewrite He in Hs, Hnotes. cbn in HL, Hnd.
    destruct (pthread_setaffinity_np _ _ _ _) as [r k']. cbn [fst snd] in Hs. destruct (r =? 0); injection Hs as <- <-.
    + exists (<[i := (e_tid e, to)]> L). apply (quiet_at L es s i e _ _ (λ e, e)); auto.
      * by rewrite Epc.
      * by rewrite alter_same.
      * cbn. rewrite decide_True; [done|]. by rewrite HL, Hnd.
      * intros j Hne. by rewrite lookup_insert_ne.
      * cbn [scanned]. by rewrite at_slot_self, lookup_insert_eq.
      * intros Hcb. unfold moves, notes in *. rewrite !omap_app, (Hnotes Hcb). cbn. by rewrite at_slot_self, !app_nil_r.
    + exists L. rewrite <-(set_count_same (abs_ab s)). apply (Hat i e); auto; [done|].
      rewrite !app_nil_r. intros Hcb. by rewrite (Hnotes Hcb), app_nil_r.
  - destruct (Hsc i Q eq_refl) as (e & He & Ha & Hcl & HL & Hnd). rewrite He in Hnotes. cbn in HL, Hnd.
    injection Hs as <- <-. exists L. apply (quiet_at L es s i e _ _ (λ e, set_node e to)); auto.
    + by rewrite Epc.
    + cbn [scanned]. by rewrite at_slot_self, HL.
    + done.
    + intros Hcb. cbn [scanned unreported]. by rewrite at_slot_self, !app_nil_r, (Hnotes Hcb).
  - destruct (Hsc i Q eq_refl) as (e & He & Ha & Hcl & HL & Hnd). rewrite He in Hnotes. cbn in HL, Hnd.
    injection Hs as <- <-. exists L. destruct (ab_callback (abs_ab s)) eqn:Hcb; apply (Hat i e); auto; try done.
    intros _. cbn [scanned unreported]. by rewrite at_slot_self, !app_nil_r, (Hnotes eq_refl).
  - destruct (Hsc i Q eq_refl) as (e & He & Ha & Hcl & HL & Hnd). rewrite He in Hs, Hnotes. cbn in HL, Hnd.
    injection Hs as <- <-. exists L. rewrite <-(set_count_same (abs_ab s)). apply (Hat i e); auto; try done.
    + cbn. rewrite decide_True; [done|]. by rewrite HL, Hnd.
    + intros Hcb. unfold moves, notes in *. rewrite !omap_app, (Hnotes Hcb). cbn. by rewrite !app_nil_r.
  - done.
Qed.

Lemma quiet_step L es s l s' es' :
  no_removal es' → quiet L es s → ab_step os num_nodes s l = Some (s', es') → ∃ L', quiet L' (es ++ es') s'.
Proof.
  intros Hrem Q Hs. destruct l as [tid node|tid| | |]; cbn [ab_step] in Hs.
  - destruct (abs_client s) as [c|] eqn:Hc; [done|]. injection Hs as <- <-. exists L.
    apply quiet_client_same; auto. right. by rewrite Hc.
  - destruct (abs_client s) as [c|] eqn:Hc; [done|]. injection Hs as <- <-. exists L.
    unfold nkit_auto_balancer_unregister in *. destruct (slot_of_thread _ _) as [i|]; cbn [fst snd] in *.
    + exfalso. apply (Hrem tid). left.
    + apply quiet_client_same; auto.
  - destruct (abs_client s) as [c|] eqn:Hc; [|done]. destruct (quiet_client_step L es s c Q Hc) as [L' H].
    destruct (client_step s c) as [s1 e1]. injection Hs as <- <-. by exists L'.
  - by eapply quiet_monitor_step.
  - injection Hs as <- <-. exists L. apply quiet_client_same; auto.
Qed.
End quiet.

(** ** Stopping the monitor *)

(** How many steps of its own the monitor can make once [stop] is set. *)
Definition monitor_left (pc : monitor_pc) : nat :=
  let rest i := (8 * (AB_MAX_THREADS - i))%nat in
  match pc with
  | MnExit => 0
  | MnTop | MnAwake => 1
  | MnEntry i => rest i + 3
  | MnSample i => rest i + 2
  | MnFrom i _ => rest i + 1
  | MnMove i _ _ _ _ => rest i
  | MnStore i _ _ _ => rest i - 1
  | MnCount i _ _ _ => rest i - 2
  | MnNotify i _ _ _ => rest i - 3
  end%nat.

Section stopping.
Context {K : Type} (os : sched_os K) (num_nodes : Z).
Implicit Types (s : ab_state K).

Record stopped s : Prop := {
  st_stop : ab_stop (abs_ab s) = true;
  st_length : length (ab_entries (abs_ab s)) = AB_MAX_THREADS;
  st_scanned i : scanned (abs_monitor s) = Some i → (i < AB_MAX_THREADS)%nat;
}.

(** Its steps go down, and it can always make one until it exits. *)
Lemma monitor_stops s :
  stopped s →
  match monitor_step os num_nodes s with
  | Some (s', _) => stopped s' ∧ (monitor_left (abs_monitor s') < monitor_left (abs_monitor s))%nat
  | None => abs_monitor s = MnExit
  end.
Proof.
  intros [Hst Hlen Hsc]. unfold monitor_step.
  assert (Hlt : ∀ i, (i < AB_MAX_THREADS)%nat ↔ is_Some (ab_entries (abs_ab s) !! i)).
  { intros i. by rewrite lookup_lt_is_Some, Hlen. }
  destruct (abs_monitor s) as [| |i|i|i m|i from to cpuset m|i from to m|i from to m|i from to m|] eqn:Epc;
    cbn [scanned] in Hsc; try specialize (Hsc _ eq_refl).
  - rewrite Hst. by split; [split|cbn; lia].
  - rewrite Hst. by split; [split|cbn; lia].
  - destruct (ab_entries (abs_ab s) !! i) as [e|] eqn:He; [|by split; [split|cbn; lia]].
    assert (i < AB_MAX_THREADS)%nat by (apply Hlt; eauto).
    destruct (e_active e); (split; [split; cbn; [done..|]|cbn; unfold AB_MAX_THREADS in *; lia]);
      [by intros j [= <-]|done].
  - assert (Hn : stopped (mk_abs (ab_sample os (abs_kernel s)).2 (abs_ab s) (abs_client s) (MnEntry (S i)))) by done.
    destruct (ab_sample os (abs_kernel s)) as [[[cm ci]|] k']; cbn [fst snd] in *;
      [destruct (ci <? _); [|destruct (dbl_gt _ _)]|]; (split; [split; cbn; [done..|]|cbn; unfold AB_MAX_THREADS in *; lia]);
      try done. by intros j [= <-].
  - pose proof Hsc as [e He]%Hlt. rewrite He. destruct (_ =? _).
    { split; [by split|cbn; unfold AB_MAX_THREADS in *; lia]. }
    destruct (target_cpus os _ _) as [[cpuset|] k']; cbn [fst snd];
      (split; [split; cbn; [done..|]|cbn; unfold AB_MAX_THREADS in *; lia]); [by intros j [= <-]|done].
  - pose proof Hsc as [e He]%Hlt. rewrite He. destruct (pthread_setaffinity_np _ _ _ _) as [r k']. cbn [fst snd].
    destruct (r =? 0); (split; [split; cbn; [done..|]|cbn; unfold AB_MAX_THREADS in *; lia]);
      [by intros j [= <-]|done].
  - split; [split; cbn; [done|by rewrite length_alter|by intros j [= <-]]|cbn; unfold AB_MAX_THREADS in *; lia].
  - destruct (ab_callback _); (split; [split; cbn; [done..|]|cbn; unfold AB_MAX_THREADS in *; lia]);
      [by intros j [= <-]|done].
  - pose proof Hsc as [e He]%Hlt. rewrite He.
    split; [by split|cbn; unfold AB_MAX_THREADS in *; lia].
  - done.
Qed.

Lemma others_keep_stopped s l s' es :
  l ≠ AbMonitor → stopped s → ab_step os num_nodes s l = Some (s', es) →
  stopped s' ∧ abs_monitor s' = abs_monitor s.
Proof.
  intros Hl [Hst Hlen Hsc] Hs. destruct l as [tid node|tid| | |]; cbn [ab_step] in Hs; [| | |done|].
  - destruct (abs_client s); simplify_eq. by split; [split|].
  - destruct (abs_client s); [done|]. injection Hs as <- <-. unfold nkit_auto_balancer_unregister.
    destruct (slot_of_thread _ _); (split; [split; cbn; rewrite ?length_alter|]; done).
  - destruct (abs_client s) as [pc|]; [|done]. injection Hs as E.
    destruct pc; cbn [client_step] in E; [destruct (free_slot _)|..]; simplify_eq;
      (split; [split; cbn; rewrite ?length_alter|]; done).
  - simplify_eq. by split; [split|].
Qed.

Lemma monitor_bounded sched s s' es :
  stopped s → traced (ab_step os num_nodes) s sched = Some (s', es) →
  stopped s' ∧
  (length (filter (λ l, l = AbMonitor) sched) + monitor_left (abs_monitor s') ≤ monitor_left (abs_monitor s))%nat.
Proof.
  revert s es. induction sched as [|l sched IH]; intros s es Hs Hr; cbn [traced] in Hr.
  { simplify_eq. by split; [|cbn; lia]. }
  destruct (ab_step os num_nodes s l) as [[s1 es1]|] eqn:E1; [|done].
  destruct (traced _ s1 sched) as [[s2 es2]|] eqn:E2; [|done]. simplify_eq.
  rewrite filter_cons. case_decide as Hl.
  - subst l. cbn [ab_step] in E1. pose proof (monitor_stops s Hs) as Hm. rewrite E1 in Hm. destruct Hm as [Hs1 Hlt].
    destruct (IH s1 es2 Hs1 E2) as [H1 H2]. split; [done|]. cbn [length]. lia.
  - destruct (others_keep_stopped s l s1 es1 Hl Hs E1) as [Hs1 Em].
    destruct (IH s1 es2 Hs1 E2) as [H1 H2]. split; [done|]. by rewrite <-Em.
Qed.
End stopping.

Lemma reg_run_refines ab ops :
  length (ab_entries ab) = AB_MAX_THREADS →
  (reg_run reg_step ab ops).1 = (reg_run reg_spec (table_of ab) ops).1 ∧
  table_of (reg_run reg_step ab ops).2 = (reg_run reg_spec (table_of ab) ops).2.
Proof.
  revert ab. induction ops as [|o ops IH]; intros ab Hlen; [done|]. cbn [reg_run].
  destruct (reg_step_refines ab o Hlen) as (E1 & E2 & E3).
  destruct (IH _ E3) as [F1 F2]. cbn [fst snd]. rewrite E1, F1, F2, E2. done.
Qed.

Lemma create_shape calloc_ok create_ok interval thresh cb ab :
  nkit_auto_balancer_create calloc_ok create_ok interval thresh cb = Some ab →
  ab = mk_ab false interval thresh cb (replicate AB_MAX_THREADS (mk_entry 0 0 (-1) (-1) false)) 0.
Proof.
  unfold nkit_auto_balancer_create. destruct (interval =? 0); [done|].
  destruct (dbl_le _ _); [done|]. destruct calloc_ok, create_ok; cbn [negb]; try done. by intros [= <-].
Qed.

Definition ab_start {K} (k : K) (ab : nkit_auto_balancer) : ab_state K := mk_abs k ab None MnTop.

Lemma ab_run_inv {K} (os : sched_os K) {OS : SchedOS_ok os} num_nodes
    calloc_ok create_ok interval thresh cb ab k sched s es :
  nkit_auto_balancer_create calloc_ok create_ok interval thresh cb = Some ab →
  traced (ab_step os num_nodes) (ab_start k ab) sched = Some (s, es) →
  ab_inv os num_nodes k thresh cb es s.
Proof.
  intros ->%create_shape Hr.
  refine (traced_invariant (ab_step os num_nodes) (λ _ es s, ab_inv os num_nodes k thresh cb es s) _ _ _ sched s es Hr).
  - split; try done; cbn [ab_start abs_kernel abs_ab abs_monitor abs_client ab_entries moves notes].
    + by exists 0%nat.
    + by destruct cb.
    + by intros ? ? ? ? ? ?%elem_of_nil.
    + by intros ? ? ? ? ? ?%elem_of_nil.
    + intros i e [-> _]%lookup_replicate [H|[H|H]]; done.
  - intros n es0 s0 l s1 es1. apply ab_step_inv.
Qed.

Lemma ab_run_quiet {K} (os : sched_os K) num_nodes
    calloc_ok create_ok interval thresh cb ab k sched s es :
  nkit_auto_balancer_create calloc_ok create_ok interval thresh cb = Some ab →
  traced (ab_step os num_nodes) (ab_start k ab) sched = Some (s, es) → no_removal es → ∃ L, quiet L es s.
Proof.
  intros ->%create_shape Hr.
  refine (traced_invariant (ab_step os num_nodes) (λ _ es s, no_removal es → ∃ L, quiet L es s) _ _ _ sched s es Hr).
  - intros _. exists ∅. split; try done; cbn [ab_start abs_ab abs_monitor abs_client ab_entries].
    by intros i e [-> _]%lookup_replicate.
  - intros n es0 s0 l s1 es1 IH Hs Hrem. destruct IH as [L Q].
    + intros tid Hin. apply (Hrem tid). apply elem_of_app. by left.
    + apply (quiet_step os num_nodes L es0 s0 l s1 es1); [|done|done].
      intros tid Hin. apply (Hrem tid). apply elem_of_app. by right.
Qed.

(** A registration whose stores nobody interrupts. *)
Definition register_calls (tid node : Z) : list ab_label :=
  AbRegister tid node :: replicate 5 AbClient.

(** The stores of the step system, one after the other, are the function
    [nkit_auto_balancer_register]. *)
Lemma register_alone {K} (os : sched_os K) num_nodes s tid node i :
  abs_client s = None → free_slot (ab_entries (abs_ab s)) = Some i →
  traced (ab_step os num_nodes) s (register_calls tid node) =
    Some (mk_abs (abs_kernel s) (nkit_auto_balancer_register (abs_ab s) tid node).2 None (abs_monitor s),
          [Asked tid; Registered i tid node]).
Proof.
  intros Hc Hf. unfold nkit_auto_balancer_register. rewrite Hf. cbn [snd].
  cbn [register_calls traced replicate ab_step]. rewrite Hc. cbn [abs_client client_step abs_ab].
  rewrite Hf. cbn [abs_client client_step abs_ab abs_kernel abs_monitor app].
  do 3 f_equal. unfold update_entry, set_entries. cbn [ab_entries ab_stop ab_interval_ms ab_mpki_threshold
    ab_callback ab_migration_count]. f_equal. by rewrite !alter_alter.
Qed.

(** ** Properties *)

(** C29. The registry is a bounded multiset of threads: through any sequence of
    registrations and unregistrations of a balancer just created, the calls
    return what the multiset of at most 64 threads returns, 0 or -1, and the
    active slots hold exactly its elements. *)
Theorem registry_refines_multiset calloc_ok create_ok interval thresh cb ab ops :
  nkit_auto_balancer_create calloc_ok create_ok interval thresh cb = Some ab →
  (reg_run reg_step ab ops).1 = (reg_run reg_spec ∅ ops).1 ∧
  table_of (reg_run reg_step ab ops).2 = (reg_run reg_spec ∅ ops).2.
Proof.
  intros ->%create_shape. set (ab := mk_ab _ _ _ _ _ _). change ∅ with (table_of ab).
  by apply reg_run_refines.
Qed.

Definition demo_ab : nkit_auto_balancer :=
  mk_ab false 500 (dbl_of_Z 50) true (replicate AB_MAX_THREADS (mk_entry 0 0 (-1) (-1) false)) 0.

Lemma registry_refines_multiset_witness :
  (reg_run reg_step demo_ab [OpRegister 7 0; OpRegister 8 1; OpUnregister 9; OpUnregister 7]).1
    = [0; 0; -1; 0] ∧
  table_of (reg_run reg_step demo_ab [OpRegister 7 0; OpRegister 8 1; OpUnregister 9; OpUnregister 7]).2
    = (reg_run reg_spec ∅ [OpRegister 7 0; OpRegister 8 1; OpUnregister 9; OpUnregister 7]).2.
Proof.
  split; [by vm_compute|]. apply (registry_refines_multiset true true 500 (dbl_of_Z 50) true); by vm_compute.
Defined.

(** C17. What the monitor does, in every interleaving with registrations,
    unregistrations and destruction.  It leaves no descriptor and no CPU mask behind.
    The number of migrations is the number of threads moved, except for one that is
    being counted.  With a callback, the callback hears of every move once and in
    order (slot, nodes and ratio), except one that is being reported.  A thread is
    moved only when there is more than one node, the measured ratio is above the
    threshold, to the node [(from + 1) % num_nodes], which differs from [from], and
    only a thread somebody asked to register; so is the thread the callback is given.
    In a run in which no call of unregister succeeded, moreover, [from] is the node on
    record for that thread, the one it was registered with or last moved to, what is on
    record is what the table holds, and the callback is given the thread that was
    moved. *)
Theorem ab_monitor_accounts {K} (os : sched_os K) {OS : SchedOS_ok os} num_nodes
    interval thresh cb ab k sched s es :
  nkit_auto_balancer_create true true interval thresh cb = Some ab →
  traced (ab_step os num_nodes) (ab_start k ab) sched = Some (s, es) →
  open_fds (abs_kernel s) = open_fds k ∧ cpumasks (abs_kernel s) = cpumasks k ∧
  (∃ c, length (moves es) = (c + uncounted (abs_monitor s))%nat ∧
        nkit_auto_balancer_migrations (abs_ab s) = u64 (Z.of_nat c)) ∧
  (if cb then (moves es).*2 = (notes es).*2 ++ unreported (abs_monitor s) else notes es = []) ∧
  (∀ i tid from to m, Moved i tid from to m ∈ es →
     dbl_gt m thresh = true ∧ 1 < num_nodes ∧ to = Z.rem (from + 1) num_nodes ∧ to ≠ from ∧ Asked tid ∈ es) ∧
  (∀ i tid from to m, Notified i tid from to m ∈ es → Asked tid ∈ es) ∧
  (no_removal es →
     (∃ L, run ledger_step ∅ es = Some L ∧
        ∀ i e, ab_entries (abs_ab s) !! i = Some e → e_active e = true → scanned (abs_monitor s) ≠ Some i →
          L !! i = Some (e_tid e, e_current_node e)) ∧
     (cb = true → moves es = notes es ++ to_report s)).
Proof.
  intros Hc Hr. pose proof (ab_run_inv os num_nodes _ _ _ _ _ _ _ _ _ _ Hc Hr) as I.
  destruct (ai_kernel _ _ _ _ _ _ _ I) as [F M].
  split; [done|]. split; [done|]. split; [apply (ai_count _ _ _ _ _ _ _ I)|].
  split; [apply (ai_notes _ _ _ _ _ _ _ I)|]. split.
  { intros i tid from to m H. destruct (ai_moves _ _ _ _ _ _ _ I _ _ _ _ _ H) as [(J1 & J2 & J3 & J4) HA]. done. }
  split; [apply (ai_noted _ _ _ _ _ _ _ I)|]. intros Hrem.
  destruct (ab_run_quiet os num_nodes _ _ _ _ _ _ _ _ _ _ Hc Hr Hrem) as (L & [Q1 Q2 _ _ Q5]).
  rewrite (ai_cb _ _ _ _ _ _ _ I) in Q5. split; [|done]. exists L. split; [done|].
  intros i e He Ha Hsc. specialize (Q2 i e He). unfold slot_ok in Q2. rewrite Ha in Q2.
  destruct Q2 as (_ & Q2 & _). unfold at_slot at 1 in Q2. by rewrite bool_decide_eq_false_2 in Q2.
Qed.

(** One pass of the monitor over a thread just registered. *)
Definition demo_reads : demo_kernel → Z → Z * Z :=
  by_event (λ ev, if ev =? PERF_COUNT_HW_CACHE_MISSES then 120 else 2000).

Definition demo_pass : list ab_label := register_calls 7 0 ++ replicate 9 AbMonitor.

Lemma ab_monitor_accounts_witness :
  match traced (ab_step (demo_sched demo_reads) 2) (ab_start (demo_kernel0 []) demo_ab) demo_pass with
  | Some (s, es) => moves es = [(7, (0%nat, 0, 1, mpki 120 2000))] ∧ moves es = notes es ++ to_report s ∧
      nkit_auto_balancer_migrations (abs_ab s) = 1 ∧
      open_fds (os:=demo_sched demo_reads) (abs_kernel s) = open_fds (os:=demo_sched demo_reads) (demo_kernel0 [])
  | None => False
  end.
Proof.
  destruct (traced _ _ _) as [[s es]|] eqn:E; [|by vm_compute in E].
  destruct (ab_monitor_accounts (demo_sched demo_reads) 2 500 (dbl_of_Z 50) true demo_ab (demo_kernel0 [])
    demo_pass s es) as (Hfds & _ & _ & _ & _ & _ & Hq); [by vm_compute|done|].
  split; [vm_compute in E; by simplify_eq|].
  split; [|split; [vm_compute in E; by simplify_eq|done]]. apply Hq; [|done].
  assert (Hes : es = [Asked 7; Registered 0 7 0; Moved 0 7 0 1 (mpki 120 2000); Notified 0 7 0 1 (mpki 120 2000)] ∨
    es = [Asked 7; Registered 0 7 0; Moved 0 7 0 1 (mpki 120 2000)]) by (vm_compute in E; simplify_eq; auto).
  intros tid Hin. apply list_elem_of_In in Hin. destruct Hes as [-> | ->]; cbn in Hin; intuition discriminate.
Defined.

(** Destruction comes to an end: in any execution, once destroy has set
    [stop] the monitor can always move until it has returned, whatever the kernel
    answers, and makes at most 515 more steps, so the join in destroy returns; the
    scan it is in is finished first. *)
Theorem ab_destroy_terminates {K} (os : sched_os K) {OS : SchedOS_ok os} num_nodes
    interval thresh cb ab k before after s es :
  nkit_auto_balancer_create true true interval thresh cb = Some ab →
  traced (ab_step os num_nodes) (ab_start k ab) (before ++ AbDestroy :: after) = Some (s, es) →
  (length (filter (λ l, l = AbMonitor) after) ≤ 515)%nat ∧
  (abs_monitor s = MnExit ∨ is_Some (ab_step os num_nodes s AbMonitor)).
Proof.
  intros Hc Hr. rewrite traced_app in Hr.
  destruct (traced _ _ before) as [[s0 es0]|] eqn:E0; [|done]. cbn [traced ab_step] in Hr.
  pose proof (ab_run_inv os num_nodes _ _ _ _ _ _ _ _ _ _ Hc E0) as I.
  set (s1 := mk_abs _ (set_stop (abs_ab s0)) _ _) in Hr.
  destruct (traced _ s1 after) as [[s2 es2]|] eqn:E; [|done]. simplify_eq.
  assert (H1 : stopped s1) by (split; [done|apply I|apply I]).
  destruct (monitor_bounded os num_nodes after s1 _ _ H1 E) as [H2 Hle]. split.
  - assert (monitor_left (abs_monitor s1) ≤ 515)%nat; [|lia].
    cbn [s1 abs_monitor]. unfold monitor_left, AB_MAX_THREADS. destruct (abs_monitor s0); lia.
  - pose proof (monitor_stops os num_nodes s H2) as Hm. cbn [ab_step].
    destruct (monitor_step os num_nodes s); [right|left]; done.
Qed.

Lemma ab_destroy_terminates_witness :
  match traced (ab_step (demo_sched demo_reads) 2) (ab_start (demo_kernel0 []) demo_ab)
          (demo_pass ++ AbDestroy :: [AbMonitor]) with
  | Some (s, _) => abs_monitor s = MnExit ∨ is_Some (ab_step (demo_sched demo_reads) 2 s AbMonitor)
  | None => False
  end.
Proof.
  destruct (traced _ _ _) as [[s es]|] eqn:E; [|by vm_compute in E].
  apply (ab_destroy_terminates (demo_sched demo_reads) 2 500 (dbl_of_Z 50) true demo_ab (demo_kernel0 [])
    demo_pass [AbMonitor] s es); [by vm_compute|done].
Defined.

(** Unregistering does not stop a move that is under way: there is an
    execution in which a thread is moved to another node after the call that
    unregistered it has returned 0. *)
Theorem ab_moves_unregistered :
  ∃ sched s es1 es2 m, traced (ab_step (demo_sched demo_reads) 2) (ab_start (demo_kernel0 []) demo_ab) sched
    = Some (s, es1 ++ Unregistered 7 0 :: es2) ∧ Moved 0 7 0 1 m ∈ es2 ∧
    (∀ tid, Asked tid ∈ es2 → False).
Proof.
  exists (register_calls 7 0 ++ replicate 3 AbMonitor ++ [AbUnregister 7] ++ replicate 3 AbMonitor).
  match goal with |- ∃ s es1 es2 m, ?r = _ ∧ _ => destruct r as [[s es]|] eqn:E end; [|by vm_compute in E].
  exists s, [Asked 7; Registered 0 7 0], [Moved 0 7 0 1 (mpki 120 2000)], (mpki 120 2000).
  split; [vm_compute in E; by simplify_eq|]. split; [left|]. by intros tid ?%list_elem_of_singleton.
Qed.

(** The callback may name a thread that was not moved: the monitor reads the slot
    again for it, and by then the slot may have been given to another thread, which
    also finds its recorded node overwritten. *)
Theorem ab_reports_another :
  ∃ sched s es m, traced (ab_step (demo_sched demo_reads) 2) (ab_start (demo_kernel0 []) demo_ab) sched = Some (s, es) ∧
    moves es = [(7, (0%nat, 0, 1, m))] ∧ notes es = [(8, (0%nat, 0, 1, m))] ∧ Registered 0 8 0 ∈ es ∧
    (e_current_node <$> ab_entries (abs_ab s) !! 0%nat) = Some 1.
Proof.
  exists (register_calls 7 0 ++ replicate 6 AbMonitor ++ [AbUnregister 7] ++ register_calls 8 0 ++ replicate 3 AbMonitor).
  match goal with |- ∃ s es m, ?r = _ ∧ _ => destruct r as [[s es]|] eqn:E end; [|by vm_compute in E].
  exists s, es, (mpki 120 2000). vm_compute in E. injection E as <- <-. split_and!; [done..| |done].
  apply list_elem_of_In. cbn. tauto.
Qed.
