(* ===== verification/Deque.v ===== *)
(** * The work-stealing deque (src/structs/deque.c)

    The Chase-Lev deque with growing arrays.  Threads interleave at every access
    to the shared words [bottom], [top], [array] and to the buffers; memory is
    sequentially consistent.  Arrays live in a heap of their own, a pointer being
    an index into it, so that a thief may hold an array that was retired, and so
    that an array freed early is visible as such. *)

From stdpp Require Import prelude.
From Stdlib Require Import ZArith Lia.
From S2P Require Import Prelude Words.
Local Open Scope Z_scope.

(** ** Data *)

Record nkit_deque_array_t := mk_da {
  da_size : Z;
  da_mask : Z;
  da_buffer : list Z;
}.

Record nkit_deque_t := mk_dq {
  dq_node_id : Z;
  dq_bottom : Z;
  dq_top : Z;
  dq_array : nat;
  dq_retired : option (list nat);   (* retired_arrays[0 .. num_retired); [None]: NULL *)
  dq_retired_capacity : Z;
  dq_heap : list (option nkit_deque_array_t);   (* [None]: freed *)
}.

Definition set_bottom (d : nkit_deque_t) (b : Z) : nkit_deque_t :=
  mk_dq (dq_node_id d) b (dq_top d) (dq_array d) (dq_retired d) (dq_retired_capacity d) (dq_heap d).
Definition set_top (d : nkit_deque_t) (t : Z) : nkit_deque_t :=
  mk_dq (dq_node_id d) (dq_bottom d) t (dq_array d) (dq_retired d) (dq_retired_capacity d) (dq_heap d).
Definition set_array (d : nkit_deque_t) (a : nat) : nkit_deque_t :=
  mk_dq (dq_node_id d) (dq_bottom d) (dq_top d) a (dq_retired d) (dq_retired_capacity d) (dq_heap d).
Definition set_retired (d : nkit_deque_t) (r : list nat) (c : Z) : nkit_deque_t :=
  mk_dq (dq_node_id d) (dq_bottom d) (dq_top d) (dq_array d) (Some r) c (dq_heap d).
Definition set_heap (d : nkit_deque_t) (h : list (option nkit_deque_array_t)) : nkit_deque_t :=
  mk_dq (dq_node_id d) (dq_bottom d) (dq_top d) (dq_array d) (dq_retired d) (dq_retired_capacity d) h.

(** ** Arrays *)

(** [_nkit_deque_array_alloc]: a cleared array of [size] entries. *)
Definition deque_array_alloc (size : Z) : nkit_deque_array_t :=
  mk_da size (u32 (size - 1)) (replicate (Z.to_nat size) 0).

Definition slot_of (a : nkit_deque_array_t) (i : Z) : nat := Z.to_nat (Z.land i (da_mask a)).

(** [a->buffer[i & a->mask]] in a live array. *)
Definition array_get (d : nkit_deque_t) (a : nat) (i : Z) : option Z :=
  match dq_heap d !! a with
  | Some (Some arr) => da_buffer arr !! slot_of arr i
  | _ => None
  end.

Definition array_put (d : nkit_deque_t) (a : nat) (i x : Z) : option nkit_deque_t :=
  match dq_heap d !! a with
  | Some (Some arr) =>
      if decide (slot_of arr i < length (da_buffer arr))%nat then
        Some (set_heap d (<[a := Some (mk_da (da_size arr) (da_mask arr)
                                         (<[slot_of arr i := x]> (da_buffer arr)))]> (dq_heap d)))
      else None
  | _ => None
  end.

Definition array_size (d : nkit_deque_t) (a : nat) : option Z :=
  match dq_heap d !! a with Some (Some arr) => Some (da_size arr) | _ => None end.

(** [_nkit_deque_array_free] *)
Definition deque_array_free (d : nkit_deque_t) (a : nat) : nkit_deque_t :=
  set_heap d (<[a := None]> (dq_heap d)).

(** ** Creation and destruction *)

(** The retired list of a new deque: empty, or NULL. *)
Definition new_retired (alloc_list : bool) : option (list nat) := if alloc_list then Some [] else None.

(** The three [numa_alloc_onnode] results: the deque, the array, and the retired
    list, whose result the code does not look at. *)
Definition nkit_deque_create (numa_available : Z) (alloc_dq alloc_array alloc_list : bool)
    (node_id initial_capacity : Z) : option nkit_deque_t :=
  if numa_available <? 0 then None else
  if (initial_capacity =? 0) ||
     negb (Z.land initial_capacity (u32 (initial_capacity - 1)) =? 0) then None else
  if negb alloc_dq then None else
  if negb alloc_array then None else
  Some (mk_dq node_id 0 0 0 (new_retired alloc_list) 8 [Some (deque_array_alloc initial_capacity)]).

(** The arrays are freed, then the list of the retired ones and the deque itself. *)
Definition nkit_deque_destroy (d : nkit_deque_t) : list (option nkit_deque_array_t) :=
  dq_heap (foldl deque_array_free (deque_array_free d (dq_array d)) (default [] (dq_retired d))).

Definition nkit_deque_size (d : nkit_deque_t) : Z :=
  let b := dq_bottom d in
  let t := dq_top d in
  if t <? b then u32 (b - t) else 0.

(** ** Steps *)

(** The locals of a push across a call of [_nkit_deque_resize]. *)
Record push_frame := mk_pf { pf_b : Z; pf_t : Z; pf_data : Z }.

(** Where a thread is: the shared access it makes next, with its locals. *)
Inductive dq_pc :=
| DqIdle
(* nkit_deque_push *)
| DqPushBottom (data : Z)
| DqPushTop (b data : Z)
| DqPushArray (f : push_frame)
| DqPushAgain (f : push_frame)
| DqPushStore (b : Z) (a : nat) (data : Z)
| DqPushPublish (b data : Z)
(* _nkit_deque_resize *)
| DqGrowBottom (f : push_frame)
| DqGrowTop (f : push_frame) (b : Z)
| DqGrowArray (f : push_frame) (b t : Z)
| DqGrowAlloc (f : push_frame) (b t : Z) (old : nat)
| DqGrowCopy (f : push_frame) (b i : Z) (old new : nat)
| DqGrowPublish (f : push_frame) (old new : nat)
| DqGrowRetire (f : push_frame) (old : nat)
(* nkit_deque_pop *)
| DqPopBottom
| DqPopArray (b : Z)
| DqPopStore (b : Z) (a : nat)
| DqPopTop (b : Z) (a : nat)
| DqPopRead (b : Z) (a : nat) (last : bool)
| DqPopCas (b x : Z)
| DqPopRestore (b : Z) (res : option Z)
(* nkit_deque_steal *)
| DqStealTop
| DqStealBottom (t : Z)
| DqStealArray (t : Z)
| DqStealRead (t : Z) (a : nat)
| DqStealCas (t x : Z).

#[export] Instance push_frame_eq_dec : EqDecision push_frame.
Proof. solve_decision. Defined.
#[export] Instance dq_pc_eq_dec : EqDecision dq_pc.
Proof. solve_decision. Defined.

(** [Pushed]: the item is in the deque; [PushFailed], [Nothing]: a call returns
    false; [Popped], [Stolen]: a call returns true with the item. *)
Inductive dq_event :=
| Pushed (x : Z)
| PushFailed
| Popped (t : nat) (x : Z)
| Stolen (t : nat) (x : Z)
| Nothing (t : nat).

(** One access of [nkit_deque_push] or of the resize it calls; [ok] is the
    result of an allocation. *)
Definition push_step (d : nkit_deque_t) (pc : dq_pc) (ok : bool)
    : option (nkit_deque_t * dq_pc * list dq_event) :=
  match pc with
  | DqPushBottom data => Some (d, DqPushTop (dq_bottom d) data, [])
  | DqPushTop b data => Some (d, DqPushArray (mk_pf b (dq_top d) data), [])
  | DqPushArray f =>
      match array_size d (dq_array d) with
      | None => None
      | Some size =>
          if size <=? pf_b f - pf_t f then Some (d, DqGrowBottom f, [])
          else Some (d, DqPushStore (pf_b f) (dq_array d) (pf_data f), [])
      end
  | DqPushAgain f =>
      match array_size d (dq_array d) with
      | None => None
      | Some size =>
          if size <=? pf_b f - pf_t f then Some (d, DqIdle, [PushFailed])
          else Some (d, DqPushStore (pf_b f) (dq_array d) (pf_data f), [])
      end
  | DqPushStore b a data =>
      match array_put d a b data with
      | None => None
      | Some d' => Some (d', DqPushPublish b data, [])
      end
  | DqPushPublish b data => Some (set_bottom d (b + 1), DqIdle, [Pushed data])
  | DqGrowBottom f => Some (d, DqGrowTop f (dq_bottom d), [])
  | DqGrowTop f b => Some (d, DqGrowArray f b (dq_top d), [])
  | DqGrowArray f b t => Some (d, DqGrowAlloc f b t (dq_array d), [])
  | DqGrowAlloc f b t old =>
      match array_size d old with
      | None => None
      | Some size =>
          if ok then
            let new := length (dq_heap d) in
            Some (set_heap d (dq_heap d ++ [Some (deque_array_alloc (u32 (size * 2)))]),
                  DqGrowCopy f b t old new, [])
          else Some (d, DqPushAgain f, [])
      end
  | DqGrowCopy f b i old new =>
      if i <? b then
        match array_get d old i with
        | None => None
        | Some item =>
            match array_put d new i item with
            | None => None
            | Some d' => Some (d', DqGrowCopy f b (i + 1) old new, [])
            end
        end
      else Some (d, DqGrowPublish f old new, [])
  | DqGrowPublish f old new => Some (set_array d new, DqGrowRetire f old, [])
  | DqGrowRetire f old =>
      match dq_retired d with
      | None => None       (* [num_retired] is 0, so the write goes through NULL *)
      | Some retired =>
          if Z.of_nat (length retired) =? dq_retired_capacity d then
            if ok then
              Some (set_retired d (retired ++ [old]) (u32 (dq_retired_capacity d * 2)), DqPushAgain f, [])
            else Some (deque_array_free d old, DqPushAgain f, [])
          else Some (set_retired d (retired ++ [old]) (dq_retired_capacity d), DqPushAgain f, [])
      end
  | _ => None
  end.

(** One access of [nkit_deque_pop] by thread [u]. *)
Definition pop_step (d : nkit_deque_t) (u : nat) (pc : dq_pc)
    : option (nkit_deque_t * dq_pc * list dq_event) :=
  match pc with
  | DqPopBottom => Some (d, DqPopArray (dq_bottom d - 1), [])
  | DqPopArray b => Some (d, DqPopStore b (dq_array d), [])
  | DqPopStore b a => Some (set_bottom d b, DqPopTop b a, [])
  | DqPopTop b a =>
      let t := dq_top d in
      if t <=? b then Some (d, DqPopRead b a (t =? b), [])
      else Some (d, DqPopRestore b None, [])
  | DqPopRead b a last =>
      match array_get d a b with
      | None => None
      | Some x => if last then Some (d, DqPopCas b x, []) else Some (d, DqIdle, [Popped u x])
      end
  | DqPopCas b x =>
      if dq_top d =? b then Some (set_top d (b + 1), DqPopRestore b (Some x), [])
      else Some (d, DqPopRestore b None, [])
  | DqPopRestore b res =>
      Some (set_bottom d (b + 1), DqIdle,
            match res with Some x => [Popped u x] | None => [Nothing u] end)
  | _ => None
  end.

(** One access of [nkit_deque_steal] by thread [u]. *)
Definition steal_step (d : nkit_deque_t) (u : nat) (pc : dq_pc)
    : option (nkit_deque_t * dq_pc * list dq_event) :=
  match pc with
  | DqStealTop => Some (d, DqStealBottom (dq_top d), [])
  | DqStealBottom t =>
      if t <? dq_bottom d then Some (d, DqStealArray t, []) else Some (d, DqIdle, [Nothing u])
  | DqStealArray t => Some (d, DqStealRead t (dq_array d), [])
  | DqStealRead t a =>
      match array_get d a t with
      | None => None
      | Some x => Some (d, DqStealCas t x, [])
      end
  | DqStealCas t x =>
      if dq_top d =? t then Some (set_top d (t + 1), DqIdle, [Stolen u x])
      else Some (d, DqIdle, [Nothing u])
  | _ => None
  end.

Record dq_state := mk_dqs {
  dqs_deque : nkit_deque_t;
  dqs_threads : list dq_pc;
}.

Inductive dq_label :=
| DqPush (u : nat) (data : Z)
| DqPop (u : nat)
| DqSteal (u : nat)
| DqAdvance (u : nat) (ok : bool).

Definition dq_step (s : dq_state) (l : dq_label) : option (dq_state * list dq_event) :=
  let call u pc :=
    match dqs_threads s !! u with
    | Some DqIdle => Some (mk_dqs (dqs_deque s) (<[u := pc]> (dqs_threads s)), [])
    | _ => None
    end in
  match l with
  | DqPush u data => call u (DqPushBottom data)
  | DqPop u => call u DqPopBottom
  | DqSteal u => call u DqStealTop
  | DqAdvance u ok =>
      match dqs_threads s !! u with
      | None => None
      | Some pc =>
          let res :=
            match push_step (dqs_deque s) pc ok with
            | Some r => Some r
            | None =>
                match pop_step (dqs_deque s) u pc with
                | Some r => Some r
                | None => steal_step (dqs_deque s) u pc
                end
            end in
          match res with
          | Some (d, pc', es) => Some (mk_dqs d (<[u := pc']> (dqs_threads s)), es)
          | None => None
          end
      end
  end.

(** A fresh deque, with or without its retired list, and [n] threads outside any
    call. *)
Definition dq_start (node cap : Z) (alloc_list : bool) (n : nat) : dq_state :=
  mk_dqs (mk_dq node 0 0 0 (new_retired alloc_list) 8 [Some (deque_array_alloc cap)]) (replicate n DqIdle).

Definition pushes (es : list dq_event) : list Z :=
  omap (λ e, match e with Pushed x => Some x | _ => None end) es.
Definition taken (es : list dq_event) : list Z :=
  omap (λ e, match e with Popped _ x | Stolen _ x => Some x | _ => None end) es.

(** ** Arrays: lemmas *)

Record array_wf (arr : nkit_deque_array_t) : Prop := {
  wf_size : ∃ k, 0 ≤ k ≤ 31 ∧ da_size arr = 2 ^ k;
  wf_mask : da_mask arr = da_size arr - 1;
  wf_len : Z.of_nat (length (da_buffer arr)) = da_size arr;
}.

Lemma array_size_pos arr : array_wf arr → 0 < da_size arr ≤ 2 ^ 31.
Proof.
  intros [(k & Hk & ->) _ _]. split; [lia|]. apply Z.pow_le_mono_r; lia.
Qed.

Lemma slot_of_mod arr i : array_wf arr → slot_of arr i = Z.to_nat (i mod da_size arr).
Proof.
  intros [(k & Hk & E) Hm _]. unfold slot_of. rewrite Hm, E, land_mask by lia. done.
Qed.

Lemma slot_of_lt arr i : array_wf arr → (slot_of arr i < length (da_buffer arr))%nat.
Proof.
  intros Hwf. rewrite slot_of_mod by done. pose proof (array_size_pos arr Hwf).
  pose proof (wf_len _ Hwf). pose proof (Z.mod_pos_bound i (da_size arr)). lia.
Qed.

Lemma slot_of_inj arr i j :
  array_wf arr → - da_size arr < i - j < da_size arr → slot_of arr i = slot_of arr j → i = j.
Proof.
  intros Hwf Hij E. pose proof (array_size_pos arr Hwf). rewrite !slot_of_mod in E by done.
  apply (window_slot (da_size arr) (Z.max i j + 1)); auto; lia.
Qed.

Lemma array_alloc_wf k : 0 ≤ k ≤ 31 → array_wf (deque_array_alloc (2 ^ k)).
Proof.
  intros Hk. assert (2 ^ k ≤ 2 ^ 31) by (apply Z.pow_le_mono_r; lia).
  split; simpl; [by exists k| |rewrite length_replicate; lia].
  apply u32_small. unfold is_u32. lia.
Qed.

(** The live array at [a]. *)
Definition live_array (d : nkit_deque_t) (a : nat) (arr : nkit_deque_array_t) : Prop :=
  dq_heap d !! a = Some (Some arr) ∧ array_wf arr.

Lemma array_get_live d a arr i : live_array d a arr → is_Some (array_get d a i).
Proof.
  intros [E Hwf]. unfold array_get. rewrite E. by apply lookup_lt_is_Some_2, slot_of_lt.
Qed.

(** What a store to a buffer changes. *)
Record stored (d : nkit_deque_t) (a : nat) (i x : Z) (d' : nkit_deque_t) : Prop := {
  st_bottom : dq_bottom d' = dq_bottom d;
  st_top : dq_top d' = dq_top d;
  st_array : dq_array d' = dq_array d;
  st_retired : dq_retired d' = dq_retired d;
  st_length : length (dq_heap d') = length (dq_heap d);
  st_same : array_get d' a i = Some x;
  st_index j arr : live_array d a arr → j ≠ i → - da_size arr < j - i < da_size arr →
    array_get d' a j = array_get d a j;
  st_other a' : a' ≠ a → dq_heap d' !! a' = dq_heap d !! a';
  st_live arr : live_array d a arr → ∃ arr', live_array d' a arr' ∧ da_size arr' = da_size arr;
}.

Lemma array_put_stored d a arr i x :
  live_array d a arr → ∃ d', array_put d a i x = Some d' ∧ stored d a i x d'.
Proof.
  intros [E Hwf]. unfold array_put. rewrite E.
  pose proof (slot_of_lt arr i Hwf) as Hlt. rewrite decide_True by done.
  pose proof (lookup_lt_Some _ _ _ E) as Ha. eexists. split; [done|].
  set (arr' := mk_da (da_size arr) (da_mask arr) (<[slot_of arr i := x]> (da_buffer arr))).
  assert (Hwf' : array_wf arr').
  { destruct Hwf as [H1 H2 H3]. split; simpl; auto. by rewrite length_insert. }
  split; simpl; auto.
  - apply length_insert.
  - unfold array_get. simpl. rewrite list_lookup_insert_eq by done.
    by apply list_lookup_insert_eq.
  - intros j arr0 [E0 _] Hne Hj. unfold array_get. simpl. rewrite list_lookup_insert_eq by done.
    rewrite E in E0. simplify_eq. rewrite E. apply list_lookup_insert_ne.
    change (slot_of arr' j) with (slot_of arr0 j). intros Es. apply Hne. symmetry.
    apply (slot_of_inj arr0); auto. lia.
  - intros a' Hne. by apply list_lookup_insert_ne.
  - intros arr0 [E0 _]. rewrite E in E0. simplify_eq. exists arr'. split; [|done].
    split; [by apply list_lookup_insert_eq|done].
Qed.

Lemma stored_get_other d a i x d' a' j :
  stored d a i x d' → a' ≠ a → array_get d' a' j = array_get d a' j.
Proof. intros S Hne. unfold array_get. by rewrite (st_other _ _ _ _ _ S a' Hne). Qed.

(** ** The invariant

    [c] is the deque's contents from top to bottom, [r] the item the owner has
    taken but not yet returned, [sz] the size of the current array. *)

(** The index after the last item: [bottom], except while a pop that has
    lowered it has not decided yet. *)
Definition limit (pc : dq_pc) (bottom : Z) : Z :=
  match pc with
  | DqPopTop b _ | DqPopRead b _ true | DqPopCas b _ | DqPopRestore b _ => b + 1
  | _ => bottom
  end.

(** The array the owner is filling and has not published. *)
Definition private (pc : dq_pc) : option nat :=
  match pc with DqGrowCopy _ _ _ _ new | DqGrowPublish _ _ new => Some new | _ => None end.

Section invariant.
Context (d : nkit_deque_t) (c r : list Z) (sz : Z).

Definition holds_all (a : nat) (hi : Z) : Prop :=
  ∀ j x, c !! j = Some x → dq_top d + Z.of_nat j < hi →
    array_get d a (dq_top d + Z.of_nat j) = Some x.

Definition frame_ok (f : push_frame) : Prop :=
  pf_b f = dq_bottom d ∧ 0 ≤ pf_t f ≤ dq_top d ∧ dq_bottom d - pf_t f ≤ sz.

Definition growing (f : push_frame) : Prop := frame_ok f ∧ sz ≤ dq_bottom d - pf_t f.

(** The new array holds the copied part of the contents. *)
Definition copied (f : push_frame) (i : Z) (old new : nat) : Prop :=
  growing f ∧ old = dq_array d ∧ new ≠ dq_array d ∧ pf_t f ≤ i ∧ holds_all new i ∧
  ∃ arr, live_array d new arr ∧ da_size arr = 2 * sz.

Definition owner_ok (pc : dq_pc) : Prop :=
  match pc with
  | DqIdle | DqPushBottom _ | DqPopBottom => r = []
  | DqPushTop b _ => r = [] ∧ b = dq_bottom d
  | DqPushArray f | DqPushAgain f => r = [] ∧ frame_ok f
  | DqPushStore b a _ => r = [] ∧ b = dq_bottom d ∧ a = dq_array d ∧ b - dq_top d < sz
  | DqPushPublish b x => r = [] ∧ b = dq_bottom d ∧ b - dq_top d < sz ∧
      array_get d (dq_array d) b = Some x
  | DqGrowBottom f => r = [] ∧ growing f
  | DqGrowTop f b => r = [] ∧ growing f ∧ b = dq_bottom d
  | DqGrowArray f b t => r = [] ∧ growing f ∧ b = dq_bottom d ∧ pf_t f ≤ t ≤ dq_top d
  | DqGrowAlloc f b t old => r = [] ∧ growing f ∧ b = dq_bottom d ∧ pf_t f ≤ t ≤ dq_top d ∧
      old = dq_array d
  | DqGrowCopy f b i old new => r = [] ∧ b = dq_bottom d ∧ copied f i old new
  | DqGrowPublish f old new => r = [] ∧ copied f (dq_bottom d) old new
  | DqGrowRetire f old => r = [] ∧ frame_ok f ∧ old ≠ dq_array d
  | DqPopArray b => r = [] ∧ b = dq_bottom d - 1
  | DqPopStore b a => r = [] ∧ b = dq_bottom d - 1 ∧ a = dq_array d
  | DqPopTop b a => r = [] ∧ b = dq_bottom d ∧ a = dq_array d
  | DqPopRead b a true => r = [] ∧ b = dq_bottom d ∧ a = dq_array d ∧ b ≤ dq_top d
  | DqPopRead b a false => b = dq_bottom d ∧ a = dq_array d ∧
      ∃ x, r = [x] ∧ array_get d a b = Some x
  | DqPopCas b x => r = [] ∧ b = dq_bottom d ∧ b ≤ dq_top d ∧ (dq_top d = b → c = [x])
  | DqPopRestore b res => r = option_list res ∧ b = dq_bottom d ∧ c = []
  | DqStealTop | DqStealBottom _ | DqStealArray _ | DqStealRead _ _ | DqStealCas _ _ => False
  end.

(** A thief whose compare-and-swap can still succeed has the right item. *)
Definition thief_ok (priv : option nat) (pc : dq_pc) : Prop :=
  match pc with
  | DqIdle | DqStealTop => True
  | DqStealBottom t => 0 ≤ t ≤ dq_top d
  | DqStealArray t => 0 ≤ t ≤ dq_top d ∧ (t = dq_top d → c ≠ [])
  | DqStealRead t a => 0 ≤ t ≤ dq_top d ∧ priv ≠ Some a ∧ (a < length (dq_heap d))%nat ∧
      (t = dq_top d → ∃ x, head c = Some x ∧
         (dq_heap d !! a = Some None ∨ array_get d a t = Some x))
  | DqStealCas t x => 0 ≤ t ≤ dq_top d ∧ (t = dq_top d → head c = Some x)
  | _ => False
  end.
End invariant.

Record dq_inv (ow : nat) (n : Z) (s : dq_state) (pc : dq_pc) (c r : list Z) (sz : Z) : Prop := {
  iv_top : 0 ≤ dq_top (dqs_deque s);
  iv_limit : dq_top (dqs_deque s) + Z.of_nat (length c) = limit pc (dq_bottom (dqs_deque s));
  iv_steps : limit pc (dq_bottom (dqs_deque s)) ≤ n;
  iv_heap : ∀ a arr, dq_heap (dqs_deque s) !! a = Some (Some arr) → array_wf arr;
  iv_cur : ∃ arr, live_array (dqs_deque s) (dq_array (dqs_deque s)) arr ∧ da_size arr = sz;
  iv_room : Z.of_nat (length c) ≤ sz;
  iv_content : holds_all (dqs_deque s) c (dq_array (dqs_deque s)) (dq_top (dqs_deque s) + Z.of_nat (length c));
  iv_pc : dqs_threads s !! ow = Some pc;
  iv_owner : owner_ok (dqs_deque s) c r sz pc;
  iv_thieves : ∀ u pc', u ≠ ow → dqs_threads s !! u = Some pc' →
    thief_ok (dqs_deque s) c (private pc) pc';
}.

(** ** Preservation by the thieves *)

(** Taking the top item: what the owner and the other thieves know stays true. *)
Lemma holds_all_tail d x c a hi :
  holds_all d (x :: c) a hi → holds_all (set_top d (dq_top d + 1)) c a hi.
Proof.
  intros H j y Hj Hlt. simpl in *. specialize (H (S j) y Hj).
  replace (dq_top d + 1 + Z.of_nat j) with (dq_top d + Z.of_nat (S j)) in * by lia.
  by apply H.
Qed.

Lemma owner_ok_steal d x c r sz pc :
  dq_top d + Z.of_nat (length (x :: c)) = limit pc (dq_bottom d) →
  owner_ok d (x :: c) r sz pc → owner_ok (set_top d (dq_top d + 1)) c r sz pc.
Proof.
  intros Hlim. unfold owner_ok, growing, frame_ok, copied.
  destruct pc; simpl in *; try done; try (intuition lia).
  - intros (Hr & Hb & (Hg & Ho & Hn & Hi & Hh & Ha)).
    pose proof (holds_all_tail d x c _ _ Hh). unfold growing, frame_ok in *. simpl in *. intuition lia.
  - intros (Hr & (Hg & Ho & Hn & Hi & Hh & Ha)).
    pose proof (holds_all_tail d x c _ _ Hh). unfold growing, frame_ok in *. simpl in *. intuition lia.
  - destruct last0; [intuition lia|done].
  - intros (? & ? & ?). done.
Qed.

Section thief.
Context (ow : nat) (n : Z) (s : dq_state) (pc : dq_pc) (c r : list Z) (sz : Z).
Hypothesis I : dq_inv ow n s pc c r sz.
Abbreviation d := (dqs_deque s).

Lemma thief_local u pcu pcu' :
  u ≠ ow → dqs_threads s !! u = Some pcu → thief_ok d c (private pc) pcu' →
  dq_inv ow n (mk_dqs d (<[u := pcu']> (dqs_threads s))) pc c r sz.
Proof.
  intros Hu Ht Hok. destruct I as [? ? ? ? ? ? ? ? ? Hth]. split; simpl; auto.
  - by rewrite list_lookup_insert_ne.
  - intros v pcv Hv Hl. revert v pcv Hl Hv.
    apply (forall_insert (λ v pcv, v ≠ ow → thief_ok d c (private pc) pcv)); [done|].
    intros v pcv _ Hl Hv. by apply (Hth v).
Qed.

(** A successful compare-and-swap of a thief. *)
Lemma thief_takes u t x :
  u ≠ ow → dqs_threads s !! u = Some (DqStealCas t x) → t = dq_top d →
  ∃ c', c = x :: c' ∧
    dq_inv ow n (mk_dqs (set_top d (t + 1)) (<[u := DqIdle]> (dqs_threads s))) pc c' r sz.
Proof.
  intros Hu Ht ->. destruct (iv_thieves _ _ _ _ _ _ _ I u _ Hu Ht) as [_ Hhd].
  specialize (Hhd eq_refl). destruct c as [|x0 c'] eqn:Ec; simplify_eq/=. exists c'. split; [done|].
  destruct I as [Htop Hlim Hn Hheap Hcur Hroom Hcont Hpc Hown Hth]. simpl in Hroom. split; simpl.
  - lia.
  - rewrite <-Hlim. simpl. lia.
  - done.
  - done.
  - done.
  - lia.
  - replace (dq_top d + 1 + Z.of_nat (length c')) with (dq_top d + Z.of_nat (length (x :: c')))
      by (simpl; lia). by apply holds_all_tail with x.
  - by rewrite list_lookup_insert_ne.
  - by apply owner_ok_steal with x.
  - intros v pcv Hv Hl. revert v pcv Hl Hv.
    apply (forall_insert (λ v pcv, v ≠ ow → thief_ok _ c' (private pc) pcv)); [done|].
    intros v pcv _ Hl Hv. specialize (Hth v pcv Hv Hl).
    destruct pcv; simpl in *; try done; intuition lia.
Qed.

Lemma thief_step u pcu d' pcu' es :
  u ≠ ow → dqs_threads s !! u = Some pcu → steal_step d u pcu = Some (d', pcu', es) →
  ∃ c', dq_inv ow n (mk_dqs d' (<[u := pcu']> (dqs_threads s))) pc c' r sz ∧
        c = taken es ++ c' ∧ pushes es = [].
Proof.
  intros Hu Ht Hs. pose proof (iv_thieves _ _ _ _ _ _ _ I u pcu Hu Ht) as Hok.
  pose proof (iv_top _ _ _ _ _ _ _ I) as Htop. pose proof (iv_limit _ _ _ _ _ _ _ I) as Hlim.
  destruct pcu as [| | | | | | | | | | | | | | | | | | | | | |t|t|t a|t x];
    cbn [steal_step] in Hs; simplify_eq.
  - exists c. split; [|done]. apply (thief_local u _ _ Hu Ht). simpl. lia.
  - destruct (Z.ltb_spec t (dq_bottom d)) as [Hlt|]; simplify_eq; exists c; (split; [|done]);
      apply (thief_local u _ _ Hu Ht); [|done].
    simpl in *. split; [done|]. intros -> ->. simpl in Hlim.
    assert (dq_bottom d ≤ limit pc (dq_bottom d)); [|lia].
    pose proof (iv_owner _ _ _ _ _ _ _ I) as Hown.
    destruct pc; simpl in *; try lia. destruct last0; lia.
  - exists c. split; [|done]. apply (thief_local u _ _ Hu Ht). simpl in *.
    destruct Hok as [Hr Hne]. destruct (iv_cur _ _ _ _ _ _ _ I) as (arr & [Ha Hwf] & _).
    split; [done|]. split_and!.
    + intros Hp. pose proof (iv_owner _ _ _ _ _ _ _ I) as Hown.
      destruct pc; simplify_eq/=; unfold copied in Hown; tauto.
    + by eapply lookup_lt_Some.
    + intros ->. destruct c as [|x c0] eqn:Ec; [by destruct Hne|]. exists x. split; [done|]. right.
      pose proof (iv_content _ _ _ _ _ _ _ I 0%nat x eq_refl) as Hx. rewrite Z.add_0_r in Hx.
      apply Hx. simpl. lia.
  - destruct (array_get d a t) as [x|] eqn:Hg; simplify_eq. exists c. split; [|done].
    apply (thief_local u _ _ Hu Ht). simpl in *. destruct Hok as (Hr & _ & _ & Hx).
    split; [done|]. intros E. destruct (Hx E) as (y & Hy & [Hf|Hf]); [|congruence].
    unfold array_get in Hg. by rewrite Hf in Hg.
  - destruct (Z.eqb_spec (dq_top d) t) as [E|E]; simplify_eq.
    + destruct (thief_takes u _ x Hu Ht eq_refl) as (c' & Ec & I'). exists c'.
      split; [done|]. by rewrite Ec.
    + exists c. split; [|done]. by apply (thief_local u _ _ Hu Ht).
Qed.
End thief.

(** ** Preservation by the owner *)

Lemma thief_ok_public d c p pcu : thief_ok d c p pcu → thief_ok d c None pcu.
Proof. destruct pcu; simpl; intuition done. Qed.

Section owner.
Context (ow : nat) (n : Z) (s : dq_state) (pc : dq_pc) (c r : list Z) (sz : Z).
Hypothesis I : dq_inv ow n s pc c r sz.
Abbreviation d := (dqs_deque s).
Abbreviation ths := (dqs_threads s).

Lemma owner_threads pc' : <[ow := pc']> ths !! ow = Some pc'.
Proof.
  apply list_lookup_insert_eq. eapply lookup_lt_Some. apply (iv_pc _ _ _ _ _ _ _ I).
Qed.

(** The other threads, after a step of the owner that changes the deque to [d']
    and the contents to [c']. *)
Lemma owner_thieves d' c' pc' :
  (∀ u pcu, u ≠ ow → ths !! u = Some pcu → thief_ok d c (private pc) pcu →
     thief_ok d' c' (private pc') pcu) →
  ∀ u pcu, u ≠ ow → <[ow := pc']> ths !! u = Some pcu → thief_ok d' c' (private pc') pcu.
Proof.
  intros H u pcu Hu Hl. rewrite list_lookup_insert_ne in Hl by done.
  apply (H u); auto. by apply (iv_thieves _ _ _ _ _ _ _ I u).
Qed.

Lemma owner_local pc' r' :
  limit pc' (dq_bottom d) = limit pc (dq_bottom d) →
  private pc' = private pc ∨ private pc' = None → owner_ok d c r' sz pc' →
  dq_inv ow n (mk_dqs d (<[ow := pc']> ths)) pc' c r' sz.
Proof.
  intros Hl Hp Hok. split; simpl; try apply I.
  - rewrite Hl. apply I.
  - rewrite Hl. apply I.
  - apply owner_threads.
  - done.
  - apply owner_thieves. intros u pcu _ _. destruct Hp as [->| ->]; [done|apply thief_ok_public].
Qed.

Lemma cur_live : ∃ arr, live_array d (dq_array d) arr ∧ da_size arr = sz.
Proof. apply (iv_cur _ _ _ _ _ _ _ I). Qed.

Lemma cur_size : array_size d (dq_array d) = Some sz.
Proof. destruct cur_live as (arr & [E _] & <-). unfold array_size. by rewrite E. Qed.

Lemma sz_pos : 0 < sz ≤ 2 ^ 31.
Proof. destruct cur_live as (arr & [_ Hwf] & <-). by apply array_size_pos. Qed.

Lemma content_at j x :
  c !! j = Some x → array_get d (dq_array d) (dq_top d + Z.of_nat j) = Some x.
Proof.
  intros Hj. apply (iv_content _ _ _ _ _ _ _ I j x Hj). apply lookup_lt_Some in Hj. lia.
Qed.

(** A store by the owner into an array keeps the thieves' knowledge, provided
    it does not touch the slot of the top item. *)
Lemma thief_ok_stored a arr i x d' p pcu :
  live_array d a arr → stored d a i x d' →
  (c ≠ [] → p ≠ Some a → dq_top d ≠ i ∧ - da_size arr < dq_top d - i < da_size arr) →
  thief_ok d c p pcu → thief_ok d' c p pcu.
Proof.
  intros Hlive S Hslot. destruct pcu as [| | | | | | | | | | | | | | | | | | | | | |t|t|t a0|t y];
    simpl; rewrite ?(st_top _ _ _ _ _ S); try done.
  intros (Ht & Hp & Ha & Hx). rewrite (st_length _ _ _ _ _ S).
  split; [done|]. split; [done|]. split; [done|]. intros E.
  destruct (Hx E) as (y & Hy & Hg). exists y. split; [done|].
  destruct (decide (a0 = a)) as [->|Hne].
  - destruct Hg as [Hf|Hg]; [by rewrite (proj1 Hlive) in Hf|]. right.
    destruct Hslot as [Hi Hr]; [by destruct c|done|]. subst t.
    by rewrite (st_index _ _ _ _ _ S _ arr).
  - rewrite (st_other _ _ _ _ _ S a0 Hne), (stored_get_other _ _ _ _ _ _ _ S Hne). done.
Qed.

Lemma holds_all_stored a arr i x d' a' hi :
  live_array d a arr → stored d a i x d' →
  (a' = a → ∀ j y, c !! j = Some y → dq_top d + Z.of_nat j < hi →
     dq_top d + Z.of_nat j ≠ i ∧ - da_size arr < dq_top d + Z.of_nat j - i < da_size arr) →
  holds_all d c a' hi → holds_all d' c a' hi.
Proof.
  intros Hlive S Hslot H j y Hj Hlt. rewrite (st_top _ _ _ _ _ S) in *.
  destruct (decide (a' = a)) as [->|Hne].
  - destruct (Hslot eq_refl j y Hj Hlt) as [Hi Hr].
    rewrite (st_index _ _ _ _ _ S _ arr); auto.
  - rewrite (stored_get_other _ _ _ _ _ _ _ S Hne). auto.
Qed.

Lemma heap_stored a arr i x d' b arr' :
  live_array d a arr → stored d a i x d' → dq_heap d' !! b = Some (Some arr') → array_wf arr'.
Proof.
  intros Hlive S Hb. destruct (decide (b = a)) as [->|Hne].
  - destruct (st_live _ _ _ _ _ S arr Hlive) as (arr1 & [E Hwf] & _). by simplify_eq.
  - rewrite (st_other _ _ _ _ _ S b Hne) in Hb. by apply (iv_heap _ _ _ _ _ _ _ I b).
Qed.

Lemma live_stored a arr i x d' b arrb :
  live_array d a arr → stored d a i x d' → live_array d b arrb →
  ∃ arr', live_array d' b arr' ∧ da_size arr' = da_size arrb.
Proof.
  intros Hlive S Hb. destruct (decide (b = a)) as [->|Hne].
  - by apply (st_live _ _ _ _ _ S).
  - exists arrb. split; [|done]. split; [|apply Hb]. by rewrite (st_other _ _ _ _ _ S b Hne), (proj1 Hb).
Qed.

(** ** Push *)

Lemma push_store_inv b x :
  pc = DqPushStore b (dq_array d) x →
  ∃ d', array_put d (dq_array d) b x = Some d' ∧
    dq_inv ow n (mk_dqs d' (<[ow := DqPushPublish b x]> ths)) (DqPushPublish b x) c r sz.
Proof.
  intros Epc. pose proof (iv_owner _ _ _ _ _ _ _ I) as Hown. pose proof (iv_limit _ _ _ _ _ _ _ I) as Hlim.
  pose proof (iv_steps _ _ _ _ _ _ _ I) as Hst. pose proof (iv_top _ _ _ _ _ _ _ I) as Htop.
  rewrite Epc in Hown, Hlim, Hst. simpl in Hown, Hlim, Hst. destruct Hown as (Hr & -> & _ & Hlt).
  destruct cur_live as (arr & Hlive & Hsz).
  destruct (array_put_stored d _ arr (dq_bottom d) x Hlive) as (d' & -> & S). exists d'. split; [done|].
  pose proof S as [Sb St Sa Sr Sl Ssame Si So Sv]. split; simpl; rewrite ?Sb, ?St, ?Sa; try lia.
  - intros a' arr' Ha'. by eapply heap_stored.
  - destruct (Sv arr Hlive) as (arr' & Hl' & E'). exists arr'. split; [done|congruence].
  - eapply holds_all_stored; [done|done| |apply I]. intros _ j y Hj _.
    apply lookup_lt_Some in Hj. lia.
  - apply owner_threads.
  - split; [done|]. split; [done|]. split; [lia|done].
  - apply owner_thieves. rewrite Epc. intros u pcu _ _. apply (thief_ok_stored _ arr _ x d' _ _ Hlive S).
    intros Hc _. destruct c; [done|]. simpl in Hlim. lia.
Qed.

Lemma push_publish_inv b x :
  pc = DqPushPublish b x →
  dq_inv ow (n + 1) (mk_dqs (set_bottom d (b + 1)) (<[ow := DqIdle]> ths)) DqIdle (c ++ [x]) r sz.
Proof.
  intros Epc. pose proof (iv_owner _ _ _ _ _ _ _ I) as Hown. pose proof (iv_limit _ _ _ _ _ _ _ I) as Hlim.
  pose proof (iv_steps _ _ _ _ _ _ _ I) as Hst. pose proof (iv_top _ _ _ _ _ _ _ I) as Htop.
  rewrite Epc in Hown, Hlim, Hst. simpl in Hown, Hlim, Hst. destruct Hown as (Hr & -> & Hlt & Hget).
  split; simpl; try apply I; rewrite ?length_app; simpl; try lia.
  - intros j y Hj Hl. simpl in *. destruct (decide (j = length c)) as [->|Hne].
    + rewrite lookup_app_r, Nat.sub_diag in Hj by lia. simplify_eq/=.
      unfold array_get in *. simpl. by rewrite Hlim.
    + rewrite lookup_app_l in Hj.
      * exact (content_at j y Hj).
      * apply lookup_lt_Some in Hj. rewrite length_app in Hj. simpl in Hj. lia.
  - apply owner_threads.
  - done.
  - apply owner_thieves. rewrite Epc. intros u pcu _ _.
    destruct pcu; simpl; try done.
    + intros [? ?]. split; [done|]. intros _. by destruct c.
    + intros (? & ? & ? & Hx). split; [done|]. split; [done|]. split; [done|].
      intros E. destruct (Hx E) as (y & Hy & Hg). exists y. split; [by destruct c|done].
    + intros [? Hx]. split; [done|]. intros E. specialize (Hx E). by destruct c.
Qed.

(** ** Resize *)

Lemma heap_app_get h a i :
  (a < length (dq_heap d))%nat →
  array_get (set_heap d (dq_heap d ++ h)) a i = array_get d a i.
Proof. intros Ha. unfold array_get. simpl. by rewrite lookup_app_l. Qed.

Lemma cur_lt : (dq_array d < length (dq_heap d))%nat.
Proof. destruct cur_live as (arr & [E _] & _). by eapply lookup_lt_Some. Qed.

Lemma grow_alloc_inv f b t :
  pc = DqGrowAlloc f b t (dq_array d) → n < 2 ^ 30 →
  let d' := set_heap d (dq_heap d ++ [Some (deque_array_alloc (u32 (sz * 2)))]) in
  let pc' := DqGrowCopy f b t (dq_array d) (length (dq_heap d)) in
  dq_inv ow n (mk_dqs d' (<[ow := pc']> ths)) pc' c r sz.
Proof.
  intros Epc Hn d' pc'. pose proof (iv_owner _ _ _ _ _ _ _ I) as Hown.
  pose proof (iv_steps _ _ _ _ _ _ _ I) as Hst. pose proof (iv_limit _ _ _ _ _ _ _ I) as Hlim.
  rewrite Epc in Hown, Hst, Hlim. simpl in Hown, Hst, Hlim.
  destruct Hown as (Hr & [Hf Hge] & -> & Ht & _). pose proof Hf as (Hfb & Hft & Hfs).
  destruct cur_live as (arr & Hlive & Hsz). pose proof cur_lt as Hcur. pose proof sz_pos.
  destruct (wf_size _ (proj2 Hlive)) as (k & Hk & Ek).
  assert (Hk30 : k < 30) by (apply (Z.pow_lt_mono_r_iff 2); lia).
  assert (Enew : u32 (sz * 2) = 2 ^ (k + 1)).
  { rewrite <-Hsz, Ek, Z.pow_add_r by lia. apply u32_small. unfold is_u32.
    assert (2 ^ k < 2 ^ 30) by (apply Z.pow_lt_mono_r; lia). lia. }
  assert (Hwf : array_wf (deque_array_alloc (u32 (sz * 2)))) by (rewrite Enew; apply array_alloc_wf; lia).
  assert (Hnew : live_array d' (length (dq_heap d)) (deque_array_alloc (u32 (sz * 2)))).
  { split; [|done]. simpl. by rewrite lookup_app_r, Nat.sub_diag by lia. }
  split; simpl; try apply I; try lia.
  - intros a arr' Ha. apply lookup_app_Some in Ha as [Ha|[_ Ha]].
    + by apply (iv_heap _ _ _ _ _ _ _ I a).
    + apply list_lookup_singleton_Some in Ha as [_ [= <-]]. done.
  - exists arr. split; [|done]. split; [|apply Hlive]. simpl. by rewrite lookup_app_l, (proj1 Hlive).
  - intros j x Hj Hlt. unfold d'. rewrite heap_app_get by done. by apply content_at.
  - apply owner_threads.
  - split; [done|]. split; [done|]. unfold copied. split; [split; [done|simpl; lia]|].
    split; [done|]. split; [simpl; lia|]. split; [lia|]. split.
    + intros j x Hj Hlt. simpl in Hlt. lia.
    + exists (deque_array_alloc (u32 (sz * 2))). split; [done|]. simpl.
      rewrite Enew, <-Hsz, Ek, Z.pow_add_r by lia. lia.
  - apply owner_thieves. rewrite Epc. intros u pcu _ _. destruct pcu; simpl; try done.
    intros (? & ? & Ha & Hx). split; [done|]. split; [injection 1; lia|]. rewrite length_app.
    split; [simpl; lia|]. intros E. destruct (Hx E) as (y & Hy & Hg). exists y. split; [done|].
    unfold d'. rewrite lookup_app_l, heap_app_get by done. done.
Qed.

Lemma grow_copy_inv f b i new :
  pc = DqGrowCopy f b i (dq_array d) new → i < b →
  ∃ x d', array_get d (dq_array d) i = Some x ∧ array_put d new i x = Some d' ∧
    let pc' := DqGrowCopy f b (i + 1) (dq_array d) new in
    dq_inv ow n (mk_dqs d' (<[ow := pc']> ths)) pc' c r sz.
Proof.
  intros Epc Hib. pose proof (iv_owner _ _ _ _ _ _ _ I) as Hown.
  pose proof (iv_limit _ _ _ _ _ _ _ I) as Hlim. pose proof (iv_top _ _ _ _ _ _ _ I) as Htop.
  pose proof (iv_steps _ _ _ _ _ _ _ I) as Hst.
  rewrite Epc in Hown, Hlim, Hst. simpl in Hown, Hlim, Hst.
  destruct Hown as (Hr & -> & (Hf & Hge) & _ & Hne & Hi & Hall & arr & Hlive & Hsz).
  pose proof Hf as (Hfb & Hft & Hfs). pose proof sz_pos.
  destruct cur_live as (arr0 & Hlive0 & Hsz0).
  destruct (array_get_live d _ _ i Hlive0) as [x Hx].
  destruct (array_put_stored d new arr i x Hlive) as (d' & Hput & S). exists x, d'.
  split; [done|]. split; [done|].
  pose proof S as [Sb St Sa Sr Sl Ssame Si So Sv]. split; simpl; rewrite ?Sb, ?St, ?Sa; try apply I; try lia.
  - intros a' arr' Ha'. exact (heap_stored _ _ _ _ _ _ _ Hlive S Ha').
  - destruct (live_stored _ _ _ _ _ _ _ Hlive S Hlive0) as (arr' & Hl' & E'). exists arr'.
    split; [done|congruence].
  - apply (holds_all_stored _ arr i x d' _ _ Hlive S); [|apply I]. intros E. by destruct Hne.
  - apply owner_threads.
  - split; [done|]. split; [done|]. unfold copied, growing, frame_ok. rewrite Sb, St, Sa.
    split; [done|]. split; [done|]. split; [done|]. split; [lia|]. split.
    + intros j y Hj Hlt. rewrite St in *. destruct (Z.eq_dec (dq_top d + Z.of_nat j) i) as [E|Hni].
      * rewrite E, Ssame. rewrite <-E, (content_at j y Hj) in Hx. done.
      * rewrite (Si _ arr); [apply Hall; [done|lia]|done|done|].
        apply lookup_lt_Some in Hj. lia.
    + destruct (Sv arr Hlive) as (arr' & Hl' & E'). exists arr'. split; [done|congruence].
  - apply owner_thieves. rewrite Epc. intros u pcu _ _.
    apply (thief_ok_stored _ arr _ x d' _ _ Hlive S). simpl. intros _ Hp. done.
Qed.

Lemma grow_publish_inv f new :
  pc = DqGrowPublish f (dq_array d) new →
  let pc' := DqGrowRetire f (dq_array d) in
  dq_inv ow n (mk_dqs (set_array d new) (<[ow := pc']> ths)) pc' c r (2 * sz).
Proof.
  intros Epc pc'. pose proof (iv_owner _ _ _ _ _ _ _ I) as Hown.
  pose proof (iv_limit _ _ _ _ _ _ _ I) as Hlim. pose proof (iv_steps _ _ _ _ _ _ _ I) as Hst.
  pose proof (iv_room _ _ _ _ _ _ _ I) as Hroom.
  rewrite Epc in Hown, Hlim, Hst. simpl in Hown, Hlim, Hst.
  destruct Hown as (Hr & (Hf & Hge) & _ & Hne & Hi & Hall & arr & Hlive & Hsz).
  pose proof Hf as (Hfb & Hft & Hfs). pose proof sz_pos.
  split; simpl; try apply I; try lia.
  - by exists arr.
  - intros j x Hj Hlt. simpl in *. apply Hall; [done|]. lia.
  - apply owner_threads.
  - split; [done|]. split; [|done]. unfold frame_ok. simpl. lia.
  - apply owner_thieves. rewrite Epc. intros u pcu _ _ H1. apply thief_ok_public in H1.
    destruct pcu; done.
Qed.

Lemma grow_retire_inv f old ok d' :
  pc = DqGrowRetire f old →
  push_step d pc ok = Some (d', DqPushAgain f, []) →
  dq_inv ow n (mk_dqs d' (<[ow := DqPushAgain f]> ths)) (DqPushAgain f) c r sz.
Proof.
  intros Epc Hs. pose proof (iv_owner _ _ _ _ _ _ _ I) as Hown. rewrite Epc in Hown, Hs.
  destruct Hown as (Hr & Hf & Hne). cbn [push_step] in Hs.
  assert (Hloc := owner_local (DqPushAgain f) r). rewrite Epc in Hloc. simpl in Hloc.
  specialize (Hloc eq_refl (or_introl eq_refl) (conj Hr Hf)).
  assert (Hret : ∀ l k, dq_inv ow n (mk_dqs (set_retired d l k) (<[ow := DqPushAgain f]> ths))
                          (DqPushAgain f) c r sz).
  { intros l k. destruct Hloc as [? ? ? ? ? ? ? ? ? Hth]. split; auto. }
  destruct (dq_retired d) as [retired|]; [|done].
  destruct (_ =? _); [destruct ok|]; simplify_eq; try apply Hret.
  destruct Hloc as [H1 H2 H3 H4 (arr & Hl & Hsz) H6 H7 H8 H9 Hth]. simpl in *.
  assert (Hget : ∀ a i, a ≠ old → array_get (deque_array_free d old) a i = array_get d a i).
  { intros a i Ha. unfold array_get. simpl. by rewrite list_lookup_insert_ne. }
  split; simpl; auto.
  - intros a arr' Ha. apply list_lookup_insert_Some in Ha as [(_ & ? & _)|[_ Ha]]; [done|]. by apply (H4 a).
  - exists arr. split; [|done]. split; [|apply Hl]. simpl. rewrite list_lookup_insert_ne by done. apply Hl.
  - intros j x Hj Hlt. simpl. rewrite Hget by done. by apply H7.
  - intros u pcu Hu Hl'. specialize (Hth u pcu Hu Hl'). destruct pcu; simpl in *; try done.
    destruct Hth as (? & ? & Ha & Hx). split; [done|]. split; [done|]. rewrite length_insert.
    split; [done|]. intros E. destruct (Hx E) as (y & Hy & Hg). exists y. split; [done|].
    destruct (decide (a = old)) as [->|Hao].
    + left. by apply list_lookup_insert_eq.
    + rewrite list_lookup_insert_ne, Hget by done. done.
Qed.

(** ** Pop *)

Lemma pop_store_inv b a :
  pc = DqPopStore b a →
  dq_inv ow n (mk_dqs (set_bottom d b) (<[ow := DqPopTop b a]> ths)) (DqPopTop b a) c r sz.
Proof.
  intros Epc. pose proof (iv_owner _ _ _ _ _ _ _ I) as Hown. pose proof (iv_limit _ _ _ _ _ _ _ I) as Hlim.
  pose proof (iv_steps _ _ _ _ _ _ _ I) as Hst. rewrite Epc in Hown, Hlim, Hst. simpl in Hown, Hlim, Hst.
  destruct Hown as (Hr & Hb & Ha). split; simpl; try apply I; try lia.
  - apply owner_threads.
  - done.
  - apply owner_thieves. rewrite Epc. intros u pcu _ _. by destruct pcu.
Qed.

(** The owner has nothing new in its hands, or it has just taken the last item. *)
Definition picked (c' r' : list Z) : Prop :=
  (c' = c ∧ r' = r) ∨ ∃ x, r = [] ∧ c = c' ++ [x] ∧ r' = [x].

(** The decision: the last item stays in the contents until the compare-and-swap;
    any other item is the owner's at once. *)
Lemma pop_top_inv b a :
  pc = DqPopTop b a →
  ∃ pc' c' r', pop_step d ow pc = Some (d, pc', []) ∧ picked c' r' ∧
    dq_inv ow n (mk_dqs d (<[ow := pc']> ths)) pc' c' r' sz.
Proof.
  intros Epc. pose proof (iv_owner _ _ _ _ _ _ _ I) as Hown. pose proof (iv_limit _ _ _ _ _ _ _ I) as Hlim.
  pose proof (iv_steps _ _ _ _ _ _ _ I) as Hst. pose proof (iv_room _ _ _ _ _ _ _ I) as Hroom.
  rewrite Epc in Hown, Hlim, Hst |- *. simpl in Hown, Hlim, Hst.
  destruct Hown as (Hr & Hb & Ha). cbn [pop_step].
  assert (Hpriv : private pc = None) by (by rewrite Epc).
  destruct (Z.leb_spec (dq_top d) b) as [Hle|Hgt]; [destruct (Z.eqb_spec (dq_top d) b) as [He|Hne]|].
  - exists (DqPopRead b a true), c, r. split; [done|]. split; [by left|].
    apply owner_local; simpl; rewrite ?Epc; auto. split_and!; auto. lia.
  - destruct (exists_last (l:=c)) as (c' & x & Ec); [intros E; rewrite E in Hlim; simpl in Hlim; lia|].
    rewrite Ec, length_app in Hlim, Hroom. simpl in Hlim, Hroom.
    exists (DqPopRead b a false), c', [x]. split; [done|]. split; [right; by exists x|].
    assert (Hx : array_get d a b = Some x).
    { rewrite Ha. replace b with (dq_top d + Z.of_nat (length c')) by lia.
      apply (content_at (length c')). rewrite Ec, lookup_app_r, Nat.sub_diag by lia. done. }
    split; simpl; try apply I; try lia.
    + intros j y Hj Hlt. apply (content_at j). rewrite Ec. by apply lookup_app_l_Some.
    + apply owner_threads.
    + split; [done|]. split; [done|]. by exists x.
    + apply owner_thieves. rewrite Hpriv, Ec. intros u pcu _ _.
      assert (Hc' : c' ≠ []) by (intros ->; simpl in Hlim; lia).
      assert (Hhd : head (c' ++ [x]) = head c') by (by destruct c').
      destruct pcu; simpl; rewrite ?Hhd; try done. intuition done.
  - assert (c = []) as Ec by (destruct c; [done|simpl in Hlim; lia]).
    exists (DqPopRestore b None), c, r. split; [done|]. split; [by left|].
    apply owner_local; simpl; rewrite ?Epc; auto.
Qed.

Lemma pop_read_last_inv b a x :
  pc = DqPopRead b a true → array_get d a b = Some x →
  dq_inv ow n (mk_dqs d (<[ow := DqPopCas b x]> ths)) (DqPopCas b x) c r sz.
Proof.
  intros Epc Hx. pose proof (iv_owner _ _ _ _ _ _ _ I) as Hown. pose proof (iv_limit _ _ _ _ _ _ _ I) as Hlim.
  rewrite Epc in Hown, Hlim. simpl in Hown, Hlim. destruct Hown as (Hr & Hb & Ha & Hle).
  apply owner_local; simpl; rewrite ?Epc; auto. split; [done|]. split; [done|]. split; [done|].
  intros E. assert (∃ y, c = [y]) as [y Ec].
  { destruct c as [|y [|z c']]; simpl in Hlim; try lia. by exists y. }
  pose proof (content_at 0 y) as Hy. rewrite Ec, Z.add_0_r, E, <-Ha, Hx in Hy.
  injection (Hy eq_refl) as ->. done.
Qed.

Lemma deque_pop_cas_inv b x :
  pc = DqPopCas b x →
  ∃ d' res c' r', pop_step d ow pc = Some (d', DqPopRestore b res, []) ∧ picked c' r' ∧
    dq_inv ow n (mk_dqs d' (<[ow := DqPopRestore b res]> ths)) (DqPopRestore b res) c' r' sz.
Proof.
  intros Epc. pose proof (iv_owner _ _ _ _ _ _ _ I) as Hown. pose proof (iv_limit _ _ _ _ _ _ _ I) as Hlim.
  pose proof (iv_steps _ _ _ _ _ _ _ I) as Hst. pose proof (iv_top _ _ _ _ _ _ _ I) as Htop.
  rewrite Epc in Hown, Hlim, Hst |- *. simpl in Hown, Hlim, Hst.
  destruct Hown as (Hr & Hb & Hle & Hlast). cbn [pop_step].
  destruct (Z.eqb_spec (dq_top d) b) as [E|E].
  - specialize (Hlast E). exists (set_top d (b + 1)), (Some x), [], [x]. split; [done|].
    split; [right; by exists x|]. pose proof sz_pos.
    split; simpl; try apply I; try lia.
    + intros j y Hj. done.
    + apply owner_threads.
    + done.
    + apply owner_thieves. rewrite Epc. intros u pcu _ _. simpl.
      destruct pcu; simpl; try done; try lia; intuition lia.
  - assert (Ec : c = []) by (destruct c; [done|simpl in Hlim; lia]).
    exists d, None, c, r. split; [done|]. split; [by left|].
    apply owner_local; simpl; rewrite ?Epc; auto.
Qed.

Lemma pop_restore_inv b res :
  pc = DqPopRestore b res →
  dq_inv ow n (mk_dqs (set_bottom d (b + 1)) (<[ow := DqIdle]> ths)) DqIdle c [] sz.
Proof.
  intros Epc. pose proof (iv_owner _ _ _ _ _ _ _ I) as Hown. pose proof (iv_limit _ _ _ _ _ _ _ I) as Hlim.
  pose proof (iv_steps _ _ _ _ _ _ _ I) as Hst. rewrite Epc in Hown, Hlim, Hst. simpl in Hown, Hlim, Hst.
  destruct Hown as (Hr & Hb & Hc). split; simpl; try apply I; try lia.
  - apply owner_threads.
  - done.
  - apply owner_thieves. rewrite Epc. intros u pcu _ _. by destruct pcu.
Qed.
End owner.

(** ** Histories *)

Lemma dq_inv_mono ow n n' s pc c r sz :
  dq_inv ow n s pc c r sz → n ≤ n' → dq_inv ow n' s pc c r sz.
Proof. intros [] Hn. split; auto. lia. Qed.

(** Items in and items out: what is pushed by a step comes in, what is returned
    by it goes out. *)
Definition balanced (es : list dq_event) (before after : list Z) : Prop :=
  pushes es ++ before ≡ₚ taken es ++ after.

Definition dq_good (ow : nat) (n : Z) (s : dq_state) (items : list Z) : Prop :=
  ∃ pc c r sz, dq_inv ow n s pc c r sz ∧ items ≡ₚ r ++ c.

Section owner_steps.
Context (ow : nat) (n : Z) (s : dq_state) (pc : dq_pc) (c r : list Z) (sz : Z).
Hypothesis I : dq_inv ow n s pc c r sz.
Hypothesis Hn : n < 2 ^ 30.
Abbreviation d := (dqs_deque s).
Abbreviation ths := (dqs_threads s).

(** What a step of the owner does to the items. *)
Definition item_moves (es : list dq_event) (c' r' : list Z) : Prop :=
  (pushes es = [] ∧ taken es = [] ∧ picked c r c' r') ∨
  (∃ x, es = [Pushed x] ∧ c' = c ++ [x] ∧ r' = r) ∨
  (∃ x, es = [Popped ow x] ∧ r = [x] ∧ c' = c ∧ r' = []).

Definition owner_goal (d' : nkit_deque_t) (pc' : dq_pc) (es : list dq_event) : Prop :=
  ∃ c' r' sz', dq_inv ow (n + 1) (mk_dqs d' (<[ow := pc']> ths)) pc' c' r' sz' ∧ item_moves es c' r'.

Lemma item_moves_balanced es c' r' : item_moves es c' r' → balanced es (r ++ c) (r' ++ c').
Proof.
  unfold balanced. intros [(Hp & Ht & [[-> ->]|(x & -> & -> & ->)])|[(x & -> & -> & ->)|(x & -> & -> & -> & ->)]].
  - by rewrite Hp, Ht.
  - rewrite Hp, Ht. cbn. by rewrite Permutation_app_comm.
  - cbn. by rewrite app_assoc, Permutation_cons_append.
  - done.
Qed.

(** The usual case: nothing is pushed or returned. *)
Lemma owner_quiet d' pc' es c' r' sz' :
  pushes es = [] → taken es = [] → picked c r c' r' →
  dq_inv ow n (mk_dqs d' (<[ow := pc']> ths)) pc' c' r' sz' → owner_goal d' pc' es.
Proof.
  intros Hp Ht Hc I'. exists c', r', sz'. split; [apply (dq_inv_mono ow n); [done|lia]|by left].
Qed.

Lemma owner_stays pc' es :
  pushes es = [] → taken es = [] → limit pc' (dq_bottom d) = limit pc (dq_bottom d) →
  private pc' = private pc ∨ private pc' = None → owner_ok d c r sz pc' → owner_goal d pc' es.
Proof.
  intros Hp Ht Hl Hpr Hok. apply (owner_quiet _ _ _ c r sz); auto; [by left|]. by apply owner_local with pc r.
Qed.

End owner_steps.

Lemma owner_push_step ow n s pc c r sz ok d' pc' es :
  dq_inv ow n s pc c r sz → n < 2 ^ 30 →
  push_step (dqs_deque s) pc ok = Some (d', pc', es) → owner_goal ow n s c r d' pc' es.
Proof.
  intros I Hn Hs. pose proof (iv_owner _ _ _ _ _ _ _ I) as Hown.
  pose proof (cur_size _ _ _ _ _ _ _ I) as Hcs. pose proof (iv_limit _ _ _ _ _ _ _ I) as Hlim.
  pose proof (iv_room _ _ _ _ _ _ _ I) as Hroom. pose proof (iv_top _ _ _ _ _ _ _ I) as Htop.
  pose proof (owner_stays ow n s pc c r sz I) as Hstay.
  pose proof (λ d' pc' c' r' sz', owner_quiet ow n s c r d' pc' [] c' r' sz' eq_refl eq_refl) as Hquiet.
  destruct pc; cbn [push_step] in Hs; simpl in Hown, Hlim; try done.
  - simplify_eq. apply Hstay; auto. by split.
  - simplify_eq. apply Hstay; auto. simpl. split; [tauto|].
    unfold frame_ok. simpl. destruct Hown as [_ ->]. lia.
  - rewrite Hcs in Hs. destruct Hown as [Hr Hf]. pose proof Hf as (Hb & Ht & Hz).
    destruct (Z.leb_spec sz (pf_b f - pf_t f)); simplify_eq; apply Hstay; auto; simpl.
    + split; [done|]. split; [done|lia].
    + split_and!; auto. lia.
  - rewrite Hcs in Hs. destruct Hown as [Hr Hf]. pose proof Hf as (Hb & Ht & Hz).
    destruct (Z.leb_spec sz (pf_b f - pf_t f)); simplify_eq; apply Hstay; auto; simpl.
    { done. }
    split_and!; auto. lia.
  - destruct Hown as (Hr & Hb & -> & Hlt).
    destruct (push_store_inv ow n s _ c r sz I b data eq_refl) as (d1 & E1 & I1).
    rewrite E1 in Hs. simplify_eq. eapply Hquiet; [by left|exact I1].
  - injection Hs as <- <- <-. exists (c ++ [data]), r, sz. split; [by eapply push_publish_inv|].
    right. left. by exists data.
  - simplify_eq. apply Hstay; auto. simpl. tauto.
  - simplify_eq. apply Hstay; auto. simpl. destruct Hown as (? & [(? & ? & ?) ?] & ?).
    split; [done|]. split; [done|]. split; [done|lia].
  - simplify_eq. apply Hstay; auto. simpl. tauto.
  - destruct Hown as (Hr & Hg & Hb & Ht & ->). rewrite Hcs in Hs. destruct ok; simplify_eq.
    + eapply Hquiet; [by left|by eapply grow_alloc_inv].
    + apply Hstay; auto. simpl. split; [done|apply Hg].
  - destruct Hown as (Hr & Hb & Hc). pose proof Hc as (Hg & -> & Hne & Hi & Hall & Ha).
    destruct (Z.ltb_spec i b) as [Hlt|Hge].
    + destruct (grow_copy_inv ow n s _ c r sz I f b i new eq_refl Hlt) as (x & d1 & E1 & E2 & I1).
      rewrite E1, E2 in Hs. simplify_eq. eapply Hquiet; [by left|exact I1].
    + simplify_eq. apply Hstay; auto. simpl. split; [done|]. unfold copied.
      split; [done|]. split; [done|]. split; [done|]. split; [destruct Hg as [(? & ? & ?) ?]; lia|].
      split; [|done]. intros j y Hj Hlt. apply Hall; [done|lia].
  - destruct Hown as (Hr & Hc). pose proof Hc as (_ & -> & _). simplify_eq.
    eapply Hquiet; [by left|by eapply grow_publish_inv].
  - assert (pc' = DqPushAgain f ∧ es = []) as [-> ->]
      by (destruct (dq_retired _) as [retired|]; [|done]; destruct (_ =? _); [destruct ok|]; by simplify_eq).
    eapply Hquiet; [by left|by eapply (grow_retire_inv ow n s _ _ _ _ I f old ok)].
Qed.

Lemma owner_pop_step ow n s pc c r sz d' pc' es :
  dq_inv ow n s pc c r sz →
  pop_step (dqs_deque s) ow pc = Some (d', pc', es) → owner_goal ow n s c r d' pc' es.
Proof.
  intros I Hs. pose proof (iv_owner _ _ _ _ _ _ _ I) as Hown.
  pose proof (owner_stays ow n s pc c r sz I) as Hstay.
  pose proof (λ d' pc' c' r' sz', owner_quiet ow n s c r d' pc' [] c' r' sz' eq_refl eq_refl) as Hquiet.
  destruct pc; cbn [pop_step] in Hs; simpl in Hown; try done.
  - simplify_eq. by apply Hstay; auto; split.
  - simplify_eq. apply Hstay; auto. simpl. tauto.
  - simplify_eq. eapply Hquiet; [by left|by eapply pop_store_inv].
  - destruct (pop_top_inv ow n s _ c r sz I b a eq_refl) as (pc1 & c1 & r1 & E1 & Hp & I1).
    cbn [pop_step] in E1. rewrite E1 in Hs. simplify_eq. eapply Hquiet; [exact Hp|exact I1].
  - destruct (array_get _ a b) as [x|] eqn:Hx; [|done]. destruct last0; simplify_eq.
    + eapply Hquiet; [by left|by eapply pop_read_last_inv].
    + destruct Hown as (_ & _ & y & -> & Hy). simplify_eq. exists c, [], sz. split; [|right; right; by exists y].
      apply (dq_inv_mono ow n); [|lia]. apply (owner_local ow n s _ c [y] sz I); [done|by left|done].
  - destruct (deque_pop_cas_inv ow n s _ c r sz I b x eq_refl) as (d1 & res & c1 & r1 & E1 & Hp & I1).
    cbn [pop_step] in E1. rewrite E1 in Hs. simplify_eq. eapply Hquiet; [exact Hp|exact I1].
  - destruct Hown as (-> & Hb & ->). simplify_eq. exists [], [], sz. split.
    + apply (dq_inv_mono ow n); [|lia]. by eapply pop_restore_inv.
    + destruct res as [x|]; [right; right; by exists x|left; split; [done|]; split; [done|by left]].
Qed.

(** Ownership: one thread pushes and pops, the others steal. *)
Definition respects (ow : nat) (l : dq_label) : Prop :=
  match l with
  | DqPush u _ | DqPop u => u = ow
  | DqSteal u => u ≠ ow
  | DqAdvance _ _ => True
  end.

#[export] Instance respects_dec ow l : Decision (respects ow l).
Proof. destruct l; simpl; apply _. Defined.

Definition conserves (ow n : nat) (es : list dq_event) (s : dq_state) : Prop :=
  Z.of_nat n < 2 ^ 30 →
  ∃ items, dq_good ow (Z.of_nat n) s items ∧ pushes es ≡ₚ taken es ++ items.

Lemma pushes_app es es' : pushes (es ++ es') = pushes es ++ pushes es'.
Proof. apply omap_app. Qed.
Lemma taken_app es es' : taken (es ++ es') = taken es ++ taken es'.
Proof. apply omap_app. Qed.

(** A thief is never in the middle of a push or a pop. *)
Lemma thief_pc_steals d c p pcu ok u :
  thief_ok d c p pcu → push_step d pcu ok = None ∧ pop_step d u pcu = None.
Proof. by destruct pcu. Qed.

Lemma conserves_step ow n es s l s' es' :
  respects ow l → conserves ow n es s → dq_step s l = Some (s', es') →
  conserves ow (S n) (es ++ es') s'.
Proof.
  intros Hl Hinv Hs Hn. destruct Hinv as (items & (pc & c & r & sz & I & Hit) & Hbal); [lia|].
  replace (Z.of_nat (S n)) with (Z.of_nat n + 1) by lia.
  assert (Hdone : ∀ items', balanced es' (r ++ c) items' → dq_good ow (Z.of_nat n + 1) s' items' →
    ∃ items0, dq_good ow (Z.of_nat n + 1) s' items0 ∧ pushes (es ++ es') ≡ₚ taken (es ++ es') ++ items0).
  { intros items' Hb Hg. exists items'. split; [done|]. unfold balanced in Hb.
    rewrite pushes_app, taken_app, <-app_assoc, <-Hb, Hbal, Hit, <-app_assoc. f_equiv.
    apply Permutation_app_comm. }
  assert (Hcall : ∀ u pcu, dqs_threads s !! u = Some DqIdle → es' = [] →
    s' = mk_dqs (dqs_deque s) (<[u := pcu]> (dqs_threads s)) →
    (u = ow → owner_ok (dqs_deque s) c r sz pcu ∧ limit pcu (dq_bottom (dqs_deque s)) = dq_bottom (dqs_deque s)
              ∧ private pcu = None) →
    (u ≠ ow → thief_ok (dqs_deque s) c (private pc) pcu) →
    ∃ items0, dq_good ow (Z.of_nat n + 1) s' items0 ∧ pushes (es ++ es') ≡ₚ taken (es ++ es') ++ items0).
  { intros u pcu Hu -> -> Hown Hth. apply (Hdone (r ++ c)); [done|].
    destruct (decide (u = ow)) as [->|Hne].
    - destruct (Hown eq_refl) as (H1 & H2 & H3). rewrite (iv_pc _ _ _ _ _ _ _ I) in Hu. simplify_eq.
      exists pcu, c, r, sz. split; [|done]. apply (dq_inv_mono ow (Z.of_nat n)); [|lia].
      apply (owner_local ow _ s DqIdle c r sz I); auto.
    - exists pc, c, r, sz. split; [|done]. apply (dq_inv_mono ow (Z.of_nat n)); [|lia].
      by apply (thief_local ow _ s pc c r sz I u DqIdle); auto. }
  assert (Hidle : dqs_threads s !! ow = Some DqIdle → r = []).
  { rewrite (iv_pc _ _ _ _ _ _ _ I). intros [= ->]. apply (iv_owner _ _ _ _ _ _ _ I). }
  destruct l as [u x|u|u|u ok]; cbn [dq_step respects] in Hs, Hl.
  - destruct (dqs_threads s !! u) as [[]|] eqn:Hu; simplify_eq.
    apply (Hcall ow (DqPushBottom x)); auto; [|done]. intros _. split; [by apply Hidle|done].
  - destruct (dqs_threads s !! u) as [[]|] eqn:Hu; simplify_eq.
    apply (Hcall ow DqPopBottom); auto; [|done]. intros _. split; [by apply Hidle|done].
  - destruct (dqs_threads s !! u) as [[]|] eqn:Hu; simplify_eq.
    apply (Hcall u DqStealTop); auto; [|done]. done.
  - destruct (dqs_threads s !! u) as [pcu|] eqn:Hu; [|done].
    destruct (decide (u = ow)) as [->|Hne].
    + rewrite (iv_pc _ _ _ _ _ _ _ I) in Hu. simplify_eq.
      destruct (push_step (dqs_deque s) pcu ok) as [[[d1 pc1] es1]|] eqn:E1; simplify_eq.
      { destruct (owner_push_step ow _ s pcu c r sz ok d1 pc1 es' I ltac:(lia) E1) as (c' & r' & sz' & I' & Hm).
        apply (Hdone (r' ++ c')); [by eapply item_moves_balanced|]. by exists pc1, c', r', sz'. }
      destruct (pop_step (dqs_deque s) ow pcu) as [[[d1 pc1] es1]|] eqn:E2; simplify_eq.
      { destruct (owner_pop_step ow _ s pcu c r sz d1 pc1 es' I E2) as (c' & r' & sz' & I' & Hm).
        apply (Hdone (r' ++ c')); [by eapply item_moves_balanced|]. by exists pc1, c', r', sz'. }
      pose proof (iv_owner _ _ _ _ _ _ _ I) as Hown. by destruct pcu.
    + pose proof (iv_thieves _ _ _ _ _ _ _ I u pcu Hne Hu) as Hth.
      destruct (thief_pc_steals _ _ _ _ ok u Hth) as [E1 E2]. rewrite E1, E2 in Hs.
      destruct (steal_step (dqs_deque s) u pcu) as [[[d1 pc1] es1]|] eqn:E3; simplify_eq.
      destruct (thief_step ow _ s pc c r sz I u pcu d1 pc1 es' Hne Hu E3) as (c' & I' & Hc & Hp).
      apply (Hdone (r ++ c')).
      * unfold balanced. rewrite Hp, Hc. simpl.
        by rewrite (Permutation_app_comm r), <-app_assoc, (Permutation_app_comm c').
      * exists pc, c', r, sz. split; [|done]. apply (dq_inv_mono ow (Z.of_nat n)); [done|lia].
Qed.

Lemma dq_start_good ow node k listed n :
  0 ≤ k ≤ 31 → (ow < n)%nat → dq_good ow 0 (dq_start node (2 ^ k) listed n) [].
Proof.
  intros Hk How. assert (Hpos : 0 < 2 ^ k) by lia.
  pose proof (array_alloc_wf k Hk) as Hwf.
  exists DqIdle, [], [], (2 ^ k). split; [|done]. split; simpl; try done; try lia.
  - intros [|a] arr Ha; simplify_eq/=. done.
  - by exists (deque_array_alloc (2 ^ k)).
  - apply lookup_replicate. split; [done|lia].
  - by intros u pc' _ [-> _]%lookup_replicate.
Qed.

(** With the owner outside any call, [nkit_deque_size] counts the items. *)
Lemma good_size ow n s items :
  dq_good ow n s items → n < 2 ^ 30 → dqs_threads s !! ow = Some DqIdle →
  nkit_deque_size (dqs_deque s) = Z.of_nat (length items).
Proof.
  intros (pc & c & r & sz & I & Hit) Hn Hidle.
  rewrite (iv_pc _ _ _ _ _ _ _ I) in Hidle. simplify_eq.
  pose proof (iv_owner _ _ _ _ _ _ _ I) as Hown. simpl in Hown. subst r.
  pose proof (iv_limit _ _ _ _ _ _ _ I) as Hlim. simpl in Hlim. rewrite Hit. simpl.
  pose proof (iv_steps _ _ _ _ _ _ _ I) as Hst. pose proof (iv_top _ _ _ _ _ _ _ I).
  simpl in Hst. unfold nkit_deque_size.
  destruct (Z.ltb_spec (dq_top (dqs_deque s)) (dq_bottom (dqs_deque s))); [|lia].
  rewrite u32_small by (unfold is_u32; lia). lia.
Qed.

Lemma deque_run ow node k listed n sched s es :
  0 ≤ k ≤ 31 → (ow < n)%nat → Forall (respects ow) sched → Z.of_nat (length sched) < 2 ^ 30 →
  traced dq_step (dq_start node (2 ^ k) listed n) sched = Some (s, es) →
  ∃ items, dq_good ow (Z.of_nat (length sched)) s items ∧ pushes es ≡ₚ taken es ++ items.
Proof.
  intros Hk How Hresp Hlen Hr.
  refine (traced_invariant_on dq_step (respects ow) (conserves ow) _ _ _ sched s es Hresp Hr Hlen).
  - intros _. exists []. split; [by apply dq_start_good|done].
  - intros n0 es0 s0 l s1 es1. apply conserves_step.
Qed.

(** ** Properties *)

(** Work stealing loses and duplicates nothing: with one owner that pushes
    and pops and any number of thieves, in every interleaving of fewer than 2^30
    steps, through any number of resizes and failed allocations, the items
    returned by pops and steals are, with multiplicity, items that were pushed;
    and once every call has returned, pushed = returned + still inside, where
    [nkit_deque_size] counts exactly the items inside. *)
Theorem deque_conserves ow node k listed n sched s es :
  0 ≤ k ≤ 31 → (ow < n)%nat → Forall (respects ow) sched → Z.of_nat (length sched) < 2 ^ 30 →
  traced dq_step (dq_start node (2 ^ k) listed n) sched = Some (s, es) →
  ∃ inside, pushes es ≡ₚ taken es ++ inside ∧
    (dqs_threads s !! ow = Some DqIdle →
       nkit_deque_size (dqs_deque s) = Z.of_nat (length inside)).
Proof.
  intros Hk How Hresp Hlen Hr.
  destruct (deque_run ow node k listed n sched s es Hk How Hresp Hlen Hr) as (items & Hg & Hbal).
  exists items. split; [done|]. intros Hidle. by apply (good_size ow _ s items Hg Hlen).
Qed.

Definition solo (u k : nat) : list dq_label := replicate k (DqAdvance u true).

(** A push that finds room, and one that grows an array of [m] entries. *)
Definition plain_push (u : nat) (x : Z) : list dq_label := DqPush u x :: solo u 5.
Definition growing_push (u : nat) (x : Z) (m : nat) (retire_ok : bool) : list dq_label :=
  DqPush u x :: solo u (9 + m) ++ [DqAdvance u retire_ok] ++ solo u 3.

Definition demo_deque_sched : list dq_label :=
  plain_push 0 7 ++ plain_push 0 8 ++ growing_push 0 9 2 true ++
  (DqSteal 1 :: solo 1 5) ++ (DqPop 0 :: solo 0 5).

Lemma deque_conserves_witness :
  match traced dq_step (dq_start 0 (2 ^ 1) true 2) demo_deque_sched with
  | Some (s, es) => taken es = [7; 9] ∧
      ∃ inside, pushes es ≡ₚ taken es ++ inside ∧
        nkit_deque_size (dqs_deque s) = Z.of_nat (length inside)
  | None => False
  end.
Proof.
  destruct (traced _ _ _) as [[s es]|] eqn:E; [|by vm_compute in E].
  destruct (deque_conserves 0 0 1 true 2 demo_deque_sched s es ltac:(lia) ltac:(lia)
    ltac:(apply (bool_decide_unpack _); by vm_compute) ltac:(by vm_compute) E) as (inside & Hp & Hsz).
  split; [vm_compute in E; by simplify_eq|]. exists inside. split; [done|].
  apply Hsz. vm_compute in E. by simplify_eq.
Defined.

(** Two threads that both use [nkit_deque_pop] on one deque, as the workers
    of one node do with their node's deque, can both return the same item: an
    execution in which one item pushed once is popped twice. *)
Theorem deque_two_owners_duplicate :
  ∃ sched s es, traced dq_step (dq_start 0 (2 ^ 1) true 2) sched = Some (s, es) ∧
    pushes es = [7; 8] ∧ taken es = [8; 8].
Proof.
  exists (plain_push 0 7 ++ plain_push 0 8 ++ [DqPop 0; DqPop 1] ++
          [DqAdvance 0 true; DqAdvance 1 true] ++ [DqAdvance 0 true; DqAdvance 1 true] ++
          [DqAdvance 0 true; DqAdvance 1 true] ++ [DqAdvance 0 true; DqAdvance 1 true] ++
          [DqAdvance 0 true; DqAdvance 1 true]).
  match goal with |- ∃ s es, ?run = _ ∧ _ => destruct run as [[s es]|] eqn:E end.
  - exists s, es. vm_compute in E. by simplify_eq.
  - by vm_compute in E.
Qed.

(** From a full array of 2^k entries, [j] more doublings. *)
Fixpoint fill (k j : nat) : list dq_label :=
  match j with
  | O => []
  | S j =>
      growing_push 0 1 (2 ^ k) true ++ concat (replicate (2 ^ k - 1) (plain_push 0 1)) ++ fill (S k) j
  end.

(** When the list of retired arrays cannot grow, the replaced array is freed
    at once: there is an execution with one owner and one thief, every call used
    as documented, in which the thief is about to read an array that has been
    freed. *)
Theorem deque_use_after_free :
  ∃ sched s es t a, Forall (respects 0) sched ∧
    traced dq_step (dq_start 0 1 true 2) sched = Some (s, es) ∧
    dqs_threads s !! 1%nat = Some (DqStealRead t a) ∧ dq_heap (dqs_deque s) !! a = Some None.
Proof.
  exists (plain_push 0 1 ++ fill 0 8 ++ (DqSteal 1 :: solo 1 3) ++ growing_push 0 1 256 false).
  match goal with |- ∃ s es t a, _ ∧ ?run = _ ∧ _ => destruct run as [[s es]|] eqn:E end.
  - exists s, es, 0, 8%nat. split.
    + apply (bool_decide_unpack _). by vm_compute.
    + vm_compute in E. by simplify_eq.
  - by vm_compute in E.
Qed.

(** The list of retired arrays may be missing, since its allocation is not checked:
    the first growth of such a deque then writes through NULL.  One owner, every call
    used as documented. *)
Theorem deque_no_retired_list :
  ∃ sched s es f, traced dq_step (dq_start 0 1 false 1) sched = Some (s, es) ∧
    dqs_threads s !! 0%nat = Some (DqGrowRetire f 0) ∧
    (∀ ok, dq_step s (DqAdvance 0 ok) = None).
Proof.
  exists (plain_push 0 1 ++ (DqPush 0 2 :: solo 0 10)).
  match goal with |- ∃ s es f, ?run = _ ∧ _ => destruct run as [[s es]|] eqn:E end.
  - exists s, es, (mk_pf 1 0 2). vm_compute in E. injection E as <- <-. split; [done|]. split; [done|]. by intros [].
  - by vm_compute in E.
Qed.
