(* ===== verification/DequeSeq.v ===== *)
(** * The deque used one call at a time (src/structs/deque.c)

    The calls of [Deque], each run to its end before the next: the deque is then
    a list, pushed and popped at the back and stolen from at the front, through
    any growth of its array and any failed attempt at one.  The task pool's progress rests on these lemmas. *)

From stdpp Require Import prelude.
From Stdlib Require Import ZArith Lia.
From S2P Require Import Prelude Words Deque.
Local Open Scope Z_scope.

(** ** One call *)

(** The next access of a thread, whatever it is doing. *)
Definition call_step (d : nkit_deque_t) (u : nat) (pc : dq_pc) (ok : bool)
    : option (nkit_deque_t * dq_pc * list dq_event) :=
  match push_step d pc ok with
  | Some r => Some r
  | None => match pop_step d u pc with Some r => Some r | None => steal_step d u pc end
  end.

Section alone.
(** What the two allocations a push may make, of a larger array and of a larger
    list of retired ones, come to. *)
Context (oks : bool * bool).

Definition alloc_result (pc : dq_pc) : bool := match pc with DqGrowAlloc _ _ _ _ => oks.1 | _ => oks.2 end.

(** A call run alone to its end. *)
Fixpoint solo_run (fuel : nat) (d : nkit_deque_t) (u : nat) (pc : dq_pc)
    : option (nkit_deque_t * list dq_event) :=
  match pc, fuel with
  | DqIdle, _ => Some (d, [])
  | _, O => None
  | _, S fuel =>
      match call_step d u pc (alloc_result pc) with
      | None => None
      | Some (d1, pc1, es1) =>
          match solo_run fuel d1 u pc1 with
          | None => None
          | Some (d2, es2) => Some (d2, es1 ++ es2)
          end
      end
  end.

Lemma solo_run_idle fuel d u : solo_run fuel d u DqIdle = Some (d, []).
Proof. by destruct fuel. Qed.

Lemma solo_run_step fuel d u pc d1 pc1 es1 :
  call_step d u pc (alloc_result pc) = Some (d1, pc1, es1) →
  solo_run (S fuel) d u pc =
    match solo_run fuel d1 u pc1 with None => None | Some (d2, es2) => Some (d2, es1 ++ es2) end.
Proof. intros E. cbn [solo_run]. rewrite E. by destruct pc. Qed.

(** ** The deque at rest *)

Record deque_rep (d : nkit_deque_t) (c : list Z) : Prop := {
  dr_top : 0 ≤ dq_top d;
  dr_bottom : dq_bottom d = dq_top d + Z.of_nat (length c);
  dr_array : ∃ arr, live_array d (dq_array d) arr ∧ Z.of_nat (length c) ≤ da_size arr;
  dr_content j x : c !! j = Some x → array_get d (dq_array d) (dq_top d + Z.of_nat j) = Some x;
}.

(** What a concurrent execution leaves when the owner is at rest. *)
Lemma dq_inv_rep ow n s c r sz : dq_inv ow n s DqIdle c r sz → deque_rep (dqs_deque s) c.
Proof.
  intros [I1 I2 I3 I4 I5 I6 I7 I8 I9 I10]. split; [done|simpl in I2; lia| |].
  - destruct I5 as (arr & Hl & <-). by exists arr.
  - intros j x Hj. apply I7; [done|]. apply lookup_lt_Some in Hj. lia.
Qed.

Lemma rep_size d c : deque_rep d c →
  ∃ arr, live_array d (dq_array d) arr ∧ Z.of_nat (length c) ≤ da_size arr ∧
         array_size d (dq_array d) = Some (da_size arr).
Proof.
  intros [_ _ (arr & Hl & Hle) _]. exists arr. split; [done|]. split; [done|].
  unfold array_size. by rewrite (proj1 Hl).
Qed.

(** The arrays are left alone. *)
Definition same_store (d d' : nkit_deque_t) : Prop :=
  dq_array d' = dq_array d ∧ dq_heap d' = dq_heap d ∧ dq_retired d' = dq_retired d.

(** ** Steal *)

Lemma steal_alone d u c :
  deque_rep d c →
  ∃ d', solo_run 5 d u DqStealTop =
    Some (d', match c with [] => [Nothing u] | x :: _ => [Stolen u x] end) ∧ deque_rep d' (tail c) ∧
    dq_bottom d' ≤ dq_bottom d ∧ same_store d d'.
Proof.
  intros R. pose proof R as [Rt Rb Ra Rc]. destruct c as [|x c].
  - exists d. split; [|by split; [|split; [lia|]]].
    rewrite (solo_run_step 4 d u DqStealTop d (DqStealBottom (dq_top d)) []) by done.
    rewrite (solo_run_step 3 d u _ d DqIdle [Nothing u]).
    { by rewrite solo_run_idle. }
    cbn. cbn in Rb. by destruct (Z.ltb_spec (dq_top d) (dq_bottom d)); [lia|].
  - exists (set_top d (dq_top d + 1)). split.
    + rewrite (solo_run_step 4 d u DqStealTop d (DqStealBottom (dq_top d)) []) by done.
      rewrite (solo_run_step 3 d u _ d (DqStealArray (dq_top d)) []).
      2:{ cbn in *. by destruct (Z.ltb_spec (dq_top d) (dq_bottom d)); [|lia]. }
      rewrite (solo_run_step 2 d u _ d (DqStealRead (dq_top d) (dq_array d)) []) by done.
      rewrite (solo_run_step 1 d u _ d (DqStealCas (dq_top d) x) []).
      2:{ cbn. pose proof (Rc 0%nat x eq_refl) as E. rewrite Z.add_0_r in E. by rewrite E. }
      rewrite (solo_run_step 0 d u _ (set_top d (dq_top d + 1)) DqIdle [Stolen u x]).
      2:{ cbn. by rewrite Z.eqb_refl. }
      by rewrite solo_run_idle.
    + split; [|split; [cbn; lia|done]]. cbn [tail]. split; cbn [dq_top dq_bottom dq_array set_top].
      * lia.
      * cbn in Rb. lia.
      * destruct Ra as (arr & Hl & Hle). exists arr. split; [exact Hl|]. cbn in Hle. lia.
      * intros j y Hj. pose proof (Rc (S j) y Hj) as E.
        replace (dq_top d + 1 + Z.of_nat j) with (dq_top d + Z.of_nat (S j)) by lia. exact E.
Qed.

(** ** Pop *)

Lemma rep_shorter d c x :
  deque_rep d (c ++ [x]) → deque_rep (set_bottom d (dq_bottom d - 1)) c.
Proof.
  intros [Rt Rb (arr & Hl & Hle) Rc]. rewrite length_app in Rb, Hle. cbn [length] in Rb, Hle.
  split; cbn [dq_top dq_bottom dq_array set_bottom]; [lia|lia|exists arr; split; [exact Hl|lia]|].
  intros j y Hj. apply (Rc j y). by apply lookup_app_l_Some.
Qed.

Lemma pop_alone d u c :
  deque_rep d c →
  ∃ d', solo_run 7 d u DqPopBottom =
    Some (d', match last c with None => [Nothing u] | Some x => [Popped u x] end) ∧
    deque_rep d' (take (length c - 1) c) ∧ dq_bottom d' ≤ dq_bottom d ∧ same_store d d'.
Proof.
  intros R. pose proof R as [Rt Rb Ra Rc].
  set (b := dq_bottom d - 1). set (d1 := set_bottom d b).
  assert (H3 : ∀ fuel, solo_run (S (S (S fuel))) d u DqPopBottom = solo_run fuel d1 u (DqPopTop b (dq_array d))).
  { intros fuel. rewrite (solo_run_step _ d u DqPopBottom d (DqPopArray b) []) by done.
    rewrite (solo_run_step _ d u (DqPopArray b) d (DqPopStore b (dq_array d)) []) by done.
    rewrite (solo_run_step _ d u (DqPopStore b (dq_array d)) d1 (DqPopTop b (dq_array d)) []) by done.
    by destruct (solo_run fuel d1 u _) as [[]|]. }
  rewrite H3. destruct c as [|x c _] using rev_ind.
  - exists (set_bottom d1 (b + 1)). cbn [last length take]. split.
    + rewrite (solo_run_step 3 d1 u _ d1 (DqPopRestore b None) []).
      2:{ cbn. cbn in Rb. by destruct (Z.leb_spec (dq_top d) b); [unfold b in *; lia|]. }
      rewrite (solo_run_step 2 d1 u _ (set_bottom d1 (b + 1)) DqIdle [Nothing u]) by done.
      by rewrite solo_run_idle.
    + assert (E : set_bottom d1 (b + 1) = d); [|rewrite E; by split; [|split; [lia|]]].
      unfold d1, b, set_bottom. cbn. destruct d. cbn. f_equal. lia.
  - rewrite last_snoc, length_app. cbn [length]. replace (length c + 1 - 1)%nat with (length c) by lia.
    rewrite take_app_length. pose proof (rep_shorter d c x R) as R1. fold b d1 in R1.
    rewrite length_app in Rb. cbn [length] in Rb.
    assert (Ex : array_get d1 (dq_array d) b = Some x).
    { pose proof (Rc (length c) x (list_lookup_middle c [] x _ eq_refl)) as E.
      replace b with (dq_top d + Z.of_nat (length c)) by (unfold b; lia). exact E. }
    assert (Hle : (dq_top d1 <=? b) = true) by (apply Z.leb_le; cbn; unfold b; lia).
    destruct c as [|y c].
    + assert (Eb : dq_top d1 = b) by (cbn; unfold b; cbn in Rb; lia).
      exists (set_bottom (set_top d1 (b + 1)) (b + 1)). split.
      * rewrite (solo_run_step 3 d1 u _ d1 (DqPopRead b (dq_array d) true) []).
        2:{ unfold call_step. cbn [push_step pop_step]. by rewrite Hle, Eb, Z.eqb_refl. }
        rewrite (solo_run_step 2 d1 u _ d1 (DqPopCas b x) []) by (unfold call_step; cbn; by rewrite Ex).
        rewrite (solo_run_step 1 d1 u _ (set_top d1 (b + 1)) (DqPopRestore b (Some x)) []).
        2:{ unfold call_step. cbn [push_step pop_step]. by rewrite Eb, Z.eqb_refl. }
        rewrite (solo_run_step 0 _ u _ (set_bottom (set_top d1 (b + 1)) (b + 1)) DqIdle [Popped u x]) by done.
        by rewrite solo_run_idle.
      * split; [|split; [cbn; unfold b; lia|done]].
        split; cbn [dq_top dq_bottom dq_array set_bottom set_top length]; [unfold b; lia|lia| |done].
        destruct Ra as (arr & Hl & _). exists arr. split; [exact Hl|]. pose proof (array_size_pos arr (proj2 Hl)). lia.
    + exists d1. split; [|split; [done|split; [cbn; unfold b; lia|done]]].
      rewrite (solo_run_step 3 d1 u _ d1 (DqPopRead b (dq_array d) false) []).
      2:{ unfold call_step. cbn [push_step pop_step]. rewrite Hle.
          destruct (Z.eqb_spec (dq_top d1) b) as [E|]; [|done]. exfalso. revert E. cbn in *. unfold b. lia. }
      rewrite (solo_run_step 2 d1 u _ d1 DqIdle [Popped u x]) by (unfold call_step; cbn; by rewrite Ex).
      by rewrite solo_run_idle.
Qed.

(** ** Push *)

(** One silent access. *)
Lemma solo_silent fuel d u pc d1 pc1 :
  call_step d u pc (alloc_result pc) = Some (d1, pc1, []) → solo_run (S fuel) d u pc = solo_run fuel d1 u pc1.
Proof. intros E. rewrite (solo_run_step _ _ _ _ _ _ _ E). by destruct (solo_run fuel d1 u pc1) as [[]|]. Qed.

Lemma store_publish_alone fuel d u c x arr :
  deque_rep d c → live_array d (dq_array d) arr → Z.of_nat (length c) < da_size arr →
  ∃ d', solo_run (S (S fuel)) d u (DqPushStore (dq_bottom d) (dq_array d) x) = Some (d', [Pushed x]) ∧
        deque_rep d' (c ++ [x]) ∧ dq_bottom d' = dq_bottom d + 1 ∧ dq_retired d' = dq_retired d ∧
        array_size d' (dq_array d') = Some (da_size arr).
Proof.
  intros [Rt Rb _ Rc] Hl Hlt.
  destruct (array_put_stored d (dq_array d) arr (dq_bottom d) x Hl) as (d1 & Hput & S).
  pose proof S as [Sb St Sa Sr _ Ssame Si _ Sv].
  exists (set_bottom d1 (dq_bottom d + 1)). split.
  - rewrite (solo_silent _ d u _ d1 (DqPushPublish (dq_bottom d) x)).
    2:{ unfold call_step. cbn [push_step]. by rewrite Hput. }
    rewrite (solo_run_step _ d1 u _ (set_bottom d1 (dq_bottom d + 1)) DqIdle [Pushed x]) by done.
    by rewrite solo_run_idle.
  - destruct (Sv arr Hl) as (arr' & Hl' & Es). split; [|split; [done|split; [done|]]].
    2:{ unfold array_size. cbn [set_bottom dq_array dq_heap]. by rewrite Sa, (proj1 Hl'), Es. }
    split; cbn [dq_top dq_bottom dq_array set_bottom]; rewrite ?St, ?Sa, ?length_app; cbn [length].
    + done.
    + lia.
    + exists arr'. split; [exact Hl'|lia].
    + intros j y Hj. change (array_get d1 (dq_array d) (dq_top d + Z.of_nat j) = Some y).
      apply lookup_app_Some in Hj as [Hj|[Hge Hj]].
      * pose proof (lookup_lt_Some _ _ _ Hj). rewrite (Si _ arr Hl) by lia. by apply Rc.
      * apply list_lookup_singleton_Some in Hj as [Hz <-].
        replace (dq_top d + Z.of_nat j) with (dq_bottom d) by lia. done.
Qed.

(** The copy loop, from the [m]th item on: the new array gets the rest. *)
Lemma copy_alone f new u c arr : ∀ k d m,
  deque_rep d c → new ≠ dq_array d → live_array d new arr → Z.of_nat (length c) ≤ da_size arr →
  (m + k = length c)%nat →
  (∀ j x, (j < m)%nat → c !! j = Some x → array_get d new (dq_top d + Z.of_nat j) = Some x) →
  ∃ d' arr', (∀ fuel, solo_run (S k + fuel) d u
                (DqGrowCopy f (dq_bottom d) (dq_top d + Z.of_nat m) (dq_array d) new) =
              solo_run fuel d' u (DqGrowPublish f (dq_array d) new)) ∧
    deque_rep d' c ∧ dq_top d' = dq_top d ∧ dq_bottom d' = dq_bottom d ∧ dq_array d' = dq_array d ∧
    dq_retired d' = dq_retired d ∧ live_array d' new arr' ∧ da_size arr' = da_size arr ∧
    (∀ j x, c !! j = Some x → array_get d' new (dq_top d' + Z.of_nat j) = Some x).
Proof.
  intros k. revert arr. induction k as [|k IH]; intros arr d m R Hne Hl Hsz Hm Hc; pose proof R as [Rt Rb Ra Rc].
  - exists d, arr. split_and!; auto; [|].
    + intros fuel. apply solo_silent. unfold call_step. cbn [push_step].
      by destruct (Z.ltb_spec (dq_top d + Z.of_nat m) (dq_bottom d)); [lia|].
    + intros j x Hj. apply Hc; [|done]. apply lookup_lt_Some in Hj. lia.
  - destruct (lookup_lt_is_Some_2 c m ltac:(lia)) as [x Hx]. pose proof (Rc m x Hx) as Hget.
    destruct (array_put_stored d new arr (dq_top d + Z.of_nat m) x Hl) as (d1 & Hput & S).
    pose proof S as [Sb St Sa Sr _ Ssame Si So Sv]. destruct (Sv arr Hl) as (arr1 & Hl1 & Es1).
    assert (R1 : deque_rep d1 c).
    { split; rewrite ?Sb, ?St, ?Sa; auto.
      - destruct Ra as (arr0 & Hl0 & Hle). exists arr0. split; [|done].
        split; [rewrite (So (dq_array d)) by done; apply Hl0|apply Hl0].
      - intros j y Hj. rewrite (stored_get_other _ _ _ _ _ _ _ S) by done. by apply Rc. }
    destruct (IH arr1 d1 (m + 1)%nat R1 ltac:(by rewrite Sa) Hl1 ltac:(lia) ltac:(lia)) as
      (d' & arr' & Hrun & R' & Et & Eb & Ea & Er & Hl' & Es' & Hc').
    { intros j y Hj Hy. rewrite St. destruct (decide (j = m)) as [->|Hjm].
      - by rewrite Hx in Hy; simplify_eq.
      - rewrite (Si _ arr Hl) by lia. apply Hc; [lia|done]. }
    exists d', arr'. split_and!; auto; [|congruence..].
    intros fuel. cbn [Nat.add]. rewrite Sb, St, Sa in Hrun.
    rewrite (solo_silent _ d u _ d1 (DqGrowCopy f (dq_bottom d) (dq_top d + Z.of_nat m + 1) (dq_array d) new)).
    + replace (dq_top d + Z.of_nat m + 1) with (dq_top d + Z.of_nat (m + 1)) by lia. apply Hrun.
    + unfold call_step. cbn [push_step].
      destruct (Z.ltb_spec (dq_top d + Z.of_nat m) (dq_bottom d)); [|lia]. by rewrite Hget, Hput.
Qed.

(** Retiring the old array: the list changes, or the old array is gone. *)
Lemma retire_alone d u f old fuel :
  is_Some (dq_retired d) →
  ∃ d', solo_run (S fuel) d u (DqGrowRetire f old) = solo_run fuel d' u (DqPushAgain f) ∧
    dq_top d' = dq_top d ∧ dq_bottom d' = dq_bottom d ∧ dq_array d' = dq_array d ∧ is_Some (dq_retired d') ∧
    (∀ a, a ≠ old → dq_heap d' !! a = dq_heap d !! a).
Proof.
  intros [retired Er].
  assert (E : ∃ d', call_step d u (DqGrowRetire f old) (alloc_result (DqGrowRetire f old)) = Some (d', DqPushAgain f, []) ∧
    dq_top d' = dq_top d ∧ dq_bottom d' = dq_bottom d ∧ dq_array d' = dq_array d ∧ is_Some (dq_retired d') ∧
    (∀ a, a ≠ old → dq_heap d' !! a = dq_heap d !! a)).
  { unfold call_step. cbn [push_step]. rewrite Er. destruct (_ =? _); [destruct (alloc_result _)|];
      eexists; (split; [done|]); split_and!; cbn; eauto. intros a Ha. by rewrite list_lookup_insert_ne. }
  destruct E as (d' & E & H). exists d'. split; [by apply solo_silent|done].
Qed.

Lemma rep_same_heap d d' c :
  deque_rep d c → dq_top d' = dq_top d → dq_bottom d' = dq_bottom d → dq_array d' = dq_array d →
  dq_heap d' !! dq_array d = dq_heap d !! dq_array d → deque_rep d' c.
Proof.
  intros [Rt Rb (arr & [Hl Hw] & Hle) Rc] Et Eb Ea Eh. split; rewrite ?Et, ?Eb, ?Ea; auto.
  - exists arr. split; [|done]. split; [by rewrite Eh|done].
  - intros j x Hj. unfold array_get. rewrite Eh. by apply Rc.
Qed.

(** Enough accesses for any push of a deque of [c]. *)
Definition push_fuel (c : list Z) : nat := (13 + length c)%nat.

(** The deque at rest, with the size of its array. *)
Record deque_at (d : nkit_deque_t) (c : list Z) (sz : Z) : Prop := {
  at_rep : deque_rep d c;
  at_array : ∃ arr, live_array d (dq_array d) arr ∧ da_size arr = sz;
  at_list : is_Some (dq_retired d);
}.

Lemma same_store_at d c sz d' c' : deque_at d c sz → deque_rep d' c' → same_store d d' → deque_at d' c' sz.
Proof.
  intros [_ (arr & [Hl Hw] & Hs) Ht] R (Ea & Eh & Er). split; [done| |by rewrite Er].
  exists arr. split; [|done]. split; [|done]. by rewrite Ea, Eh.
Qed.

(** The first accesses of a push. *)
Lemma push_starts d u x fuel :
  solo_run (S (S fuel)) d u (DqPushBottom x) =
  solo_run fuel d u (DqPushArray (mk_pf (dq_bottom d) (dq_top d) x)).
Proof. rewrite (solo_silent _ d u _ d (DqPushTop (dq_bottom d) x)) by done. by apply solo_silent. Qed.

Lemma at_full d c sz f : deque_at d c sz → pf_b f = dq_bottom d → pf_t f = dq_top d →
  array_size d (dq_array d) = Some sz ∧ (sz <=? pf_b f - pf_t f) = negb (Z.of_nat (length c) <? sz).
Proof.
  intros [[_ Rb _ _] (arr & Hl & <-) _] -> ->. unfold array_size. rewrite (proj1 Hl). split; [done|].
  destruct (Z.leb_spec (da_size arr) (dq_bottom d - dq_top d)), (Z.ltb_spec (Z.of_nat (length c)) (da_size arr)); (done || lia).
Qed.

(** The array has room. *)
Lemma push_room_alone d u c x sz :
  deque_at d c sz → Z.of_nat (length c) < sz →
  ∃ d', solo_run (push_fuel c) d u (DqPushBottom x) = Some (d', [Pushed x]) ∧ deque_at d' (c ++ [x]) sz ∧
        dq_bottom d' = dq_bottom d + 1.
Proof.
  intros A Hlt. pose proof A as [R (arr & Hl & Hs) Ht]. subst sz.
  destruct (at_full d c _ (mk_pf (dq_bottom d) (dq_top d) x) A eq_refl eq_refl) as [Es Ef].
  unfold push_fuel. cbn [Nat.add]. rewrite push_starts.
  rewrite (solo_silent _ d u _ d (DqPushStore (dq_bottom d) (dq_array d) x)).
  2:{ unfold call_step. cbn [push_step]. rewrite Es, Ef. by rewrite (proj2 (Z.ltb_lt _ _) Hlt). }
  destruct (store_publish_alone (S (S (S (S (S (S (S (S (length c))))))))) d u c x arr R Hl Hlt) as (d' & E & R' & Eb & Er & Hs').
  exists d'. split; [exact E|]. split; [|done]. split; [done| |by rewrite Er].
  destruct (rep_size _ _ R') as (arr' & Hl' & _ & Es'). exists arr'. split; [done|]. congruence.
Qed.

(** The array is full and cannot be replaced. *)
Lemma push_refused_alone d u c x sz :
  deque_at d c sz → sz ≤ Z.of_nat (length c) → oks.1 = false →
  solo_run (push_fuel c) d u (DqPushBottom x) = Some (d, [PushFailed]).
Proof.
  intros A Hge Hno. set (f := mk_pf (dq_bottom d) (dq_top d) x).
  destruct (at_full d c _ f A eq_refl eq_refl) as [Es Ef]. rewrite (proj2 (Z.ltb_ge _ _) Hge) in Ef.
  unfold push_fuel. cbn [Nat.add]. rewrite push_starts. fold f.
  rewrite (solo_silent _ d u _ d (DqGrowBottom f)) by (unfold call_step; cbn [push_step]; by rewrite Es, Ef).
  rewrite (solo_silent _ d u _ d (DqGrowTop f (dq_bottom d))) by done.
  rewrite (solo_silent _ d u _ d (DqGrowArray f (dq_bottom d) (dq_top d))) by done.
  rewrite (solo_silent _ d u _ d (DqGrowAlloc f (dq_bottom d) (dq_top d) (dq_array d))) by done.
  rewrite (solo_silent _ d u _ d (DqPushAgain f))
    by (unfold call_step, alloc_result; cbn [push_step]; by rewrite Es, Hno).
  rewrite (solo_run_step _ d u _ d DqIdle [PushFailed]) by (unfold call_step; cbn [push_step]; by rewrite Es, Ef).
  by rewrite solo_run_idle.
Qed.

(** The accesses of a growth up to the copy. *)
Lemma grow_starts d u f sz fuel :
  pf_b f = dq_bottom d → array_size d (dq_array d) = Some sz → (sz <=? pf_b f - pf_t f) = true → oks.1 = true →
  solo_run (S (S (S (S (S fuel))))) d u (DqPushArray f) =
  solo_run fuel (set_heap d (dq_heap d ++ [Some (deque_array_alloc (u32 (sz * 2)))])) u
    (DqGrowCopy f (dq_bottom d) (dq_top d) (dq_array d) (length (dq_heap d))).
Proof.
  intros Hf Es Ef Hyes.
  rewrite (solo_silent _ d u _ d (DqGrowBottom f)) by (unfold call_step; cbn [push_step]; by rewrite Es, Ef).
  rewrite (solo_silent _ d u _ d (DqGrowTop f (dq_bottom d))) by done.
  rewrite (solo_silent _ d u _ d (DqGrowArray f (dq_bottom d) (dq_top d))) by done.
  rewrite (solo_silent _ d u _ d (DqGrowAlloc f (dq_bottom d) (dq_top d) (dq_array d))) by done.
  apply solo_silent. unfold call_step, alloc_result. cbn [push_step]. by rewrite Es, Hyes.
Qed.

(** A new array beside the others. *)
Lemma at_alloc d c sz k :
  deque_at d c sz → 0 ≤ k ≤ 31 →
  let d1 := set_heap d (dq_heap d ++ [Some (deque_array_alloc (2 ^ k))]) in
  deque_rep d1 c ∧ live_array d1 (length (dq_heap d)) (deque_array_alloc (2 ^ k)) ∧ length (dq_heap d) ≠ dq_array d.
Proof.
  intros [[Rt Rb (arr & Hl & Hle) Rc] _ _] Hk d1. pose proof (lookup_lt_Some _ _ _ (proj1 Hl)) as Hcur.
  split; [|split; [|lia]].
  - split; cbn [d1 dq_top dq_bottom dq_array set_heap]; auto.
    + exists arr. split; [|done]. split; [|apply Hl]. cbn. by rewrite lookup_app_l, (proj1 Hl).
    + intros j y Hj. unfold array_get. cbn. rewrite lookup_app_l by done. by apply Rc.
  - split; [|by apply array_alloc_wf]. cbn. by rewrite lookup_app_r, Nat.sub_diag.
Qed.

(** The array is full and is replaced by one of twice the size. *)
Lemma push_grow_alone d u c x sz :
  deque_at d c sz → sz ≤ Z.of_nat (length c) → dq_bottom d < 2 ^ 30 → oks.1 = true →
  ∃ d', solo_run (push_fuel c) d u (DqPushBottom x) = Some (d', [Pushed x]) ∧ deque_at d' (c ++ [x]) (2 * sz) ∧
        dq_bottom d' = dq_bottom d + 1.
Proof.
  intros A Hge Hb Hyes. set (f := mk_pf (dq_bottom d) (dq_top d) x).
  destruct (at_full d c _ f A eq_refl eq_refl) as [Es Ef]. rewrite (proj2 (Z.ltb_ge _ _) Hge) in Ef.
  pose proof A as [R (arr & Hl & Hs) Ht]. pose proof (dr_bottom _ _ R). pose proof (dr_top _ _ R).
  destruct (dr_array _ _ R) as (arr0 & Hl0 & Hle). assert (arr0 = arr) as -> by (destruct Hl0, Hl; congruence).
  destruct (wf_size _ (proj2 Hl)) as (k & Hk & Ek). subst sz.
  assert (Hk30 : k < 30) by (apply (Z.pow_lt_mono_r_iff 2); lia).
  assert (Enew : u32 (da_size arr * 2) = 2 ^ (k + 1)).
  { rewrite Ek, Z.pow_add_r by lia. apply u32_small. unfold is_u32.
    assert (2 ^ k < 2 ^ 30) by (apply Z.pow_lt_mono_r; lia). lia. }
  destruct (at_alloc d c _ (k + 1) A ltac:(lia)) as (R1 & Hl1 & Hne). pose proof (Z.pow_add_r 2 k 1 ltac:(lia) ltac:(lia)).
  edestruct (copy_alone f _ u c _ (length c) _ 0%nat R1 Hne Hl1)
    as (d2 & arr2 & Hrun & R2 & Et2 & Eb2 & Ea2 & Er2 & Hl2 & Es2 & Hc2); [cbn; lia|lia|by intros ? ? ?%Nat.nlt_0_r|].
  set (d3 := set_array d2 (length (dq_heap d))).
  destruct (retire_alone d3 u f (dq_array d) 3) as (d4 & Hrun4 & Et4 & Eb4 & Ea4 & Er4 & Eh4); [cbn; by rewrite Er2|].
  cbn [set_heap dq_top dq_bottom dq_array dq_retired da_size deque_array_alloc] in *.
  assert (Hl4 : live_array d4 (dq_array d4) arr2).
  { rewrite Ea4. split; [rewrite Eh4 by done; apply Hl2|apply Hl2]. }
  pose proof (array_size_pos arr (proj2 Hl)).
  assert (R4 : deque_rep d4 c).
  { apply (rep_same_heap d3); auto. destruct R2 as [T2 B2 _ C2].
    split; cbn [d3 dq_top dq_bottom dq_array set_array]; auto. exists arr2. split; [exact Hl2|lia]. }
  assert (Eb : dq_bottom d4 = dq_bottom d) by (rewrite Eb4; cbn; by rewrite Eb2).
  destruct (store_publish_alone 0 d4 u c x arr2 R4 Hl4 ltac:(lia)) as (d' & Hrun' & R' & Eb' & Er' & Es').
  exists d'. split; [|split; [|congruence]].
  - unfold push_fuel. cbn [Nat.add]. rewrite push_starts. fold f.
    rewrite (grow_starts d u f _ _ eq_refl Es Ef Hyes), Enew.
    change (S (S (S (S (S (S (length c)))))))%nat with (6 + length c)%nat.
    replace (6 + length c)%nat with (S (length c) + 5)%nat by lia. rewrite Z.add_0_r in Hrun. rewrite Hrun.
    rewrite (solo_silent _ d2 u _ d3 (DqGrowRetire f (dq_array d))) by done. rewrite Hrun4.
    rewrite (solo_silent _ d4 u _ d4 (DqPushStore (dq_bottom d) (dq_array d4) x)); [by rewrite <-Eb|].
    unfold call_step. cbn [push_step]. unfold array_size. rewrite (proj1 Hl4). cbn [f pf_b pf_t pf_data].
    by destruct (Z.leb_spec (da_size arr2) (dq_bottom d - dq_top d)); [lia|].
  - split; [done| |by rewrite Er']. destruct (rep_size _ _ R') as (arr' & Hl' & _ & Es''). exists arr'. split; [done|].
    rewrite Es' in Es''. injection Es'' as <-. lia.
Qed.

Lemma solo_run_mono fuel fuel' d u pc r :
  (fuel ≤ fuel')%nat → solo_run fuel d u pc = Some r → solo_run fuel' d u pc = Some r.
Proof.
  revert fuel' d pc r. induction fuel as [|fuel IH]; intros fuel' d pc r Hle Hr.
  { destruct pc; try done. by rewrite solo_run_idle. }
  destruct fuel' as [|fuel']; [lia|].
  destruct (decide (pc = DqIdle)) as [->|Hne]; [rewrite solo_run_idle in Hr; by rewrite solo_run_idle|].
  destruct (call_step d u pc (alloc_result pc)) as [[[d1 pc1] es1]|] eqn:E.
  2:{ cbn [solo_run] in Hr. rewrite E in Hr. by destruct pc. }
  rewrite (solo_run_step _ _ _ _ _ _ _ E) in Hr. rewrite (solo_run_step _ _ _ _ _ _ _ E).
  destruct (solo_run fuel d1 u pc1) as [[d2 es2]|] eqn:E2; [|done].
  by rewrite (IH fuel' d1 pc1 _ ltac:(lia) E2).
Qed.
End alone.

(** ** A list with two ends *)

Inductive deque_op := DPush (x : Z) | DPop | DSteal.

(** The call as its first access: thread 0 owns the deque, thread 1 steals. *)
Definition call_of (o : deque_op) : nat * dq_pc :=
  match o with DPush x => (0%nat, DqPushBottom x) | DPop => (0%nat, DqPopBottom) | DSteal => (1%nat, DqStealTop) end.

(** A sequence of calls, each run to its end, with what its allocations come to. *)
Fixpoint deque_calls (fuel : nat) (d : nkit_deque_t) (ops : list (deque_op * (bool * bool)))
    : option (nkit_deque_t * list dq_event) :=
  match ops with
  | [] => Some (d, [])
  | (o, oks) :: ops =>
      match solo_run oks fuel d (call_of o).1 (call_of o).2 with
      | None => None
      | Some (d1, es1) =>
          match deque_calls fuel d1 ops with
          | None => None
          | Some (d2, es2) => Some (d2, es1 ++ es2)
          end
      end
  end.

(** What the caller of each is promised: the deque is a list and the size of the
    array that holds it; [array_ok]: a larger array can be had. *)
Definition list_call (c : list Z) (sz : Z) (o : deque_op) (array_ok : bool) : list Z * Z * dq_event :=
  match o with
  | DPush x =>
      if Z.of_nat (length c) <? sz then (c ++ [x], sz, Pushed x)
      else if array_ok then (c ++ [x], 2 * sz, Pushed x)
      else (c, sz, PushFailed)
  | DPop => (take (length c - 1) c, sz, match last c with None => Nothing 0 | Some x => Popped 0 x end)
  | DSteal => (tail c, sz, match c with [] => Nothing 1 | x :: _ => Stolen 1 x end)
  end.

Fixpoint list_calls (c : list Z) (sz : Z) (ops : list (deque_op * (bool * bool))) : list Z * list dq_event :=
  match ops with
  | [] => (c, [])
  | (o, oks) :: ops =>
      let '(c1, sz1, e) := list_call c sz o oks.1 in
      let rs := list_calls c1 sz1 ops in (rs.1, e :: rs.2)
  end.

(** One call; the bottom moves up by at most one. *)
Lemma list_call_refines oks fuel d c sz o c1 sz1 e :
  deque_at d c sz → dq_bottom d < 2 ^ 30 → (push_fuel c ≤ fuel)%nat → list_call c sz o oks.1 = (c1, sz1, e) →
  ∃ d', solo_run oks fuel d (call_of o).1 (call_of o).2 = Some (d', [e]) ∧
        deque_at d' c1 sz1 ∧ dq_bottom d' ≤ dq_bottom d + 1 ∧ (length c1 ≤ S (length c))%nat.
Proof.
  intros A Hb Hf Ec. unfold push_fuel in Hf. pose proof (at_rep _ _ _ A) as R.
  destruct o as [x| |]; cbn [call_of list_call fst snd] in *.
  - destruct (Z.ltb_spec (Z.of_nat (length c)) sz) as [Hlt|Hge]; [|destruct oks.1 eqn:Hok]; simplify_eq.
    + destruct (push_room_alone oks d 0 c x sz1 A Hlt) as (d' & E & A' & Eb). exists d'.
      rewrite length_app. cbn [length]. split_and!; [by apply (solo_run_mono _ (push_fuel c))|done|lia|lia].
    + destruct (push_grow_alone oks d 0 c x sz A Hge Hb Hok) as (d' & E & A' & Eb). exists d'.
      rewrite length_app. cbn [length]. split_and!; [by apply (solo_run_mono _ (push_fuel c))|done|lia|lia].
    + exists d. split_and!; [|done|lia|lia].
      apply (solo_run_mono _ (push_fuel c1)); [done|]. by apply push_refused_alone with sz1.
  - destruct (pop_alone oks d 0 c R) as (d' & E & R' & Eb & St). simplify_eq. exists d'. rewrite length_take.
    split_and!; [|by apply (same_store_at d c)|lia|lia].
    apply (solo_run_mono _ 7); [lia|]. rewrite E. by destruct (last c).
  - destruct (steal_alone oks d 1 c R) as (d' & E & R' & Eb & St). simplify_eq. exists d'.
    split_and!; [|by apply (same_store_at d c)|lia|destruct c; cbn; lia].
    apply (solo_run_mono _ 5); [lia|]. rewrite E. by destruct c.
Qed.

Lemma deque_calls_refine fuel ops d c sz :
  deque_at d c sz → dq_bottom d + Z.of_nat (length ops) < 2 ^ 30 →
  (13 + length c + length ops ≤ fuel)%nat →
  ∃ d', deque_calls fuel d ops = Some (d', (list_calls c sz ops).2) ∧ deque_rep d' (list_calls c sz ops).1 ∧
        dq_bottom d' < 2 ^ 30.
Proof.
  revert d c sz. induction ops as [|[o oks] ops IH]; intros d c sz A Hb Hf; cbn [length] in *.
  { exists d. cbn in Hb. split; [done|]. split; [apply A|]. lia. }
  cbn [deque_calls list_calls]. destruct (list_call c sz o oks.1) as [[c1 sz1] e] eqn:Ec.
  destruct (list_call_refines oks fuel d c sz o c1 sz1 e A ltac:(lia) ltac:(unfold push_fuel; lia) Ec) as (d1 & E1 & A1 & B1 & L1).
  destruct (IH d1 c1 sz1 A1 ltac:(lia) ltac:(lia)) as (d2 & E2 & R2 & B2).
  exists d2. cbn [fst snd]. rewrite E1, E2. done.
Qed.

(** ** Properties *)

(** C22. Used one call at a time the deque is a list: pushed and popped at the
    back, stolen from at the front.  From a deque just created with any capacity
    2^k, its three allocations successful, any sequence of fewer than 2^30 calls
    returns exactly what the list returns, whatever the allocations made during the
    calls come to: a push into a full array doubles it, or returns false and changes
    nothing when the larger array cannot be had, and is otherwise always accepted; a
    list of retired arrays that cannot grow changes no result.  Each call makes at
    most 13 accesses and one per item moved, and [nkit_deque_size] is the length of
    the list at the end. *)
Theorem deque_refines_list node k d ops :
  0 ≤ k ≤ 31 → nkit_deque_create 0 true true true node (2 ^ k) = Some d →
  Z.of_nat (length ops) < 2 ^ 30 →
  ∃ d', deque_calls (13 + length ops) d ops = Some (d', (list_calls [] (2 ^ k) ops).2) ∧
        nkit_deque_size d' = Z.of_nat (length (list_calls [] (2 ^ k) ops).1).
Proof.
  intros Hk Hc Hlen. pose proof (array_alloc_wf k Hk) as Hwf. assert (0 < 2 ^ k) by lia.
  assert (Ed : d = mk_dq node 0 0 0 (Some []) 8 [Some (deque_array_alloc (2 ^ k))]).
  { unfold nkit_deque_create in Hc. cbn [Z.ltb Z.compare negb] in Hc.
    destruct (_ || _); [done|]. by injection Hc as <-. }
  assert (A : deque_at d [] (2 ^ k)).
  { rewrite Ed. split; [|by exists (deque_array_alloc (2 ^ k))|by eauto].
    split; cbn; [lia|lia| |done]. exists (deque_array_alloc (2 ^ k)). split; [done|]. cbn. lia. }
  destruct (deque_calls_refine (13 + length ops) ops d [] (2 ^ k) A) as (d' & E & R' & B);
    [rewrite Ed; cbn [dq_bottom]; lia|cbn [length]; lia|].
  exists d'. split; [done|]. destruct R' as [Rt Rb _ _]. unfold nkit_deque_size.
  destruct (Z.ltb_spec (dq_top d') (dq_bottom d')); [|lia].
  rewrite u32_small by (unfold is_u32; lia). lia.
Qed.

(** A push refused for want of memory, and accepted when it is tried again. *)
Definition demo_deque_ops : list (deque_op * (bool * bool)) :=
  let got o := (o, (true, true)) in
  [got (DPush 7); got (DPush 8); (DPush 9, (false, true)); (DPush 9, (true, false));
   got DSteal; got DPop; got DPop; got DPop].

Lemma deque_refines_list_witness :
  match nkit_deque_create 0 true true true 0 2 with
  | Some d =>
      (list_calls [] 2 demo_deque_ops).2 =
        [Pushed 7; Pushed 8; PushFailed; Pushed 9; Stolen 1 7; Popped 0 9; Popped 0 8; Nothing 0] ∧
      ∃ d', deque_calls 21 d demo_deque_ops = Some (d', (list_calls [] 2 demo_deque_ops).2) ∧
        nkit_deque_size d' = 0
  | None => False
  end.
Proof.
  destruct (nkit_deque_create 0 true true true 0 2) as [d|] eqn:E; [|by vm_compute in E]. split; [done|].
  exact (deque_refines_list 0 1 d demo_deque_ops ltac:(lia) E ltac:(by vm_compute)).
Defined.
