(* ===== verification/DequeOwner.v ===== *)
(** * Handing a deque from one owner to the next (src/structs/deque.c)

    [Deque] fixes the thread that pushes and pops.  A deque whose pushes and pops
    are made by changing threads, one at a time, is as good: between two calls
    nobody owns it, and any thread may.  [dq_held o] is the deque's invariant with
    the thread [o] inside a push or a pop, or with none. *)

From stdpp Require Import prelude.
From Stdlib Require Import ZArith Lia.
From S2P Require Import Prelude Words Deque.
Local Open Scope Z_scope.

(** ** The calls, one access at a time *)

(** The item of a push in progress. *)
Definition push_data (pc : dq_pc) : option Z :=
  match pc with
  | DqPushBottom x | DqPushTop _ x | DqPushStore _ _ x | DqPushPublish _ x => Some x
  | DqPushArray f | DqPushAgain f | DqGrowBottom f | DqGrowTop f _ | DqGrowArray f _ _
  | DqGrowAlloc f _ _ _ | DqGrowCopy f _ _ _ _ | DqGrowPublish f _ _ | DqGrowRetire f _ => Some (pf_data f)
  | _ => None
  end.

Definition in_pop (pc : dq_pc) : bool :=
  match pc with
  | DqPopBottom | DqPopArray _ | DqPopStore _ _ | DqPopTop _ _ | DqPopRead _ _ _ | DqPopCas _ _
  | DqPopRestore _ _ => true
  | _ => false
  end.

(** An access of a push goes on with the same item, or returns. *)
Lemma push_advance d x ok pc d' pc' es w :
  dqs_threads d !! w = Some pc → push_data pc = Some x →
  dq_step d (DqAdvance w ok) = Some (d', es) → dqs_threads d' !! w = Some pc' →
  (es = [] ∧ push_data pc' = Some x) ∨ (pc' = DqIdle ∧ (es = [Pushed x] ∨ es = [PushFailed])).
Proof.
  intros Hw Hx Hs Hw'. cbn [dq_step] in Hs. rewrite Hw in Hs.
  pose proof (lookup_lt_Some _ _ _ Hw) as Hlt.
  assert (Hn : pop_step (dqs_deque d) w pc = None ∧ steal_step (dqs_deque d) w pc = None) by by destruct pc.
  destruct Hn as [Hp Hst]. rewrite Hp, Hst in Hs.
  destruct (push_step (dqs_deque d) pc ok) as [[[d1 pc1] es1]|] eqn:E; [|done]. simplify_eq.
  cbn [dqs_threads] in Hw'. rewrite list_lookup_insert_eq in Hw' by done. simplify_eq.
  destruct pc; cbn [push_data push_step] in *; simplify_eq; repeat case_match; simplify_eq; auto.
Qed.

(** An access of a pop goes on, or returns with an item or without. *)
Lemma pop_advance d ok pc d' pc' es w :
  dqs_threads d !! w = Some pc → in_pop pc = true →
  dq_step d (DqAdvance w ok) = Some (d', es) → dqs_threads d' !! w = Some pc' →
  (es = [] ∧ in_pop pc' = true) ∨ (pc' = DqIdle ∧ (es = [Nothing w] ∨ ∃ x, es = [Popped w x])).
Proof.
  intros Hw Hx Hs Hw'. cbn [dq_step] in Hs. rewrite Hw in Hs.
  pose proof (lookup_lt_Some _ _ _ Hw) as Hlt.
  assert (Hn : push_step (dqs_deque d) pc ok = None ∧ steal_step (dqs_deque d) w pc = None) by by destruct pc.
  destruct Hn as [Hp Hst]. rewrite Hp, Hst in Hs.
  destruct (pop_step (dqs_deque d) w pc) as [[[d1 pc1] es1]|] eqn:E; [|done]. simplify_eq.
  cbn [dqs_threads] in Hw'. rewrite list_lookup_insert_eq in Hw' by done. simplify_eq.
  destruct pc; cbn [in_pop pop_step] in *; simplify_eq; repeat case_match; simplify_eq; eauto.
Qed.

(** Only the place that moves changes. *)
Lemma dq_step_other d l d' es w :
  dq_step d l = Some (d', es) →
  match l with DqPush u _ | DqPop u | DqSteal u | DqAdvance u _ => w ≠ u end →
  dqs_threads d' !! w = dqs_threads d !! w.
Proof.
  intros Hs Hw. destruct l as [u x|u|u|u ok]; cbn [dq_step] in Hs;
    (destruct (dqs_threads d !! u) as [pc|] eqn:Hu; [|done]).
  1-3: destruct pc; simplify_eq; cbn [dqs_threads]; by rewrite list_lookup_insert_ne.
  repeat case_match; simplify_eq; cbn [dqs_threads]; by rewrite list_lookup_insert_ne.
Qed.

(** ** Ownership *)

(** An owner outside any call may be replaced by any thread outside any call. *)
Lemma owner_transfer o o' n d items :
  dq_good o n d items → dqs_threads d !! o = Some DqIdle → dqs_threads d !! o' = Some DqIdle →
  dq_good o' n d items.
Proof.
  intros (pc & c & r & sz & I & Hi) Ho Ho'. exists pc, c, r, sz. split; [|done].
  pose proof (iv_pc _ _ _ _ _ _ _ I) as Hpc. simplify_eq. destruct I. split; auto.
  intros u pc' Hu Hpc'. destruct (decide (u = o)) as [->|Hne]; [by simplify_eq|eauto].
Qed.

(** A caller that never calls. *)
Definition with_nobody (d : dq_state) : dq_state := mk_dqs (dqs_deque d) (dqs_threads d ++ [DqIdle]).
Definition holder (d : dq_state) (o : option nat) : nat := from_option id (length (dqs_threads d)) o.

Definition dq_held (n : nat) (d : dq_state) (items : list Z) (o : option nat) : Prop :=
  dq_good (holder d o) (Z.of_nat n) (with_nobody d) items.

Lemma step_with_nobody d l d' es :
  dq_step d l = Some (d', es) →
  dq_step (with_nobody d) l = Some (with_nobody d', es) ∧ length (dqs_threads d') = length (dqs_threads d).
Proof.
  unfold with_nobody. destruct d as [d ths]. intros Hs. cbn [dqs_deque dqs_threads].
  destruct l as [u x|u|u|u ok]; cbn [dq_step dqs_threads dqs_deque] in *;
    (destruct (ths !! u) as [pc|] eqn:Hu; [|done]); pose proof (lookup_lt_Some _ _ _ Hu) as Hlt;
    rewrite (lookup_app_l_Some _ _ _ _ Hu).
  1-3: destruct pc; simplify_eq; cbn [dqs_threads dqs_deque];
    rewrite insert_app_l, length_insert by done; done.
  repeat case_match; simplify_eq; cbn [dqs_threads dqs_deque];
    rewrite insert_app_l, length_insert by done; done.
Qed.

Lemma nobody_idle d : dqs_threads (with_nobody d) !! length (dqs_threads d) = Some DqIdle.
Proof. cbn. by rewrite lookup_app_r, Nat.sub_diag. Qed.

Lemma somebody d u pc : dqs_threads d !! u = Some pc → dqs_threads (with_nobody d) !! u = Some pc.
Proof. apply lookup_app_l_Some. Qed.

Lemma dq_held_mono n n' d items o : dq_held n d items o → (n ≤ n')%nat → dq_held n' d items o.
Proof.
  intros (pc & c & r & sz & I & Hi) Hn. exists pc, c, r, sz. split; [|done].
  apply (dq_inv_mono _ (Z.of_nat n)); [done|lia].
Qed.

(** Any access of a held deque that respects its holder. *)
Lemma held_step n d items o l d' es :
  dq_held n d items o → Z.of_nat (S n) < 2 ^ 30 → respects (holder d o) l → dq_step d l = Some (d', es) →
  ∃ items', dq_held (S n) d' items' o ∧ pushes es ++ items ≡ₚ taken es ++ items'.
Proof.
  intros Hg Hn Hl Hs. set (es0 := Pushed <$> items).
  assert (Hp : pushes es0 = items) by (unfold pushes, es0; clear; induction items; cbn; congruence).
  assert (Ht : taken es0 = []) by (unfold taken, es0; clear; induction items; cbn; congruence).
  assert (C : conserves (holder d o) n es0 (with_nobody d)).
  { intros _. exists items. split; [done|]. by rewrite Hp, Ht. }
  destruct (step_with_nobody _ _ _ _ Hs) as [Hs' El].
  destruct (conserves_step _ n es0 _ l _ es Hl C Hs' Hn) as (items' & Hg' & Hb).
  exists items'. rewrite pushes_app, taken_app, Hp, Ht in Hb. cbn [app] in Hb. split.
  - unfold dq_held. replace (holder d' o) with (holder d o); [done|]. unfold holder. by rewrite El.
  - by rewrite Permutation_app_comm.
Qed.

(** A push or a pop begins: the caller becomes the holder. *)
Lemma held_begins n d items l u d' es :
  dq_held n d items None → Z.of_nat (S n) < 2 ^ 30 → (∃ x, l = DqPush u x) ∨ l = DqPop u →
  dq_step d l = Some (d', es) → es = [] ∧ dq_held (S n) d' items (Some u) ∧
  dqs_threads d' !! u = Some (match l with DqPush _ x => DqPushBottom x | _ => DqPopBottom end).
Proof.
  intros Hg Hn Hl Hs.
  assert (H : dqs_threads d !! u = Some DqIdle ∧ es = [] ∧
    d' = mk_dqs (dqs_deque d) (<[u := match l with DqPush _ x => DqPushBottom x | _ => DqPopBottom end]> (dqs_threads d))).
  { destruct Hl as [[x ->]| ->]; cbn [dq_step] in Hs;
      (destruct (dqs_threads d !! u) as [[]|] eqn:E; simplify_eq; done). }
  destruct H as (Hu & -> & Ed). split; [done|].
  assert (Hg' : dq_held n d items (Some u)).
  { apply (owner_transfer (holder d None)); [done|apply nobody_idle|]. cbn. by apply somebody. }
  destruct (held_step n d items (Some u) l d' [] Hg' Hn) as (items' & H1 & H2).
  { by destruct Hl as [[x ->]| ->]. } { done. }
  split.
  - destruct H1 as (pc & c & r & sz & I & Hi). exists pc, c, r, sz. split; [done|]. by rewrite <-Hi.
  - subst d'. cbn. apply list_lookup_insert_eq. by eapply lookup_lt_Some.
Qed.

(** The holder's call has returned: nobody holds the deque. *)
Lemma held_returns n d items u :
  dq_held n d items (Some u) → dqs_threads d !! u = Some DqIdle → dq_held n d items None.
Proof.
  intros Hg Hu. apply (owner_transfer u); [done|by apply somebody|apply nobody_idle].
Qed.

(** An access of a thief: it goes on, or returns with an item or without. *)
Lemma thief_advance n d items o ok d' es u :
  dq_held n d items o → o ≠ Some u → dq_step d (DqAdvance u ok) = Some (d', es) →
  es = [] ∨ es = [Nothing u] ∨ ∃ x, es = [Stolen u x].
Proof.
  intros (pc & c & r & sz & I & _) Hw Hs. cbn [dq_step] in Hs.
  destruct (dqs_threads d !! u) as [pcu|] eqn:Hu; [|done].
  assert (Hne : u ≠ holder d o).
  { destruct o as [o|]; cbn; [congruence|]. apply lookup_lt_Some in Hu. lia. }
  pose proof (iv_thieves _ _ _ _ _ _ _ I u pcu Hne (somebody _ _ _ Hu)) as Hth.
  destruct (thief_pc_steals _ _ _ _ ok u Hth) as [E1 E2]. cbn in E1, E2. rewrite E1, E2 in Hs.
  destruct (steal_step (dqs_deque d) u pcu) as [[[d1 pc1] es1]|] eqn:E3; [|done]. simplify_eq.
  destruct pcu; cbn [steal_step] in E3; simplify_eq; repeat case_match; simplify_eq; eauto.
Qed.

(** A new deque. *)
Lemma held_start node k listed n :
  0 ≤ k ≤ 31 → dq_held 0 (dq_start node (2 ^ k) listed n) [] None.
Proof.
  intros Hk. unfold dq_held, holder, with_nobody. cbn [dq_start dqs_threads dqs_deque from_option].
  rewrite length_replicate, <-(replicate_S_end n DqIdle). apply (dq_start_good n node k listed (S n)); [done|lia].
Qed.

Lemma held_size n d items :
  dq_held n d items None → Z.of_nat n < 2 ^ 30 → nkit_deque_size (dqs_deque d) = Z.of_nat (length items).
Proof. intros Hg Hn. by apply (good_size _ _ _ _ Hg Hn), nobody_idle. Qed.
