(* ===== verification/TaskPool.v ===== *)
(** * The task pool (src/sched/task_pool.c)

    Every node has a work-stealing deque of waiting tasks, a ring of unused task
    structures and worker threads; a submission takes a structure from the ring,
    fills it in and pushes it, a worker pops or steals it, runs it and gives the
    structure back to the ring it came from.

    The pool is a step system over [Deque]: workers and submitters interleave at
    every access the deque's calls make.  An operation of a ring is one step, which
    [RingLin] justifies: it takes effect at one moment, or it is refused because the
    ring is full or empty, or because another thread is halfway through a call on
    it.  The pool may meet the last refusal at any call, as it does not see the
    ring's steps.  Thread [u] of the pool is caller [u] of every deque.
    The deque wants its pushes and pops made by one thread at a time; the pool does
    not see to that, and neither does the model. *)

From stdpp Require Import prelude gmap.
From Stdlib Require Import ZArith Lia.
From S2P Require Import Prelude Words Ring Deque.
Local Open Scope Z_scope.

(** ** Data *)

(** [task_home]: the node whose free queue the structure belongs to. *)
Record nkit_task_t := mk_task {
  task_func : Z;
  task_arg : Z;
  task_home : nat;
}.

(** [np_task_queue] is the deque with the place of each caller in it; a NULL
    [steal_order] is [None]; [np_threads] holds the handles [pthread_create] wrote, a
    handle being the number of the thread and [None] where creation failed and wrote
    nothing; [np_live] is false once destroy has freed the node's queues. *)
Record nkit_node_pool_t (Q : Type) := mk_np {
  np_capacity : Z;
  np_task_queue : dq_state;
  np_free_queue : Q;
  np_threads : list (option nat);
  np_started : nat;
  np_steal_order : option (list nat);
  np_live : bool;
}.
Arguments mk_np {Q}.
Arguments np_capacity {Q}.
Arguments np_task_queue {Q}.
Arguments np_free_queue {Q}.
Arguments np_threads {Q}.
Arguments np_started {Q}.
Arguments np_steal_order {Q}.
Arguments np_live {Q}.

Definition with_queue {Q} (np : nkit_node_pool_t Q) (d : dq_state) : nkit_node_pool_t Q :=
  mk_np (np_capacity np) d (np_free_queue np) (np_threads np) (np_started np) (np_steal_order np) (np_live np).
Definition with_free {Q} (np : nkit_node_pool_t Q) (r : Q) : nkit_node_pool_t Q :=
  mk_np (np_capacity np) (np_task_queue np) r (np_threads np) (np_started np) (np_steal_order np) (np_live np).
Definition freed {Q} (np : nkit_node_pool_t Q) : nkit_node_pool_t Q :=
  mk_np (np_capacity np) (np_task_queue np) (np_free_queue np) (np_threads np) (np_started np) (np_steal_order np) false.
Definition with_threads {Q} (np : nkit_node_pool_t Q) (hs : list (option nat)) (n : nat) : nkit_node_pool_t Q :=
  mk_np (np_capacity np) (np_task_queue np) (np_free_queue np) hs n (np_steal_order np) (np_live np).

(** A thread: a worker of node [n] inside [_nkit_worker], or a submitter. *)
Inductive tp_pc :=
| WkStop (n : nat) (idle : Z)               (* while (!global_pool->stop) *)
| WkInPop (n : nat) (idle : Z)              (* inside nkit_deque_pop *)
| WkSteal (n i : nat) (idle : Z)            (* the test of the stealing loop *)
| WkInSteal (n i : nat) (idle : Z)          (* inside nkit_deque_steal *)
| WkRun (n : nat) (x : Z)                   (* task->func(task->arg) *)
| WkReturn (n : nat) (x : Z)                (* nkit_ring_push(task->home_free_queue, task) *)
| WkExit (n : nat)
| ClIdle
| ClPush (q : nat) (x f a spins : Z)        (* nkit_deque_push is called *)
| ClInPush (q : nat) (x f a spins : Z).     (* inside it *)

(** [nkit_pool_destroy]. *)
Inductive destroy_pc :=
| DsRunning
| DsJoin (i t : nat)
| DsFree (i : nat)
| DsDone.

Record pool_state (Q : Type) := mk_pool {
  ps_nodes : list (nkit_node_pool_t Q);
  ps_tasks : gmap Z nkit_task_t;
  ps_stop : bool;
  ps_threads : list tp_pc;
  ps_destroy : destroy_pc;
}.
Arguments mk_pool {Q}.
Arguments ps_nodes {Q}.
Arguments ps_tasks {Q}.
Arguments ps_stop {Q}.
Arguments ps_threads {Q}.
Arguments ps_destroy {Q}.

Inductive tp_event :=
| Rejected                        (* submit returns -1 *)
| Submitted (x f a : Z)           (* submit of [f] and [a] returns 0 *)
| Executed (x f a : Z).           (* a worker has run the task *)

(** ** Idling *)

Inductive backoff_action := Pause | Yield | Sleep.

(** The counter is an [int]: incrementing the largest one is undefined. *)
Definition nkit_backoff (spin_count : Z) : outcome (backoff_action * Z) :=
  let action :=
    if spin_count <? 2000 then Pause else if spin_count <? 5000 then Yield else Sleep in
  if spin_count =? 2 ^ 31 - 1 then UB else Ret (action, spin_count + 1).

Section steps.
Context {Q : Type} {BQ : BoundedQueue Q}.
Implicit Types (s : pool_state Q) (nodes : list (nkit_node_pool_t Q)).

(** An access to the deque of node [q]: undefined when the node has been freed. *)
Definition on_deque nodes (q : nat) (l : dq_label) : option (list (nkit_node_pool_t Q) * list dq_event) :=
  match nodes !! q with
  | Some np =>
      if np_live np then
        match dq_step (np_task_queue np) l with
        | Some (d, es) => Some (<[q := with_queue np d]> nodes, es)
        | None => None
        end
      else None
  | None => None
  end.

(** [steal_order[i]] of node [n], when the stealing loop goes on. *)
Definition steal_target nodes (n i : nat) : option nat :=
  match nodes !! n with
  | Some np =>
      match np_steal_order np with
      | Some order =>
          if (1 <? length nodes)%nat && (i <? length nodes - 1)%nat then order !! i else None
      | None => None
      end
  | None => None
  end.

(** The structure's memory: it is freed with its node. *)
Definition task_live nodes (t : nkit_task_t) : bool :=
  match nodes !! task_home t with Some np => np_live np | None => false end.

(** One access of thread [u]; [ok] is the result of an allocation, and false for a
    push to a ring that is refused with another thread halfway. *)
Definition thread_step s (u : nat) (pc : tp_pc) (ok : bool) : option (pool_state Q * list tp_event) :=
  let go nodes pc' es :=
    Some (mk_pool nodes (ps_tasks s) (ps_stop s) (<[u := pc']> (ps_threads s)) (ps_destroy s), es) in
  match pc with
  | WkStop n idle =>
      if ps_stop s then go (ps_nodes s) (WkExit n) [] else
      match on_deque (ps_nodes s) n (DqPop u) with
      | Some (nodes, _) => go nodes (WkInPop n idle) []
      | None => None
      end
  | WkInPop n idle =>
      match on_deque (ps_nodes s) n (DqAdvance u ok) with
      | Some (nodes, Popped _ x :: _) => go nodes (WkRun n x) []
      | Some (nodes, Nothing _ :: _) => go nodes (WkSteal n 0 idle) []
      | Some (nodes, _) => go nodes (WkInPop n idle) []
      | None => None
      end
  | WkSteal n i idle =>
      match steal_target (ps_nodes s) n i with
      | Some t =>
          match on_deque (ps_nodes s) t (DqSteal u) with
          | Some (nodes, _) => go nodes (WkInSteal n i idle) []
          | None => None
          end
      | None =>
          match nkit_backoff idle with
          | Ret (_, idle) => go (ps_nodes s) (WkStop n idle) []
          | UB => None
          end
      end
  | WkInSteal n i idle =>
      match steal_target (ps_nodes s) n i with
      | Some t =>
          match on_deque (ps_nodes s) t (DqAdvance u ok) with
          | Some (nodes, Stolen _ x :: _) => go nodes (WkRun n x) []
          | Some (nodes, Nothing _ :: _) => go nodes (WkSteal n (S i) idle) []
          | Some (nodes, _) => go nodes (WkInSteal n i idle) []
          | None => None
          end
      | None => None
      end
  | WkRun n x =>
      match ps_tasks s !! x with
      | Some t =>
          if task_live (ps_nodes s) t then go (ps_nodes s) (WkReturn n x) [Executed x (task_func t) (task_arg t)]
          else None
      | None => None
      end
  | WkReturn n x =>
      match ps_tasks s !! x with
      | Some t =>
          match ps_nodes s !! task_home t with
          | Some np =>
              if np_live np then
                if negb ok then go (ps_nodes s) (WkReturn n x) [] else
                match bq_push (np_free_queue np) x with
                | Some (true, r) => go (<[task_home t := with_free np r]> (ps_nodes s)) (WkStop n 0) []
                | Some (false, r) => go (<[task_home t := with_free np r]> (ps_nodes s)) (WkReturn n x) []
                | None => None
                end
              else None
          | None => None
          end
      | None => None
      end
  | WkExit _ | ClIdle => None
  | ClPush q x f a spins =>
      match on_deque (ps_nodes s) q (DqPush u x) with
      | Some (nodes, _) => go nodes (ClInPush q x f a spins) []
      | None => None
      end
  | ClInPush q x f a spins =>
      match on_deque (ps_nodes s) q (DqAdvance u ok) with
      | Some (nodes, Pushed _ :: _) =>
          go nodes ClIdle [Submitted x f a]
      | Some (nodes, PushFailed :: _) =>
          match nkit_backoff spins with
          | Ret (_, spins) => go nodes (ClPush q x f a spins) []
          | UB => None
          end
      | Some (nodes, _) => go nodes (ClInPush q x f a spins) []
      | None => None
      end
  end.

(** The node a submission goes to. *)
Definition submit_node nodes (target_node : Z) : nat :=
  if (target_node <? 0) || (Z.of_nat (length nodes) <=? target_node) then 0%nat else Z.to_nat target_node.

(** [nkit_pool_submit_to_node] up to its push: take a structure, fill it in. *)
Definition nkit_pool_submit_to_node s (u : nat) (target_node func arg : Z)
    : option (pool_state Q * list tp_event) :=
  let q := submit_node (ps_nodes s) target_node in
  match ps_nodes s !! q with
  | Some np =>
      if np_live np then
        match bq_pop (np_free_queue np) with
        | Some (None, r) =>
            Some (mk_pool (<[q := with_free np r]> (ps_nodes s)) (ps_tasks s) (ps_stop s)
                    (ps_threads s) (ps_destroy s), [Rejected])
        | Some (Some x, r) =>
            match ps_tasks s !! x with
            | Some t =>
                Some (mk_pool (<[q := with_free np r]> (ps_nodes s))
                        (<[x := mk_task func arg (task_home t)]> (ps_tasks s)) (ps_stop s)
                        (<[u := ClPush q x func arg 0]> (ps_threads s)) (ps_destroy s), [])
            | None => None
            end
        | None => None
        end
      else None
  | None => None
  end.

(** The same when the pop is refused with another thread halfway. *)
Definition submit_refused s (target_node : Z) : option (pool_state Q * list tp_event) :=
  match ps_nodes s !! submit_node (ps_nodes s) target_node with
  | Some np => if np_live np then Some (s, [Rejected]) else None
  | None => None
  end.

(** [nkit_pool_submit_local]: [pages] is what [move_pages] wrote to [status[0]]
    when it returned 0. *)
Definition local_node (pages : option Z) : Z :=
  match pages with Some st => if 0 <=? st then st else 0 | None => 0 end.

Definition nkit_pool_submit_local s (u : nat) (pages : option Z) (func data_ptr : Z)
    : option (pool_state Q * list tp_event) :=
  nkit_pool_submit_to_node s u (local_node pages) func data_ptr.

(** [pthread_join] of a handle: it returns when the thread has; a handle that was
    never written is no thread's, and joining it is undefined. *)
Definition joinable s (h : option nat) : bool :=
  match h with
  | Some u => match ps_threads s !! u with Some (WkExit _) => true | _ => false end
  | None => false
  end.

(** [nkit_pool_destroy]: set [stop]; then, node by node, join
    [threads[0 .. threads_started)] and free the node's queues and structures. *)
Definition nkit_pool_destroy s : option (pool_state Q * list tp_event) :=
  let go nodes stop ds := Some (mk_pool nodes (ps_tasks s) stop (ps_threads s) ds, []) in
  match ps_destroy s with
  | DsRunning => go (ps_nodes s) true (DsJoin 0 0)
  | DsJoin i t =>
      match ps_nodes s !! i with
      | Some np =>
          if (t <? np_started np)%nat then
            match np_threads np !! t with
            | Some h => if joinable s h then go (ps_nodes s) (ps_stop s) (DsJoin i (S t)) else None
            | None => None
            end
          else go (ps_nodes s) (ps_stop s) (DsFree i)
      | None => go (ps_nodes s) (ps_stop s) DsDone
      end
  | DsFree i => go (alter freed i (ps_nodes s)) (ps_stop s) (DsJoin (S i) 0)
  | DsDone => None
  end.

(** [TpSubmit], [TpSubmitLocal]: an idle submitter calls; [TpBusy]: it calls and the
    pop of the free queue is refused; [TpGo]: a thread's next access; [TpDestroy]:
    the next step of destroy. *)
Inductive tp_label :=
| TpSubmit (u : nat) (target f a : Z)
| TpSubmitLocal (u : nat) (pages : option Z) (f a : Z)
| TpBusy (u : nat) (target : Z)
| TpGo (u : nat) (ok : bool)
| TpDestroy.

Definition tp_step s (l : tp_label) : option (pool_state Q * list tp_event) :=
  match l with
  | TpSubmit u target f a =>
      match ps_threads s !! u with
      | Some ClIdle => nkit_pool_submit_to_node s u target f a
      | _ => None
      end
  | TpSubmitLocal u pages f a =>
      match ps_threads s !! u with
      | Some ClIdle => nkit_pool_submit_local s u pages f a
      | _ => None
      end
  | TpBusy u target =>
      match ps_threads s !! u with
      | Some ClIdle => submit_refused s target
      | _ => None
      end
  | TpGo u ok => match ps_threads s !! u with Some pc => thread_step s u pc ok | None => None end
  | TpDestroy => nkit_pool_destroy s
  end.
End steps.

(** ** Creation *)

(** What the outside answers: libnuma, the allocators (for the deque of a node the
    two allocations it checks and, in [po_deque_list], the one it does not),
    [nkit_ring_create], the base address of a node's task
    structures, [qsort], and whether each thread starts. *)
Record pool_os (Q : Type) := {
  po_numa_available : Z;
  po_malloc_pool : bool;
  po_max_node : Z;
  po_calloc_nodes : bool;
  po_cpus : Z;
  po_deque : nat → bool * bool;
  po_deque_list : nat → bool;
  po_ring : nat → Z → option Q;
  po_array : nat → option Z;
  po_malloc_threads : nat → bool;
  po_malloc_order : nat → bool;
  po_distance : nat → nat → Z;
  po_qsort : (nat → nat → Z) → list nat → list nat;
  po_thread : nat → nat → bool;
}.
Arguments po_numa_available {Q}.
Arguments po_malloc_pool {Q}.
Arguments po_max_node {Q}.
Arguments po_calloc_nodes {Q}.
Arguments po_cpus {Q}.
Arguments po_deque {Q}.
Arguments po_deque_list {Q}.
Arguments po_ring {Q}.
Arguments po_array {Q}.
Arguments po_malloc_threads {Q}.
Arguments po_malloc_order {Q}.
Arguments po_distance {Q}.
Arguments po_qsort {Q}.
Arguments po_thread {Q}.

Section creation.
Context {Q : Type} {BQ : BoundedQueue Q} (os : pool_os Q).

Definition num_nodes : nat := Z.to_nat (po_max_node os + 1).

Definition cpus_per_node : Z :=
  let c := po_cpus os / Z.of_nat num_nodes in if c =? 0 then 1 else c.

Definition ring_capacity : Z :=
  let c := next_power_of_2_u32 (u32 (cpus_per_node * 1024)) in if c <? 1024 then 1024 else c.

(** [sizeof(nkit_task_t)] *)
Definition TASK_SIZE : Z := 24.

(** [&np->task_array[j]] for each [j], from the array's base address. *)
Definition task_ptrs (base : Z) : list Z := (λ j, base + TASK_SIZE * j) <$> seqZ 0 ring_capacity.

(** Pushing every structure to the free queue; the results are not looked at. *)
Fixpoint populate (r : Q) (ptrs : list Z) : option Q :=
  match ptrs with
  | [] => Some r
  | x :: ptrs => match bq_push r x with Some (_, r) => populate r ptrs | None => None end
  end.

Definition cmp_distance (my_node a b : nat) : Z := po_distance os my_node a - po_distance os my_node b.

(** The other nodes, in order, sorted by distance. *)
Definition build_steal_order (i : nat) : list nat :=
  po_qsort os (cmp_distance i) (filter (λ j, j ≠ i) (seq 0 num_nodes)).

(** The memory the pool owns, by the pointer it hangs from. *)
Inductive pool_mem :=
| MemPool
| MemNodes
| MemDeque (i : nat)
| MemRing (i : nat)
| MemTasks (i : nat)
| MemThreads (i : nat)
| MemOrder (i : nat).

Definition held_mem {A} (p : option A) (m : pool_mem) : list pool_mem := match p with Some _ => [m] | None => [] end.

(** One node in phase 1, with the memory its pointers then hold; no node when its
    queues or structures cannot be had, undefined when the two unchecked allocations
    fail.  [slots] is the number of callers of the deque. *)
Definition create_node (slots : nat) (i : nat) : outcome (option (nkit_node_pool_t Q) * list pool_mem) :=
  let dq := nkit_deque_create (po_numa_available os) (po_deque os i).1 (po_deque os i).2 (po_deque_list os i)
              (Z.of_nat i) ring_capacity in
  let r := po_ring os i ring_capacity in
  let base := po_array os i in
  let mem := held_mem dq (MemDeque i) ++ held_mem r (MemRing i) ++ held_mem base (MemTasks i) in
  match dq, r, base with
  | Some dq, Some r, Some base =>
      match populate r (task_ptrs base) with
      | None => UB
      | Some r =>
          if negb (po_malloc_threads os i) then UB else
          let np order := mk_np ring_capacity (mk_dqs dq (replicate slots DqIdle)) r
                            (replicate (Z.to_nat cpus_per_node) None) 0 order true in
          if (1 <? num_nodes)%nat then
            if negb (po_malloc_order os i) then UB
            else Ret (Some (np (Some (build_steal_order i))), mem ++ [MemThreads i; MemOrder i])
          else Ret (Some (np None), mem ++ [MemThreads i])
      end
  | _, _, _ => Ret (None, mem)
  end.

(** Phase 1 up to the first node that fails. *)
Fixpoint create_nodes (slots : nat) (ids : list nat)
    : outcome (option (list (nkit_node_pool_t Q)) * list pool_mem) :=
  match ids with
  | [] => Ret (Some [], [])
  | i :: ids =>
      let* r := create_node slots i in
      match r with
      | (None, mem) => Ret (None, mem)
      | (Some np, mem) => let* rs := create_nodes slots ids in Ret ((λ l, np :: l) <$> rs.1, mem ++ rs.2)
      end
  end.

(** [nkit_pool_destroy] on a pool whose phase 1 failed: no worker has started, and
    every pointer that is not NULL is freed, node by node. *)
Definition destroy_partial (mem : list pool_mem) : list pool_mem := mem ++ [MemNodes; MemPool].

(** ** Phase 2 *)

(** Whether each of a node's [pthread_create] calls succeeds. *)
Definition thread_results (i : nat) : list bool := po_thread os i <$> seq 0 (Z.to_nat cpus_per_node).

(** The handles they leave, when the next thread to start is number [next]. *)
Fixpoint thread_handles (next : nat) (oks : list bool) : list (option nat) :=
  match oks with
  | [] => []
  | true :: oks => Some next :: thread_handles (S next) oks
  | false :: oks => None :: thread_handles next oks
  end.

Definition started (oks : list bool) : nat := length (filter (λ ok, ok = true) oks).

Fixpoint start_nodes (next : nat) (ids : list nat) (nodes : list (nkit_node_pool_t Q)) : list (nkit_node_pool_t Q) :=
  match ids, nodes with
  | i :: ids, np :: nodes =>
      with_threads np (thread_handles next (thread_results i)) (started (thread_results i)) ::
      start_nodes (next + started (thread_results i)) ids nodes
  | _, _ => nodes
  end.

(** The workers that start, at the top of their loop. *)
Definition start_workers : list tp_pc :=
  concat ((λ i, replicate (started (thread_results i)) (WkStop i 0)) <$> seq 0 num_nodes).

(** The task structures of all nodes. *)
Definition task_memory : gmap Z nkit_task_t :=
  list_to_map (concat ((λ i,
    match po_array os i with
    | Some base => (λ x, (x, mk_task 0 0 i)) <$> task_ptrs base
    | None => []
    end) <$> seq 0 num_nodes)).

(** [nkit_pool_create], with [clients] threads that will submit; with NULL, the
    memory that was freed again. *)
Definition nkit_pool_create (clients : nat) : outcome (option (pool_state Q) * list pool_mem) :=
  if po_numa_available os <? 0 then Ret (None, []) else
  if negb (po_malloc_pool os) then Ret (None, []) else
  if negb (po_calloc_nodes os) then UB else
  let threads := start_workers ++ replicate clients ClIdle in
  let* r := create_nodes (length threads) (seq 0 num_nodes) in
  match r with
  | (None, mem) => Ret (None, destroy_partial mem)
  | (Some nodes, _) =>
      Ret (Some (mk_pool (start_nodes 0 (seq 0 num_nodes) nodes) task_memory false threads DsRunning), [])
  end.
End creation.
