(* ===== verification/TaskPoolInv.v ===== *)
(** * The task pool: every task runs once (src/sched/task_pool.c)

    The runs of [TaskPool] in which the pushes and pops of one deque do not
    overlap.  The invariant: every task structure is in exactly one place (a free
    queue, a deque, or the hands of one thread), and the tasks accepted are the
    ones executed and the ones waiting.  It is proved step by step from the
    invariant of the deque, for any number of nodes, workers and submitters. *)

From stdpp Require Import prelude gmap.
From Stdlib Require Import ZArith Lia.
From S2P Require Import Prelude Words Ring Deque DequeOwner TaskPool.
Local Open Scope Z_scope.

(** ** What threads hold *)

(** A task structure that is in the hands of a thread. *)
Definition tp_hold (pc : tp_pc) : list Z :=
  match pc with WkRun _ x | WkReturn _ x | ClPush _ x _ _ _ | ClInPush _ x _ _ _ => [x] | _ => [] end.

(** An accepted task that a worker has taken and not run yet. *)
Definition tp_pending (pc : tp_pc) : list Z := match pc with WkRun _ x => [x] | _ => [] end.

(** The deque whose push or pop a thread is inside of. *)
Definition owner_call (pc : tp_pc) : list nat :=
  match pc with WkInPop n _ => [n] | ClInPush q _ _ _ _ => [q] | _ => [] end.

Definition submitted (es : list tp_event) : list (Z * Z) :=
  omap (λ e, match e with Submitted _ f a => Some (f, a) | _ => None end) es.
Definition executed (es : list tp_event) : list (Z * Z) :=
  omap (λ e, match e with Executed _ f a => Some (f, a) | _ => None end) es.

Definition content (tasks : gmap Z nkit_task_t) (x : Z) : Z * Z :=
  match tasks !! x with Some t => (task_func t, task_arg t) | None => (0, 0) end.

(** A submission in progress has filled its structure in. *)
Definition filled (tasks : gmap Z nkit_task_t) (pc : tp_pc) : Prop :=
  match pc with ClPush _ x f a _ | ClInPush _ x f a _ => content tasks x = (f, a) | _ => True end.

(** A step after which no two threads are inside a push or a pop of one deque. *)
Definition tp_step_owned {Q} {BQ : BoundedQueue Q} (s : pool_state Q) (l : tp_label)
    : option (pool_state Q * list tp_event) :=
  match tp_step s l with
  | Some (s', es) => if decide (NoDup (holdings owner_call (ps_threads s'))) then Some (s', es) else None
  | None => None
  end.

(** ** The invariant *)

Section invariant.
Context {Q : Type} {BQ : BoundedQueue Q}.
(** The task structures, and the node each belongs to. *)
Context (all : list Z) (home : Z → nat).
Implicit Types (s : pool_state Q) (nodes : list (nkit_node_pool_t Q)) (frees items : list (list Z)).

(** Where thread [u] is in the deque it pushes to or pops from. *)
Definition in_call nodes (u q : nat) (P : dq_pc → Prop) : Prop :=
  ∃ np p, nodes !! q = Some np ∧ dqs_threads (np_task_queue np) !! u = Some p ∧ P p.
Definition slot_ok nodes (u : nat) (pc : tp_pc) : Prop :=
  match pc with
  | ClInPush q x _ _ _ => in_call nodes u q (λ p, push_data p = Some x)
  | WkInPop n _ => in_call nodes u n (λ p, in_pop p = true)
  | _ => True
  end.

(** The thread that is inside a push or a pop of the deque of node [q]. *)
Definition caller_of (ths : list tp_pc) (q : nat) (o : option nat) : Prop :=
  match o with
  | Some u => ∃ pc, ths !! u = Some pc ∧ q ∈ owner_call pc
  | None => ∀ u pc, ths !! u = Some pc → q ∉ owner_call pc
  end.

(** [frees] and [items]: what the free queues and the deques hold. *)
Record pool_inv (n : nat) (es : list tp_event) s frees items : Prop := {
  pi_frees : length frees = length (ps_nodes s);
  pi_items : length items = length (ps_nodes s);
  pi_free q np f : ps_nodes s !! q = Some np → frees !! q = Some f → bq_rep (np_free_queue np) f;
  pi_deque q np it : ps_nodes s !! q = Some np → items !! q = Some it →
    ∃ o, dq_held n (np_task_queue np) it o ∧ caller_of (ps_threads s) q o;
  pi_perm : holdings id frees ++ holdings id items ++ holdings tp_hold (ps_threads s) ≡ₚ all;
  pi_tasks x : x ∈ all → ∃ t, ps_tasks s !! x = Some t ∧ task_home t = home x;
  pi_home q f x : frees !! q = Some f → x ∈ f → home x = q;
  pi_calls : NoDup (holdings owner_call (ps_threads s));
  pi_slots u pc : ps_threads s !! u = Some pc → slot_ok (ps_nodes s) u pc;
  pi_filled u pc : ps_threads s !! u = Some pc → filled (ps_tasks s) pc;
  pi_account : submitted es ≡ₚ executed es ++
    (content (ps_tasks s) <$> holdings id items ++ holdings tp_pending (ps_threads s));
}.

Lemma submitted_app es es' : submitted (es ++ es') = submitted es ++ submitted es'.
Proof. apply omap_app. Qed.
Lemma executed_app es es' : executed (es ++ es') = executed es ++ executed es'.
Proof. apply omap_app. Qed.

(** ** Callers *)

Lemma caller_unique ths q o u pc :
  NoDup (holdings owner_call ths) → caller_of ths q o → ths !! u = Some pc → q ∈ owner_call pc → o = Some u.
Proof.
  intros Hnd Ho Hu Hin. destruct o as [u'|]; cbn in Ho; [|by destruct (Ho u pc Hu)].
  destruct Ho as (pc' & Hu' & Hin'). f_equal. by apply (holdings_unique owner_call ths u' u pc' pc q).
Qed.

(** A thread that moves without beginning or ending a call of [q]. *)
Lemma caller_kept ths q o u pc pc' :
  caller_of ths q o → ths !! u = Some pc → (q ∈ owner_call pc ↔ q ∈ owner_call pc') →
  caller_of (<[u := pc']> ths) q o.
Proof.
  intros Ho Hu Hiff. pose proof (lookup_lt_Some _ _ _ Hu) as Hlt. destruct o as [u'|]; cbn in *.
  - destruct Ho as (pc0 & Hu0 & Hin). rewrite lookup_insert_decide by done.
    case_decide; simplify_eq; [exists pc'; by rewrite <-Hiff|eauto].
  - apply (forall_insert (λ _ pc0, q ∉ owner_call pc0)); [rewrite <-Hiff; eauto|eauto].
Qed.

(** The caller begins: nobody was inside. *)
Lemma caller_begins ths q o u pc pc' :
  NoDup (holdings owner_call (<[u := pc']> ths)) → caller_of ths q o → ths !! u = Some pc →
  owner_call pc = [] → owner_call pc' = [q] → o = None ∧ caller_of (<[u := pc']> ths) q (Some u).
Proof.
  intros Hnd Ho Hu Hc Hc'. pose proof (lookup_lt_Some _ _ _ Hu) as Hlt.
  assert (Hu' : caller_of (<[u := pc']> ths) q (Some u)).
  { exists pc'. rewrite list_lookup_insert_eq, Hc' by done. split; [done|left]. }
  split; [|done]. destruct o as [v|]; [|done]. destruct Ho as (pcv & Hv & Hin).
  assert (v ≠ u) by (intros ->; simplify_eq; rewrite Hc in Hin; by apply elem_of_nil in Hin).
  assert (Some u = Some v) by (apply (caller_unique _ _ _ v pcv Hnd Hu'); [by rewrite list_lookup_insert_ne|done]).
  congruence.
Qed.

(** The caller returns. *)
Lemma caller_returns ths q u pc pc' :
  NoDup (holdings owner_call ths) → ths !! u = Some pc → owner_call pc = [q] → owner_call pc' = [] →
  caller_of (<[u := pc']> ths) q None.
Proof.
  intros Hnd Hu Hc Hc'. unfold caller_of. apply (forall_insert (λ _ pc0, q ∉ owner_call pc0)).
  - rewrite Hc'. apply not_elem_of_nil.
  - intros v pcv Hne Hv Hin. apply Hne.
    apply (holdings_unique owner_call ths v u pcv pc q); auto. rewrite Hc. left.
Qed.

(** ** Steps on a deque *)

Lemma on_deque_Some nodes q l nodes' des :
  on_deque nodes q l = Some (nodes', des) →
  ∃ np d, nodes !! q = Some np ∧ np_live np = true ∧ dq_step (np_task_queue np) l = Some (d, des) ∧
          nodes' = <[q := with_queue np d]> nodes.
Proof.
  unfold on_deque. intros H. destruct (nodes !! q) as [np|] eqn:Hq; [|done].
  destruct (np_live np) eqn:Hl; [|done]. destruct (dq_step (np_task_queue np) l) as [[d es]|] eqn:Hd; [|done].
  simplify_eq. by exists np, d.
Qed.

(** Which caller an access of a deque is made by. *)
Definition place (l : dq_label) : nat :=
  match l with DqPush w _ | DqPop w | DqSteal w | DqAdvance w _ => w end.

Lemma slot_ok_kept nodes q np l d des u pc :
  nodes !! q = Some np → dq_step (np_task_queue np) l = Some (d, des) → u ≠ place l →
  slot_ok nodes u pc → slot_ok (<[q := with_queue np d]> nodes) u pc.
Proof.
  intros Hq Hs Hu. pose proof (lookup_lt_Some _ _ _ Hq) as Hlt.
  assert (Hkeep : ∀ q' P, in_call nodes u q' P → in_call (<[q := with_queue np d]> nodes) u q' P).
  { intros q' P (np' & p & Hq' & Hp & HP). unfold in_call. rewrite lookup_insert_decide by done.
    case_decide as E; [|eauto]. subst. rewrite Hq in Hq'. simplify_eq. eexists _, p. split; [done|].
    split; [|done]. cbn. rewrite (dq_step_other _ _ _ _ u Hs); [done|]. by destruct l. }
  destruct pc; cbn [slot_ok]; auto.
Qed.

(** Thread [u] makes an access to the deque of node [q] and moves from [pc] to
    [pc']; [new] are the tasks that become pending. *)
Lemma deque_moves n es s frees items u pc pc' q np it l d des it' o' tes new :
  pool_inv n es s frees items → ps_threads s !! u = Some pc →
  ps_nodes s !! q = Some np → items !! q = Some it → dq_step (np_task_queue np) l = Some (d, des) → place l = u →
  dq_held (S n) d it' o' → pushes des ++ it ≡ₚ taken des ++ it' →
  NoDup (holdings owner_call (<[u := pc']> (ps_threads s))) → caller_of (<[u := pc']> (ps_threads s)) q o' →
  (∀ q', q' ≠ q → q' ∈ owner_call pc ↔ q' ∈ owner_call pc') →
  slot_ok (<[q := with_queue np d]> (ps_nodes s)) u pc' → filled (ps_tasks s) pc' →
  taken des ++ tp_hold pc ≡ₚ pushes des ++ tp_hold pc' →
  taken des ++ tp_pending pc ++ new ≡ₚ pushes des ++ tp_pending pc' →
  submitted tes = content (ps_tasks s) <$> new → executed tes = [] →
  pool_inv (S n) (es ++ tes)
    (mk_pool (<[q := with_queue np d]> (ps_nodes s)) (ps_tasks s) (ps_stop s) (<[u := pc']> (ps_threads s))
       (ps_destroy s)) frees (<[q := it']> items).
Proof.
  intros I Hu Hq Hit Hs Hl Hg Hb Hnd Hcall Hothers Hslot Hfill Hhold Hpend Hsub Hexe.
  pose proof (lookup_lt_Some _ _ _ Hq) as Hqlt.
  pose proof (holdings_insert id items q it' it Hit) as Hitems. unfold id in Hitems at 1 3.
  pose proof (holdings_insert tp_hold (ps_threads s) u pc' pc Hu) as Hh.
  pose proof (holdings_insert tp_pending (ps_threads s) u pc' pc Hu) as Hp.
  destruct I as [I1 I2 I3 I4 I5 I6 I7 I8 I9 I10 I11].
  split; cbn [ps_nodes ps_tasks ps_threads]; rewrite ?length_insert; auto.
  - intros q' np' f Hq' Hf. rewrite lookup_insert_decide in Hq' by done.
    case_decide as E; [simplify_eq; exact (I3 _ _ _ Hq Hf)|eauto].
  - intros q' np' it0 Hq' Hi'. rewrite lookup_insert_decide in Hq' by done.
    rewrite lookup_insert_decide in Hi' by lia. case_decide as E; simplify_eq; [by exists o'|].
    destruct (I4 _ _ _ Hq' Hi') as (o & Ho & Hc). exists o. split; [by apply (dq_held_mono n); [|lia]|].
    apply (caller_kept _ _ _ _ pc); auto.
  - count_perm.
  - apply (forall_insert (slot_ok (<[q := with_queue np d]> (ps_nodes s)))); [done|].
    intros v pcv Hne Hv. apply (slot_ok_kept _ _ _ l d des); [done|done|congruence|eauto].
  - by apply (forall_insert (λ _, filled (ps_tasks s))); [|eauto].
  - rewrite submitted_app, executed_app, Hsub, Hexe, I11, app_nil_r, <-app_assoc, <-fmap_app.
    apply Permutation_app_head. apply Permutation_map. count_perm.
Qed.

Definition pool_ok (n : nat) (es : list tp_event) s : Prop := ∃ frees items, pool_inv n es s frees items.

Lemma slot_ok_outside nodes u pc : owner_call pc = [] → slot_ok nodes u pc.
Proof. by destruct pc. Qed.

(** The deque of a node, its contents and its caller. *)
Lemma pool_deque n es s frees items q np :
  pool_inv n es s frees items → ps_nodes s !! q = Some np →
  ∃ it o, items !! q = Some it ∧ dq_held n (np_task_queue np) it o ∧ caller_of (ps_threads s) q o.
Proof.
  intros I Hq. pose proof (lookup_lt_Some _ _ _ Hq) as Hlt.
  destruct (lookup_lt_is_Some_2 items q ltac:(rewrite (pi_items _ _ _ _ _ I); lia)) as [it Hit].
  destruct (pi_deque _ _ _ _ _ I q np it Hq Hit) as (o & Ho & Hc). by exists it, o.
Qed.

Section deque_steps.
Context (n : nat) (es : list tp_event) s (u : nat) (pc : tp_pc).
Hypothesis Hok : pool_ok n es s.
Hypothesis Hn : Z.of_nat (S n) < 2 ^ 30.
Hypothesis Hu : ps_threads s !! u = Some pc.

Abbreviation after nodes' pc' :=
  (mk_pool nodes' (ps_tasks s) (ps_stop s) (<[u := pc']> (ps_threads s)) (ps_destroy s)).

(** A push or a pop begins. *)
Lemma call_begins pc' q l nodes' des :
  owner_call pc = [] → owner_call pc' = [q] → (∃ x, l = DqPush u x) ∨ l = DqPop u →
  on_deque (ps_nodes s) q l = Some (nodes', des) →
  NoDup (holdings owner_call (<[u := pc']> (ps_threads s))) →
  tp_hold pc' = tp_hold pc → tp_pending pc' = tp_pending pc → filled (ps_tasks s) pc' →
  (in_call nodes' u q (λ p, p = match l with DqPush _ x => DqPushBottom x | _ => DqPopBottom end) →
     slot_ok nodes' u pc') →
  pool_ok (S n) (es ++ []) (after nodes' pc').
Proof.
  intros Hc Hc' Hl Hd Hnd Hhold Hpend Hfill Hslot. destruct Hok as (frees & items & I).
  destruct (on_deque_Some _ _ _ _ _ Hd) as (np & d & Hq & _ & Hs & ->).
  destruct (pool_deque _ _ _ _ _ _ _ I Hq) as (it & o & Hit & Ho & Hco).
  destruct (caller_begins _ _ _ _ _ _ Hnd Hco Hu Hc Hc') as [-> Hcall].
  destruct (held_begins _ _ _ _ _ _ _ Ho Hn Hl Hs) as (-> & Hg & Hp).
  exists frees, (<[q := it]> items).
  eapply (deque_moves n es s frees items u pc pc' q np it l d [] it (Some u) [] []); eauto.
  - by destruct Hl as [[x ->]| ->].
  - intros q' Hne. rewrite Hc, Hc'. set_solver.
  - apply Hslot. exists (with_queue np d). eexists. split; [|by eauto].
    apply list_lookup_insert_eq. by eapply lookup_lt_Some.
  - by rewrite Hhold.
  - by rewrite Hpend, app_nil_r.
Qed.

(** An access of a push or a pop in progress. *)
Lemma call_advances pc' q ok nodes' des tes new :
  owner_call pc = [q] → on_deque (ps_nodes s) q (DqAdvance u ok) = Some (nodes', des) →
  NoDup (holdings owner_call (<[u := pc']> (ps_threads s))) →
  (owner_call pc' = [q] ∧ slot_ok nodes' u pc') ∨ (owner_call pc' = [] ∧ in_call nodes' u q (λ p, p = DqIdle)) →
  filled (ps_tasks s) pc' → taken des ++ tp_hold pc ≡ₚ pushes des ++ tp_hold pc' →
  taken des ++ tp_pending pc ++ new ≡ₚ pushes des ++ tp_pending pc' →
  submitted tes = content (ps_tasks s) <$> new → executed tes = [] →
  pool_ok (S n) (es ++ tes) (after nodes' pc').
Proof.
  intros Hc Hd Hnd Hend Hfill Hhold Hpend Hsub Hexe. destruct Hok as (frees & items & I).
  destruct (on_deque_Some _ _ _ _ _ Hd) as (np & d & Hq & _ & Hs & ->).
  pose proof (lookup_lt_Some _ _ _ Hq) as Hqlt.
  destruct (pool_deque _ _ _ _ _ _ _ I Hq) as (it & o & Hit & Ho & Hco).
  pose proof (caller_unique _ _ _ _ _ (pi_calls _ _ _ _ _ I) Hco Hu ltac:(rewrite Hc; left)) as ->.
  destruct (held_step _ _ _ _ (DqAdvance u ok) _ _ Ho Hn ltac:(done) Hs) as (it' & Hg & Hb).
  exists frees, (<[q := it']> items). destruct Hend as [[Hc' Hslot]|[Hc' Hidle]].
  - eapply (deque_moves n es s frees items u pc pc' q np it _ d des it' (Some u) tes new); eauto.
    + apply (caller_kept _ _ _ u pc); [done|done|by rewrite Hc, Hc'].
    + intros q' _. by rewrite Hc, Hc'.
  - eapply (deque_moves n es s frees items u pc pc' q np it _ d des it' None tes new); eauto.
    + apply (held_returns _ _ _ u); [done|]. destruct Hidle as (np' & p & Hq' & Hp & ->).
      rewrite list_lookup_insert_eq in Hq' by done. by simplify_eq.
    + apply (caller_returns _ _ _ pc); auto. apply (pi_calls _ _ _ _ _ I).
    + intros q' Hne. rewrite Hc, Hc'. set_solver.
    + by apply slot_ok_outside.
Qed.

(** An access of a thief. *)
Lemma thief_moves pc' q l nodes' des :
  owner_call pc = [] → owner_call pc' = [] → filled (ps_tasks s) pc' → l = DqSteal u ∨ (∃ ok, l = DqAdvance u ok) →
  on_deque (ps_nodes s) q l = Some (nodes', des) →
  taken des ++ tp_hold pc ≡ₚ tp_hold pc' → taken des ++ tp_pending pc ≡ₚ tp_pending pc' → pushes des = [] →
  pool_ok (S n) (es ++ []) (after nodes' pc').
Proof.
  intros Hc Hc' Hfill Hl Hd Hhold Hpend Hpush. destruct Hok as (frees & items & I).
  destruct (on_deque_Some _ _ _ _ _ Hd) as (np & d & Hq & _ & Hs & ->).
  destruct (pool_deque _ _ _ _ _ _ _ I Hq) as (it & o & Hit & Ho & Hco).
  assert (Hou : o ≠ Some u).
  { intros ->. destruct Hco as (pc0 & Hu0 & Hin). simplify_eq. rewrite Hc in Hin. by apply elem_of_nil in Hin. }
  assert (Hr : respects (holder (np_task_queue np) o) l).
  { destruct Hl as [-> |[ok ->]]; [|done]. cbn [respects]. destruct o as [v|]; cbn; [congruence|].
    cbn [dq_step] in Hs. destruct (dqs_threads (np_task_queue np) !! u) eqn:E; [|done].
    apply lookup_lt_Some in E. lia. }
  destruct (held_step _ _ _ _ _ _ _ Ho Hn Hr Hs) as (it' & Hg & Hb).
  exists frees, (<[q := it']> items).
  assert (Hiff : ∀ q', q' ∈ owner_call pc ↔ q' ∈ owner_call pc') by (intros q'; by rewrite Hc, Hc').
  eapply (deque_moves n es s frees items u pc pc' q np it l d des it' o [] []); eauto.
  - by destruct Hl as [-> |[ok ->]].
  - pose proof (holdings_insert owner_call _ u pc' pc Hu) as Hp. rewrite Hc, Hc' in Hp. cbn [app] in Hp.
    rewrite Hp. apply (pi_calls _ _ _ _ _ I).
  - by apply (caller_kept _ _ _ u pc).
  - by apply slot_ok_outside.
  - by rewrite Hpush.
  - by rewrite Hpush, app_nil_r.
Qed.

(** What an access of a thief can return. *)
Lemma thief_outcome q ok nodes' des :
  owner_call pc = [] → on_deque (ps_nodes s) q (DqAdvance u ok) = Some (nodes', des) →
  des = [] ∨ des = [Nothing u] ∨ ∃ x, des = [Stolen u x].
Proof.
  intros Hc Hd. destruct Hok as (frees & items & I).
  destruct (on_deque_Some _ _ _ _ _ Hd) as (np & d & Hq & _ & Hs & ->).
  destruct (pool_deque _ _ _ _ _ _ _ I Hq) as (it & o & Hit & Ho & Hco).
  eapply thief_advance; [exact Ho| |exact Hs].
  intros ->. destruct Hco as (pc0 & Hu0 & Hin). simplify_eq. rewrite Hc in Hin. by apply elem_of_nil in Hin.
Qed.
End deque_steps.

(** ** Steps on a free queue, and steps of a thread alone *)

(** Nodes that differ in their free queues and liveness only. *)
Definition same_deques nodes nodes' : Prop :=
  Forall2 (λ np np', np_task_queue np' = np_task_queue np) nodes nodes'.

Lemma same_deques_lookup nodes nodes' q np' :
  same_deques nodes nodes' → nodes' !! q = Some np' →
  ∃ np, nodes !! q = Some np ∧ np_task_queue np' = np_task_queue np.
Proof. intros H Hq. by destruct (Forall2_lookup_r _ _ _ _ _ H Hq) as (np & ? & ?); eauto. Qed.

Lemma slot_ok_same nodes nodes' u pc : same_deques nodes nodes' → slot_ok nodes u pc → slot_ok nodes' u pc.
Proof.
  intros H. assert (Hkeep : ∀ q P, in_call nodes u q P → in_call nodes' u q P).
  { intros q P (np & p & Hq & Hp & HP). destruct (Forall2_lookup_l _ _ _ _ _ H Hq) as (np' & Hq' & E).
    exists np', p. by rewrite E. }
  destruct pc; cbn [slot_ok]; auto.
Qed.

Lemma same_deques_insert nodes q np np' :
  nodes !! q = Some np → np_task_queue np' = np_task_queue np → same_deques nodes (<[q := np']> nodes).
Proof.
  intros Hq E. apply Forall2_same_length_lookup_2; [by rewrite length_insert|].
  intros i x y Hx Hy. rewrite lookup_insert_decide in Hy by by eapply lookup_lt_Some.
  case_decide; by simplify_eq.
Qed.

Lemma pending_held (ths : list tp_pc) x : x ∈ holdings tp_pending ths → x ∈ holdings tp_hold ths.
Proof.
  intros (v & pcv & Hv & Hx)%elem_of_holdings. apply elem_of_holdings. exists v, pcv. split; [done|].
  destruct pcv; cbn [tp_pending] in Hx; try done; by apply elem_of_nil in Hx.
Qed.

(** Thread [u] moves from [pc] to [pc'] outside the deques: the free queues, the
    structures not in use and the trace may change. *)
Lemma thread_moves n es s frees items u pc pc' nodes' frees' tasks' stop ds tes :
  pool_inv n es s frees items → ps_threads s !! u = Some pc →
  same_deques (ps_nodes s) nodes' → length frees' = length nodes' →
  (∀ q np f, nodes' !! q = Some np → frees' !! q = Some f → bq_rep (np_free_queue np) f) →
  (∀ q f x, frees' !! q = Some f → x ∈ f → home x = q) →
  owner_call pc' = [] → owner_call pc = [] →
  holdings id frees ++ tp_hold pc ≡ₚ holdings id frees' ++ tp_hold pc' →
  (∀ x, x ∈ all → ∃ t, tasks' !! x = Some t ∧ task_home t = home x) →
  (∀ x, x ∈ holdings id items ++ holdings tp_hold (ps_threads s) →
     content tasks' x = content (ps_tasks s) x) → filled tasks' pc' →
  submitted tes = [] → content (ps_tasks s) <$> tp_pending pc = executed tes ++ (content tasks' <$> tp_pending pc') →
  pool_inv (S n) (es ++ tes) (mk_pool nodes' tasks' stop (<[u := pc']> (ps_threads s)) ds) frees' items.
Proof.
  intros I Hu Hsame Hlen Hrep Hhome Hc' Hc Hperm Htasks Hcont Hfill Hsub Hexe.
  pose proof (Forall2_length _ _ _ Hsame) as El.
  pose proof (holdings_insert tp_hold (ps_threads s) u pc' pc Hu) as Hh.
  pose proof (holdings_insert tp_pending (ps_threads s) u pc' pc Hu) as Hp.
  pose proof (holdings_insert owner_call (ps_threads s) u pc' pc Hu) as Ho. rewrite Hc, Hc' in Ho. cbn [app] in Ho.
  destruct I as [I1 I2 I3 I4 I5 I6 I7 I8 I9 I10 I11].
  split; cbn [ps_nodes ps_tasks ps_threads]; auto.
  - by rewrite I2.
  - intros q np' it Hq' Hi. destruct (same_deques_lookup _ _ _ _ Hsame Hq') as (np & Hq & ->).
    destruct (I4 _ _ _ Hq Hi) as (o & Hg & Ho'). exists o. split; [by apply (dq_held_mono n); [|lia]|].
    apply (caller_kept _ _ _ u pc); auto. by rewrite Hc, Hc'.
  - count_perm.
  - by rewrite Ho.
  - apply (forall_insert (slot_ok nodes')); [by apply slot_ok_outside|]. intros v pcv _ Hv.
    apply (slot_ok_same (ps_nodes s)); eauto.
  - apply (forall_insert (λ _, filled tasks')); [done|]. intros v pcv _ Hv. pose proof (I10 v pcv Hv) as Hf.
    destruct pcv; cbn [filled] in *; try done;
      (rewrite Hcont; [done|]); apply elem_of_app; right; apply elem_of_holdings; eexists _, _; (split; [done|left]).
  - rewrite submitted_app, executed_app, Hsub, app_nil_r, I11, <-app_assoc. apply Permutation_app_head.
    rewrite fmap_app.
    assert (E1 : content (ps_tasks s) <$> holdings id items = content tasks' <$> holdings id items).
    { apply list_fmap_ext. intros i x Hx. symmetry. apply Hcont, elem_of_app. left.
      by eapply list_elem_of_lookup_2. }
    assert (E2 : content (ps_tasks s) <$> holdings tp_pending (ps_threads s) =
                 content tasks' <$> holdings tp_pending (ps_threads s)).
    { apply list_fmap_ext. intros i x Hx. symmetry. apply Hcont, elem_of_app. right.
      apply pending_held. by eapply list_elem_of_lookup_2. }
    assert (E3 : content (ps_tasks s) <$> tp_pending pc = content tasks' <$> tp_pending pc).
    { apply list_fmap_ext. intros i x Hx. symmetry. apply Hcont, elem_of_app. right.
      apply pending_held, elem_of_holdings. exists u, pc. split; [done|]. by eapply list_elem_of_lookup_2. }
    rewrite E3 in Hexe. apply (Permutation_map (content tasks')) in Hp. rewrite !map_app in Hp.
    change (map (content tasks')) with (fmap (M := list) (content tasks')) in Hp.
    rewrite fmap_app, E1, E2. rewrite Hexe in Hp. count_perm.
Qed.

(** The free queues as they were. *)
Lemma thread_moves_alone n es s u pc pc' stop ds tes :
  pool_ok n es s → ps_threads s !! u = Some pc → owner_call pc' = [] → owner_call pc = [] →
  tp_hold pc' = tp_hold pc → filled (ps_tasks s) pc' → submitted tes = [] →
  content (ps_tasks s) <$> tp_pending pc = executed tes ++ (content (ps_tasks s) <$> tp_pending pc') →
  pool_ok (S n) (es ++ tes) (mk_pool (ps_nodes s) (ps_tasks s) stop (<[u := pc']> (ps_threads s)) ds).
Proof.
  intros (frees & items & I) Hu Hc' Hc Hh Hfill Hsub Hexe. exists frees, items.
  apply (thread_moves n es s frees items u pc); auto; try apply I.
  - unfold same_deques. by apply Forall2_same_length_lookup_2; [done|]; intros; simplify_eq.
  - by rewrite Hh.
Qed.

(** Thread [u] changes the free queue of node [q] from [f] to [f']. *)
Lemma free_moves n es s frees items u pc pc' q np r f f' tasks' tes :
  pool_inv n es s frees items → ps_threads s !! u = Some pc → ps_nodes s !! q = Some np →
  frees !! q = Some f → bq_rep r f' → owner_call pc' = [] → owner_call pc = [] →
  f ++ tp_hold pc ≡ₚ f' ++ tp_hold pc' → (∀ x, x ∈ f' → home x = q) →
  (∀ x, x ∈ all → ∃ t, tasks' !! x = Some t ∧ task_home t = home x) →
  (∀ x, x ∈ holdings id items ++ holdings tp_hold (ps_threads s) →
     content tasks' x = content (ps_tasks s) x) → filled tasks' pc' →
  submitted tes = [] → executed tes = [] → tp_pending pc = [] → tp_pending pc' = [] →
  pool_inv (S n) (es ++ tes)
    (mk_pool (<[q := with_free np r]> (ps_nodes s)) tasks' (ps_stop s) (<[u := pc']> (ps_threads s)) (ps_destroy s))
    (<[q := f']> frees) items.
Proof.
  intros I Hu Hq Hf Hr Hc' Hc Hh Hhome Htasks Hcont Hfill Hsub Hexe Hp Hp'.
  pose proof (lookup_lt_Some _ _ _ Hq) as Hqlt. pose proof (lookup_lt_Some _ _ _ Hf) as Hflt.
  pose proof (holdings_insert id frees q f' f Hf) as Hfrees. unfold id in Hfrees at 1 3.
  apply (thread_moves n es s frees items u pc); auto.
  - by apply (same_deques_insert _ _ np).
  - rewrite !length_insert. apply I.
  - intros q' np' f0 Hq' Hf0. rewrite lookup_insert_decide in Hq' by done.
    rewrite lookup_insert_decide in Hf0 by done. case_decide; simplify_eq; [done|]. by apply (pi_free _ _ _ _ _ I q').
  - intros q' f0 x Hf0 Hx. rewrite lookup_insert_decide in Hf0 by done.
    case_decide; simplify_eq; [by apply Hhome|]. by apply (pi_home _ _ _ _ _ I q' f0).
  - count_perm.
  - by rewrite Hp, Hp', Hexe.
Qed.

Lemma frees_lookup n es s frees items q np :
  pool_inv n es s frees items → ps_nodes s !! q = Some np →
  ∃ f, frees !! q = Some f ∧ bq_rep (np_free_queue np) f.
Proof.
  intros I Hq. pose proof (lookup_lt_Some _ _ _ Hq) as Hlt.
  destruct (lookup_lt_is_Some_2 frees q ltac:(rewrite (pi_frees _ _ _ _ _ I); lia)) as [f Hf].
  exists f. split; [done|]. by apply (pi_free _ _ _ _ _ I q).
Qed.

(** What a thread holds is a task structure. *)
Lemma held_task n es s frees items u pc x :
  pool_inv n es s frees items → ps_threads s !! u = Some pc → x ∈ tp_hold pc → x ∈ all.
Proof.
  intros I Hu Hx. rewrite <-(pi_perm _ _ _ _ _ I), !elem_of_app. right. right. apply elem_of_holdings. eauto.
Qed.

(** A structure in a free queue is not in use. *)
Lemma free_unused n es s frees items q f x y :
  NoDup all → pool_inv n es s frees items → frees !! q = Some f → x ∈ f →
  y ∈ holdings id items ++ holdings tp_hold (ps_threads s) → x ≠ y.
Proof.
  intros Hall I Hf Hx Hy ->. rewrite <-(pi_perm _ _ _ _ _ I) in Hall.
  apply NoDup_app in Hall as (_ & Hdisj & _). apply (Hdisj y).
  - apply elem_of_holdings. by exists q, f.
  - done.
Qed.

(** Giving a structure back. *)
Lemma return_task n es s u m x t np b r :
  pool_ok n es s → ps_threads s !! u = Some (WkReturn m x) → ps_tasks s !! x = Some t →
  ps_nodes s !! task_home t = Some np → bq_push (np_free_queue np) x = Some (b, r) →
  pool_ok (S n) (es ++ [])
    (mk_pool (<[task_home t := with_free np r]> (ps_nodes s)) (ps_tasks s) (ps_stop s)
       (<[u := if b then WkStop m 0 else WkReturn m x]> (ps_threads s)) (ps_destroy s)).
Proof.
  intros (frees & items & I) Hu Ht Hq Hpush.
  destruct (frees_lookup _ _ _ _ _ _ _ I Hq) as (f & Hf & Hrep).
  pose proof (held_task _ _ _ _ _ _ _ x I Hu ltac:(left)) as Hx.
  destruct (pi_tasks _ _ _ _ _ I x Hx) as (t' & Ht' & Hhome). simplify_eq.
  assert (Hin : ∀ y, y ∈ f → home y = task_home t) by (intros y; by apply (pi_home _ _ _ _ _ I)).
  destruct (decide (Z.of_nat (length f) < bq_cap (np_free_queue np))) as [Hlt|Hge].
  - destruct (bq_push_ok _ _ x Hrep Hlt) as (r' & Hpush' & Hrep' & _). rewrite Hpush in Hpush'. simplify_eq.
    eexists _, _. eapply (free_moves n es s frees items u _ _ _ _ _ f (f ++ [x])); eauto; try done; try apply I.
    + by rewrite app_nil_r.
    + intros y [Hy| ->%list_elem_of_singleton]%elem_of_app; auto.
  - pose proof (bq_room _ _ Hrep). rewrite (bq_push_full _ _ x Hrep) in Hpush by lia. simplify_eq.
    eexists _, _. eapply (free_moves n es s frees items u _ _ _ _ _ f f); eauto; try done; apply I.
Qed.

(** Taking a structure and filling it in. *)
Lemma submit_takes n es s u target func arg s' tes :
  NoDup all → pool_ok n es s → ps_threads s !! u = Some ClIdle →
  nkit_pool_submit_to_node s u target func arg = Some (s', tes) → pool_ok (S n) (es ++ tes) s'.
Proof.
  intros Hall (frees & items & I) Hu Hs. unfold nkit_pool_submit_to_node in Hs.
  set (q := submit_node (ps_nodes s) target) in *.
  destruct (ps_nodes s !! q) as [np|] eqn:Hq; [|done]. destruct (np_live np); [|done].
  destruct (frees_lookup _ _ _ _ _ _ _ I Hq) as (f & Hf & Hrep).
  destruct f as [|x f].
  - rewrite (bq_pop_empty _ Hrep) in Hs. simplify_eq. eexists _, _.
    rewrite <-(list_insert_id (ps_threads s) u ClIdle Hu) at 1.
    eapply (free_moves n es s frees items u _ _ _ _ _ [] []); eauto; try done; try apply I. by intros y ?%elem_of_nil.
  - destruct (bq_pop_ok _ _ _ Hrep) as (r & Hpop & Hrep' & _). rewrite Hpop in Hs.
    destruct (ps_tasks s !! x) as [t|] eqn:Ht; [|done]. simplify_eq. eexists _, _.
    eapply (free_moves n es s frees items u _ _ _ _ _ (x :: f) f); eauto; cbn [tp_hold].
    + rewrite app_nil_r, Permutation_app_comm; done.
    + intros y Hy. apply (pi_home _ _ _ _ _ I q (x :: f)); [done|by right].
    + intros y Hy. destruct (pi_tasks _ _ _ _ _ I y Hy) as (ty & Hty & Ehome).
      destruct (decide (y = x)) as [->|Hne]; [|exists ty; by rewrite lookup_insert_ne].
      rewrite lookup_insert_eq. eexists. split; [done|]. cbn. congruence.
    + intros y Hy. unfold content. rewrite lookup_insert_ne; [done|].
      by apply (free_unused n es s frees items q (x :: f)); [..|left|].
    + cbn [filled]. unfold content. by rewrite lookup_insert_eq.
Qed.

(** A submission that is refused changes nothing. *)
Lemma refused_ok n es s u target s' tes :
  pool_ok n es s → ps_threads s !! u = Some ClIdle → submit_refused s target = Some (s', tes) →
  pool_ok (S n) (es ++ tes) s'.
Proof.
  intros Hok Hu Hs. unfold submit_refused in Hs. destruct (ps_nodes s !! _) as [np|]; [|done].
  destruct (np_live np); [|done]. simplify_eq.
  replace s' with (mk_pool (ps_nodes s') (ps_tasks s') (ps_stop s') (<[u := ClIdle]> (ps_threads s')) (ps_destroy s'))
    by (rewrite (list_insert_id _ _ _ Hu); by destruct s').
  by eapply thread_moves_alone.
Qed.

(** ** Every step *)

Lemma content_of tasks x t : tasks !! x = Some t → content tasks x = (task_func t, task_arg t).
Proof. unfold content. by intros ->. Qed.

(** The place of a thread inside a call, before and after its access. *)
Lemma advance_place nodes u q P ok nodes' des :
  in_call nodes u q P → on_deque nodes q (DqAdvance u ok) = Some (nodes', des) →
  ∃ d d' p p', dqs_threads d !! u = Some p ∧ P p ∧ dq_step d (DqAdvance u ok) = Some (d', des) ∧
    dqs_threads d' !! u = Some p' ∧ ∀ P' : dq_pc → Prop, P' p' → in_call nodes' u q P'.
Proof.
  intros (np & p & Hq & Hp & Hx) (np' & d' & Hq' & _ & Hs & ->)%on_deque_Some.
  rewrite Hq in Hq'. simplify_eq. destruct (step_with_nobody _ _ _ _ Hs) as [_ El].
  destruct (lookup_lt_is_Some_2 (dqs_threads d') u ltac:(rewrite El; by eapply lookup_lt_Some)) as [p' Hp'].
  exists (np_task_queue np'), d', p, p'. split_and!; auto. intros P' HP'. exists (with_queue np' d'), p'.
  by rewrite list_lookup_insert_eq by by eapply lookup_lt_Some.
Qed.

Section thread_steps.
Context (n : nat) (es : list tp_event) s (u : nat).
Hypothesis Hok : pool_ok n es s.
Hypothesis Hn : Z.of_nat (S n) < 2 ^ 30.

(** The thread inside a push: what its access returns, and where it is then. *)
Lemma push_outcome q x f a spins ok nodes' des :
  ps_threads s !! u = Some (ClInPush q x f a spins) →
  on_deque (ps_nodes s) q (DqAdvance u ok) = Some (nodes', des) →
  (des = [] ∧ in_call nodes' u q (λ p, push_data p = Some x)) ∨
  ((des = [Pushed x] ∨ des = [PushFailed]) ∧ in_call nodes' u q (λ p, p = DqIdle)).
Proof.
  intros Hu Hd. destruct Hok as (frees & items & I).
  destruct (advance_place _ _ _ _ _ _ _ (pi_slots _ _ _ _ _ I u _ Hu) Hd) as (d & d' & p & p' & Hp & Hx & Hs & Hp' & Hin).
  destruct (push_advance _ _ _ _ _ _ _ _ Hp Hx Hs Hp') as [[-> H]|[H1 H2]]; auto.
Qed.

Lemma pop_outcome m idle ok nodes' des :
  ps_threads s !! u = Some (WkInPop m idle) →
  on_deque (ps_nodes s) m (DqAdvance u ok) = Some (nodes', des) →
  (des = [] ∧ in_call nodes' u m (λ p, in_pop p = true)) ∨
  ((des = [Nothing u] ∨ ∃ x, des = [Popped u x]) ∧ in_call nodes' u m (λ p, p = DqIdle)).
Proof.
  intros Hu Hd. destruct Hok as (frees & items & I).
  destruct (advance_place _ _ _ _ _ _ _ (pi_slots _ _ _ _ _ I u _ Hu) Hd) as (d & d' & p & p' & Hp & Hx & Hs & Hp' & Hin).
  destruct (pop_advance _ _ _ _ _ _ _ Hp Hx Hs Hp') as [[-> H]|[H1 H2]]; auto.
Qed.

Lemma client_step_ok pc ok s' tes :
  ps_threads s !! u = Some pc → (∃ q x f a spins, pc = ClPush q x f a spins ∨ pc = ClInPush q x f a spins) →
  thread_step s u pc ok = Some (s', tes) → NoDup (holdings owner_call (ps_threads s')) →
  pool_ok (S n) (es ++ tes) s'.
Proof.
  intros Hu Hpc Hs Hnd. assert (Hfill : filled (ps_tasks s) pc).
  { destruct Hok as (frees & items & I). by apply (pi_filled _ _ _ _ _ I u). }
  destruct Hpc as (q & x & f & a & spins & [-> | ->]); cbn [thread_step filled] in *.
  - destruct (on_deque _ _ _) as [[nodes' des]|] eqn:Hd; [|done]. simplify_eq.
    eapply (call_begins n es s u _ Hok Hn Hu _ q); [done|done|by left; eexists|exact Hd|done|done|done|exact Hfill|].
    intros (np & p & H1 & H2 & ->). by exists np, (DqPushBottom x).
  - destruct (on_deque _ _ _) as [[nodes' des]|] eqn:Hd; [|done].
    destruct (push_outcome _ _ _ _ _ _ _ _ Hu Hd) as [[-> Hin]|[[-> | ->] Hin]].
    + simplify_eq. eapply (call_advances n es s u _ Hok Hn Hu _ q ok _ _ [] []); eauto.
    + simplify_eq. eapply (call_advances n es s u _ Hok Hn Hu _ q ok _ _ _ [x]); eauto; [done|].
      cbn. by rewrite Hfill.
    + destruct (nkit_backoff spins) as [[act spins']|]; [|done]. simplify_eq.
      by eapply (call_advances n es s u _ Hok Hn Hu _ q ok _ _ [] []); eauto.
Qed.

Lemma worker_step_ok pc ok s' tes :
  ps_threads s !! u = Some pc → (∀ q x f a spins, pc ≠ ClPush q x f a spins ∧ pc ≠ ClInPush q x f a spins) →
  thread_step s u pc ok = Some (s', tes) → NoDup (holdings owner_call (ps_threads s')) →
  pool_ok (S n) (es ++ tes) s'.
Proof.
  intros Hu Hpc Hs Hnd. destruct pc as [m idle|m idle|m i idle|m i idle|m x|m x|m| |q x f a sp|q x f a sp];
    cbn [thread_step] in Hs; try done.
  - destruct (ps_stop s) eqn:Estop.
    { simplify_eq. by eapply thread_moves_alone. }
    destruct (on_deque _ _ _) as [[nodes' des]|] eqn:Hd; [|done]. simplify_eq. rewrite <-Estop.
    eapply (call_begins n es s u _ Hok Hn Hu _ m); [done|done|by right|exact Hd|done|done|done|done|].
    intros (np & p & H1 & H2 & ->). by exists np, DqPopBottom.
  - destruct (on_deque _ _ _) as [[nodes' des]|] eqn:Hd; [|done].
    destruct (pop_outcome _ _ _ _ _ Hu Hd) as [[-> Hin]|[[-> |[x ->]] Hin]]; simplify_eq.
    + eapply (call_advances n es s u _ Hok Hn Hu _ m ok _ _ [] []); eauto; done.
    + by eapply (call_advances n es s u _ Hok Hn Hu _ m ok _ _ [] []); eauto.
    + by eapply (call_advances n es s u _ Hok Hn Hu _ m ok _ _ [] []); eauto.
  - destruct (steal_target _ _ _) as [t|].
    + destruct (on_deque _ _ _) as [[nodes' des]|] eqn:Hd; [|done]. simplify_eq.
      assert (des = []) as ->.
      { destruct (on_deque_Some _ _ _ _ _ Hd) as (np & d & _ & _ & Hst & _). cbn [dq_step] in Hst.
        by destruct (dqs_threads (np_task_queue np) !! u) as [[]|]; simplify_eq. }
      by eapply (thief_moves n es s u _ Hok Hn Hu _ t (DqSteal u)); eauto.
    + destruct (nkit_backoff idle) as [[a idle']|]; [|done]. simplify_eq. by eapply thread_moves_alone.
  - destruct (steal_target _ _ _) as [t|]; [|done].
    destruct (on_deque _ _ _) as [[nodes' des]|] eqn:Hd; [|done].
    destruct (thief_outcome n es s u _ Hok Hu t ok nodes' des) as [-> |[-> |[x ->]]];
      [done|done|..]; simplify_eq; by eapply (thief_moves n es s u _ Hok Hn Hu _ t (DqAdvance u ok)); eauto.
  - destruct (ps_tasks s !! x) as [t|] eqn:Ht; [|done]. destruct (task_live _ t); [|done]. simplify_eq.
    eapply thread_moves_alone; eauto; [done|].
    cbn. by rewrite (content_of _ _ _ Ht).
  - destruct (ps_tasks s !! x) as [t|] eqn:Ht; [|done].
    destruct (ps_nodes s !! task_home t) as [np|] eqn:Hq; [|done]. destruct (np_live np); [|done].
    destruct ok; cbn [negb] in Hs; [|simplify_eq; by eapply thread_moves_alone].
    destruct (bq_push _ _) as [[b r]|] eqn:Hp; [|done].
    pose proof (return_task n es s u m x t np b r Hok Hu Ht Hq Hp) as H. destruct b; by simplify_eq.
  - by destruct (Hpc q x f a sp).
  - by destruct (Hpc q x f a sp).
Qed.
End thread_steps.

(** Destroying the pool moves no task. *)
Lemma destroy_ok n es s s' tes :
  pool_ok n es s → nkit_pool_destroy s = Some (s', tes) → pool_ok (S n) (es ++ tes) s'.
Proof.
  intros (frees & items & I) Hs.
  assert (H : ∀ nodes' stop ds, (nodes' = ps_nodes s ∨ ∃ i, nodes' = alter freed i (ps_nodes s)) →
    pool_ok (S n) (es ++ []) (mk_pool nodes' (ps_tasks s) stop (ps_threads s) ds)).
  { intros nodes' stop ds Hnodes. exists frees, items. rewrite app_nil_r.
    assert (Hl : ∀ q np', nodes' !! q = Some np' → ∃ np, ps_nodes s !! q = Some np ∧
      np_task_queue np' = np_task_queue np ∧ np_free_queue np' = np_free_queue np).
    { destruct Hnodes as [-> |[i ->]]; [eauto|]. intros q np'. rewrite list_lookup_alter.
      case_decide as E; [subst|eauto]. intros (np & -> & ?)%fmap_Some. exists np. by subst np'. }
    assert (Hlen : length nodes' = length (ps_nodes s)).
    { destruct Hnodes as [-> |[i ->]]; [done|apply length_alter]. }
    assert (Hsame : same_deques (ps_nodes s) nodes').
    { apply Forall2_same_length_lookup_2; [done|]. intros q np np' Hq Hq'.
      destruct (Hl q np' Hq') as (? & ? & ? & _). by simplify_eq. }
    destruct I as [I1 I2 I3 I4 I5 I6 I7 I8 I9 I10 I11].
    split; cbn [ps_nodes ps_tasks ps_threads]; rewrite ?Hlen; auto.
    - intros q np' f Hq' Hf. destruct (Hl q np' Hq') as (np & Hq & _ & ->). eauto.
    - intros q np' it Hq' Hi. destruct (Hl q np' Hq') as (np & Hq & -> & _).
      destruct (I4 q np it Hq Hi) as (o & Ho & Hc). exists o. split; [by apply (dq_held_mono n); [|lia]|done].
    - intros u pc Hu. apply (slot_ok_same (ps_nodes s)); eauto. }
  unfold nkit_pool_destroy in Hs. destruct (ps_destroy s); try done.
  - simplify_eq. apply H. by left.
  - repeat case_match; simplify_eq; apply H; by left.
  - simplify_eq. apply H. right. eauto.
Qed.

Lemma owned_step_ok n es s l s' tes :
  NoDup all → Z.of_nat (S n) < 2 ^ 30 → pool_ok n es s → tp_step_owned s l = Some (s', tes) →
  pool_ok (S n) (es ++ tes) s'.
Proof.
  intros Hall Hn Hok Hs. unfold tp_step_owned in Hs.
  destruct (tp_step s l) as [[s1 es1]|] eqn:E; [|done]. case_decide as Hnd; [|done]. simplify_eq.
  destruct l as [u target f a|u pages f a|u target|u ok|]; cbn [tp_step] in E.
  - destruct (ps_threads s !! u) as [[]|] eqn:Hu; try done. by eapply submit_takes.
  - destruct (ps_threads s !! u) as [[]|] eqn:Hu; try done. by eapply submit_takes.
  - destruct (ps_threads s !! u) as [[]|] eqn:Hu; try done. by eapply refused_ok.
  - destruct (ps_threads s !! u) as [pc|] eqn:Hu; [|done].
    assert (Hpc : (∃ q x f a spins, pc = ClPush q x f a spins ∨ pc = ClInPush q x f a spins) ∨
      (∀ q x f a spins, pc ≠ ClPush q x f a spins ∧ pc ≠ ClInPush q x f a spins)) by (destruct pc; eauto 12).
    destruct Hpc; [by eapply client_step_ok|by eapply worker_step_ok].
  - by eapply destroy_ok.
Qed.

(** Runs from a state that is accounted for. *)
Lemma pool_run s0 sched s es :
  NoDup all → pool_ok 0 [] s0 → Z.of_nat (length sched) < 2 ^ 30 →
  traced tp_step_owned s0 sched = Some (s, es) → pool_ok (length sched) es s.
Proof.
  intros Hall H0 Hlen Hr.
  refine (traced_invariant tp_step_owned (λ n es s, Z.of_nat n < 2 ^ 30 → pool_ok n es s) s0 _ _ sched s es Hr Hlen).
  - done.
  - intros n es0 s1 l s2 es1 IH Hs Hn. eapply owned_step_ok; eauto. apply IH. lia.
Qed.
End invariant.
