(* ===== verification/TaskPoolRun.v ===== *)
(** * The task pool: creation and its properties (src/sched/task_pool.c)

    What [nkit_pool_create] sets up, that the invariant of
    [TaskPoolInv] holds of it, and what follows for the runs of a pool; then runs
    in which pushes and pops overlap, or which the destruction cuts short. *)

From stdpp Require Import prelude gmap sorting.
From Stdlib Require Import ZArith Lia.
From S2P Require Import Prelude Words Arena Ring Deque DequeOwner TaskPool TaskPoolInv.
Local Open Scope Z_scope.

(** ** What creation relies on *)

(** A ring that could be created is empty and has the capacity asked for;
    [numa_alloc_onnode] returns memory that is not in use. *)
Class PoolOS_ok {Q} {BQ : BoundedQueue Q} (os : pool_os Q) : Prop := {
  oo_ring i c r : 0 ≤ c < 2 ^ 32 → po_ring os i c = Some r → bq_rep r [] ∧ bq_cap r = c;
  oo_array i j a b : i ≠ j → po_array os i = Some a → po_array os j = Some b →
    a + TASK_SIZE * TaskPool.ring_capacity os ≤ b ∨ b + TASK_SIZE * TaskPool.ring_capacity os ≤ a;
}.

Section creation.
Context {Q : Type} {BQ : BoundedQueue Q} (os : pool_os Q).
Context {Hos : PoolOS_ok os}.
Abbreviation capacity := (TaskPool.ring_capacity os).

(** The task structures of node [i], and of all nodes. *)
Definition node_ptrs (i : nat) : list Z :=
  match po_array os i with Some base => task_ptrs os base | None => [] end.
Definition all_frees : list (list Z) := node_ptrs <$> seq 0 (num_nodes os).
Definition all_ptrs : list Z := holdings id all_frees.
Definition home_of (x : Z) : nat :=
  match task_memory os !! x with Some t => task_home t | None => 0%nat end.

Lemma pool_capacity_bounds : 1024 ≤ capacity < 2 ^ 32.
Proof.
  unfold TaskPool.ring_capacity. assert (H : 0 ≤ next_power_of_2_u32 (u32 (cpus_per_node os * 1024)) < 2 ^ 32).
  { apply Z.mod_pos_bound. lia. }
  destruct (Z.ltb_spec (next_power_of_2_u32 (u32 (cpus_per_node os * 1024))) 1024); lia.
Qed.

Lemma length_task_ptrs base : Z.of_nat (length (task_ptrs os base)) = capacity.
Proof. unfold task_ptrs. rewrite length_fmap, length_seqZ. pose proof pool_capacity_bounds. lia. Qed.

Lemma elem_of_task_ptrs base x :
  x ∈ task_ptrs os base ↔ ∃ j, 0 ≤ j < capacity ∧ x = base + TASK_SIZE * j.
Proof.
  unfold task_ptrs. rewrite list_elem_of_fmap. split.
  - intros (j & -> & Hj%elem_of_seqZ). exists j. split; [lia|done].
  - intros (j & Hj & ->). exists j. split; [done|]. apply elem_of_seqZ. lia.
Qed.

Lemma NoDup_task_ptrs base : NoDup (task_ptrs os base).
Proof.
  unfold task_ptrs. apply NoDup_fmap_2; [|apply NoDup_seqZ]. intros j j'. unfold TASK_SIZE. lia.
Qed.

(** Structures of different nodes are different. *)
Lemma node_ptrs_apart i j x : i ≠ j → x ∈ node_ptrs i → x ∈ node_ptrs j → False.
Proof using Hos.
  unfold node_ptrs. intros Hne Hi Hj.
  destruct (po_array os i) as [a|] eqn:Ea; [|by apply elem_of_nil in Hi].
  destruct (po_array os j) as [b|] eqn:Eb; [|by apply elem_of_nil in Hj].
  apply elem_of_task_ptrs in Hi as (m & Hm & ->). apply elem_of_task_ptrs in Hj as (m' & Hm' & E).
  destruct (oo_array i j a b Hne Ea Eb); unfold TASK_SIZE in *; lia.
Qed.

Lemma NoDup_node_ptrs ids : NoDup ids → NoDup (holdings id (node_ptrs <$> ids)).
Proof using Hos.
  induction 1 as [|i ids Hi Hnd IH]; [constructor|]. cbn. apply NoDup_app. split_and!; [| |done].
  - unfold node_ptrs. destruct (po_array os i); [apply NoDup_task_ptrs|constructor].
  - intros x Hx (j & l & Hj & Hxl)%elem_of_holdings. apply list_lookup_fmap_Some in Hj as (i' & -> & Hi').
    apply list_elem_of_lookup_2 in Hi'. apply (node_ptrs_apart i i' x); auto. by intros ->.
Qed.

Lemma NoDup_all : NoDup all_ptrs.
Proof using Hos. apply NoDup_node_ptrs, NoDup_seq. Qed.

(** Every structure is there, and belongs to its node. *)
Lemma task_memory_lookup i x :
  (i < num_nodes os)%nat → x ∈ node_ptrs i → task_memory os !! x = Some (mk_task 0 0 i).
Proof using Hos.
  intros Hi Hx. unfold task_memory. apply elem_of_list_to_map_1.
  - replace (concat _).*1 with all_ptrs; [apply NoDup_all|]. unfold all_ptrs, all_frees, holdings.
    generalize (seq 0 (num_nodes os)). intros ids. induction ids as [|j ids IH]; [done|].
    cbn. rewrite fmap_app, <-IH. f_equal. unfold node_ptrs. destruct (po_array os j); [|done].
    rewrite <-list_fmap_compose. symmetry. apply list_fmap_id.
  - apply list_elem_of_In, in_concat. exists ((λ x, (x, mk_task 0 0 i)) <$> node_ptrs i). split.
    + apply list_elem_of_In, list_elem_of_fmap. exists i. split; [|apply elem_of_seq; lia].
      unfold node_ptrs. by destruct (po_array os i).
    + apply list_elem_of_In, list_elem_of_fmap. by exists x.
Qed.

Lemma all_frees_home q f x : all_frees !! q = Some f → x ∈ f → home_of x = q.
Proof using Hos.
  intros (i & -> & Hi)%list_lookup_fmap_Some Hx. apply lookup_seq in Hi as [-> Hlt].
  unfold home_of. by rewrite (task_memory_lookup q x Hlt Hx).
Qed.

Lemma home_of_lt x : x ∈ all_ptrs → (home_of x < num_nodes os)%nat.
Proof using Hos.
  intros (q & f & Hq & Hx)%elem_of_holdings. rewrite (all_frees_home q f x Hq Hx).
  apply lookup_lt_Some in Hq. unfold all_frees in Hq. by rewrite length_fmap, length_seq in Hq.
Qed.

Lemma populate_fills ptrs : ∀ r q,
  bq_rep r q → Z.of_nat (length q + length ptrs) ≤ bq_cap r →
  ∃ r', populate r ptrs = Some r' ∧ bq_rep r' (q ++ ptrs) ∧ bq_cap r' = bq_cap r.
Proof.
  induction ptrs as [|x ptrs IH]; intros r q Hr Hlen; cbn [length populate] in *.
  { exists r. by rewrite app_nil_r. }
  destruct (bq_push_ok r q x Hr ltac:(lia)) as (r1 & -> & Hr1 & Hc1).
  destruct (IH r1 (q ++ [x]) Hr1 ltac:(rewrite length_app; cbn; lia)) as (r2 & -> & Hr2 & Hc2).
  exists r2. split; [done|]. rewrite Hc2, Hc1. by rewrite <-app_assoc in Hr2.
Qed.

(** A node as phase 1 leaves it. *)
Record node_created (slots i : nat) (np : nkit_node_pool_t Q) : Prop := {
  nc_capacity : np_capacity np = capacity;
  nc_pow2 : ∃ k, 0 ≤ k ≤ 31 ∧ capacity = 2 ^ k;
  nc_deque : np_task_queue np = dq_start (Z.of_nat i) capacity (po_deque_list os i) slots;
  nc_free : bq_rep (np_free_queue np) (node_ptrs i);
  nc_full : Z.of_nat (length (node_ptrs i)) = capacity ∧ bq_cap (np_free_queue np) = capacity;
  nc_order : np_steal_order np = if (1 <? num_nodes os)%nat then Some (build_steal_order os i) else None;
  nc_live : np_live np = true;
}.

Lemma deque_create_start avail a1 a2 a3 node c dq slots :
  0 ≤ c < 2 ^ 32 → nkit_deque_create avail a1 a2 a3 node c = Some dq →
  mk_dqs dq (replicate slots DqIdle) = dq_start node c a3 slots ∧ ∃ k, 0 ≤ k ≤ 31 ∧ c = 2 ^ k.
Proof.
  intros Hc. unfold nkit_deque_create. intros H. destruct (avail <? 0); [done|].
  destruct (Z.eqb_spec c 0) as [|Hne]; [done|]. cbn [orb] in H.
  rewrite (u32_small (c - 1)) in H by (unfold is_u32; lia).
  destruct (Z.eqb_spec (Z.land c (c - 1)) 0) as [Hl|]; [|done]. cbn [negb] in H.
  destruct a1, a2; simplify_eq/=. split; [done|].
  apply land_pred_pow2 in Hl; [|lia]. destruct Hl as (k & Hk & ->). exists k. split; [|done]. split; [done|].
  destruct (decide (k ≤ 31)) as [|Hgt]; [done|]. assert (2 ^ 32 ≤ 2 ^ k) by (apply Z.pow_le_mono_r; lia). lia.
Qed.

Lemma create_node_spec slots i np mem : create_node os slots i = Ret (Some np, mem) → node_created slots i np.
Proof using Hos.
  unfold create_node. pose proof pool_capacity_bounds as Hcap. intros H.
  destruct (nkit_deque_create _ _ _ _ _ _) as [dq|] eqn:Hdq; [|done].
  destruct (po_ring os i capacity) as [r|] eqn:Hr; [|done].
  destruct (po_array os i) as [base|] eqn:Ha; [|done].
  destruct (deque_create_start _ _ _ _ _ capacity _ slots ltac:(lia) Hdq) as [Ed Hk].
  destruct (oo_ring i capacity r ltac:(lia) Hr) as [Hrep Hc]. pose proof (length_task_ptrs base) as Hlen.
  destruct (populate_fills (task_ptrs os base) r [] Hrep) as (r' & Hpop & Hrep' & Hc'); [cbn; lia|].
  rewrite Hpop in H. destruct (po_malloc_threads os i); [|done]. cbn [negb] in H.
  assert (En : node_ptrs i = task_ptrs os base) by (unfold node_ptrs; by rewrite Ha).
  assert (Hfull : Z.of_nat (length (node_ptrs i)) = capacity ∧ bq_cap r' = capacity) by (rewrite En; split; congruence).
  rewrite <-En in Hrep'. rewrite Ed in H.
  destruct (1 <? num_nodes os)%nat eqn:E1; [destruct (po_malloc_order os i); [|done]|];
    cbn [negb] in H; injection H as <- _;
    split; cbn [np_capacity np_task_queue np_free_queue np_steal_order np_live]; rewrite ?E1; done.
Qed.

Lemma create_nodes_spec slots ids nodes mem :
  create_nodes os slots ids = Ret (Some nodes, mem) → Forall2 (node_created slots) ids nodes.
Proof using Hos.
  revert nodes mem. induction ids as [|i ids IH]; intros nodes mem H; cbn [create_nodes] in H; [by simplify_eq|].
  destruct (create_node os slots i) as [[[np|] m1]|] eqn:E1; cbn in H; try done.
  destruct (create_nodes os slots ids) as [[[l|] m2]|] eqn:E2; cbn in H; simplify_eq.
  constructor; [by eapply create_node_spec|by eapply IH].
Qed.

(** Starting the workers fills in the handles and nothing else. *)
Lemma start_nodes_spec slots ids nodes : ∀ next,
  Forall2 (node_created slots) ids nodes → Forall2 (node_created slots) ids (start_nodes os next ids nodes).
Proof.
  intros next H. revert next. induction H as [|i np ids nodes H _ IH]; intros next; cbn [start_nodes]; [done|].
  constructor; [|apply IH]. destruct H. by split.
Qed.

Lemma pool_create_spec clients s :
  nkit_pool_create os clients = Ret (Some s, []) →
  ps_threads s = start_workers os ++ replicate clients ClIdle ∧
  Forall2 (node_created (length (ps_threads s))) (seq 0 (num_nodes os)) (ps_nodes s) ∧
  ps_tasks s = task_memory os ∧ ps_stop s = false ∧ ps_destroy s = DsRunning.
Proof using Hos.
  unfold nkit_pool_create. intros H. destruct (po_numa_available os <? 0); [done|].
  destruct (po_malloc_pool os); [|done]. destruct (po_calloc_nodes os); [|done]. cbn [negb] in H.
  destruct (create_nodes _ _ _) as [[[nodes|] mem]|] eqn:E; cbn in H; simplify_eq. cbn.
  split_and!; auto. by eapply start_nodes_spec, create_nodes_spec.
Qed.

(** The threads of a new pool are outside every call. *)
Lemma new_thread clients pc :
  pc ∈ start_workers os ++ replicate clients ClIdle → (∃ i, pc = WkStop i 0) ∨ pc = ClIdle.
Proof.
  intros [H|[-> _]%elem_of_replicate]%elem_of_app; [|by right]. left. unfold start_workers in H.
  apply list_elem_of_In, in_concat in H as (l & Hl & Hpc).
  apply list_elem_of_In, list_elem_of_fmap in Hl as (i & -> & _).
  apply list_elem_of_In, elem_of_replicate in Hpc as [-> _]. eauto.
Qed.

(** A new pool satisfies the invariant. *)
Lemma pool_create_ok clients s :
  nkit_pool_create os clients = Ret (Some s, []) → pool_ok all_ptrs home_of 0 [] s.
Proof using Hos.
  intros (Et & Hnodes & Em & _ & _)%pool_create_spec.
  pose proof (Forall2_length _ _ _ Hnodes) as Hlen. rewrite length_seq in Hlen.
  assert (Hnode : ∀ q np, ps_nodes s !! q = Some np →
    (q < num_nodes os)%nat ∧ node_created (length (ps_threads s)) q np).
  { intros q np Hq. destruct (Forall2_lookup_r _ _ _ _ _ Hnodes Hq) as (i & Hi & Hnp).
    apply lookup_seq in Hi as [-> Hlt]. by split. }
  assert (Hpc : ∀ u pc, ps_threads s !! u = Some pc → (∃ i, pc = WkStop i 0) ∨ pc = ClIdle).
  { intros u pc Hu. apply (new_thread clients). rewrite <-Et. by eapply list_elem_of_lookup_2. }
  assert (Hnone : ∀ {B} (f : tp_pc → list B), (∀ i, f (WkStop i 0) = []) → f ClIdle = [] →
    holdings f (ps_threads s) = []).
  { intros B f H1 H2. apply holdings_none. intros pc [u Hu]%list_elem_of_lookup.
    destruct (Hpc u pc Hu) as [[i ->]| ->]; auto. }
  assert (Hitems : holdings id (replicate (num_nodes os) ([] : list Z)) = []) by by apply holdings_replicate.
  assert (Hin : ∀ q f, all_frees !! q = Some f → f = node_ptrs q ∧ (q < num_nodes os)%nat).
  { intros q f Hf. apply list_lookup_fmap_Some in Hf as (i & -> & Hi). by apply lookup_seq in Hi as [-> Hlt]. }
  exists all_frees, (replicate (num_nodes os) []). split; cbn; rewrite ?Em.
  - unfold all_frees. rewrite length_fmap, length_seq. lia.
  - rewrite length_replicate. lia.
  - intros q np f Hq Hf. destruct (Hnode q np Hq) as [Hlt [? ? ? Hfree]]. by destruct (Hin q f Hf) as [-> _].
  - intros q np it Hq Hit. apply lookup_replicate in Hit as [-> _].
    destruct (Hnode q np Hq) as [Hlt [_ (k & Hk & Ek) -> _ _ _ _]]. exists None. split.
    + rewrite Ek. by apply held_start.
    + intros u pc Hu. destruct (Hpc u pc Hu) as [[i ->]| ->]; apply not_elem_of_nil.
  - rewrite Hitems, Hnone by done. by rewrite !app_nil_r.
  - intros x (q & f & Hq & Hx)%elem_of_holdings. destruct (Hin q f Hq) as [-> Hlt].
    unfold home_of. rewrite (task_memory_lookup q x Hlt Hx). by eexists.
  - apply all_frees_home.
  - rewrite Hnone by done. constructor.
  - intros u pc Hu. destruct (Hpc u pc Hu) as [[i ->]| ->]; done.
  - intros u pc Hu. destruct (Hpc u pc Hu) as [[i ->]| ->]; done.
  - rewrite Hitems, Hnone by done. done.
Qed.
End creation.

(** ** What creation returns *)

Lemma seq_split n before i after : seq 0 n = before ++ i :: after → before = seq 0 i ∧ (i < n)%nat.
Proof.
  intros E. assert (Hl : ∀ j, (before ++ i :: after) !! j = seq 0 n !! j) by (by rewrite E).
  assert (Hi : i = length before ∧ (length before < n)%nat).
  { specialize (Hl (length before)). rewrite list_lookup_middle in Hl by done. symmetry in Hl. by apply lookup_seq in Hl. }
  destruct Hi as [-> Hlt]. split; [|done]. apply list_eq. intros j.
  destruct (decide (j < length before)%nat) as [Hj|Hj].
  - specialize (Hl j). rewrite lookup_app_l in Hl by done. rewrite Hl, !lookup_seq_lt by lia. done.
  - rewrite (lookup_ge_None_2 before) by lia. symmetry. apply lookup_ge_None_2. rewrite length_seq. lia.
Qed.

(** [qsort] sorts, for a comparison that is a total preorder. *)
Class Qsort_ok {Q} (os : pool_os Q) : Prop := {
  qs_perm cmp l : po_qsort os cmp l ≡ₚ l;
  qs_sorted cmp l : (∀ a b, cmp a b ≤ 0 ∨ cmp b a ≤ 0) →
    (∀ a b c, cmp a b ≤ 0 → cmp b c ≤ 0 → cmp a c ≤ 0) →
    StronglySorted (λ a b, cmp a b ≤ 0) (po_qsort os cmp l);
}.

Section created.
Context {Q : Type} {BQ : BoundedQueue Q} (os : pool_os Q).
Context {Hos : PoolOS_ok os}.
Abbreviation capacity := (TaskPool.ring_capacity os).

(** The steal order: every other node once, the nearest first. *)
Lemma build_steal_order_spec {Hqs : Qsort_ok os} i :
  build_steal_order os i ≡ₚ filter (λ j, j ≠ i) (seq 0 (num_nodes os)) ∧
  StronglySorted (λ a b, po_distance os i a ≤ po_distance os i b) (build_steal_order os i).
Proof.
  split; [apply qs_perm|]. unfold build_steal_order.
  assert (H : StronglySorted (λ a b, cmp_distance os i a b ≤ 0)
    (po_qsort os (cmp_distance os i) (filter (λ j, j ≠ i) (seq 0 (num_nodes os))))).
  { apply qs_sorted; unfold cmp_distance; lia. }
  induction H as [|a l _ IH Hall]; constructor; [done|]. eapply Forall_impl; [exact Hall|].
  intros b. unfold cmp_distance. lia.
Qed.

(** The capacity: the next power of two after 1024 per worker. *)
Lemma capacity_pow2 : 0 ≤ po_cpus os < 2 ^ 21 → 0 ≤ po_max_node os →
  (∃ k, 10 ≤ k ≤ 31 ∧ capacity = 2 ^ k) ∧ 1024 * cpus_per_node os ≤ capacity < 2048 * cpus_per_node os.
Proof.
  intros Hc Hm. assert (Hn : 1 ≤ cpus_per_node os < 2 ^ 21).
  { unfold cpus_per_node, num_nodes. pose proof (Z.div_le_upper_bound (po_cpus os) (Z.of_nat (Z.to_nat (po_max_node os + 1))) (po_cpus os)).
    pose proof (Z.div_pos (po_cpus os) (Z.of_nat (Z.to_nat (po_max_node os + 1)))).
    destruct (Z.eqb_spec (po_cpus os / Z.of_nat (Z.to_nat (po_max_node os + 1))) 0); [lia|]. nia. }
  unfold TaskPool.ring_capacity. rewrite (u32_small (cpus_per_node os * 1024)) by (unfold is_u32; lia).
  rewrite next_power_of_2_u32_log2 by lia. pose proof (pow2_ceil_bounds (cpus_per_node os * 1024) ltac:(lia)) as Hb.
  set (v := cpus_per_node os * 1024) in *. destruct (Z.ltb_spec (2 ^ (Z.log2 (v - 1) + 1)) 1024); [lia|].
  assert (Hl : 9 ≤ Z.log2 (v - 1) < 31).
  { split; [apply (Z.log2_le_mono 512); lia|apply Z.log2_lt_pow2; lia]. }
  split; [|lia]. exists (Z.log2 (v - 1) + 1). split; [lia|done].
Qed.

(** When a node cannot be created, and when its creation is undefined. *)
Definition node_refused (i : nat) : Prop :=
  po_deque os i ≠ (true, true) ∨ po_ring os i capacity = None ∨ po_array os i = None.
Definition node_unchecked (i : nat) : Prop := po_malloc_threads os i = false ∨ po_malloc_order os i = false.

(** The memory of a whole node, and what a refused one has got. *)
Definition node_mem (i : nat) : list pool_mem :=
  [MemDeque i; MemRing i; MemTasks i; MemThreads i] ++ if (1 <? num_nodes os)%nat then [MemOrder i] else [].
Definition partial_mem (i : nat) : list pool_mem :=
  (if decide (po_deque os i = (true, true)) then [MemDeque i] else []) ++
  held_mem (po_ring os i capacity) (MemRing i) ++ held_mem (po_array os i) (MemTasks i).

Lemma deque_created i :
  0 ≤ po_numa_available os → (∃ k, 10 ≤ k ≤ 31 ∧ capacity = 2 ^ k) →
  match nkit_deque_create (po_numa_available os) (po_deque os i).1 (po_deque os i).2 (po_deque_list os i) (Z.of_nat i) capacity with
  | Some _ => po_deque os i = (true, true)
  | None => po_deque os i ≠ (true, true)
  end.
Proof.
  intros Hav (k & Hk & Ek). pose proof (pool_capacity_bounds os) as Hcap. unfold nkit_deque_create.
  rewrite (proj2 (Z.ltb_ge _ _)) by lia. rewrite (proj2 (Z.eqb_neq _ _)) by lia.
  rewrite u32_small by (unfold is_u32; lia).
  rewrite (proj2 (land_pred_pow2 capacity ltac:(lia))) by (exists k; split; [lia|done]). cbn.
  by destruct (po_deque os i) as [[] []].
Qed.

Lemma create_node_fails slots i :
  0 ≤ po_numa_available os → (∃ k, 10 ≤ k ≤ 31 ∧ capacity = 2 ^ k) →
  match create_node os slots i with
  | UB => node_unchecked i
  | Ret (None, mem) => node_refused i ∧ mem = partial_mem i
  | Ret (Some _, mem) => mem = node_mem i
  end.
Proof using Hos.
  intros Hav Hk. pose proof (pool_capacity_bounds os) as Hcap. unfold create_node, node_refused, node_unchecked, partial_mem, node_mem.
  pose proof (deque_created i Hav Hk) as Hdq.
  destruct (nkit_deque_create _ _ _ _ _ _) as [dq|]; [rewrite decide_True by done|rewrite decide_False by done; auto].
  destruct (po_ring os i capacity) as [r|] eqn:Hr; [|auto].
  destruct (po_array os i) as [base|]; [|auto].
  destruct (oo_ring i capacity r ltac:(lia) Hr) as [Hrep Hc]. pose proof (length_task_ptrs os base) as Hlen.
  destruct (populate_fills (task_ptrs os base) r [] Hrep) as (r' & -> & _); [cbn; lia|].
  destruct (po_malloc_threads os i), (po_malloc_order os i), (1 <? num_nodes os)%nat; cbn; auto.
Qed.

Lemma create_nodes_fails slots ids :
  0 ≤ po_numa_available os → (∃ k, 10 ≤ k ≤ 31 ∧ capacity = 2 ^ k) →
  match create_nodes os slots ids with
  | UB => ∃ i, i ∈ ids ∧ node_unchecked i
  | Ret (None, mem) => ∃ before i after, ids = before ++ i :: after ∧ node_refused i ∧
      mem = concat (node_mem <$> before) ++ partial_mem i
  | Ret (Some _, _) => True
  end.
Proof using Hos.
  intros Hav Hk. induction ids as [|i ids IH]; [done|]. cbn [create_nodes].
  pose proof (create_node_fails slots i Hav Hk) as Hi.
  destruct (create_node os slots i) as [[[np|] m1]|]; cbn;
    [|by exists [], i, ids; destruct Hi|exists i; by split; [left|]].
  destruct (create_nodes os slots ids) as [[[l|] m2]|]; cbn; [done| |].
  - destruct IH as (before & j & after & -> & Hj & ->). exists (i :: before), j, after. cbn. by rewrite Hi, app_assoc.
  - destruct IH as (j & Hj & H). exists j. by split; [right|].
Qed.
End created.

(** ** Counting *)

(** The number of tasks the deques report. *)
Definition deques_size {Q} (s : pool_state Q) : Z :=
  foldr Z.add 0 ((λ np, nkit_deque_size (dqs_deque (np_task_queue np))) <$> ps_nodes s).

Section counting.
Context {Q : Type} {BQ : BoundedQueue Q} (all : list Z) (home : Z → nat).
Implicit Types (s : pool_state Q).

(** Outside pushes and pops, the deques report the tasks in them. *)
Lemma deques_size_items n es s frees items :
  pool_inv all home n es s frees items → Z.of_nat n < 2 ^ 30 → holdings owner_call (ps_threads s) = [] →
  deques_size s = Z.of_nat (length (holdings id items)).
Proof.
  intros I Hn Hnone.
  assert (Hsz : Forall2 (λ np it, nkit_deque_size (dqs_deque (np_task_queue np)) = Z.of_nat (length it))
    (ps_nodes s) items).
  { apply Forall2_same_length_lookup_2; [by rewrite (pi_items _ _ _ _ _ _ _ I)|]. intros q np it Hq Hit.
    destruct (pi_deque _ _ _ _ _ _ _ I q np it Hq Hit) as ([u|] & Hg & Hc).
    - destruct Hc as (pc & Hu & Hin). assert (Hx : q ∈ holdings owner_call (ps_threads s))
        by (apply elem_of_holdings; eauto). rewrite Hnone in Hx. by apply elem_of_nil in Hx.
    - by apply (held_size n). }
  unfold deques_size. clear I. induction Hsz as [|np it nodes items0 E _ IH]; [done|].
  cbn. rewrite E. rewrite IH, length_app. unfold holdings, id. lia.
Qed.

(** The structures of one node among all. *)
Lemma filter_home frees q f :
  (∀ i l x, frees !! i = Some l → x ∈ l → home x = i) → frees !! q = Some f →
  filter (λ x, home x = q) (holdings id frees) = f.
Proof.
  intros Hhome Hf.
  assert (Hgen : ∀ b, (∀ i l x, frees !! i = Some l → x ∈ l → home x = b + i)%nat →
    filter (λ x, home x = b + q)%nat (holdings id frees) = default [] (frees !! q)).
  { clear Hhome Hf f. revert q. induction frees as [|g frees IH]; intros q b H; [done|].
    cbn. rewrite filter_app. unfold id. destruct q as [|q]; cbn.
    - rewrite filter_all by (intros x Hx; by apply (H 0%nat g)).
      rewrite <-(app_nil_r g) at 2. f_equal. apply filter_none.
      intros x (i & l & Hi & Hx)%elem_of_holdings. rewrite (H (S i) l x Hi Hx). lia.
    - rewrite (filter_none _ g) by (intros x Hx; rewrite (H 0%nat g x eq_refl Hx); lia).
      etrans; [|apply (IH q (S b)); intros i l x Hi Hx; rewrite (H (S i) l x Hi Hx); lia].
      apply list_filter_iff. intros x. lia. }
  specialize (Hgen 0%nat). cbn in Hgen. by rewrite Hgen, Hf.
Qed.
End counting.

(** ** Every task runs once *)

(** A pool of two nodes with [n] processors each, on rings from [Ring]. *)
Definition demo_pool (n : Z) : pool_os nkit_ring_t := {|
  po_numa_available := 0;
  po_malloc_pool := true;
  po_max_node := 1;
  po_calloc_nodes := true;
  po_cpus := 2 * n;
  po_deque := λ _, (true, true);
  po_deque_list := λ _, true;
  po_ring := λ i c, match nkit_ring_create (demo_os false true) (Z.of_nat i) c with Ret r => r | UB => None end;
  po_array := λ i, Some (2 ^ 30 + 2 ^ 40 * Z.of_nat i);
  po_malloc_threads := λ _, true;
  po_malloc_order := λ _, true;
  po_distance := λ i j, if decide (i = j) then 10 else 20;
  po_qsort := λ cmp, merge_sort (λ a b, cmp a b ≤ 0) (H := λ a b, decide (cmp a b ≤ 0));
  po_thread := λ _ _, true;
|}.

#[export] Instance demo_pool_ok n : PoolOS_ok (BQ := ring_queue 0) (demo_pool n).
Proof.
  split.
  - cbn. intros i c r Hc Hr. pose proof (ring_create_spec (demo_os false true) (Z.of_nat i) c (demo_os_ok _ _) ltac:(lia)) as H.
    destruct (nkit_ring_create _ _ _) as [[r'|]|]; simplify_eq. by split; apply H.
  - cbn [demo_pool po_array]. intros i j a b Hne Ha Hb. simplify_eq.
    pose proof (pool_capacity_bounds (demo_pool n)). unfold TASK_SIZE. nia.
Qed.

(** A run of that pool with one submitter. *)
Definition demo_run {L} (step : pool_state nkit_ring_t → L → option (pool_state nkit_ring_t * list tp_event))
    (n : Z) (sched : list L) : option (pool_state nkit_ring_t * list tp_event) :=
  match nkit_pool_create (BQ := ring_queue 0) (demo_pool n) 1 with
  | Ret (Some s0, _) => traced step s0 sched
  | _ => None
  end.

(** A pool that is returned has released nothing. *)
Lemma created_keeps {Q} {BQ : BoundedQueue Q} (os : pool_os Q) clients s mem :
  nkit_pool_create os clients = Ret (Some s, mem) → mem = [].
Proof.
  unfold nkit_pool_create. repeat case_match; try done. destruct (create_nodes _ _ _) as [[[l|] m]|]; cbn; try done.
  by intros [= _ <-].
Qed.

Lemma demo_run_inv {L} step n (sched : list L) s es :
  demo_run step n sched = Some (s, es) →
  ∃ s0, nkit_pool_create (BQ := ring_queue 0) (demo_pool n) 1 = Ret (Some s0, []) ∧ traced step s0 sched = Some (s, es).
Proof. unfold demo_run. intros H. destruct (nkit_pool_create _ _) as [[[s0|] mem]|] eqn:E; try done. exists s0.
  by rewrite (created_keeps _ _ _ _ E). Qed.

(** A function of the state and the trace, evaluated at the end of a run. *)
Lemma observed {S A} (f : S → list tp_event → A) (r : option (S * list tp_event)) v :
  (λ r, f r.1 r.2) <$> r = Some v → ∃ s es, r = Some (s, es) ∧ f s es = v.
Proof. intros ([s es] & -> & ->)%fmap_Some. eauto. Qed.

Definition summary (s : pool_state nkit_ring_t) (es : list tp_event) :=
  (submitted es, executed es, ps_threads s, deques_size s, ps_destroy s, length (ps_nodes s), ps_stop s).

Definition goes (u k : nat) : list tp_label := replicate k (TpGo u true).

(** Worker 1 steals and runs the task submitted to node 0; then another one is
    submitted, to a node that does not exist. *)
Definition demo_pool_sched : list tp_label :=
  TpSubmit 2 0 100 1 :: goes 2 6 ++ goes 1 14 ++ TpSubmit 2 7 100 2 :: goes 2 6.

Lemma demo_pool_observed :
  (λ r, summary r.1 r.2) <$> demo_run (tp_step_owned (BQ := ring_queue 0)) 1 demo_pool_sched =
    Some ([(100, 1); (100, 2)], [(100, 1)], [WkStop 0 0; WkStop 1 0; ClIdle], 1, DsRunning, 2%nat, false).
Proof. by vm_compute. Qed.

(** C2. Every task the pool accepts runs once.  From a pool that
    [nkit_pool_create] returned, with any number of nodes, workers and submitters,
    in every interleaving of fewer than 2^30 steps in which the pushes and pops of
    one deque do not overlap (steals may overlap with everything), through failed
    allocations, full queues and the pool's destruction: the accepted tasks are,
    with multiplicity and with their arguments, the executed ones and the waiting
    ones; no task structure is in the hands of two threads; and whenever no push
    or pop is in progress, as many tasks wait as the deques report and workers
    have just taken. *)
Theorem pool_runs_each_task_once {Q} {BQ : BoundedQueue Q} (os : pool_os Q) {Hos : PoolOS_ok os}
    clients s0 sched s es :
  nkit_pool_create os clients = Ret (Some s0, []) → Z.of_nat (length sched) < 2 ^ 30 →
  traced tp_step_owned s0 sched = Some (s, es) →
  NoDup (holdings tp_hold (ps_threads s)) ∧
  ∃ waiting, submitted es ≡ₚ executed es ++ waiting ∧
    (holdings owner_call (ps_threads s) = [] →
       Z.of_nat (length waiting) = deques_size s + Z.of_nat (length (holdings tp_pending (ps_threads s)))).
Proof.
  intros H0 Hlen Hr. pose proof (NoDup_all os) as Hall.
  destruct (pool_run _ _ s0 sched s es Hall (pool_create_ok os clients s0 H0) Hlen Hr) as (frees & items & I).
  split.
  - rewrite <-(pi_perm _ _ _ _ _ _ _ I) in Hall.
    by apply NoDup_app in Hall as (_ & _ & (_ & _ & ?)%NoDup_app).
  - eexists. split; [apply (pi_account _ _ _ _ _ _ _ I)|]. intros Hnone.
    rewrite (deques_size_items _ _ _ _ _ _ _ I Hlen Hnone), length_fmap, length_app. lia.
Qed.

Lemma pool_runs_each_task_once_witness :
  ∃ s es, demo_run (tp_step_owned (BQ := ring_queue 0)) 1 demo_pool_sched = Some (s, es) ∧
    executed es = [(100, 1)] ∧ ∃ waiting, submitted es ≡ₚ executed es ++ waiting ∧ Z.of_nat (length waiting) = 1.
Proof.
  destruct (observed summary _ _ demo_pool_observed) as (s & es & Hr & E). exists s, es. split; [done|].
  destruct (demo_run_inv _ _ _ _ _ Hr) as (s0 & H0 & Ht). injection E as E1 E2 E3 E4 E5 E6 _.
  destruct (pool_runs_each_task_once (BQ := ring_queue 0) (demo_pool 1) 1 s0 demo_pool_sched s es H0 ltac:(by vm_compute) Ht)
    as (_ & waiting & Hp & Hw).
  split; [done|]. exists waiting. split; [done|]. rewrite E3, E4 in Hw. by apply Hw.
Defined.

(** C30. Structures come home.  In the same runs (those in which the pushes and pops
    of one deque do not overlap), whenever no thread holds a task
    structure or is inside a push or a pop and the deques report no task, every
    node's free queue holds exactly the structures the node was created with, so
    it accepts as many submissions as its capacity again. *)
Theorem pool_structures_come_home {Q} {BQ : BoundedQueue Q} (os : pool_os Q) {Hos : PoolOS_ok os}
    clients s0 sched s es q np :
  nkit_pool_create os clients = Ret (Some s0, []) → Z.of_nat (length sched) < 2 ^ 30 →
  traced tp_step_owned s0 sched = Some (s, es) →
  holdings tp_hold (ps_threads s) = [] → holdings owner_call (ps_threads s) = [] → deques_size s = 0 →
  (q < num_nodes os)%nat → ps_nodes s !! q = Some np →
  ∃ f, bq_rep (np_free_queue np) f ∧ f ≡ₚ node_ptrs os q ∧
    Z.of_nat (length f) = TaskPool.ring_capacity os.
Proof.
  intros H0 Hlen Hr Hhold Hcall Hsize Hlt Hq.
  destruct (pool_run _ _ s0 sched s es (NoDup_all os) (pool_create_ok os clients s0 H0) Hlen Hr)
    as (frees & items & I).
  destruct (frees_lookup _ _ _ _ _ _ _ _ _ I Hq) as (f & Hf & Hrep). exists f. split; [done|].
  rewrite (deques_size_items _ _ _ _ _ _ _ I Hlen Hcall) in Hsize.
  assert (Hitems : holdings id items = []) by (apply nil_length_inv; lia).
  pose proof (pi_perm _ _ _ _ _ _ _ I) as Hperm. rewrite Hhold, Hitems, !app_nil_r in Hperm.
  assert (Ef : f ≡ₚ node_ptrs os q).
  { rewrite <-(filter_home (home_of os) frees q f (pi_home _ _ _ _ _ _ _ I) Hf), Hperm.
    unfold all_ptrs. rewrite (filter_home (home_of os) (all_frees os) q (node_ptrs os q)); [done|by apply all_frees_home|].
    apply list_lookup_fmap_Some. exists q. split; [done|]. by apply lookup_seq. }
  split; [done|]. rewrite Ef.
  destruct (pool_create_spec os clients s0 H0) as (_ & Hnodes & _).
  destruct (Forall2_lookup_l _ _ _ q q Hnodes) as (np0 & _ & Hnp0); [by apply lookup_seq|]. apply Hnp0.
Qed.

(** A task submitted, run and given back. *)
Definition demo_quiet_sched : list tp_label := TpSubmit 2 0 100 1 :: goes 2 6 ++ goes 1 14.

Lemma demo_quiet_observed :
  (λ r, summary r.1 r.2) <$> demo_run (tp_step_owned (BQ := ring_queue 0)) 1 demo_quiet_sched =
    Some ([(100, 1)], [(100, 1)], [WkStop 0 0; WkStop 1 0; ClIdle], 0, DsRunning, 2%nat, false).
Proof. by vm_compute. Qed.

Lemma pool_structures_come_home_witness :
  ∃ s es, demo_run (tp_step_owned (BQ := ring_queue 0)) 1 demo_quiet_sched = Some (s, es) ∧
    match ps_nodes s !! 0%nat with
    | Some np => ∃ f, ring_rep (np_free_queue np) f ∧ Z.of_nat (length f) = 1024
    | None => False
    end.
Proof.
  destruct (observed summary _ _ demo_quiet_observed) as (s & es & Hr & E). exists s, es. split; [done|].
  destruct (demo_run_inv _ _ _ _ _ Hr) as (s0 & H0 & Ht). injection E as E1 E2 E3 E4 E5 E6 _.
  destruct (ps_nodes s !! 0%nat) as [np|] eqn:Hq.
  2:{ apply lookup_ge_None in Hq. rewrite E6 in Hq. lia. }
  destruct (pool_structures_come_home (BQ := ring_queue 0) (demo_pool 1) 1 s0 demo_quiet_sched s es 0 np H0)
    as (f & Hrep & _ & Hlen).
  - by vm_compute.
  - done.
  - by rewrite E3.
  - by rewrite E3.
  - by rewrite E4.
  - apply Nat.ltb_lt. by vm_compute.
  - done.
  - exists f. split; [done|]. etrans; [exact Hlen|by vm_compute].
Defined.

(** ** Creation *)

#[export] Instance demo_qsort_ok n : Qsort_ok (demo_pool n).
Proof.
  split; cbn; intros cmp l.
  - apply merge_sort_Permutation.
  - intros Htot Htrans. assert (Total (λ a b, cmp a b ≤ 0)) by exact Htot.
    assert (Transitive (λ a b, cmp a b ≤ 0)) by exact Htrans. by apply StronglySorted_merge_sort.
Qed.

(** C31. What [nkit_pool_create] returns, for fewer than 2^21 processors.  NULL
    only without NUMA support or when an allocation it checks fails, and then it has
    freed all it had got: every pointer of the nodes before the one that failed,
    those of the failing node that are not NULL, the array of nodes and the pool.
    It goes wrong only when one of the three allocations it does not check fails.
    Otherwise it returns a pool with a node for every NUMA node, each with an empty
    deque, a power-of-two capacity of at least 1024 per worker and less than twice
    that, as many structures of its own in its free queue, and, with several nodes, a
    steal order that names every other node once, the nearest ones first. *)
Theorem pool_create_sound {Q} {BQ : BoundedQueue Q} (os : pool_os Q) {Hos : PoolOS_ok os} {Hqs : Qsort_ok os} clients :
  0 ≤ po_cpus os < 2 ^ 21 → 0 ≤ po_max_node os →
  match nkit_pool_create os clients with
  | UB => po_calloc_nodes os = false ∨ ∃ i, (i < num_nodes os)%nat ∧ node_unchecked os i
  | Ret (None, released) =>
      ((po_numa_available os < 0 ∨ po_malloc_pool os = false) ∧ released = []) ∨
      ∃ i, (i < num_nodes os)%nat ∧ node_refused os i ∧
        released = concat (node_mem os <$> seq 0 i) ++ partial_mem os i ++ [MemNodes; MemPool]
  | Ret (Some s, _) =>
      length (ps_nodes s) = num_nodes os ∧ ps_stop s = false ∧ deques_size s = 0 ∧
      (∃ k, 10 ≤ k ≤ 31 ∧ TaskPool.ring_capacity os = 2 ^ k) ∧
      1024 * cpus_per_node os ≤ TaskPool.ring_capacity os < 2048 * cpus_per_node os ∧
      ∀ i np, ps_nodes s !! i = Some np →
        bq_rep (np_free_queue np) (node_ptrs os i) ∧
        Z.of_nat (length (node_ptrs os i)) = TaskPool.ring_capacity os ∧
        match np_steal_order np with
        | Some order => order ≡ₚ filter (λ j, j ≠ i) (seq 0 (num_nodes os)) ∧
            StronglySorted (λ a b, po_distance os i a ≤ po_distance os i b) order
        | None => num_nodes os = 1%nat
        end
  end.
Proof.
  intros Hc Hm. destruct (capacity_pow2 os Hc Hm) as [Hk [Hb1 Hb2]].
  destruct (nkit_pool_create os clients) as [[[s|] released]|] eqn:E.
  - rewrite (created_keeps _ _ _ _ E) in E. destruct (pool_create_spec os clients s E) as (_ & Hnodes & _ & Hstop & _).
    pose proof (Forall2_length _ _ _ Hnodes) as Hl. rewrite length_seq in Hl.
    split_and!; auto; [|].
    + unfold deques_size. clear -Hnodes. induction Hnodes as [|i np ids nodes H _ IH]; [done|].
      cbn. rewrite IH, (nc_deque _ _ _ _ H). done.
    + intros i np Hi. destruct (Forall2_lookup_r _ _ _ _ _ Hnodes Hi) as (j & Hj & Hnp).
      apply lookup_seq in Hj as [-> Hlt]. cbn [Nat.add] in Hnp. destruct Hnp as [_ _ _ Hfree [Hfull _] Hord _].
      split_and!; auto. rewrite Hord. destruct (1 <? num_nodes os)%nat eqn:E1; [by apply build_steal_order_spec|].
      apply Nat.ltb_ge in E1. lia.
  - unfold nkit_pool_create in E. destruct (Z.ltb_spec (po_numa_available os) 0) as [|Hav]; [left; simplify_eq; auto|].
    destruct (po_malloc_pool os); [right|left; cbn [negb] in E; simplify_eq; auto]. destruct (po_calloc_nodes os); [|done]. cbn [negb] in E.
    pose proof (create_nodes_fails os (length (start_workers os ++ replicate clients ClIdle))
      (seq 0 (num_nodes os)) Hav Hk) as H.
    destruct (create_nodes _ _ _) as [[[l|] mem]|]; try done. injection E as <-.
    destruct H as (before & i & after & Hs & Hi & ->). destruct (seq_split _ _ _ _ Hs) as [-> Hlt].
    exists i. unfold destroy_partial. by rewrite <-app_assoc.
  - unfold nkit_pool_create in E. destruct (Z.ltb_spec (po_numa_available os) 0) as [|Hav]; [done|].
    destruct (po_malloc_pool os); [|done]. destruct (po_calloc_nodes os); [right|by left]. cbn [negb] in E.
    pose proof (create_nodes_fails os (length (start_workers os ++ replicate clients ClIdle))
      (seq 0 (num_nodes os)) Hav Hk) as H.
    destruct (create_nodes _ _ _) as [[[l|] mem]|]; try done. destruct H as (i & Hi%elem_of_seq & H). exists i. split; [lia|done].
Qed.

Lemma pool_create_sound_witness :
  match nkit_pool_create (BQ := ring_queue 0) (demo_pool 1) 1 with
  | Ret (Some s, _) => length (ps_nodes s) = 2%nat ∧ TaskPool.ring_capacity (demo_pool 1) = 1024 ∧
      ∀ np, ps_nodes s !! 1%nat = Some np → ring_rep (np_free_queue np) (node_ptrs (demo_pool 1) 1)
  | _ => False
  end.
Proof.
  pose proof (pool_create_sound (BQ := ring_queue 0) (demo_pool 1) 1 ltac:(cbn; lia) ltac:(cbn; lia)) as H.
  destruct (observed summary _ _ demo_pool_observed) as (s & es & Hr & _).
  destruct (demo_run_inv _ _ _ _ _ Hr) as (s0 & Hs & _).
  rewrite Hs in *. destruct H as (Hl & _ & _ & _ & _ & H). split_and!; [exact Hl|by vm_compute|]. intros np Hnp. by apply (H 1%nat np).
Defined.

(** ** Runs in which pushes and pops overlap *)

(** C32. The pool does not keep the pushes and pops of one deque apart, and tasks
    get lost and run twice.  With one worker per node, there is a run in which a
    submission has returned 0 and, with every thread outside any call, no task has
    run and no deque reports one.  With two workers per node, there is a run in
    which, of two tasks submitted, one has run twice, and its structure is about to
    be given back twice. *)
Theorem pool_overlap_loses_and_repeats :
  (∃ sched s es, demo_run (tp_step (BQ := ring_queue 0)) 1 sched = Some (s, es) ∧
     submitted es = [(100, 1)] ∧ executed es = [] ∧ deques_size s = 0 ∧
     ps_threads s = [WkStop 0 1; WkStop 1 0; ClIdle] ∧ ps_stop s = false) ∧
  (∃ sched s es x, demo_run (tp_step (BQ := ring_queue 0)) 2 sched = Some (s, es) ∧
     submitted es = [(100, 1); (100, 2)] ∧ executed es = [(100, 2); (100, 2)] ∧
     ps_threads s = [WkReturn 0 x; WkReturn 0 x; WkStop 1 0; WkStop 1 0; ClIdle]).
Proof.
  split.
  - exists (TpSubmit 2 0 100 1 :: goes 2 3 ++ goes 0 5 ++ goes 2 3 ++ goes 0 5).
    match goal with |- ∃ s es, ?run = _ ∧ _ => destruct (observed summary run
      ([(100, 1)], [], [WkStop 0 1; WkStop 1 0; ClIdle], 0, DsRunning, 2%nat, false)) as (s & es & -> & E); [by vm_compute|] end.
    injection E. eauto 10.
  - exists (TpSubmit 4 0 100 1 :: goes 4 6 ++ TpSubmit 4 0 100 2 :: goes 4 6 ++
            concat (replicate 7 [TpGo 0 true; TpGo 1 true])).
    match goal with |- ∃ s es x, ?run = _ ∧ _ => destruct (observed summary run
      ([(100, 1); (100, 2)], [(100, 2); (100, 2)],
       [WkReturn 0 1073741848; WkReturn 0 1073741848; WkStop 1 0; WkStop 1 0; ClIdle], 1, DsRunning, 2%nat, false))
      as (s & es & -> & E); [by vm_compute|] end.
    injection E. eauto 10.
Qed.

(** ** Destruction *)

(** C33. [nkit_pool_destroy] does not wait for the tasks, nor for all the workers
    before it frees.  There is a run in which an accepted task has not run when
    destruction ends; and one in which a worker of node 1 is inside a steal from
    the deque of node 0 when that deque has been freed, so that its next access is
    to freed memory. *)
Theorem pool_destroy_cuts_short :
  (∃ sched s es, demo_run (tp_step_owned (BQ := ring_queue 0)) 1 sched = Some (s, es) ∧
     submitted es = [(100, 1)] ∧ executed es = [] ∧ ps_destroy s = DsDone) ∧
  (∃ sched s es np, demo_run (tp_step_owned (BQ := ring_queue 0)) 1 sched = Some (s, es) ∧
     ps_threads s !! 1%nat = Some (WkInSteal 1 0 0) ∧ steal_target (ps_nodes s) 1 0 = Some 0%nat ∧
     ps_nodes s !! 0%nat = Some np ∧ np_live np = false ∧
     tp_step (BQ := ring_queue 0) s (TpGo 1 true) = None).
Proof.
  split.
  - exists (TpSubmit 2 0 100 1 :: goes 2 6 ++ TpDestroy :: goes 0 1 ++ goes 1 1 ++ replicate 7 TpDestroy).
    match goal with |- ∃ s es, ?run = _ ∧ _ => destruct (observed summary run
      ([(100, 1)], [], [WkExit 0; WkExit 1; ClIdle], 1, DsDone, 2%nat, true)) as (s & es & -> & E); [by vm_compute|] end.
    injection E. eauto 10.
  - exists (goes 1 7 ++ TpDestroy :: goes 0 1 ++ replicate 3 TpDestroy).
    match goal with |- ∃ s es np, ?run = _ ∧ _ => destruct (observed
      (λ s _, (ps_threads s !! 1%nat, steal_target (ps_nodes s) 1 0, np_live <$> ps_nodes s !! 0%nat,
               bool_decide (tp_step (BQ := ring_queue 0) s (TpGo 1 true) = None))) run
      (Some (WkInSteal 1 0 0), Some 0%nat, Some false, true)) as (s & es & -> & E); [by vm_compute|] end.
    injection E as E1 E2 (np & E3 & E4)%fmap_Some E5%bool_decide_eq_true. eauto 10.
Qed.

(** A machine on which the first worker of each node does not start. *)
Definition lame_pool (n : Z) : pool_os nkit_ring_t :=
  let os := demo_pool n in {|
  po_numa_available := po_numa_available os;
  po_malloc_pool := po_malloc_pool os;
  po_max_node := po_max_node os;
  po_calloc_nodes := po_calloc_nodes os;
  po_cpus := po_cpus os;
  po_deque := po_deque os;
  po_deque_list := po_deque_list os;
  po_ring := po_ring os;
  po_array := po_array os;
  po_malloc_threads := po_malloc_threads os;
  po_malloc_order := po_malloc_order os;
  po_distance := po_distance os;
  po_qsort := po_qsort os;
  po_thread := λ _ t, (0 <? t)%nat;
|}.

(** Destruction joins the first [threads_started] handles, which are not those of
    the threads that started when an earlier [pthread_create] failed: with two
    workers per node of which the first does not start, the first join is of a
    handle that was never written. *)
Theorem pool_joins_no_thread :
  match nkit_pool_create (BQ := ring_queue 0) (lame_pool 2) 1 with
  | Ret (Some s0, _) => ∃ s es np, traced (tp_step (BQ := ring_queue 0)) s0 [TpDestroy] = Some (s, es) ∧
      ps_destroy s = DsJoin 0 0 ∧ ps_nodes s !! 0%nat = Some np ∧
      np_started np = 1%nat ∧ np_threads np = [None; Some 0%nat] ∧
      ps_threads s !! 0%nat = Some (WkStop 0 0)
  | _ => False
  end.
Proof.
  assert (E : match nkit_pool_create (BQ := ring_queue 0) (lame_pool 2) 1 with
    | Ret (Some s0, _) => (λ r, (ps_destroy r.1, (λ np, (np_started np, np_threads np)) <$> ps_nodes r.1 !! 0%nat,
        ps_threads r.1 !! 0%nat)) <$> traced (tp_step (BQ := ring_queue 0)) s0 [TpDestroy]
    | _ => None
    end = Some (DsJoin 0 0, Some (1%nat, [None; Some 0%nat]), Some (WkStop 0 0))) by (by vm_compute).
  destruct (nkit_pool_create _ _) as [[[s0|] mem]|]; try done.
  apply fmap_Some in E as ([s es] & Hr & E). exists s, es. injection E as E1 E2 E3.
  symmetry in E2. apply fmap_Some in E2 as (np & Hnp & E2). exists np. injection E2 as E4 E5. by split_and!.
Qed.
