(* ===== verification/TaskPoolLive.v ===== *)
(** * The task pool: waiting tasks are found (src/sched/task_pool.c)

    A worker that runs while nobody is inside a push or a pop finds a waiting task
    wherever it is: in its own deque, or along its steal order, in a bounded number
    of accesses.  The facts about threads and nodes that this needs hold in every
    run, whether or not pushes and pops overlap. *)

From stdpp Require Import prelude gmap sorting.
From Stdlib Require Import ZArith Lia.
From S2P Require Import Prelude Words Arena Ring Deque DequeSeq DequeOwner TaskPool TaskPoolInv TaskPoolRun.
Local Open Scope Z_scope.

Lemma length_filter_ne n m : (n < m)%nat → length (filter (λ j, j ≠ n) (seq 0 m)) = (m - 1)%nat.
Proof.
  intros Hn. assert (H : n :: filter (λ j, j ≠ n) (seq 0 m) ≡ₚ seq 0 m).
  { apply NoDup_Permutation; [|apply NoDup_seq|].
    - apply NoDup_cons. split; [rewrite list_elem_of_filter; naive_solver|]. apply NoDup_filter, NoDup_seq.
    - intros j. rewrite elem_of_cons, list_elem_of_filter, !elem_of_seq. destruct (decide (j = n)); naive_solver lia. }
  apply Permutation_length in H. rewrite length_seq in H. cbn in H. lia.
Qed.

Section pool.
Context {Q : Type} {BQ : BoundedQueue Q}.
Implicit Types (s : pool_state Q) (nodes : list (nkit_node_pool_t Q)).

(** ** What every step keeps *)

(** The deque a thread is inside a call of. *)
Definition busy_at nodes (pc : tp_pc) (q : nat) : Prop :=
  match pc with
  | WkInPop n _ => q = n
  | ClInPush t _ _ _ _ => q = t
  | WkInSteal n i _ => steal_target nodes n i = Some q
  | _ => False
  end.

(** The node of a worker. *)
Definition tp_node (pc : tp_pc) : option nat :=
  match pc with
  | WkStop n _ | WkInPop n _ | WkSteal n _ _ | WkInSteal n _ _ | WkRun n _ | WkReturn n _ | WkExit n => Some n
  | _ => None
  end.

Record pool_static (orders : list (option (list nat))) s : Prop := {
  st_orders : np_steal_order <$> ps_nodes s = orders;
  st_running : ps_destroy s = DsRunning → ps_stop s = false ∧ Forall (λ np, np_live np = true) (ps_nodes s);
  st_nodes u pc n : ps_threads s !! u = Some pc → tp_node pc = Some n → (n < length orders)%nat;
  st_places q np : ps_nodes s !! q = Some np → length (dqs_threads (np_task_queue np)) = length (ps_threads s);
  st_busy u q np p : ps_nodes s !! q = Some np → dqs_threads (np_task_queue np) !! u = Some p → p ≠ DqIdle →
    ∃ pc, ps_threads s !! u = Some pc ∧ busy_at (ps_nodes s) pc q;
}.

Lemma steal_target_same nodes nodes' n i :
  np_steal_order <$> nodes' = np_steal_order <$> nodes → steal_target nodes' n i = steal_target nodes n i.
Proof.
  intros E. pose proof (f_equal length E) as El. rewrite !length_fmap in El.
  pose proof (f_equal (.!! n) E) as En. cbn in En. rewrite !list_lookup_fmap in En.
  unfold steal_target. rewrite El.
  destruct (nodes' !! n), (nodes !! n); cbn in En; simplify_eq; [|done]. by rewrite En.
Qed.

Lemma task_live_same nodes nodes' t :
  np_live <$> nodes' = np_live <$> nodes → task_live nodes' t = task_live nodes t.
Proof.
  intros E. pose proof (f_equal (.!! task_home t) E) as En. cbn in En. rewrite !list_lookup_fmap in En.
  unfold task_live. destruct (nodes' !! _), (nodes !! _); cbn in En; by simplify_eq.
Qed.

Lemma busy_at_same nodes nodes' pc q :
  np_steal_order <$> nodes' = np_steal_order <$> nodes → busy_at nodes pc q → busy_at nodes' pc q.
Proof. intros E. destruct pc; cbn; auto. by rewrite (steal_target_same nodes nodes' _ _ E). Qed.

(** How a step of thread [u] moves it. *)
Inductive step_shape (u : nat) nodes (pc : tp_pc) nodes' (pc' : tp_pc) : Prop :=
| shape_start q l des :
    on_deque nodes q l = Some (nodes', des) → place l = u → (∀ q', ¬ busy_at nodes pc q') →
    busy_at nodes pc' q → step_shape u nodes pc nodes' pc'
| shape_advance q ok des :
    on_deque nodes q (DqAdvance u ok) = Some (nodes', des) → (∀ q', busy_at nodes pc q' → q' = q) →
    (des = [] → busy_at nodes pc' q) → step_shape u nodes pc nodes' pc'
| shape_free :
    same_deques nodes nodes' → np_steal_order <$> nodes' = np_steal_order <$> nodes →
    np_live <$> nodes' = np_live <$> nodes → (∀ q', ¬ busy_at nodes pc q') → step_shape u nodes pc nodes' pc'.

Lemma shape_same u nodes pc pc' : (∀ q', ¬ busy_at nodes pc q') → step_shape u nodes pc nodes pc'.
Proof. intros H. apply shape_free; auto. by apply Forall2_same_length_lookup_2; [|intros; simplify_eq]. Qed.

Lemma shape_queue u nodes pc pc' q np r :
  nodes !! q = Some np → (∀ q', ¬ busy_at nodes pc q') → step_shape u nodes pc (<[q := with_free np r]> nodes) pc'.
Proof.
  intros Hq H. apply shape_free; auto.
  - by apply (same_deques_insert _ _ np).
  - rewrite list_fmap_insert. apply list_insert_id. rewrite list_lookup_fmap, Hq. done.
  - rewrite list_fmap_insert. apply list_insert_id. rewrite list_lookup_fmap, Hq. done.
Qed.

Lemma thread_step_shape s u pc ok s' es :
  thread_step s u pc ok = Some (s', es) →
  ∃ nodes' pc', s' = mk_pool nodes' (ps_tasks s) (ps_stop s) (<[u := pc']> (ps_threads s)) (ps_destroy s) ∧
    (tp_node pc' = tp_node pc) ∧ step_shape u (ps_nodes s) pc nodes' pc'.
Proof.
  intros Hs. destruct pc as [m idle|m idle|m i idle|m i idle|m x|m x|m| |q x f a sp|q x f a sp]; cbn [thread_step] in Hs; try done.
  - destruct (ps_stop s).
    { simplify_eq. eexists _, _. split_and!; [done|done|]. apply shape_same. by intros ? []. }
    destruct (on_deque _ _ _) as [[nodes' des]|] eqn:Hd; [|done]. simplify_eq.
    eexists _, _. split_and!; [done|done|]. eapply shape_start; [exact Hd|done|by intros ? []|done].
  - destruct (on_deque _ _ _) as [[nodes' des]|] eqn:Hd; [|done].
    destruct des as [|[] ?]; simplify_eq; (eexists _, _; split_and!; [done|done|]; by eapply shape_advance).
  - destruct (steal_target _ _ _) as [t|] eqn:Ht.
    + destruct (on_deque _ _ _) as [[nodes' des]|] eqn:Hd; [|done]. simplify_eq.
      eexists _, _. split_and!; [done|done|]. eapply shape_start; [exact Hd|done|by intros ? []|done].
    + destruct (nkit_backoff idle) as [[a idle']|]; [|done]. simplify_eq.
      eexists _, _. split_and!; [done|done|]. apply shape_same. by intros ? [].
  - destruct (steal_target _ _ _) as [t|] eqn:Ht; [|done].
    destruct (on_deque _ _ _) as [[nodes' des]|] eqn:Hd; [|done].
    destruct des as [|[] ?]; simplify_eq;
      (eexists _, _; split_and!; [done|done|]; eapply shape_advance; [exact Hd|cbn; intros; congruence|done]).
  - destruct (ps_tasks s !! x) as [t|]; [|done]. destruct (task_live _ t); [|done]. simplify_eq.
    eexists _, _. split_and!; [done|done|]. apply shape_same. by intros ? [].
  - destruct (ps_tasks s !! x) as [t|]; [|done].
    destruct (ps_nodes s !! task_home t) as [np|] eqn:Hq; [|done]. destruct (np_live np); [|done].
    destruct ok; cbn [negb] in Hs; [|simplify_eq; eexists _, _; split_and!; [done|done|]; apply shape_same; by intros ? []].
    destruct (bq_push _ _) as [[[] r]|]; [..|done]; simplify_eq;
      (eexists _, _; split_and!; [done|done|]; apply shape_queue; [done|by intros ? []]).
  - destruct (on_deque _ _ _) as [[nodes' des]|] eqn:Hd; [|done]. simplify_eq.
    eexists _, _. split_and!; [done|done|]. eapply shape_start; [exact Hd|done|by intros ? []|done].
  - destruct (on_deque _ _ _) as [[nodes' des]|] eqn:Hd; [|done].
    assert (H : ∀ pc', tp_node pc' = None → (des = [] → busy_at (ps_nodes s) pc' q) →
      ∃ nodes1 pc1, mk_pool nodes' (ps_tasks s) (ps_stop s) (<[u := pc']> (ps_threads s)) (ps_destroy s) =
        mk_pool nodes1 (ps_tasks s) (ps_stop s) (<[u := pc1]> (ps_threads s)) (ps_destroy s) ∧
        tp_node pc1 = tp_node (ClInPush q x f a sp) ∧ step_shape u (ps_nodes s) (ClInPush q x f a sp) nodes1 pc1).
    { intros pc' Hn Hb. eexists _, _. split_and!; [done|done|]. by eapply shape_advance. }
    destruct des as [|[] ?]; repeat case_match; simplify_eq; by apply H.
Qed.

Lemma on_deque_static nodes q l nodes' des :
  on_deque nodes q l = Some (nodes', des) →
  np_steal_order <$> nodes' = np_steal_order <$> nodes ∧ np_live <$> nodes' = np_live <$> nodes.
Proof.
  intros (np & d & Hq & _ & _ & ->)%on_deque_Some.
  split; rewrite list_fmap_insert; apply list_insert_id; by rewrite list_lookup_fmap, Hq.
Qed.

(** A call that returns leaves its place. *)
Lemma advance_returns d u ok d' e des :
  dq_step d (DqAdvance u ok) = Some (d', e :: des) → dqs_threads d' !! u = Some DqIdle.
Proof.
  intros Hs. cbn [dq_step] in Hs. destruct (dqs_threads d !! u) as [pc|] eqn:Hu; [|done].
  pose proof (lookup_lt_Some _ _ _ Hu) as Hlt.
  destruct (push_step (dqs_deque d) pc ok) as [[[d1 pc1] es1]|] eqn:E1;
    [|destruct (pop_step (dqs_deque d) u pc) as [[[d1 pc1] es1]|] eqn:E2;
      [|destruct (steal_step (dqs_deque d) u pc) as [[[d1 pc1] es1]|] eqn:E3; [|done]]];
    simplify_eq; cbn [dqs_threads]; rewrite list_lookup_insert_eq by done; f_equal;
    destruct pc; cbn [push_step pop_step steal_step] in *; repeat case_match; simplify_eq; done.
Qed.

(** A place that is not idle after an access. *)
Lemma places_after nodes q l nodes' des u q' np' p :
  on_deque nodes q l = Some (nodes', des) → nodes' !! q' = Some np' →
  dqs_threads (np_task_queue np') !! u = Some p → p ≠ DqIdle →
  (u = place l ∧ q' = q ∧ (des = [] ∨ ∀ ok, l ≠ DqAdvance u ok)) ∨
  ∃ np, nodes !! q' = Some np ∧ dqs_threads (np_task_queue np) !! u = Some p ∧ (u ≠ place l ∨ q' ≠ q).
Proof.
  intros (np & d & Hq & _ & Hs & ->)%on_deque_Some Hq' Hu Hp.
  rewrite lookup_insert_decide in Hq' by by eapply lookup_lt_Some. case_decide as E.
  2:{ right. exists np'. auto. }
  simplify_eq. cbn in Hu. destruct (decide (u = place l)) as [->|Hne].
  - left. split_and!; [done|done|]. destruct des as [|e des]; [by left|]. right. intros ok El.
    destruct l; cbn [place] in *; simplify_eq.
    pose proof (advance_returns _ _ _ _ _ _ Hs). congruence.
  - right. exists np. assert (Ho : match l with DqPush v _ | DqPop v | DqSteal v | DqAdvance v _ => u ≠ v end) by by destruct l.
    rewrite (dq_step_other _ _ _ _ u Hs Ho) in Hu. auto.
Qed.

Lemma on_deque_places nodes q l nodes' des n :
  on_deque nodes q l = Some (nodes', des) →
  (∀ q np, nodes !! q = Some np → length (dqs_threads (np_task_queue np)) = n) →
  ∀ q np, nodes' !! q = Some np → length (dqs_threads (np_task_queue np)) = n.
Proof.
  intros (np & d & Hq & _ & Hs & ->)%on_deque_Some Hn.
  apply (forall_insert (λ _ np, length (dqs_threads (np_task_queue np)) = n)); [|eauto].
  cbn. destruct (step_with_nobody _ _ _ _ Hs) as [_ ->]. eauto.
Qed.

(** A move of one thread. *)
Lemma static_moves orders s u pc pc' nodes' tasks' :
  pool_static orders s → ps_threads s !! u = Some pc → tp_node pc' = tp_node pc →
  step_shape u (ps_nodes s) pc nodes' pc' →
  pool_static orders (mk_pool nodes' tasks' (ps_stop s) (<[u := pc']> (ps_threads s)) (ps_destroy s)).
Proof.
  intros [S1 S2 S3 S4 S5] Hu Hnode Hshape. pose proof (lookup_lt_Some _ _ _ Hu) as Hlt.
  assert (Hst : np_steal_order <$> nodes' = np_steal_order <$> ps_nodes s ∧
                np_live <$> nodes' = np_live <$> ps_nodes s).
  { destruct Hshape as [q l des Hd _ _ _|q ok des Hd _ _|_ H1 H2 _]; [by eapply on_deque_static..|by split]. }
  destruct Hst as [Hord Hlive].
  (* the thread that is at a place that is not idle, when it is not [u] *)
  assert (Hkeep : ∀ v q pcv, v ≠ u → ps_threads s !! v = Some pcv → busy_at (ps_nodes s) pcv q →
    ∃ pc0, <[u := pc']> (ps_threads s) !! v = Some pc0 ∧ busy_at nodes' pc0 q).
  { intros v q pcv Hne Hv Hb. exists pcv. rewrite list_lookup_insert_ne by done.
    split; [done|]. by apply (busy_at_same (ps_nodes s)). }
  assert (Hmine : ∀ q, busy_at (ps_nodes s) pc' q → ∃ pc0, <[u := pc']> (ps_threads s) !! u = Some pc0 ∧ busy_at nodes' pc0 q).
  { intros q Hb. exists pc'. rewrite list_lookup_insert_eq by done. split; [done|]. by apply (busy_at_same (ps_nodes s)). }
  split; cbn [ps_nodes ps_threads ps_destroy ps_stop].
  - congruence.
  - intros Hd. destruct (S2 Hd) as [H1 H2]. split; [done|].
    assert (Hf : Forall (λ b, b = true) (np_live <$> nodes')) by (rewrite Hlive; by apply Forall_fmap).
    by apply Forall_fmap in Hf.
  - intros v pcv n Hv. revert n. revert v pcv Hv. apply (forall_insert (λ _ pc, ∀ n, tp_node pc = Some n → (n < length orders)%nat)); [|eauto].
    intros n Hn. apply (S3 u pc); [done|congruence].
  - rewrite length_insert. destruct Hshape as [q l des Hd _ _ _|q ok des Hd _ _|Hsame _ _ _].
    + by eapply on_deque_places.
    + by eapply on_deque_places.
    + intros q np Hq. destruct (same_deques_lookup _ _ _ _ Hsame Hq) as (np0 & Hq0 & ->). eauto.
  - intros v q' np' p Hq' Hv Hp. destruct Hshape as [q l des Hd Hl Hnb Hb|q ok des Hd Hbq Hb|Hsame _ _ Hnb].
    + destruct (places_after _ _ _ _ _ _ _ _ _ Hd Hq' Hv Hp) as [(-> & -> & _)|(np & Hq & Hv' & Hne)].
      { rewrite Hl. by apply Hmine. }
      destruct (S5 v q' np p Hq Hv' Hp) as (pcv & Htv & Hbv).
      apply (Hkeep v q' pcv); auto. intros ->. simplify_eq. by destruct (Hnb q').
    + destruct (places_after _ _ _ _ _ _ _ _ _ Hd Hq' Hv Hp) as [(-> & -> & [-> |Hna])|(np & Hq & Hv' & Hne)].
      * cbn [place] in *. by apply Hmine, Hb.
      * by destruct (Hna ok).
      * destruct (S5 v q' np p Hq Hv' Hp) as (pcv & Htv & Hbv). apply (Hkeep v q' pcv); auto.
        intros ->. simplify_eq. cbn [place] in Hne. destruct Hne as [|Hne]; [done|]. by apply Hne, Hbq.
    + destruct (same_deques_lookup _ _ _ _ Hsame Hq') as (np & Hq & E). rewrite E in Hv.
      destruct (S5 v q' np p Hq Hv Hp) as (pcv & Htv & Hbv). apply (Hkeep v q' pcv); auto.
      intros ->. simplify_eq. by destruct (Hnb q').
Qed.

Lemma static_step orders s l s' es :
  pool_static orders s → tp_step s l = Some (s', es) → pool_static orders s'.
Proof.
  intros S Hs.
  assert (Hsub : ∀ u target f a, ps_threads s !! u = Some ClIdle →
    nkit_pool_submit_to_node s u target f a = Some (s', es) → pool_static orders s').
  { intros u target f a Hu H. unfold nkit_pool_submit_to_node in H.
    destruct (ps_nodes s !! _) as [np|] eqn:Hq; [|done]. destruct (np_live np); [|done].
    destruct (bq_pop _) as [[[x|] r]|]; [|simplify_eq|done].
    - destruct (ps_tasks s !! x) as [t|]; [|done]. simplify_eq.
      eapply static_moves; [done|done|done|]. apply shape_queue; [done|by intros ? []].
    - rewrite <-(list_insert_id (ps_threads s) u ClIdle Hu).
      eapply static_moves; [done|done|done|]. apply shape_queue; [done|by intros ? []]. }
  destruct l as [u target f a|u pages f a|u target|u ok|]; cbn [tp_step] in Hs.
  - destruct (ps_threads s !! u) as [[]|] eqn:Hu; try done. by eapply Hsub.
  - destruct (ps_threads s !! u) as [[]|] eqn:Hu; try done. by eapply Hsub.
  - unfold submit_refused in Hs. repeat case_match; by simplify_eq.
  - destruct (ps_threads s !! u) as [pc|] eqn:Hu; [|done].
    destruct (thread_step_shape _ _ _ _ _ _ Hs) as (nodes' & pc' & -> & Hn & Hsh). by eapply static_moves.
  - clear Hsub. destruct S as [S1 S2 S3 S4 S5].
    assert (H : ∀ nodes' stop ds, (nodes' = ps_nodes s ∨ ∃ i, nodes' = alter freed i (ps_nodes s)) → ds ≠ DsRunning →
      pool_static orders (mk_pool nodes' (ps_tasks s) stop (ps_threads s) ds)).
    { intros nodes' stop ds Hnodes Hds.
      assert (Hl : ∀ q np', nodes' !! q = Some np' → ∃ np, ps_nodes s !! q = Some np ∧
        np_task_queue np' = np_task_queue np).
      { destruct Hnodes as [-> |[i ->]]; [eauto|]. intros q np'. rewrite list_lookup_alter.
        case_decide as E; [subst|eauto]. intros (np & -> & ?)%fmap_Some. exists np. by subst np'. }
      assert (Ho : np_steal_order <$> nodes' = np_steal_order <$> ps_nodes s).
      { destruct Hnodes as [-> |[i ->]]; [done|]. apply list_eq. intros q. rewrite !list_lookup_fmap, list_lookup_alter.
        case_decide; [subst|done]. by destruct (ps_nodes s !! q). }
      split; cbn [ps_nodes ps_threads ps_destroy ps_stop]; [congruence|done|done| |].
      - intros q np' Hq. destruct (Hl q np' Hq) as (np & Hq' & ->). eauto.
      - intros u q np' p Hq Hu Hp. destruct (Hl q np' Hq) as (np & Hq' & E). rewrite E in Hu.
        destruct (S5 u q np p Hq' Hu Hp) as (pc & Hpc & Hb). exists pc. split; [done|]. by apply (busy_at_same (ps_nodes s)). }
    unfold nkit_pool_destroy in Hs. destruct (ps_destroy s); try done.
    + simplify_eq. apply H; [by left|done].
    + repeat case_match; simplify_eq; apply H; (by left) || done.
    + simplify_eq. apply H; [right; eauto|done].
Qed.

(** ** A worker alone *)

Section worker.
Context (u : nat).

Definition moved s nodes' (pc : tp_pc) : pool_state Q :=
  mk_pool nodes' (ps_tasks s) (ps_stop s) (<[u := pc]> (ps_threads s)) (ps_destroy s).

Lemma moved_moved s nodes1 pc1 nodes2 pc2 : moved (moved s nodes1 pc1) nodes2 pc2 = moved s nodes2 pc2.
Proof. unfold moved. cbn. by rewrite list_insert_insert_eq. Qed.

(** [k] accesses of thread [u]. *)
Definition runs s (k : nat) s' (es : list tp_event) : Prop := traced tp_step s (goes u k) = Some (s', es).

Lemma runs_step s pc k s1 es1 s' es :
  ps_threads s !! u = Some pc → thread_step s u pc true = Some (s1, es1) → runs s1 k s' es →
  runs s (S k) s' (es1 ++ es).
Proof.
  unfold runs, goes. intros Hu H1 H2. cbn [replicate traced tp_step]. rewrite Hu, H1, H2. done.
Qed.

Lemma runs_app s k1 s1 es1 k2 s2 es2 :
  runs s k1 s1 es1 → runs s1 k2 s2 es2 → runs s (k1 + k2) s2 (es1 ++ es2).
Proof. unfold runs, goes. intros H1 H2. by rewrite replicate_add, traced_app, H1, H2. Qed.

(** An access inside a deque: the call goes on, or returns with one result. *)
Lemma call_step_shape d pc ok d1 pc1 es1 :
  call_step d u pc ok = Some (d1, pc1, es1) →
  (es1 = [] ∧ pc1 ≠ DqIdle) ∨ (pc1 = DqIdle ∧ ∃ e, es1 = [e]).
Proof.
  unfold call_step. destruct pc; cbn [push_step pop_step steal_step]; intros; repeat case_match; simplify_eq; eauto.
Qed.

Lemma on_deque_call nodes q np d1 pc pc1 es1 :
  nodes !! q = Some np → np_live np = true → dqs_threads (np_task_queue np) !! u = Some pc →
  call_step (dqs_deque (np_task_queue np)) u pc true = Some (d1, pc1, es1) →
  on_deque nodes q (DqAdvance u true) =
    Some (<[q := with_queue np (mk_dqs d1 (<[u := pc1]> (dqs_threads (np_task_queue np))))]> nodes, es1).
Proof.
  intros Hq Hl Hu Hs. unfold on_deque. rewrite Hq, Hl. cbn [dq_step]. rewrite Hu.
  unfold call_step in Hs. by rewrite Hs.
Qed.

(** A call of the deque of node [q] made from [wpc] by a worker, run to its end;
    [next] is where each result takes the worker. *)
Section call.
Context (q : nat) (orders : list (option (list nat))) (wpc : tp_pc) (next : dq_event → tp_pc) (fits : dq_event → Prop).
Hypothesis Hquiet : ∀ s nodes', np_steal_order <$> ps_nodes s = orders →
  on_deque (ps_nodes s) q (DqAdvance u true) = Some (nodes', []) →
  thread_step s u wpc true = Some (moved s nodes' wpc, []).
Hypothesis Hlast : ∀ s nodes' e, np_steal_order <$> ps_nodes s = orders → fits e →
  on_deque (ps_nodes s) q (DqAdvance u true) = Some (nodes', [e]) →
  thread_step s u wpc true = Some (moved s nodes' (next e), []).

Lemma call_runs fuel : ∀ s np p d' e,
  np_steal_order <$> ps_nodes s = orders → ps_threads s !! u = Some wpc →
  ps_nodes s !! q = Some np → np_live np = true → dqs_threads (np_task_queue np) !! u = Some p → p ≠ DqIdle →
  fits e → solo_run (true, true) fuel (dqs_deque (np_task_queue np)) u p = Some (d', [e]) →
  ∃ k, (k ≤ fuel)%nat ∧ runs s k (moved s (<[q := with_queue np (mk_dqs d' (<[u := DqIdle]> (dqs_threads (np_task_queue np))))]>
    (ps_nodes s)) (next e)) [].
Proof using Hquiet Hlast.
  induction fuel as [|fuel IH]; intros s np p d' e Ho Hu Hq Hl Hp Hne Hfit Hr; [by destruct p|].
  assert (Eok : alloc_result (true, true) p = true) by (by destruct p).
  destruct (call_step (dqs_deque (np_task_queue np)) u p true) as [[[d1 p1] es1]|] eqn:E; rewrite <-Eok in E.
  2:{ cbn [solo_run] in Hr. rewrite E in Hr. by destruct p. }
  rewrite (solo_run_step _ _ _ _ _ _ _ _ E) in Hr. rewrite Eok in E.
  destruct (solo_run _ fuel d1 u p1) as [[d2 es2]|] eqn:E2; [|done]. injection Hr as <- Hes.
  pose proof (on_deque_call _ _ _ _ _ _ _ Hq Hl Hp E) as Hd.
  pose proof (lookup_lt_Some _ _ _ Hu) as Hult. pose proof (lookup_lt_Some _ _ _ Hq) as Hqlt.
  pose proof (lookup_lt_Some _ _ _ Hp) as Hplt.
  destruct (call_step_shape _ _ _ _ _ _ E) as [[-> Hp1]|[-> [e1 ->]]].
  - cbn in Hes. subst es2.
    set (np1 := with_queue np (mk_dqs d1 (<[u := p1]> (dqs_threads (np_task_queue np))))) in *.
    destruct (IH (moved s (<[q := np1]> (ps_nodes s)) wpc) np1 p1 d2 e) as (k & Hk & Hrun); auto.
    + cbn [moved ps_nodes]. rewrite <-Ho. apply (on_deque_static _ _ _ _ _ Hd).
    + cbn. by apply list_lookup_insert_eq.
    + cbn. by apply list_lookup_insert_eq.
    + cbn. by apply list_lookup_insert_eq.
    + exists (S k). split; [lia|]. rewrite moved_moved in Hrun. cbn [moved ps_nodes] in Hrun.
      rewrite list_insert_insert_eq in Hrun. cbn [np1 with_queue np_task_queue dqs_threads] in Hrun.
      rewrite list_insert_insert_eq in Hrun.
      apply (runs_step s wpc k (moved s (<[q := np1]> (ps_nodes s)) wpc) []); auto.
  - rewrite solo_run_idle in E2. simplify_eq. injection Hes as ->.
    exists 1%nat. split; [lia|]. by eapply (runs_step s wpc 0 _ [] _ []); [done|by apply Hlast|].
Qed.
End call.

(** Thread [u] is outside every deque, and the deques hold [contents]. *)
Definition ready s (contents : list (list Z)) : Prop :=
  Forall2 (λ np c, np_live np = true ∧ deque_rep (dqs_deque (np_task_queue np)) c ∧
                   dqs_threads (np_task_queue np) !! u = Some DqIdle) (ps_nodes s) contents.

Definition same_frame s s' : Prop :=
  ps_tasks s' = ps_tasks s ∧ np_steal_order <$> ps_nodes s' = np_steal_order <$> ps_nodes s ∧
  np_live <$> ps_nodes s' = np_live <$> ps_nodes s.

Lemma ready_after s contents q np c d' c' pc :
  ready s contents → ps_nodes s !! q = Some np → contents !! q = Some c → deque_rep d' c' →
  let s' := moved s (<[q := with_queue np (mk_dqs d' (<[u := DqIdle]> (dqs_threads (np_task_queue np))))]> (ps_nodes s)) pc in
  ready s' (<[q := c']> contents) ∧ same_frame s s'.
Proof.
  intros R Hq Hc Hd. destruct (Forall2_lookup_lr _ _ _ _ _ _ R Hq Hc) as (Hl & _ & Hu). split.
  - apply Forall2_insert; [done|]. cbn. split_and!; auto. apply list_lookup_insert_eq. by eapply lookup_lt_Some.
  - split; [done|]. cbn [moved ps_nodes].
    split; rewrite list_fmap_insert; apply list_insert_id; by rewrite list_lookup_fmap, Hq.
Qed.

(** A call that begins: the first step, then the call itself. *)
Lemma begin_call nodes q np l p :
  nodes !! q = Some np → np_live np = true → dqs_threads (np_task_queue np) !! u = Some DqIdle →
  (l = DqPop u ∧ p = DqPopBottom) ∨ (l = DqSteal u ∧ p = DqStealTop) →
  on_deque nodes q l =
    Some (<[q := with_queue np (mk_dqs (dqs_deque (np_task_queue np)) (<[u := p]> (dqs_threads (np_task_queue np))))]> nodes, []).
Proof. intros Hq Hl Hu [[-> ->]|[-> ->]]; unfold on_deque; rewrite Hq, Hl; cbn [dq_step]; by rewrite Hu. Qed.

(** A whole call: from [pc] the worker begins it, and is at [wpc] while inside. *)
Lemma whole_call s contents q np c l p pc wpc (next : dq_event → tp_pc) (fits : dq_event → Prop) fuel d' c' e :
  ready s contents → ps_nodes s !! q = Some np → contents !! q = Some c →
  ps_threads s !! u = Some pc →
  (l = DqPop u ∧ p = DqPopBottom) ∨ (l = DqSteal u ∧ p = DqStealTop) →
  (∀ nodes', on_deque (ps_nodes s) q l = Some (nodes', []) → thread_step s u pc true = Some (moved s nodes' wpc, [])) →
  (∀ s1 nodes', np_steal_order <$> ps_nodes s1 = np_steal_order <$> ps_nodes s →
     on_deque (ps_nodes s1) q (DqAdvance u true) = Some (nodes', []) →
     thread_step s1 u wpc true = Some (moved s1 nodes' wpc, [])) →
  (∀ s1 nodes' e, np_steal_order <$> ps_nodes s1 = np_steal_order <$> ps_nodes s → fits e →
     on_deque (ps_nodes s1) q (DqAdvance u true) = Some (nodes', [e]) →
     thread_step s1 u wpc true = Some (moved s1 nodes' (next e), [])) →
  solo_run (true, true) fuel (dqs_deque (np_task_queue np)) u p = Some (d', [e]) → fits e → deque_rep d' c' →
  ∃ k s', (k ≤ S fuel)%nat ∧ runs s k s' [] ∧ ready s' (<[q := c']> contents) ∧ same_frame s s' ∧
    ps_threads s' !! u = Some (next e).
Proof.
  intros R Hq Hc Hu Hlp Hbegin Hquiet Hlast Hsolo Hfit Hrep.
  destruct (Forall2_lookup_lr _ _ _ _ _ _ R Hq Hc) as (Hl & _ & Hidle).
  pose proof (begin_call _ _ _ _ _ Hq Hl Hidle Hlp) as Hd.
  set (np1 := with_queue np (mk_dqs (dqs_deque (np_task_queue np)) (<[u := p]> (dqs_threads (np_task_queue np))))) in *.
  pose proof (lookup_lt_Some _ _ _ Hu) as Hult. pose proof (lookup_lt_Some _ _ _ Hq) as Hqlt.
  pose proof (lookup_lt_Some _ _ _ Hidle) as Hplt.
  destruct (call_runs q (np_steal_order <$> ps_nodes s) wpc next fits Hquiet Hlast fuel
    (moved s (<[q := np1]> (ps_nodes s)) wpc) np1 p d' e) as (k & Hk & Hrun); auto.
  - apply (on_deque_static _ _ _ _ _ Hd).
  - cbn. by apply list_lookup_insert_eq.
  - cbn. by apply list_lookup_insert_eq.
  - cbn. by apply list_lookup_insert_eq.
  - by destruct Hlp as [[_ ->]|[_ ->]].
  - rewrite moved_moved in Hrun. cbn [moved ps_nodes] in Hrun. rewrite list_insert_insert_eq in Hrun.
    cbn [np1 with_queue np_task_queue dqs_threads] in Hrun. rewrite list_insert_insert_eq in Hrun.
    destruct (ready_after s contents q np c d' c' (next e) R Hq Hc Hrep) as [R' F'].
    eexists (S k), _. split; [lia|]. split; [|split_and!; [exact R'|exact F'|]].
    + apply (runs_step s pc k (moved s (<[q := np1]> (ps_nodes s)) wpc) []); auto.
    + cbn. by apply list_lookup_insert_eq.
Qed.

Lemma pop_phase s contents n idle np c :
  ready s contents → ps_stop s = false → ps_threads s !! u = Some (WkStop n idle) →
  ps_nodes s !! n = Some np → contents !! n = Some c →
  ∃ k s', (k ≤ 8)%nat ∧ runs s k s' [] ∧ ready s' (<[n := take (length c - 1) c]> contents) ∧ same_frame s s' ∧
    ps_threads s' !! u = Some (match last c with Some x => WkRun n x | None => WkSteal n 0 idle end).
Proof.
  intros R Hstop Hu Hq Hc. destruct (Forall2_lookup_lr _ _ _ _ _ _ R Hq Hc) as (Hl & Hrep & Hidle).
  destruct (pop_alone (true, true) _ u c Hrep) as (d' & Hsolo & Hrep' & _).
  set (next e := match e with Popped _ x => WkRun n x | _ => WkSteal n 0 idle end).
  set (fits e := match e with Popped _ _ | Nothing _ => True | _ => False end).
  destruct (whole_call s contents n np c (DqPop u) DqPopBottom (WkStop n idle) (WkInPop n idle) next fits 7 d'
    (take (length c - 1) c) (match last c with Some x => Popped u x | None => Nothing u end)) as (k & s' & H); auto.
  - intros nodes' Hd. unfold moved. cbn [thread_step]. by rewrite Hstop, Hd.
  - intros s1 nodes' _ Hd. cbn [thread_step]. by rewrite Hd.
  - intros s1 nodes' e _ Hfit Hd. cbn [thread_step]. rewrite Hd. by destruct e; try destruct Hfit.
  - rewrite Hsolo. by destruct (last c).
  - by destruct (last c).
  - exists k, s'. destruct H as (H1 & H2 & H3 & H4 & H5). split_and!; auto. rewrite H5. by destruct (last c).
Qed.

Lemma steal_phase s contents n i idle t np c :
  ready s contents → ps_threads s !! u = Some (WkSteal n i idle) → steal_target (ps_nodes s) n i = Some t →
  ps_nodes s !! t = Some np → contents !! t = Some c →
  ∃ k s', (k ≤ 6)%nat ∧ runs s k s' [] ∧ ready s' (<[t := tail c]> contents) ∧ same_frame s s' ∧
    ps_threads s' !! u = Some (match c with x :: _ => WkRun n x | [] => WkSteal n (S i) idle end).
Proof.
  intros R Hu Ht Hq Hc. destruct (Forall2_lookup_lr _ _ _ _ _ _ R Hq Hc) as (Hl & Hrep & Hidle).
  destruct (steal_alone (true, true) _ u c Hrep) as (d' & Hsolo & Hrep' & _).
  set (next e := match e with Stolen _ x => WkRun n x | _ => WkSteal n (S i) idle end).
  set (fits e := match e with Stolen _ _ | Nothing _ => True | _ => False end).
  destruct (whole_call s contents t np c (DqSteal u) DqStealTop (WkSteal n i idle) (WkInSteal n i idle) next fits 5 d'
    (tail c) (match c with x :: _ => Stolen u x | [] => Nothing u end)) as (k & s' & H); auto.
  - intros nodes' Hd. cbn [thread_step]. by rewrite Ht, Hd.
  - intros s1 nodes' Ho Hd. cbn [thread_step]. by rewrite (steal_target_same (ps_nodes s)), Ht, Hd.
  - intros s1 nodes' e Ho Hfit Hd. cbn [thread_step]. rewrite (steal_target_same (ps_nodes s)), Ht, Hd by done. by destruct e; try destruct Hfit.
  - rewrite Hsolo. by destruct c.
  - by destruct c.
  - exists k, s'. destruct H as (H1 & H2 & H3 & H4 & H5). split_and!; auto. rewrite H5. by destruct c.
Qed.

(** The stealing loop, from its [i]th target on, when one of the targets left has
    a task: it ends with the oldest task of the first target that has one. *)
Lemma steal_loop order n idle : ∀ m i s contents,
  (i + m = length order)%nat → ready s contents → ps_threads s !! u = Some (WkSteal n i idle) →
  np_steal_order <$> ps_nodes s !! n = Some (Some order) →
  (1 < length (ps_nodes s))%nat → length order = (length (ps_nodes s) - 1)%nat →
  Forall (λ t, t < length (ps_nodes s))%nat order →
  (∃ j t x c, (i ≤ j)%nat ∧ order !! j = Some t ∧ contents !! t = Some (x :: c)) →
  ∃ k s' t x c, (k ≤ 6 * m)%nat ∧ runs s k s' [] ∧ ps_threads s' !! u = Some (WkRun n x) ∧
    contents !! t = Some (x :: c) ∧ ps_tasks s' = ps_tasks s ∧ np_live <$> ps_nodes s' = np_live <$> ps_nodes s.
Proof.
  induction m as [|m IH]; intros i s contents Hm R Hu Hord Hn Hlen Hin (j & t & x & c & Hj & Hjt & Hct).
  { apply lookup_lt_Some in Hjt. lia. }
  destruct (lookup_lt_is_Some_2 order i ltac:(lia)) as [t0 Ht0].
  pose proof (Forall_lookup_1 _ _ _ _ Hin Ht0) as Hlt.
  destruct (lookup_lt_is_Some_2 (ps_nodes s) t0 Hlt) as [np Hq].
  destruct (Forall2_lookup_l _ _ _ _ _ R Hq) as (c0 & Hc0 & _).
  assert (Htarget : steal_target (ps_nodes s) n i = Some t0).
  { unfold steal_target. apply fmap_Some in Hord as (npn & -> & Eo). rewrite <-Eo.
    rewrite (proj2 (Nat.ltb_lt _ _)), (proj2 (Nat.ltb_lt _ _)) by lia. done. }
  destruct (steal_phase s contents n i idle t0 np c0 R Hu Htarget Hq Hc0) as (k & s1 & Hk & Hrun & R1 & (Et & Eo & Elv) & Hu1).
  destruct c0 as [|y c0].
  - assert (Ec : <[t0 := tail []]> contents = contents) by by apply list_insert_id. rewrite Ec in R1.
    pose proof (f_equal length Eo) as El. rewrite !length_fmap in El.
    destruct (IH (S i) s1 contents) as (k' & s' & t' & x' & c' & Hk' & Hrun' & H1 & H2 & H3 & H4); rewrite ?El; auto; [lia|..].
    + rewrite <-list_lookup_fmap, Eo, list_lookup_fmap. done.
    + exists j, t, x, c. split_and!; auto. destruct (decide (j = i)) as [->|]; [|lia]. simplify_eq.
    + exists (k + k')%nat, s', t', x', c'. split; [lia|]. split; [by apply (runs_app s k s1 [])|].
      split_and!; auto; congruence.
  - exists k, s1, t0, y, c0. split_and!; auto. lia.
Qed.

(** A worker finds a task that waits in a deque it looks at. *)
Lemma worker_finds s contents n idle order :
  ready s contents → ps_stop s = false → ps_threads s !! u = Some (WkStop n idle) →
  np_steal_order <$> ps_nodes s !! n = Some order →
  (if (1 <? length (ps_nodes s))%nat then ∃ o, order = Some o ∧
     o ≡ₚ filter (λ j, j ≠ n) (seq 0 (length (ps_nodes s))) else True) →
  (∃ t x c, contents !! t = Some (x :: c)) → (∀ t c x, contents !! t = Some c → x ∈ c → ∃ task, ps_tasks s !! x = Some task ∧ task_live (ps_nodes s) task = true) →
  ∃ k s' t c x task, (k ≤ 9 + 6 * (length (ps_nodes s) - 1))%nat ∧ contents !! t = Some c ∧ x ∈ c ∧
    ps_tasks s !! x = Some task ∧ runs s k s' [Executed x (task_func task) (task_arg task)].
Proof.
  intros R Hstop Hu Hord Horder (t & x & c & Ht) Htasks.
  apply fmap_Some in Hord as (np & Hq & Eo). destruct (Forall2_lookup_l _ _ _ _ _ R Hq) as (cn & Hcn & _).
  pose proof (Forall2_length _ _ _ R) as Hlen. pose proof (lookup_lt_Some _ _ _ Ht) as Htlt.
  pose proof (lookup_lt_Some _ _ _ Hq) as Hnlt.
  destruct (pop_phase s contents n idle np cn R Hstop Hu Hq Hcn) as (k & s1 & Hk & Hrun & R1 & (Et & Es & Elv) & Hu1).
  pose proof (f_equal length Es) as El. rewrite !length_fmap in El.
  assert (Hfound : ∃ k s' t c x, (k ≤ 8 + 6 * (length (ps_nodes s) - 1))%nat ∧ runs s k s' [] ∧
    ps_threads s' !! u = Some (WkRun n x) ∧ contents !! t = Some c ∧ x ∈ c ∧ ps_tasks s' = ps_tasks s ∧
    np_live <$> ps_nodes s' = np_live <$> ps_nodes s).
  { destruct (last cn) as [y|] eqn:Elast.
    - exists k, s1, n, cn, y. split_and!; auto; [lia|]. by apply last_Some_elem_of.
    - apply last_None in Elast as ->. assert (Ec : <[n := take (length (@nil Z) - 1) []]> contents = contents) by by apply list_insert_id.
      rewrite Ec in R1. assert (t ≠ n) by (intros ->; congruence).
      destruct (Nat.ltb_spec 1 (length (ps_nodes s))) as [H1|]; [|lia]. destruct Horder as (o & -> & Ho).
      assert (Holen : length o = (length (ps_nodes s) - 1)%nat).
      { rewrite Ho. pose proof (length_filter_ne n (length (ps_nodes s)) Hnlt). lia. }
      destruct (steal_loop o n idle (length o) 0 s1 contents) as (k' & s' & t' & x' & c' & Hk' & Hrun' & H2 & H3 & H4 & H5);
        rewrite ?El; auto.
      + rewrite <-list_lookup_fmap, Es, list_lookup_fmap, Hq. cbn. congruence.
      + apply Forall_forall. intros j Hj. rewrite Ho in Hj. apply list_elem_of_filter in Hj as [_ Hj%elem_of_seq]. lia.
      + assert (Hto : t ∈ o). { rewrite Ho. apply list_elem_of_filter. split; [done|]. apply elem_of_seq. lia. }
        apply list_elem_of_lookup in Hto as [j Hj]. exists j, t, x, c. split_and!; auto. lia.
      + exists (k + k')%nat, s', t', (x' :: c'), x'. split; [lia|]. split; [by apply (runs_app s k s1 [])|].
        split_and!; auto; [left|congruence..]. }
  destruct Hfound as (k1 & s' & t' & c' & x' & Hk1 & Hrun1 & Hu' & Hc' & Hx' & Et' & Elv').
  destruct (Htasks t' c' x' Hc' Hx') as (task & Htask & Hlv). rewrite <-(task_live_same _ _ _ Elv') in Hlv.
  exists (k1 + 1)%nat. eexists. exists t', c', x', task. split; [lia|]. split_and!; auto.
  apply (runs_app s k1 s' []); [done|]. eapply (runs_step s' _ 0 _ [_] _ []); [exact Hu'| |done].
  cbn [thread_step]. by rewrite Et', Htask, Hlv.
Qed.
End worker.
End pool.

(** ** In a run of a pool *)

(** The contents of a deque nobody pushes to or pops from. *)
Lemma held_rep n d items : dq_held n d items None → ∃ c, items ≡ₚ c ∧ deque_rep (dqs_deque d) c.
Proof.
  intros (pc & c & r & sz & I & Hi). pose proof (iv_pc _ _ _ _ _ _ _ I) as Hpc.
  cbn [holder from_option] in Hpc. rewrite nobody_idle in Hpc. simplify_eq.
  pose proof (iv_owner _ _ _ _ _ _ _ I) as Hr. cbn in Hr. subst r.
  exists c. split; [done|]. exact (dq_inv_rep _ _ _ _ _ _ I).
Qed.

Lemma Forall2_pick {A B C} (P : A → B → C → Prop) (l : list A) (k : list B) :
  Forall2 (λ x y, ∃ z, P x y z) l k → ∃ m, length m = length l ∧
    ∀ i x y z, l !! i = Some x → k !! i = Some y → m !! i = Some z → P x y z.
Proof.
  induction 1 as [|x y l k [z Hz] _ (m & Hm & IH)]; [by exists []|].
  exists (z :: m). split; [cbn; lia|]. intros [|i] a b c Ha Hb Hc; simplify_eq/=; eauto.
Qed.

Section run.
Context {Q : Type} {BQ : BoundedQueue Q} (os : pool_os Q).
Context {Hos : PoolOS_ok os}.

Definition created_orders : list (option (list nat)) :=
  (λ i, if (1 <? num_nodes os)%nat then Some (build_steal_order os i) else None) <$> seq 0 (num_nodes os).

Lemma created_static clients s0 :
  nkit_pool_create os clients = Ret (Some s0, []) → pool_static created_orders s0.
Proof using Hos.
  intros H0. destruct (pool_create_spec os clients s0 H0) as (Et & Hnodes & _ & Hstop & Hds).
  assert (Hnode : ∀ q np, ps_nodes s0 !! q = Some np → node_created os (length (ps_threads s0)) q np).
  { intros q np Hq. destruct (Forall2_lookup_r _ _ _ _ _ Hnodes Hq) as (i & Hi & Hnp).
    apply lookup_seq in Hi as [-> Hlt]. done. }
  split.
  - unfold created_orders. clear -Hnodes. induction Hnodes as [|i np ids nodes H _ IH]; [done|].
    cbn. rewrite IH. f_equal. apply H.
  - intros _. split; [done|]. apply Forall_lookup. intros q np Hq. apply (Hnode q np Hq).
  - intros u pc n Hu Hn. rewrite Et in Hu. apply list_elem_of_lookup_2 in Hu. unfold created_orders.
    rewrite length_fmap, length_seq.
    apply elem_of_app in Hu as [Hu|[-> _]%elem_of_replicate]; [|done].
    apply list_elem_of_In, in_concat in Hu as (l & Hl & Hpc).
    apply list_elem_of_In, list_elem_of_fmap in Hl as (i & -> & Hi%elem_of_seq).
    apply list_elem_of_In, elem_of_replicate in Hpc as [-> _]. cbn in Hn. simplify_eq. lia.
  - intros q np Hq. rewrite (nc_deque _ _ _ _ (Hnode q np Hq)). apply length_replicate.
  - intros u q np p Hq Hu Hp. rewrite (nc_deque _ _ _ _ (Hnode q np Hq)) in Hu.
    by apply lookup_replicate in Hu as [-> _].
Qed.

Lemma run_static clients s0 sched s es :
  nkit_pool_create os clients = Ret (Some s0, []) → traced tp_step_owned s0 sched = Some (s, es) →
  pool_static created_orders s.
Proof using Hos.
  intros H0 Hr. refine (traced_invariant tp_step_owned (λ _ _ s, pool_static created_orders s) s0 _ _ sched s es Hr).
  - by apply (created_static clients).
  - intros n es0 s1 l s2 es1 IH Hs. unfold tp_step_owned in Hs.
    destruct (tp_step s1 l) as [[s3 es3]|] eqn:E; [|done]. case_decide; [|done]. simplify_eq.
    by eapply static_step.
Qed.

(** A worker at the top of its loop, with nobody inside a push or a pop. *)
Lemma run_ready n es s frees items u m idle :
  pool_inv (all_ptrs os) (home_of os) n es s frees items → pool_static created_orders s →
  ps_destroy s = DsRunning → holdings owner_call (ps_threads s) = [] →
  ps_threads s !! u = Some (WkStop m idle) →
  ∃ contents, ready u s contents ∧ ∀ q it c, items !! q = Some it → contents !! q = Some c → it ≡ₚ c.
Proof.
  intros I S Hds Hnone Hu. destruct (st_running _ _ S Hds) as [_ Hlive].
  assert (H : Forall2 (λ np it, ∃ c, it ≡ₚ c ∧ deque_rep (dqs_deque (np_task_queue np)) c) (ps_nodes s) items).
  { apply Forall2_same_length_lookup_2; [by rewrite (pi_items _ _ _ _ _ _ _ I)|]. intros q np it Hq Hit.
    destruct (pi_deque _ _ _ _ _ _ _ I q np it Hq Hit) as ([v|] & Hg & Hc); [|by apply held_rep in Hg].
    destruct Hc as (pc & Hv & Hin). assert (Hx : q ∈ holdings owner_call (ps_threads s))
      by (apply elem_of_holdings; eauto). rewrite Hnone in Hx. by apply elem_of_nil in Hx. }
  pose proof (Forall2_length _ _ _ H) as Hli.
  apply Forall2_pick in H as (contents & Hl & H). exists contents. split.
  - apply Forall2_same_length_lookup_2; [done|]. intros q np c Hq Hc.
    destruct (lookup_lt_is_Some_2 items q) as [it Hit]; [rewrite <-Hli; by eapply lookup_lt_Some|].
    destruct (H q np it c Hq Hit Hc) as [_ Hrep]. split_and!; [by apply (Forall_lookup_1 _ _ _ _ Hlive Hq)|done|].
    destruct (lookup_lt_is_Some_2 (dqs_threads (np_task_queue np)) u) as [p Hp].
    { rewrite (st_places _ _ S q np Hq). by eapply lookup_lt_Some. }
    destruct (decide (p = DqIdle)) as [->|Hne]; [done|].
    destruct (st_busy _ _ S u q np p Hq Hp Hne) as (pc & Hpc & Hb). by simplify_eq.
  - intros q it c Hit Hc. destruct (lookup_lt_is_Some_2 (ps_nodes s) q) as [np Hq].
    { rewrite Hli. by eapply lookup_lt_Some. } by apply (H q np it c).
Qed.

Lemma created_order_spec {Hqs : Qsort_ok os} (s : pool_state Q) n :
  pool_static created_orders s → (n < num_nodes os)%nat →
  length (ps_nodes s) = num_nodes os ∧
  ∃ order, np_steal_order <$> ps_nodes s !! n = Some order ∧
    if (1 <? length (ps_nodes s))%nat then ∃ o, order = Some o ∧
      o ≡ₚ filter (λ j, j ≠ n) (seq 0 (length (ps_nodes s))) else True.
Proof.
  intros S Hn. pose proof (st_orders _ _ S) as Eo. pose proof (f_equal length Eo) as El.
  unfold created_orders in El. rewrite !length_fmap, length_seq in El. split; [done|]. rewrite El.
  eexists. split.
  - rewrite <-list_lookup_fmap, Eo. unfold created_orders. rewrite list_lookup_fmap.
    rewrite (proj2 (lookup_seq 0 (num_nodes os) n n)) by lia. done.
  - destruct (1 <? num_nodes os)%nat; [|done]. eexists. split; [done|]. by apply build_steal_order_spec.
Qed.
End run.

(** C9. A waiting task is found.  In a pool that [nkit_pool_create] returned and
    whose destruction has not begun, after any interleaving of fewer than 2^30
    steps in which pushes and pops of one deque do not overlap: when nobody is
    inside a push or a pop and some deque reports a task, any worker at the top of
    its loop, if it is the one to run while the other threads stand still, executes an
    accepted task within nine of its own accesses and six for every other node,
    wherever the task waits and whatever steals stand halfway. *)
Theorem pool_worker_finds_task {Q} {BQ : BoundedQueue Q} (os : pool_os Q) {Hos : PoolOS_ok os} {Hqs : Qsort_ok os}
    clients s0 sched s es u n idle :
  nkit_pool_create os clients = Ret (Some s0, []) → Z.of_nat (length sched) < 2 ^ 30 →
  traced tp_step_owned s0 sched = Some (s, es) →
  ps_destroy s = DsRunning → holdings owner_call (ps_threads s) = [] →
  ps_threads s !! u = Some (WkStop n idle) → 0 < deques_size s →
  ∃ k s' x f a, (k ≤ 9 + 6 * (num_nodes os - 1))%nat ∧
    traced tp_step s (goes u k) = Some (s', [Executed x f a]) ∧ (f, a) ∈ submitted es.
Proof.
  intros H0 Hlen Hr Hds Hnone Hu Hsize.
  destruct (pool_run _ _ s0 sched s es (NoDup_all os) (pool_create_ok os clients s0 H0) Hlen Hr)
    as (frees & items & I).
  pose proof (run_static os clients s0 sched s es H0 Hr) as S.
  destruct (run_ready os _ _ _ _ _ u n idle I S Hds Hnone Hu) as (contents & R & Hperm).
  destruct (st_running _ _ S Hds) as [Hstop _].
  assert (Hn : (n < num_nodes os)%nat).
  { pose proof (st_nodes _ _ S u _ n Hu eq_refl) as H. unfold created_orders in H. by rewrite length_fmap, length_seq in H. }
  destruct (created_order_spec os s n S Hn) as (El & order & Hord & Hspec).
  assert (Hcont : ∀ t c x, contents !! t = Some c → x ∈ c → x ∈ holdings id items).
  { intros t c x Ht Hx. destruct (lookup_lt_is_Some_2 items t) as [it Hit].
    { rewrite (pi_items _ _ _ _ _ _ _ I), (Forall2_length _ _ _ R). by eapply lookup_lt_Some. }
    apply elem_of_holdings. exists t, it. split; [done|]. unfold id. by rewrite (Hperm t it c Hit Ht). }
  destruct (worker_finds u s contents n idle order R Hstop Hu Hord Hspec) as (k & s' & t & c & x & task & Hk & Ht & Hx & Htask & Hrun).
  - rewrite (deques_size_items _ _ _ _ _ _ _ I Hlen Hnone) in Hsize.
    destruct (holdings id items) as [|x l] eqn:E; [cbn in Hsize; lia|].
    assert (Hx : x ∈ holdings id items) by (rewrite E; left).
    apply elem_of_holdings in Hx as (t & it & Hit & Hx). destruct (lookup_lt_is_Some_2 contents t) as [c Hc].
    { rewrite <-(Forall2_length _ _ _ R), <-(pi_items _ _ _ _ _ _ _ I). by eapply lookup_lt_Some. }
    unfold id in Hx. rewrite (Hperm t it c Hit Hc) in Hx. destruct c as [|y c]; [by apply elem_of_nil in Hx|]. eauto.
  - intros t c x Ht Hx.
    assert (Hall : x ∈ all_ptrs os).
    { rewrite <-(pi_perm _ _ _ _ _ _ _ I), !elem_of_app. right. left. by eapply Hcont. }
    destruct (pi_tasks _ _ _ _ _ _ _ I x Hall) as (task & Htask & Ehome). exists task. split; [done|].
    pose proof (home_of_lt os x Hall) as Hh. rewrite <-Ehome, <-El in Hh.
    destruct (lookup_lt_is_Some_2 _ _ Hh) as [nph Hnph]. unfold task_live. rewrite Hnph.
    apply (Forall_lookup_1 _ _ _ _ (proj2 (st_running _ _ S Hds)) Hnph).
  - exists k, s', x, (task_func task), (task_arg task). split; [by rewrite <-El|]. split; [done|].
    rewrite (pi_account _ _ _ _ _ _ _ I), elem_of_app. right. apply list_elem_of_fmap. exists x.
    split; [by rewrite (content_of _ _ _ Htask)|]. apply elem_of_app. left. by eapply Hcont.
Qed.

Lemma pool_worker_finds_task_witness :
  ∃ s es, demo_run (tp_step_owned (BQ := ring_queue 0)) 1 demo_pool_sched = Some (s, es) ∧
    ∃ k s' x f a, (k ≤ 15)%nat ∧
      traced (tp_step (BQ := ring_queue 0)) s (goes 1 k) = Some (s', [Executed x f a]) ∧ (f, a) ∈ [(100, 1); (100, 2)].
Proof.
  destruct (observed summary _ _ demo_pool_observed) as (s & es & Hr & E). exists s, es. split; [done|].
  destruct (demo_run_inv _ _ _ _ _ Hr) as (s0 & H0 & Ht). injection E as E1 E2 E3 E4 E5 E6 _.
  rewrite <-E1.
  apply (pool_worker_finds_task (BQ := ring_queue 0) (demo_pool 1) 1 s0 demo_pool_sched s es 1 1 0 H0).
  - by vm_compute.
  - done.
  - done.
  - by rewrite E3.
  - by rewrite E3.
  - by rewrite E4.
Defined.
