(* ===== verification/HashTable.v ===== *)
(** * The Robin Hood hash table (src/structs/hash_table.c)

    Open addressing with Robin Hood displacement, backward-shift deletion and
    doubling.  A table stores key pointers; keys are compared by the bytes they
    point to, so the operations take the process memory [mem] (a byte per
    address), which the caller keeps unchanged under stored keys.  Each public
    operation runs with the table's MCS lock held from its first to its last
    access, so it is one atomic step here ([McsLock] is the lock). *)

From stdpp Require Import prelude gmap.
From Stdlib Require Import ZArith Lia.
From S2P Require Import Prelude Words Arena Ring.
Local Open Scope Z_scope.
Local Open Scope word_scope.

(** ** Data (lines 20-40) *)

Record nkit_bucket_t := mk_bucket {
  b_hash : Z;
  b_key : Z;
  b_key_len : Z;
  b_value : Z;
}.

Record nkit_hash_t := mk_hash {
  ht_buckets : list nkit_bucket_t;
  ht_capacity : Z;
  ht_mask : Z;
  ht_count : Z;
  ht_arena : option nkit_arena_t;
  ht_node_id : Z;
}.

Definition sizeof_nkit_bucket_t : Z := 32.
Definition NKIT_HASH_MAX_LOAD_NUM : Z := 3.
Definition NKIT_HASH_MAX_LOAD_DEN : Z := 4.
Definition NKIT_HASH_MIN_CAPACITY : Z := 16.

(** A bucket, and an array of them, cleared by [memset]. *)
Definition empty_bucket : nkit_bucket_t := mk_bucket 0 0 0 0.
Definition cleared_buckets (capacity : Z) : list nkit_bucket_t :=
  replicate (Z.to_nat capacity) empty_bucket.

Definition set_bucket (ht : nkit_hash_t) (slot : Z) (b : nkit_bucket_t) : nkit_hash_t :=
  mk_hash (<[Z.to_nat slot := b]> (ht_buckets ht)) (ht_capacity ht) (ht_mask ht)
          (ht_count ht) (ht_arena ht) (ht_node_id ht).

Definition set_count (ht : nkit_hash_t) (n : Z) : nkit_hash_t :=
  mk_hash (ht_buckets ht) (ht_capacity ht) (ht_mask ht) n (ht_arena ht) (ht_node_id ht).

(** ** Hashing and comparison *)

(** The [len] bytes at [p]. *)
Definition read_bytes (mem : Z → Z) (p len : Z) : list Z :=
  map (λ i, mem (p + Z.of_nat i)) (seq 0 (Z.to_nat len)).

Definition FNV_OFFSET : Z := 14695981039346656037.
Definition FNV_PRIME : Z := 1099511628211.

Fixpoint fnv1a_loop (bytes : list Z) (hash : Z) : Z :=
  match bytes with
  | [] => hash
  | b :: bytes => fnv1a_loop bytes (Z.lxor hash b *w FNV_PRIME)
  end.

Definition nkit_fnv1a (mem : Z → Z) (data len : Z) : Z :=
  let hash := fnv1a_loop (read_bytes mem data len) FNV_OFFSET in
  Z.lor hash (if hash =? 0 then 1 else 0).

Definition probe_distance (hash slot mask : Z) : Z :=
  Z.land (slot -w Z.land hash mask) mask.

(** [a_len == b_len && memcmp(a, b, a_len) == 0] *)
Definition keys_equal (mem : Z → Z) (a a_len b b_len : Z) : bool :=
  (a_len =? b_len) && bool_decide (read_bytes mem a a_len = read_bytes mem b a_len).

(** ** Operations *)

(** The table, and the system calls made (those that release memory on the
    failing paths included). *)
Definition nkit_hash_create (os : arena_os) (numa_available : Z)
    (numa_alloc_ok : bool) (node_id capacity : Z) : option nkit_hash_t * list os_call :=
  if numa_available <? 0 then (None, []) else
  let capacity := if capacity <? NKIT_HASH_MIN_CAPACITY
                  then NKIT_HASH_MIN_CAPACITY else capacity in
  let capacity := next_power_of_2 capacity in
  if negb numa_alloc_ok then (None, []) else
  let buckets_sz := sizeof_nkit_bucket_t *w capacity in
  match nkit_arena_create os node_id buckets_sz with
  | (None, calls) => (None, calls ++ [NumaFreeHandle])
  | (Some arena, calls) =>
      match nkit_arena_alloc (Some arena) buckets_sz with
      | (Some _, arena') =>
          (Some (mk_hash (cleared_buckets capacity) capacity (capacity -w 1) 0 arena' node_id),
           calls)
      | (None, arena') => (None, calls ++ nkit_arena_destroy arena' ++ [NumaFreeHandle])
      end
  end.

(** [None]: out of fuel, or a bucket outside the array. *)
Fixpoint put_loop (mem : Z → Z) (fuel : nat) (ht : nkit_hash_t) (is_rehash : bool)
    (cur : nkit_bucket_t) (slot dist : Z) : option (Z * nkit_hash_t) :=
  match fuel with
  | O => None
  | S fuel =>
      match ht_buckets ht !! Z.to_nat slot with
      | None => None
      | Some b =>
          if b_hash b =? 0 then
            let ht := set_bucket ht slot cur in
            Some (0, if negb is_rehash then set_count ht (ht_count ht +w 1) else ht)
          else if negb is_rehash && (b_hash b =? b_hash cur) &&
                  keys_equal mem (b_key b) (b_key_len b) (b_key cur) (b_key_len cur) then
            Some (0, set_bucket ht slot
                       (mk_bucket (b_hash b) (b_key b) (b_key_len b) (b_value cur)))
          else
            let existing_dist := probe_distance (b_hash b) slot (ht_mask ht) in
            let next := Z.land (slot +w 1) (ht_mask ht) in
            if existing_dist <? dist then
              put_loop mem fuel (set_bucket ht slot cur) is_rehash b next (existing_dist +w 1)
            else
              put_loop mem fuel ht is_rehash cur next (dist +w 1)
      end
  end.

Definition nkit_hash_put_internal (mem : Z → Z) (fuel : nat) (ht : nkit_hash_t)
    (hash key key_len value : Z) (is_rehash : bool) : option (Z * nkit_hash_t) :=
  put_loop mem fuel ht is_rehash (mk_bucket hash key key_len value)
           (Z.land hash (ht_mask ht)) 0.

(** The loop over the old buckets of [_nkit_hash_resize]. *)
Fixpoint rehash_loop (mem : Z → Z) (fuel : nat) (ht : nkit_hash_t)
    (old : list nkit_bucket_t) : option nkit_hash_t :=
  match old with
  | [] => Some ht
  | b :: old =>
      if negb (b_hash b =? 0) then
        match nkit_hash_put_internal mem fuel ht (b_hash b) (b_key b) (b_key_len b)
                                     (b_value b) true with
        | None => None
        | Some (_, ht) => rehash_loop mem fuel ht old
        end
      else rehash_loop mem fuel ht old
  end.

(** The table after the call and the system calls made: the new arena is
    released when it cannot hold the buckets, the old one after the rehash. *)
Definition nkit_hash_resize (mem : Z → Z) (os : arena_os) (ht : nkit_hash_t)
    : option (nkit_hash_t * list os_call) :=
  let new_capacity := ht_capacity ht *w 2 in
  let new_buckets_sz := sizeof_nkit_bucket_t *w new_capacity in
  match nkit_arena_create os (ht_node_id ht) new_buckets_sz with
  | (None, calls) => Some (ht, calls)
  | (Some new_arena, calls) =>
      match nkit_arena_alloc (Some new_arena) new_buckets_sz with
      | (None, new_arena) => Some (ht, calls ++ nkit_arena_destroy new_arena)
      | (Some _, new_arena) =>
          let fuel := S (Z.to_nat new_capacity) in
          match rehash_loop mem fuel
                  (mk_hash (cleared_buckets new_capacity) new_capacity (new_capacity -w 1)
                           (ht_count ht) (ht_arena ht) (ht_node_id ht))
                  (ht_buckets ht) with
          | None => None
          | Some ht' =>
              Some (mk_hash (ht_buckets ht') (ht_capacity ht') (ht_mask ht')
                            (ht_count ht') new_arena (ht_node_id ht'),
                    calls ++ nkit_arena_destroy (ht_arena ht))
          end
      end
  end.

Definition nkit_hash_put (mem : Z → Z) (os : arena_os) (ht : option nkit_hash_t)
    (key key_len value : Z) : option (Z * option nkit_hash_t) :=
  match ht with
  | None => Some (-1, None)
  | Some ht =>
      if (key =? NULL) || (key_len =? 0) then Some (-1, Some ht) else
      let hash := nkit_fnv1a mem key key_len in
      let grown :=
        if ht_capacity ht *w NKIT_HASH_MAX_LOAD_NUM
             <=? ht_count ht *w NKIT_HASH_MAX_LOAD_DEN
        then nkit_hash_resize mem os ht else Some (ht, []) in
      match grown with
      | None => None
      | Some (ht, _) =>
          match nkit_hash_put_internal mem (S (length (ht_buckets ht))) ht hash key
                                       key_len value false with
          | None => None
          | Some (ret, ht) => Some (ret, Some ht)
          end
      end
  end.

(** The probe loop [nkit_hash_get] and [nkit_hash_remove] share: the slot where
    the key was found, or [Some None] for "not found". *)
Fixpoint find_loop (mem : Z → Z) (fuel : nat) (ht : nkit_hash_t)
    (hash key key_len slot dist : Z) : option (option Z) :=
  match fuel with
  | O => None
  | S fuel =>
      match ht_buckets ht !! Z.to_nat slot with
      | None => None
      | Some b =>
          if b_hash b =? 0 then Some None
          else if probe_distance (b_hash b) slot (ht_mask ht) <? dist then Some None
          else if (b_hash b =? hash) &&
                  keys_equal mem (b_key b) (b_key_len b) key key_len then Some (Some slot)
          else find_loop mem fuel ht hash key key_len
                         (Z.land (slot +w 1) (ht_mask ht)) (dist +w 1)
      end
  end.

Definition find_key (mem : Z → Z) (ht : nkit_hash_t) (key key_len : Z)
    : option (option Z) :=
  let hash := nkit_fnv1a mem key key_len in
  find_loop mem (S (length (ht_buckets ht))) ht hash key key_len
            (Z.land hash (ht_mask ht)) 0.

Definition nkit_hash_get (mem : Z → Z) (ht : option nkit_hash_t) (key key_len : Z)
    : option Z :=
  match ht with
  | None => Some NULL
  | Some ht =>
      if (key =? NULL) || (key_len =? 0) then Some NULL else
      match find_key mem ht key key_len with
      | None => None
      | Some None => Some NULL
      | Some (Some slot) =>
          match ht_buckets ht !! Z.to_nat slot with
          | Some b => Some (b_value b)
          | None => None
          end
      end
  end.

(** Backward-shift deletion: the buckets and the final [empty] slot. *)
Fixpoint shift_loop (fuel : nat) (bs : list nkit_bucket_t) (mask empty : Z)
    : option (list nkit_bucket_t * Z) :=
  match fuel with
  | O => None
  | S fuel =>
      let next := Z.land (empty +w 1) mask in
      match bs !! Z.to_nat next with
      | None => None
      | Some nb =>
          if (b_hash nb =? 0) || (probe_distance (b_hash nb) next mask =? 0)
          then Some (bs, empty)
          else shift_loop fuel (<[Z.to_nat empty := nb]> bs) mask next
      end
  end.

Definition nkit_hash_remove (mem : Z → Z) (ht : option nkit_hash_t) (key key_len : Z)
    : option (Z * option nkit_hash_t) :=
  match ht with
  | None => Some (-1, None)
  | Some ht =>
      if (key =? NULL) || (key_len =? 0) then Some (-1, Some ht) else
      match find_key mem ht key key_len with
      | None => None
      | Some None => Some (-1, Some ht)
      | Some (Some slot) =>
          match shift_loop (S (length (ht_buckets ht))) (ht_buckets ht) (ht_mask ht) slot with
          | None => None
          | Some (bs, empty) =>
              Some (0, Some (mk_hash (<[Z.to_nat empty := empty_bucket]> bs)
                               (ht_capacity ht) (ht_mask ht) (ht_count ht -w 1)
                               (ht_arena ht) (ht_node_id ht)))
          end
      end
  end.

Definition nkit_hash_count (ht : option nkit_hash_t) : Z :=
  match ht with None => 0 | Some ht => ht_count ht end.

Definition nkit_hash_destroy (ht : option nkit_hash_t) : list os_call :=
  match ht with
  | None => []
  | Some ht => nkit_arena_destroy (ht_arena ht) ++ [NumaFreeHandle]
  end.
