(* ===== verification/RobinHood.v ===== *)
(** * The Robin Hood probing invariant (src/structs/hash_table.c)

    Displacements of a bucket array seen as a periodic function on [Z], the
    invariant that the early exit of [nkit_hash_get] relies on, and its
    preservation by the three loops of the hash table: displacement insertion,
    search and backward-shift deletion. *)

From stdpp Require Import prelude gmap.
From Stdlib Require Import ZArith Lia.
From S2P Require Import Prelude Words Arena Ring HashTable.
Local Open Scope Z_scope.
Local Open Scope word_scope.

(** ** Displacements *)

Definition live (b : nkit_bucket_t) : Prop := b_hash b ≠ 0.
#[export] Instance live_dec b : Decision (live b) := decide (b_hash b ≠ 0).

(** The displacement a bucket has (or would have) at position [i]; -1 when it
    is empty. *)
Definition slot_dist (N : Z) (b : nkit_bucket_t) (i : Z) : Z :=
  if decide (live b) then (i - b_hash b) mod N else -1.

Definition ddist (N : Z) (bs : list nkit_bucket_t) (i : Z) : Z :=
  match bs !! Z.to_nat (i mod N) with
  | Some b => slot_dist N b i
  | None => -1
  end.

(** From one slot to the next a displacement grows by at most one. *)
Definition robin_hood (N : Z) (bs : list nkit_bucket_t) : Prop :=
  ∀ i, ddist N bs (i + 1) ≤ ddist N bs i + 1.

(** The same, except for the two constraints that involve slot [s]. *)
Definition robin_hood_off (N : Z) (bs : list nkit_bucket_t) (s : Z) : Prop :=
  ∀ i, i mod N ≠ s mod N → (i + 1) mod N ≠ s mod N →
       ddist N bs (i + 1) ≤ ddist N bs i + 1.

Section displacements.
Context (N : Z) (HN : 2 ≤ N).
Implicit Types (bs : list nkit_bucket_t) (b cur : nkit_bucket_t) (i j s : Z).

Lemma mod_eq_sub i j h : i mod N = j mod N → (i - h) mod N = (j - h) mod N.
Proof. intros E. by rewrite <-Zminus_mod_idemp_l, E, Zminus_mod_idemp_l. Qed.

Lemma mod_eq_add i j h : i mod N = j mod N → (i + h) mod N = (j + h) mod N.
Proof. intros E. by rewrite <-Zplus_mod_idemp_l, E, Zplus_mod_idemp_l. Qed.

Lemma mod_neq_near i d : 0 < d < N → (i + d) mod N ≠ i mod N.
Proof.
  intros Hd E. apply (mod_eq_sub _ _ i) in E.
  replace (i + d - i) with d in E by lia.
  rewrite Z.sub_diag, Zmod_0_l, Z.mod_small in E by lia. lia.
Qed.

Lemma slot_dist_range b i : -1 ≤ slot_dist N b i < N.
Proof.
  unfold slot_dist. case_decide; [|lia].
  pose proof (Z.mod_pos_bound (i - b_hash b) N). lia.
Qed.

Lemma slot_dist_mod b i j : i mod N = j mod N → slot_dist N b i = slot_dist N b j.
Proof. intros E. unfold slot_dist. case_decide; [|done]. by apply mod_eq_sub. Qed.

Lemma ddist_mod bs i j : i mod N = j mod N → ddist N bs i = ddist N bs j.
Proof.
  intros E. unfold ddist. rewrite E. destruct (bs !! _); [|done]. by apply slot_dist_mod.
Qed.

Lemma ddist_range bs i : -1 ≤ ddist N bs i < N.
Proof. unfold ddist. destruct (bs !! _); [apply slot_dist_range|lia]. Qed.

Lemma ddist_lookup bs i b :
  bs !! Z.to_nat (i mod N) = Some b → ddist N bs i = slot_dist N b i.
Proof. intros E. unfold ddist. by rewrite E. Qed.

Lemma slot_dist_live b i : live b → slot_dist N b i = (i - b_hash b) mod N.
Proof. intros. unfold slot_dist. by rewrite decide_True. Qed.

Lemma slot_dist_empty b i : ¬ live b → slot_dist N b i = -1.
Proof. intros. unfold slot_dist. by rewrite decide_False. Qed.

Lemma slot_dist_live_nonneg b i : live b ↔ 0 ≤ slot_dist N b i.
Proof.
  unfold slot_dist. case_decide; [|split; [done|lia]].
  pose proof (Z.mod_pos_bound (i - b_hash b) N). split; [lia|done].
Qed.

Lemma to_nat_mod_inj i j :
  Z.to_nat (i mod N) = Z.to_nat (j mod N) ↔ i mod N = j mod N.
Proof.
  pose proof (Z.mod_pos_bound i N). pose proof (Z.mod_pos_bound j N).
  split; [intros E; apply Z2Nat.inj in E; lia|by intros ->].
Qed.

Lemma to_nat_mod_lt i bs :
  Z.of_nat (length bs) = N → (Z.to_nat (i mod N) < length bs)%nat.
Proof. intros E. pose proof (Z.mod_pos_bound i N). lia. Qed.

(** Writing a bucket changes the displacements of its slot only. *)
Lemma ddist_insert_eq bs s b i :
  Z.of_nat (length bs) = N → i mod N = s mod N →
  ddist N (<[Z.to_nat (s mod N) := b]> bs) i = slot_dist N b i.
Proof.
  intros Hl E. unfold ddist. rewrite E, list_lookup_insert_eq; [done|].
  by apply to_nat_mod_lt.
Qed.

Lemma ddist_insert_ne bs s b i :
  i mod N ≠ s mod N → ddist N (<[Z.to_nat (s mod N) := b]> bs) i = ddist N bs i.
Proof.
  intros E. unfold ddist. rewrite list_lookup_insert_ne; [done|].
  rewrite to_nat_mod_inj. by intros ?.
Qed.

(** Along [n] slots a displacement grows by at most [n]. *)
Lemma robin_hood_run bs i n :
  robin_hood N bs → 0 ≤ n → ddist N bs (i + n) ≤ ddist N bs i + n.
Proof.
  intros Hrh Hn. revert n Hn. apply (natlike_ind (λ n, ddist N bs (i + n) ≤ ddist N bs i + n)).
  - rewrite Z.add_0_r. lia.
  - intros n Hn IH. specialize (Hrh (i + n)).
    replace (i + Z.succ n) with (i + n + 1) by lia. lia.
Qed.

Lemma robin_hood_weaken bs s : robin_hood N bs → robin_hood_off N bs s.
Proof. intros H i _ _. apply H. Qed.

(** Filling slot [s] restores the invariant when the new displacement fits
    between its neighbours. *)
Lemma robin_hood_insert bs s b :
  Z.of_nat (length bs) = N → robin_hood_off N bs s →
  slot_dist N b s ≤ ddist N bs (s - 1) + 1 → ddist N bs (s + 1) ≤ slot_dist N b s + 1 →
  robin_hood N (<[Z.to_nat (s mod N) := b]> bs).
Proof.
  intros Hl Hoff Hprev Hnext i.
  destruct (Z.eq_dec (i mod N) (s mod N)) as [E|Hi].
  - rewrite (ddist_insert_eq _ _ _ i), (slot_dist_mod b i s) by done.
    rewrite ddist_insert_ne; [rewrite (ddist_mod bs (i + 1) (s + 1)); [lia|]|].
    + by apply mod_eq_add.
    + rewrite <-E. apply mod_neq_near. lia.
  - rewrite (ddist_insert_ne _ _ _ i) by done.
    destruct (Z.eq_dec ((i + 1) mod N) (s mod N)) as [E|Hi1].
    + rewrite (ddist_insert_eq _ _ _ (i + 1)), (slot_dist_mod b (i + 1) s) by done.
      rewrite (ddist_mod bs i (s - 1)); [lia|].
      apply (mod_eq_sub _ _ 1) in E. by replace (i + 1 - 1) with i in E by lia.
    + rewrite ddist_insert_ne by done. by apply Hoff.
Qed.

Lemma robin_hood_off_insert bs s b :
  robin_hood_off N bs s → robin_hood_off N (<[Z.to_nat (s mod N) := b]> bs) s.
Proof. intros Hoff i H1 H2. rewrite !ddist_insert_ne by done. by apply Hoff. Qed.

(** A table with an empty slot has no displacement as large as [N - 1]. *)
Lemma ddist_below_max bs i e :
  robin_hood N bs → ddist N bs e = -1 → ddist N bs i < N - 1.
Proof.
  intros Hrh He. pose proof (robin_hood_run bs e ((i - e) mod N) Hrh) as Hrun.
  pose proof (Z.mod_pos_bound (i - e) N).
  rewrite (ddist_mod bs (e + (i - e) mod N) i) in Hrun; [lia|].
  rewrite Zplus_mod_idemp_r. f_equal. lia.
Qed.

(** Displacements depend on the hashes only. *)
Lemma robin_hood_same_hash bs bs' :
  length bs' = length bs → robin_hood N bs →
  (∀ (i : nat) b, bs !! i = Some b → ∃ b', bs' !! i = Some b' ∧ b_hash b' = b_hash b) →
  robin_hood N bs'.
Proof.
  intros Hl Hrh Hsame.
  assert (H : ∀ i, ddist N bs' i = ddist N bs i).
  { intros i. unfold ddist. destruct (bs !! Z.to_nat (i mod N)) as [b|] eqn:E.
    - destruct (Hsame _ _ E) as (b' & -> & Hh). unfold slot_dist.
      do 2 case_decide; unfold live in *; by rewrite ?Hh in *.
    - apply lookup_ge_None in E. by rewrite lookup_ge_None_2 by lia. }
  intros i. rewrite !H. apply Hrh.
Qed.
End displacements.

(** ** The live buckets as a multiset *)

Definition live_list (bs : list nkit_bucket_t) : list nkit_bucket_t := filter live bs.

Lemma live_insert bs i old b :
  bs !! i = Some old → filter live [old] ++ live_list (<[i := b]> bs)
                        ≡ₚ filter live [b] ++ live_list bs.
Proof. apply filter_insert_permutation. Qed.

Lemma live_insert_swap bs i old b :
  bs !! i = Some old → live old → live b →
  old :: live_list (<[i := b]> bs) ≡ₚ b :: live_list bs.
Proof.
  intros Hi Ho Hb. pose proof (live_insert bs i old b Hi) as H.
  rewrite !filter_cons_True in H by done. exact H.
Qed.

Lemma live_insert_fill bs i old b :
  bs !! i = Some old → ¬ live old → live b →
  live_list (<[i := b]> bs) ≡ₚ b :: live_list bs.
Proof.
  intros Hi Ho Hb. pose proof (live_insert bs i old b Hi) as H.
  rewrite (filter_cons_False _ old), (filter_cons_True _ b) in H by done. exact H.
Qed.

Lemma live_insert_clear bs i old b :
  bs !! i = Some old → live old → ¬ live b →
  old :: live_list (<[i := b]> bs) ≡ₚ live_list bs.
Proof.
  intros Hi Ho Hb. pose proof (live_insert bs i old b Hi) as H.
  rewrite (filter_cons_False _ b), (filter_cons_True _ old) in H by done. exact H.
Qed.

Lemma live_insert_dead bs i old b :
  bs !! i = Some old → ¬ live old → ¬ live b →
  live_list (<[i := b]> bs) ≡ₚ live_list bs.
Proof.
  intros Hi Ho Hb. pose proof (live_insert bs i old b Hi) as H.
  by rewrite !filter_cons_False in H by done.
Qed.

Lemma elem_of_live bs b : b ∈ live_list bs ↔ live b ∧ b ∈ bs.
Proof. apply list_elem_of_filter. Qed.

(** Fewer live buckets than slots: some slot is empty. *)
Lemma live_room bs :
  (length (live_list bs) < length bs)%nat → ∃ i b, bs !! i = Some b ∧ ¬ live b.
Proof.
  unfold live_list. induction bs as [|b bs IH]; simpl; [lia|]. intros Hlt.
  destruct (decide (live b)) as [Hb|Hb].
  - rewrite filter_cons_True in Hlt by done. simpl in Hlt.
    destruct IH as (i & b' & ? & ?); [lia|]. by exists (S i), b'.
  - by exists 0%nat, b.
Qed.

Lemma live_full bs i b :
  length (live_list bs) = length bs → bs !! i = Some b → live b.
Proof.
  unfold live_list. revert i. induction bs as [|b0 bs IH]; intros i Hlen Hi; [done|].
  pose proof (length_filter live bs). rewrite filter_cons in Hlen.
  case_decide; simpl in Hlen; [|lia].
  destruct i as [|i]; simpl in Hi; [by simplify_eq|]. apply (IH i); [lia|done].
Qed.

(** In a list with distinct keys, one index per key. *)
Lemma NoDup_live_index {K} (f : nkit_bucket_t → K) bs i j bi bj :
  NoDup (f <$> live_list bs) → bs !! i = Some bi → bs !! j = Some bj →
  live bi → live bj → f bi = f bj → i = j.
Proof.
  revert i j. unfold live_list.
  induction bs as [|b bs IH]; intros i j Hnd Hi Hj Li Lj E; [done|].
  rewrite filter_cons in Hnd.
  assert (Hnd' : NoDup (f <$> filter live bs)).
  { case_decide; [|done]. by apply NoDup_cons in Hnd as [_ ?]. }
  destruct i as [|i], j as [|j]; simpl in Hi, Hj; simplify_eq; auto.
  - exfalso. rewrite decide_True in Hnd by done. apply NoDup_cons in Hnd as [Hn _].
    apply Hn. apply list_elem_of_fmap. exists bj. split; [done|].
    apply list_elem_of_filter. split; [done|]. by eapply list_elem_of_lookup_2.
  - exfalso. rewrite decide_True in Hnd by done. apply NoDup_cons in Hnd as [Hn _].
    apply Hn. apply list_elem_of_fmap. exists bi. split; [done|].
    apply list_elem_of_filter. split; [done|]. by eapply list_elem_of_lookup_2.
Qed.

(** ** Table geometry *)

Record geometry (ht : nkit_hash_t) : Prop := {
  geo_pow2 : ∃ k, 4 ≤ k ≤ 58 ∧ ht_capacity ht = 2 ^ k;
  geo_mask : ht_mask ht = ht_capacity ht - 1;
  geo_len : Z.of_nat (length (ht_buckets ht)) = ht_capacity ht;
}.

(** Everything but the buckets and the count. *)
Record same_shape (ht ht' : nkit_hash_t) : Prop := {
  ss_capacity : ht_capacity ht' = ht_capacity ht;
  ss_mask : ht_mask ht' = ht_mask ht;
  ss_arena : ht_arena ht' = ht_arena ht;
  ss_node : ht_node_id ht' = ht_node_id ht;
  ss_len : length (ht_buckets ht') = length (ht_buckets ht);
}.

#[export] Instance same_shape_preorder : PreOrder same_shape.
Proof.
  split; [by intros ht; split|].
  intros h1 h2 h3 [] []. split; congruence.
Qed.

Lemma same_shape_geometry ht ht' : same_shape ht ht' → geometry ht → geometry ht'.
Proof. intros [Hc Hm _ _ Hl] []. split; rewrite ?Hc, ?Hm, ?Hl; done. Qed.

Lemma same_shape_set_bucket ht s b : same_shape ht (set_bucket ht s b).
Proof. split; simpl; try done. apply length_insert. Qed.

Lemma same_shape_set_count ht n : same_shape ht (set_count ht n).
Proof. by split. Qed.

#[export] Hint Resolve same_shape_set_bucket same_shape_set_count : nkit.

Section table.
Context (ht : nkit_hash_t) (Hgeo : geometry ht).
Abbreviation N := (ht_capacity ht).

Lemma geo_bounds : 16 ≤ N ≤ 2 ^ 58.
Proof.
  destruct (geo_pow2 ht Hgeo) as (k & Hk & ->). split.
  - change 16 with (2 ^ 4). apply Z.pow_le_mono_r; lia.
  - apply Z.pow_le_mono_r; lia.
Qed.

Lemma geo_land x : Z.land x (ht_mask ht) = x mod N.
Proof.
  rewrite (geo_mask ht Hgeo). destruct (geo_pow2 ht Hgeo) as (k & Hk & ->).
  apply land_mask. lia.
Qed.

Lemma geo_u64_mod x : u64 x mod N = x mod N.
Proof. destruct (geo_pow2 ht Hgeo) as (k & Hk & ->). apply u64_mod_pow2. lia. Qed.

Lemma probe_distance_mod h i : probe_distance h (i mod N) (ht_mask ht) = (i - h) mod N.
Proof.
  unfold probe_distance. rewrite !geo_land, geo_u64_mod.
  by rewrite Zminus_mod_idemp_r, Zminus_mod_idemp_l.
Qed.

Lemma next_slot i : Z.land (i mod N +w 1) (ht_mask ht) = (i + 1) mod N.
Proof. by rewrite geo_land, geo_u64_mod, Zplus_mod_idemp_l. Qed.

Lemma dist_succ i h :
  (i - h) mod N < N - 1 → (i - h) mod N +w 1 = (i + 1 - h) mod N.
Proof.
  intros Hlt. pose proof geo_bounds. pose proof (Z.mod_pos_bound (i - h) N).
  rewrite u64_small by (unfold is_u64; lia).
  replace (i + 1 - h) with (i - h + 1) by lia.
  rewrite <-Zplus_mod_idemp_l. symmetry. apply Z.mod_small. lia.
Qed.

Lemma slot_bucket i : ∃ b, ht_buckets ht !! Z.to_nat (i mod N) = Some b.
Proof.
  apply lookup_lt_is_Some_2. pose proof geo_bounds.
  apply to_nat_mod_lt; [lia|apply Hgeo].
Qed.
End table.

(** ** Keys *)

Section keys.
Context (mem : Z → Z).

Definition key_of (b : nkit_bucket_t) : list Z := read_bytes mem (b_key b) (b_key_len b).

Lemma read_bytes_length p len : length (read_bytes mem p len) = Z.to_nat len.
Proof. unfold read_bytes. by rewrite length_map, length_seq. Qed.

(** [_keys_equal] decides equality of the bytes. *)
Lemma keys_equal_spec a la b lb :
  0 ≤ la → 0 ≤ lb →
  keys_equal mem a la b lb = true ↔ read_bytes mem a la = read_bytes mem b lb.
Proof.
  intros Ha Hb. unfold keys_equal. rewrite andb_true_iff, Z.eqb_eq, bool_decide_eq_true.
  split; [by intros [-> ?]|]. intros E.
  assert (la = lb) as ->; [|done].
  apply (f_equal length) in E. rewrite !read_bytes_length in E. lia.
Qed.

Lemma fnv1a_loop_range bytes h : is_u64 h → is_u64 (fnv1a_loop bytes h).
Proof.
  revert h. induction bytes as [|b bytes IH]; intros h Hh; [done|].
  apply IH, u64_range.
Qed.

(** The empty-slot sentinel is never a hash. *)
Lemma fnv1a_range data len : 0 < nkit_fnv1a mem data len < 2 ^ 64.
Proof.
  unfold nkit_fnv1a.
  assert (H : is_u64 (fnv1a_loop (read_bytes mem data len) FNV_OFFSET))
    by (by apply fnv1a_loop_range).
  destruct (Z.eqb_spec (fnv1a_loop (read_bytes mem data len) FNV_OFFSET) 0) as [->|Hne]; [done|].
  rewrite Z.lor_0_r. destruct H. lia.
Qed.

Lemma fnv1a_ext p lp q lq :
  read_bytes mem p lp = read_bytes mem q lq → nkit_fnv1a mem p lp = nkit_fnv1a mem q lq.
Proof. intros E. unfold nkit_fnv1a. by rewrite E. Qed.
End keys.

(** ** Insertion *)

(** The hypotheses of one iteration of the insertion loop at position [i], with
    [cur] in hand and an empty slot [n] positions ahead. *)
Record carrying (mem : Z → Z) (ht : nkit_hash_t) (is_rehash : bool)
    (cur : nkit_bucket_t) (i n : Z) : Prop := {
  car_geo : geometry ht;
  car_rh : robin_hood (ht_capacity ht) (ht_buckets ht);
  car_live : live cur;
  car_lens : is_rehash = false → Forall (λ b, 0 ≤ b_key_len b) (cur :: live_list (ht_buckets ht));
  car_keys : is_rehash = false →
    NoDup (key_of mem <$> cur :: live_list (ht_buckets ht));
  car_hole : ddist (ht_capacity ht) (ht_buckets ht) (i + n) = -1;
  car_near : 0 ≤ n < ht_capacity ht;
  car_fits : (i - b_hash cur) mod ht_capacity ht
               ≤ ddist (ht_capacity ht) (ht_buckets ht) (i - 1) + 1;
}.

Lemma carrying_no_match mem ht cur i n b j :
  carrying mem ht false cur i n → ht_buckets ht !! j = Some b → live b →
  keys_equal mem (b_key b) (b_key_len b) (b_key cur) (b_key_len cur) = false.
Proof.
  intros [? ? ? Hl Hk ? ? ?] Hj Hb. apply not_true_is_false. intros E.
  assert (Hin : b ∈ live_list (ht_buckets ht)).
  { apply elem_of_live. split; [done|]. by eapply list_elem_of_lookup_2. }
  specialize (Hl eq_refl). specialize (Hk eq_refl).
  apply keys_equal_spec in E; [|rewrite Forall_forall in Hl; apply Hl; by constructor..].
  rewrite fmap_cons in Hk. apply NoDup_cons in Hk as [Hn _]. apply Hn.
  apply list_elem_of_fmap. by exists b.
Qed.

(** Not displacing: move on with the same bucket. *)
Lemma carrying_skip mem ht re cur i n b :
  carrying mem ht re cur i n → ht_buckets ht !! Z.to_nat (i mod ht_capacity ht) = Some b →
  live b → (i - b_hash cur) mod ht_capacity ht ≤ (i - b_hash b) mod ht_capacity ht →
  (i - b_hash cur) mod ht_capacity ht < ht_capacity ht - 1 ∧
  carrying mem ht re cur (i + 1) (n - 1).
Proof.
  intros C Hb Lb Hle. pose proof (geo_bounds ht (car_geo _ _ _ _ _ _ C)) as HN.
  assert (Hd : ddist (ht_capacity ht) (ht_buckets ht) i = (i - b_hash b) mod ht_capacity ht)
    by (rewrite (ddist_lookup _ _ _ b), slot_dist_live; done).
  pose proof (ddist_below_max (ht_capacity ht) ltac:(lia) _ i (i + n)
                (car_rh _ _ _ _ _ _ C) (car_hole _ _ _ _ _ _ C)).
  assert (Hmax : (i - b_hash cur) mod ht_capacity ht < ht_capacity ht - 1) by lia.
  split; [done|]. destruct C as [Hg Hrh Hl Hlen Hk Hhole Hn Hfit].
  assert (n ≠ 0).
  { intros ->. rewrite Z.add_0_r in Hhole.
    pose proof (Z.mod_pos_bound (i - b_hash b) (ht_capacity ht)). lia. }
  split; auto; [by replace (i + 1 + (n - 1)) with (i + n) by lia|lia|].
  replace (i + 1 - 1) with i by lia. rewrite <-dist_succ by done.
  pose proof (Z.mod_pos_bound (i - b_hash cur) (ht_capacity ht)).
  rewrite u64_small by (unfold is_u64; lia). lia.
Qed.

(** Displacing a richer bucket: leave [cur] here and carry it on. *)
Lemma carrying_swap mem ht re cur i n b :
  carrying mem ht re cur i n → ht_buckets ht !! Z.to_nat (i mod ht_capacity ht) = Some b →
  live b → (i - b_hash b) mod ht_capacity ht < (i - b_hash cur) mod ht_capacity ht →
  (i - b_hash b) mod ht_capacity ht < ht_capacity ht - 1 ∧
  carrying mem (set_bucket ht (i mod ht_capacity ht) cur) re b (i + 1) (n - 1).
Proof.
  intros [Hg Hrh Hl Hlen Hk Hhole Hn Hfit] Hb Lb Hlt.
  pose proof (geo_bounds ht Hg) as HN. pose proof (geo_len ht Hg) as HL.
  assert (Hd : ddist (ht_capacity ht) (ht_buckets ht) i = (i - b_hash b) mod ht_capacity ht)
    by (rewrite (ddist_lookup _ _ _ b), slot_dist_live; done).
  pose proof (Z.mod_pos_bound (i - b_hash cur) (ht_capacity ht)).
  pose proof (Z.mod_pos_bound (i - b_hash b) (ht_capacity ht)).
  assert (Hmax : (i - b_hash b) mod ht_capacity ht < ht_capacity ht - 1) by lia.
  split; [done|].
  assert (Hn0 : n ≠ 0) by (intros ->; rewrite Z.add_0_r in Hhole; lia).
  pose proof (live_insert_swap _ _ _ _ Hb Lb Hl) as Hperm.
  split; simpl; auto.
  - by apply (same_shape_geometry ht); auto with nkit.
  - apply robin_hood_insert; auto; [lia|by apply robin_hood_weaken|..].
    + rewrite slot_dist_live by done. lia.
    + rewrite slot_dist_live by done. specialize (Hrh i). lia.
  - intros E. specialize (Hlen E). by rewrite Hperm.
  - intros E. specialize (Hk E). by rewrite <-fmap_cons, Hperm.
  - rewrite ddist_insert_ne; [by replace (i + 1 + (n - 1)) with (i + n) by lia|lia|].
    replace (i + 1 + (n - 1)) with (i + n) by lia. apply mod_neq_near; lia.
  - lia.
  - replace (i + 1 - 1) with i by lia.
    rewrite ddist_insert_eq, slot_dist_live by (done || lia).
    rewrite <-dist_succ by done. rewrite u64_small by (unfold is_u64; lia). lia.
Qed.

(** What the insertion loop returns. *)
Record inserted (ht : nkit_hash_t) (is_rehash : bool) (cur : nkit_bucket_t)
    (ht' : nkit_hash_t) : Prop := {
  ins_shape : same_shape ht ht';
  ins_rh : robin_hood (ht_capacity ht) (ht_buckets ht');
  ins_live : live_list (ht_buckets ht') ≡ₚ cur :: live_list (ht_buckets ht);
  ins_count : ht_count ht' = if is_rehash then ht_count ht else u64 (ht_count ht + 1);
}.

Lemma put_loop_inserts mem : ∀ fuel ht re cur i n,
  carrying mem ht re cur i n → n < Z.of_nat fuel →
  ∃ ht', put_loop mem fuel ht re cur (i mod ht_capacity ht)
           ((i - b_hash cur) mod ht_capacity ht) = Some (0, ht') ∧ inserted ht re cur ht'.
Proof.
  induction fuel as [|fuel IH]; intros ht re cur i n C Hf; [destruct C; lia|].
  pose proof (car_geo _ _ _ _ _ _ C) as Hg. pose proof (geo_bounds ht Hg) as HN.
  destruct (slot_bucket ht Hg i) as [b Hb]. cbn [put_loop]. rewrite Hb.
  destruct (Z.eqb_spec (b_hash b) 0) as [Hz|Hz].
  - (* an empty slot: the carried bucket settles *)
    assert (Nb : ¬ live b) by (unfold live; lia).
    pose proof (car_live _ _ _ _ _ _ C) as Lc.
    eexists. split; [done|]. split.
    + destruct re; simpl; [|etrans; [|apply same_shape_set_count]]; auto with nkit.
    + assert (H : robin_hood (ht_capacity ht)
                    (<[Z.to_nat (i mod ht_capacity ht) := cur]> (ht_buckets ht))).
      { apply robin_hood_insert; try apply Hg; [lia| | |].
        - apply robin_hood_weaken, C.
        - rewrite slot_dist_live by done. apply C.
        - pose proof (car_rh _ _ _ _ _ _ C i) as Hi.
          rewrite (ddist_lookup _ _ i b), slot_dist_empty in Hi by done.
          pose proof (slot_dist_range (ht_capacity ht) ltac:(lia) cur i). lia. }
      by destruct re.
    + assert (H := live_insert_fill _ _ _ cur Hb Nb Lc). by destruct re.
    + by destruct re.
  - assert (Lb : live b) by done.
    replace (negb re && (b_hash b =? b_hash cur) &&
             keys_equal mem (b_key b) (b_key_len b) (b_key cur) (b_key_len cur)) with false.
    2:{ destruct re; [done|]. rewrite (carrying_no_match mem ht cur i n b _ C Hb Lb).
        by rewrite andb_false_r. }
    rewrite (probe_distance_mod ht Hg), (next_slot ht Hg).
    destruct (Z.ltb_spec ((i - b_hash b) mod ht_capacity ht)
                         ((i - b_hash cur) mod ht_capacity ht)) as [Hlt|Hge].
    + destruct (carrying_swap _ _ _ _ _ _ _ C Hb Lb Hlt) as [Hmax C'].
      rewrite (dist_succ ht Hg) by done.
      destruct (IH _ _ _ _ _ C') as (ht' & E & [Hs Hr Hp Hc]); [lia|]. simpl in *.
      exists ht'. split; [done|]. split; [|done| |by destruct re].
      * etrans; [apply same_shape_set_bucket|done].
      * rewrite Hp. by apply live_insert_swap, C.
    + destruct (carrying_skip _ _ _ _ _ _ _ C Hb Lb Hge) as [Hmax C'].
      rewrite (dist_succ ht Hg) by done. apply (IH _ _ _ _ _ C'). lia.
Qed.

(** ** Search *)

(** What a search for the bytes at [key] finds. *)
Definition matches (mem : Z → Z) (hash key key_len : Z) (b : nkit_bucket_t) : Prop :=
  live b ∧ b_hash b = hash ∧ keys_equal mem (b_key b) (b_key_len b) key key_len = true.

Definition find_result (mem : Z → Z) (ht : nkit_hash_t) (hash key key_len i : Z)
    (r : option Z) : Prop :=
  match r with
  | Some s => 0 ≤ s < ht_capacity ht ∧
      ∃ b, ht_buckets ht !! Z.to_nat s = Some b ∧ matches mem hash key key_len b
  | None => ∀ j b, 0 ≤ j < ht_capacity ht → ht_buckets ht !! Z.to_nat j = Some b →
      matches mem hash key key_len b → (j - hash) mod ht_capacity ht < i
  end.

(** A matching bucket at displacement [d] bounds every displacement on the way. *)
Lemma on_the_way ht hash i j b :
  geometry ht → robin_hood (ht_capacity ht) (ht_buckets ht) →
  0 ≤ j < ht_capacity ht → ht_buckets ht !! Z.to_nat j = Some b →
  live b → b_hash b = hash → 0 ≤ i ≤ (j - hash) mod ht_capacity ht →
  i ≤ ddist (ht_capacity ht) (ht_buckets ht) (hash + i).
Proof.
  intros Hg Hrh Hj Hb Lb Hh Hi. pose proof (geo_bounds ht Hg) as HN.
  pose proof (robin_hood_run (ht_capacity ht) _ (hash + i)
                ((j - hash) mod ht_capacity ht - i) Hrh ltac:(lia)) as Hrun.
  replace (hash + i + ((j - hash) mod ht_capacity ht - i))
    with (hash + (j - hash) mod ht_capacity ht) in Hrun by lia.
  rewrite (ddist_mod (ht_capacity ht) _ _ j) in Hrun
    by (rewrite Zplus_mod_idemp_r; f_equal; lia).
  rewrite (ddist_lookup _ _ j b), slot_dist_live, Hh in Hrun
    by (rewrite ?Z.mod_small by lia; done). lia.
Qed.

Lemma find_loop_spec mem ht hash key key_len e :
  geometry ht → robin_hood (ht_capacity ht) (ht_buckets ht) →
  e < ht_capacity ht → ddist (ht_capacity ht) (ht_buckets ht) (hash + e) = -1 →
  ∀ fuel i, 0 ≤ i ≤ e → e - i < Z.of_nat fuel →
  ∃ r, find_loop mem fuel ht hash key key_len ((hash + i) mod ht_capacity ht) i = Some r ∧
       find_result mem ht hash key key_len i r.
Proof.
  intros Hg Hrh He Hhole. pose proof (geo_bounds ht Hg) as HN.
  induction fuel as [|fuel IH]; intros i Hi Hf; [lia|].
  destruct (slot_bucket ht Hg (hash + i)) as [b Hb]. cbn [find_loop]. rewrite Hb.
  pose proof (ddist_lookup _ _ _ _ Hb) as Hd.
  destruct (Z.eqb_spec (b_hash b) 0) as [Hz|Hz].
  { exists None. split; [done|]. intros j b' Hj Hb' (Lb' & Hh & _).
    apply Z.nle_gt. intros Hle. assert (Nb : ¬ live b) by (unfold live; lia).
    rewrite slot_dist_empty in Hd by done.
    pose proof (on_the_way ht hash i j b' Hg Hrh Hj Hb' Lb' Hh ltac:(lia)). lia. }
  assert (Lb : live b) by done. rewrite slot_dist_live in Hd by done.
  rewrite (probe_distance_mod ht Hg), (next_slot ht Hg).
  destruct (Z.ltb_spec ((hash + i - b_hash b) mod ht_capacity ht) i) as [Hlt|Hge].
  { exists None. split; [done|]. intros j b' Hj Hb' (Lb' & Hh & _).
    apply Z.nle_gt. intros Hle.
    pose proof (on_the_way ht hash i j b' Hg Hrh Hj Hb' Lb' Hh ltac:(lia)). lia. }
  destruct ((b_hash b =? hash) && _) eqn:Hm.
  { apply andb_true_iff in Hm as [Hh Hk]. apply Z.eqb_eq in Hh.
    exists (Some ((hash + i) mod ht_capacity ht)). split; [done|].
    split; [apply Z.mod_pos_bound; lia|]. by exists b. }
  assert (i ≠ e).
  { intros ->. pose proof (Z.mod_pos_bound (hash + e - b_hash b) (ht_capacity ht)). lia. }
  rewrite (u64_small (i + 1)) by (unfold is_u64; lia).
  replace (hash + i + 1) with (hash + (i + 1)) by lia.
  destruct (IH (i + 1)) as (r & E & Hr); [lia|lia|]. exists r. split; [done|].
  destruct r as [s|]; [done|]. intros j b' Hj Hb' Hm'.
  pose proof (Hr j b' Hj Hb' Hm') as Hlt.
  destruct (Z.eq_dec ((j - hash) mod ht_capacity ht) i) as [Ei|]; [exfalso|lia].
  assert (j = (hash + i) mod ht_capacity ht) as ->.
  { rewrite <-Ei, Zplus_mod_idemp_r. rewrite <-(Z.mod_small j (ht_capacity ht)) at 1 by lia.
    f_equal. lia. }
  rewrite Hb in Hb'. simplify_eq. destruct Hm' as (_ & Hh & Hk).
  by rewrite Hh, Z.eqb_refl, Hk in Hm.
Qed.

(** ** Backward-shift deletion *)

(** The table with a hole at [e]: only the constraints around [e] may fail, and
    the bucket after it would fit one slot earlier. *)
Record shifting (N : Z) (bs : list nkit_bucket_t) (e n : Z) : Prop := {
  sh_len : Z.of_nat (length bs) = N;
  sh_off : robin_hood_off N bs e;
  sh_fits : ddist N bs (e + 1) ≤ ddist N bs (e - 1) + 2;
  sh_stop : ddist N bs (e + 1 + n) ≤ 0;
  sh_near : 0 ≤ n < N - 1;
}.

Section deletion.
Context (N : Z) (HN : 3 ≤ N).
Implicit Types (bs : list nkit_bucket_t) (e n : Z).

Lemma slot_dist_pred b e :
  0 < slot_dist N b (e + 1) → slot_dist N b e = slot_dist N b (e + 1) - 1.
Proof.
  unfold slot_dist. case_decide; [|lia]. intros Hpos.
  pose proof (Z.mod_pos_bound (e + 1 - b_hash b) N).
  replace (e - b_hash b) with (e + 1 - b_hash b - 1) by lia.
  rewrite <-Zminus_mod_idemp_l. apply Z.mod_small. lia.
Qed.

Lemma shifting_move bs e n nb :
  shifting N bs e n → bs !! Z.to_nat ((e + 1) mod N) = Some nb →
  0 < slot_dist N nb (e + 1) →
  shifting N (<[Z.to_nat (e mod N) := nb]> bs) (e + 1) (n - 1).
Proof.
  intros [Hl Hoff Hfit Hstop Hn] Hb Hpos.
  pose proof (ddist_lookup _ _ _ _ Hb) as Hd. pose proof (slot_dist_pred nb e Hpos) as Hp.
  assert (H1 : (e + 1) mod N ≠ e mod N) by (apply mod_neq_near; lia).
  assert (H2 : (e + 2) mod N ≠ e mod N) by (apply mod_neq_near; lia).
  assert (n ≠ 0) by (intros ->; rewrite Z.add_0_r in Hstop; lia).
  split.
  - by rewrite length_insert.
  - intros i Hi Hi1. assert (Hie : i mod N ≠ e mod N).
    { intros E. apply Hi1. by apply mod_eq_add. }
    rewrite (ddist_insert_ne N ltac:(lia) _ _ _ i) by done.
    destruct (Z.eq_dec ((i + 1) mod N) (e mod N)) as [E|Hne].
    + rewrite ddist_insert_eq, (slot_dist_mod N nb (i + 1) e), Hp by (done || lia).
      rewrite (ddist_mod N bs i (e - 1)); [lia|].
      apply (mod_eq_sub N _ _ 1) in E. by replace (i + 1 - 1) with i in E by lia.
    + rewrite ddist_insert_ne by (done || lia). by apply Hoff.
  - replace (e + 1 - 1) with e by lia. replace (e + 1 + 1) with (e + 2) by lia.
    rewrite ddist_insert_ne, ddist_insert_eq, Hp by (done || lia).
    specialize (Hoff (e + 1) H1). replace (e + 1 + 1) with (e + 2) in Hoff by lia.
    specialize (Hoff H2). lia.
  - rewrite ddist_insert_ne; [by replace (e + 1 + 1 + (n - 1)) with (e + 1 + n) by lia|lia|].
    replace (e + 1 + 1 + (n - 1)) with (e + (1 + n)) by lia. apply mod_neq_near; lia.
  - lia.
Qed.

Lemma shifting_done bs e n :
  shifting N bs e n → ddist N bs (e + 1) ≤ 0 →
  robin_hood N (<[Z.to_nat (e mod N) := empty_bucket]> bs).
Proof.
  intros [Hl Hoff Hfit _ _] Hle.
  assert (E : slot_dist N empty_bucket e = -1) by done.
  apply robin_hood_insert; auto; try lia.
  pose proof (ddist_range N ltac:(lia) bs (e - 1)). lia.
Qed.

(** Moving a bucket into the hole moves the hole. *)
Lemma live_move bs (e s : nat) nb :
  bs !! s = Some nb → live nb → e ≠ s → (e < length bs)%nat →
  live_list (<[s := empty_bucket]> (<[e := nb]> bs)) ≡ₚ live_list (<[e := empty_bucket]> bs).
Proof.
  intros Hs Ln Hne He.
  assert (Ne : ¬ live empty_bucket) by (unfold live; simpl; lia).
  apply (Permutation_cons_inv (a:=nb)).
  rewrite (live_insert_clear _ s nb) by (rewrite ?list_lookup_insert_ne by done; done).
  rewrite <-(list_insert_insert_eq bs e nb empty_bucket).
  apply live_insert_fill with empty_bucket; [|done|done].
  by apply list_lookup_insert_eq.
Qed.
End deletion.

Lemma shift_loop_spec ht : geometry ht → ∀ fuel bs e n,
  shifting (ht_capacity ht) bs e n → n < Z.of_nat fuel →
  ∃ bs' e', shift_loop fuel bs (ht_mask ht) (e mod ht_capacity ht) = Some (bs', e') ∧
    let final := <[Z.to_nat e' := empty_bucket]> bs' in
    robin_hood (ht_capacity ht) final ∧ length final = length bs ∧
    live_list final ≡ₚ live_list (<[Z.to_nat (e mod ht_capacity ht) := empty_bucket]> bs).
Proof.
  intros Hg. pose proof (geo_bounds ht Hg) as HN.
  induction fuel as [|fuel IH]; intros bs e n S Hf; [destruct S; lia|].
  cbn [shift_loop]. rewrite (next_slot ht Hg).
  destruct (lookup_lt_is_Some_2 bs (Z.to_nat ((e + 1) mod ht_capacity ht))) as [nb Hb].
  { apply to_nat_mod_lt; [lia|apply S]. }
  rewrite Hb, (probe_distance_mod ht Hg). pose proof (ddist_lookup _ _ _ _ Hb) as Hd.
  destruct (_ || _) eqn:Hstop.
  - assert (Hle : ddist (ht_capacity ht) bs (e + 1) ≤ 0).
    { rewrite Hd. unfold slot_dist. case_decide as Hl; [|lia].
      rewrite orb_true_iff, !Z.eqb_eq in Hstop. unfold live in Hl. lia. }
    do 2 eexists. split; [done|]. simpl.
    split_and!; [by eapply shifting_done; eauto; lia|apply length_insert|done].
  - rewrite orb_false_iff, !Z.eqb_neq in Hstop. destruct Hstop as [Hz Hnz].
    assert (Ln : live nb) by done.
    assert (Hpos : 0 < slot_dist (ht_capacity ht) nb (e + 1)).
    { rewrite slot_dist_live by done.
      pose proof (Z.mod_pos_bound (e + 1 - b_hash nb) (ht_capacity ht)). lia. }
    pose proof (shifting_move (ht_capacity ht) ltac:(lia) _ _ _ _ S Hb Hpos) as S'.
    destruct (IH _ _ _ S') as (bs' & e' & E & Hrh & Hlen & Hlive); [lia|].
    exists bs', e'. split; [done|]. simpl in *. split_and!; [done| |].
    + by rewrite Hlen, length_insert.
    + rewrite Hlive. apply live_move; auto.
      * rewrite to_nat_mod_inj by lia. intros Eq. symmetry in Eq.
        refine (mod_neq_near (ht_capacity ht) e 1 _ Eq); lia.
      * apply to_nat_mod_lt; [lia|apply S].
Qed.
