(* ===== verification/HashMap.v ===== *)
(** * The hash table is a map (src/structs/hash_table.c)

    The well-formedness invariant of a table, its abstraction to a finite map
    from key bytes to values, and the theorems that creation, put, get, remove
    and resizing implement the map operations. *)

From stdpp Require Import prelude gmap.
From Stdlib Require Import ZArith Lia.
From S2P Require Import Prelude Words Arena Ring HashTable RobinHood.
Local Open Scope Z_scope.
Local Open Scope word_scope.

(** ** Invariant and abstraction *)

Definition bucket_ok (mem : Z → Z) (b : nkit_bucket_t) : Prop :=
  0 < b_key_len b ∧ b_hash b = nkit_fnv1a mem (b_key b) (b_key_len b).

Record ht_ok (mem : Z → Z) (ht : nkit_hash_t) : Prop := {
  ok_geo : geometry ht;
  ok_rh : robin_hood (ht_capacity ht) (ht_buckets ht);
  ok_count : ht_count ht = Z.of_nat (length (live_list (ht_buckets ht)));
  ok_room : ht_count ht < ht_capacity ht;
  ok_keys : NoDup (key_of mem <$> live_list (ht_buckets ht));
  ok_buckets : Forall (bucket_ok mem) (live_list (ht_buckets ht));
}.

Definition entry (mem : Z → Z) (b : nkit_bucket_t) : list Z * Z := (key_of mem b, b_value b).

Definition ht_map (mem : Z → Z) (ht : nkit_hash_t) : gmap (list Z) Z :=
  list_to_map (entry mem <$> live_list (ht_buckets ht)).

(** ** The map the table promises to be *)

Inductive hash_op :=
| HPut (key key_len value : Z)
| HGet (key key_len : Z)
| HRemove (key key_len : Z)
| HCount.

Definition map_step (mem : Z → Z) (m : gmap (list Z) Z) (o : hash_op)
    : Z * gmap (list Z) Z :=
  match o with
  | HPut key len v =>
      if (key =? NULL) || (len =? 0) then (-1, m) else (0, <[read_bytes mem key len := v]> m)
  | HGet key len =>
      if (key =? NULL) || (len =? 0) then (NULL, m)
      else (default NULL (m !! read_bytes mem key len), m)
  | HRemove key len =>
      if (key =? NULL) || (len =? 0) then (-1, m) else
      match m !! read_bytes mem key len with
      | Some _ => (0, delete (read_bytes mem key len) m)
      | None => (-1, m)
      end
  | HCount => (Z.of_nat (size m), m)
  end.

Definition hash_step (mem : Z → Z) (os : arena_os) (ht : nkit_hash_t) (o : hash_op)
    : option (Z * nkit_hash_t) :=
  match o with
  | HPut key len v =>
      match nkit_hash_put mem os (Some ht) key len v with
      | Some (r, Some ht') => Some (r, ht') | _ => None
      end
  | HGet key len =>
      match nkit_hash_get mem (Some ht) key len with Some r => Some (r, ht) | None => None end
  | HRemove key len =>
      match nkit_hash_remove mem (Some ht) key len with
      | Some (r, Some ht') => Some (r, ht') | _ => None
      end
  | HCount => Some (nkit_hash_count (Some ht), ht)
  end.

Fixpoint map_exec (mem : Z → Z) (m : gmap (list Z) Z) (ops : list hash_op)
    : list Z * gmap (list Z) Z :=
  match ops with
  | [] => ([], m)
  | o :: ops =>
      let '(r, m1) := map_step mem m o in
      let '(rs, m2) := map_exec mem m1 ops in (r :: rs, m2)
  end.

(** A sequence of calls, each with what the system answers during it. *)
Fixpoint hash_exec (mem : Z → Z) (ht : nkit_hash_t) (calls : list (arena_os * hash_op))
    : option (list Z * nkit_hash_t) :=
  match calls with
  | [] => Some ([], ht)
  | (os, o) :: calls =>
      match hash_step mem os ht o with
      | None => None
      | Some (r, ht1) =>
          match hash_exec mem ht1 calls with
          | None => None
          | Some (rs, ht2) => Some (r :: rs, ht2)
          end
      end
  end.

Definition op_args_ok (o : hash_op) : Prop :=
  match o with
  | HPut _ len _ => is_u64 len
  | HGet _ len => is_u64 len
  | HRemove _ len => is_u64 len
  | HCount => True
  end.

(** The one call that is not served: a put of a new key that finds all slots but one
    taken and is refused the memory for a larger table. *)
Definition last_slot (mem : Z → Z) (os : arena_os) (ht : nkit_hash_t) (o : hash_op) : Prop :=
  match o with
  | HPut key len _ => key ≠ NULL ∧ len ≠ 0 ∧ ht_map mem ht !! read_bytes mem key len = None ∧
      ht_count ht + 1 = ht_capacity ht ∧ (nkit_arena_create os (ht_node_id ht) (64 * ht_capacity ht)).1 = None
  | _ => False
  end.

(** ** Facts about well-formed tables *)

Section facts.
Context (mem : Z → Z).
Implicit Types (ht : nkit_hash_t) (b : nkit_bucket_t).

Lemma entry_keys l : (entry mem <$> l).*1 = key_of mem <$> l.
Proof. by rewrite <-list_fmap_compose. Qed.

Lemma ht_map_perm ht ht' :
  NoDup (key_of mem <$> live_list (ht_buckets ht)) →
  live_list (ht_buckets ht') ≡ₚ live_list (ht_buckets ht) → ht_map mem ht' = ht_map mem ht.
Proof.
  intros Hnd Hp. apply list_to_map_proper; [|by rewrite Hp].
  rewrite entry_keys. by rewrite Hp.
Qed.

Lemma ht_map_cons ht b l :
  NoDup (key_of mem <$> b :: l) → live_list (ht_buckets ht) ≡ₚ b :: l →
  ht_map mem ht = <[key_of mem b := b_value b]> (list_to_map (entry mem <$> l)).
Proof.
  intros Hnd Hp. unfold ht_map.
  rewrite (list_to_map_proper _ (entry mem <$> b :: l)); [done| |by rewrite Hp].
  rewrite entry_keys. by rewrite Hp.
Qed.

Lemma ht_map_lookup ht k v :
  NoDup (key_of mem <$> live_list (ht_buckets ht)) →
  ht_map mem ht !! k = Some v ↔
  ∃ b, b ∈ live_list (ht_buckets ht) ∧ key_of mem b = k ∧ b_value b = v.
Proof.
  intros Hnd. unfold ht_map. rewrite <-elem_of_list_to_map by (by rewrite entry_keys).
  rewrite list_elem_of_fmap. unfold entry. split.
  - intros (b & E & Hb). simplify_eq. by exists b.
  - intros (b & Hb & <- & <-). by exists b.
Qed.

Lemma ht_map_None ht k :
  ht_map mem ht !! k = None ↔ k ∉ (key_of mem <$> live_list (ht_buckets ht)).
Proof.
  unfold ht_map. rewrite <-not_elem_of_list_to_map, entry_keys. done.
Qed.

Lemma ht_map_size ht : ht_ok mem ht → ht_count ht = Z.of_nat (size (ht_map mem ht)).
Proof.
  intros Hok. rewrite (ok_count _ _ Hok). unfold ht_map. f_equal.
  rewrite <-(length_fmap (entry mem)), <-length_map_to_list.
  rewrite map_to_list_to_map; [done|]. rewrite entry_keys. apply Hok.
Qed.

(** A well-formed table has an empty slot at some distance from any position. *)
Lemma ok_hole ht i :
  ht_ok mem ht →
  ∃ n, 0 ≤ n < ht_capacity ht ∧ ddist (ht_capacity ht) (ht_buckets ht) (i + n) = -1.
Proof.
  intros [Hg _ Hc Hr _ _]. pose proof (geo_bounds ht Hg). pose proof (geo_len ht Hg).
  destruct (live_room (ht_buckets ht)) as (j & b & Hj & Nb); [lia|].
  pose proof (lookup_lt_Some _ _ _ Hj) as Hlt.
  exists ((Z.of_nat j - i) mod ht_capacity ht).
  split; [apply Z.mod_pos_bound; lia|].
  rewrite (ddist_mod _ _ _ (Z.of_nat j))
    by (rewrite Zplus_mod_idemp_r; f_equal; lia).
  rewrite (ddist_lookup _ _ _ b); [by apply slot_dist_empty|].
  by rewrite Z.mod_small, Nat2Z.id by lia.
Qed.

(** A stored bucket matches a key exactly when the bytes agree. *)
Lemma matches_key ht b key len :
  ht_ok mem ht → b ∈ live_list (ht_buckets ht) → 0 < len →
  matches mem (nkit_fnv1a mem key len) key len b ↔ key_of mem b = read_bytes mem key len.
Proof.
  intros Hok Hb Hlen. pose proof (ok_buckets _ _ Hok) as Hall.
  rewrite Forall_forall in Hall. destruct (Hall b Hb) as [Hbl Hbh].
  apply elem_of_live in Hb as [Lb _]. unfold matches.
  rewrite keys_equal_spec by lia. split; [by intros (_ & _ & ?)|].
  intros E. split_and!; [done| |done]. rewrite Hbh. by apply fnv1a_ext.
Qed.

Lemma find_key_spec ht key len :
  ht_ok mem ht → 0 < len →
  ∃ r, find_key mem ht key len = Some r ∧
  match r with
  | Some s => 0 ≤ s < ht_capacity ht ∧
      ∃ b, ht_buckets ht !! Z.to_nat s = Some b ∧ live b ∧
           key_of mem b = read_bytes mem key len
  | None => ht_map mem ht !! read_bytes mem key len = None
  end.
Proof.
  intros Hok Hlen. pose proof (ok_geo _ _ Hok) as Hg. pose proof (geo_bounds ht Hg).
  pose proof (geo_len ht Hg). set (h := nkit_fnv1a mem key len).
  destruct (ok_hole ht h Hok) as (e & He & Hhole).
  destruct (find_loop_spec mem ht h key len e Hg (ok_rh _ _ Hok) (proj2 He) Hhole
              (S (length (ht_buckets ht))) 0) as (r & E & Hr); [lia|lia|].
  exists r. split.
  { unfold find_key. fold h. rewrite (geo_land ht Hg). by rewrite Z.add_0_r in E. }
  destruct r as [s|].
  - destruct Hr as (Hs & b & Hb & Hm). split; [done|]. exists b. split; [done|].
    split; [apply Hm|]. apply (matches_key ht b key len Hok); [|done|done].
    apply elem_of_live. split; [apply Hm|by eapply list_elem_of_lookup_2].
  - apply ht_map_None. rewrite list_elem_of_fmap. intros (b & Ek & Hb).
    assert (Hm : matches mem h key len b) by (by apply (matches_key ht)).
    apply elem_of_live in Hb as [_ Hb]. apply list_elem_of_lookup in Hb as [j Hj].
    pose proof (lookup_lt_Some _ _ _ Hj).
    specialize (Hr (Z.of_nat j) b ltac:(lia)). rewrite Nat2Z.id in Hr.
    specialize (Hr Hj Hm). pose proof (Z.mod_pos_bound (Z.of_nat j - h) (ht_capacity ht)). lia.
Qed.
End facts.

(** ** Put, key absent *)

Section put.
Context (mem : Z → Z).
Implicit Types (ht : nkit_hash_t) (b cur : nkit_bucket_t).

(** Insertion of a bucket into a table with a spare slot, for both callers of
    [_nkit_hash_put_internal]. *)
Lemma put_internal_inserts ht re cur :
  geometry ht → robin_hood (ht_capacity ht) (ht_buckets ht) → live cur →
  Z.of_nat (length (live_list (ht_buckets ht))) < ht_capacity ht →
  (re = false → Forall (λ b, 0 ≤ b_key_len b) (cur :: live_list (ht_buckets ht))) →
  (re = false → NoDup (key_of mem <$> cur :: live_list (ht_buckets ht))) →
  ∀ fuel, ht_capacity ht ≤ Z.of_nat fuel →
  ∃ ht', nkit_hash_put_internal mem fuel ht (b_hash cur) (b_key cur) (b_key_len cur)
           (b_value cur) re = Some (0, ht') ∧ inserted ht re cur ht'.
Proof.
  intros Hg Hrh Lc Hroom Hlens Hkeys fuel Hf.
  pose proof (geo_bounds ht Hg). pose proof (geo_len ht Hg).
  destruct (live_room (ht_buckets ht)) as (j & b & Hj & Nb); [lia|].
  pose proof (lookup_lt_Some _ _ _ Hj) as Hlt. set (h := b_hash cur).
  assert (C : carrying mem ht re cur h ((Z.of_nat j - h) mod ht_capacity ht)).
  { split; auto.
    - rewrite (ddist_mod _ _ _ (Z.of_nat j))
        by (rewrite Zplus_mod_idemp_r; f_equal; lia).
      rewrite (ddist_lookup _ _ _ b); [by apply slot_dist_empty|].
      by rewrite Z.mod_small, Nat2Z.id by lia.
    - apply Z.mod_pos_bound; lia.
    - fold h. rewrite Z.sub_diag, Zmod_0_l.
      pose proof (ddist_range (ht_capacity ht) ltac:(lia) (ht_buckets ht) (h - 1)). lia. }
  destruct (put_loop_inserts mem fuel ht re cur h _ C) as (ht' & E & I).
  { destruct C. lia. }
  exists ht'. split; [|done]. unfold nkit_hash_put_internal.
  rewrite (geo_land ht Hg). fold h in E. rewrite Z.sub_diag, Zmod_0_l in E.
  by destruct cur.
Qed.

(** ** Put, key present: the value is overwritten in place *)

Lemma put_loop_updates ht cur j b :
  geometry ht → robin_hood (ht_capacity ht) (ht_buckets ht) →
  NoDup (key_of mem <$> live_list (ht_buckets ht)) →
  Forall (λ b, 0 ≤ b_key_len b) (cur :: live_list (ht_buckets ht)) →
  0 ≤ j < ht_capacity ht → ht_buckets ht !! Z.to_nat j = Some b → live b →
  b_hash b = b_hash cur → key_of mem b = key_of mem cur →
  ∀ fuel i, 0 ≤ i ≤ (j - b_hash cur) mod ht_capacity ht →
  (j - b_hash cur) mod ht_capacity ht - i < Z.of_nat fuel →
  put_loop mem fuel ht false cur ((b_hash cur + i) mod ht_capacity ht) i =
  Some (0, set_bucket ht j (mk_bucket (b_hash b) (b_key b) (b_key_len b) (b_value cur))).
Proof.
  intros Hg Hrh Hnd Hlens Hj Hb Lb Hh Hk. pose proof (geo_bounds ht Hg) as HN.
  inversion Hlens as [|? ? Hlc Hll]; subst. rewrite Forall_forall in Hll.
  assert (Hmatch : ∀ b' s, ht_buckets ht !! s = Some b' → live b' →
    keys_equal mem (b_key b') (b_key_len b') (b_key cur) (b_key_len cur) = true ↔
    key_of mem b' = key_of mem cur).
  { intros b' s Hs Lb'. apply keys_equal_spec; [|done]. apply Hll, elem_of_live.
    split; [done|]. by eapply list_elem_of_lookup_2. }
  induction fuel as [|fuel IH]; intros i Hi Hf; [lia|].
  pose proof (on_the_way ht (b_hash cur) i j b Hg Hrh Hj Hb Lb Hh Hi) as Hway.
  destruct (slot_bucket ht Hg (b_hash cur + i)) as [b' Hb'].
  cbn [put_loop]. rewrite Hb'. rewrite (ddist_lookup _ _ _ b' Hb') in Hway.
  assert (Lb' : live b').
  { apply (slot_dist_live_nonneg (ht_capacity ht) ltac:(lia) b' (b_hash cur + i)). lia. }
  rewrite (proj2 (Z.eqb_neq (b_hash b') 0)) by done.
  destruct (decide (key_of mem b' = key_of mem cur)) as [Ek|Ek].
  - assert (Ej : Z.to_nat ((b_hash cur + i) mod ht_capacity ht) = Z.to_nat j).
    { eapply (NoDup_live_index (key_of mem)); eauto. congruence. }
    rewrite Ej in Hb'. rewrite Hb in Hb'. simplify_eq.
    rewrite Hh, Z.eqb_refl, (proj2 (Hmatch b' _ Hb Lb)) by done. cbn [negb andb].
    f_equal. f_equal. unfold set_bucket. by rewrite Ej.
  - replace (keys_equal _ _ _ _ _) with false.
    2:{ symmetry. apply not_true_is_false. by rewrite (Hmatch b' _ Hb'). }
    rewrite andb_false_r, (probe_distance_mod ht Hg), (next_slot ht Hg).
    rewrite slot_dist_live in Hway by done.
    rewrite (proj2 (Z.ltb_ge _ _)) by done.
    pose proof (Z.mod_pos_bound (j - b_hash cur) (ht_capacity ht)).
    assert (i ≠ (j - b_hash cur) mod ht_capacity ht).
    { intros ->. rewrite Zplus_mod_idemp_r in Hb'.
      replace (b_hash cur + (j - b_hash cur)) with j in Hb' by lia.
      rewrite Z.mod_small in Hb' by lia. congruence. }
    rewrite u64_small by (unfold is_u64; lia).
    replace (b_hash cur + i + 1) with (b_hash cur + (i + 1)) by lia. apply IH; lia.
Qed.

(** ** Rehashing *)

Lemma rehash_loop_spec fuel old : ∀ ht,
  geometry ht → robin_hood (ht_capacity ht) (ht_buckets ht) →
  Z.of_nat (length (live_list (ht_buckets ht)) + length (live_list old)) < ht_capacity ht →
  ht_capacity ht ≤ Z.of_nat fuel →
  ∃ ht', rehash_loop mem fuel ht old = Some ht' ∧ same_shape ht ht' ∧
    robin_hood (ht_capacity ht) (ht_buckets ht') ∧ ht_count ht' = ht_count ht ∧
    live_list (ht_buckets ht') ≡ₚ live_list old ++ live_list (ht_buckets ht).
Proof.
  induction old as [|b old IH]; intros ht Hg Hrh Hroom Hf; cbn [rehash_loop].
  { exists ht. by split_and!. }
  unfold live_list in Hroom |- *. rewrite filter_cons in Hroom |- *.
  destruct (Z.eqb_spec (b_hash b) 0) as [Hz|Hz]; cbn [negb].
  - rewrite decide_False in Hroom |- * by (unfold live; lia). by apply IH.
  - rewrite decide_True in Hroom |- * by done. simpl in Hroom.
    destruct (put_internal_inserts ht true b Hg Hrh Hz) with (fuel:=fuel)
      as (ht1 & -> & [Hs Hr Hp Hc]); [unfold live_list; lia|done|done|lia|].
    pose proof (same_shape_geometry _ _ Hs Hg) as Hg1.
    pose proof (Permutation_length Hp) as Hpl. simpl in Hpl.
    rewrite <-(ss_capacity _ _ Hs) in Hr, Hf, Hroom.
    destruct (IH ht1) as (ht2 & E & Hs2 & Hr2 & Hc2 & Hp2); auto.
    { unfold live_list in *. lia. }
    exists ht2. split_and!; auto.
    + by etrans.
    + by rewrite <-(ss_capacity _ _ Hs).
    + by rewrite Hc2.
    + rewrite Hp2, Hp. simpl. by rewrite Permutation_middle.
Qed.
End put.

(** ** Whole operations *)

Lemma cleared_buckets_length c : 0 ≤ c → Z.of_nat (length (cleared_buckets c)) = c.
Proof. intros. unfold cleared_buckets. rewrite length_replicate. lia. Qed.

Lemma cleared_buckets_live c : live_list (cleared_buckets c) = [].
Proof.
  unfold live_list, cleared_buckets. induction (Z.to_nat c); [done|]. simpl.
  by rewrite filter_cons_False by (unfold live; simpl; lia).
Qed.

Lemma cleared_buckets_rh N c : robin_hood N (cleared_buckets c).
Proof.
  assert (H : ∀ i, ddist N (cleared_buckets c) i = -1).
  { intros i. unfold ddist. destruct (_ !! _) as [b|] eqn:E; [|done].
    apply lookup_replicate in E as [-> _]. done. }
  intros i. rewrite !H. lia.
Qed.

Lemma double_pow2 k : 4 ≤ k ≤ 58 → u64 (2 ^ k * 2) = 2 ^ (k + 1).
Proof.
  intros Hk. rewrite Z.pow_add_r by lia. apply u64_small.
  assert (2 ^ k ≤ 2 ^ 58) by (apply Z.pow_le_mono_r; lia). unfold is_u64. lia.
Qed.

(** A bucket array's byte count either is exact or wraps to zero. *)
Lemma bucket_bytes k :
  4 ≤ k ≤ 63 → u64 (sizeof_nkit_bucket_t * 2 ^ k) = if k <=? 58 then 2 ^ (k + 5) else 0.
Proof.
  intros Hk. unfold sizeof_nkit_bucket_t. change 32 with (2 ^ 5).
  rewrite <-Z.pow_add_r by lia. replace (5 + k) with (k + 5) by lia.
  destruct (Z.leb_spec k 58).
  - apply u64_small. split; [lia|]. apply Z.pow_lt_mono_r; lia.
  - unfold u64. apply Z.mod_divide; [lia|]. exists (2 ^ (k - 59)).
    rewrite <-Z.pow_add_r by lia. f_equal; lia.
Qed.

(** What resizing does: nothing, when no arena can be had, or a table of twice
    the capacity with the same live buckets. *)
Lemma resize_spec mem os ht :
  ArenaOS_ok os → ht_ok mem ht →
  ∃ ht' calls, nkit_hash_resize mem os ht = Some (ht', calls) ∧ ht_ok mem ht' ∧
    live_list (ht_buckets ht') ≡ₚ live_list (ht_buckets ht) ∧
    ht_count ht' = ht_count ht ∧ ht_node_id ht' = ht_node_id ht ∧
    (ht' = ht ∨ ht_capacity ht' = 2 * ht_capacity ht) ∧
    ((nkit_arena_create os (ht_node_id ht) (64 * ht_capacity ht)).1 ≠ None →
     ht_capacity ht ≤ 2 ^ 57 → ht_capacity ht' = 2 * ht_capacity ht).
Proof.
  intros Hos Hok. pose proof (ok_geo _ _ Hok) as Hg.
  destruct (geo_pow2 ht Hg) as (k & Hk & Ek). unfold nkit_hash_resize.
  rewrite Ek, double_pow2, bucket_bytes by lia.
  destruct (Z.leb_spec (k + 1) 58) as [Hle|Hgt].
  2:{ exists ht, []. split_and!; auto. intros _ Hc. exfalso.
      apply (Z.pow_le_mono_r_iff 2) in Hc; lia. }
  replace (64 * 2 ^ k) with (2 ^ (k + 1 + 5))
    by (change 64 with (2 ^ 6); rewrite <-Z.pow_add_r by lia; f_equal; lia).
  destruct (nkit_arena_create os (ht_node_id ht) _) as [[a|] calls] eqn:Hc.
  2:{ exists ht, calls. split_and!; auto. by intros []. }
  assert (Hsz : 0 ≤ 2 ^ (k + 1 + 5) ≤ 2 ^ 63) by (split; [lia|apply Z.pow_le_mono_r; lia]).
  destruct (arena_serves_request os _ _ a calls Hos Hsz Hc) as (a' & -> & _).
  set (fresh := mk_hash (cleared_buckets (2 ^ (k + 1))) _ _ _ _ _).
  assert (Hm : u64 (2 ^ (k + 1) - 1) = 2 ^ (k + 1) - 1).
  { apply u64_small. assert (2 ^ (k + 1) ≤ 2 ^ 58) by (apply Z.pow_le_mono_r; lia).
    unfold is_u64. lia. }
  assert (Hgf : geometry fresh).
  { split; simpl; [exists (k + 1); split; [lia|done]|done|by apply cleared_buckets_length; lia]. }
  pose proof (ok_room _ _ Hok) as Hroom. pose proof (ok_count _ _ Hok) as Hcount.
  assert (E2 : 2 ^ (k + 1) = 2 * 2 ^ k) by (rewrite Z.pow_add_r by lia; lia).
  destruct (rehash_loop_spec mem (S (Z.to_nat (2 ^ (k + 1)))) (ht_buckets ht) fresh)
    as (h' & -> & Hs & Hr & Hct & Hp); auto.
  { apply cleared_buckets_rh. }
  { simpl. rewrite cleared_buckets_live. simpl. lia. }
  { simpl. lia. }
  simpl in Hp. rewrite cleared_buckets_live, app_nil_r in Hp. simpl in Hr, Hct.
  do 2 eexists. split; [done|]. destruct Hs as [Sc Sm Sa Sn Sl]. simpl in *.
  split_and!; simpl; [|done|done|done|right; lia|lia].
  split; simpl; rewrite ?Hct, ?Sc; auto; try lia.
  - split; simpl; rewrite ?Sc, ?Sl; [exists (k + 1); split; [lia|done]|congruence|].
    apply cleared_buckets_length. lia.
  - rewrite Hp. done.
  - rewrite Hp. apply Hok.
  - rewrite Hp. apply Hok.
Qed.

Section put_operation.
Context (mem : Z → Z).

(** [_nkit_hash_put_internal] as the last step of [nkit_hash_put]. *)
Lemma put_internal_spec ht key len v :
  ht_ok mem ht → 0 < len →
  ht_count ht + 1 < ht_capacity ht ∨ is_Some (ht_map mem ht !! read_bytes mem key len) →
  ∃ ht', nkit_hash_put_internal mem (S (length (ht_buckets ht))) ht
           (nkit_fnv1a mem key len) key len v false = Some (0, ht') ∧
    ht_ok mem ht' ∧ ht_map mem ht' = <[read_bytes mem key len := v]> (ht_map mem ht) ∧
    ht_capacity ht' = ht_capacity ht ∧ ht_count ht ≤ ht_count ht' ≤ ht_count ht + 1 ∧
    ht_node_id ht' = ht_node_id ht.
Proof.
  intros Hok Hlen Hroom. pose proof (ok_geo _ _ Hok) as Hg. pose proof (geo_bounds ht Hg) as HN.
  pose proof (geo_len ht Hg) as HL. pose proof (fnv1a_range mem key len) as Hh.
  set (cur := mk_bucket (nkit_fnv1a mem key len) key len v).
  assert (Lc : live cur) by (unfold live; simpl; lia).
  assert (Hlens : Forall (λ b, 0 ≤ b_key_len b) (cur :: live_list (ht_buckets ht))).
  { constructor; [simpl; lia|]. eapply Forall_impl; [apply Hok|]. intros b [? _]. lia. }
  assert (Hcnt : 0 ≤ ht_count ht) by (rewrite (ok_count _ _ Hok); lia).
  destruct (decide (read_bytes mem key len ∈ key_of mem <$> live_list (ht_buckets ht)))
    as [Hin|Hnin].
  - apply list_elem_of_fmap in Hin as (b & Ek & Hb).
    pose proof (ok_buckets _ _ Hok) as Hall. rewrite Forall_forall in Hall.
    destruct (Hall b Hb) as [Hbl Hbh]. pose proof Hb as Hb'.
    apply elem_of_live in Hb' as [Lb Hbin]. apply list_elem_of_lookup in Hbin as [j Hj].
    pose proof (lookup_lt_Some _ _ _ Hj) as Hjlt.
    assert (Ehash : b_hash b = b_hash cur) by (rewrite Hbh; by apply fnv1a_ext).
    set (b' := mk_bucket (b_hash b) (b_key b) (b_key_len b) v).
    assert (Lb' : live b') by done.
    pose proof (put_loop_updates mem ht cur (Z.of_nat j) b Hg (ok_rh _ _ Hok) (ok_keys _ _ Hok)
      Hlens ltac:(lia) ltac:(by rewrite Nat2Z.id) Lb Ehash (eq_sym Ek)
      (S (length (ht_buckets ht))) 0) as E.
    pose proof (Z.mod_pos_bound (Z.of_nat j - b_hash cur) (ht_capacity ht)).
    exists (set_bucket ht (Z.of_nat j) b'). split.
    { unfold nkit_hash_put_internal. rewrite (geo_land ht Hg).
      rewrite Z.add_0_r in E. apply E; lia. }
    assert (Hswap := live_insert_swap _ _ _ b' Hj Lb Lb').
    destruct (proj1 (elem_of_Permutation _ _) Hb) as [l Hl].
    assert (Hp : live_list (<[j := b']> (ht_buckets ht)) ≡ₚ b' :: l).
    { apply (Permutation_cons_inv (a:=b)). rewrite Hswap, Hl. apply Permutation_swap. }
    assert (Hnd : NoDup (key_of mem <$> b' :: l)).
    { change (key_of mem <$> b' :: l) with (key_of mem <$> b :: l).
      rewrite <-Hl. apply Hok. }
    unfold set_bucket. rewrite Nat2Z.id. split_and!; simpl; try lia; try done.
    + split; simpl; try apply Hok.
      * apply (same_shape_geometry ht); [|done]. split; simpl; try done. apply length_insert.
      * apply (robin_hood_same_hash _ (ht_buckets ht)); [apply length_insert|apply Hok|].
        intros i b0 Hi. destruct (decide (i = j)) as [->|]; [|by exists b0; rewrite list_lookup_insert_ne].
        exists b'. rewrite list_lookup_insert_eq by done. simpl. split; [done|congruence].
      * rewrite (ok_count _ _ Hok), Hp, Hl. done.
      * by rewrite Hp.
      * rewrite Hp. constructor; [done|]. pose proof (ok_buckets _ _ Hok) as Hal.
        rewrite Hl in Hal. by inversion Hal.
    + rewrite (ht_map_cons mem _ b' l Hnd) by done.
      rewrite (ht_map_cons mem ht b l Hnd Hl). rewrite Ek. by rewrite insert_insert_eq.
  - pose proof (proj2 (ht_map_None mem ht _) Hnin) as Enone. destruct Hroom as [Hroom|[v0 E0]]; [|congruence].
    destruct (put_internal_inserts mem ht false cur Hg (ok_rh _ _ Hok) Lc)
      with (fuel := S (length (ht_buckets ht))) as (ht' & E & [Hs Hr Hp Hc]); auto.
    { rewrite <-(ok_count _ _ Hok). lia. }
    { intros _. rewrite fmap_cons. by apply NoDup_cons; split; [|apply Hok]. }
    { lia. }
    assert (Hnd : NoDup (key_of mem <$> cur :: live_list (ht_buckets ht))).
    { rewrite fmap_cons. by apply NoDup_cons; split; [|apply Hok]. }
    rewrite u64_small in Hc by (unfold is_u64; lia).
    exists ht'. destruct Hs as [Sc Sm Sa Sn Sl]. split_and!; try done; try lia.
    + split; rewrite ?Sc; auto; try lia.
      * by apply (same_shape_geometry ht).
      * rewrite Hc, Hp, (ok_count _ _ Hok). simpl. lia.
      * by rewrite Hp.
      * rewrite Hp. constructor; [by split|apply Hok].
    + by rewrite (ht_map_cons mem _ cur _ Hnd Hp).
Qed.

(** The table can take the key: there is a slot to spare, the key is there already,
    or a table of twice the size can be had. *)
Definition put_has_room (os : arena_os) (ht : nkit_hash_t) (key len : Z) : Prop :=
  ht_count ht + 1 < ht_capacity ht ∨
  is_Some (ht_map mem ht !! read_bytes mem key len) ∨
  (ht_capacity ht ≤ 2 ^ 57 ∧
   (nkit_arena_create os (ht_node_id ht) (64 * ht_capacity ht)).1 ≠ None).

Lemma put_spec os ht key len v :
  ArenaOS_ok os → ht_ok mem ht → put_has_room os ht key len →
  key ≠ NULL → 0 < len →
  ∃ ht', nkit_hash_put mem os (Some ht) key len v = Some (0, Some ht') ∧
    ht_ok mem ht' ∧ ht_map mem ht' = <[read_bytes mem key len := v]> (ht_map mem ht) ∧
    ht_count ht ≤ ht_count ht' ≤ ht_count ht + 1 ∧
    ht_node_id ht' = ht_node_id ht.
Proof.
  intros Hos Hok Hroom Hkey Hlen. pose proof (ok_geo _ _ Hok) as Hg.
  pose proof (geo_bounds ht Hg). pose proof (ok_room _ _ Hok).
  assert (0 ≤ ht_count ht) by (rewrite (ok_count _ _ Hok); lia).
  unfold nkit_hash_put, NKIT_HASH_MAX_LOAD_NUM, NKIT_HASH_MAX_LOAD_DEN.
  rewrite !(proj2 (Z.eqb_neq _ _)) by lia. cbn [orb].
  rewrite !u64_small by (unfold is_u64; lia).
  assert (∃ ht1 calls, (if ht_capacity ht * 3 <=? ht_count ht * 4
                  then nkit_hash_resize mem os ht else Some (ht, [])) = Some (ht1, calls) ∧
            ht_ok mem ht1 ∧ live_list (ht_buckets ht1) ≡ₚ live_list (ht_buckets ht) ∧
            ht_count ht1 = ht_count ht ∧ ht_node_id ht1 = ht_node_id ht ∧
            (ht_count ht1 + 1 < ht_capacity ht1 ∨ is_Some (ht_map mem ht1 !! read_bytes mem key len)))
    as (ht1 & calls & -> & Hok1 & Hp & Hc & Hn & Hroom1).
  { destruct (Z.leb_spec (ht_capacity ht * 3) (ht_count ht * 4)).
    - destruct (resize_spec mem os ht Hos Hok)
        as (ht1 & calls & E & Hok1 & Hp & Hc & Hn & Hcap & Hgrow).
      exists ht1, calls. split_and!; auto. destruct Hroom as [Hr|[Hr|[Hr Ha]]].
      + left. destruct Hcap as [->| ->]; lia.
      + right. by rewrite (ht_map_perm mem ht ht1 (ok_keys _ _ Hok) Hp).
      + left. rewrite (Hgrow Ha Hr). lia.
    - exists ht, []. split_and!; auto. left. lia. }
  destruct (put_internal_spec ht1 key len v Hok1 Hlen Hroom1)
    as (ht' & -> & Hok' & Hm & Hcap' & Hc' & Hn').
  exists ht'. split_and!; try lia; try congruence; auto.
  rewrite Hm. f_equal. apply ht_map_perm; [apply Hok|done].
Qed.
End put_operation.

Section lookup_operations.
Context (mem : Z → Z).

Lemma get_spec ht key len :
  ht_ok mem ht → key ≠ NULL → 0 < len →
  nkit_hash_get mem (Some ht) key len
  = Some (default NULL (ht_map mem ht !! read_bytes mem key len)).
Proof.
  intros Hok Hkey Hlen. unfold nkit_hash_get.
  rewrite !(proj2 (Z.eqb_neq _ _)) by lia. cbn [orb].
  destruct (find_key_spec mem ht key len Hok Hlen) as ([s|] & -> & Hr).
  - destruct Hr as (_ & b & Hb & Lb & Ek). rewrite Hb.
    rewrite (proj2 (ht_map_lookup mem ht _ (b_value b) (ok_keys _ _ Hok))); [done|].
    exists b. split_and!; [|done|done].
    apply elem_of_live. split; [done|by eapply list_elem_of_lookup_2].
  - by rewrite Hr.
Qed.

(** The state in which the shift loop of a removal starts. *)
Lemma shifting_start ht s b :
  ht_ok mem ht → 0 ≤ s < ht_capacity ht → ht_buckets ht !! Z.to_nat s = Some b → live b →
  ∃ n, shifting (ht_capacity ht) (ht_buckets ht) s n.
Proof.
  intros Hok Hs Hb Lb. pose proof (ok_geo _ _ Hok) as Hg. pose proof (geo_bounds ht Hg) as HN.
  pose proof (ok_rh _ _ Hok) as Hrh.
  destruct (ok_hole mem ht (s + 1) Hok) as (n & Hn & Hhole). exists n.
  assert (Hd : 0 ≤ ddist (ht_capacity ht) (ht_buckets ht) s).
  { rewrite (ddist_lookup _ _ _ b) by (by rewrite Z.mod_small by lia).
    rewrite slot_dist_live by done. apply Z.mod_pos_bound. lia. }
  split; [apply Hg|by apply robin_hood_weaken| |lia|].
  - pose proof (Hrh (s - 1)) as H1. pose proof (Hrh s) as H2.
    replace (s - 1 + 1) with s in H1 by lia. lia.
  - destruct (Z.eq_dec n (ht_capacity ht - 1)) as [->|]; [|lia].
    rewrite (ddist_mod _ _ _ s) in Hhole; [lia|].
    replace (s + 1 + (ht_capacity ht - 1)) with (s + 1 * ht_capacity ht) by lia.
    apply Z_mod_plus_full.
Qed.

Lemma remove_spec ht key len :
  ht_ok mem ht → key ≠ NULL → 0 < len →
  ∃ r ht', nkit_hash_remove mem (Some ht) key len = Some (r, Some ht') ∧
    ht_ok mem ht' ∧ (r, ht_map mem ht') = map_step mem (ht_map mem ht) (HRemove key len) ∧
    ht_count ht' ≤ ht_count ht ∧ ht_node_id ht' = ht_node_id ht ∧
    ht_capacity ht' = ht_capacity ht.
Proof.
  intros Hok Hkey Hlen. unfold nkit_hash_remove, map_step.
  rewrite !(proj2 (Z.eqb_neq _ _)) by lia. cbn [orb].
  pose proof (ok_geo _ _ Hok) as Hg. pose proof (geo_bounds ht Hg).
  pose proof (geo_len ht Hg). pose proof (ok_room _ _ Hok).
  destruct (find_key_spec mem ht key len Hok Hlen) as ([s|] & -> & Hr).
  2:{ exists (-1), ht. rewrite Hr. by split_and!. }
  destruct Hr as (Hs & b & Hb & Lb & Ek).
  destruct (shifting_start ht s b Hok Hs Hb Lb) as [n Hsh].
  destruct (shift_loop_spec ht Hg (S (length (ht_buckets ht))) _ _ _ Hsh)
    as (bs' & e' & E & Hrh' & Hlen' & Hlive); [destruct Hsh; lia|].
  rewrite Z.mod_small in E, Hlive by lia. rewrite E.
  set (final := <[Z.to_nat e' := empty_bucket]> bs') in *.
  assert (Hp : live_list (ht_buckets ht) ≡ₚ b :: live_list final).
  { rewrite Hlive. symmetry. apply live_insert_clear; auto. }
  pose proof (ok_keys _ _ Hok) as Hnd. pose proof (ok_buckets _ _ Hok) as Hall.
  assert (Hnd' := Hnd). rewrite Hp in Hnd', Hall.
  apply Forall_cons in Hall as [_ Hall]. rewrite fmap_cons, NoDup_cons in Hnd'.
  destruct Hnd' as [Hnin Hnd'].
  pose proof (ok_count _ _ Hok) as Hcount. rewrite Hp in Hcount. simpl in Hcount.
  do 2 eexists. split; [done|]. rewrite u64_small by (unfold is_u64; lia).
  split_and!; simpl; try done; try lia.
  - split; simpl; auto; try lia.
    apply (same_shape_geometry ht); [|done]. by split.
  - rewrite (ht_map_cons mem ht b (live_list final)) by (by rewrite <-?Hp).
    rewrite Ek, lookup_insert_eq, delete_insert_id; [done|].
    rewrite <-Ek, <-not_elem_of_list_to_map, entry_keys. done.
Qed.
End lookup_operations.

(** ** Sequences of operations *)

Lemma hash_step_spec mem os ht o :
  ArenaOS_ok os → ht_ok mem ht → ht_count ht < 2 ^ 50 → op_args_ok o → ¬ last_slot mem os ht o →
  ∃ r ht', hash_step mem os ht o = Some (r, ht') ∧ ht_ok mem ht' ∧
    map_step mem (ht_map mem ht) o = (r, ht_map mem ht') ∧
    ht_count ht' ≤ ht_count ht + 1.
Proof.
  intros Hos Hok Hcnt Hargs Hlast.
  pose proof (geo_bounds ht (ok_geo _ _ Hok)) as HN. pose proof (ok_room _ _ Hok) as Hroom.
  destruct o as [key len v|key len|key len|]; cbn [hash_step map_step op_args_ok last_slot] in *.
  4:{ do 2 eexists. split_and!; [done|done| |lia]. cbn [nkit_hash_count]. by rewrite <-(ht_map_size mem ht Hok). }
  all: destruct (Z.eqb_spec key NULL) as [->|Hkey]; cbn [orb].
  all: try (do 2 eexists; split_and!; [reflexivity|done|done|lia]).
  all: destruct (Z.eqb_spec len 0) as [->|Hlen].
  all: try (unfold nkit_hash_put, nkit_hash_get, nkit_hash_remove;
            rewrite (proj2 (Z.eqb_neq key NULL) Hkey); cbn [orb Z.eqb];
            do 2 eexists; split_and!; [reflexivity|done|done|lia]).
  all: unfold is_u64 in Hargs.
  - destruct (put_spec mem os ht key len v Hos Hok) as (ht' & -> & Hok' & Hm & Hc & _);
      [|done|lia|].
    { destruct (Z.lt_ge_cases (ht_count ht + 1) (ht_capacity ht)); [by left|right].
      destruct (ht_map mem ht !! read_bytes mem key len) eqn:Em; [by left; eauto|right].
      split; [lia|]. intros Ea. apply Hlast. split_and!; auto; lia. }
    exists 0, ht'. split_and!; [done|done|by rewrite Hm|lia].
  - rewrite get_spec by (done || lia).
    do 2 eexists. split_and!; [done|done|done|lia].
  - destruct (remove_spec mem ht key len Hok Hkey) as (r & ht' & -> & Hok' & Hm & Hc & _);
      [lia|].
    exists r, ht'. split_and!; [done|done| |lia].
    rewrite Hm. cbn [map_step].
    by rewrite (proj2 (Z.eqb_neq key NULL) Hkey), (proj2 (Z.eqb_neq len 0) Hlen).
Qed.

(** ** A full table *)

(** Every slot of the table is taken. *)
Record ht_full (mem : Z → Z) (ht : nkit_hash_t) : Prop := {
  full_geo : geometry ht;
  full_live : Forall live (ht_buckets ht);
  full_keys : NoDup (key_of mem <$> ht_buckets ht);
  full_lens : Forall (λ b, 0 ≤ b_key_len b) (ht_buckets ht);
}.

Lemma put_loop_full mem fuel : ∀ ht cur slot dist,
  ht_full mem ht → 0 ≤ b_key_len cur → live cur →
  key_of mem cur ∉ (key_of mem <$> ht_buckets ht) →
  put_loop mem fuel ht false cur slot dist = None.
Proof.
  induction fuel as [|fuel IH]; intros ht cur slot dist Hf Hlen Lc Hnin; [done|].
  cbn [put_loop]. destruct (ht_buckets ht !! _) as [b|] eqn:Hb; [|done].
  destruct Hf as [Hg Hlive Hkeys Hlens].
  assert (Lb : live b) by (by eapply Forall_lookup_1).
  assert (Hbl : 0 ≤ b_key_len b) by (by eapply (Forall_lookup_1 _ _ _ _ Hlens)).
  rewrite (proj2 (Z.eqb_neq _ _) Lb).
  replace (keys_equal _ _ _ _ _) with false.
  2:{ symmetry. apply not_true_is_false. rewrite keys_equal_spec by done. intros E.
      apply Hnin. apply list_elem_of_fmap. exists b. split; [done|].
      by eapply list_elem_of_lookup_2. }
  rewrite andb_false_r. destruct (_ <? _); [|by apply IH].
  assert (Hp : b :: <[Z.to_nat slot := cur]> (ht_buckets ht) ≡ₚ cur :: ht_buckets ht)
    by (by apply insert_permutation).
  assert (Hnd : NoDup (key_of mem <$> b :: <[Z.to_nat slot := cur]> (ht_buckets ht))).
  { rewrite Hp, fmap_cons. by apply NoDup_cons. }
  rewrite fmap_cons in Hnd. apply NoDup_cons in Hnd as [Hb1 Hb2].
  apply IH; auto. split; simpl; auto.
  - apply (same_shape_geometry ht); [apply same_shape_set_bucket|done].
  - by apply Forall_insert.
  - by apply Forall_insert.
Qed.

(** ** Sequences of operations *)

#[export] Instance last_slot_dec mem os ht o : Decision (last_slot mem os ht o).
Proof. destruct o; cbn [last_slot]; apply _. Defined.

(** The calls up to the first that is not served. *)
Lemma hash_exec_refines mem ht calls :
  ht_ok mem ht → ht_count ht + Z.of_nat (length calls) ≤ 2 ^ 50 →
  Forall (λ c, ArenaOS_ok c.1 ∧ op_args_ok c.2) calls →
  ∃ served rest ht', calls = served ++ rest ∧
    hash_exec mem ht served = Some ((map_exec mem (ht_map mem ht) served.*2).1, ht') ∧
    ht_ok mem ht' ∧ ht_map mem ht' = (map_exec mem (ht_map mem ht) served.*2).2 ∧
    match rest with [] => True | (os, o) :: _ => last_slot mem os ht' o end.
Proof.
  revert ht. induction calls as [|[os o] calls IH]; intros ht Hok Hcnt Hargs.
  { exists [], [], ht. by split_and!. }
  apply Forall_cons in Hargs as [[Hos Ho] Hargs]. cbn [fst snd length] in *.
  destruct (decide (last_slot mem os ht o)) as [Hl|Hl].
  { exists [], ((os, o) :: calls), ht. by split_and!. }
  destruct (hash_step_spec mem os ht o) as (r & ht1 & E1 & Hok1 & Em & Hc); auto; [lia|].
  destruct (IH ht1) as (served & rest & ht2 & -> & E2 & Hok2 & Hm & Hrest); auto; [lia|].
  exists ((os, o) :: served), rest, ht2. cbn [hash_exec map_exec fmap list_fmap snd app]. rewrite E1, Em, E2, Hm.
  destruct (map_exec mem (ht_map mem ht1) served.*2) as [rs m] eqn:Ex. by split_and!.
Qed.

(** ** Properties *)

(** C3. Every sequence of [nkit_hash_put], [nkit_hash_get], [nkit_hash_remove] and
    [nkit_hash_count] calls on a well-formed table (of fewer than 2^50 entries),
    whatever memory the system gives or refuses at each, returns, call by call, what
    a finite map from key bytes to values returns, and leaves a well-formed table
    that represents the resulting map; rejected arguments (NULL key, length 0)
    included, and through any number of doublings.  This goes on to the end of the
    sequence, or to a put of a new key that finds all slots but one taken and is
    refused the memory for a larger table. *)
Theorem hash_refines_map mem ht calls :
  ht_ok mem ht → ht_count ht + Z.of_nat (length calls) ≤ 2 ^ 50 →
  Forall (λ c, ArenaOS_ok c.1 ∧ op_args_ok c.2) calls →
  ∃ served rest ht', calls = served ++ rest ∧
    hash_exec mem ht served = Some ((map_exec mem (ht_map mem ht) served.*2).1, ht') ∧
    ht_ok mem ht' ∧ ht_map mem ht' = (map_exec mem (ht_map mem ht) served.*2).2 ∧
    nkit_hash_count (Some ht') = Z.of_nat (size (ht_map mem ht')) ∧
    match rest with [] => True | (os, o) :: _ => last_slot mem os ht' o end.
Proof.
  intros Hok Hcnt Hargs. destruct (hash_exec_refines mem ht calls Hok Hcnt Hargs) as (served & rest & ht' & H1 & H2 & H3 & H4 & H5).
  exists served, rest, ht'. split_and!; auto. by apply ht_map_size.
Qed.

(** [nkit_hash_create] either fails or returns a well-formed, empty table
    whose capacity is a power of two, at least 16 and at least the request and
    less than twice it; it succeeds whenever the system provides the memory and
    the request is at most 2^51 buckets.  Requests whose byte count overflows
    [size_t] are refused. *)
Theorem hash_create_sound mem os avail ok node cap :
  ArenaOS_ok os → is_u64 cap →
  match nkit_hash_create os avail ok node cap with
  | (Some ht, _) => ht_ok mem ht ∧ ht_map mem ht = ∅ ∧ ht_count ht = 0 ∧
      cap ≤ ht_capacity ht < Z.max 17 (2 * cap) ∧ ht_capacity ht ≤ 2 ^ 58
  | (None, _) => avail < 0 ∨ ok = false ∨
      (∃ sz, 0 < sz ≤ 2 ^ 57 ∧ (nkit_arena_create os node sz).1 = None) ∨ 2 ^ 51 < cap
  end.
Proof.
  intros Hos Hcap. unfold nkit_hash_create, NKIT_HASH_MIN_CAPACITY.
  destruct (Z.ltb_spec avail 0); [by left|]. destruct ok; [|by right; left]. cbn [negb].
  set (c := if cap <? 16 then 16 else cap).
  assert (Hc : Z.max 16 cap = c ∧ 16 ≤ c < 2 ^ 64)
    by (subst c; destruct (Z.ltb_spec cap 16); unfold is_u64 in Hcap; lia).
  destruct (Z.le_gt_cases c (2 ^ 63)) as [Hle|Hgt].
  2:{ rewrite next_power_of_2_overflow by lia. simpl. lia. }
  rewrite next_power_of_2_log2 by lia. pose proof (pow2_ceil_bounds c ltac:(lia)) as Hb.
  set (k := Z.log2 (c - 1) + 1) in *.
  assert (Hk : 4 ≤ k ≤ 63).
  { assert (Z.log2 15 ≤ Z.log2 (c - 1)) by (apply Z.log2_le_mono; lia).
    assert (Z.log2 (c - 1) < 63) by (apply Z.log2_lt_pow2; lia). simpl in *. lia. }
  rewrite bucket_bytes by lia. destruct (Z.leb_spec k 58) as [Hk58|Hk58].
  2:{ simpl. right; right; right. assert (2 ^ 59 ≤ 2 ^ k) by (apply Z.pow_le_mono_r; lia). lia. }
  assert (Hk5 : 0 < 2 ^ (k + 5) ≤ 2 ^ 63) by (split; [lia|apply Z.pow_le_mono_r; lia]).
  destruct (nkit_arena_create os node _) as [[a|] calls] eqn:Ha.
  2:{ right; right. destruct (Z.le_gt_cases cap (2 ^ 51)); [left|by right].
      exists (2 ^ (k + 5)). split; [|by rewrite Ha].
      split; [lia|]. apply Z.pow_le_mono_r; [lia|].
      assert (2 ^ k < 2 ^ 52) as Hlt by lia.
      apply Z.pow_lt_mono_r_iff in Hlt; lia. }
  destruct (arena_serves_request os node (2 ^ (k + 5)) a calls Hos ltac:(lia) Ha) as (a' & -> & _).
  assert (2 ^ k ≤ 2 ^ 58) by (apply Z.pow_le_mono_r; lia).
  rewrite u64_small by (unfold is_u64; lia). split_and!; simpl; try lia.
  - split; simpl; rewrite ?cleared_buckets_live; try done; try lia.
    + split; simpl; [exists k; split; [lia|done]|done|by apply cleared_buckets_length; lia].
    + apply cleared_buckets_rh.
    + constructor.
  - unfold ht_map. simpl. by rewrite cleared_buckets_live.
  - destruct (Z.eq_dec k 4) as [->|]; [lia|].
    assert (2 ^ 5 ≤ 2 ^ k) by (apply Z.pow_le_mono_r; lia). lia.
Qed.

(** [_nkit_hash_resize] never loses or invents an entry and never hangs: it
    returns a well-formed table with the same map, the same count and either
    the old buckets (no arena to be had) or twice the capacity. *)
Theorem hash_resize_preserves mem os ht :
  ArenaOS_ok os → ht_ok mem ht →
  ∃ ht' calls, nkit_hash_resize mem os ht = Some (ht', calls) ∧ ht_ok mem ht' ∧
    ht_map mem ht' = ht_map mem ht ∧ ht_count ht' = ht_count ht ∧
    (ht' = ht ∨ ht_capacity ht' = 2 * ht_capacity ht) ∧
    ((nkit_arena_create os (ht_node_id ht) (64 * ht_capacity ht)).1 ≠ None →
     ht_capacity ht ≤ 2 ^ 57 → ht_capacity ht' = 2 * ht_capacity ht).
Proof.
  intros Hos Hok. pose proof (geo_bounds ht (ok_geo _ _ Hok)).
  destruct (resize_spec mem os ht Hos Hok) as (ht' & calls & E & Hok' & Hp & Hc & _ & Hcap & Hgrow).
  exists ht', calls. split_and!; auto. apply ht_map_perm; [apply Hok|done].
Qed.

(** When every slot is taken and no larger arena can be had, a put of a new
    key never returns: the resize leaves the table as it is and, although no
    probe leaves the bucket array, the insertion loop yields no result after
    any number of iterations (the caller holds the table's lock meanwhile; the
    header documents a -1 for a full table). *)
Theorem hash_put_full_hangs mem os ht key len v :
  ht_full mem ht → 0 < len →
  (nkit_arena_create os (ht_node_id ht) (64 * ht_capacity ht)).1 = None →
  ht_capacity ht ≤ 2 ^ 57 → read_bytes mem key len ∉ (key_of mem <$> ht_buckets ht) →
  (∃ calls, nkit_hash_resize mem os ht = Some (ht, calls)) ∧
  (∀ s, is_Some (ht_buckets ht !! Z.to_nat (Z.land s (ht_mask ht)))) ∧
  ∀ fuel, nkit_hash_put_internal mem fuel ht (nkit_fnv1a mem key len) key len v false = None.
Proof.
  intros Hfull Hlen Harena Hcap Hnin. pose proof (full_geo _ _ Hfull) as Hg.
  pose proof (geo_bounds ht Hg). split_and!.
  - unfold nkit_hash_resize, sizeof_nkit_bucket_t.
    rewrite (u64_small (_ * 2)), (u64_small (32 * _)) by (unfold is_u64; lia).
    replace (32 * (ht_capacity ht * 2)) with (64 * ht_capacity ht) by lia.
    destruct (nkit_arena_create os _ _) as [[a|] c]; [done|by exists c].
  - intros s. rewrite (geo_land ht Hg). apply (slot_bucket ht Hg).
  - intros fuel. apply put_loop_full; auto; simpl; [lia|].
    pose proof (fnv1a_range mem key len). unfold live. simpl. lia.
Qed.

(** ** Witnesses *)

(** Memory whose byte at address [a] is [a mod 256], a key being one byte. *)
Definition demo_mem (a : Z) : Z := a mod 256.

(** A system whose memory is exhausted. *)
Definition full_os : arena_os := {|
  os_malloc := true;
  os_shift_out _ := 0;
  os_mmap _ _ := MAP_FAILED;
  os_mbind _ _ _ _ := 0;
  os_madvise _ _ := 0;
  os_pagesize := 4096;
|}.

Definition demo_table : nkit_hash_t :=
  mk_hash (cleared_buckets 16) 16 15 0 (Some demo_arena) 0.

Lemma demo_table_ok : ht_ok demo_mem demo_table ∧ ht_map demo_mem demo_table = ∅.
Proof.
  split; [split|by vm_compute].
  - split; [by exists 4|done|done].
  - apply cleared_buckets_rh.
  - done.
  - done.
  - constructor.
  - constructor.
Qed.

Definition demo_ops : list hash_op :=
  [HPut 1 1 100; HPut 2 1 200; HPut 257 1 300; HGet 1 1; HRemove 2 1; HGet 2 1; HPut 0 4 7; HCount].

(** Fifteen puts of distinct keys, memory being refused; one more would take the
    last slot. *)
Definition puts (n : nat) : list hash_op := map (λ i, HPut (Z.of_nat i) 1 (Z.of_nat i)) (seq 1 n).

Definition with_os (os : arena_os) (ops : list hash_op) : list (arena_os * hash_op) := (λ o, (os, o)) <$> ops.

#[export] Instance full_os_ok : ArenaOS_ok full_os.
Proof. split; try done. by exists 12. Qed.

Lemma hash_refines_map_witness :
  (∃ served rest ht', with_os (demo_os false true) demo_ops = served ++ rest ∧
     hash_exec demo_mem demo_table served = Some ((map_exec demo_mem ∅ served.*2).1, ht') ∧
     (rest = [] → ht_map demo_mem ht' = {[ [1] := 300 ]})) ∧
  (map_exec demo_mem ∅ demo_ops).1 = [0; 0; 0; 300; 0; NULL; -1; 1] ∧
  ∃ served rest ht', with_os full_os (puts 16) = served ++ rest ∧
    hash_exec demo_mem demo_table served = Some ((map_exec demo_mem ∅ served.*2).1, ht') ∧ ht_ok demo_mem ht'.
Proof.
  assert (H : ∀ os ops, ArenaOS_ok os → Forall op_args_ok ops → (length ops ≤ 16)%nat →
    ∃ served rest ht', with_os os ops = served ++ rest ∧
      hash_exec demo_mem demo_table served = Some ((map_exec demo_mem ∅ served.*2).1, ht') ∧ ht_ok demo_mem ht' ∧
      ht_map demo_mem ht' = (map_exec demo_mem ∅ served.*2).2).
  { intros os ops Hos Hops Hlen. rewrite <-(proj2 demo_table_ok).
    destruct (hash_refines_map demo_mem demo_table (with_os os ops)) as (served & rest & ht' & ? & ? & ? & ? & _).
    - apply demo_table_ok.
    - unfold with_os. rewrite length_fmap. cbn [demo_table ht_count]. lia.
    - unfold with_os. apply Forall_fmap. by eapply Forall_impl.
    - eauto 10. }
  split; [|split; [by vm_compute|]].
  - destruct (H (demo_os false true) demo_ops) as (served & rest & ht' & E & Ex & _ & Hm).
    + apply _.
    + repeat (apply Forall_cons; split; [first [exact I|split; lia]|]). done.
    + cbn; lia.
    + exists served, rest, ht'. split_and!; auto. intros ->. rewrite app_nil_r in E. rewrite Hm, <-E. by vm_compute.
  - destruct (H full_os (puts 16)) as (served & rest & ht' & E & Ex & Hok & _).
    + apply _.
    + apply Forall_forall. intros o (i & <- & Hi%in_seq)%list_elem_of_In%in_map_iff. split; lia.
    + done.
    + eauto 10.
Defined.

Lemma hash_create_sound_witness :
  match nkit_hash_create (demo_os false true) 0 true 0 20 with
  | (Some ht, _) => ht_ok demo_mem ht ∧ ht_capacity ht < 40
  | (None, _) => False
  end.
Proof.
  pose proof (hash_create_sound demo_mem (demo_os false true) 0 true 0 20 (demo_os_ok _ _)
    ltac:(split; lia)) as H.
  destruct (nkit_hash_create _ _ _ _ _) as [[ht|] calls].
  - destruct H as (Hok & _ & _ & Hc & _). split; [done|lia].
  - destruct H as [?|[?|[(sz & Hsz & H)|?]]]; [lia|done| |lia]. exfalso. revert H. unfold nkit_arena_create.
    rewrite (proj2 (Z.eqb_neq sz 0)), HUGE_PAGE_SIZE_pow2 by lia.
    destruct (align_up_bounds sz 21) as [Hb _]; [lia|lia|lia|]. cbn [demo_os os_malloc os_mmap negb].
    by rewrite orb_true_r, (proj2 (Z.eqb_neq (align_up sz (2 ^ 21)) 0)), (proj2 (Z.ltb_ge _ _)) by lia.
Defined.

Lemma hash_resize_preserves_witness :
  ∃ ht' calls, nkit_hash_resize demo_mem (demo_os false true) demo_table = Some (ht', calls) ∧
    ht_map demo_mem ht' = ∅ ∧ ht_capacity ht' = 32.
Proof.
  destruct (hash_resize_preserves demo_mem (demo_os false true) demo_table (demo_os_ok _ _)
    (proj1 demo_table_ok)) as (ht' & calls & E & _ & Hm & _ & _ & Hg).
  exists ht', calls. split_and!; [done| |].
  - rewrite Hm. apply demo_table_ok.
  - apply Hg; [by vm_compute|]. simpl. lia.
Defined.

(** Sixteen puts of distinct keys, all accepted, on a system that gives no
    further memory. *)
Definition packed_table : nkit_hash_t :=
  match hash_exec demo_mem demo_table (with_os full_os (puts 16)) with
  | Some (_, ht) => ht
  | None => demo_table
  end.

Lemma packed_table_full : ht_full demo_mem packed_table.
Proof.
  split.
  - split; [by exists 4|by vm_compute|by vm_compute].
  - apply (bool_decide_unpack _). by vm_compute.
  - apply (bool_decide_unpack _). by vm_compute.
  - apply (bool_decide_unpack _). by vm_compute.
Qed.

Lemma hash_put_full_hangs_witness :
  (∃ rs, hash_exec demo_mem demo_table (with_os full_os (puts 16)) = Some (rs, packed_table)) ∧
  ∀ fuel, nkit_hash_put_internal demo_mem fuel packed_table (nkit_fnv1a demo_mem 17 1) 17 1 0
            false = None.
Proof.
  split; [eexists; by vm_compute|].
  refine (proj2 (proj2 (hash_put_full_hangs demo_mem full_os packed_table 17 1 0
    packed_table_full _ _ _ _))).
  - lia.
  - by vm_compute.
  - by vm_compute.
  - apply (bool_decide_unpack _). by vm_compute.
Defined.
