(* ===== verification/Locked.v ===== *)
(** * A structure behind an MCS lock

    The hash table and every shard of the skip list run each operation between
    [nkit_mcs_lock] and [nkit_mcs_unlock].  Here are the lock's steps as its user
    sees them, and what a call is to a thread: it begins, takes effect once and
    returns the result of that effect.  [LockedCode] puts the accesses of an
    operation between the two calls. *)

From stdpp Require Import prelude.
From Stdlib Require Import ZArith Lia.
From S2P Require Import Prelude FairLock McsLock.

(** ** The lock's steps, as its user sees them *)

Definition locking (pc : mcs_pc) : bool :=
  match pc with McInitNext | McInitLocked | McSwap | McLink _ | McSpin => true | _ => false end.
Definition unlocking (pc : mcs_pc) : bool :=
  match pc with McCheckNext | McCas | McWaitNext | McLoadNext | McNotify _ => true | _ => false end.

Definition granted (t : nat) (es : list lock_event) : bool := bool_decide (t ∈ grants es).
Definition released_by (t : nat) (es : list lock_event) : bool := bool_decide (t ∈ releases es).

Definition lock_thread (l : mcs_label) : nat := match l with McLock t | McAdvance t | McUnlock t => t end.
Definition pc_of (s : mcs_state) (t : nat) : option mcs_pc := th_pc <$> mcs_threads s !! t.

Lemma pc_of_set s t pc nd u :
  (t < length (mcs_threads s))%nat → pc_of (set_thread s t pc nd) u = if decide (u = t) then Some pc else pc_of s u.
Proof. intros Ht. unfold pc_of. cbn. rewrite lookup_insert_decide by done. by case_decide. Qed.

(** Writing to another thread's node leaves every thread where it is. *)
Lemma pc_of_node s p th nd u :
  mcs_threads s !! p = Some th → pc_of (set_thread s p (th_pc th) nd) u = pc_of s u.
Proof.
  intros Hp. rewrite pc_of_set by by eapply lookup_lt_Some. case_decide; [|done]. subst. unfold pc_of. by rewrite Hp.
Qed.

(** Where a step that emits [es] can take the thread that makes it. *)
Definition lock_moved (l : mcs_label) (es : list lock_event) (pc pc' : mcs_pc) : Prop :=
  match l with
  | McLock _ => pc = McIdle ∧ pc' = McInitNext
  | McUnlock _ => pc = McHeld ∧ pc' = McCheckNext
  | McAdvance t =>
      (locking pc = true ∧ if granted t es then pc' = McHeld else locking pc' = true) ∨
      (unlocking pc = true ∧ if released_by t es then pc' = McIdle else unlocking pc' = true)
  end.

(** The other threads stay. *)
Lemma mcs_step_pc s l s' es :
  mcs_step s l = Some (s', es) →
  ∃ pc pc', pc_of s (lock_thread l) = Some pc ∧
    (∀ u, pc_of s' u = if decide (u = lock_thread l) then Some pc' else pc_of s u) ∧
    lock_moved l es pc pc'.
Proof.
  intros Hs. destruct l as [t|t|t]; cbn [mcs_step lock_thread] in *;
    (destruct (mcs_threads s !! t) as [[pc nd]|] eqn:Ht; [|done]);
    pose proof (lookup_lt_Some _ _ _ Ht) as Hlt; assert (Hpc : pc_of s t = Some pc) by (unfold pc_of; by rewrite Ht).
  1,3: destruct pc; simplify_eq; eexists _, _; (split; [done|]); (split; [|done]); intros u; by apply pc_of_set.
  assert (Hstay : pc_of s t = Some pc → ∀ u, pc_of s u = if decide (u = t) then Some pc else pc_of s u).
  { intros H u. case_decide; by subst. }
  assert (Hg : granted t [Enter t] = false ∧ granted t [Enter t; Grant t] = true ∧ granted t [Grant t] = true ∧
               granted t [] = false ∧ released_by t [] = false ∧ released_by t [Release t] = true).
  { unfold granted, released_by. cbn. repeat rewrite bool_decide_eq_true || rewrite bool_decide_eq_false. set_solver. }
  destruct Hg as (G1 & G2 & G3 & G4 & R1 & R2).
  destruct (mcs_lock_step s t pc nd) as [[s1 es1]|] eqn:E1.
  - simplify_eq. destruct pc; cbn [mcs_lock_step] in E1; simplify_eq.
    + eexists _, _. split; [done|]. split; [intros u; by apply pc_of_set|]. left. by rewrite G4.
    + eexists _, _. split; [done|]. split; [intros u; by apply pc_of_set|]. left. by rewrite G4.
    + destruct (mcs_tail s) as [prev|]; simplify_eq; (eexists _, _; split; [done|]);
        (split; [intros u; by apply (pc_of_set (set_tail s (Some t)))|]); left; by rewrite ?G1, ?G2.
    + destruct (mcs_threads s !! prev) as [p|] eqn:Hp; simplify_eq. eexists _, _. split; [done|]. split.
      * intros u. rewrite pc_of_set by (cbn; by rewrite length_insert). case_decide; [done|]. by apply pc_of_node.
      * left. by rewrite G4.
    + destruct (nd_locked nd =? 0)%Z; simplify_eq.
      * eexists _, _. split; [done|]. split; [intros u; by apply pc_of_set|]. left. by rewrite G3.
      * eexists _, _. split; [done|]. split; [by apply Hstay|]. left. by rewrite G4.
  - destruct pc; cbn [mcs_unlock_step] in Hs; simplify_eq.
    + destruct (nd_next nd); simplify_eq; (eexists _, _; split; [done|]);
        (split; [intros u; by apply pc_of_set|]); right; by rewrite R1.
    + case_decide; simplify_eq; (eexists _, _; split; [done|]).
      * split; [intros u; by apply (pc_of_set (set_tail s None))|]. right. by rewrite R2.
      * split; [intros u; by apply pc_of_set|]. right. by rewrite R1.
    + destruct (nd_next nd); simplify_eq; (eexists _, _; split; [done|]).
      * split; [intros u; by apply pc_of_set|]. right. by rewrite R1.
      * split; [by apply Hstay|]. right. by rewrite R1.
    + destruct (nd_next nd); simplify_eq. eexists _, _. split; [done|].
      split; [intros u; by apply pc_of_set|]. right. by rewrite R1.
    + destruct (mcs_threads s !! succ) as [q|] eqn:Hq; simplify_eq. eexists _, _. split; [done|]. split.
      * intros u. rewrite pc_of_set by (cbn; by rewrite length_insert). case_decide; [done|]. by apply pc_of_node.
      * right. by rewrite R2.
Qed.

(** Two threads that hold the lock are one. *)
Lemma one_holder s f t t' :
  mcs_rep s f → pc_of s t = Some McHeld → pc_of s t' = Some McHeld → t = t'.
Proof.
  assert (H : ∀ u, mcs_rep s f → pc_of s u = Some McHeld → head (fifo_queue f) = Some u).
  { intros u Hrep Hu. unfold pc_of in Hu. apply fmap_Some in Hu as ([pc nd] & Hu & E).
    cbn in E. subst pc. by destruct (mr_at _ _ Hrep u _ Hu). }
  intros Hrep Ht Ht'. pose proof (H t Hrep Ht). pose proof (H t' Hrep Ht'). congruence.
Qed.

(** A thread inside a lock or an unlock call can move. *)
Lemma lock_enabled s f t m :
  mcs_rep s f → pc_of s t = Some m → (locking m = true ∨ unlocking m = true) →
  is_Some (mcs_step s (McAdvance t)).
Proof.
  intros Hrep Hm Hin. unfold pc_of in Hm. apply fmap_Some in Hm as ([m0 nd] & Hm & E). cbn in E. subst m0.
  by apply (mcs_enabled s f t m nd); auto; intros ->; destruct Hin.
Qed.

(** ** Threads that call *)

Inductive lk_event (O R : Type) :=
| Called (t : nat) (o : O)
| Applied (t : nat) (o : O) (r : R)
| Returned (t : nat) (r : R).
Arguments Called {O R}.
Arguments Applied {O R}.
Arguments Returned {O R}.

Section events.
Context {O R : Type} `{EqDecision O, EqDecision R}.
(** The calls that return before they lock. *)
Context (reject : O → option R).
Implicit Types (es : list (lk_event O R)).

Definition applied es : list O := omap (λ e, match e with Applied _ o _ => Some o | _ => None end) es.
Definition results es : list R := omap (λ e, match e with Applied _ _ r => Some r | _ => None end) es.

(** What a thread has seen of its call: a call takes effect once between its
    beginning and its end and returns the result of that effect; a rejected one
    takes none. *)
Inductive call_status := CsIdle | CsCalled (o : O) | CsApplied (r : R).

Definition status_step (t : nat) (c : call_status) (e : lk_event O R) : option call_status :=
  match e with
  | Called u o => if decide (u = t) then match c with CsIdle => Some (CsCalled o) | _ => None end else Some c
  | Applied u o r =>
      if decide (u = t) then
        match c with CsCalled o' => if decide (o' = o) then Some (CsApplied r) else None | _ => None end
      else Some c
  | Returned u r =>
      if decide (u = t) then
        match c with
        | CsApplied r' => if decide (r' = r) then Some CsIdle else None
        | CsCalled o => if decide (reject o = Some r) then Some CsIdle else None
        | CsIdle => None
        end
      else Some c
  end.

Definition call_history (t : nat) es : option call_status := run (status_step t) CsIdle es.

Lemma call_history_app t es es' c :
  call_history t es = Some c → call_history t (es ++ es') = run (status_step t) c es'.
Proof. unfold call_history. intros H. by rewrite run_app, H. Qed.

(** Events of another thread are not seen. *)
Lemma run_other t u c ev :
  u ≠ t → Forall (λ e, match e with Called v _ | Applied v _ _ | Returned v _ => v = u end) ev →
  run (status_step t) c ev = Some c.
Proof.
  intros Hne. induction 1 as [|e ev He _ IH]; [done|]. cbn [run].
  destruct e; cbn [status_step]; subst; rewrite decide_False by done; exact IH.
Qed.

Definition event_of (t : nat) (e : lk_event O R) : Prop :=
  match e with Called v _ | Applied v _ _ | Returned v _ => v = t end.

End events.
