(* ===== verification/LockedCode.v ===== *)
(** * An object behind an MCS lock, one access at a time

    An operation under a lock is the sequence of its accesses to the object: [code]
    is that sequence as a tree, each access an update of the object whose result
    chooses what comes next.  Threads interleave at every access of the lock and at
    every access of an operation; some operations take no lock and read the object
    at whatever point of another thread's operation they meet it.  The lock makes
    the operations take effect one after another, in an order that respects the
    calls, and the operations without a lock fit in that order if what they read
    changes only with the last access of an operation. *)

From stdpp Require Import prelude.
From Stdlib Require Import ZArith Lia.
From S2P Require Import Prelude FairLock McsLock Locked.

(** ** Code *)

(** [K] is what the outside answers to the access, [S] the object, [R] the
    result; an access with no outcome is undefined. *)
Inductive code (K S R : Type) : Type :=
| Done (r : R)
| Access {X : Type} (a : K → S → option (X * S)) (k : X → code K S R).
Arguments Done {K S R}.
Arguments Access {K S R X}.

Declare Scope code_scope.
Delimit Scope code_scope with code.

Section code.
Context {K S : Type}.

Fixpoint cbind {R R'} (c : code K S R) (f : R → code K S R') : code K S R' :=
  match c with
  | Done r => f r
  | Access a k => Access a (λ x, cbind (k x) f)
  end.

(** An access that reads, one that writes, one that goes wrong. *)
Definition load {X} (f : S → X) : code K S X := Access (λ _ s, Some (f s, s)) Done.
Definition store (f : S → S) : code K S () := Access (λ _ s, Some (tt, f s)) Done.
Definition stuck {R} : code K S R := Access (X := Empty_set) (λ _ _, None) (λ e, match e with end).

Definition is_done {R} (c : code K S R) : bool := match c with Done _ => true | Access _ _ => false end.

(** The weakest precondition of a piece of code for the postcondition [Q],
    whatever the outside answers within [KP]; [I] holds after every access but the
    last. *)
Context (KP : K → Prop) (I : S → Prop).

Fixpoint cwp {R} (c : code K S R) (s : S) (Q : R → S → Prop) : Prop :=
  match c with
  | Done r => Q r s
  | Access a k => ∀ κ, KP κ →
      match a κ s with
      | Some (x, s') => (is_done (k x) = false → I s') ∧ cwp (k x) s' Q
      | None => False
      end
  end.

Lemma cwp_bind {R R'} (c : code K S R) (f : R → code K S R') s (Q : R' → S → Prop) :
  cwp c s (λ r s', I s' ∧ cwp (f r) s' Q) → cwp (cbind c f) s Q.
Proof.
  revert s. induction c as [r|X a k IH]; intros s Hc; cbn [cwp cbind] in *; [by destruct Hc|].
  intros κ Hκ. specialize (Hc κ Hκ). destruct (a κ s) as [[x s']|]; [|done].
  destruct Hc as [Hi Hc]. split; [|by apply IH]. intros _.
  destruct (k x) as [r|]; [by destruct Hc|by apply Hi].
Qed.

Lemma cwp_load {X R} (f : S → X) (g : X → code K S R) s (Q : R → S → Prop) :
  I s → cwp (g (f s)) s Q → cwp (cbind (load f) g) s Q.
Proof. intros Hi Hc κ _. by split. Qed.

Lemma cwp_store {R} (f : S → S) (c : code K S R) s (Q : R → S → Prop) :
  (is_done c = false → I (f s)) → cwp c (f s) Q → cwp (cbind (store f) (λ _, c)) s Q.
Proof. intros Hi Hc κ _. by split. Qed.
End code.

Lemma cwp_weaken {K S R} (KP : K → Prop) (I I' : S → Prop) (c : code K S R) s (Q Q' : R → S → Prop) :
  (∀ s', I s' → I' s') → (∀ r s', Q r s' → Q' r s') → cwp KP I c s Q → cwp KP I' c s Q'.
Proof.
  intros HI HQ. revert s. induction c as [r|X a k IH]; intros s Hc; cbn [cwp] in *; [auto|].
  intros κ Hκ. specialize (Hc κ Hκ). destruct (a κ s) as [[x s']|]; [|done].
  destruct Hc as [Hi Hc]. split; [auto|]. by apply IH.
Qed.

Notation "x ← c ; d" := (cbind c (λ x, d)) (at level 20, c at level 100, d at level 200, only parsing) : code_scope.
Notation "c ;; d" := (cbind c (λ _, d)) (at level 100, d at level 200, right associativity, only parsing) : code_scope.

(** ** Threads that call *)

(** A call: inside the lock call; in the critical section, with the accesses that
    are left; about to unlock with its result; inside the unlock call; about to read
    without the lock; about to return what it read. *)
Inductive lk_pc (K S O R : Type) :=
| LkIdle
| LkLocking (o : O)
| LkBody (o : O) (c : code K S R)
| LkDone (r : R)
| LkUnlocking (r : R)
| LkLook (o : O) (f : S → R)
| LkLooked (r : R).
Arguments LkIdle {K S O R}.
Arguments LkLocking {K S O R}.
Arguments LkBody {K S O R}.
Arguments LkDone {K S O R}.
Arguments LkUnlocking {K S O R}.
Arguments LkLook {K S O R}.
Arguments LkLooked {K S O R}.

Record lk_state (K S O R : Type) := mk_lk {
  lk_lock : mcs_state;
  lk_obj : S;
  lk_threads : list (lk_pc K S O R);
}.
Arguments mk_lk {K S O R}.
Arguments lk_lock {K S O R}.
Arguments lk_obj {K S O R}.
Arguments lk_threads {K S O R}.

(** A thread outside any call calls; a thread inside one makes its next access, to
    which the outside answers [κ]. *)
Inductive lk_label (K O : Type) :=
| LkCall (t : nat) (o : O)
| LkGo (t : nat) (κ : K).
Arguments LkCall {K O}.
Arguments LkGo {K O}.

Section locked.
Context {K S O R : Type} `{EqDecision O, EqDecision R}.
(** The calls that return at once, those that only read and take no lock, and the
    accesses of the others. *)
Context (reject : O → option R) (look : O → option (S → R)) (body : O → code K S R).
Implicit Types (s : lk_state K S O R) (es : list (lk_event O R)).

(** What an access leaves: the end of the critical section is the moment the call
    takes effect. *)
Definition body_pc (t : nat) (o : O) (c : code K S R) : lk_pc K S O R * list (lk_event O R) :=
  match c with Done r => (LkDone r, [Applied t o r]) | Access _ _ => (LkBody o c, []) end.

Definition lk_step s (l : lk_label K O) : option (lk_state K S O R * list (lk_event O R)) :=
  let go lock obj t pc ev := Some (mk_lk lock obj (<[t := pc]> (lk_threads s)), ev) in
  match l with
  | LkCall t o =>
      match lk_threads s !! t with
      | Some LkIdle =>
          match reject o, look o with
          | Some r, _ => Some (s, [Called t o; Returned t r])
          | None, Some f => go (lk_lock s) (lk_obj s) t (LkLook o f) [Called t o]
          | None, None =>
              match mcs_step (lk_lock s) (McLock t) with
              | Some (lock, _) => go lock (lk_obj s) t (LkLocking o) [Called t o]
              | None => None
              end
          end
      | _ => None
      end
  | LkGo t κ =>
      match lk_threads s !! t with
      | Some (LkLocking o) =>
          match mcs_step (lk_lock s) (McAdvance t) with
          | Some (lock, les) => go lock (lk_obj s) t (if granted t les then LkBody o (body o) else LkLocking o) []
          | None => None
          end
      | Some (LkBody o (Done r)) => go (lk_lock s) (lk_obj s) t (LkDone r) [Applied t o r]
      | Some (LkBody o (Access a k)) =>
          match a κ (lk_obj s) with
          | Some (x, obj) => let r := body_pc t o (k x) in go (lk_lock s) obj t r.1 r.2
          | None => None
          end
      | Some (LkDone r) =>
          match mcs_step (lk_lock s) (McUnlock t) with
          | Some (lock, _) => go lock (lk_obj s) t (LkUnlocking r) []
          | None => None
          end
      | Some (LkUnlocking r) =>
          match mcs_step (lk_lock s) (McAdvance t) with
          | Some (lock, les) =>
              if released_by t les then go lock (lk_obj s) t LkIdle [Returned t r]
              else go lock (lk_obj s) t (LkUnlocking r) []
          | None => None
          end
      | Some (LkLook o f) => let r := f (lk_obj s) in go (lk_lock s) (lk_obj s) t (LkLooked r) [Applied t o r]
      | Some (LkLooked r) => go (lk_lock s) (lk_obj s) t LkIdle [Returned t r]
      | _ => None
      end
  end.

Definition lk_start (nodes : list nkit_mcs_node_t) (obj : S) : lk_state K S O R :=
  mk_lk (mcs_start nodes) obj (replicate (length nodes) LkIdle).

(** ** What is promised *)

(** The abstract object, and what it is for a real one to stand for it after [n]
    operations. *)
Context {M : Type} (spec : M → O → R * M) (rel : nat → M → S → Prop).

Fixpoint spec_exec (m : M) (ops : list O) : list R * M :=
  match ops with
  | [] => ([], m)
  | o :: ops => let r := spec m o in let rs := spec_exec r.2 ops in (r.1 :: rs.1, rs.2)
  end.

Lemma spec_exec_snoc m ops o :
  spec_exec m (ops ++ [o]) =
    (((spec_exec m ops).1 ++ [(spec (spec_exec m ops).2 o).1]), (spec (spec_exec m ops).2 o).2).
Proof.
  revert m. induction ops as [|o' ops IH]; intros m; cbn [spec_exec app]; [done|]. by rewrite IH.
Qed.

(** An operation without a lock cannot tell the two objects apart. *)
Definition same_look (obj obj' : S) : Prop := ∀ o f, look o = Some f → f obj' = f obj.

(** [P]: the operations that are called; [KP]: the answers of the outside;
    [ready]: when an operation may start. *)
Context (P : O → Prop) (KP : K → Prop) (ready : S → Prop) (bound : nat).
Hypothesis look_ok : ∀ n m obj o f, rel n m obj → P o → look o = Some f → spec m o = (f obj, m).
Hypothesis body_ok : ∀ n m obj o, rel n m obj → ready obj → (n < bound)%nat → P o → reject o = None → look o = None →
  cwp KP (same_look obj) (body o) obj (λ r obj', r = (spec m o).1 ∧ rel (1 + n) (spec m o).2 obj').
Hypothesis rel_mono : ∀ n n' m obj, (n ≤ n')%nat → rel n m obj → rel n' m obj.

(** ** The invariant *)

Definition phase_ok (m : mcs_pc) (pc : lk_pc K S O R) : Prop :=
  match pc with
  | LkIdle | LkLook _ _ | LkLooked _ => m = McIdle
  | LkLocking _ => locking m = true
  | LkBody _ _ | LkDone _ => m = McHeld
  | LkUnlocking _ => unlocking m = true
  end.

Definition status_of (pc : lk_pc K S O R) : call_status :=
  match pc with
  | LkIdle => CsIdle
  | LkLocking o | LkBody o _ | LkLook o _ => CsCalled o
  | LkDone r | LkUnlocking r | LkLooked r => CsApplied r
  end.

(** What the call of a thread is, before it takes effect. *)
Definition pending_ok (pc : lk_pc K S O R) : Prop :=
  match pc with
  | LkLocking o | LkBody o _ => P o ∧ reject o = None ∧ look o = None
  | LkLook o f => P o ∧ look o = Some f
  | _ => True
  end.

Definition in_body (pc : lk_pc K S O R) : bool := match pc with LkBody _ _ => true | _ => false end.

(** The object stands for [m], or an operation is on its way from an object that
    did, and looks the same. *)
Record obj_ok (n : nat) (m : M) (obj : S) (ths : list (lk_pc K S O R)) : Prop := {
  oj_rest : (∀ t pc, ths !! t = Some pc → in_body pc = false) → rel n m obj;
  oj_body t o c : ths !! t = Some (LkBody o c) → ∃ n0 obj0, (n0 ≤ n)%nat ∧ rel n0 m obj0 ∧ same_look obj0 obj ∧
    cwp KP (same_look obj0) c obj (λ r obj', r = (spec m o).1 ∧ rel (1 + n0) (spec m o).2 obj');
}.

Record lk_inv (m0 : M) (n : nat) es s : Prop := {
  lv_lock : ∃ f, mcs_rep (lk_lock s) f;
  lv_phase t pc : lk_threads s !! t = Some pc → ∃ m, pc_of (lk_lock s) t = Some m ∧ phase_ok m pc;
  lv_results : results es = (spec_exec m0 (applied es)).1;
  lv_obj : obj_ok n (spec_exec m0 (applied es)).2 (lk_obj s) (lk_threads s);
  lv_status t pc : lk_threads s !! t = Some pc → call_history reject t es = Some (status_of pc);
  lv_none t : lk_threads s !! t = None → call_history reject t es = Some CsIdle;
  lv_pending t pc : lk_threads s !! t = Some pc → pending_ok pc;
}.

(** A thread that holds the lock is alone in the critical section. *)
Lemma holder_alone m0 n es s t pc u pc' :
  lk_inv m0 n es s → lk_threads s !! t = Some pc → phase_ok McHeld pc →
  lk_threads s !! u = Some pc' → u ≠ t → in_body pc' = false.
Proof.
  intros I Ht Hh Hu Hne. destruct pc' as [| |o c| | | |]; try done. destruct Hne.
  destruct (lv_lock _ _ _ _ I) as [f Hrep]. destruct (lv_phase _ _ _ _ I u _ Hu) as (m & Hm & ->).
  destruct (lv_phase _ _ _ _ I t pc Ht) as (m' & Hm' & Hok). apply (one_holder _ f u t Hrep Hm).
  rewrite Hm'. f_equal. destruct pc; cbn in *; congruence || by destruct m'.
Qed.

(** The same object with thread [t] outside the critical section before and after. *)
Lemma obj_ok_same n m obj ths t pc pc' :
  obj_ok n m obj ths → ths !! t = Some pc → in_body pc = false → in_body pc' = false → obj_ok (1 + n) m obj (<[t := pc']> ths).
Proof using rel_mono.
  intros [H1 H2] Ht Hp Hp'. pose proof (lookup_lt_Some _ _ _ Ht) as Hlt. split.
  - intros Hall. apply (rel_mono n); [lia|]. apply H1. intros u pcu Hu. destruct (decide (u = t)) as [->|Hne]; [congruence|].
    apply (Hall u). by rewrite list_lookup_insert_ne.
  - intros u o c Hu. rewrite lookup_insert_decide in Hu by done. case_decide; [by simplify_eq|].
    destruct (H2 u o c Hu) as (n0 & obj0 & ? & ?). exists n0, obj0. split; [lia|done].
Qed.

(** Thread [t] alone in the critical section. *)
Lemma obj_ok_alone n m obj ths t o c :
  (t < length ths)%nat → (∀ u pc, ths !! u = Some pc → u ≠ t → in_body pc = false) →
  (∃ n0 obj0, (n0 ≤ n)%nat ∧ rel n0 m obj0 ∧ same_look obj0 obj ∧
    cwp KP (same_look obj0) c obj (λ r obj', r = (spec m o).1 ∧ rel (1 + n0) (spec m o).2 obj')) →
  obj_ok n m obj (<[t := LkBody o c]> ths).
Proof.
  intros Hlt Hall H. split.
  - intros Hn. exfalso. specialize (Hn t (LkBody o c) (list_lookup_insert_eq _ _ _ Hlt)). done.
  - intros u o' c' Hu. rewrite lookup_insert_decide in Hu by done. case_decide; [by simplify_eq|].
    by specialize (Hall u _ Hu ltac:(done)).
Qed.

(** Thread [t] leaves the critical section. *)
Lemma obj_ok_leaves n m obj ths t pc :
  (t < length ths)%nat → (∀ u pc, ths !! u = Some pc → u ≠ t → in_body pc = false) → in_body pc = false →
  rel n m obj → obj_ok n m obj (<[t := pc]> ths).
Proof.
  intros Hlt Hall Hpc Hrel. split; [done|]. intros u o' c' Hu. rewrite lookup_insert_decide in Hu by done.
  case_decide; [by simplify_eq|]. by specialize (Hall u _ Hu ltac:(done)).
Qed.

(** Thread [t] moves from [pc] to [pc']. *)
Lemma lk_moves m0 n es s t pc pc' lock' obj' ev :
  lk_inv m0 n es s → lk_threads s !! t = Some pc → (∃ f, mcs_rep lock' f) →
  (∀ u, u ≠ t → pc_of lock' u = pc_of (lk_lock s) u) → (∃ m, pc_of lock' t = Some m ∧ phase_ok m pc') →
  Forall (event_of t) ev → run (status_step reject t) (status_of pc) ev = Some (status_of pc') →
  results (es ++ ev) = (spec_exec m0 (applied (es ++ ev))).1 →
  obj_ok (1 + n) (spec_exec m0 (applied (es ++ ev))).2 obj' (<[t := pc']> (lk_threads s)) →
  pending_ok pc' → lk_inv m0 (1 + n) (es ++ ev) (mk_lk lock' obj' (<[t := pc']> (lk_threads s))).
Proof.
  intros I Ht Hrep Hothers Hphase Hev Hst Hres Hobj Hpend.
  pose proof (lookup_lt_Some _ _ _ Ht) as Hlt. destruct I as [_ I2 _ _ I5 I6 I7].
  split; cbn [lk_lock lk_obj lk_threads]; auto.
  - intros u pcu Hu. rewrite lookup_insert_decide in Hu by done. case_decide; simplify_eq; [done|].
    rewrite Hothers by done. by apply I2.
  - intros u pcu Hu. rewrite lookup_insert_decide in Hu by done. case_decide; simplify_eq.
    + by rewrite (call_history_app _ _ _ _ _ (I5 _ _ Ht)).
    + rewrite (call_history_app _ _ _ _ _ (I5 _ _ Hu)). by apply (run_other _ u t).
  - intros u Hu. rewrite lookup_insert_decide in Hu by done. case_decide; [done|].
    rewrite (call_history_app _ _ _ _ _ (I6 _ Hu)). by apply (run_other _ u t).
  - intros u pcu Hu. rewrite lookup_insert_decide in Hu by done. case_decide; simplify_eq; eauto.
Qed.

Lemma no_effect es ev :
  applied ev = [] → results ev = [] → applied (es ++ ev) = applied es ∧ results (es ++ ev) = results es.
Proof. intros Ha Hr. unfold applied, results in *. by rewrite !omap_app, Ha, Hr, !app_nil_r. Qed.

Lemma applied_one es t o r :
  applied (es ++ [Applied t o r]) = applied es ++ [o] ∧ results (es ++ [Applied t o r]) = results es ++ [r].
Proof. unfold applied, results. by rewrite !omap_app. Qed.

(** A step of the lock made inside a call: the object stays. *)
Lemma lk_lock_moves m0 n es s t pc pc' l lock' les ev :
  lk_inv m0 n es s → lk_threads s !! t = Some pc →
  mcs_step (lk_lock s) l = Some (lock', les) → lock_thread l = t →
  (∀ m m', pc_of (lk_lock s) t = Some m → phase_ok m pc → lock_moved l les m m' → phase_ok m' pc') →
  obj_ok (1 + n) (spec_exec m0 (applied es)).2 (lk_obj s) (<[t := pc']> (lk_threads s)) →
  Forall (event_of t) ev → run (status_step reject t) (status_of pc) ev = Some (status_of pc') →
  applied ev = [] → results ev = [] → pending_ok pc' →
  lk_inv m0 (1 + n) (es ++ ev) (mk_lk lock' (lk_obj s) (<[t := pc']> (lk_threads s))).
Proof.
  intros I Ht Hs Hl Hph Hobj Hev Hst Ha Hr HP. pose proof (lv_lock _ _ _ _ I) as [f Hrep].
  destruct (mcs_step_pc _ _ _ _ Hs) as (m & m' & Hm & Hpc & Hlbl). rewrite Hl in Hm, Hpc.
  destruct (lv_phase _ _ _ _ I t pc Ht) as (m1 & Hm1 & Hok). rewrite Hm in Hm1. simplify_eq.
  destruct (no_effect es ev Ha Hr) as [Ea Er]. apply (lk_moves _ _ _ _ _ pc); rewrite ?Ea, ?Er; auto.
  - destruct (mcs_simulates _ _ _ _ _ Hrep Hs) as (f' & _ & Hrep'). eauto.
  - intros u Hne. by rewrite Hpc, decide_False.
  - exists m'. rewrite Hpc, decide_True by done. split; [done|]. eapply Hph; eauto.
  - apply (lv_results _ _ _ _ I).
Qed.

(** A step that leaves the lock alone. *)
Lemma lk_free_moves m0 n es s t pc pc' obj' ev :
  lk_inv m0 n es s → lk_threads s !! t = Some pc → (∀ m, phase_ok m pc → phase_ok m pc') →
  Forall (event_of t) ev → run (status_step reject t) (status_of pc) ev = Some (status_of pc') →
  results (es ++ ev) = (spec_exec m0 (applied (es ++ ev))).1 →
  obj_ok (1 + n) (spec_exec m0 (applied (es ++ ev))).2 obj' (<[t := pc']> (lk_threads s)) →
  pending_ok pc' → lk_inv m0 (1 + n) (es ++ ev) (mk_lk (lk_lock s) obj' (<[t := pc']> (lk_threads s))).
Proof.
  intros I Ht Hph. destruct (lv_phase _ _ _ _ I t pc Ht) as (m & Hm & Hok).
  apply (lk_moves _ _ _ _ _ pc); eauto. apply (lv_lock _ _ _ _ I).
Qed.

Definition call_ok (l : lk_label K O) : Prop := match l with LkCall _ o => P o | LkGo _ κ => KP κ end.

Lemma lk_call_inv m0 n es s t o s' ev :
  P o → lk_inv m0 n es s → lk_step s (LkCall t o) = Some (s', ev) → lk_inv m0 (1 + n) (es ++ ev) s'.
Proof using rel_mono.
  intros HP I Hs. cbn [lk_step] in Hs. destruct (lk_threads s !! t) as [[]|] eqn:Ht; try done.
  pose proof (λ pc', obj_ok_same _ _ _ _ t _ pc' (lv_obj _ _ _ _ I) Ht eq_refl) as Hsame.
  destruct (reject o) as [r|] eqn:Hr; [|destruct (look o) as [f|] eqn:Hl].
  - simplify_eq. destruct (no_effect es [Called t o; Returned t r] eq_refl eq_refl) as [Ea Er].
    replace s' with (mk_lk (lk_lock s') (lk_obj s') (<[t := LkIdle]> (lk_threads s')))
      by (rewrite (list_insert_id _ _ _ Ht); by destruct s').
    apply (lk_free_moves _ _ _ _ _ LkIdle); rewrite ?Ea, ?Er; auto.
    + by repeat constructor.
    + cbn [run status_step status_of]. rewrite decide_True by done. cbn [run status_step].
      by rewrite !decide_True by done.
    + apply (lv_results _ _ _ _ I).
    + done.
  - simplify_eq. destruct (no_effect es [Called t o] eq_refl eq_refl) as [Ea Er].
    apply (lk_free_moves _ _ _ _ _ LkIdle); rewrite ?Ea, ?Er; auto.
    + by repeat constructor.
    + cbn [run status_step status_of]. by rewrite decide_True.
    + apply (lv_results _ _ _ _ I).
    + done.
  - destruct (mcs_step _ _) as [[lock les]|] eqn:Hm; [|done]. simplify_eq.
    eapply lk_lock_moves; [done|exact Ht|exact Hm|done|..]; auto; try done.
    + by intros m m' _ _ [_ ->].
    + by repeat constructor.
    + cbn [run status_step status_of]. by rewrite decide_True.
Qed.

(** An access of the critical section. *)
Lemma lk_body_inv m0 n es s t o c obj' c' :
  lk_inv m0 n es s → lk_threads s !! t = Some (LkBody o c) →
  (∀ J Q, cwp KP J c (lk_obj s) Q → (is_done c' = false → J obj') ∧ cwp KP J c' obj' Q) →
  let r := body_pc t o c' in
  lk_inv m0 (1 + n) (es ++ r.2) (mk_lk (lk_lock s) obj' (<[t := r.1]> (lk_threads s))).
Proof using rel_mono.
  intros I Ht Hc. destruct (oj_body _ _ _ _ (lv_obj _ _ _ _ I) t o c Ht) as (n0 & obj0 & Hn0 & Hrel & _ & Hwp).
  destruct (Hc _ _ Hwp) as [Hlook Hwp']. pose proof (lookup_lt_Some _ _ _ Ht) as Hlt.
  assert (Halone : ∀ u pc, lk_threads s !! u = Some pc → u ≠ t → in_body pc = false).
  { intros u pc Hu Hne. by apply (holder_alone _ _ _ _ t (LkBody o c) u pc I). }
  pose proof (lv_pending _ _ _ _ I t _ Ht) as HP. destruct c' as [r|X a k]; cbn [body_pc fst snd cwp is_done] in *.
  - destruct (applied_one es t o r) as [Ea Er]. destruct Hwp' as [Hr Hrel'].
    apply (lk_free_moves _ _ _ _ _ (LkBody o c)); rewrite ?Ea, ?Er, ?spec_exec_snoc; cbn [fst snd]; auto.
    + by repeat constructor.
    + cbn [run status_step status_of]. by rewrite !decide_True by done.
    + by rewrite (lv_results _ _ _ _ I), <-Hr.
    + apply obj_ok_leaves; auto. apply (rel_mono (1 + n0)); [lia|done].
    + done.
  - rewrite app_nil_r. replace es with (es ++ []) by apply app_nil_r.
    apply (lk_free_moves _ _ _ _ _ (LkBody o c)); rewrite ?app_nil_r; auto.
    + apply (lv_results _ _ _ _ I).
    + apply obj_ok_alone; auto. exists n0, obj0. split; [lia|]. split; [done|]. split; [by apply Hlook|done].
Qed.

(** What an operation without a lock reads at any moment. *)
Lemma look_now m0 n es s o f :
  lk_inv m0 n es s → P o → look o = Some f →
  spec (spec_exec m0 (applied es)).2 o = (f (lk_obj s), (spec_exec m0 (applied es)).2).
Proof using look_ok.
  intros I HP Hf. destruct (lv_obj _ _ _ _ I) as [H1 H2].
  destruct (decide (Exists (λ pc, in_body pc = true) (lk_threads s))) as [(pc & Hpc & Hb)%Exists_exists|Hn].
  - apply list_elem_of_lookup in Hpc as [t Ht]. destruct pc as [| |o' c| | | |]; try done.
    destruct (H2 t o' c Ht) as (n0 & obj0 & _ & Hrel & Hsame & _). rewrite (Hsame o f Hf). by eapply look_ok.
  - eapply look_ok; eauto. apply H1. intros t pc Ht. apply not_true_is_false. intros Hb. apply Hn.
    apply Exists_exists. exists pc. split; [|done]. by eapply list_elem_of_lookup_2.
Qed.

Lemma lk_go_inv m0 n es s t κ s' ev :
  KP κ → ready (lk_obj s) → (n < bound)%nat →
  lk_inv m0 n es s → lk_step s (LkGo t κ) = Some (s', ev) → lk_inv m0 (1 + n) (es ++ ev) s'.
Proof using look_ok body_ok rel_mono.
  intros HK Hready Hn I Hs. cbn [lk_step] in Hs. destruct (lk_threads s !! t) as [pc|] eqn:Ht; [|done].
  pose proof (lookup_lt_Some _ _ _ Ht) as Hlt. pose proof (lv_pending _ _ _ _ I t pc Ht) as Hpend.
  pose proof (λ pc' Hpc, obj_ok_same _ _ _ _ t _ pc' (lv_obj _ _ _ _ I) Ht Hpc) as Hsame.
  destruct pc as [|o|o c|r|r|o f|r]; try done.
  - destruct (mcs_step _ _) as [[lock les]|] eqn:Hl; [|done].
    assert (Hone : ∀ u pc, granted t les = true → lk_threads s !! u = Some pc → u ≠ t → in_body pc = false).
    { intros u pc Hg Hu Hne. destruct pc as [| |o' c'| | | |]; try done. destruct Hne.
      destruct (lv_lock _ _ _ _ I) as [f Hrep]. destruct (mcs_simulates _ _ _ _ _ Hrep Hl) as (f' & _ & Hrep').
      destruct (mcs_step_pc _ _ _ _ Hl) as (m & m' & Hm & Hpc & Hlbl). cbn [lock_thread] in Hm, Hpc.
      destruct (lv_phase _ _ _ _ I u _ Hu) as (mu & Hmu & ->). destruct (lv_phase _ _ _ _ I t _ Ht) as (mt & Hmt & Hlk).
      rewrite Hm in Hmt. simplify_eq. cbn in Hlk. destruct (decide (u = t)) as [|Hne]; [done|].
      apply (one_holder lock f' u t Hrep').
      - by rewrite Hpc, decide_False.
      - rewrite Hpc, decide_True by done. destruct Hlbl as [[_ H]|[H _]]; [by rewrite Hg in H; subst|by destruct mt]. }
    destruct (granted t les) eqn:Hg; simplify_eq;
      (eapply lk_lock_moves; [done|exact Ht|exact Hl|done|..]; try done);
      try (intros m m' _ Hph [[_ Hm]|[Hm _]]; try (rewrite Hg in Hm; done); by destruct m).
    + apply obj_ok_alone; [done|by intros; eapply Hone|]. destruct Hpend as (HP & Hrej & Hlook).
      exists n, (lk_obj s). split; [lia|]. assert (Hrel : rel n (spec_exec m0 (applied es)).2 (lk_obj s)).
      { apply (lv_obj _ _ _ _ I). intros u pc Hu. destruct (decide (u = t)) as [->|]; [by simplify_eq|by eapply Hone]. }
      split; [done|]. split; [by intros ? ?|]. by apply body_ok.
    + by apply Hsame.
  - destruct c as [r|X a k].
    + injection Hs as <- <-. apply (lk_body_inv m0 n es s t o (Done r) (lk_obj s) (Done r) I Ht). by intros J Q ?.
    + destruct (a κ (lk_obj s)) as [[x obj]|] eqn:Ea; [|done]. injection Hs as <- <-.
      apply (lk_body_inv m0 n es s t o (Access a k) obj (k x) I Ht). intros J Q Hc.
      specialize (Hc κ HK). by rewrite Ea in Hc.
  - destruct (mcs_step _ _) as [[lock les]|] eqn:Hl; [|done]. simplify_eq.
    eapply lk_lock_moves; [done|exact Ht|exact Hl|done|..]; try done; [by intros m m' _ _ [_ ->]|by apply Hsame].
  - destruct (mcs_step _ _) as [[lock les]|] eqn:Hl; [|done].
    destruct (released_by t les) eqn:Hg; simplify_eq;
      (eapply lk_lock_moves; [done|exact Ht|exact Hl|done|..]; try done; try (by repeat constructor); try by apply Hsame).
    + intros m m' _ Hph [[Hm _]|[_ Hm]]; [by destruct m|]. by rewrite Hg in Hm.
    + cbn [run status_step status_of]. by rewrite !decide_True by done.
    + intros m m' _ Hph [[Hm _]|[_ Hm]]; [by destruct m|]. by rewrite Hg in Hm.
  - injection Hs as <- <-. destruct Hpend as [HP Hf]. pose proof (look_now _ _ _ _ _ _ I HP Hf) as Hnow.
    destruct (applied_one es t o (f (lk_obj s))) as [Ea Er].
    apply (lk_free_moves _ _ _ _ _ (LkLook o f)); rewrite ?Ea, ?Er, ?spec_exec_snoc, ?Hnow; cbn [fst snd]; auto.
    + by repeat constructor.
    + cbn [run status_step status_of]. by rewrite !decide_True by done.
    + by rewrite (lv_results _ _ _ _ I).
    + done.
  - injection Hs as <- <-. destruct (no_effect es [Returned t r] eq_refl eq_refl) as [Ea Er].
    apply (lk_free_moves _ _ _ _ _ (LkLooked r)); rewrite ?Ea, ?Er; auto.
    + by repeat constructor.
    + cbn [run status_step status_of]. by rewrite !decide_True by done.
    + apply (lv_results _ _ _ _ I).
Qed.

Lemma lk_start_inv nodes m0 obj0 : rel 0 m0 obj0 → lk_inv m0 0 [] (lk_start nodes obj0).
Proof.
  intros Hrel. split; cbn [lk_start lk_lock lk_obj lk_threads]; try done.
  - eexists. apply mcs_start_rep.
  - intros t pc [-> Hlt]%lookup_replicate. exists McIdle. split; [|done].
    unfold pc_of. cbn. rewrite list_lookup_fmap. destruct (lookup_lt_is_Some_2 nodes t Hlt) as [nd ->]. done.
  - split; [done|]. by intros t o c [? _]%lookup_replicate.
  - by intros t pc [-> _]%lookup_replicate.
  - by intros t pc [-> _]%lookup_replicate.
Qed.

(** Every run that goes through objects that are ready. *)
Lemma lk_run nodes m0 obj0 sched s es :
  rel 0 m0 obj0 → (length sched ≤ bound)%nat → Forall call_ok sched →
  (∀ before after s1 es1, sched = before ++ after →
     traced lk_step (lk_start nodes obj0) before = Some (s1, es1) → ready (lk_obj s1)) →
  traced lk_step (lk_start nodes obj0) sched = Some (s, es) → lk_inv m0 (length sched) es s.
Proof using look_ok body_ok rel_mono.
  intros Hrel Hb Hok Hready Hr. revert Hb.
  refine (traced_invariant_when lk_step (λ s, ready (lk_obj s)) call_ok (λ n es s, (n ≤ bound)%nat → lk_inv m0 n es s)
    _ _ _ sched s es Hready Hok Hr).
  - intros _. by apply lk_start_inv.
  - intros n es0 s0 l s1 es1 Hrd Hl I Hs Hn. destruct l; cbn [call_ok] in Hl.
    + eapply lk_call_inv; [done| |done]. apply I. lia.
    + eapply lk_go_inv; [done|done| | |done]; [lia|]. apply I. lia.
Qed.

(** A thread inside a call can move. *)
Lemma lk_enabled m0 n es s t κ pc :
  lk_inv m0 n es s → KP κ → lk_threads s !! t = Some pc → pc ≠ LkIdle → is_Some (lk_step s (LkGo t κ)).
Proof.
  intros I HK Ht Hne. pose proof (lv_lock _ _ _ _ I) as [f Hrep].
  destruct (lv_phase _ _ _ _ I t pc Ht) as (m & Hm & Hok).
  pose proof (lock_enabled _ f t m Hrep Hm) as Hadv.
  cbn [lk_step]. rewrite Ht. destruct pc as [|o|o c|r|r|o g|r]; cbn [phase_ok] in Hok; try done.
  - destruct Hadv as [[lock les] ->]; [by left|done].
  - destruct c as [r|X a k]; [done|].
    destruct (oj_body _ _ _ _ (lv_obj _ _ _ _ I) t o _ Ht) as (n0 & obj0 & _ & _ & _ & Hwp).
    specialize (Hwp κ HK). destruct (a κ (lk_obj s)) as [[x obj]|]; done.
  - subst m. unfold pc_of in Hm. apply fmap_Some in Hm as ([m1 nd] & Hm & E). cbn in E. subst m1.
    cbn [mcs_step]. by rewrite Hm.
  - destruct Hadv as [[lock les] ->]; [by right|]. by destruct (released_by t les).
Qed.
End locked.
