(* ===== verification/Linear.v ===== *)
(** * Calls that take effect at one moment

    For the structures without a lock.  As in [Locked], a call begins, takes effect
    and returns; here the specification may also refuse an operation, which then
    changes nothing.  The ring ([RingLin]) and the deque ([DequeLin]) are proved
    against it. *)

From stdpp Require Import prelude.
From S2P Require Import Prelude FairLock McsLock Locked.

Section linear.
Context {S O R : Type} `{EqDecision O, EqDecision R}.
(** The sequential object, and the results that refuse. *)
Context (spec : S → O → R * S) (refused : R → bool).
Implicit Types (es : list (lk_event O R)).

(** The effects in the order they are taken. *)
Definition effects es : list (O * R) :=
  omap (λ e, match e with Applied _ o r => Some (o, r) | _ => None end) es.

Lemma effects_app es es' : effects (es ++ es') = effects es ++ effects es'.
Proof. apply omap_app. Qed.

(** The object, which may also refuse. *)
Definition weak_step (s : S) (e : O * R) : option S :=
  if refused e.2 then Some s
  else if decide ((spec s e.1).1 = e.2) then Some (spec s e.1).2 else None.

Lemma weak_step_refused s o r : refused r = true → weak_step s (o, r) = Some s.
Proof. unfold weak_step. cbn. by intros ->. Qed.

Lemma weak_step_done s o r s' : refused r = false → spec s o = (r, s') → weak_step s (o, r) = Some s'.
Proof. unfold weak_step. cbn. intros -> ->. cbn. by rewrite decide_True. Qed.

Lemma weak_step_answer s o r s' : refused r = false → weak_step s (o, r) = Some s' → (spec s o).1 = r.
Proof. unfold weak_step. cbn. intros ->. by case_decide. Qed.

(** A call never returns before it has taken effect or been refused. *)
Definition no_reject (o : O) : option R := None.

Definition history (t : nat) es : option call_status := call_history no_reject t es.

(** A step of thread [t], whose call was at [c] and is then at [c']; the others see
    nothing of it. *)
Lemma history_own t es es' c c' :
  history t es = Some c → run (status_step no_reject t) c es' = Some c' → history t (es ++ es') = Some c'.
Proof. intros H1 H2. unfold history. by rewrite (call_history_app _ _ _ _ _ H1). Qed.

Lemma history_other t u es es' c :
  history t es = Some c → u ≠ t → Forall (event_of u) es' → history t (es ++ es') = Some c.
Proof. intros H1 Hne Hev. unfold history. rewrite (call_history_app _ _ _ _ _ H1). by apply (run_other _ t u). Qed.
End linear.
