(* ===== verification/RingLin.v ===== *)
(** * The shared ring is a bounded queue
    (include/numakit/structs/ring_buffer.h)

    The calls of [RingConc] against the bounded FIFO queue of [Ring].  A call takes
    effect at its compare-and-swap, between its beginning and its end, in a queue
    that is the same for everybody.  A refused call takes no effect: it saw a full
    (an empty) queue, or a cell that another thread has claimed and not finished
    with.  The second kind of refusal is no queue's answer, which a run shows. *)

From stdpp Require Import prelude.
From Stdlib Require Import ZArith Lia.
From S2P Require Import Prelude Words FairLock McsLock Locked Linear Arena Ring RingConc.
Local Open Scope Z_scope.
Local Open Scope word_scope.

#[export] Instance queue_op_eq_dec : EqDecision queue_op.
Proof. solve_decision. Defined.
#[export] Instance queue_res_eq_dec : EqDecision queue_res.
Proof. solve_decision. Defined.

(** ** Calls *)

Abbreviation call_event := (lk_event queue_op queue_res).

(** What a step of the ring is for the call that makes it: [s] is the state before
    the step and [ev] what [RingConc] shows of it.  A producer's effect is its
    claim, a consumer's the step from the compare-and-swap to the read: the item is
    the one in the cell at that moment. *)
Definition push_calls (t : nat) (pc : ring_pc) (ev : list ring_event) : list call_event :=
  match pc, ev with
  | RcPushSeq _ x, [Full _] => [Applied t (QPush x) (RPush false); Returned t (RPush false)]
  | RcPushCas _ x, [Claim _] => [Applied t (QPush x) (RPush true)]
  | RcPushCommit _, _ => [Returned t (RPush true)]
  | _, _ => []
  end.

Definition pop_calls (r : nkit_ring_t) (t : nat) (pc pc' : ring_pc) (ev : list ring_event) : list call_event :=
  match pc, pc', ev with
  | RcPopSeq _, _, [Empty _] => [Applied t QPop (RPop None); Returned t (RPop None)]
  | RcPopCas u, RcPopRead _, _ => [Applied t QPop (RPop (cell_data <$> ring_cells r !! cell_index r u))]
  | RcPopCommit _ _, _, [Taken _ x] => [Returned t (RPop (Some x))]
  | _, _, _ => []
  end.

Definition calls_of (s : ring_state) (l : ring_label) (s' : ring_state) (ev : list ring_event) : list call_event :=
  match l with
  | RcPush t x => [Called t (QPush x)]
  | RcPop t => [Called t QPop]
  | RcAdvance t _ =>
      match rs_threads s !! t, rs_threads s' !! t with
      | Some pc, Some pc' => push_calls t pc ev ++ pop_calls (rs_ring s) t pc pc' ev
      | _, _ => []
      end
  end.

(** The ring's steps, shown as calls. *)
Definition rl_step (s : ring_state) (l : ring_label) : option (ring_state * list call_event) :=
  match ring_step s l with
  | Some (s', ev) => Some (s', calls_of s l s' ev)
  | None => None
  end.

(** ** What is promised *)

(** The bounded queue, which may also refuse. *)
Definition queue_refused (r : queue_res) : bool :=
  match r with RPush false | RPop None => true | _ => false end.
Abbreviation weak_queue := (λ cap, weak_step (queue_step cap) queue_refused).

(** A thread that has claimed a cell and not yet given it back. *)
Definition halfway (pc : ring_pc) : bool :=
  match pc with RcPushWrite _ _ | RcPushCommit _ | RcPopRead _ | RcPopCommit _ _ => true | _ => false end.

(** What the queue would answer, or a refusal with somebody halfway. *)
Definition answer_ok (cap : Z) (q : list Z) (ths : list ring_pc) (t : nat) (o : queue_op) (r : queue_res) : Prop :=
  (queue_step cap q o).1 = r ∨
  (queue_refused r = true ∧ ∃ u pc, u ≠ t ∧ ths !! u = Some pc ∧ halfway pc = true).

(** ** The invariant *)

Definition ring_status (ps : list Z) (pc : ring_pc) : call_status (O:=queue_op) (R:=queue_res) :=
  match pc with
  | RcIdle => CsIdle
  | RcPushStart x | RcPushSeq _ x | RcPushCas _ x => CsCalled (QPush x)
  | RcPushWrite _ _ | RcPushCommit _ => CsApplied (RPush true)
  | RcPopStart | RcPopSeq _ | RcPopCas _ => CsCalled QPop
  | RcPopRead u => CsApplied (RPop (ps !! Z.to_nat u))
  | RcPopCommit _ x => CsApplied (RPop (Some x))
  end.

(** The queue: claimed and not yet taken. *)
Definition ring_content (ps : list Z) (s : ring_state) : list Z :=
  drop (Z.to_nat (ring_tail (rs_ring s))) ps.

Definition lin_inv (cap : Z) (n : nat) (es : list call_event) (s : ring_state) : Prop :=
  Z.of_nat n < 2 ^ 62 →
  ∃ rev, conc_inv cap n rev s ∧
    run (weak_queue cap) [] (effects es) = Some (ring_content (claims rev) s) ∧
    (∀ t pc, rs_threads s !! t = Some pc → history t es = Some (ring_status (claims rev) pc)) ∧
    (∀ t, rs_threads s !! t = None → history t es = Some CsIdle).

Lemma ring_content_length cap hd tl ps s :
  ring_inv cap hd tl ps s → Z.of_nat (length (ring_content ps s)) = hd - tl.
Proof.
  intros I. unfold ring_content. rewrite length_drop, (rv_tail _ _ _ _ _ I).
  pose proof (rv_items _ _ _ _ _ I). pose proof (rv_order _ _ _ _ _ I). lia.
Qed.

(** The item at the tail, when a consumer's compare-and-swap succeeds. *)
Lemma pop_cas_item cap hd tl ps s t :
  ring_inv cap hd tl ps s → rs_threads s !! t = Some (RcPopCas tl) →
  ∃ c, ring_cells (rs_ring s) !! cell_index (rs_ring s) tl = Some c ∧ ps !! Z.to_nat tl = Some (cell_data c).
Proof.
  intros I Ht. destruct (rv_threads _ _ _ _ _ I t _ Ht) as [_ Hr]. destruct Hr as [Hlt Hnp]; [done|].
  pose proof (rv_order _ _ _ _ _ I). destruct (rv_cells _ _ _ _ _ I tl) as (c & Hc & Hph); [lia|].
  exists c. rewrite (cell_index_mod _ _ _ _ _ I). split; [done|].
  destruct Hph as [?|?|? ? [_ ?]|?|?]; try lia; done.
Qed.

(** Statuses survive later claims. *)
Lemma ring_status_more cap hd tl ps s l t pc :
  ring_inv cap hd tl ps s → rs_threads s !! t = Some pc → ring_status (ps ++ l) pc = ring_status ps pc.
Proof.
  intros I Ht. pose proof (rv_threads _ _ _ _ _ I t pc Ht) as Hok. pose proof (rv_items _ _ _ _ _ I).
  pose proof (rv_order _ _ _ _ _ I). destruct pc; cbn in *; try done. rewrite lookup_app_l by lia. done.
Qed.

(** ** One step *)

(** One access of thread [t], at [pc], seen by its own call and by the queue. *)
Section step_lin.
Context (cap hd tl : Z) (ps : list Z) (r : nkit_ring_t) (ths : list ring_pc) (t : nat) (pc : ring_pc).
Hypothesis I : ring_inv cap hd tl ps (mk_rs r ths).
Hypothesis Ht : ths !! t = Some pc.
Hypothesis Hb : hd < 2 ^ 62.

Definition lin_ok (r' : nkit_ring_t) (pc' : ring_pc) (ps' : list Z) (ce : list call_event) : Prop :=
  run (status_step no_reject t) (ring_status ps pc) ce = Some (ring_status ps' pc') ∧
  run (weak_queue cap) (drop (Z.to_nat (ring_tail r)) ps) (effects ce) = Some (drop (Z.to_nat (ring_tail r')) ps').

Lemma push_step_lin sp r' pc' ev :
  ring_push_step r t pc sp = Some (r', pc', ev) →
  lin_ok r' pc' (ps ++ claims ev) (push_calls t pc ev ++ pop_calls r t pc pc' ev).
Proof.
  intros Hs. pose proof (rv_order _ _ _ _ _ I) as Hord. pose proof (rv_items _ _ _ _ _ I) as Hlen.
  pose proof (rv_tail _ _ _ _ _ I) as Htl. pose proof (rv_head _ _ _ _ _ I) as Hhd. cbn [rs_ring] in Htl, Hhd.
  pose proof (rv_threads _ _ _ _ _ I t pc Ht) as Hok. unfold lin_ok.
  destruct pc as [|x|h x|h x|h x|h| |u|u|u|u x]; cbn [ring_push_step] in Hs; try done.
  - injection Hs as <- <- <-. cbn. by rewrite app_nil_r.
  - destruct (ring_cells r !! _) as [c|]; [|done]. destruct (_ =? 0); [|destruct (_ <? 0)]; injection Hs as <- <- <-;
      cbn; rewrite !app_nil_r; try done. by rewrite !decide_True.
  - destruct (Z.eqb_spec (ring_head r) h) as [Eh|]; destruct sp; cbn [andb negb] in Hs; injection Hs as <- <- <-;
      cbn; rewrite ?app_nil_r; try done. rewrite !decide_True by done. split; [done|].
    destruct Hok as [_ Hrel]. assert (Hroom : hd - tl < cap).
    { destruct Hrel as [?|[? _]]; lia. }
    unfold weak_step. cbn [queue_refused fst snd queue_step].
    rewrite (proj2 (Z.ltb_lt _ _)) by (rewrite length_drop; lia). cbn [fst snd]. rewrite decide_True by done.
    by rewrite drop_app_le by lia.
  - destruct (ring_cells r !! _) as [c|]; [|done]. injection Hs as <- <- <-. cbn. by rewrite app_nil_r.
  - destruct (ring_cells r !! _) as [c|]; [|done]. injection Hs as <- <- <-. cbn. rewrite app_nil_r. by rewrite !decide_True.
Qed.

Lemma pop_step_lin sp r' pc' ev :
  ring_pop_step r t pc sp = Some (r', pc', ev) →
  lin_ok r' pc' (ps ++ claims ev) (push_calls t pc ev ++ pop_calls r t pc pc' ev).
Proof.
  intros Hs. assert (Hc0 : claims ev = []) by (destruct pc; cbn in Hs; repeat case_match; by simplify_eq).
  rewrite Hc0, app_nil_r. clear Hc0. pose proof (rv_threads _ _ _ _ _ I t pc Ht) as Hok. pose proof (rv_order _ _ _ _ _ I) as Hord. pose proof (rv_items _ _ _ _ _ I) as Hlen.
  pose proof (rv_tail _ _ _ _ _ I) as Htl. cbn [rs_ring] in Htl. unfold lin_ok.
  destruct pc as [|x|h x|h x|h x|h| |u|u|u|u x]; cbn [ring_pop_step] in Hs; try done.
  - by injection Hs as <- <- <-.
  - destruct (ring_cells r !! _) as [c|]; [|done]. destruct (_ =? 0); [|destruct (_ <? 0)]; injection Hs as <- <- <-;
      cbn; try done. by rewrite !decide_True.
  - destruct (Z.eqb_spec (ring_tail r) u) as [Eu|]; destruct sp; cbn [andb negb] in Hs; injection Hs as <- <- <-; try done.
    assert (u = tl) as -> by congruence.
    destruct (pop_cas_item cap hd tl ps _ t I Ht) as (c & Hc & Hx). cbn [rs_ring] in Hc.
    cbn [push_calls pop_calls app effects omap list_omap run status_step ring_status with_tail ring_tail]. rewrite Hc.
    cbn [fmap option_fmap option_map]. rewrite !decide_True by done. cbn [run]. split; [by rewrite Hx|].
    unfold weak_step. cbn [queue_refused fst snd]. rewrite Eu, (drop_S _ _ _ Hx). cbn [queue_step fst snd].
    rewrite decide_True by done. rewrite u64_small by (unfold is_u64; lia). do 2 f_equal. lia.
  - pose proof (cell_index_mod _ _ _ _ _ I u) as Ei. cbn [rs_ring] in Ei. rewrite Ei in Hs.
    destruct (rv_cells _ _ _ _ _ I u) as (c & Hc & Hph); [cbn in Hok; lia|]. cbn [rs_ring] in Hc. rewrite Hc in Hs.
    injection Hs as <- <- <-. assert (Hpop : popping ths u) by (by exists t, (RcPopRead u)). cbn in Hok.
    destruct Hph as [?|?|?|? ? [_ Hx] ? ?|?]; try lia; try done. cbn. by rewrite Hx.
  - destruct (ring_cells r !! _) as [c|]; [|done]. injection Hs as <- <- <-. cbn. by rewrite !decide_True.
Qed.
End step_lin.

(** The events of a step are its thread's. *)
Definition label_thread (l : ring_label) : nat := match l with RcPush t _ | RcPop t | RcAdvance t _ => t end.

Lemma calls_of_thread s l s' ev : Forall (event_of (label_thread l)) (calls_of s l s' ev).
Proof.
  destruct l as [t x|t|t sp]; cbn [calls_of label_thread]; [by repeat constructor|by repeat constructor|].
  destruct (rs_threads s !! t) as [pc|]; [|constructor]. destruct (rs_threads s' !! t) as [pc'|]; [|constructor].
  unfold push_calls, pop_calls. repeat case_match; by repeat constructor.
Qed.

Lemma step_lin cap hd tl ps s l s' ev :
  ring_inv cap hd tl ps s → hd < 2 ^ 62 → ring_step s l = Some (s', ev) →
  ∃ pc pc', rs_threads s !! label_thread l = Some pc ∧
    s' = mk_rs (rs_ring s') (<[label_thread l := pc']> (rs_threads s)) ∧
    lin_ok cap ps (rs_ring s) (label_thread l) pc (rs_ring s') pc' (ps ++ claims ev) (calls_of s l s' ev).
Proof.
  intros I Hb Hs. destruct s as [r ths]. destruct l as [t x|t|t sp]; cbn [ring_step rs_threads rs_ring label_thread] in *;
    destruct (ths !! t) as [pc|] eqn:Ht; try done.
  1,2: destruct pc; try done; injection Hs as <- <-; eexists RcIdle, _; (split; [done|]); (split; [done|]);
    unfold lin_ok; change (claims []) with (@nil Z); rewrite app_nil_r; cbn; by rewrite decide_True by done.
  assert (Hlk : ∀ pc', <[t := pc']> ths !! t = Some pc')
    by (intros; apply list_lookup_insert_eq; by eapply lookup_lt_Some).
  cbn [calls_of rs_threads rs_ring]. rewrite Ht. destruct (ring_push_step r t pc sp) as [[[r' pc'] ev1]|] eqn:E1.
  - injection Hs as <- <-. exists pc, pc'. split; [done|]. split; [done|]. cbn [rs_threads rs_ring]. rewrite Hlk.
    by apply (push_step_lin cap hd tl ps r ths t pc I Ht) with sp.
  - destruct (ring_pop_step r t pc sp) as [[[r' pc'] ev1]|] eqn:E2; [|done]. injection Hs as <- <-.
    exists pc, pc'. split; [done|]. split; [done|]. cbn [rs_threads rs_ring]. rewrite Hlk.
    by apply (pop_step_lin cap hd tl ps r ths t pc I Ht) with sp.
Qed.

Lemma lin_inv_step cap n es s l s' ce :
  lin_inv cap n es s → rl_step s l = Some (s', ce) → lin_inv cap (S n) (es ++ ce) s'.
Proof.
  intros L Hs Hn. destruct L as (rev & Inv & Hq & Hst & Hnone); [lia|].
  unfold rl_step in Hs. destruct (ring_step s l) as [[s1 ev]|] eqn:E; [|done]. injection Hs as -> <-.
  pose proof (calls_of_thread s l s' ev) as Hce. destruct (Inv ltac:(lia)) as (hd & tl & Hhd & I & _).
  destruct (step_lin cap hd tl (claims rev) s l s' ev I ltac:(lia) E) as (pc & pc' & Ht & Es & Hown & Hown').
  assert (Ec : claims (rev ++ ev) = claims rev ++ claims ev) by apply omap_app.
  exists (rev ++ ev). rewrite Ec. split; [by apply (conc_inv_step _ _ _ s l)|].
  pose proof (lookup_lt_Some _ _ _ Ht) as Hlt. split_and!.
  - rewrite effects_app, run_app, Hq. exact Hown'.
  - intros u pcu Hu. rewrite Es in Hu. cbn [rs_threads] in Hu. rewrite lookup_insert_decide in Hu by done.
    case_decide; simplify_eq.
    + by apply (history_own _ _ _ _ _ (Hst _ _ Ht)).
    + rewrite (ring_status_more _ _ _ _ _ _ _ _ I Hu). by apply (history_other _ (label_thread l)); auto.
  - intros u Hu. rewrite Es in Hu. cbn [rs_threads] in Hu. rewrite lookup_insert_decide in Hu by done.
    case_decide; [done|]. by apply (history_other _ (label_thread l)); auto.
Qed.

Lemma lin_run k arena n sched s es :
  1 ≤ k ≤ 61 → Z.of_nat (length sched) < 2 ^ 62 →
  traced rl_step (ring_start k arena n) sched = Some (s, es) → lin_inv (2 ^ k) (length sched) es s.
Proof.
  intros Hk Hlen Hr. refine (traced_invariant rl_step (lin_inv (2 ^ k)) _ _ _ sched s es Hr).
  - intros _. exists []. split_and!; try done.
    + intros _. exists 0, 0. split; [lia|]. split; [by apply ring_start_inv|].
      split; simpl; try done; [by intros p x Hx%not_elem_of_nil|constructor|lia].
    + by intros t pc [-> _]%lookup_replicate.
  - intros n0 es0 s0 l s1 es1. apply lin_inv_step.
Qed.

(** ** Answers *)

(** A refused effect is a refusal of the ring. *)
Lemma push_calls_refused r t pc sp r' pc' ev u o res :
  ring_push_step r t pc sp = Some (r', pc', ev) → Applied u o res ∈ push_calls t pc ev → queue_refused res = true →
  u = t ∧ halfway pc = false ∧ (queue_step 0 [] o).1 = res ∧ ∃ x, o = QPush x ∧ Full t ∈ ev.
Proof.
  intros Hs Hin Hr. destruct pc; cbn [ring_push_step] in Hs; try done; repeat case_match; simplify_eq; cbn in Hin;
    repeat (apply elem_of_cons in Hin as [[=]|Hin]); simplify_eq; try (by apply not_elem_of_nil in Hin); try done.
  split_and!; try done. eexists. split; [done|]. by left.
Qed.

Lemma pop_calls_refused r t pc sp r' pc' ev u o res :
  ring_pop_step r t pc sp = Some (r', pc', ev) → Applied u o res ∈ pop_calls r t pc pc' ev → queue_refused res = true →
  (∀ v, pc = RcPopCas v → ring_tail r = v → is_Some (ring_cells r !! cell_index r v)) →
  u = t ∧ halfway pc = false ∧ o = QPop ∧ res = RPop None ∧ Empty t ∈ ev.
Proof.
  intros Hs Hin Hr Hcell. destruct pc as [| | | | | | |v|v|v|v y]; cbn [ring_pop_step] in Hs; try done.
  - simplify_eq. by apply not_elem_of_nil in Hin.
  - repeat case_match; simplify_eq; cbn in Hin;
      repeat (apply elem_of_cons in Hin as [[=]|Hin]); simplify_eq; try (by apply not_elem_of_nil in Hin).
    split_and!; try done. by left.
  - destruct (Z.eqb_spec (ring_tail r) v) as [Ev|]; destruct sp; cbn [andb negb] in Hs; simplify_eq; cbn in Hin;
      try (by apply not_elem_of_nil in Hin).
    destruct (Hcell _ eq_refl eq_refl) as [c Hc]. rewrite Hc in Hin.
    apply list_elem_of_singleton in Hin. by simplify_eq.
  - repeat case_match; simplify_eq. by apply not_elem_of_nil in Hin.
  - repeat case_match; simplify_eq. by apply list_elem_of_singleton in Hin.
Qed.

(** A step takes one effect at most. *)
Lemma one_effect s l s' ev t o r :
  Applied t o r ∈ calls_of s l s' ev → effects (calls_of s l s' ev) = [(o, r)] ∧ label_thread l = t.
Proof.
  intros Hin. pose proof (calls_of_thread s l s' ev) as Hall. rewrite Forall_forall in Hall.
  pose proof (Hall _ Hin) as Ht. split; [|done]. clear Hall Ht.
  destruct l as [u x|u|u sp]; cbn [calls_of] in *; [by apply list_elem_of_singleton in Hin..|].
  destruct (rs_threads s !! u) as [pc|]; [|by apply not_elem_of_nil in Hin].
  destruct (rs_threads s' !! u) as [pc'|]; [|by apply not_elem_of_nil in Hin].
  unfold push_calls, pop_calls in *. repeat case_match; cbn in *;
    repeat (apply elem_of_cons in Hin as [[=]|Hin]); simplify_eq; try (by apply not_elem_of_nil in Hin); done.
Qed.

Lemma claiming_halfway f ths t pc p :
  (∀ pc q, f pc = Some q → halfway pc = true) → ths !! t = Some pc → halfway pc = false → claiming f ths p →
  ∃ u pc', u ≠ t ∧ ths !! u = Some pc' ∧ halfway pc' = true.
Proof.
  intros Hf Ht Hpc (u & pc' & Hu & Hp). exists u, pc'. pose proof (Hf _ _ Hp). split_and!; [|done|done].
  intros ->. congruence.
Qed.

Lemma push_claim_halfway pc q : push_claim pc = Some q → halfway pc = true.
Proof. by destruct pc. Qed.
Lemma pop_claim_halfway pc q : pop_claim pc = Some q → halfway pc = true.
Proof. by destruct pc. Qed.

(** Every answer is the queue's, or a refusal with another thread halfway. *)
Lemma step_answers cap hd tl ps s l s' ev t o res :
  ring_inv cap hd tl ps s → hd < 2 ^ 62 → ring_step s l = Some (s', ev) →
  Applied t o res ∈ calls_of s l s' ev → answer_ok cap (ring_content ps s) (rs_threads s) t o res.
Proof.
  intros I Hb Hs Hin. pose proof (ring_content_length _ _ _ _ _ I) as Hlen.
  destruct (step_lin cap hd tl ps s l s' ev I Hb Hs) as (_ & _ & _ & _ & _ & Hw).
  destruct (one_effect _ _ _ _ _ _ _ Hin) as [He Hl]. rewrite He in Hw. cbn in Hw. unfold weak_step in Hw. cbn in Hw.
  destruct (queue_refused res) eqn:Hr.
  2:{ left. by case_decide. }
  destruct (ring_refusals cap hd tl ps s l s' ev t Hb I Hs) as [Hfull Hempty].
  destruct l as [u x|u|u sp]; cbn [label_thread] in Hl; subst u; cbn [calls_of ring_step] in *;
    [by apply list_elem_of_singleton in Hin..|].
  destruct (rs_threads s !! t) as [pc|] eqn:Ht; [|done].
  destruct (rs_threads s' !! t) as [pc'|] eqn:Ht'; [|by apply not_elem_of_nil in Hin].
  assert (Hlk : ∀ pc', <[t := pc']> (rs_threads s) !! t = Some pc')
    by (intros; apply list_lookup_insert_eq; by eapply lookup_lt_Some).
  destruct (ring_push_step _ t pc sp) as [[[r1 pc1] ev1]|] eqn:E1.
  - injection Hs as <- <-. cbn [rs_threads] in Ht'. rewrite Hlk in Ht'. injection Ht' as <-.
    assert (Hpush : Applied t o res ∈ push_calls t pc ev1).
    { apply elem_of_app in Hin as [|Hin]; [done|]. destruct pc; cbn in Hin, E1; done || by apply not_elem_of_nil in Hin. }
    destruct (push_calls_refused _ _ _ _ _ _ _ _ _ _ E1 Hpush Hr) as (_ & Hh & Hres & x & -> & Hf). cbn in Hres. subst res.
    destruct (Hfull Hf) as [Hc|Hc].
    + left. cbn. by rewrite (proj2 (Z.ltb_ge _ _)) by lia.
    + right. split; [done|]. by apply (claiming_halfway pop_claim _ t pc (hd - cap) pop_claim_halfway).
  - destruct (ring_pop_step _ t pc sp) as [[[r1 pc1] ev1]|] eqn:E2; [|done].
    injection Hs as <- <-. cbn [rs_threads] in Ht'. rewrite Hlk in Ht'. injection Ht' as <-.
    assert (Hpop : Applied t o res ∈ pop_calls (rs_ring s) t pc pc1 ev1).
    { apply elem_of_app in Hin as [Hin|]; [|done]. destruct pc; cbn in Hin, E2; done || by apply not_elem_of_nil in Hin. }
    destruct (pop_calls_refused _ _ _ _ _ _ _ _ _ _ E2 Hpop Hr) as (_ & Hh & -> & -> & He').
    { intros v -> <-. rewrite (rv_tail _ _ _ _ _ I) in *. destruct (pop_cas_item _ _ _ _ _ t I Ht) as (c & Hc & _). by rewrite Hc. }
    destruct (Hempty He') as [Hc|Hc].
    + left. cbn. destruct (ring_content ps s); [done|]. cbn in Hlen. lia.
    + right. split; [done|]. by apply (claiming_halfway push_claim _ t pc tl push_claim_halfway).
Qed.

(** ** Properties *)

(** C1. The ring is linearizable, refusals apart.  Any number of threads push and pop
    in any interleaving (fewer than 2^62 steps, capacity 2..2^61).  The calls act on
    one bounded FIFO queue: each takes effect once, at one moment between its
    beginning and its end, in that queue, and returns that effect's result.  The
    queue holds [head - tail] items, never more than the capacity.  Every answer is
    the one the queue gives at that moment, except that a call may be refused while
    another thread has claimed a cell and not finished with it.  A thread inside a
    call always has a next step. *)
Theorem ring_linearizable k arena n sched s es :
  1 ≤ k ≤ 61 → Z.of_nat (length sched) < 2 ^ 62 →
  traced rl_step (ring_start k arena n) sched = Some (s, es) →
  ∃ q, run (weak_queue (2 ^ k)) [] (effects es) = Some q ∧
    Z.of_nat (length q) = ring_head (rs_ring s) - ring_tail (rs_ring s) ∧ Z.of_nat (length q) ≤ 2 ^ k ∧
    (∀ t, is_Some (history t es)) ∧
    (∀ l s' es' t o r, rl_step s l = Some (s', es') → Applied t o r ∈ es' →
       answer_ok (2 ^ k) q (rs_threads s) t o r) ∧
    (∀ t pc sp, rs_threads s !! t = Some pc → pc ≠ RcIdle → is_Some (rl_step s (RcAdvance t sp))).
Proof.
  intros Hk Hlen Hr. pose proof (lin_run k arena n sched s es Hk Hlen Hr) as L.
  destruct (L Hlen) as (rev & Inv & Hq & Hst & Hnone). destruct (Inv Hlen) as (hd & tl & Hhd & I & _).
  exists (ring_content (claims rev) s). pose proof (rv_order _ _ _ _ _ I).
  pose proof (ring_content_length _ _ _ _ _ I). split; [done|]. split_and!.
  - by rewrite (rv_head _ _ _ _ _ I), (rv_tail _ _ _ _ _ I).
  - lia.
  - intros t. destruct (rs_threads s !! t) as [pc|] eqn:Ht; [by rewrite (Hst t pc Ht)|by rewrite (Hnone t Ht)].
  - intros l s' es' t o r Hs Hin. unfold rl_step in Hs.
    destruct (ring_step s l) as [[s1 ev]|] eqn:E; [|done]. injection Hs as -> <-.
    apply (step_answers _ hd tl _ _ l s' ev); auto. lia.
  - intros t pc sp Ht Hne. unfold rl_step.
    by destruct (ring_enabled _ _ _ _ _ t pc sp I Ht Hne) as [[s1 ev] ->].
Qed.

(** Thread 0 claims position 0 and is held up before it writes; thread 1 pushes 20
    and pops. *)
Definition demo_lin_sched : list ring_label :=
  [RcPush 0 10; RcAdvance 0 false; RcAdvance 0 false; RcAdvance 0 false;
   RcPush 1 20; RcAdvance 1 false; RcAdvance 1 false; RcAdvance 1 false; RcAdvance 1 false; RcAdvance 1 false;
   RcPop 1; RcAdvance 1 false; RcAdvance 1 false].

(** Thread 0 goes on, and both items come out in order. *)
Definition demo_lin_rest : list ring_label :=
  [RcAdvance 0 false; RcAdvance 0 false; RcPop 1; RcAdvance 1 false; RcAdvance 1 false; RcAdvance 1 false].

Lemma ring_linearizable_witness :
  match traced rl_step (ring_start 1 None 2) (demo_lin_sched ++ demo_lin_rest) with
  | Some (s, es) =>
      effects es = [(QPush 10, RPush true); (QPush 20, RPush true); (QPop, RPop None); (QPop, RPop (Some 10))] ∧
      ∃ q, run (weak_queue 2) [] (effects es) = Some q ∧ q = [20] ∧ is_Some (rl_step s (RcAdvance 1 false))
  | None => False
  end.
Proof.
  destruct (traced _ _ _) as [[s es]|] eqn:E; [|by vm_compute in E].
  assert (Hlen : Z.of_nat (length (demo_lin_sched ++ demo_lin_rest)) < 2 ^ 62) by (cbn; lia).
  destruct (ring_linearizable 1 None 2 _ s es ltac:(lia) Hlen E) as (q & Hq & _ & _ & _ & _ & Hgo).
  assert (He : effects es = [(QPush 10, RPush true); (QPush 20, RPush true); (QPop, RPop None); (QPop, RPop (Some 10))])
    by (vm_compute in E; by injection E as <- <-).
  split; [done|]. exists q. rewrite He in *. split; [done|]. split; [vm_compute in Hq; by injection Hq as <-|].
  apply (Hgo 1%nat (RcPopRead 0)); [|done]. vm_compute in E. by injection E as <- <-.
Defined.

(** The calls and the returns, which are what the callers can see. *)
Definition visible (e : call_event) : option call_event :=
  match e with Applied _ _ _ => None | _ => Some e end.

(** C34. Some refusals are no queue's: with capacity 2, a thread whose push has
    returned true pops and is refused, although nobody else pops, because another
    thread has claimed the cell in front and is held up.  In whatever order the calls
    are taken, the other thread's push before, between, after or not at all, a queue
    would have given the pop an item. *)
Theorem ring_refusal_not_queue :
  ∃ s es, traced rl_step (ring_start 1 None 2) demo_lin_sched = Some (s, es) ∧
    omap visible es =
      [Called 0 (QPush 10); Called 1 (QPush 20); Returned 1 (RPush true); Called 1 QPop; Returned 1 (RPop None)] ∧
    ∀ l1 l2 l3, l1 ++ l2 ++ l3 = [] ∨ l1 ++ l2 ++ l3 = [QPush 10] →
      RPop None ∉ (queue_exec 2 [] (l1 ++ [QPush 20] ++ l2 ++ [QPop] ++ l3)).1.
Proof.
  eexists _, _. split; [vm_compute; reflexivity|]. split; [done|].
  intros l1 l2 l3 [E|E].
  - apply app_eq_nil in E as [-> [-> ->]%app_eq_nil]. cbn. set_solver.
  - apply app_eq_unit in E as [[-> E]|[-> [-> ->]%app_eq_nil]]; [|cbn; set_solver].
    apply app_eq_unit in E as [[-> ->]|[-> ->]]; cbn; set_solver.
Qed.
