(* ===== verification/DequeLin.v ===== *)
(** * The shared deque is a list with two ends (src/structs/deque.c)

    One owner pushes and pops, any number of thieves steal.  The calls act on one
    list, each at one moment between its beginning and its end: a push appends when
    it stores the new [bottom], a pop takes the last item when it loads [top], or
    when it wins the compare-and-swap for the only one, a steal takes the first item
    at its compare-and-swap. *)

From stdpp Require Import prelude.
From Stdlib Require Import ZArith Lia.
From S2P Require Import Prelude Words FairLock McsLock Locked Linear Deque DequeSeq.
Local Open Scope Z_scope.

(** ** What is promised *)

Inductive deque_res := DDone (ok : bool) | DItem (x : option Z).

#[export] Instance deque_op_eq_dec : EqDecision deque_op.
Proof. solve_decision. Defined.
#[export] Instance deque_res_eq_dec : EqDecision deque_res.
Proof. solve_decision. Defined.

(** The list with two ends. *)
Definition two_ended (q : list Z) (o : deque_op) : deque_res * list Z :=
  match o with
  | DPush x => (DDone true, q ++ [x])
  | DPop => (DItem (last q), take (length q - 1) q)
  | DSteal => (DItem (head q), tail q)
  end.

Definition deque_refused (r : deque_res) : bool :=
  match r with DDone false | DItem None => true | _ => false end.
Abbreviation weak_deque := (weak_step two_ended deque_refused).

(** ** Calls *)

Abbreviation deque_event := (lk_event deque_op deque_res).

(** What an access is for the call that makes it: [d] is the deque before the access
    and [es] what [Deque] shows of it. *)
Definition deque_calls_of (d : nkit_deque_t) (u : nat) (pc pc' : dq_pc) (es : list dq_event) : list deque_event :=
  match pc, pc', es with
  | DqPushPublish _ x, _, _ => [Applied u (DPush x) (DDone true); Returned u (DDone true)]
  | DqPushAgain f, _, [PushFailed] => [Applied u (DPush (pf_data f)) (DDone false); Returned u (DDone false)]
  | DqPopTop b a, DqPopRead _ _ false, _ => [Applied u DPop (DItem (array_get d a b))]
  | DqPopTop _ _, DqPopRestore _ _, _ => [Applied u DPop (DItem None)]
  | DqPopCas _ _, DqPopRestore _ res, _ => [Applied u DPop (DItem res)]
  | DqPopRead _ _ false, _, [Popped _ x] => [Returned u (DItem (Some x))]
  | DqPopRestore _ res, _, _ => [Returned u (DItem res)]
  | DqStealBottom _, _, [Nothing _] | DqStealCas _ _, _, [Nothing _] =>
      [Applied u DSteal (DItem None); Returned u (DItem None)]
  | DqStealCas _ _, _, [Stolen _ x] => [Applied u DSteal (DItem (Some x)); Returned u (DItem (Some x))]
  | _, _, _ => []
  end.

(** The deque's steps, shown as calls. *)
Definition dl_step (s : dq_state) (l : dq_label) : option (dq_state * list deque_event) :=
  match dq_step s l with
  | None => None
  | Some (s', es) =>
      Some (s',
        match l with
        | DqPush u x => [Called u (DPush x)]
        | DqPop u => [Called u DPop]
        | DqSteal u => [Called u DSteal]
        | DqAdvance u _ =>
            match dqs_threads s !! u, dqs_threads s' !! u with
            | Some pc, Some pc' => deque_calls_of (dqs_deque s) u pc pc' es
            | _, _ => []
            end
        end)
  end.

(** ** The invariant *)

(** Where a call is; [r] is what the owner has taken. *)
Definition dq_status (r : list Z) (pc : dq_pc) : call_status (O:=deque_op) (R:=deque_res) :=
  match pc with
  | DqIdle => CsIdle
  | DqPushBottom x | DqPushTop _ x | DqPushStore _ _ x | DqPushPublish _ x => CsCalled (DPush x)
  | DqPushArray f | DqPushAgain f | DqGrowBottom f | DqGrowTop f _ | DqGrowArray f _ _ | DqGrowAlloc f _ _ _
  | DqGrowCopy f _ _ _ _ | DqGrowPublish f _ _ | DqGrowRetire f _ => CsCalled (DPush (pf_data f))
  | DqPopRead _ _ false => CsApplied (DItem (head r))
  | DqPopRestore _ res => CsApplied (DItem res)
  | DqPopBottom | DqPopArray _ | DqPopStore _ _ | DqPopTop _ _ | DqPopRead _ _ true | DqPopCas _ _ => CsCalled DPop
  | DqStealTop | DqStealBottom _ | DqStealArray _ | DqStealRead _ _ | DqStealCas _ _ => CsCalled DSteal
  end.

Definition dl_inv (ow n : nat) (es : list deque_event) (s : dq_state) : Prop :=
  Z.of_nat n < 2 ^ 30 →
  ∃ pc c r sz, dq_inv ow (Z.of_nat n) s pc c r sz ∧ run weak_deque [] (effects es) = Some c ∧
    (∀ t pct, dqs_threads s !! t = Some pct → history t es = Some (dq_status r pct)) ∧
    (∀ t, dqs_threads s !! t = None → history t es = Some CsIdle).

(** What a thief's call knows does not depend on the owner's hands. *)
Lemma thief_status d c p pcu r r' : thief_ok d c p pcu → dq_status r pcu = dq_status r' pcu.
Proof. by destruct pcu. Qed.

(** A step as its own call and the list see it. *)
Definition dl_ok (u : nat) (c r : list Z) (pc : dq_pc) (c' r' : list Z) (pc' : dq_pc) (ce : list deque_event) : Prop :=
  run (status_step no_reject u) (dq_status r pc) ce = Some (dq_status r' pc') ∧
  run weak_deque c (effects ce) = Some c'.

Lemma dl_ok_same u c r pc pc' : dq_status r pc' = dq_status r pc → dl_ok u c r pc c r pc' [].
Proof. intros E. split; cbn; by rewrite ?E. Qed.

(** Nothing in the owner's hands afterwards: the items are where they were. *)
Lemma still ow c r es c' r' :
  item_moves ow c r es c' r' → es = [] ∨ es = [PushFailed] → r' = [] → c' = c ∧ r' = r.
Proof.
  intros [(_ & _ & [?|(x & _ & _ & ->)])|[(x & -> & _)|(x & -> & _)]] He Hr; try done; naive_solver.
Qed.

Lemma last_take {A} (l : list A) x : last (l ++ [x]) = Some x ∧ take (length (l ++ [x]) - 1) (l ++ [x]) = l.
Proof.
  rewrite last_snoc, length_app. cbn. rewrite Nat.add_sub. split; [done|]. rewrite take_app_le by lia. by apply take_ge.
Qed.

Lemma weak_pop c x : weak_deque (c ++ [x]) (DPop, DItem (Some x)) = Some c.
Proof. destruct (last_take c x) as [E1 E2]. apply weak_step_done; [done|]. cbn [two_ended]. by rewrite E1, E2. Qed.

(** ** One step *)

(** The contents and the owner's hands after a step, with what its call has seen. *)
Definition owner_lin (ow : nat) (n : Z) (s : dq_state) (pc : dq_pc) (c r : list Z)
    (d' : nkit_deque_t) (pc' : dq_pc) (es : list dq_event) : Prop :=
  ∃ c' r' sz', dq_inv ow (n + 1) (mk_dqs d' (<[ow := pc']> (dqs_threads s))) pc' c' r' sz' ∧
    dl_ok ow c r pc c' r' pc' (deque_calls_of (dqs_deque s) ow pc pc' es).

Lemma push_lin ow n s pc c r sz ok d' pc' es :
  dq_inv ow n s pc c r sz → n < 2 ^ 30 → push_step (dqs_deque s) pc ok = Some (d', pc', es) →
  owner_lin ow n s pc c r d' pc' es.
Proof.
  intros I Hn Hs. destruct (owner_push_step ow n s pc c r sz ok d' pc' es I Hn Hs) as (c' & r' & sz' & I' & Hm).
  exists c', r', sz'. split; [done|]. pose proof (iv_owner _ _ _ _ _ _ _ I) as Hown.
  pose proof (iv_owner _ _ _ _ _ _ _ I') as Hown'. cbn [dqs_deque] in Hown'.
  assert (Hr' : r' = []) by (destruct pc; cbn [push_step] in Hs; try done; repeat case_match; simplify_eq; cbn in Hown'; tauto).
  assert (Hes : (es = [] ∨ es = [PushFailed]) ∨ ∃ b x, pc = DqPushPublish b x)
    by (destruct pc; cbn [push_step] in Hs; try done; repeat case_match; simplify_eq; eauto).
  destruct Hes as [Hes|(b & x & ->)].
  - destruct (still _ _ _ _ _ _ Hm Hes Hr') as [-> ->].
    destruct pc; cbn [push_step] in Hs; try done; repeat case_match; simplify_eq; try (by apply dl_ok_same);
      try (by destruct Hes). split; cbn; by rewrite ?decide_True by done.
  - cbn [push_step] in Hs. simplify_eq.
    destruct Hm as [(Hp & _)|[(y & [= <-] & -> & _)|(y & [=] & _)]]; [done|].
    split; cbn; rewrite ?decide_True by done; done.
Qed.

Lemma pop_lin ow n s pc c r sz d' pc' es :
  dq_inv ow n s pc c r sz → pop_step (dqs_deque s) ow pc = Some (d', pc', es) → owner_lin ow n s pc c r d' pc' es.
Proof.
  intros I Hs. destruct (owner_pop_step ow n s pc c r sz d' pc' es I Hs) as (c' & r' & sz' & I' & Hm).
  exists c', r', sz'. split; [done|]. pose proof (iv_owner _ _ _ _ _ _ _ I) as Hown.
  pose proof (iv_owner _ _ _ _ _ _ _ I') as Hown'. cbn [dqs_deque] in Hown'.
  pose proof (λ H, still _ _ _ _ _ _ Hm (or_introl H)) as Hstill.
  destruct pc as [| | | | | | | | | | | | | | |b|b a|b a|b a last|b x|b res| | | | |]; cbn [pop_step] in Hs; try done.
  - simplify_eq. destruct (Hstill eq_refl ltac:(cbn in Hown'; tauto)) as [-> ->]. by apply dl_ok_same.
  - simplify_eq. destruct (Hstill eq_refl ltac:(cbn in Hown'; tauto)) as [-> ->]. by apply dl_ok_same.
  - simplify_eq. destruct (Hstill eq_refl ltac:(cbn in Hown'; tauto)) as [-> ->]. by apply dl_ok_same.
  - cbn in Hown. destruct Hown as (-> & _). destruct (Z.leb_spec (dq_top (dqs_deque s)) b).
    + destruct (dq_top (dqs_deque s) =? b) eqn:E; simplify_eq.
      * destruct (Hstill eq_refl ltac:(cbn in Hown'; tauto)) as [-> ->]. by apply dl_ok_same.
      * cbn in Hown'. destruct Hown' as (_ & _ & x & -> & Hx).
        destruct Hm as [(_ & _ & [[_ [=]]|(y & _ & -> & [= <-])])|[(y & [=] & _)|(y & [=] & _)]].
        split; cbn; rewrite Hx, ?decide_True by done; [done|]. by rewrite weak_pop.
    + simplify_eq. cbn in Hown'. destruct (Hstill eq_refl ltac:(tauto)) as [-> ->].
      split; cbn; by rewrite ?decide_True by done.
  - destruct (array_get _ a b) as [x|] eqn:Hx; [|done]. destruct last; simplify_eq.
    + destruct (Hstill eq_refl ltac:(cbn in Hown'; tauto)) as [-> ->]. by apply dl_ok_same.
    + cbn in Hown. destruct Hown as (_ & _ & y & -> & Hy). simplify_eq.
      destruct Hm as [(_ & [=] & _)|[(z & [=] & _)|(z & [= <-] & _ & -> & ->)]].
      split; cbn; by rewrite ?decide_True by done.
  - cbn in Hown. destruct Hown as (-> & _). destruct (_ =? b); simplify_eq; cbn in Hown'.
    + destruct Hown' as (-> & _ & ->).
      destruct Hm as [(_ & _ & [[_ [=]]|(y & _ & -> & [= <-])])|[(y & [=] & _)|(y & [=] & _)]].
      split; cbn; by rewrite ?decide_True by done.
    + destruct (Hstill eq_refl ltac:(tauto)) as [-> ->]. split; cbn; by rewrite ?decide_True by done.
  - cbn in Hown. destruct Hown as (-> & _ & ->). simplify_eq. cbn in Hown'. subst r'.
    assert (Ec : c' = []).
    { destruct res as [x|]; destruct Hm as [(_ & _ & [[-> _]|(y & _ & E & _)])|[(y & [=] & _)|(y & _ & _ & -> & _)]]; try done;
        by apply app_cons_not_nil in E. }
    subst c'. split; cbn; by rewrite ?decide_True by done.
Qed.

Lemma steal_lin ow n s pc c r sz u pcu d' pcu' es :
  dq_inv ow n s pc c r sz → u ≠ ow → dqs_threads s !! u = Some pcu →
  steal_step (dqs_deque s) u pcu = Some (d', pcu', es) →
  ∃ c', dq_inv ow n (mk_dqs d' (<[u := pcu']> (dqs_threads s))) pc c' r sz ∧
    dl_ok u c r pcu c' r pcu' (deque_calls_of (dqs_deque s) u pcu pcu' es).
Proof.
  intros I Hne Hu Hs. destruct (thief_step ow n s pc c r sz I u pcu d' pcu' es Hne Hu Hs) as (c' & I' & Hc & _).
  exists c'. split; [done|].
  destruct pcu; cbn [steal_step] in Hs; try done; repeat case_match; simplify_eq/=; try (by apply dl_ok_same);
    split; cbn; by rewrite ?decide_True by done.
Qed.

(** The calls of other threads. *)
Lemma calls_thread d u pc pc' es : Forall (event_of u) (deque_calls_of d u pc pc' es).
Proof. unfold deque_calls_of. repeat case_match; by repeat constructor. Qed.

(** Thread [u] moves; the owner's hands change only by its own step. *)
Lemma dl_moves ow n es s pc c r sz u pcu pcu' d' pc1 c1 r1 sz1 ce :
  dq_inv ow (Z.of_nat n) s pc c r sz → dqs_threads s !! u = Some pcu →
  run weak_deque [] (effects es) = Some c →
  (∀ t pct, dqs_threads s !! t = Some pct → history t es = Some (dq_status r pct)) →
  (∀ t, dqs_threads s !! t = None → history t es = Some CsIdle) →
  dq_inv ow (Z.of_nat (S n)) (mk_dqs d' (<[u := pcu']> (dqs_threads s))) pc1 c1 r1 sz1 →
  (r1 = r ∨ u = ow) → Forall (event_of u) ce → dl_ok u c r pcu c1 r1 pcu' ce →
  dl_inv ow (S n) (es ++ ce) (mk_dqs d' (<[u := pcu']> (dqs_threads s))).
Proof.
  intros I Hu Hq Hst Hnone I' Hr Hev [Hown Hown'] _. pose proof (lookup_lt_Some _ _ _ Hu) as Hlt.
  exists pc1, c1, r1, sz1. split; [done|]. cbn [dqs_threads]. split_and!.
  - by rewrite effects_app, run_app, Hq.
  - intros t pct Ht. rewrite lookup_insert_decide in Ht by done. case_decide as E; simplify_eq.
    + by apply (history_own _ _ _ _ _ (Hst _ _ Hu)).
    + apply (history_other _ u); [|done|done]. rewrite (Hst t pct Ht). destruct Hr as [-> | ->]; [done|].
      f_equal. eapply thief_status. by apply (iv_thieves _ _ _ _ _ _ _ I t).
  - intros t Ht. rewrite lookup_insert_decide in Ht by done. case_decide; [done|].
    by apply (history_other _ u); auto.
Qed.

Lemma dl_inv_step ow n es s l s' ce :
  respects ow l → dl_inv ow n es s → dl_step s l = Some (s', ce) → dl_inv ow (S n) (es ++ ce) s'.
Proof.
  intros Hl L Hs Hn. destruct L as (pc & c & r & sz & I & Hq & Hst & Hnone); [lia|].
  assert (Hmono : ∀ s' pc' c' r' sz', dq_inv ow (Z.of_nat n) s' pc' c' r' sz' → dq_inv ow (Z.of_nat (S n)) s' pc' c' r' sz')
    by (intros; eapply dq_inv_mono; [done|lia]).
  assert (Hidle : dqs_threads s !! ow = Some DqIdle → pc = DqIdle ∧ r = []).
  { rewrite (iv_pc _ _ _ _ _ _ _ I). intros [= ->]. split; [done|]. apply (iv_owner _ _ _ _ _ _ _ I). }
  unfold dl_step in Hs. destruct (dq_step s l) as [[s1 es1]|] eqn:E; [|done]. injection Hs as -> <-.
  destruct l as [u x|u|u|u ok]; cbn [dq_step respects] in E, Hl; destruct (dqs_threads s !! u) as [pcu|] eqn:Hu; try done.
  - destruct pcu; simplify_eq. destruct (Hidle Hu) as [-> ->].
    eapply (dl_moves _ _ _ _ _ _ _ _ _ DqIdle); eauto; [|by repeat constructor|split; cbn; by rewrite ?decide_True by done].
    apply Hmono. by apply (owner_local _ _ _ _ _ _ _ I); auto.
  - destruct pcu; simplify_eq. destruct (Hidle Hu) as [-> ->].
    eapply (dl_moves _ _ _ _ _ _ _ _ _ DqIdle); eauto; [|by repeat constructor|split; cbn; by rewrite ?decide_True by done].
    apply Hmono. by apply (owner_local _ _ _ _ _ _ _ I); auto.
  - destruct pcu; simplify_eq.
    eapply (dl_moves _ _ _ _ _ _ _ _ _ DqIdle); eauto; [|by repeat constructor|split; cbn; by rewrite ?decide_True by done].
    apply Hmono. by apply (thief_local _ _ _ _ _ _ _ I u DqIdle).
  - assert (Hlk : ∀ d' pc', dqs_threads (mk_dqs d' (<[u := pc']> (dqs_threads s))) !! u = Some pc')
      by (intros; apply list_lookup_insert_eq; by eapply lookup_lt_Some).
    destruct (decide (u = ow)) as [->|Hne].
    + rewrite (iv_pc _ _ _ _ _ _ _ I) in Hu. simplify_eq.
      assert (Hgo : ∀ d1 pc1, owner_lin ow (Z.of_nat n) s pcu c r d1 pc1 es1 →
        dl_inv ow (S n) (es ++ deque_calls_of (dqs_deque s) ow pcu pc1 es1) (mk_dqs d1 (<[ow := pc1]> (dqs_threads s)))).
      { intros d1 pc1 (c1 & r1 & sz1 & I1 & Hok). replace (Z.of_nat n + 1) with (Z.of_nat (S n)) in I1 by lia.
        eapply dl_moves; [exact I|exact (iv_pc _ _ _ _ _ _ _ I)|done..|exact I1|by right|apply calls_thread|done]. }
      destruct (push_step (dqs_deque s) pcu ok) as [[[d1 pc1] es2]|] eqn:E1.
      { simplify_eq. rewrite Hlk. apply Hgo; [by eapply push_lin; [..|exact E1]; [done|lia]|done]. }
      destruct (pop_step (dqs_deque s) ow pcu) as [[[d1 pc1] es2]|] eqn:E2.
      { simplify_eq. rewrite Hlk. apply Hgo; [by eapply pop_lin|done]. }
      pose proof (iv_owner _ _ _ _ _ _ _ I) as Hown. by destruct pcu.
    + pose proof (iv_thieves _ _ _ _ _ _ _ I u pcu Hne Hu) as Hth.
      destruct (thief_pc_steals _ _ _ _ ok u Hth) as [E1 E2]. rewrite E1, E2 in E.
      destruct (steal_step (dqs_deque s) u pcu) as [[[d1 pc1] es2]|] eqn:E3; simplify_eq. rewrite Hlk.
      destruct (steal_lin ow _ s pc c r sz u pcu d1 pc1 es1 I Hne Hu E3) as (c' & I' & Hok).
      eapply dl_moves; [exact I|exact Hu|done..|by apply Hmono|by left|apply calls_thread|done|done].
Qed.

(** ** Answers *)

(** A pop that has lowered [bottom] and not decided yet. *)
Definition deciding (pc : dq_pc) : bool :=
  match pc with DqPopTop _ _ | DqPopRead _ _ true | DqPopCas _ _ => true | _ => false end.

(** When a call of thread [u] may be refused: its array is full and has not been
    replaced by a larger one; the owner is deciding about the last item; another
    thread has taken the item it was after. *)
Definition excused (ow : nat) (s : dq_state) (u : nat) : Prop :=
  (∃ f size, dqs_threads s !! u = Some (DqPushAgain f) ∧
     array_size (dqs_deque s) (dq_array (dqs_deque s)) = Some size ∧ size ≤ pf_b f - pf_t f) ∨
  (∃ pc, u ≠ ow ∧ dqs_threads s !! ow = Some pc ∧ deciding pc = true) ∨
  (∃ t x, dqs_threads s !! u = Some (DqStealCas t x) ∧ t < dq_top (dqs_deque s)).

(** A step takes one effect at most. *)
Lemma one_deque_effect d u pc pc' es v o res :
  Applied v o res ∈ deque_calls_of d u pc pc' es → effects (deque_calls_of d u pc pc' es) = [(o, res)] ∧ v = u.
Proof.
  unfold deque_calls_of. intros Hin. repeat case_match;
    repeat (apply elem_of_cons in Hin as [[=]|Hin]); simplify_eq; try (by apply not_elem_of_nil in Hin); done.
Qed.

(** The owner's refusals. *)
Lemma owner_refusal ow n s pc c r sz d' pc' es ok o res :
  dq_inv ow n s pc c r sz →
  (push_step (dqs_deque s) pc ok = Some (d', pc', es) ∨ pop_step (dqs_deque s) ow pc = Some (d', pc', es)) →
  Applied ow o res ∈ deque_calls_of (dqs_deque s) ow pc pc' es → deque_refused res = true →
  (two_ended c o).1 = res ∨ excused ow s ow.
Proof.
  intros I Hs Hin Hr. pose proof (iv_pc _ _ _ _ _ _ _ I) as Hpc. pose proof (iv_owner _ _ _ _ _ _ _ I) as Hown.
  pose proof (iv_limit _ _ _ _ _ _ _ I) as Hlim. pose proof (cur_live _ _ _ _ _ _ _ I) as (arr & Hlive & _).
  assert (Hempty : Z.of_nat (length c) ≤ 0 → c = []) by (destruct c; cbn; [done|lia]).
  destruct pc; cbn [push_step pop_step] in Hs; destruct Hs as [Hs|Hs]; try done;
    try (repeat case_match; simplify_eq; by apply not_elem_of_nil in Hin).
  - destruct (array_size _ _) as [size|] eqn:Hsz; [|done]. destruct (Z.leb_spec size (pf_b f - pf_t f)); simplify_eq; cbn in Hin.
    + right. left. exists f, size. done.
    + by apply not_elem_of_nil in Hin.
  - simplify_eq. cbn in Hin. repeat (apply elem_of_cons in Hin as [[=]|Hin]); simplify_eq; by apply not_elem_of_nil in Hin.
  - cbn in Hown, Hlim. destruct Hown as (_ & Hb & ->).
    destruct (Z.leb_spec (dq_top (dqs_deque s)) b) as [Hle|Hgt]; [destruct (dq_top (dqs_deque s) =? b)|]; simplify_eq; cbn in Hin.
    + by apply not_elem_of_nil in Hin.
    + apply list_elem_of_singleton in Hin. simplify_eq.
      destruct (array_get_live _ _ _ (dq_bottom (dqs_deque s)) Hlive) as [x Hx]. by rewrite Hx in Hr.
    + apply list_elem_of_singleton in Hin. simplify_eq. left. by rewrite Hempty by lia.
  - destruct (array_get _ a b) as [x|]; [|done]. destruct last0; simplify_eq; cbn in Hin.
    + by apply not_elem_of_nil in Hin.
    + by apply list_elem_of_singleton in Hin.
  - cbn in Hown, Hlim. destruct Hown as (_ & Hb & Hle & _).
    destruct (Z.eqb_spec (dq_top (dqs_deque s)) b); simplify_eq; cbn in Hin; apply list_elem_of_singleton in Hin; simplify_eq.
    left. by rewrite Hempty by lia.
  - simplify_eq. cbn in Hin. by apply list_elem_of_singleton in Hin.
Qed.

(** A thief's refusals. *)
Lemma thief_refusal ow n s pc c r sz u pcu d' pcu' es o res :
  dq_inv ow n s pc c r sz → u ≠ ow → dqs_threads s !! u = Some pcu →
  steal_step (dqs_deque s) u pcu = Some (d', pcu', es) →
  Applied u o res ∈ deque_calls_of (dqs_deque s) u pcu pcu' es → deque_refused res = true →
  (two_ended c o).1 = res ∨ excused ow s u.
Proof.
  intros I Hne Hu Hs Hin Hr. pose proof (iv_pc _ _ _ _ _ _ _ I) as Hpc. pose proof (iv_owner _ _ _ _ _ _ _ I) as Hown.
  pose proof (iv_limit _ _ _ _ _ _ _ I) as Hlim. pose proof (iv_thieves _ _ _ _ _ _ _ I u pcu Hne Hu) as Hok.
  destruct pcu as [| | | | | | | | | | | | | | | | | | | | | |t|t|t a|t x]; cbn [steal_step] in Hs; try done;
    try (repeat case_match; simplify_eq; by apply not_elem_of_nil in Hin).
  - destruct (Z.ltb_spec t (dq_bottom (dqs_deque s))); simplify_eq; cbn in Hin; [by apply not_elem_of_nil in Hin|].
    repeat (apply elem_of_cons in Hin as [[=]|Hin]); simplify_eq; try (by apply not_elem_of_nil in Hin). cbn in Hok.
    destruct (deciding pc) eqn:Hd; [right; right; left; by exists pc|]. left.
    assert (Hc : c = []); [|by rewrite Hc].
    destruct pc as [| | | | | | | | | | | | | | | | | |? ? []| | | | | | |]; cbn in Hd, Hlim, Hown; try done;
      try (destruct c; cbn in Hlim; [done|lia]). tauto.
  - destruct (Z.eqb_spec (dq_top (dqs_deque s)) t); simplify_eq; cbn in Hin;
      repeat (apply elem_of_cons in Hin as [[=]|Hin]); simplify_eq; try (by apply not_elem_of_nil in Hin).
    cbn in Hok. right. right. right. exists t, x. split; [done|lia].
Qed.

Lemma dl_answers ow n s pc c r sz l s' ce u o res :
  dq_inv ow n s pc c r sz → n < 2 ^ 30 → respects ow l → dl_step s l = Some (s', ce) → Applied u o res ∈ ce →
  (two_ended c o).1 = res ∨ (deque_refused res = true ∧ excused ow s u).
Proof.
  intros I Hn Hl Hs Hin. unfold dl_step in Hs. destruct (dq_step s l) as [[s1 es]|] eqn:E; [|done]. injection Hs as -> <-.
  destruct l as [v x|v|v|v ok]; try (by apply list_elem_of_singleton in Hin). cbn [dq_step] in E.
  destruct (dqs_threads s !! v) as [pcv|] eqn:Hv; [|done].
  assert (Hlk : ∀ d' pc', dqs_threads (mk_dqs d' (<[v := pc']> (dqs_threads s))) !! v = Some pc')
    by (intros; apply list_lookup_insert_eq; by eapply lookup_lt_Some).
  assert (Hgo : ∀ pc' c' r', dl_ok v c r pcv c' r' pc' (deque_calls_of (dqs_deque s) v pcv pc' es) →
    Applied u o res ∈ deque_calls_of (dqs_deque s) v pcv pc' es →
    (u = v → deque_refused res = true → (two_ended c o).1 = res ∨ excused ow s v) →
    (two_ended c o).1 = res ∨ (deque_refused res = true ∧ excused ow s u)).
  { intros pc' c' r' [_ Hw] Hin' Href. destruct (one_deque_effect _ _ _ _ _ _ _ _ Hin') as [He ->].
    destruct (deque_refused res) eqn:Hr; [destruct (Href eq_refl eq_refl); auto|]. left.
    rewrite He in Hw. cbn [run] in Hw. destruct (weak_deque c (o, res)) as [c''|] eqn:Ew; [|done].
    by apply (weak_step_answer two_ended deque_refused c o res c''). }
  destruct (decide (v = ow)) as [->|Hne].
  - rewrite (iv_pc _ _ _ _ _ _ _ I) in Hv. simplify_eq.
    destruct (push_step (dqs_deque s) pcv ok) as [[[d1 pc1] es1]|] eqn:E1.
    { simplify_eq. rewrite Hlk in Hin. destruct (push_lin _ _ _ _ _ _ _ _ _ _ _ I Hn E1) as (c' & r' & sz' & _ & Hok).
      apply (Hgo _ _ _ Hok Hin). intros -> Hr. by eapply (owner_refusal _ _ _ _ _ _ _ _ _ _ ok); eauto. }
    destruct (pop_step (dqs_deque s) ow pcv) as [[[d1 pc1] es1]|] eqn:E2.
    { simplify_eq. rewrite Hlk in Hin. destruct (pop_lin _ _ _ _ _ _ _ _ _ _ I E2) as (c' & r' & sz' & _ & Hok).
      apply (Hgo _ _ _ Hok Hin). intros -> Hr. by eapply (owner_refusal _ _ _ _ _ _ _ _ _ _ ok); eauto. }
    pose proof (iv_owner _ _ _ _ _ _ _ I) as Hown. by destruct pcv.
  - pose proof (iv_thieves _ _ _ _ _ _ _ I v pcv Hne Hv) as Hth.
    destruct (thief_pc_steals _ _ _ _ ok v Hth) as [E1 E2]. rewrite E1, E2 in E.
    destruct (steal_step (dqs_deque s) v pcv) as [[[d1 pc1] es1]|] eqn:E3; simplify_eq. rewrite Hlk in Hin.
    destruct (steal_lin _ _ _ _ _ _ _ _ _ _ _ _ I Hne Hv E3) as (c' & _ & Hok).
    apply (Hgo _ _ _ Hok Hin). intros -> Hr. by eapply thief_refusal.
Qed.

(** ** Properties *)

Lemma dl_run ow node k listed n sched s es :
  0 ≤ k ≤ 31 → (ow < n)%nat → Forall (respects ow) sched →
  traced dl_step (dq_start node (2 ^ k) listed n) sched = Some (s, es) → dl_inv ow (length sched) es s.
Proof.
  intros Hk How Hresp Hr. refine (traced_invariant_on dl_step (respects ow) (dl_inv ow) _ _ _ sched s es Hresp Hr).
  - intros _. destruct (dq_start_good ow node k listed n Hk How) as (pc & c & r & sz & I & Hp).
    apply Permutation_nil_l in Hp. symmetry in Hp. apply app_eq_nil in Hp as [-> ->].
    exists pc, [], [], sz. split; [done|]. split; [done|]. split; [|done]. by intros t pct [-> _]%lookup_replicate.
  - intros n0 es0 s0 l s1 es1. apply dl_inv_step.
Qed.

(** C6. The deque is linearizable, refusals apart.  With one owner that pushes and pops
    and any number of thieves, in every interleaving of fewer than 2^30 steps, through
    any number of resizes and failed allocations, the calls act on one list: pushes
    append to it, pops take its last item, steals its first, each at one moment
    between the call's beginning and its end, and the call returns what it took.  So
    nothing is lost or taken twice.  Pops always give the list's answer.  A push is
    refused only when its array is full and could not be replaced; a steal only when
    the list is empty, when the owner is deciding about the last item, or when another
    thread took the item it was after.  When the owner is outside any call,
    [nkit_deque_size] is the length of the list. *)
Theorem deque_linearizable ow node k listed n sched s es :
  0 ≤ k ≤ 31 → (ow < n)%nat → Forall (respects ow) sched → Z.of_nat (length sched) < 2 ^ 30 →
  traced dl_step (dq_start node (2 ^ k) listed n) sched = Some (s, es) →
  ∃ q, run weak_deque [] (effects es) = Some q ∧
    (∀ t, is_Some (history t es)) ∧
    (∀ l s' es' u o res, respects ow l → dl_step s l = Some (s', es') → Applied u o res ∈ es' →
       (two_ended q o).1 = res ∨ (deque_refused res = true ∧ excused ow s u)) ∧
    (dqs_threads s !! ow = Some DqIdle → nkit_deque_size (dqs_deque s) = Z.of_nat (length q)).
Proof.
  intros Hk How Hresp Hlen Hr.
  destruct (dl_run ow node k listed n sched s es Hk How Hresp Hr Hlen) as (pc & c & r & sz & I & Hq & Hst & Hnone).
  exists c. split; [done|]. split_and!.
  - intros t. destruct (dqs_threads s !! t) as [pct|] eqn:Ht; [by rewrite (Hst t pct Ht)|by rewrite (Hnone t Ht)].
  - intros l s' es' u o res Hl Hs Hin. by apply (dl_answers ow _ s pc c r sz l s' es' u o res I).
  - intros Hidle. apply (good_size ow (Z.of_nat (length sched)) s c); [|done|done].
    exists pc, c, r, sz. split; [done|]. rewrite (iv_pc _ _ _ _ _ _ _ I) in Hidle. simplify_eq.
    pose proof (iv_owner _ _ _ _ _ _ _ I) as Hown. cbn in Hown. by rewrite Hown.
Qed.

(** The owner is deciding about the only item when a thief looks and finds nothing;
    another thief, which looked before, takes it. *)
Definition demo_last_item : list dq_label :=
  plain_push 0 7 ++ (DqSteal 1 :: solo 1 4) ++ (DqPop 0 :: solo 0 5) ++ (DqSteal 2 :: solo 2 2) ++ solo 1 1 ++ solo 0 2.

Lemma deque_linearizable_witness :
  match traced dl_step (dq_start 0 (2 ^ 1) true 3) demo_last_item with
  | Some (s, es) =>
      effects es = [(DPush 7, DDone true); (DSteal, DItem None); (DSteal, DItem (Some 7)); (DPop, DItem None)] ∧
      ∃ q, run weak_deque [] (effects es) = Some q ∧ q = [] ∧ nkit_deque_size (dqs_deque s) = 0
  | None => False
  end.
Proof.
  destruct (traced _ _ _) as [[s es]|] eqn:E; [|by vm_compute in E].
  destruct (deque_linearizable 0 0 1 true 3 demo_last_item s es ltac:(lia) ltac:(lia)
    ltac:(apply (bool_decide_unpack _); by vm_compute) ltac:(by vm_compute) E) as (q & Hq & _ & _ & Hsize).
  assert (He : effects es = [(DPush 7, DDone true); (DSteal, DItem None); (DSteal, DItem (Some 7)); (DPop, DItem None)])
    by (vm_compute in E; by injection E as <- <-).
  split; [done|]. exists q. rewrite He in *. split; [done|]. vm_compute in Hq. injection Hq as <-. split; [done|].
  apply Hsize. vm_compute in E. by injection E as <- <-.
Defined.
