(* ===== verification/HashCode.v ===== *)
(** * The hash table's operations, one access at a time (src/structs/hash_table.c)

    The critical sections of [nkit_hash_put], [nkit_hash_get] and
    [nkit_hash_remove] as [code]: every read and write of the table's fields and of
    its buckets is an access.  Run without interruption they are the functions of
    [HashTable]; and [count] is written by their last access only, so that
    [nkit_hash_count], which takes no lock, never sees it out of step. *)

From stdpp Require Import prelude gmap.
From Stdlib Require Import ZArith Lia.
From S2P Require Import Prelude Words Arena Ring FairLock McsLock Locked LockedCode HashTable RobinHood HashMap.
Local Open Scope Z_scope.
Local Open Scope word_scope.
Local Open Scope code_scope.

(** ** Accesses *)

Abbreviation hcode := (code arena_os nkit_hash_t).

Definition set_buckets (bs : list nkit_bucket_t) (ht : nkit_hash_t) : nkit_hash_t :=
  mk_hash bs (ht_capacity ht) (ht_mask ht) (ht_count ht) (ht_arena ht) (ht_node_id ht).
Definition set_capacity (n : Z) (ht : nkit_hash_t) : nkit_hash_t :=
  mk_hash (ht_buckets ht) n (ht_mask ht) (ht_count ht) (ht_arena ht) (ht_node_id ht).
Definition set_mask (n : Z) (ht : nkit_hash_t) : nkit_hash_t :=
  mk_hash (ht_buckets ht) (ht_capacity ht) n (ht_count ht) (ht_arena ht) (ht_node_id ht).
Definition set_arena (a : option nkit_arena_t) (ht : nkit_hash_t) : nkit_hash_t :=
  mk_hash (ht_buckets ht) (ht_capacity ht) (ht_mask ht) (ht_count ht) a (ht_node_id ht).

(** [ht->buckets[slot]], read and written: undefined outside the array. *)
Definition load_bucket (slot : Z) : hcode nkit_bucket_t :=
  Access (λ _ ht, match ht_buckets ht !! Z.to_nat slot with Some b => Some (b, ht) | None => None end) Done.
Definition store_bucket (slot : Z) (b : nkit_bucket_t) : hcode () :=
  Access (λ _ ht, match ht_buckets ht !! Z.to_nat slot with Some _ => Some (tt, set_bucket ht slot b) | None => None end) Done.

(** The new arena with the new bucket array in it, if the system has the memory;
    an arena that cannot hold the array is destroyed again. *)
Definition new_buckets (node sz : Z) : hcode (option (option nkit_arena_t)) :=
  Access (λ os ht,
    match nkit_arena_create os node sz with
    | (None, _) => Some (None, ht)
    | (Some a, _) =>
        match nkit_arena_alloc (Some a) sz with
        | (None, _) => Some (None, ht)
        | (Some _, a) => Some (Some a, ht)
        end
    end) Done.

(** ** Operations *)

Section operations.
Context (mem : Z → Z).

(** [_nkit_hash_put_internal] from the slot [slot] on. *)
Fixpoint put_code (fuel : nat) (is_rehash : bool) (cur : nkit_bucket_t) (slot dist : Z) : hcode Z :=
  match fuel with
  | O => stuck
  | S fuel =>
      b ← load_bucket slot;
      if b_hash b =? 0 then
        store_bucket slot cur;;
        if negb is_rehash then
          n ← load ht_count;
          store (λ ht, set_count ht (n +w 1));;
          Done 0
        else Done 0
      else if negb is_rehash && (b_hash b =? b_hash cur) &&
              keys_equal mem (b_key b) (b_key_len b) (b_key cur) (b_key_len cur) then
        store_bucket slot (mk_bucket (b_hash b) (b_key b) (b_key_len b) (b_value cur));;
        Done 0
      else
        mask ← load ht_mask;
        let existing_dist := probe_distance (b_hash b) slot mask in
        let next := Z.land (slot +w 1) mask in
        if existing_dist <? dist then
          store_bucket slot cur;;
          put_code fuel is_rehash b next (existing_dist +w 1)
        else put_code fuel is_rehash cur next (dist +w 1)
  end.

Definition put_internal_code (fuel : nat) (b : nkit_bucket_t) (is_rehash : bool) : hcode Z :=
  mask ← load ht_mask;
  put_code fuel is_rehash b (Z.land (b_hash b) mask) 0.

(** The loop over the old buckets of [_nkit_hash_resize]. *)
Fixpoint rehash_code (fuel : nat) (old : list nkit_bucket_t) : hcode () :=
  match old with
  | [] => Done tt
  | b :: old =>
      if negb (b_hash b =? 0) then put_internal_code fuel b true;; rehash_code fuel old
      else rehash_code fuel old
  end.

Definition resize_code : hcode () :=
  old_capacity ← load ht_capacity;
  old_buckets ← load ht_buckets;
  node_id ← load ht_node_id;
  let new_capacity := old_capacity *w 2 in
  r ← new_buckets node_id (sizeof_nkit_bucket_t *w new_capacity);
  match r with
  | None => Done tt
  | Some new_arena =>
      store (set_buckets (cleared_buckets new_capacity));;
      store (set_capacity new_capacity);;
      store (set_mask (new_capacity -w 1));;
      rehash_code (S (Z.to_nat new_capacity)) old_buckets;;
      store (set_arena new_arena);;
      Done tt
  end.

(** A loop over the table gets one turn per bucket and one more. *)
Definition put_body (key key_len value : Z) : hcode Z :=
  let hash := nkit_fnv1a mem key key_len in
  count ← load ht_count;
  capacity ← load ht_capacity;
  (if capacity *w NKIT_HASH_MAX_LOAD_NUM <=? count *w NKIT_HASH_MAX_LOAD_DEN then resize_code else Done tt);;
  buckets ← load ht_buckets;
  put_internal_code (S (length buckets)) (mk_bucket hash key key_len value) false.

(** The probe loop of get and remove. *)
Fixpoint find_code (fuel : nat) (hash key key_len slot dist : Z) : hcode (option Z) :=
  match fuel with
  | O => stuck
  | S fuel =>
      b ← load_bucket slot;
      mask ← load ht_mask;
      if b_hash b =? 0 then Done None
      else if probe_distance (b_hash b) slot mask <? dist then Done None
      else if (b_hash b =? hash) && keys_equal mem (b_key b) (b_key_len b) key key_len then Done (Some slot)
      else find_code fuel hash key key_len (Z.land (slot +w 1) mask) (dist +w 1)
  end.

Definition find_key_code (key key_len : Z) : hcode (option Z) :=
  let hash := nkit_fnv1a mem key key_len in
  buckets ← load ht_buckets;
  mask ← load ht_mask;
  find_code (S (length buckets)) hash key key_len (Z.land hash mask) 0.

Definition get_body (key key_len : Z) : hcode Z :=
  r ← find_key_code key key_len;
  match r with
  | None => Done NULL
  | Some slot => b ← load_bucket slot; Done (b_value b)
  end.

(** The backward shift: the slot that is left empty. *)
Fixpoint shift_code (fuel : nat) (empty : Z) : hcode Z :=
  match fuel with
  | O => stuck
  | S fuel =>
      mask ← load ht_mask;
      let next := Z.land (empty +w 1) mask in
      nb ← load_bucket next;
      if (b_hash nb =? 0) || (probe_distance (b_hash nb) next mask =? 0) then Done empty
      else store_bucket empty nb;; shift_code fuel next
  end.

Definition remove_body (key key_len : Z) : hcode Z :=
  r ← find_key_code key key_len;
  match r with
  | None => Done (-1)
  | Some slot =>
      buckets ← load ht_buckets;
      empty ← shift_code (S (length buckets)) slot;
      store_bucket empty empty_bucket;;
      n ← load ht_count;
      store (λ ht, set_count ht (n -w 1));;
      Done 0
  end.

(** What runs between lock and unlock; a count takes no lock. *)
Definition hash_body (o : hash_op) : hcode Z :=
  match o with
  | HPut key len v => put_body key len v
  | HGet key len => get_body key len
  | HRemove key len => remove_body key len
  | HCount => Done 0
  end.

Definition hash_look (o : hash_op) : option (nkit_hash_t → Z) :=
  match o with HCount => Some (λ ht, nkit_hash_count (Some ht)) | _ => None end.
End operations.

(** ** Run alone, the code is the functions *)

Section alone.
Context (mem : Z → Z) (c0 : Z).
Implicit Types (ht : nkit_hash_t).

(** The count has not changed yet. *)
Abbreviation counted := (λ ht, ht_count ht = c0).
Abbreviation wp := (cwp ArenaOS_ok counted).
Abbreviation returns r ht := (λ r0 ht0, r0 = r ∧ ht0 = ht).

Lemma wp_load_bucket {R} slot (g : nkit_bucket_t → hcode R) ht b Q :
  ht_buckets ht !! Z.to_nat slot = Some b → counted ht → wp (g b) ht Q → wp (cbind (load_bucket slot) g) ht Q.
Proof. intros Hb Hc Hg κ _. rewrite Hb. by split. Qed.

Lemma wp_store_bucket {R} slot b (c : hcode R) ht b' Q :
  ht_buckets ht !! Z.to_nat slot = Some b' → counted ht → wp c (set_bucket ht slot b) Q →
  wp (cbind (store_bucket slot b) (λ _, c)) ht Q.
Proof. intros Hb Hc Hg κ _. rewrite Hb. by split. Qed.

(** Code with one outcome, and what follows it. *)
Lemma wp_outcome {R} (c : hcode R) ht r ht1 (Q : R → nkit_hash_t → Prop) :
  wp c ht (returns r ht1) → Q r ht1 → wp c ht Q.
Proof. intros Hc Hq. revert Hc. apply cwp_weaken; [done|]. by intros r0 h0 [-> ->]. Qed.

Lemma wp_then {R R'} (c : hcode R) (f : R → hcode R') ht r ht1 Q :
  wp c ht (returns r ht1) → counted ht1 → wp (f r) ht1 Q → wp (cbind c f) ht Q.
Proof. intros Hc Hc1 Hf. apply cwp_bind. by apply (wp_outcome _ _ r ht1). Qed.

Lemma put_code_wp fuel re : ∀ ht cur slot dist r ht',
  counted ht → put_loop mem fuel ht re cur slot dist = Some (r, ht') →
  wp (put_code mem fuel re cur slot dist) ht (returns r ht').
Proof.
  induction fuel as [|fuel IH]; intros ht cur slot dist r ht' Hc Hp; [done|]. cbn [put_loop put_code] in *.
  destruct (ht_buckets ht !! Z.to_nat slot) as [b|] eqn:Hb; [|done].
  apply (wp_load_bucket _ _ _ b); [done..|]. destruct (b_hash b =? 0).
  - apply (wp_store_bucket _ _ _ _ b); [done..|]. injection Hp as <- <-. destruct (negb re); [|done].
    apply cwp_load; [done|]. by apply cwp_store.
  - destruct (negb re && (b_hash b =? b_hash cur) && _).
    + apply (wp_store_bucket _ _ _ _ b); [done..|]. by injection Hp as <- <-.
    + apply cwp_load; [done|]. destruct (_ <? dist); [|by apply IH].
      apply (wp_store_bucket _ _ _ _ b); [done..|]. by apply IH.
Qed.

Lemma put_internal_wp fuel ht b re r ht' :
  counted ht → nkit_hash_put_internal mem fuel ht (b_hash b) (b_key b) (b_key_len b) (b_value b) re = Some (r, ht') →
  wp (put_internal_code mem fuel b re) ht (returns r ht').
Proof. intros Hc Hp. apply cwp_load; [done|]. apply put_code_wp; [done|]. by destruct b. Qed.

(** Rehashing does not count. *)
Lemma put_loop_rehash_count fuel : ∀ ht cur slot dist r ht',
  put_loop mem fuel ht true cur slot dist = Some (r, ht') → ht_count ht' = ht_count ht.
Proof.
  induction fuel as [|fuel IH]; intros ht cur slot dist r ht' Hp; [done|]. cbn [put_loop negb andb] in Hp.
  destruct (ht_buckets ht !! Z.to_nat slot) as [b|]; [|done]. destruct (b_hash b =? 0); [by simplify_eq|].
  destruct (_ <? dist); apply IH in Hp; done.
Qed.

Lemma rehash_wp fuel old : ∀ ht ht',
  counted ht → rehash_loop mem fuel ht old = Some ht' → wp (rehash_code mem fuel old) ht (returns tt ht') ∧ counted ht'.
Proof.
  induction old as [|b old IH]; intros ht ht' Hc Hr; cbn [rehash_loop rehash_code] in *; [by simplify_eq|].
  destruct (negb (b_hash b =? 0)); [|by apply IH].
  destruct (nkit_hash_put_internal _ _ _ _ _ _ _ _) as [[r ht1]|] eqn:E1; [|done].
  assert (Hc1 : counted ht1) by (by rewrite (put_loop_rehash_count _ _ _ _ _ _ _ E1)).
  destruct (IH ht1 ht' Hc1 Hr) as [Hwp Hc']. split; [|done].
  apply (wp_then _ _ _ r ht1); [by apply put_internal_wp|done..].
Qed.

(** Growing: the kernel's answer is the one the access gets. *)
Lemma resize_wp ht (Q : () → nkit_hash_t → Prop) :
  counted ht → (∀ os, ArenaOS_ok os → ∃ ht' calls, nkit_hash_resize mem os ht = Some (ht', calls) ∧ Q tt ht') →
  wp (resize_code mem) ht Q.
Proof.
  intros Hc HQ. unfold resize_code. do 3 (apply cwp_load; [done|]). intros os Hos. destruct (HQ os Hos) as (ht' & calls & E & Hq).
  unfold nkit_hash_resize in E. destruct (nkit_arena_create os _ _) as [[a|] ?]; [|by simplify_eq].
  destruct (nkit_arena_alloc _ _) as [[p|] a']; [|by simplify_eq]. split; [done|].
  do 3 (apply cwp_store; [done|]).
  destruct (rehash_loop _ _ _ _) as [h1|] eqn:Er; [|done]. injection E as <- _.
  set (h0 := mk_hash _ _ _ _ _ _) in Er. destruct (rehash_wp _ _ h0 h1 Hc Er) as [Hwp Hc1]. apply (wp_then _ _ _ tt h1 _ Hwp Hc1). by apply cwp_store.
Qed.

Lemma put_wp ht key len v (Q : Z → nkit_hash_t → Prop) :
  counted ht → (key =? NULL) || (len =? 0) = false →
  (∀ os, ArenaOS_ok os → ∃ r ht', nkit_hash_put mem os (Some ht) key len v = Some (r, Some ht') ∧ Q r ht') →
  (∀ os ht' calls, ArenaOS_ok os → nkit_hash_resize mem os ht = Some (ht', calls) → counted ht') →
  wp (put_body mem key len v) ht Q.
Proof.
  intros Hc Hargs HQ Hres. unfold put_body. do 2 (apply cwp_load; [done|]).
  assert (Hrest : ∀ h r ht', counted h → nkit_hash_put_internal mem (S (length (ht_buckets h))) h
      (nkit_fnv1a mem key len) key len v false = Some (r, ht') → Q r ht' →
    counted h ∧ wp (cbind (load ht_buckets) (λ buckets, put_internal_code mem (S (length buckets))
      (mk_bucket (nkit_fnv1a mem key len) key len v) false)) h Q).
  { intros h r ht' Hh Hp Hq. split; [done|]. apply cwp_load; [done|].
    apply (wp_outcome _ _ r ht'); [by apply put_internal_wp|done]. }
  unfold nkit_hash_put in HQ. rewrite Hargs in HQ. apply cwp_bind.
  destruct (_ <=? _).
  - apply resize_wp; [done|]. intros os Hos. destruct (HQ os Hos) as (r & ht' & E & Hq).
    destruct (nkit_hash_resize mem os ht) as [[h calls]|] eqn:Er; [|done]. exists h, calls. split; [done|].
    destruct (nkit_hash_put_internal _ _ _ _ _ _ _ _) as [[r1 h1]|] eqn:Ep; [|done]. simplify_eq.
    by eapply Hrest; eauto.
  - destruct (HQ (demo_os false true) _) as (r & ht' & E & Hq).
    destruct (nkit_hash_put_internal _ _ _ _ _ _ _ _) as [[r1 h1]|] eqn:Ep; [|done]. simplify_eq.
    by eapply Hrest.
Qed.

Lemma find_wp fuel ht hash key len : ∀ slot dist r,
  counted ht → find_loop mem fuel ht hash key len slot dist = Some r →
  wp (find_code mem fuel hash key len slot dist) ht (returns r ht).
Proof.
  induction fuel as [|fuel IH]; intros slot dist r Hc Hf; [done|]. cbn [find_loop find_code] in *.
  destruct (ht_buckets ht !! Z.to_nat slot) as [b|] eqn:Hb; [|done].
  apply (wp_load_bucket _ _ _ b); [done..|]. apply cwp_load; [done|].
  destruct (b_hash b =? 0); [by simplify_eq|]. destruct (_ <? dist); [by simplify_eq|].
  destruct (_ && _); [by simplify_eq|]. by apply IH.
Qed.

Lemma find_key_wp ht key len r :
  counted ht → find_key mem ht key len = Some r → wp (find_key_code mem key len) ht (returns r ht).
Proof. intros Hc Hf. do 2 (apply cwp_load; [done|]). by apply find_wp. Qed.

Lemma get_wp ht key len r :
  counted ht → (key =? NULL) || (len =? 0) = false → nkit_hash_get mem (Some ht) key len = Some r →
  wp (get_body mem key len) ht (returns r ht).
Proof.
  intros Hc Hargs Hg. unfold nkit_hash_get in Hg. rewrite Hargs in Hg.
  destruct (find_key mem ht key len) as [f|] eqn:Ef; [|done].
  apply (wp_then _ _ _ f ht); [by apply find_key_wp|done|].
  destruct f as [slot|]; [|by simplify_eq]. destruct (ht_buckets ht !! Z.to_nat slot) as [b|] eqn:Hb; [|done].
  apply (wp_load_bucket _ _ _ b); [done..|]. by simplify_eq.
Qed.

Lemma shift_wp fuel : ∀ ht empty bs e,
  counted ht → is_Some (ht_buckets ht !! Z.to_nat empty) →
  shift_loop fuel (ht_buckets ht) (ht_mask ht) empty = Some (bs, e) →
  wp (shift_code fuel empty) ht (returns e (set_buckets bs ht)) ∧ is_Some (bs !! Z.to_nat e).
Proof.
  induction fuel as [|fuel IH]; intros ht empty bs e Hc He Hs; [done|]. cbn [shift_loop shift_code] in *.
  destruct (ht_buckets ht !! Z.to_nat (Z.land (empty +w 1) (ht_mask ht))) as [nb|] eqn:Hb; [|done].
  destruct (_ || _) eqn:Et.
  - injection Hs as <- <-. split; [|done]. apply cwp_load; [done|]. apply (wp_load_bucket _ _ _ nb); [done..|].
    rewrite Et. split; [done|]. by destruct ht.
  - destruct He as [b0 He].
    destruct (IH (set_bucket ht empty nb) (Z.land (empty +w 1) (ht_mask ht)) bs e) as [IHwp IHs]; [done| |done|].
    { cbn. apply lookup_lt_is_Some. rewrite length_insert. by eapply lookup_lt_Some. }
    split; [|done]. apply cwp_load; [done|]. apply (wp_load_bucket _ _ _ nb); [done..|]. rewrite Et.
    by apply (wp_store_bucket _ _ _ _ b0).
Qed.

Lemma remove_wp ht key len r ht' :
  counted ht → (key =? NULL) || (len =? 0) = false →
  nkit_hash_remove mem (Some ht) key len = Some (r, Some ht') →
  (∀ slot, find_key mem ht key len = Some (Some slot) → is_Some (ht_buckets ht !! Z.to_nat slot)) →
  wp (remove_body mem key len) ht (returns r ht').
Proof.
  intros Hc Hargs Hr Hslot. unfold nkit_hash_remove in Hr. rewrite Hargs in Hr.
  destruct (find_key mem ht key len) as [f|] eqn:Ef; [|done].
  apply (wp_then _ _ _ f ht); [by apply find_key_wp|done|].
  destruct f as [slot|]; [|by simplify_eq]. specialize (Hslot slot eq_refl).
  destruct (shift_loop _ _ _ _) as [[bs e]|] eqn:Es; [|done]. injection Hr as <- <-.
  apply cwp_load; [done|]. destruct (shift_wp _ ht slot bs e Hc Hslot Es) as [Hwp [b Hb]].
  apply (wp_then _ _ _ _ _ _ Hwp Hc).
  apply (wp_store_bucket _ _ _ _ b); [done..|]. apply cwp_load; [done|]. by apply cwp_store.
Qed.
End alone.
