(* ===== verification/HashLocked.v ===== *)
(** * The hash table with many callers (src/structs/hash_table.c)

    The accesses of [HashCode] behind the table's MCS lock, by [LockedCode]:
    whatever the interleaving, the table is one finite map that every call acts on
    at one moment between its beginning and its end, the count that is read without
    the lock included. *)

From stdpp Require Import prelude gmap.
From Stdlib Require Import ZArith Lia.
From S2P Require Import Prelude Words Arena Ring FairLock McsLock Locked LockedCode HashTable RobinHood HashMap HashCode.
Local Open Scope Z_scope.

#[export] Instance hash_op_eq_dec : EqDecision hash_op.
Proof. solve_decision. Defined.

(** The tests before the lock, with what they return. *)
Definition hash_reject (o : hash_op) : option Z :=
  match o with
  | HPut key len _ | HRemove key len => if (key =? NULL) || (len =? 0) then Some (-1) else None
  | HGet key len => if (key =? NULL) || (len =? 0) then Some NULL else None
  | HCount => None
  end.

(** The calls of the table: put, get and remove under its lock, count without. *)
Definition hash_locked_step (mem : Z → Z) := lk_step hash_reject hash_look (hash_body mem).

(** A slot is left besides the one a put may take. *)
Definition spare (ht : nkit_hash_t) : Prop := ht_count ht + 1 < ht_capacity ht.

(** The table stands for [m] after [n] steps. *)
Record stands_for (mem : Z → Z) (c0 : Z) (n : nat) (m : gmap (list Z) Z) (ht : nkit_hash_t) : Prop := {
  sf_ok : ht_ok mem ht;
  sf_map : ht_map mem ht = m;
  sf_count : ht_count ht ≤ c0 + Z.of_nat n;
}.

Lemma stands_for_mono mem c0 n n' m ht : (n ≤ n')%nat → stands_for mem c0 n m ht → stands_for mem c0 n' m ht.
Proof. intros Hn [H1 H2 H3]. split; auto. lia. Qed.

Lemma spec_exec_map mem m ops : spec_exec (map_step mem) m ops = map_exec mem m ops.
Proof.
  revert m. induction ops as [|o ops IH]; intros m; [done|]. cbn [spec_exec map_exec].
  destruct (map_step mem m o) as [r m1] eqn:E. cbn [fst snd]. rewrite IH. by destruct (map_exec mem m1 ops).
Qed.

Lemma count_look mem c0 n m ht o f :
  stands_for mem c0 n m ht → op_args_ok o → hash_look o = Some f → map_step mem m o = (f ht, m).
Proof.
  intros [Hok <- _] _ Hf. destruct o; try done. injection Hf as <-. cbn [map_step nkit_hash_count].
  by rewrite <-(ht_map_size mem ht Hok).
Qed.

(** What a call may read without the lock is the count. *)
Lemma same_count ht ht' : ht_count ht' = ht_count ht → same_look hash_look ht ht'.
Proof. intros Hc o f Hf. destruct o; try done. by injection Hf as <-. Qed.

Lemma spare_not_last mem os ht o : spare ht → ¬ last_slot mem os ht o.
Proof. intros Hs. destruct o; cbn [last_slot]; [|by intros []..]. intros (_ & _ & _ & Hc & _). unfold spare in Hs. lia. Qed.

(** The critical section of an operation, alone, does what the map does. *)
Lemma hash_body_ok mem c0 bound n m ht o :
  c0 + Z.of_nat bound ≤ 2 ^ 50 →
  stands_for mem c0 n m ht → spare ht → (n < bound)%nat → op_args_ok o → hash_reject o = None → hash_look o = None →
  cwp ArenaOS_ok (same_look hash_look ht) (hash_body mem o) ht
    (λ r ht', r = (map_step mem m o).1 ∧ stands_for mem c0 (1 + n) (map_step mem m o).2 ht').
Proof.
  intros Hb [Hok <- Hc] Hsp Hn Ho Hrej Hlook.
  apply (cwp_weaken ArenaOS_ok (λ ht', ht_count ht' = ht_count ht) _ _ _
    (λ r ht', r = (map_step mem (ht_map mem ht) o).1 ∧ stands_for mem c0 (1 + n) (map_step mem (ht_map mem ht) o).2 ht'));
    [apply same_count|done|].
  assert (Hstep : ∀ os, ArenaOS_ok os → ∃ r ht', hash_step mem os ht o = Some (r, ht') ∧
    r = (map_step mem (ht_map mem ht) o).1 ∧ stands_for mem c0 (1 + n) (map_step mem (ht_map mem ht) o).2 ht').
  { intros os Hos. destruct (hash_step_spec mem os ht o Hos Hok) as (r & ht' & E & Hok' & -> & Hc'); auto;
      [lia|by apply spare_not_last|].
    exists r, ht'. split_and!; auto. split; cbn [snd]; auto. lia. }
  destruct (Hstep (demo_os false true) _) as (r1 & ht1 & E1 & Hr1 & Hsf1).
  destruct o as [key len v|key len|key len|]; cbn [hash_reject hash_body hash_step] in *; [..|done].
  all: destruct ((key =? NULL) || (len =? 0)) eqn:Hargs; [done|].
  - apply put_wp; [done|done| |].
    + intros os Hos. destruct (Hstep os Hos) as (r & ht' & E & Hr & Hsf). exists r, ht'. split; [|done].
      destruct (nkit_hash_put mem os (Some ht) key len v) as [[r0 [h0|]]|]; [|done..]. by injection E as -> ->.
    + intros os ht' calls Hos E. destruct (resize_spec mem os ht Hos Hok) as (ht2 & c2 & E2 & _ & _ & Hc2 & _). congruence.
  - destruct (nkit_hash_get _ _ _ _) as [v|] eqn:E; simplify_eq. eapply wp_outcome; [by apply get_wp|done].
  - destruct (nkit_hash_remove _ _ _ _) as [[r0 [h0|]]|] eqn:E; simplify_eq.
    eapply wp_outcome; [apply remove_wp; [done..|exact E|]|done].
    intros slot Hs. destruct (find_key_spec mem ht key len Hok) as (f & Ef & Hf); [|rewrite Hs in Ef; simplify_eq].
    { apply orb_false_iff in Hargs as [_ Hl%Z.eqb_neq]. cbn [op_args_ok] in Ho. unfold is_u64 in Ho. lia. }
    destruct Hf as (_ & b & Hbk & _). eauto.
Qed.

(** C4. The table is linearizable, at the granularity of single accesses.  Any number
    of threads call put, get, remove and count in any interleaving of the lock's
    accesses, of the accesses put, get and remove make to the table's fields and
    buckets inside their critical sections (a resize and its rehash included, with
    whatever the system answers to its request for memory), and of the reads of
    count, which takes no lock.  The table starts well-formed and keeps below 2^50
    entries, and always has a slot to spare.  Then the calls take effect one after
    another: each at one moment between its beginning and its end, with the result a
    finite map from key bytes to values gives at that moment, which is the result it
    returns; a call with a NULL key or an empty one returns its error code and has no
    effect.  The count field is the size of that map at every moment, also in the
    middle of a resize; whenever no thread is in a critical section the table is
    well-formed and represents the map; and a thread inside a call always has a next
    step. *)
Theorem hash_linearizable mem nodes ht sched s es :
  ht_ok mem ht → ht_count ht + Z.of_nat (length sched) ≤ 2 ^ 50 →
  Forall (call_ok op_args_ok ArenaOS_ok) sched →
  (∀ before after s1 es1, sched = before ++ after →
     traced (hash_locked_step mem) (lk_start nodes ht) before = Some (s1, es1) → spare (lk_obj s1)) →
  traced (hash_locked_step mem) (lk_start nodes ht) sched = Some (s, es) →
  let abstract := map_exec mem (ht_map mem ht) (applied es) in
  results es = abstract.1 ∧
  nkit_hash_count (Some (lk_obj s)) = Z.of_nat (size abstract.2) ∧
  ((∀ t pc, lk_threads s !! t = Some pc → in_body pc = false) →
     ht_ok mem (lk_obj s) ∧ ht_map mem (lk_obj s) = abstract.2) ∧
  (∀ t, is_Some (call_history hash_reject t es)) ∧
  (∀ t pc os, ArenaOS_ok os → lk_threads s !! t = Some pc → pc ≠ LkIdle →
     is_Some (hash_locked_step mem s (LkGo t os))).
Proof.
  intros Hok Hcnt Hargs Hspare Hr.
  assert (I : lk_inv hash_reject hash_look (map_step mem) (stands_for mem (ht_count ht)) op_args_ok ArenaOS_ok
                (ht_map mem ht) (length sched) es s).
  { eapply lk_run; eauto using stands_for_mono, count_look, hash_body_ok. by split; auto; lia. }
  cbn zeta. rewrite <-spec_exec_map. split_and!.
  - apply (lv_results _ _ _ _ _ _ _ _ _ _ I).
  - eapply (look_now _ _ _ _ _ _) with (o := HCount) in I; [|by apply count_look|done|done].
    cbn [map_step] in I. by injection I as ->.
  - intros Hout. destruct (oj_rest _ _ _ _ _ _ _ _ (lv_obj _ _ _ _ _ _ _ _ _ _ I) Hout) as [? ? _]. done.
  - intros t. destruct (lk_threads s !! t) as [pc|] eqn:Ht.
    + by rewrite (lv_status _ _ _ _ _ _ _ _ _ _ I t pc Ht).
    + by rewrite (lv_none _ _ _ _ _ _ _ _ _ _ I t Ht).
  - intros t pc os Hos Ht Hne. by eapply lk_enabled.
Qed.

(** The table has a slot to spare all along a schedule. *)
Definition spare_throughout (mem : Z → Z) nodes ht (sched : list (lk_label arena_os hash_op)) : bool :=
  forallb (λ n, match traced (hash_locked_step mem) (lk_start nodes ht) (take n sched) with
                | Some (s1, _) => ht_count (lk_obj s1) + 1 <? ht_capacity (lk_obj s1)
                | None => true
                end) (seq 0 (S (length sched))).

Lemma spare_throughout_ok mem nodes ht sched : spare_throughout mem nodes ht sched = true →
  ∀ before after s1 es1, sched = before ++ after →
    traced (hash_locked_step mem) (lk_start nodes ht) before = Some (s1, es1) → spare (lk_obj s1).
Proof.
  intros Hall before after s1 es1 -> E. unfold spare_throughout in Hall. rewrite forallb_forall in Hall.
  specialize (Hall (length before)). rewrite take_app_length, E in Hall. apply Z.ltb_lt, Hall, in_seq.
  rewrite length_app. lia.
Qed.

(** Two threads meet at the lock: one puts, the other gets the same key bytes at
    another address and, having queued behind, sees the value; a third reads the count
    before and after the put's last access; a fourth call is rejected. *)
Definition demo_call_sched : list (lk_label arena_os hash_op) :=
  let go t := LkGo t (demo_os false true) in
  [LkCall 0 (HPut 1 1 100); go 0%nat; go 0%nat; go 0%nat; LkCall 1 (HGet 257 1); go 1%nat; go 1%nat; go 1%nat] ++
  replicate 7 (go 0%nat) ++ [LkCall 2 HCount; go 2%nat; go 2%nat; go 0%nat; LkCall 2 HCount; go 2%nat; go 2%nat] ++
  [go 1%nat; go 0%nat; go 0%nat; go 0%nat; go 0%nat; LkCall 0 (HRemove 0 4)] ++ replicate 9 (go 1%nat).

Definition demo_callers : list nkit_mcs_node_t := demo_nodes ++ [mk_node None 1].

Lemma hash_linearizable_witness :
  match traced (hash_locked_step demo_mem) (lk_start demo_callers demo_table) demo_call_sched with
  | Some (s, es) => results es = [0; 0; 1; 100] ∧ ht_map demo_mem (lk_obj s) = {[ [1] := 100 ]} ∧
      nkit_hash_count (Some (lk_obj s)) = 1 ∧ Returned 0 (-1) ∈ es
  | None => False
  end.
Proof.
  assert (Hargs : Forall (call_ok op_args_ok ArenaOS_ok) demo_call_sched)
    by (repeat (apply Forall_cons; split; [first [exact I|apply demo_os_ok|cbn; unfold is_u64; lia]|]); done).
  assert (Hcnt : ht_count demo_table + Z.of_nat (length demo_call_sched) ≤ 2 ^ 50) by (cbn; lia).
  assert (Hspare : spare_throughout demo_mem demo_callers demo_table demo_call_sched = true) by (by vm_compute).
  assert (Hidle : (λ '(s, _), forallb (λ pc, negb (in_body pc)) (lk_threads s)) <$>
    traced (hash_locked_step demo_mem) (lk_start demo_callers demo_table) demo_call_sched = Some true) by (by vm_compute).
  destruct (traced _ _ demo_call_sched) as [[s es]|] eqn:E; [|by vm_compute in E].
  pose proof (hash_linearizable demo_mem demo_callers demo_table demo_call_sched s es (proj1 demo_table_ok) Hcnt Hargs
    (spare_throughout_ok _ _ _ _ Hspare) E) as (Hr & Hc & Hm & _).
  rewrite (proj2 demo_table_ok) in Hr, Hm, Hc.
  assert (Es : snd <$> traced (hash_locked_step demo_mem) (lk_start demo_callers demo_table) demo_call_sched = Some es)
    by (rewrite E; reflexivity).
  clear E. vm_compute in Es. injection Es as <-. destruct Hm as [_ Hm].
  { injection Hidle as Hidle. rewrite forallb_forall in Hidle. intros t pc Ht. apply negb_true_iff, Hidle.
    apply list_elem_of_In. by eapply list_elem_of_lookup_2. }
  rewrite Hr, Hm, Hc. split_and!; [by vm_compute|by vm_compute|by vm_compute|]. apply list_elem_of_In. cbn. tauto.
Defined.
