(* ===== verification/SkipList.v ===== *)
(** * The sharded skip list (src/structs/skip_list.c)

    One skip list per NUMA node; a key's hash chooses the shard.  Nodes live in a
    heap and are linked by address, each with its own tower of forward pointers.
    The functions here are the operations run one at a time; [SkipProg] and
    [SkipConc] have them with many callers, behind the shards' MCS locks.  The allocator and [rand_r] are parameters; keys are compared by the
    bytes they point to, in the process memory [mem]. *)

From stdpp Require Import prelude gmap.
From Stdlib Require Import ZArith Lia.
From S2P Require Import Prelude Words Arena Ring Context HashTable.
Local Open Scope Z_scope.
Local Open Scope word_scope.

(** ** Data (lines 15-37) *)

Record nkit_skip_node_t := mk_snode {
  sn_key : Z;
  sn_key_len : Z;
  sn_value : Z;
  sn_level : Z;
  sn_next : list Z;
}.

Record nkit_skip_shard_t := mk_shard {
  sh_head : Z;
  sh_max_level : Z;
  sh_current_level : Z;
  sh_count : Z;
  sh_node_id : Z;
  sh_seed : Z;
}.

Record nkit_skip_t := mk_skip {
  sl_max_level : Z;
  sl_num_shards : Z;
  sl_shards : list nkit_skip_shard_t;
}.

Abbreviation skip_heap := (gmap Z nkit_skip_node_t).

Definition RAND_MAX : Z := 2147483647.

(** ** Reading and writing nodes; [None] is an access outside an object *)

(** [p->next[i]] *)
Definition next_at (heap : skip_heap) (p : Z) (i : nat) : option Z :=
  n ← heap !! p; sn_next n !! i.

(** [p->next[i] = q] *)
Definition set_next (heap : skip_heap) (p : Z) (i : nat) (q : Z) : option skip_heap :=
  n ← heap !! p;
  if decide (i < length (sn_next n))%nat
  then Some (<[p := mk_snode (sn_key n) (sn_key_len n) (sn_value n) (sn_level n)
                      (<[i := q]> (sn_next n))]> heap)
  else None.

(** [memcmp(a, b, len) < 0] on the bytes. *)
Fixpoint lex_lt (a b : list Z) : bool :=
  match a, b with
  | x :: a, y :: b => (x <? y) || ((x =? y) && lex_lt a b)
  | _, _ => false
  end.

(** The comparison of the search loops. *)
Definition node_less (mem : Z → Z) (n : nkit_skip_node_t) (key key_len : Z) : bool :=
  (sn_key_len n <? key_len) ||
  ((sn_key_len n =? key_len) &&
   lex_lt (read_bytes mem (sn_key n) key_len) (read_bytes mem key key_len)).

Definition skip_fnv1a (mem : Z → Z) (data len : Z) : Z :=
  fnv1a_loop (read_bytes mem data len) FNV_OFFSET.

Section operations.
Variables (mem : Z → Z).
(** [numa_alloc_onnode]: the address for a size on a node, given what is in use. *)
Variable alloc : skip_heap → Z → Z → Z.
(** [rand_r]: the number and the new seed. *)
Variable rand_r : Z → Z * Z.

Definition sizeof_nkit_skip_node_t : Z := 32.

(** ** Helpers *)

(** At most [max_level] draws are made, so the fuel does not run out. *)
Fixpoint random_level_loop (fuel : nat) (max_level level seed : Z) : Z * Z :=
  match fuel with
  | O => (level, seed)
  | S fuel =>
      let '(r, seed) := rand_r seed in
      if (r <? RAND_MAX / 2) && (level <? max_level)
      then random_level_loop fuel max_level (level + 1) seed
      else (level, seed)
  end.

Definition random_level (shard : nkit_skip_shard_t) : Z * Z :=
  random_level_loop (S (Z.to_nat (sh_max_level shard))) (sh_max_level shard) 1 (sh_seed shard).

(** The address ([NULL] on failure) and the heap. *)
Definition create_node (heap : skip_heap) (node_id key key_len value level : Z) : Z * skip_heap :=
  let sz := sizeof_nkit_skip_node_t +w (8 *w level) in
  let p := alloc heap node_id sz in
  if p =? NULL then (NULL, heap)
  else (p, <[p := mk_snode key key_len value level (replicate (Z.to_nat level) NULL)]> heap).

Definition free_node (heap : skip_heap) (p : Z) : skip_heap :=
  if p =? NULL then heap else delete p heap.

(** The inner [while] of the searches at level [i]. *)
Fixpoint walk (fuel : nat) (heap : skip_heap) (i : nat) (key key_len : Z) (curr : Z) : option Z :=
  match fuel with
  | O => None
  | S fuel =>
      nx ← next_at heap curr i;
      if nx =? NULL then Some curr else
      n ← heap !! nx;
      if node_less mem n key key_len then walk fuel heap i key key_len nx else Some curr
  end.

(** The outer [for] from level [n - 1] down to 0: the last node, and [update]. *)
Fixpoint descend (fuel : nat) (heap : skip_heap) (key key_len : Z) (n : nat) (curr : Z)
    : option (Z * list Z) :=
  match n with
  | O => Some (curr, [])
  | S i =>
      c ← walk fuel heap i key key_len curr;
      r ← descend fuel heap key key_len i c;
      Some (r.1, r.2 ++ [c])
  end.

(** The search of one shard: the candidate [curr->next[0]] and [update]. *)
Definition search (heap : skip_heap) (shard : nkit_skip_shard_t) (key key_len : Z)
    : option (Z * list Z) :=
  r ← descend (S (size heap)) heap key key_len (Z.to_nat (s32 (sh_max_level shard))) (sh_head shard);
  c ← next_at heap r.1 0;
  Some (c, r.2).

(** [curr != NULL && _keys_equal(...)] *)
Definition found (heap : skip_heap) (curr key key_len : Z) : option bool :=
  if curr =? NULL then Some false else
  n ← heap !! curr;
  Some (keys_equal mem (sn_key n) (sn_key_len n) key key_len).

(** The linking loop of [nkit_skip_put]: levels [i], [i + 1], ... ([n] of them). *)
Fixpoint link (update : list Z) (new : Z) (i n : nat) (heap : skip_heap) : option skip_heap :=
  match n with
  | O => Some heap
  | S n =>
      u ← update !! i;
      nx ← next_at heap u i;
      heap ← set_next heap new i nx;
      heap ← set_next heap u i new;
      link update new (S i) n heap
  end.

(** The unlinking loop of [nkit_skip_remove]. *)
Fixpoint unlink (update : list Z) (curr : Z) (i n : nat) (heap : skip_heap) : option skip_heap :=
  match n with
  | O => Some heap
  | S n =>
      u ← update !! i;
      nx ← next_at heap u i;
      if negb (nx =? curr) then Some heap else
      cn ← next_at heap curr i;
      heap ← set_next heap u i cn;
      unlink update curr (S i) n heap
  end.

(** ** Operations on one shard *)

Definition shard_put (heap : skip_heap) (shard : nkit_skip_shard_t) (key key_len value : Z)
    : option (Z * nkit_skip_shard_t * skip_heap) :=
  r ← search heap shard key key_len;
  hit ← found heap r.1 key key_len;
  if hit : bool then
    n ← heap !! r.1;
    Some (0, shard, <[r.1 := mk_snode (sn_key n) (sn_key_len n) value (sn_level n) (sn_next n)]> heap)
  else
    let '(level, seed) := random_level shard in
    let current := if sh_current_level shard <? level then level else sh_current_level shard in
    let '(new, heap) := create_node heap (sh_node_id shard) key key_len value level in
    if new =? NULL then
      Some (-1, mk_shard (sh_head shard) (sh_max_level shard) current (sh_count shard)
                  (sh_node_id shard) seed, heap)
    else
      heap ← link r.2 new 0 (Z.to_nat level) heap;
      Some (0, mk_shard (sh_head shard) (sh_max_level shard) current (sh_count shard +w 1)
                 (sh_node_id shard) seed, heap).

Definition shard_get (heap : skip_heap) (shard : nkit_skip_shard_t) (key key_len : Z) : option Z :=
  r ← search heap shard key key_len;
  hit ← found heap r.1 key key_len;
  if hit : bool then n ← heap !! r.1; Some (sn_value n) else Some NULL.

Definition shard_remove (heap : skip_heap) (shard : nkit_skip_shard_t) (key key_len : Z)
    : option (Z * nkit_skip_shard_t * skip_heap) :=
  r ← search heap shard key key_len;
  hit ← found heap r.1 key key_len;
  if hit : bool then
    n ← heap !! r.1;
    heap ← unlink r.2 r.1 0 (Z.to_nat (sn_level n)) heap;
    Some (0, mk_shard (sh_head shard) (sh_max_level shard) (sh_current_level shard)
               (sh_count shard -w 1) (sh_node_id shard) (sh_seed shard), free_node heap r.1)
  else Some (-1, shard, heap).

(** ** The public operations *)

Definition shard_of (sl : nkit_skip_t) (key key_len : Z) : nat :=
  Z.to_nat (u32 (skip_fnv1a mem key key_len mod sl_num_shards sl)).

Definition set_shard (sl : nkit_skip_t) (i : nat) (s : nkit_skip_shard_t) : nkit_skip_t :=
  mk_skip (sl_max_level sl) (sl_num_shards sl) (<[i := s]> (sl_shards sl)).

Definition nkit_skip_put (sl : option nkit_skip_t) (heap : skip_heap) (key key_len value : Z)
    : option (Z * option nkit_skip_t * skip_heap) :=
  match sl with
  | None => Some (-1, None, heap)
  | Some sl =>
      if (key =? NULL) || (key_len =? 0) then Some (-1, Some sl, heap) else
      shard ← sl_shards sl !! shard_of sl key key_len;
      r ← shard_put heap shard key key_len value;
      Some (r.1.1, Some (set_shard sl (shard_of sl key key_len) r.1.2), r.2)
  end.

Definition nkit_skip_get (sl : option nkit_skip_t) (heap : skip_heap) (key key_len : Z) : option Z :=
  match sl with
  | None => Some NULL
  | Some sl =>
      if (key =? NULL) || (key_len =? 0) then Some NULL else
      shard ← sl_shards sl !! shard_of sl key key_len;
      shard_get heap shard key key_len
  end.

Definition nkit_skip_remove (sl : option nkit_skip_t) (heap : skip_heap) (key key_len : Z)
    : option (Z * option nkit_skip_t * skip_heap) :=
  match sl with
  | None => Some (-1, None, heap)
  | Some sl =>
      if (key =? NULL) || (key_len =? 0) then Some (-1, Some sl, heap) else
      shard ← sl_shards sl !! shard_of sl key key_len;
      r ← shard_remove heap shard key key_len;
      Some (r.1.1, Some (set_shard sl (shard_of sl key key_len) r.1.2), r.2)
  end.

Definition nkit_skip_count (sl : option nkit_skip_t) : Z :=
  match sl with
  | None => 0
  | Some sl => foldl (λ total s, total +w sh_count s) 0 (take (Z.to_nat (sl_num_shards sl)) (sl_shards sl))
  end.

(** The loop of [nkit_skip_create] over nodes [i], [i + 1], ..., with the shards
    made so far; a failure frees their heads. *)
Fixpoint create_shards (max_level : Z) (n : nat) (i : Z) (shards : list nkit_skip_shard_t)
    (heap : skip_heap) : option (list nkit_skip_shard_t) * skip_heap :=
  match n with
  | O => (Some shards, heap)
  | S n =>
      let '(head, heap) := create_node heap i NULL 0 NULL max_level in
      if head =? NULL then (None, foldl (λ h s, free_node h (sh_head s)) heap shards)
      else create_shards max_level n (i + 1)
             (shards ++ [mk_shard head max_level 1 0 i (u32 (i + 42))]) heap
  end.

Definition nkit_skip_create (numa_available numa_max_node : Z) (malloc_ok calloc_ok : bool)
    (max_level : Z) (heap : skip_heap) : option nkit_skip_t * skip_heap :=
  if numa_available <? 0 then (None, heap) else
  let num_nodes := numa_max_node + 1 in
  if negb malloc_ok then (None, heap) else
  if negb calloc_ok then (None, heap) else
  let '(shards, heap) := create_shards max_level (Z.to_nat num_nodes) 0 [] heap in
  (mk_skip max_level num_nodes <$> shards, heap).

(** The inner loop of [nkit_skip_destroy]: frees a shard's nodes from [curr] on. *)
Fixpoint destroy_chain (fuel : nat) (curr : Z) (heap : skip_heap) : option skip_heap :=
  match fuel with
  | O => None
  | S fuel =>
      if curr =? NULL then Some heap else
      nx ← next_at heap curr 0;
      destroy_chain fuel nx (free_node heap curr)
  end.

Fixpoint destroy_shards (shards : list nkit_skip_shard_t) (heap : skip_heap) : option skip_heap :=
  match shards with
  | [] => Some heap
  | s :: shards =>
      heap ← destroy_chain (S (S (size heap))) (sh_head s) heap;
      destroy_shards shards heap
  end.

Definition nkit_skip_destroy (sl : option nkit_skip_t) (heap : skip_heap) : option skip_heap :=
  match sl with
  | None => Some heap
  | Some sl => destroy_shards (take (Z.to_nat (sl_num_shards sl)) (sl_shards sl)) heap
  end.
End operations.
