(* ===== verification/SkipChain.v ===== *)
(** * Level chains of a skip list (src/structs/skip_list.c)

    The order on keys, the chain of nodes that level [i] links, how the searches
    walk it and what linking and unlinking do to it. *)

From stdpp Require Import prelude gmap sorting.
From Stdlib Require Import ZArith Lia.
From S2P Require Import Prelude Words Arena Ring Context HashTable SkipList.
Local Open Scope Z_scope.

(** ** The order on keys: shorter first, then by bytes *)

Definition klt (a b : list Z) : Prop :=
  (length a < length b)%nat ∨ (length a = length b ∧ lex_lt a b = true).

Lemma lex_lt_irrefl a : lex_lt a a = false.
Proof. induction a as [|x a IH]; simpl; [done|]. by rewrite Z.ltb_irrefl, IH, andb_false_r. Qed.

Lemma lex_lt_trans a : ∀ b c, lex_lt a b = true → lex_lt b c = true → lex_lt a c = true.
Proof.
  induction a as [|x a IH]; intros [|y b] [|z c]; simpl; try done.
  rewrite !orb_true_iff, !andb_true_iff, !Z.ltb_lt, !Z.eqb_eq.
  intros [?|[-> Hab]] [?|[-> Hbc]]; [left; lia|left; lia|left; lia|]. right. eauto.
Qed.

Lemma lex_lt_total a : ∀ b, length a = length b → lex_lt a b = false → lex_lt b a = false → a = b.
Proof.
  induction a as [|x a IH]; intros [|y b]; simpl; try done. intros [= Hl].
  rewrite !orb_false_iff, !andb_false_iff, !Z.ltb_ge, !Z.eqb_neq. intros [? H1] [? H2].
  assert (x = y) as -> by lia. f_equal. apply IH; [done| |]; [destruct H1|destruct H2]; by auto.
Qed.

#[export] Instance klt_trans : Transitive klt.
Proof.
  intros a b c [?|[? ?]] [?|[? ?]]; try (left; lia). right. split; [congruence|].
  by eapply lex_lt_trans.
Qed.

Lemma klt_irrefl a : ¬ klt a a.
Proof. intros [?|[_ H]]; [lia|]. by rewrite lex_lt_irrefl in H. Qed.

Lemma klt_total a b : ¬ klt a b → a ≠ b → klt b a.
Proof.
  intros Hn Hne. destruct (Nat.lt_trichotomy (length a) (length b)) as [?|[El|?]].
  - destruct Hn. by left.
  - right. split; [done|]. destruct (lex_lt b a) eqn:E; [done|]. destruct Hne.
    apply lex_lt_total; auto. destruct (lex_lt a b) eqn:E'; [|done]. destruct Hn. by right.
  - by left.
Qed.

(** ** What is known of a node by its address *)

(** The fields linking does not change, with the height of the tower. *)
Definition core (n : nkit_skip_node_t) : Z * Z * Z * Z * nat :=
  (sn_key n, sn_key_len n, sn_value n, sn_level n, length (sn_next n)).

Definition same_core (h h' : skip_heap) (p : Z) : Prop := core <$> h !! p = core <$> h' !! p.

Definition lev (h : skip_heap) (p : Z) : nat :=
  match h !! p with Some n => length (sn_next n) | None => 0%nat end.

Definition key_at (mem : Z → Z) (h : skip_heap) (p : Z) : list Z :=
  match h !! p with Some n => read_bytes mem (sn_key n) (sn_key_len n) | None => [] end.

Definition value_at (h : skip_heap) (p : Z) : Z :=
  match h !! p with Some n => sn_value n | None => 0 end.

Lemma same_core_fields mem h h' p : same_core h h' p →
  lev h' p = lev h p ∧ key_at mem h' p = key_at mem h p ∧ value_at h' p = value_at h p.
Proof.
  unfold same_core, lev, key_at, value_at, core.
  destruct (h !! p), (h' !! p); simpl; intros E; simplify_eq; [|done].
  split_and!; congruence.
Qed.

(** The nodes of [l] that reach level [i]. *)
Definition tower (h : skip_heap) (i : nat) (l : list Z) : list Z := filter (λ p, (i < lev h p)%nat) l.

(** The last node of a chain that starts at [p]. *)
Fixpoint end_of (p : Z) (l : list Z) : Z :=
  match l with [] => p | q :: l => end_of q l end.

(** Level [i] links [p] to the nodes of [l], in order, and then to NULL. *)
Fixpoint chain (h : skip_heap) (i : nat) (p : Z) (l : list Z) : Prop :=
  match l with
  | [] => next_at h p i = Some NULL
  | q :: l => next_at h p i = Some q ∧ q ≠ NULL ∧ chain h i q l
  end.

Lemma end_of_app l1 : ∀ p l2, end_of p (l1 ++ l2) = end_of (end_of p l1) l2.
Proof. induction l1; simpl; auto. Qed.

Lemma end_of_in l : ∀ p, end_of p l ∈ p :: l.
Proof.
  induction l as [|q l IH]; intros p; simpl; [by left|]. right. apply IH.
Qed.

Lemma end_of_in_app p l1 l2 : end_of p l1 ∈ p :: l1 ++ l2.
Proof. change (p :: l1 ++ l2) with ((p :: l1) ++ l2). apply elem_of_app. left. apply end_of_in. Qed.

Lemma end_of_ne p p' l : l ≠ [] → end_of p l = end_of p' l.
Proof. by destruct l. Qed.

Lemma chain_suffix h i l1 : ∀ p l2, chain h i p (l1 ++ l2) → chain h i (end_of p l1) l2.
Proof. induction l1 as [|q l1 IH]; intros p l2; simpl; [done|]. intros (_ & _ & H). auto. Qed.

(** A chain depends on the links of its own nodes only. *)
Lemma chain_ext h h' i l : ∀ p,
  (∀ q, q ∈ p :: l → next_at h' q i = next_at h q i) → chain h i p l → chain h' i p l.
Proof.
  induction l as [|q l IH]; intros p He; simpl.
  - intros <-. apply He. by left.
  - intros (E & Hq & Hc). rewrite He by by left. split; [done|]. split; [done|].
    apply IH; [|done]. intros q' Hq'. apply He. by right.
Qed.

(** Inserting [new] after the last node of [l1]. *)
Lemma chain_insert h h' i new l1 : ∀ p l2,
  chain h i p (l1 ++ l2) → NoDup (p :: l1 ++ l2) → (new ∉ p :: l1 ++ l2) → new ≠ NULL →
  next_at h' new i = next_at h (end_of p l1) i → next_at h' (end_of p l1) i = Some new →
  (∀ q, q ≠ new → q ≠ end_of p l1 → next_at h' q i = next_at h q i) →
  chain h' i p (l1 ++ new :: l2).
Proof.
  induction l1 as [|q l1 IH]; intros p l2 Hc Hnd Hnew Hnn En Ee Ho; simpl in *.
  - split; [done|]. split; [done|]. apply NoDup_cons in Hnd as [Hp Hnd].
    apply not_elem_of_cons in Hnew as [? Hnew]. destruct l2 as [|q l2]; simpl in *; [congruence|].
    destruct Hc as (E & Hq & Hc). split; [congruence|]. split; [done|].
    apply (chain_ext h); [|done]. intros q' Hq'. apply Ho; [|]; intros ->; set_solver.
  - destruct Hc as (E & Hq & Hc). apply NoDup_cons in Hnd as [Hp Hnd].
    apply not_elem_of_cons in Hnew as [Hpn Hnew]. split; [|split; [done|]].
    + rewrite Ho; [done|congruence|]. intros ->. apply Hp, end_of_in_app.
    + by apply IH.
Qed.

(** Removing the node [c] after the last node of [l1]. *)
Lemma chain_remove h h' i c l1 : ∀ p l2,
  chain h i p (l1 ++ c :: l2) → NoDup (p :: l1 ++ c :: l2) →
  next_at h' (end_of p l1) i = next_at h c i →
  (∀ q, q ≠ c → q ≠ end_of p l1 → next_at h' q i = next_at h q i) →
  chain h' i p (l1 ++ l2).
Proof.
  induction l1 as [|q l1 IH]; intros p l2 Hc Hnd Ee Ho; simpl in *.
  - destruct Hc as (E & Hcn & Hc). apply NoDup_cons in Hnd as [Hp Hnd].
    apply NoDup_cons in Hnd as [Hc2 Hnd]. destruct l2 as [|q l2]; simpl in *; [congruence|].
    destruct Hc as (E' & Hq & Hc). split; [congruence|]. split; [done|].
    apply (chain_ext h); [|done]. intros q' Hq'. apply Ho; intros ->; [by apply Hc2|].
    apply Hp. by right.
  - destruct Hc as (E & Hq & Hc). apply NoDup_cons in Hnd as [Hp Hnd]. split; [|split; [done|]].
    + rewrite Ho; [done|set_solver|]. intros ->. apply Hp, end_of_in_app.
    + by apply IH.
Qed.

(** ** Writing links *)

Lemma set_next_spec h p i q n :
  h !! p = Some n → (i < length (sn_next n))%nat →
  ∃ h', set_next h p i q = Some h' ∧ (∀ r, same_core h h' r) ∧
    ∀ r j, next_at h' r j = if decide (r = p ∧ j = i) then Some q else next_at h r j.
Proof.
  intros Hp Hi. unfold set_next. rewrite Hp. simpl. rewrite decide_True by done.
  eexists. split; [done|]. split.
  - intros r. unfold same_core. destruct (decide (r = p)) as [->|].
    + rewrite lookup_insert_eq, Hp. simpl. unfold core. simpl. by rewrite length_insert.
    + by rewrite lookup_insert_ne.
  - intros r j. unfold next_at. destruct (decide (r = p)) as [->|].
    + rewrite lookup_insert_eq, Hp. simpl. rewrite lookup_insert_decide by done.
      repeat case_decide; intuition congruence.
    + rewrite lookup_insert_ne by done. rewrite decide_False; [done|]. by intros [-> _].
Qed.

Lemma next_at_Some h p i q : next_at h p i = Some q → ∃ n, h !! p = Some n ∧ (i < length (sn_next n))%nat.
Proof.
  unfold next_at. destruct (h !! p) as [n|]; simpl; [|done]. intros H. exists n.
  split; [done|]. by eapply lookup_lt_Some.
Qed.

Lemma next_at_lev h p i : (i < lev h p)%nat → is_Some (next_at h p i).
Proof.
  unfold lev, next_at. destruct (h !! p) as [n|]; simpl; [|lia]. apply lookup_lt_is_Some_2.
Qed.

Lemma next_at_core h h' p i : same_core h h' p → is_Some (next_at h p i) → is_Some (next_at h' p i).
Proof.
  intros Hs [q Hq]. apply next_at_Some in Hq as (n & Hn & Hl). apply next_at_lev.
  destruct (same_core_fields (λ _, 0) _ _ _ Hs) as [-> _]. unfold lev. by rewrite Hn.
Qed.

Lemma same_core_trans h1 h2 h3 r : same_core h1 h2 r → same_core h2 h3 r → same_core h1 h3 r.
Proof. unfold same_core. congruence. Qed.

(** What the linking loop leaves: at each of its levels [new] takes over the link
    of the update node, which points to [new]; nothing else changes. *)
Lemma link_spec upd new n : ∀ i h,
  (∀ j, (i ≤ j < i + n)%nat → is_Some (next_at h new j) ∧
     ∃ u, upd !! j = Some u ∧ u ≠ new ∧ is_Some (next_at h u j)) →
  ∃ h', link upd new i n h = Some h' ∧ (∀ r, same_core h h' r) ∧
    ∀ r j, next_at h' r j =
      if decide (i ≤ j < i + n)%nat then
        if decide (r = new) then (u ← upd !! j; next_at h u j)
        else if decide (upd !! j = Some r) then Some new else next_at h r j
      else next_at h r j.
Proof.
  induction n as [|n IH]; intros i h H; cbn [link].
  - exists h. split; [done|]. split; [done|]. intros r j. by rewrite decide_False by lia.
  - destruct (H i ltac:(lia)) as (Hn & u & Hu & Hne & [x Hx]). rewrite Hu. cbn [mbind option_bind].
    rewrite Hx. cbn [mbind option_bind]. destruct Hn as [y Hy].
    destruct (next_at_Some _ _ _ _ Hy) as (nn & Hnn & Hnl).
    destruct (set_next_spec h new i x nn Hnn Hnl) as (h1 & -> & C1 & N1). cbn [mbind option_bind].
    destruct (next_at_Some h1 u i x) as (un & Hun & Hul).
    { rewrite N1. by rewrite decide_False by (intros [? _]; done). }
    destruct (set_next_spec h1 u i new un Hun Hul) as (h2 & -> & C2 & N2). cbn [mbind option_bind].
    assert (Hcore : ∀ r, same_core h h2 r) by (intros r; exact (same_core_trans _ _ _ r (C1 r) (C2 r))).
    destruct (IH (S i) h2) as (h' & -> & C' & N').
    { intros j Hj. destruct (H j ltac:(lia)) as (Hnj & v & Hv & Hvn & Hvj).
      split; [by apply (next_at_core h)|]. exists v. split; [done|]. split; [done|]. by apply (next_at_core h). }
    exists h'. split; [done|]. split; [intros r; exact (same_core_trans _ _ _ r (Hcore r) (C' r))|]. intros r j. rewrite N'.
    assert (Hold : ∀ q, j ≠ i → next_at h2 q j = next_at h q j).
    { intros q Hj. rewrite N2, N1, !decide_False by (intros [_ ?]; done). done. }
    destruct (decide (j = i)) as [->|Hj].
    + rewrite decide_False, decide_True by lia. rewrite N2, N1, Hu. cbn [mbind option_bind].
      destruct (decide (r = new)) as [->|Hr].
      * rewrite decide_False by (intros [? _]; congruence). by rewrite decide_True.
      * destruct (decide (r = u)) as [->|Hru].
        -- by rewrite !decide_True.
        -- rewrite !decide_False by (intros E; destruct_and?; congruence). done.
    + rewrite Hold by done. destruct (decide (S i ≤ j < S i + n)%nat).
      * rewrite (decide_True (P := (i ≤ j < i + S n)%nat)) by lia. destruct (upd !! j); simpl; [|done].
        by rewrite Hold.
      * by rewrite decide_False by lia.
Qed.

(** What the unlinking loop leaves when every update node points to [curr]: they
    take over its links. *)
Lemma unlink_spec upd curr n : ∀ i h,
  (∀ j, (i ≤ j < i + n)%nat → is_Some (next_at h curr j) ∧
     ∃ u, upd !! j = Some u ∧ u ≠ curr ∧ next_at h u j = Some curr) →
  ∃ h', unlink upd curr i n h = Some h' ∧ (∀ r, same_core h h' r) ∧
    ∀ r j, next_at h' r j =
      if decide (i ≤ j < i + n ∧ upd !! j = Some r)%nat then next_at h curr j else next_at h r j.
Proof.
  induction n as [|n IH]; intros i h H; cbn [unlink].
  - exists h. split; [done|]. split; [done|]. intros r j. by rewrite decide_False by lia.
  - destruct (H i ltac:(lia)) as ([x Hx] & u & Hu & Hne & Hc). rewrite Hu. cbn [mbind option_bind].
    rewrite Hc. cbn [mbind option_bind]. rewrite Z.eqb_refl. cbn [negb].
    rewrite Hx. cbn [mbind option_bind].
    destruct (next_at_Some _ _ _ _ Hc) as (un & Hun & Hul).
    destruct (set_next_spec h u i x un Hun Hul) as (h1 & -> & C1 & N1). cbn [mbind option_bind].
    assert (Hold : ∀ q j, j ≠ i → next_at h1 q j = next_at h q j).
    { intros q j Hj. by rewrite N1, decide_False by (intros [_ ?]; done). }
    destruct (IH (S i) h1) as (h' & -> & C' & N').
    { intros j Hj. destruct (H j ltac:(lia)) as (Hnj & v & Hv & Hvn & Hvj).
      rewrite Hold by lia. split; [done|]. exists v. rewrite Hold by lia. by split_and!. }
    exists h'. split; [done|]. split; [intros r; exact (same_core_trans _ _ _ r (C1 r) (C' r))|]. intros r j. rewrite N'.
    destruct (decide (j = i)) as [->|Hj].
    + rewrite decide_False by lia. rewrite N1. destruct (decide (r = u)) as [->|Hr].
      * rewrite !decide_True by first [done|split; [lia|done]]. done.
      * rewrite !decide_False by (intros [? ?]; congruence). done.
    + rewrite !Hold by done. destruct (decide (S i ≤ j < S i + n ∧ upd !! j = Some r)%nat) as [[? ?]|Hn].
      * by rewrite decide_True by (split; [lia|done]).
      * rewrite decide_False; [done|]. intros [? ?]. apply Hn. split; [lia|done].
Qed.

(** ** Walking *)

Section walking.
Context (mem : Z → Z) (h : skip_heap) (key key_len : Z).

Definition less_at (p : Z) : Prop := ∃ n, h !! p = Some n ∧ node_less mem n key key_len = true.
Definition not_less_at (p : Z) : Prop := ∃ n, h !! p = Some n ∧ node_less mem n key key_len = false.

(** From [p] the walk goes over the nodes that are less and stops. *)
Lemma walk_ok i fuel l1 : ∀ p l2,
  chain h i p (l1 ++ l2) → Forall less_at l1 → Forall not_less_at l2 →
  (length l1 < fuel)%nat → walk mem fuel h i key key_len p = Some (end_of p l1).
Proof.
  revert fuel. induction l1 as [|q l1 IH]; intros [|fuel] p l2 Hc H1 H2 Hf; simpl in *; try lia.
  - destruct l2 as [|q l2]; simpl in *.
    + by rewrite Hc.
    + destruct Hc as (E & Hq & _). rewrite E. simpl. rewrite (proj2 (Z.eqb_neq q NULL)) by done.
      apply Forall_cons in H2 as [(n & Hn & El) _]. rewrite Hn. simpl. by rewrite El.
  - destruct Hc as (E & Hq & Hc). rewrite E. simpl. rewrite (proj2 (Z.eqb_neq q NULL)) by done.
    apply Forall_cons in H1 as [(n & Hn & El) H1]. rewrite Hn. simpl. rewrite El.
    by apply (IH fuel q l2); auto with lia.
Qed.
End walking.

(** The last node of a coarser chain is on every finer one. *)
Lemma end_of_filter (P Q : Z → Prop) `{!∀ x, Decision (P x), !∀ x, Decision (Q x)} A : ∀ p,
  (∀ x, P x → Q x) →
  ∃ X Y, filter Q A = X ++ Y ∧ end_of p X = end_of p (filter P A).
Proof.
  intros p HPQ. revert p. induction A as [|a A IH]; intros p; [by exists [], []|].
  destruct (decide (P a)) as [HP|HP].
  - rewrite !filter_cons_True by auto. destruct (IH a) as (X & Y & -> & E).
    by exists (a :: X), Y.
  - rewrite (filter_cons_False P) by done.
    destruct (decide (filter P A = [])) as [->|Hne]; [by exists [], (filter Q (a :: A))|].
    destruct (decide (Q a)) as [HQ|HQ].
    + rewrite filter_cons_True by done. destruct (IH a) as (X & Y & -> & E).
      exists (a :: X), Y. split; [done|]. simpl. rewrite E. by apply end_of_ne.
    + rewrite filter_cons_False by done. apply IH.
Qed.
