(* ===== verification/SkipMap.v ===== *)
(** * The skip list is a map (src/structs/skip_list.c)

    The invariant of a shard and of the sharded list, the search, and the theorems
    that put, get and remove implement a finite map from key bytes to values and
    that creation and destruction balance. *)

From stdpp Require Import prelude gmap sorting.
From Stdlib Require Import ZArith Lia.
From S2P Require Import Prelude Words Arena Ring Context HashTable RobinHood SkipList SkipChain.
Local Open Scope Z_scope.
Local Open Scope word_scope.

(** ** Invariant of a shard *)

Section shard.
Context (mem : Z → Z).
Implicit Types (h : skip_heap) (sh : nkit_skip_shard_t) (order : list Z).

Definition node_ok (max_level : Z) (n : nkit_skip_node_t) : Prop :=
  0 < sn_key_len n ∧ 1 ≤ sn_level n ≤ max_level ∧ length (sn_next n) = Z.to_nat (sn_level n).

(** [order] lists the shard's nodes, without the head, by increasing key; level
    [i] links the head and those whose tower is higher than [i]. *)
Record shard_ok h sh order : Prop := {
  sk_max : 1 ≤ sh_max_level sh < 2 ^ 31;
  sk_head : sh_head sh ≠ NULL ∧ lev h (sh_head sh) = Z.to_nat (sh_max_level sh);
  sk_nodes : ∀ p, p ∈ order → p ≠ NULL ∧ ∃ n, h !! p = Some n ∧ node_ok (sh_max_level sh) n;
  sk_nodup : NoDup (sh_head sh :: order);
  sk_sorted : StronglySorted klt (key_at mem h <$> order);
  sk_chain : ∀ i, (i < Z.to_nat (sh_max_level sh))%nat → chain h i (sh_head sh) (tower h i order);
  sk_count : sh_count sh = u64 (Z.of_nat (length order));
}.

(** ** Searching *)

Lemma node_less_klt n key len :
  0 ≤ sn_key_len n → 0 ≤ len →
  node_less mem n key len = true ↔
    klt (read_bytes mem (sn_key n) (sn_key_len n)) (read_bytes mem key len).
Proof.
  intros Hn Hl. unfold node_less, klt.
  rewrite orb_true_iff, andb_true_iff, Z.ltb_lt, Z.eqb_eq, !read_bytes_length. split.
  - intros [?|[E ?]]; [left; lia|]. right. rewrite E. split; [done|]. done.
  - intros [?|[? E]]; [left; lia|]. right. assert (E' : sn_key_len n = len) by lia. by rewrite E' in E.
Qed.

#[export] Instance klt_dec a b : Decision (klt a b).
Proof.
  unfold klt. destruct (decide (length a < length b)%nat); [left; by left|].
  destruct (decide (length a = length b)); [|right; lia].
  destruct (lex_lt a b) eqn:E; [left; by right|right]. intros [?|[_ ?]]; [done|congruence].
Defined.

(** A sorted list splits at a key. *)
Lemma sorted_split h order (k : list Z) :
  StronglySorted klt (key_at mem h <$> order) →
  ∃ A B, order = A ++ B ∧ Forall (λ p, klt (key_at mem h p) k) A ∧
    Forall (λ p, ¬ klt (key_at mem h p) k) B.
Proof.
  intros Hs. induction order as [|p order IH]; [by exists [], []|].
  csimpl in Hs. apply StronglySorted_inv in Hs as [Hs Hf].
  destruct (decide (klt (key_at mem h p) k)) as [Hp|Hp].
  - destruct (IH Hs) as (A & B & -> & HA & HB). exists (p :: A), B. by split_and!; [|constructor|].
  - exists [], (p :: order). split; [done|]. split; [done|]. constructor; [done|].
    rewrite Forall_fmap in Hf. eapply Forall_impl; [exact Hf|]. intros q Hq Hqk. simpl in Hq.
    apply Hp. by transitivity (key_at mem h q).
Qed.

Lemma order_fits h sh order : shard_ok h sh order → (length order < S (size h))%nat.
Proof.
  intros H. pose proof (sk_nodup _ _ _ H) as Hnd. apply NoDup_cons in Hnd as [_ Hnd].
  assert (Hle : (length order ≤ size h)%nat); [|lia].
  rewrite <-(size_list_to_set (C:=gset Z) order Hnd), <-size_dom.
  apply subseteq_size. intros p Hp. apply elem_of_list_to_set in Hp.
  destruct (sk_nodes _ _ _ H p Hp) as (_ & n & Hn & _). apply elem_of_dom. eauto.
Qed.

Lemma tower_app h i l1 l2 : tower h i (l1 ++ l2) = tower h i l1 ++ tower h i l2.
Proof. apply filter_app. Qed.

Lemma tower_all h sh order l : shard_ok h sh order → l ⊆ order → tower h 0 l = l.
Proof.
  intros H Hl. unfold tower. induction l as [|p l IH]; [done|].
  destruct (sk_nodes _ _ _ H p) as (_ & n & Hn & _ & Hlv & El); [apply Hl; by left|].
  rewrite filter_cons_True; [|unfold lev; rewrite Hn; lia]. f_equal. apply IH. intros q Hq. apply Hl. by right.
Qed.

Lemma tower_none h sh order l : shard_ok h sh order → l ⊆ order →
  tower h (Z.to_nat (sh_max_level sh)) l = [].
Proof.
  intros H Hl. unfold tower. induction l as [|p l IH]; [done|].
  destruct (sk_nodes _ _ _ H p) as (_ & n & Hn & _ & Hlv & El); [apply Hl; by left|].
  rewrite filter_cons_False; [|unfold lev; rewrite Hn; lia]. apply IH. intros q Hq. apply Hl. by right.
Qed.

(** The update node of level [i] when the nodes before the key are [A]. *)
Definition pred h sh (A : list Z) (i : nat) : Z := end_of (sh_head sh) (tower h i A).

Lemma descend_ok h sh A B key len n :
  shard_ok h sh (A ++ B) → Forall (less_at mem h key len) A → Forall (not_less_at mem h key len) B →
  (n ≤ Z.to_nat (sh_max_level sh))%nat →
  descend mem (S (size h)) h key len n (pred h sh A n) =
    Some (pred h sh A 0, pred h sh A <$> seq 0 n).
Proof.
  intros H HA HB. induction n as [|i IH]; intros Hn; cbn [descend]; [done|].
  pose proof (sk_chain _ _ _ H i ltac:(lia)) as Hc. rewrite tower_app in Hc.
  destruct (end_of_filter (λ p, (S i < lev h p)%nat) (λ p, (i < lev h p)%nat) A (sh_head sh)
    ltac:(simpl; lia)) as (X & Y & EXY & Eend).
  assert (Etow : tower h i A = X ++ Y) by done. rewrite Etow, <-app_assoc in Hc.
  apply chain_suffix in Hc. rewrite Eend in Hc. fold (tower h (S i) A) in Hc. fold (pred h sh A (S i)) in Hc.
  pose proof (order_fits _ _ _ H) as Hfit. rewrite length_app in Hfit.
  assert (Hsub : ∀ p, p ∈ Y → p ∈ A).
  { intros p Hp. assert (Hin : p ∈ tower h i A) by (rewrite Etow; apply elem_of_app; by right).
    by apply list_elem_of_filter in Hin as [_ ?]. }
  assert (Hly : (length Y ≤ length A)%nat).
  { pose proof (length_filter (λ p, (i < lev h p)%nat) A) as Hlf. unfold tower in Etow.
    rewrite Etow, length_app in Hlf. lia. }
  rewrite (walk_ok mem h key len i (S (size h)) Y _ (tower h i B) Hc).
  - cbn [mbind option_bind].
    replace (end_of (pred h sh A (S i)) Y) with (pred h sh A i).
    2:{ unfold pred at 1. rewrite Etow, end_of_app, Eend. done. }
    rewrite IH by lia. cbn [mbind option_bind fst snd]. by rewrite seq_S, fmap_app.
  - apply Forall_forall. intros p Hp. rewrite Forall_forall in HA. auto.
  - apply Forall_forall. intros p [_ Hp]%list_elem_of_filter. rewrite Forall_forall in HB. auto.
  - lia.
Qed.

(** The search splits the nodes at the key: those less than it, after which the
    candidate and the update nodes lie, and those not less, of which the
    candidate is the first. *)
Lemma search_ok h sh order key len :
  shard_ok h sh order → 0 ≤ len →
  ∃ A B, order = A ++ B ∧
    Forall (λ p, klt (key_at mem h p) (read_bytes mem key len)) A ∧
    Forall (λ p, ¬ klt (key_at mem h p) (read_bytes mem key len)) B ∧
    search mem h sh key len =
      Some (default NULL (head B), pred h sh A <$> seq 0 (Z.to_nat (sh_max_level sh))).
Proof.
  intros H Hlen. destruct (sorted_split h order (read_bytes mem key len) (sk_sorted _ _ _ H))
    as (A & B & -> & HA & HB). exists A, B. split; [done|]. split; [done|]. split; [done|].
  assert (Hless : ∀ p, p ∈ A ++ B → ∃ n, h !! p = Some n ∧
    (node_less mem n key len = true ↔ klt (key_at mem h p) (read_bytes mem key len))).
  { intros p Hp. destruct (sk_nodes _ _ _ H p Hp) as (_ & n & Hn & Hk & _). exists n. split; [done|].
    unfold key_at. rewrite Hn. apply node_less_klt; lia. }
  pose proof (sk_max _ _ _ H) as Hmax. unfold search.
  assert (Es : s32 (sh_max_level sh) = sh_max_level sh).
  { unfold s32. rewrite u32_small by (unfold is_u32; lia). cmp_cases; lia. }
  rewrite Es. pose proof (descend_ok h sh A B key len (Z.to_nat (sh_max_level sh)) H) as Hd.
  replace (pred h sh A (Z.to_nat (sh_max_level sh))) with (sh_head sh) in Hd.
  2:{ unfold pred. rewrite (tower_none h sh (A ++ B)); [done|done|]. intros p ?. apply elem_of_app. by left. }
  rewrite Hd; [|..|lia]. 
  - cbn [mbind option_bind fst snd]. pose proof (sk_chain _ _ _ H 0%nat ltac:(lia)) as Hc.
    rewrite tower_app in Hc. apply chain_suffix in Hc. fold (pred h sh A 0) in Hc.
    rewrite (tower_all h sh (A ++ B) B) in Hc; [|done|intros p ?; apply elem_of_app; by right].
    destruct B as [|b B]; simpl in Hc; [by rewrite Hc|]. destruct Hc as [-> _]. done.
  - apply Forall_forall. intros p Hp. destruct (Hless p) as (n & Hn & Hi); [apply elem_of_app; by left|].
    exists n. split; [done|]. apply Hi. rewrite Forall_forall in HA. auto.
  - apply Forall_forall. intros p Hp. destruct (Hless p) as (n & Hn & Hi); [apply elem_of_app; by right|].
    exists n. split; [done|]. apply not_true_is_false. intros E. apply Hi in E.
    rewrite Forall_forall in HB. by apply (HB p).
Qed.

(** The candidate is the key's node, or the key is not there and what follows is
    greater. *)
Lemma found_ok h sh A B key len :
  shard_ok h sh (A ++ B) → 0 ≤ len →
  Forall (λ p, ¬ klt (key_at mem h p) (read_bytes mem key len)) B →
  (∃ c B' n, B = c :: B' ∧ h !! c = Some n ∧ key_at mem h c = read_bytes mem key len ∧
     found mem h (default NULL (head B)) key len = Some true) ∨
  (found mem h (default NULL (head B)) key len = Some false ∧
     Forall (λ p, klt (read_bytes mem key len) (key_at mem h p)) B).
Proof.
  intros H Hlen HB. destruct B as [|c B]; [right; by split; [|constructor]|].
  destruct (sk_nodes _ _ _ H c) as (Hc & n & Hn & Hk & _); [apply elem_of_app; right; by left|].
  assert (Ekey : key_at mem h c = read_bytes mem (sn_key n) (sn_key_len n)) by (unfold key_at; by rewrite Hn).
  unfold found. simpl. rewrite (proj2 (Z.eqb_neq c NULL)) by done. rewrite Hn. simpl.
  destruct (keys_equal mem (sn_key n) (sn_key_len n) key len) eqn:E.
  - left. apply keys_equal_spec in E; [|lia..]. exists c, B, n. by rewrite Ekey.
  - right. split; [done|]. apply Forall_cons in HB as [HB _].
    assert (Hlt : klt (read_bytes mem key len) (key_at mem h c)).
    { apply klt_total; [done|]. rewrite Ekey. intros E'. apply keys_equal_spec in E'; [congruence|lia..]. }
    constructor; [done|]. pose proof (sk_sorted _ _ _ H) as Hs. rewrite fmap_app in Hs.
    apply StronglySorted_app_1_r in Hs. csimpl in Hs. apply StronglySorted_inv in Hs as [_ Hs].
    rewrite Forall_fmap in Hs. eapply Forall_impl; [exact Hs|]. intros p Hp. simpl in Hp.
    by transitivity (key_at mem h c).
Qed.

(** ** Framing *)

(** All of a node but its value. *)
Definition shape (n : nkit_skip_node_t) : Z * Z * Z * list Z :=
  (sn_key n, sn_key_len n, sn_level n, sn_next n).

Lemma shape_fields h h' p : shape <$> h' !! p = shape <$> h !! p →
  lev h' p = lev h p ∧ key_at mem h' p = key_at mem h p ∧ ∀ i, next_at h' p i = next_at h p i.
Proof.
  unfold lev, key_at, next_at, shape. destruct (h' !! p), (h !! p); simpl; intros E; simplify_eq; [|done].
  split; [congruence|]. split; [congruence|]. intros i. congruence.
Qed.

Lemma tower_ext h h' i l : (∀ p, p ∈ l → lev h' p = lev h p) → tower h' i l = tower h i l.
Proof.
  intros H. unfold tower. induction l as [|p l IH]; [done|].
  assert (IH' : filter (λ p, (i < lev h' p)%nat) l = filter (λ p, (i < lev h p)%nat) l).
  { apply IH. intros q Hq. apply H. by right. }
  specialize (H p ltac:(by left)). destruct (decide (i < lev h p)%nat).
  - rewrite !filter_cons_True by lia. by rewrite IH'.
  - rewrite !filter_cons_False by lia. done.
Qed.

Lemma keys_ext h h' (l : list Z) : (∀ p, p ∈ l → key_at mem h' p = key_at mem h p) →
  key_at mem h' <$> l = key_at mem h <$> l.
Proof.
  intros H. apply list_fmap_ext. intros i p Hp. apply H. by eapply list_elem_of_lookup_2.
Qed.

Lemma tower_sub h i l : tower h i l ⊆ l.
Proof. intros p [_ ?]%list_elem_of_filter. done. Qed.

(** A shard does not depend on the values, nor on other nodes. *)
Lemma shard_ok_shape h h' sh order :
  (∀ p, p ∈ sh_head sh :: order → shape <$> h' !! p = shape <$> h !! p) →
  shard_ok h sh order → shard_ok h' sh order.
Proof.
  intros He H. assert (Hl : ∀ p, p ∈ sh_head sh :: order → lev h' p = lev h p).
  { intros p Hp. by apply shape_fields, He. }
  assert (Hk : ∀ p, p ∈ order → key_at mem h' p = key_at mem h p).
  { intros p Hp. apply shape_fields, He. by right. }
  split.
  - apply H.
  - rewrite Hl by by left. apply H.
  - intros p Hp. destruct (sk_nodes _ _ _ H p Hp) as (Hnn & n & Hn & Hok). split; [done|].
    specialize (He p ltac:(by right)). rewrite Hn in He. destruct (h' !! p) as [n'|]; simpl in He; [|done].
    exists n'. split; [done|]. injection He as _ E2 E3 E4. unfold node_ok in *. by rewrite E2, E3, E4.
  - apply H.
  - rewrite (keys_ext h) by done. apply H.
  - intros i Hi. rewrite (tower_ext h) by (intros; apply Hl; by right).
    apply (chain_ext h); [|by apply H]. intros q Hq. apply shape_fields, He.
    apply elem_of_cons in Hq as [->|Hq]; [by left|]. right. by apply (tower_sub h i order).
  - apply H.
Qed.

(** The fields a failed or successful put may change besides the list. *)
Lemma shard_ok_meta h sh cur seed order :
  shard_ok h sh order →
  shard_ok h (mk_shard (sh_head sh) (sh_max_level sh) cur (sh_count sh) (sh_node_id sh) seed) order.
Proof. intros H. by split; apply H. Qed.

Lemma pred_in h sh A i : pred h sh A i ∈ sh_head sh :: A.
Proof.
  pose proof (end_of_in (tower h i A) (sh_head sh)) as Hin. apply elem_of_cons in Hin as [E|Hin].
  - unfold pred. rewrite E. by left.
  - right. by apply (tower_sub h i A).
Qed.

Lemma pred_lev h sh A B i : shard_ok h sh (A ++ B) → (i < Z.to_nat (sh_max_level sh))%nat →
  (i < lev h (pred h sh A i))%nat.
Proof.
  intros H Hi. pose proof (end_of_in (tower h i A) (sh_head sh)) as Hin. fold (pred h sh A i) in Hin.
  apply elem_of_cons in Hin as [->|Hin].
  - destruct (sk_head _ _ _ H) as [_ ->]. done.
  - by apply list_elem_of_filter in Hin as [? _].
Qed.

Lemma in_heap h sh order p : shard_ok h sh order → p ∈ sh_head sh :: order → is_Some (h !! p).
Proof.
  intros H [->|Hp]%elem_of_cons.
  - destruct (sk_head _ _ _ H) as [_ E]. pose proof (sk_max _ _ _ H). unfold lev in E.
    destruct (h !! sh_head sh); [eauto|lia].
  - destruct (sk_nodes _ _ _ H p Hp) as (_ & n & Hn & _). eauto.
Qed.

(** ** Linking a new node *)

Lemma update_lookup h sh A i : (i < Z.to_nat (sh_max_level sh))%nat →
  (pred h sh A <$> seq 0 (Z.to_nat (sh_max_level sh))) !! i = Some (pred h sh A i).
Proof. intros Hi. rewrite list_lookup_fmap, lookup_seq_lt by done. done. Qed.

Lemma chain_nodup h sh order i : shard_ok h sh order → NoDup (sh_head sh :: tower h i order).
Proof.
  intros H. pose proof (sk_nodup _ _ _ H) as Hnd. apply NoDup_cons in Hnd as [Hh Hnd].
  apply NoDup_cons. split; [|by apply NoDup_filter]. intros Hin. apply Hh. by apply (tower_sub h i order).
Qed.

(** What is seen of the heap after linking: the new node, and all others as
    before but for the links. *)
Lemma link_heap h sh A B new n L :
  shard_ok h sh (A ++ B) → h !! new = None → length (sn_next n) = L →
  (L ≤ Z.to_nat (sh_max_level sh))%nat →
  ∃ h', link (pred h sh A <$> seq 0 (Z.to_nat (sh_max_level sh))) new 0 L (<[new := n]> h) = Some h' ∧
    core <$> h' !! new = Some (core n) ∧ (∀ r, r ≠ new → same_core h h' r) ∧
    (∀ i, (i < L)%nat → next_at h' new i = next_at h (pred h sh A i) i ∧
                        next_at h' (pred h sh A i) i = Some new) ∧
    (∀ r i, r ≠ new → (i < L)%nat → r ≠ pred h sh A i → next_at h' r i = next_at h r i) ∧
    (∀ r i, r ≠ new → (L ≤ i)%nat → next_at h' r i = next_at h r i).
Proof.
  intros H Hnew Hlen HL. set (upd := pred h sh A <$> _).
  assert (Hpn : ∀ i, pred h sh A i ≠ new).
  { intros i E. destruct (in_heap h sh (A ++ B) (pred h sh A i) H) as [m Hm]; [|congruence].
    pose proof (pred_in h sh A i) as Hin. apply elem_of_cons in Hin as [->|Hin]; [by left|].
    right. apply elem_of_app. by left. }
  assert (Hn1 : ∀ r i, r ≠ new → next_at (<[new := n]> h) r i = next_at h r i).
  { intros r i Hr. unfold next_at. by rewrite lookup_insert_ne. }
  destruct (link_spec upd new L 0 (<[new := n]> h)) as (h' & E & Hcore & Hnext).
  { intros j Hj. split.
    - apply next_at_lev. unfold lev. rewrite lookup_insert_eq. lia.
    - exists (pred h sh A j). unfold upd. rewrite update_lookup by lia. split; [done|]. split; [done|].
      rewrite Hn1 by done. apply next_at_lev. eapply pred_lev; [exact H|lia]. }
  exists h'. split; [done|]. split; [|split; [|split; [|split]]].
  - pose proof (Hcore new) as Ec. unfold same_core in Ec. by rewrite lookup_insert_eq in Ec.
  - intros r Hr. pose proof (Hcore r) as Ec. unfold same_core in *. by rewrite lookup_insert_ne in Ec.
  - intros i Hi. split; rewrite Hnext; rewrite (decide_True (P := (0 ≤ i < 0 + L)%nat)) by lia.
    + rewrite decide_True by done. unfold upd. rewrite update_lookup by lia. cbn [mbind option_bind].
      by apply Hn1.
    + rewrite decide_False by done. unfold upd. rewrite update_lookup by lia. by rewrite decide_True.
  - intros r i Hr Hi Hp. rewrite Hnext, decide_True by lia. rewrite decide_False by done.
    unfold upd. rewrite update_lookup by lia. rewrite decide_False by congruence. by apply Hn1.
  - intros r i Hr Hi. rewrite Hnext, decide_False by lia. by apply Hn1.
Qed.

(** A node with the same fields and the same links is the same. *)
Lemma node_ext h h' r :
  same_core h h' r → (∀ i, next_at h' r i = next_at h r i) → h' !! r = h !! r.
Proof.
  unfold same_core, next_at, core. intros Hc Hn.
  destruct (h !! r) as [n|], (h' !! r) as [n'|]; simpl in *; try done.
  f_equal. destruct n as [k l v lv nx], n' as [k' l' v' lv' nx']. simpl in *. simplify_eq.
  f_equal. by apply list_eq.
Qed.

(** Key, tower and the rest of a node's invariant survive relinking. *)
Lemma node_ok_core h h' m p :
  same_core h h' p → (∃ n, h !! p = Some n ∧ node_ok m n) → ∃ n, h' !! p = Some n ∧ node_ok m n.
Proof.
  intros Ec (n & Hn & Hok). unfold same_core in Ec. rewrite Hn in Ec.
  destruct (h' !! p) as [n'|]; [|done]. injection Ec as _ E2 _ E4 E5.
  exists n'. split; [done|]. unfold node_ok in *. by rewrite <-E2, <-E4, <-E5.
Qed.

Lemma sorted_insert (KA KB : list (list Z)) k :
  StronglySorted klt (KA ++ KB) → Forall (λ a, klt a k) KA → Forall (klt k) KB →
  StronglySorted klt (KA ++ k :: KB).
Proof.
  rewrite !StronglySorted_app. intros (Hx & HA & HB) Ha Hb. split_and!; [|done|by constructor].
  intros a b Hina [->|Hinb]%elem_of_cons; [|by apply Hx].
  by apply (proj1 (Forall_forall _ _) Ha).
Qed.

Lemma sorted_delete (KA KB : list (list Z)) k :
  StronglySorted klt (KA ++ k :: KB) → StronglySorted klt (KA ++ KB).
Proof.
  rewrite !StronglySorted_app. intros (Hx & HA & HB). apply StronglySorted_inv in HB as [HB _].
  split_and!; [|done..]. intros a b Hina Hinb. apply Hx; [done|by right].
Qed.

Lemma insert_chain h h' sh A B new L i :
  shard_ok h sh (A ++ B) → h !! new = None → new ≠ NULL →
  (i < Z.to_nat (sh_max_level sh))%nat → lev h' new = L →
  (∀ p, p ∈ A ++ B → lev h' p = lev h p) →
  ((i < L)%nat → next_at h' new i = next_at h (pred h sh A i) i ∧
                 next_at h' (pred h sh A i) i = Some new) →
  (∀ r, r ≠ new → (i < L)%nat → r ≠ pred h sh A i → next_at h' r i = next_at h r i) →
  (∀ r, r ≠ new → (L ≤ i)%nat → next_at h' r i = next_at h r i) →
  chain h' i (sh_head sh) (tower h' i (A ++ new :: B)).
Proof.
  intros H Hnew Hnn Hi Elev Hold N1 N2 N3.
  rewrite tower_app. unfold tower at 2. rewrite filter_cons. fold (tower h' i B).
  rewrite (tower_ext h h' i A), (tower_ext h h' i B)
    by (intros; apply Hold, elem_of_app; by first [left; done|right; done]).
  pose proof (sk_chain _ _ _ H i Hi) as Hc. pose proof (chain_nodup h sh (A ++ B) i H) as Hnd.
  assert (Hfresh : ∀ p, p ∈ sh_head sh :: tower h i (A ++ B) → p ≠ new).
  { intros p Hp ->. destruct (in_heap h sh (A ++ B) new H); [|congruence].
    apply elem_of_cons in Hp as [->|Hp]; [by left|]. right. by apply (tower_sub h i (A ++ B)). }
  rewrite tower_app in Hc, Hnd, Hfresh. rewrite Elev. case_decide as Hd.
  - destruct (N1 Hd). apply (chain_insert h h' i new); auto. intros Hin. by apply (Hfresh new).
  - apply (chain_ext h); [|done]. intros q Hq. apply N3; [by apply Hfresh|lia].
Qed.

Lemma insert_ok h sh A B key len v new L cur seed node :
  shard_ok h sh (A ++ B) → 0 < len → h !! new = None → new ≠ NULL →
  1 ≤ L ≤ sh_max_level sh →
  Forall (λ p, klt (key_at mem h p) (read_bytes mem key len)) A →
  Forall (λ p, klt (read_bytes mem key len) (key_at mem h p)) B →
  ∃ h', link (pred h sh A <$> seq 0 (Z.to_nat (sh_max_level sh))) new 0 (Z.to_nat L)
          (<[new := mk_snode key len v L (replicate (Z.to_nat L) NULL)]> h) = Some h' ∧
    shard_ok h' (mk_shard (sh_head sh) (sh_max_level sh) cur (sh_count sh +w 1) node seed)
      (A ++ new :: B) ∧
    key_at mem h' new = read_bytes mem key len ∧ value_at h' new = v ∧
    (∀ r, r ≠ new → same_core h h' r) ∧
    (∀ r, r ≠ new → r ∉ sh_head sh :: A ++ B → h' !! r = h !! r).
Proof.
  intros H Hlen Hnew Hnn HL HA HB. set (nd := mk_snode key len v L _).
  destruct (link_heap h sh A B new nd (Z.to_nat L) H Hnew) as (h' & E & Cn & Co & N1 & N2 & N3);
    [by simpl; rewrite length_replicate|lia|].
  exists h'. split; [done|].
  assert (Hfresh : ∀ p, p ∈ sh_head sh :: A ++ B → p ≠ new).
  { intros p Hp ->. destruct (in_heap _ _ _ _ H Hp); congruence. }
  assert (Hold : ∀ p, p ∈ sh_head sh :: A ++ B →
    lev h' p = lev h p ∧ key_at mem h' p = key_at mem h p).
  { intros p Hp. destruct (same_core_fields mem h h' p (Co p (Hfresh p Hp))) as (? & ? & _). done. }
  destruct (h' !! new) as [n'|] eqn:En'; [|done]. unfold core in Cn. simpl in Cn.
  injection Cn as Ck Cl Cv Clv Cnx. rewrite length_replicate in Cnx.
  assert (Ekey : key_at mem h' new = read_bytes mem key len) by (unfold key_at; by rewrite En', Ck, Cl).
  assert (Elev : lev h' new = Z.to_nat L) by (unfold lev; by rewrite En').
  split; [|split; [done|split; [unfold value_at; by rewrite En'|split; [done|]]]].
  2:{ intros r Hr Hout. apply node_ext; [by apply Co|]. intros i.
      destruct (decide (i < Z.to_nat L)%nat); [|by apply N3; [|lia]]. apply N2; auto. intros ->. apply Hout.
      pose proof (pred_in h sh A i) as Hin. apply elem_of_cons in Hin as [->|Hin]; [by left|].
      right. apply elem_of_app. by left. }
  assert (HinA : ∀ p, p ∈ A → p ∈ sh_head sh :: A ++ B) by (intros; right; apply elem_of_app; by left).
  assert (HinB : ∀ p, p ∈ B → p ∈ sh_head sh :: A ++ B) by (intros; right; apply elem_of_app; by right).
  split; simpl.
  - apply H.
  - rewrite (proj1 (Hold _ ltac:(by left))). apply H.
  - intros p Hp. destruct (decide (p = new)) as [->|Hpn].
    + split; [done|]. exists n'. split; [done|]. unfold node_ok. rewrite Cl, Clv, Cnx. split_and!; lia || done.
    + assert (Hp' : p ∈ A ++ B).
      { rewrite <-Permutation_middle in Hp. by apply elem_of_cons in Hp as [?|?]. }
      destruct (sk_nodes _ _ _ H p Hp') as (Hnz & Hm). split; [done|].
      by apply (node_ok_core h h'); [apply Co|].
  - pose proof (sk_nodup _ _ _ H) as Hnd. rewrite <-Permutation_middle, Permutation_swap.
    apply NoDup_cons. split; [|done]. intros Hin. by apply (Hfresh new).
  - rewrite fmap_app, fmap_cons, Ekey, (keys_ext h h' A), (keys_ext h h' B)
      by (intros; apply Hold; auto).
    apply sorted_insert; [rewrite <-fmap_app; apply H|by apply Forall_fmap..].
  - intros i Hi. apply (insert_chain h h' sh A B new (Z.to_nat L)); auto.
    intros p Hp. apply Hold. by right.
  - rewrite (sk_count _ _ _ H), u64_add_l. f_equal. rewrite !length_app. simpl. lia.
Qed.

(** ** Unlinking a node *)

Lemma tower_cons h i A c B :
  tower h i (A ++ c :: B) =
    tower h i A ++ (if decide (i < lev h c)%nat then [c] else []) ++ tower h i B.
Proof. rewrite tower_app. unfold tower at 2. rewrite filter_cons. by case_decide. Qed.

Lemma removed_out h sh A c B : shard_ok h sh (A ++ c :: B) → c ∉ sh_head sh :: A ++ B.
Proof.
  intros H. pose proof (sk_nodup _ _ _ H) as Hnd.
  rewrite <-Permutation_middle, Permutation_swap in Hnd. by apply NoDup_cons in Hnd as [? _].
Qed.

Lemma pred_in_app h sh A B i : pred h sh A i ∈ sh_head sh :: A ++ B.
Proof.
  pose proof (pred_in h sh A i) as Hin. apply elem_of_cons in Hin as [->|Hin]; [by left|].
  right. apply elem_of_app. by left.
Qed.

(** The heap after unlinking and freeing [c]. *)
Lemma unlink_heap h sh A c B L :
  shard_ok h sh (A ++ c :: B) → lev h c = L → (L ≤ Z.to_nat (sh_max_level sh))%nat →
  ∃ h', unlink (pred h sh A <$> seq 0 (Z.to_nat (sh_max_level sh))) c 0 L h = Some h' ∧
    (∀ r, r ≠ c → same_core h (delete c h') r) ∧
    (∀ i, (i < L)%nat → next_at (delete c h') (pred h sh A i) i = next_at h c i) ∧
    (∀ r i, r ≠ c → (i < L → r ≠ pred h sh A i)%nat → next_at (delete c h') r i = next_at h r i).
Proof.
  intros H Elev HL. pose proof (removed_out _ _ _ _ _ H) as Hcout.
  assert (Hpc : ∀ i, pred h sh A i ≠ c) by (intros i <-; apply Hcout, pred_in_app).
  destruct (unlink_spec (pred h sh A <$> seq 0 (Z.to_nat (sh_max_level sh))) c L 0 h)
    as (h' & E & Hcore & Hnext).
  { intros j Hj. split; [apply next_at_lev; lia|]. exists (pred h sh A j). rewrite update_lookup by lia.
    split; [done|]. split; [done|]. pose proof (sk_chain _ _ _ H j ltac:(lia)) as Hc.
    rewrite tower_cons, decide_True in Hc by lia. apply chain_suffix in Hc. by destruct Hc. }
  assert (Hdel : ∀ r j, r ≠ c → next_at (delete c h') r j = next_at h' r j).
  { intros r j Hr. unfold next_at. by rewrite lookup_delete_ne. }
  exists h'. split; [done|]. split; [|split].
  - intros r Hr. unfold same_core. rewrite lookup_delete_ne by done. apply Hcore.
  - intros i Hi. rewrite Hdel, Hnext by done. rewrite decide_True; [done|].
    rewrite update_lookup by lia. split; [lia|done].
  - intros r i Hr Hp. rewrite Hdel, Hnext by done. rewrite decide_False; [done|]. intros [Hi Hu].
    rewrite update_lookup in Hu by lia. simplify_eq. apply Hp; [lia|done].
Qed.

Lemma remove_ok h sh A c B n :
  shard_ok h sh (A ++ c :: B) → h !! c = Some n →
  ∃ h', unlink (pred h sh A <$> seq 0 (Z.to_nat (sh_max_level sh))) c 0 (Z.to_nat (sn_level n)) h = Some h' ∧
    shard_ok (delete c h') (mk_shard (sh_head sh) (sh_max_level sh) (sh_current_level sh)
      (sh_count sh -w 1) (sh_node_id sh) (sh_seed sh)) (A ++ B) ∧
    (∀ r, r ≠ c → same_core h (delete c h') r) ∧
    (∀ r, r ∉ sh_head sh :: A ++ c :: B → delete c h' !! r = h !! r).
Proof.
  intros H Hn. pose proof (removed_out _ _ _ _ _ H) as Hcout.
  destruct (sk_nodes _ _ _ H c) as (Hc0 & n0 & Hn0 & Hk & Hlv & Hln); [apply elem_of_app; right; by left|].
  simplify_eq. assert (Elev : lev h c = Z.to_nat (sn_level n)) by (unfold lev; by rewrite Hn).
  destruct (unlink_heap h sh A c B _ H Elev) as (h' & E & Hcore & N1 & N2); [lia|].
  exists h'. split; [done|]. set (h2 := delete c h') in *.
  assert (Hold : ∀ p, p ∈ sh_head sh :: A ++ B → p ≠ c ∧ lev h2 p = lev h p ∧ key_at mem h2 p = key_at mem h p).
  { intros p Hp. assert (Hpc : p ≠ c) by (intros ->; done). split; [done|].
    destruct (same_core_fields mem h h2 p (Hcore p Hpc)) as (? & ? & _). done. }
  assert (Hkeep : ∀ p, p ∈ A ++ B → p ∈ A ++ c :: B) by (intros p Hp; rewrite <-Permutation_middle; by right).
  split; [|split; [done|]].
  - split; simpl.
    + apply H.
    + rewrite (proj1 (proj2 (Hold _ ltac:(by left)))). apply H.
    + intros p Hp. destruct (sk_nodes _ _ _ H p (Hkeep p Hp)) as [? Hm]. split; [done|].
      apply (node_ok_core h h2); [|done]. apply Hcore, Hold. by right.
    + pose proof (sk_nodup _ _ _ H) as Hnd. rewrite <-Permutation_middle, Permutation_swap in Hnd.
      by apply NoDup_cons in Hnd as [_ ?].
    + rewrite (keys_ext h h2) by (intros; apply Hold; by right). rewrite fmap_app.
      apply (sorted_delete _ _ (key_at mem h c)). rewrite <-fmap_cons, <-fmap_app. apply H.
    + intros i Hi. rewrite (tower_ext h h2) by (intros; apply Hold; by right). rewrite tower_app.
      pose proof (sk_chain _ _ _ H i Hi) as Hc. pose proof (chain_nodup h sh _ i H) as Hnd.
      rewrite tower_cons, Elev in Hc, Hnd. case_decide as Hd; simpl in Hc, Hnd.
      * apply (chain_remove h h2 i c); [done|done|by apply N1|]. intros q Hq Hp. by apply N2.
      * apply (chain_ext h); [|done]. intros q Hq. apply N2; [|done]. apply Hold.
        apply elem_of_cons in Hq as [->|Hq]; [by left|]. rewrite <-tower_app in Hq.
        right. by apply (tower_sub h i (A ++ B)).
    + rewrite (sk_count _ _ _ H), u64_sub_l. f_equal. rewrite !length_app. simpl. lia.
  - intros r Hr. assert (Hrc : r ≠ c). { intros ->. apply Hr. right. apply elem_of_app. right. by left. }
    apply node_ext; [by apply Hcore|]. intros i. apply N2; [done|]. intros _ ->. apply Hr.
    apply pred_in_app.
Qed.

(** ** What a shard holds *)

Definition has h order (k : list Z) (v : Z) : Prop :=
  ∃ p, p ∈ order ∧ key_at mem h p = k ∧ value_at h p = v.

Lemma shard_keys_nodup h sh order : shard_ok h sh order → NoDup (key_at mem h <$> order).
Proof.
  intros H. pose proof (sk_sorted _ _ _ H) as Hs. induction Hs as [|k ks Hs IH Hf]; [constructor|].
  apply NoDup_cons. split; [|done]. intros Hin. rewrite Forall_forall in Hf.
  by apply (klt_irrefl k), Hf.
Qed.

Lemma key_unique h sh order p q : shard_ok h sh order → p ∈ order → q ∈ order →
  key_at mem h p = key_at mem h q → p = q.
Proof.
  intros H Hp Hq E. apply list_elem_of_lookup in Hp as [i Hi]. apply list_elem_of_lookup in Hq as [j Hj].
  assert (i = j) as ->; [|congruence]. apply (NoDup_lookup (key_at mem h <$> order) i j (key_at mem h p)).
  - by apply (shard_keys_nodup h sh).
  - by rewrite list_lookup_fmap, Hi.
  - rewrite list_lookup_fmap, Hj. simpl. by rewrite E.
Qed.

Lemma has_functional h sh order k v v' : shard_ok h sh order → has h order k v → has h order k v' → v = v'.
Proof.
  intros H (p & Hp & Ep & <-) (q & Hq & Eq & <-).
  rewrite (key_unique h sh order p q); [done..|congruence].
Qed.

(** Nodes with the same fields hold the same. *)
Lemma has_same_core h h' l k v : (∀ p, p ∈ l → same_core h h' p) → has h' l k v ↔ has h l k v.
Proof.
  intros Hc. split; intros (p & Hp & Ek & Ev); exists p;
    destruct (same_core_fields mem h h' p (Hc p Hp)) as (_ & E1 & E2); (split; [done|]); split; congruence.
Qed.

Lemma has_middle h A c B k v :
  has h (A ++ c :: B) k v ↔ (key_at mem h c = k ∧ value_at h c = v) ∨ has h (A ++ B) k v.
Proof.
  unfold has. setoid_rewrite <-Permutation_middle. setoid_rewrite elem_of_cons. split.
  - intros (p & [->|Hp] & ? & ?); [by left|right; eauto].
  - intros [[? ?]|(p & Hp & ? & ?)]; eauto.
Qed.

Lemma has_not h l k v : Forall (λ p, key_at mem h p ≠ k) l → ¬ has h l k v.
Proof. intros Hf (p & Hp & Ek & _). rewrite Forall_forall in Hf. by apply (Hf p). Qed.

(** No other node has the key of the candidate, or the key searched. *)
Lemma split_not_key h sh A B k :
  Forall (λ p, klt (key_at mem h p) k) A → Forall (λ p, klt k (key_at mem h p)) B →
  Forall (λ p, key_at mem h p ≠ k) (A ++ B).
Proof.
  intros HA HB. apply Forall_app. split.
  - eapply Forall_impl; [exact HA|]. intros p Hp E. simpl in Hp. rewrite E in Hp. by apply klt_irrefl in Hp.
  - eapply Forall_impl; [exact HB|]. intros p Hp E. simpl in Hp. rewrite E in Hp. by apply klt_irrefl in Hp.
Qed.

Lemma rest_not_key h sh A c B :
  shard_ok h sh (A ++ c :: B) → Forall (λ p, key_at mem h p ≠ key_at mem h c) (A ++ B).
Proof.
  intros H. apply Forall_forall. intros p Hp E. apply (removed_out _ _ _ _ _ H). right.
  rewrite <-(key_unique h sh _ p c H); [done| | |done].
  - rewrite <-Permutation_middle. by right.
  - rewrite <-Permutation_middle. by left.
Qed.

(** ** The operations of a shard *)

Lemma shard_get_ok h sh order key len :
  shard_ok h sh order → 0 < len →
  ∃ v, shard_get mem h sh key len = Some v ∧
    (has h order (read_bytes mem key len) v ∨
     (v = NULL ∧ ∀ v', ¬ has h order (read_bytes mem key len) v')).
Proof.
  intros H Hlen. destruct (search_ok h sh order key len H ltac:(lia)) as (A & B & -> & HA & HB & Es).
  unfold shard_get. rewrite Es. cbn [mbind option_bind fst snd].
  destruct (found_ok h sh A B key len H ltac:(lia) HB) as
    [(c & B' & n & -> & Hn & Ek & ->)|[-> HB2]]; cbn [mbind option_bind].
  - simpl. rewrite Hn. simpl. eexists. split; [done|]. left. exists c.
    split; [apply elem_of_app; right; by left|]. split; [done|]. unfold value_at. by rewrite Hn.
  - eexists. split; [done|]. right. split; [done|]. intros v'. apply has_not.
    by eapply split_not_key.
Qed.

Lemma shard_remove_ok h sh order key len :
  shard_ok h sh order → 0 < len →
  ∃ r sh' h' order', shard_remove mem h sh key len = Some (r, sh', h') ∧
    shard_ok h' sh' order' ∧ sh_head sh' = sh_head sh ∧ order' ⊆ order ∧
    (∀ p, p ∉ sh_head sh :: order → h' !! p = h !! p) ∧
    (∀ p, p ∈ order → p ∉ order' → h' !! p = None) ∧
    ((r = 0 ∧ ∃ v, has h order (read_bytes mem key len) v) ∨
     (r = -1 ∧ ∀ v, ¬ has h order (read_bytes mem key len) v)) ∧
    ∀ k v, has h' order' k v ↔ (k ≠ read_bytes mem key len ∧ has h order k v).
Proof.
  intros H Hlen. destruct (search_ok h sh order key len H ltac:(lia)) as (A & B & -> & HA & HB & Es).
  unfold shard_remove. rewrite Es. cbn [mbind option_bind fst snd].
  destruct (found_ok h sh A B key len H ltac:(lia) HB) as
    [(c & B' & n & -> & Hn & Ek & ->)|[-> HB2]]; cbn [mbind option_bind].
  - change (default NULL (head (c :: B'))) with c. rewrite Hn. cbn [mbind option_bind].
    destruct (remove_ok h sh A c B' n H Hn) as (h' & -> & H' & Hcore & Hfr). cbn [mbind option_bind].
    destruct (sk_nodes _ _ _ H c) as [Hc0 _]; [apply elem_of_app; right; by left|].
    unfold free_node. rewrite (proj2 (Z.eqb_neq c NULL)) by done.
    eexists _, _, _, (A ++ B'). split; [done|]. split; [exact H'|]. split; [done|].
    split; [intros p Hp; rewrite <-Permutation_middle; by right|]. split; [exact Hfr|].
    split. { intros p Hp Hout. rewrite <-Permutation_middle in Hp.
      apply elem_of_cons in Hp as [->|?]; [|done]. apply lookup_delete_eq. }
    split; [left; split; [done|]; exists (value_at h c); apply has_middle; by left|].
    intros k v. rewrite has_middle, Ek.
    rewrite (has_same_core h) by (intros p Hp; apply Hcore; intros ->;
      apply (removed_out _ _ _ _ _ H); by right).
    split; [|intros [? [[? _]|?]]; [congruence|done]].
    intros Hh. split; [|by right]. intros ->.
    apply (has_not h (A ++ B') (read_bytes mem key len) v); [|done].
    rewrite <-Ek. by apply (rest_not_key h sh).
  - eexists _, sh, h, (A ++ B). split; [done|]. split; [done|]. split; [done|]. split; [done|].
    split; [done|]. split; [done|]. pose proof (split_not_key h sh A B _ HA HB2) as Hno.
    split; [right; split; [done|]; intros v; by apply has_not|].
    intros k v. split; [|by intros [_ ?]]. intros Hh. split; [|done]. intros ->.
    by apply (has_not h (A ++ B) (read_bytes mem key len) v).
Qed.

Section put.
Context (alloc : skip_heap → Z → Z → Z) (rand_r : Z → Z * Z).

Lemma random_level_range sh : 1 ≤ sh_max_level sh →
  1 ≤ (random_level rand_r sh).1 ≤ sh_max_level sh.
Proof.
  intros Hm. unfold random_level.
  assert (H : ∀ fuel l s, 1 ≤ l ≤ sh_max_level sh →
    1 ≤ (random_level_loop rand_r fuel (sh_max_level sh) l s).1 ≤ sh_max_level sh).
  { induction fuel as [|fuel IH]; intros l s Hl; cbn [random_level_loop]; [done|].
    destruct (rand_r s) as [r s']. destruct (r <? RAND_MAX / 2); cmp_cases; simpl; try done. apply IH. lia. }
  apply H. lia.
Qed.

Lemma shard_update_ok h sh A c B n v :
  shard_ok h sh (A ++ c :: B) → h !! c = Some n →
  let h' := <[c := mk_snode (sn_key n) (sn_key_len n) v (sn_level n) (sn_next n)]> h in
  shard_ok h' sh (A ++ c :: B) ∧
  ∀ k v', has h' (A ++ c :: B) k v' ↔
    if decide (k = key_at mem h c) then v' = v else has h (A ++ c :: B) k v'.
Proof.
  intros H Hn h'.
  assert (Hsh : ∀ p, shape <$> h' !! p = shape <$> h !! p).
  { intros p. unfold h'. destruct (decide (p = c)) as [->|]; [by rewrite lookup_insert_eq, Hn|].
    by rewrite lookup_insert_ne. }
  split; [by apply (shard_ok_shape h)|]. intros k v'. rewrite has_middle.
  assert (Ek : key_at mem h' c = key_at mem h c) by (by apply shape_fields).
  assert (Ev : value_at h' c = v) by (unfold value_at, h'; by rewrite lookup_insert_eq).
  rewrite Ek, Ev, (has_same_core h).
  2:{ intros p Hp. unfold same_core, h'. rewrite lookup_insert_ne; [done|]. intros ->.
      apply (removed_out _ _ _ _ _ H). by right. }
  pose proof (rest_not_key h sh A c B H) as Hno. case_decide as Hk.
  - subst k. split; [|intros ->; by left]. intros [[_ ?]|Hh]; [done|].
    by apply has_not in Hh.
  - rewrite has_middle. split; (intros [[? _]|?]; [congruence|by right]).
Qed.

Lemma shard_put_ok h sh order key len v :
  (∀ h n sz, alloc h n sz ≠ NULL → h !! alloc h n sz = None) →
  shard_ok h sh order → 0 < len →
  ∃ r sh' h' order', shard_put mem alloc rand_r h sh key len v = Some (r, sh', h') ∧
    shard_ok h' sh' order' ∧ sh_head sh' = sh_head sh ∧
    order ⊆ order' ∧ (∀ p, p ∈ order' → p ∈ order ∨ h !! p = None) ∧
    (∀ p, p ∉ sh_head sh :: order → p ∉ order' → h' !! p = h !! p) ∧
    ((r = 0 ∧ ∀ k v', has h' order' k v' ↔
        if decide (k = read_bytes mem key len) then v' = v else has h order k v') ∨
     (r = -1 ∧ h' = h ∧ order' = order ∧ ∃ n sz, alloc h n sz = NULL)).
Proof.
  intros Hal H Hlen. destruct (search_ok h sh order key len H ltac:(lia)) as (A & B & -> & HA & HB & Es).
  unfold shard_put. rewrite Es. cbn [mbind option_bind fst snd].
  destruct (found_ok h sh A B key len H ltac:(lia) HB) as
    [(c & B' & n & -> & Hn & Ek & ->)|[-> HB2]]; cbn [mbind option_bind].
  - change (default NULL (head (c :: B'))) with c. rewrite Hn. cbn [mbind option_bind].
    destruct (shard_update_ok h sh A c B' n v H Hn) as [H' Hh].
    eexists _, sh, _, (A ++ c :: B'). split; [done|]. split; [exact H'|]. split; [done|].
    split; [done|]. split; [by left|]. split.
    + intros p Hp _. apply lookup_insert_ne. intros ->. apply Hp. right. apply elem_of_app. right. by left.
    + left. split; [done|]. intros k v'. by rewrite <-Ek.
  - pose proof (sk_max _ _ _ H) as Hmax. pose proof (random_level_range sh ltac:(lia)) as HL.
    destruct (random_level rand_r sh) as [L seed]. simpl in HL. cbv zeta beta.
    set (cur := if sh_current_level sh <? L then L else _). unfold create_node.
    set (sz := sizeof_nkit_skip_node_t +w _).
    destruct (Z.eqb_spec (alloc h (sh_node_id sh) sz) NULL) as [Ea|Hnn].
    + change (NULL =? NULL) with true. eexists _, _, h, (A ++ B). split; [done|].
      split; [by apply shard_ok_meta|]. split; [done|]. split; [done|]. split; [by left|]. split; [done|].
      right. split; [done|]. split; [done|]. split; [done|]. eauto.
    + rewrite (proj2 (Z.eqb_neq _ _) Hnn). pose proof (Hal _ _ _ Hnn) as Hfresh.
      set (new := alloc h (sh_node_id sh) sz) in *.
      destruct (insert_ok h sh A B key len v new L cur seed (sh_node_id sh) H Hlen Hfresh Hnn HL HA HB2)
        as (h' & -> & H' & Ek & Ev & Hcore & Hfr). cbn [mbind option_bind].
      eexists _, _, h', (A ++ new :: B). split; [done|]. split; [exact H'|]. split; [done|]. split; [|split; [|split]].
      * intros p Hp. rewrite <-Permutation_middle. by right.
      * intros p Hp. rewrite <-Permutation_middle in Hp. apply elem_of_cons in Hp as [->|?]; auto.
      * intros p Hout Hp. apply Hfr; [|done]. intros ->. apply Hp. rewrite <-Permutation_middle. by left.
      * left. split; [done|]. intros k v'. rewrite has_middle, Ek, Ev.
        rewrite (has_same_core h).
        2:{ intros p Hp. apply Hcore. intros ->. destruct (in_heap h sh (A ++ B) new H); [by right|congruence]. }
        pose proof (split_not_key h sh A B _ HA HB2) as Hno. case_decide as Hk.
        -- subst k. split; [|intros ->; by left]. intros [[_ ?]|Hh]; [done|]. by apply has_not in Hh.
        -- split; [intros [[? _]|?]; [congruence|done]|by right].
Qed.
End put.
End shard.

(** ** The sharded list *)

Section sharded.
Context (mem : Z → Z).
Implicit Types (sl : nkit_skip_t) (h : skip_heap) (orders : list (list Z)) (m : gmap (list Z) Z).

(** The shard of a key. *)
Definition route sl (k : list Z) : nat := Z.to_nat (fnv1a_loop k FNV_OFFSET mod sl_num_shards sl).

Record skip_ok sl h orders : Prop := {
  sp_num : sl_num_shards sl = Z.of_nat (length (sl_shards sl)) ∧ 1 ≤ sl_num_shards sl < 2 ^ 31;
  sp_len : length orders = length (sl_shards sl);
  sp_shards : ∀ j sh o, sl_shards sl !! j = Some sh → orders !! j = Some o → shard_ok mem h sh o;
  sp_route : ∀ j o k v, orders !! j = Some o → has mem h o k v → route sl k = j;
  sp_apart : ∀ j j' sh sh' o o', sl_shards sl !! j = Some sh → orders !! j = Some o →
    sl_shards sl !! j' = Some sh' → orders !! j' = Some o' → j ≠ j' →
    ∀ p, p ∈ sh_head sh :: o → p ∉ sh_head sh' :: o';
}.

(** The map the list holds. *)
Definition skip_abs h orders m : Prop :=
  ∀ k v, m !! k = Some v ↔ ∃ j o, orders !! j = Some o ∧ has mem h o k v.

Lemma shard_of_route sl h orders key len :
  skip_ok sl h orders → shard_of mem sl key len = route sl (read_bytes mem key len).
Proof.
  intros H. destruct (sp_num _ _ _ H) as [_ Hn]. unfold shard_of, route, skip_fnv1a. f_equal.
  apply u32_small. pose proof (Z.mod_pos_bound (fnv1a_loop (read_bytes mem key len) FNV_OFFSET) (sl_num_shards sl)).
  unfold is_u32. lia.
Qed.

Lemma route_shard sl h orders k :
  skip_ok sl h orders → ∃ sh o, sl_shards sl !! route sl k = Some sh ∧ orders !! route sl k = Some o.
Proof.
  intros H. destruct (sp_num _ _ _ H) as [En Hn]. unfold route.
  pose proof (Z.mod_pos_bound (fnv1a_loop k FNV_OFFSET) (sl_num_shards sl) ltac:(lia)).
  destruct (lookup_lt_is_Some_2 (sl_shards sl) (Z.to_nat (fnv1a_loop k FNV_OFFSET mod sl_num_shards sl)))
    as [sh Hsh]; [lia|].
  destruct (lookup_lt_is_Some_2 orders (Z.to_nat (fnv1a_loop k FNV_OFFSET mod sl_num_shards sl)))
    as [o Ho]; [rewrite (sp_len _ _ _ H); lia|]. eauto.
Qed.

(** A key is looked up in its own shard only. *)
Lemma abs_route sl h orders m k v o :
  skip_ok sl h orders → skip_abs h orders m → orders !! route sl k = Some o →
  m !! k = Some v ↔ has mem h o k v.
Proof.
  intros H Ha Ho. rewrite (Ha k v). split; [|eauto].
  intros (j & o' & Ho' & Hh). rewrite <-(sp_route _ _ _ H j o' k v Ho' Hh) in Ho'. by simplify_eq.
Qed.

(** An operation on one shard that leaves the nodes of the others alone. *)
Lemma skip_ok_set sl h orders j sh o sh' h' o' :
  skip_ok sl h orders → sl_shards sl !! j = Some sh → orders !! j = Some o →
  shard_ok mem h' sh' o' → sh_head sh' = sh_head sh →
  (∀ p, p ∈ o' → p ∈ o ∨ h !! p = None) →
  (∀ p, p ∉ sh_head sh :: o → p ∉ o' → h' !! p = h !! p) →
  (∀ k v, has mem h' o' k v → route sl k = j) →
  skip_ok (set_shard sl j sh') h' (<[j := o']> orders) ∧
  ∀ i oi k v, i ≠ j → orders !! i = Some oi → has mem h' oi k v ↔ has mem h oi k v.
Proof.
  intros H Hsh Ho H' Ehd Hsub Hfr Hrt.
  assert (Hkeep : ∀ i shi oi p, i ≠ j → sl_shards sl !! i = Some shi → orders !! i = Some oi →
    p ∈ sh_head shi :: oi → h' !! p = h !! p).
  { intros i shi oi p Hi Hshi Hoi Hp.
    assert (Hout : p ∉ sh_head sh :: o) by (by apply (sp_apart _ _ _ H i j shi sh oi o)).
    apply Hfr; [done|]. intros Hp'. destruct (Hsub p Hp') as [?|Hnone]; [by apply Hout; right|].
    destruct (in_heap mem h shi oi p (sp_shards _ _ _ H i shi oi Hshi Hoi) Hp). congruence. }
  assert (Hshard : ∀ i oi, orders !! i = Some oi → ∃ shi, sl_shards sl !! i = Some shi).
  { intros i oi Hoi. apply lookup_lt_is_Some_2. rewrite <-(sp_len _ _ _ H). by eapply lookup_lt_Some. }
  assert (Hhas : ∀ i oi k v, i ≠ j → orders !! i = Some oi → has mem h' oi k v ↔ has mem h oi k v).
  { intros i oi k v Hi Hoi. destruct (Hshard i oi Hoi) as [shi Hshi]. apply has_same_core.
    intros p Hp. unfold same_core. by rewrite (Hkeep i shi oi p Hi Hshi Hoi ltac:(by right)). }
  pose proof (lookup_lt_Some _ _ _ Hsh) as Hlt. pose proof (lookup_lt_Some _ _ _ Ho) as Hlt'.
  assert (Hnew : ∀ i shi oi p, i ≠ j → sl_shards sl !! i = Some shi → orders !! i = Some oi →
    p ∈ sh_head shi :: oi → p ∉ sh_head sh' :: o').
  { intros i shi oi p Hi Hshi Hoi Hp [->|Hp']%elem_of_cons.
    - rewrite Ehd in Hp. apply (sp_apart _ _ _ H i j shi sh oi o Hshi Hoi Hsh Ho Hi _ Hp). by left.
    - destruct (Hsub p Hp') as [?|Hnone].
      + apply (sp_apart _ _ _ H i j shi sh oi o Hshi Hoi Hsh Ho Hi _ Hp). by right.
      + destruct (in_heap mem h shi oi p (sp_shards _ _ _ H i shi oi Hshi Hoi) Hp). congruence. }
  split; [|done]. unfold set_shard. split; simpl.
  - rewrite length_insert. apply H.
  - rewrite !length_insert. apply H.
  - intros i shi oi. rewrite !lookup_insert_decide by done. case_decide; [intros; by simplify_eq|].
    intros Hshi Hoi. apply (shard_ok_shape mem h); [|by apply (sp_shards _ _ _ H i)].
    intros p Hp. by rewrite (Hkeep i shi oi p).
  - intros i oi k v. rewrite lookup_insert_decide by done. case_decide as E; intros Hoi Hh.
    + simplify_eq. by apply (Hrt k v).
    + apply (sp_route _ _ _ H i oi k v Hoi). by apply (Hhas i oi).
  - intros i i' si si' oi oi'. rewrite !lookup_insert_decide by done.
    repeat case_decide; intros; simplify_eq; eauto using sp_apart.
    intros Hp. eapply Hnew; eauto.
Qed.

Lemma abs_set sl h orders m j o h' o' m' :
  skip_ok sl h orders → skip_abs h orders m → orders !! j = Some o →
  (∀ i oi k v, i ≠ j → orders !! i = Some oi → has mem h' oi k v ↔ has mem h oi k v) →
  (∀ k v, has mem h' o' k v → route sl k = j) →
  (∀ k v, route sl k = j → m' !! k = Some v ↔ has mem h' o' k v) →
  (∀ k, route sl k ≠ j → m' !! k = m !! k) →
  skip_abs h' (<[j := o']> orders) m'.
Proof.
  intros H Ha Ho Hoth Hrt Hin Hout k v. pose proof (lookup_lt_Some _ _ _ Ho) as Hlt.
  destruct (decide (route sl k = j)) as [Ej|Hj].
  - rewrite (Hin k v Ej). split.
    + intros Hh. exists j, o'. by rewrite list_lookup_insert_eq.
    + intros (i & oi & Hoi & Hh). rewrite lookup_insert_decide in Hoi by done. case_decide as E; [by simplify_eq|].
      apply (Hoth i oi k v E Hoi) in Hh. by rewrite <-(sp_route _ _ _ H i oi k v Hoi Hh) in E.
  - rewrite (Hout k Hj), (Ha k v). split.
    + intros (i & oi & Hoi & Hh). assert (Hi : i ≠ j).
      { intros ->. by apply Hj, (sp_route _ _ _ H j oi k v). }
      exists i, oi. rewrite list_lookup_insert_ne by done. split; [done|]. by apply (Hoth i oi k v Hi Hoi).
    + intros (i & oi & Hoi & Hh). rewrite lookup_insert_decide in Hoi by done. case_decide as E.
      * simplify_eq. by apply Hrt in Hh.
      * exists i, oi. split; [done|]. by apply (Hoth i oi k v E Hoi).
Qed.

(** ** Who owns which memory *)

Definition node_of sl orders (p : Z) : Prop :=
  ∃ j sh o, sl_shards sl !! j = Some sh ∧ orders !! j = Some o ∧ p ∈ sh_head sh :: o.

(** Beyond its own nodes, which were not there before, the list leaves the heap
    [h0] it started from as it was. *)
Definition owns (h0 : skip_heap) sl h orders : Prop :=
  ∀ p, (node_of sl orders p → h0 !! p = None) ∧ (¬ node_of sl orders p → h !! p = h0 !! p).

Lemma owns_set h0 sl h orders j sh o sh' h' o' :
  skip_ok sl h orders → sl_shards sl !! j = Some sh → orders !! j = Some o →
  sh_head sh' = sh_head sh →
  (∀ p, p ∈ o' → p ∈ o ∨ h !! p = None) →
  (∀ p, p ∉ sh_head sh :: o → p ∉ o' → h' !! p = h !! p) →
  (∀ p, p ∈ o → p ∉ o' → h' !! p = None) →
  owns h0 sl h orders → owns h0 (set_shard sl j sh') h' (<[j := o']> orders).
Proof.
  intros H Hsh Ho Ehd Hsub Hfr Hgone Hown p. destruct (Hown p) as [Hin Hout].
  pose proof (lookup_lt_Some _ _ _ Hsh) as Hlt. pose proof (lookup_lt_Some _ _ _ Ho) as Hlt'.
  assert (Hnode : node_of (set_shard sl j sh') (<[j := o']> orders) p ↔
    p ∈ sh_head sh :: o' ∨ ∃ i shi oi, i ≠ j ∧ sl_shards sl !! i = Some shi ∧ orders !! i = Some oi ∧
      p ∈ sh_head shi :: oi).
  { unfold node_of, set_shard. simpl. rewrite <-Ehd. split.
    - intros (i & shi & oi & Hi & Hoi & Hp). rewrite lookup_insert_decide in Hi by done. rewrite lookup_insert_decide in Hoi by done.
      case_decide; simplify_eq; [by left|]. right. eauto 10.
    - intros [Hp|(i & shi & oi & Hne & Hi & Hoi & Hp)].
      + exists j, sh', o'. by rewrite !list_lookup_insert_eq.
      + exists i, shi, oi. by rewrite !list_lookup_insert_ne. }
  rewrite Hnode. split.
  - intros [[->|Hp]%elem_of_cons|(i & shi & oi & _ & Hi & Hoi & Hp)].
    + apply Hin. exists j, sh, o. split_and!; [done|done|by left].
    + destruct (Hsub p Hp) as [?|Hnone]; [apply Hin; exists j, sh, o; split_and!; [done|done|by right]|].
      rewrite <-Hout; [done|]. intros (i & shi & oi & Hi & Hoi & Hp').
      destruct (in_heap mem h shi oi p (sp_shards _ _ _ H i shi oi Hi Hoi) Hp'). congruence.
    + apply Hin. by exists i, shi, oi.
  - intros Hno. destruct (decide (p ∈ sh_head sh :: o)) as [[->|Hp]%elem_of_cons|Hp].
    + destruct Hno. left. by left.
    + rewrite Hgone; [|done|intros ?; apply Hno; left; by right].
      symmetry. apply Hin. exists j, sh, o. split_and!; [done|done|by right].
    + rewrite Hfr; [|done|intros ?; apply Hno; left; by right]. apply Hout.
      intros (i & shi & oi & Hi & Hoi & Hp'). destruct (decide (i = j)) as [->|]; [by simplify_eq|].
      apply Hno. right. eauto 10.
Qed.

Section calls.
Context (alloc : skip_heap → Z → Z → Z) (rand_r : Z → Z * Z).
Hypothesis alloc_fresh : ∀ h n sz, alloc h n sz ≠ NULL → h !! alloc h n sz = None.

Lemma skip_put_ok sl h orders m key len v :
  skip_ok sl h orders → skip_abs h orders m → key ≠ NULL → 0 < len →
  ∃ r sl' h' orders', nkit_skip_put mem alloc rand_r (Some sl) h key len v = Some (r, Some sl', h') ∧
    skip_ok sl' h' orders' ∧ (∀ h0, owns h0 sl h orders → owns h0 sl' h' orders') ∧
    ((r = 0 ∧ skip_abs h' orders' (<[read_bytes mem key len := v]> m)) ∨
     (r = -1 ∧ skip_abs h' orders' m ∧ ∃ h0 n sz, alloc h0 n sz = NULL)).
Proof.
  intros H Ha Hk Hlen. unfold nkit_skip_put. rewrite (proj2 (Z.eqb_neq key NULL)) by done.
  rewrite (proj2 (Z.eqb_neq len 0)) by lia. cbn [orb].
  rewrite (shard_of_route sl h orders key len H). set (k := read_bytes mem key len). set (j := route sl k).
  destruct (route_shard sl h orders k H) as (sh & o & Hsh & Ho). fold j in Hsh, Ho. rewrite Hsh.
  cbn [mbind option_bind]. pose proof (sp_shards _ _ _ H j sh o Hsh Ho) as Hs.
  destruct (shard_put_ok mem alloc rand_r h sh o key len v alloc_fresh Hs Hlen)
    as (r & sh' & h' & o' & -> & Hs' & Ehd & Hsup & Hsub & Hfr & Hres). cbn [mbind option_bind fst snd].
  fold k in Hres.
  assert (Hrt : ∀ k' v', has mem h' o' k' v' → route sl k' = j).
  { intros k' v' Hh. destruct Hres as [[_ Hiff]|(_ & -> & -> & _)]; [|by apply (sp_route _ _ _ H j o k' v')].
    apply Hiff in Hh. case_decide; [by subst|]. by apply (sp_route _ _ _ H j o k' v'). }
  destruct (skip_ok_set sl h orders j sh o sh' h' o' H Hsh Ho Hs' Ehd Hsub Hfr Hrt) as [H' Hoth].
  exists r, (set_shard sl j sh'), h', (<[j := o']> orders). split; [done|]. split; [done|].
  split; [intros h0; apply (owns_set h0 sl h orders j sh o); auto; intros p Hp Hn; destruct Hn; by apply Hsup|].
  destruct Hres as [[-> Hiff]|(-> & -> & -> & (n & sz & Hf))]; [left|right].
  - split; [done|]. apply (abs_set sl h orders m j o); auto.
    + intros k' v' Hr. rewrite (Hiff k' v'). destruct (decide (k' = k)) as [->|Hne].
      * rewrite lookup_insert_eq. split; congruence.
      * rewrite lookup_insert_ne by done. apply (abs_route sl h orders m k' v' o H Ha). by rewrite Hr.
    + intros k' Hr. rewrite lookup_insert_ne; [done|]. intros <-. by apply Hr.
  - split; [done|]. split; [|eauto]. apply (abs_set sl h orders m j o); auto.
    intros k' v' Hr. apply (abs_route sl h orders m k' v' o H Ha). by rewrite Hr.
Qed.

Lemma skip_remove_ok sl h orders m key len :
  skip_ok sl h orders → skip_abs h orders m → key ≠ NULL → 0 < len →
  ∃ r sl' h' orders', nkit_skip_remove mem (Some sl) h key len = Some (r, Some sl', h') ∧
    skip_ok sl' h' orders' ∧ (∀ h0, owns h0 sl h orders → owns h0 sl' h' orders') ∧
    skip_abs h' orders' (delete (read_bytes mem key len) m) ∧
    r = match m !! read_bytes mem key len with Some _ => 0 | None => -1 end.
Proof.
  intros H Ha Hk Hlen. unfold nkit_skip_remove. rewrite (proj2 (Z.eqb_neq key NULL)) by done.
  rewrite (proj2 (Z.eqb_neq len 0)) by lia. cbn [orb].
  rewrite (shard_of_route sl h orders key len H). set (k := read_bytes mem key len). set (j := route sl k).
  destruct (route_shard sl h orders k H) as (sh & o & Hsh & Ho). fold j in Hsh, Ho. rewrite Hsh.
  cbn [mbind option_bind]. pose proof (sp_shards _ _ _ H j sh o Hsh Ho) as Hs.
  destruct (shard_remove_ok mem h sh o key len Hs Hlen)
    as (r & sh' & h' & o' & -> & Hs' & Ehd & Hsub & Hfr & Hgone & Hr & Hiff). cbn [mbind option_bind fst snd].
  fold k in Hr, Hiff.
  assert (Hrt : ∀ k' v', has mem h' o' k' v' → route sl k' = j).
  { intros k' v' Hh. apply Hiff in Hh as [_ Hh]. by apply (sp_route _ _ _ H j o k' v'). }
  destruct (skip_ok_set sl h orders j sh o sh' h' o' H Hsh Ho Hs' Ehd) as [H' Hoth]; auto.
  exists r, (set_shard sl j sh'), h', (<[j := o']> orders). split; [done|]. split; [done|].
  split; [intros h0; apply (owns_set h0 sl h orders j sh o); auto|]. split.
  - apply (abs_set sl h orders m j o); auto.
    + intros k' v' Hrk. rewrite (Hiff k' v'). destruct (decide (k' = k)) as [->|Hne].
      * rewrite lookup_delete_eq. split; [done|]. by intros [? _].
      * rewrite lookup_delete_ne by done. rewrite (abs_route sl h orders m k' v' o H Ha) by by rewrite Hrk.
        split; [done|]. by intros [_ ?].
    + intros k' Hrk. rewrite lookup_delete_ne; [done|]. intros <-. by apply Hrk.
  - pose proof (λ v, abs_route sl h orders m k v o H Ha Ho) as Habs.
    destruct Hr as [[-> [v Hv]]|[-> Hno]].
    + apply Habs in Hv. by rewrite Hv.
    + destruct (m !! k) as [v|]; [|done]. exfalso. by apply (Hno v), (Habs v).
Qed.

Lemma skip_get_ok sl h orders m key len :
  skip_ok sl h orders → skip_abs h orders m → key ≠ NULL → 0 < len →
  nkit_skip_get mem (Some sl) h key len = Some (default NULL (m !! read_bytes mem key len)).
Proof.
  intros H Ha Hk Hlen. unfold nkit_skip_get. rewrite (proj2 (Z.eqb_neq key NULL)) by done.
  rewrite (proj2 (Z.eqb_neq len 0)) by lia. cbn [orb].
  rewrite (shard_of_route sl h orders key len H). set (k := read_bytes mem key len).
  destruct (route_shard sl h orders k H) as (sh & o & Hsh & Ho). rewrite Hsh. cbn [mbind option_bind].
  destruct (shard_get_ok mem h sh o key len (sp_shards _ _ _ H _ sh o Hsh Ho) Hlen) as (v & -> & Hv).
  fold k in Hv. pose proof (λ v, abs_route sl h orders m k v o H Ha Ho) as Habs. f_equal.
  destruct Hv as [Hv|[-> Hno]]; [apply Habs in Hv; by rewrite Hv|].
  destruct (m !! k) as [v|]; [|done]. exfalso. by apply (Hno v), (Habs v).
Qed.
End calls.

(** ** Counting *)

Lemma count_fold shards orders : ∀ t,
  Forall2 (λ sh (o : list Z), sh_count sh = u64 (Z.of_nat (length o))) shards orders → t = u64 t →
  foldl (λ total s, total +w sh_count s) t shards = u64 (t + Z.of_nat (length (concat orders))).
Proof.
  intros t Hf. revert t. induction Hf as [|sh o shards orders E _ IH]; intros t Ht; simpl.
  - by rewrite Z.add_0_r.
  - rewrite IH by by rewrite u64_idemp. rewrite E, u64_add_r, u64_add_l, length_app. f_equal. lia.
Qed.

Lemma skip_count_ok sl h orders :
  skip_ok sl h orders → nkit_skip_count (Some sl) = u64 (Z.of_nat (length (concat orders))).
Proof.
  intros H. destruct (sp_num _ _ _ H) as [En _]. unfold nkit_skip_count.
  rewrite take_ge by lia. rewrite (count_fold (sl_shards sl) orders); [done| |done].
  apply Forall2_same_length_lookup_2; [by rewrite (sp_len _ _ _ H)|].
  intros j sh o Hsh Ho. apply (sp_shards _ _ _ H j sh o Hsh Ho).
Qed.

Lemma concat_nodup {A} (ls : list (list A)) :
  (∀ j l, ls !! j = Some l → NoDup l) →
  (∀ i j l l' x, ls !! i = Some l → ls !! j = Some l' → x ∈ l → x ∈ l' → i = j) →
  NoDup (concat ls).
Proof.
  induction ls as [|l ls IH]; intros Hn Hd; simpl; [constructor|]. apply NoDup_app. split_and!.
  - by apply (Hn 0%nat).
  - intros x Hx Hin. apply list_elem_of_In, in_concat in Hin as (l' & Hl' & Hx').
    apply list_elem_of_In, list_elem_of_lookup in Hl' as [j Hj]. apply list_elem_of_In in Hx'.
    by specialize (Hd 0%nat (S j) l l' x eq_refl Hj Hx Hx').
  - apply IH; [intros j l' Hj; by apply (Hn (S j))|].
    intros i j l1 l2 x Hi Hj H1 H2. by injection (Hd (S i) (S j) l1 l2 x Hi Hj H1 H2).
Qed.

Lemma elem_of_concat {A} (ls : list (list A)) x :
  x ∈ concat ls ↔ ∃ j l, ls !! j = Some l ∧ x ∈ l.
Proof.
  rewrite list_elem_of_In, in_concat. split.
  - intros (l & Hl & Hx). apply list_elem_of_In, list_elem_of_lookup in Hl as [j Hj].
    apply list_elem_of_In in Hx. eauto.
  - intros (j & l & Hj & Hx). exists l. split; apply list_elem_of_In; [by eapply list_elem_of_lookup_2|done].
Qed.

Lemma order_shard sl h orders j o :
  skip_ok sl h orders → orders !! j = Some o → ∃ sh, sl_shards sl !! j = Some sh ∧ shard_ok mem h sh o.
Proof.
  intros H Ho. destruct (lookup_lt_is_Some_2 (sl_shards sl) j) as [sh Hsh].
  { rewrite <-(sp_len _ _ _ H). by eapply lookup_lt_Some. }
  exists sh. split; [done|]. by apply (sp_shards _ _ _ H j).
Qed.

Lemma skip_size sl h orders m :
  skip_ok sl h orders → skip_abs h orders m → size m = length (concat orders).
Proof.
  intros H Ha. set (ent := λ p, (key_at mem h p, value_at h p)).
  assert (Hnd : NoDup ((ent <$> concat orders).*1)).
  { rewrite <-list_fmap_compose. apply NoDup_fmap_2_strong.
    - intros p q Hp Hq E. simpl in E. apply elem_of_concat in Hp as (i & o & Ho & Hp).
      apply elem_of_concat in Hq as (j & o' & Ho' & Hq).
      pose proof (sp_route _ _ _ H i o (key_at mem h p) (value_at h p) Ho ltac:(by exists p)) as R1.
      pose proof (sp_route _ _ _ H j o' (key_at mem h p) (value_at h q) Ho' ltac:(by exists q)) as R2.
      rewrite R1 in R2. subst j. rewrite Ho in Ho'. injection Ho' as <-.
      destruct (order_shard sl h orders i o H Ho) as (sh & _ & Hs). by apply (key_unique mem h sh o).
    - apply concat_nodup.
      + intros j o Ho. destruct (order_shard sl h orders j o H Ho) as (sh & _ & Hs).
        pose proof (sk_nodup _ _ _ _ Hs) as Hn. by apply NoDup_cons in Hn as [_ ?].
      + intros i j o o' p Ho Ho' Hp Hp'.
        rewrite <-(sp_route _ _ _ H i o (key_at mem h p) (value_at h p) Ho) by by exists p.
        apply (sp_route _ _ _ H j o' (key_at mem h p) (value_at h p) Ho'). by exists p. }
  assert (Em : m = list_to_map (ent <$> concat orders)).
  { apply map_eq. intros k. apply option_eq. intros v. rewrite (Ha k v).
    rewrite <-elem_of_list_to_map by done. rewrite list_elem_of_fmap. split.
    - intros (j & o & Ho & p & Hp & <- & <-). exists p. split; [done|]. apply elem_of_concat. eauto.
    - intros (p & [= -> ->] & Hp). apply elem_of_concat in Hp as (j & o & Ho & Hp).
      exists j, o. split; [done|]. by exists p. }
  rewrite Em, map_size_list_to_map by done. apply length_fmap.
Qed.

(** ** Destruction *)

Lemma destroy_chain_ok l : ∀ p h fuel,
  chain h 0 p l → NoDup (p :: l) → p ≠ NULL → (length l + 2 ≤ fuel)%nat →
  ∃ h', destroy_chain fuel p h = Some h' ∧
    ∀ q, h' !! q = if decide (q ∈ p :: l) then None else h !! q.
Proof.
  induction l as [|q l IH]; intros p h [|fuel] Hc Hnd Hp Hf; simpl in Hf; try lia;
    cbn [destroy_chain]; rewrite (proj2 (Z.eqb_neq p NULL)) by done.
  - simpl in Hc. rewrite Hc. cbn [mbind option_bind]. destruct fuel as [|fuel]; [lia|].
    cbn [destroy_chain]. rewrite Z.eqb_refl. unfold free_node. rewrite (proj2 (Z.eqb_neq p NULL)) by done.
    eexists. split; [done|]. intros r. destruct (decide (r = p)) as [->|Hr].
    + rewrite lookup_delete_eq, decide_True; [done|by left].
    + rewrite lookup_delete_ne, decide_False; [done| |done]. by intros ?%list_elem_of_singleton.
  - destruct Hc as (E & Hq & Hc). rewrite E. cbn [mbind option_bind].
    apply NoDup_cons in Hnd as [Hpl Hnd]. unfold free_node. rewrite (proj2 (Z.eqb_neq p NULL)) by done.
    destruct (IH q (delete p h) fuel) as (h' & -> & Hh); [|done|done|lia|].
    + apply (chain_ext h); [|done]. intros r Hr. unfold next_at. rewrite lookup_delete_ne; [done|].
      by intros ->.
    + exists h'. split; [done|]. intros r. rewrite Hh. destruct (decide (r = p)) as [->|Hr].
      * rewrite (decide_False (P := p ∈ q :: l)), lookup_delete_eq by done.
        by rewrite decide_True by by left.
      * rewrite lookup_delete_ne by done. destruct (decide (r ∈ q :: l)).
        -- by rewrite decide_True by by right.
        -- rewrite decide_False; [done|]. by intros [?|?]%elem_of_cons.
Qed.

(** All nodes of a list of shards. *)
Definition all_nodes (shards : list nkit_skip_shard_t) orders : list Z :=
  concat (zip_with (λ sh o, sh_head sh :: o) shards orders).

Lemma destroy_shards_ok shards : ∀ orders h,
  length orders = length shards →
  (∀ j sh o, shards !! j = Some sh → orders !! j = Some o → shard_ok mem h sh o) →
  (∀ j j' sh sh' o o', shards !! j = Some sh → orders !! j = Some o →
    shards !! j' = Some sh' → orders !! j' = Some o' → j ≠ j' →
    ∀ p, p ∈ sh_head sh :: o → p ∉ sh_head sh' :: o') →
  ∃ h', destroy_shards shards h = Some h' ∧
    ∀ q, h' !! q = if decide (q ∈ all_nodes shards orders) then None else h !! q.
Proof.
  induction shards as [|sh shards IH]; intros [|o orders] h Hl Hok Hap; try done.
  { exists h. split; [done|]. intros q. rewrite decide_False; [done|]. apply not_elem_of_nil. }
  simpl in Hl. cbn [destroy_shards].
  pose proof (Hok 0%nat sh o eq_refl eq_refl) as H0. pose proof (sk_max _ _ _ _ H0) as Hmax.
  pose proof (sk_chain _ _ _ _ H0 0%nat ltac:(lia)) as Hc.
  rewrite (tower_all mem h sh o o H0) in Hc by done. pose proof (order_fits mem h sh o H0) as Hfit.
  destruct (destroy_chain_ok o (sh_head sh) h (S (S (size h))) Hc) as (h1 & E1 & Hh1);
    [apply H0|apply H0|lia|]. rewrite E1. cbn [mbind option_bind].
  assert (Hkeep : ∀ i si oi p, shards !! i = Some si → orders !! i = Some oi → p ∈ sh_head si :: oi →
    h1 !! p = h !! p).
  { intros i si oi p Hi Hoi Hp. rewrite Hh1, decide_False; [done|].
    by apply (Hap (S i) 0%nat si sh oi o). }
  destruct (IH orders h1) as (h' & -> & Hh'); [lia| | |].
  - intros i si oi Hi Hoi. apply (shard_ok_shape mem h); [|by apply (Hok (S i))].
    intros p Hp. by rewrite (Hkeep i si oi p).
  - intros i j si sj oi oj Hi Hoi Hj Hoj Hne. apply (Hap (S i) (S j) si sj oi oj); auto.
  - exists h'. split; [done|]. intros q. rewrite Hh', Hh1.
    change (all_nodes (sh :: shards) (o :: orders)) with ((sh_head sh :: o) ++ all_nodes shards orders).
    destruct (decide (q ∈ all_nodes shards orders)) as [Hq|Hq].
    + by rewrite decide_True by (apply elem_of_app; by right).
    + destruct (decide (q ∈ sh_head sh :: o)) as [Hq'|Hq'].
      * by rewrite decide_True by (apply elem_of_app; by left).
      * rewrite decide_False; [done|]. by intros [?|?]%elem_of_app.
Qed.

Lemma elem_of_all_nodes sl h orders p :
  skip_ok sl h orders → p ∈ all_nodes (sl_shards sl) orders ↔ node_of sl orders p.
Proof.
  intros H. unfold all_nodes, node_of. rewrite elem_of_concat. split.
  - intros (j & l & Hl & Hp). apply lookup_zip_with_Some in Hl as (sh & o & -> & Hsh & Ho). eauto 10.
  - intros (j & sh & o & Hsh & Ho & Hp). exists j, (sh_head sh :: o). split; [|done].
    apply lookup_zip_with_Some. eauto 10.
Qed.

(** Destroying a list gives back the heap it started from. *)
Lemma skip_destroy_ok h0 sl h orders :
  skip_ok sl h orders → owns h0 sl h orders → nkit_skip_destroy (Some sl) h = Some h0.
Proof.
  intros H Hown. destruct (sp_num _ _ _ H) as [En _]. unfold nkit_skip_destroy.
  rewrite take_ge by lia.
  destruct (destroy_shards_ok (sl_shards sl) orders h) as (h' & -> & Hh'); [apply H|apply H|apply H|].
  f_equal. apply map_eq. intros p. rewrite Hh'. destruct (Hown p) as [Hin Hout].
  destruct (decide (p ∈ all_nodes (sl_shards sl) orders)) as [Hp|Hp];
    rewrite (elem_of_all_nodes sl h orders p H) in Hp; [symmetry|]; auto.
Qed.

(** ** Creation *)

Section creation.
Context (alloc : skip_heap → Z → Z → Z).
Hypothesis alloc_fresh : ∀ h n sz, alloc h n sz ≠ NULL → h !! alloc h n sz = None.

Definition head_node (max_level : Z) : nkit_skip_node_t :=
  mk_snode NULL 0 NULL max_level (replicate (Z.to_nat max_level) NULL).

(** Shards just made over the heap [h0]. *)
Record new_shards (h0 h : skip_heap) (max_level : Z) (shards : list nkit_skip_shard_t) : Prop := {
  ns_nodup : NoDup (sh_head <$> shards);
  ns_heads : ∀ s, s ∈ shards → h0 !! sh_head s = None ∧ sh_head s ≠ NULL ∧
    h !! sh_head s = Some (head_node max_level) ∧ sh_max_level s = max_level ∧ sh_count s = 0;
  ns_rest : ∀ p, p ∉ (sh_head <$> shards) → h !! p = h0 !! p;
}.

Lemma free_heads h0 shards : ∀ h,
  (∀ p, p ∉ (sh_head <$> shards) → h !! p = h0 !! p) →
  (∀ s, s ∈ shards → h0 !! sh_head s = None ∧ sh_head s ≠ NULL) →
  foldl (λ h s, free_node h (sh_head s)) h shards = h0.
Proof.
  induction shards as [|s shards IH]; intros h Hr Hs; simpl.
  - apply map_eq. intros p. apply Hr, not_elem_of_nil.
  - destruct (Hs s) as [Hn Hz]; [by left|]. apply IH; [|intros s' Hs'; apply Hs; by right].
    intros p Hp. unfold free_node. rewrite (proj2 (Z.eqb_neq _ _) Hz). destruct (decide (p = sh_head s)) as [->|Hne].
    + by rewrite lookup_delete_eq, Hn.
    + rewrite lookup_delete_ne by done. apply Hr. csimpl. by apply not_elem_of_cons.
Qed.

Lemma create_shards_ok h0 max_level n : ∀ i shards h,
  new_shards h0 h max_level shards →
  match create_shards alloc max_level n i shards h with
  | (Some all, h') => new_shards h0 h' max_level all ∧ length all = (length shards + n)%nat
  | (None, h') => h' = h0
  end.
Proof.
  induction n as [|n IH]; intros i shards h H; cbn [create_shards]; [by rewrite Nat.add_0_r|].
  unfold create_node. set (sz := _ +w _). destruct (Z.eqb_spec (alloc h i sz) NULL) as [|Hz].
  - change (NULL =? NULL) with true. cbv iota. apply free_heads; [apply H|].
    intros s Hs. destruct (ns_heads _ _ _ _ H s Hs) as (? & ? & _). done.
  - rewrite (proj2 (Z.eqb_neq _ _) Hz). pose proof (alloc_fresh _ _ _ Hz) as Hf.
    set (p := alloc h i sz) in *. fold (head_node max_level).
    assert (Hout : p ∉ (sh_head <$> shards)).
    { intros Hin. apply list_elem_of_fmap in Hin as (s & E & Hs).
      destruct (ns_heads _ _ _ _ H s Hs) as (_ & _ & Hh & _). congruence. }
    set (s := mk_shard p max_level 1 0 i (u32 (i + 42))).
    specialize (IH (i + 1) (shards ++ [s]) (<[p := head_node max_level]> h)).
    rewrite length_app in IH. simpl in IH.
    replace (length shards + S n)%nat with (length shards + 1 + n)%nat by lia. apply IH. split.
    + rewrite fmap_app. simpl. apply NoDup_app. split; [apply H|]. split; [|apply NoDup_singleton].
      intros q Hq ->%list_elem_of_singleton. done.
    + intros s' [Hs'| ->%list_elem_of_singleton]%elem_of_app.
      * destruct (ns_heads _ _ _ _ H s' Hs') as (? & ? & ? & ? & ?). rewrite lookup_insert_ne; [done|].
        intros ->. apply Hout. by apply (list_elem_of_fmap_2 sh_head).
      * simpl. rewrite lookup_insert_eq, <-(ns_rest _ _ _ _ H p Hout), Hf. done.
    + intros q Hq. rewrite fmap_app in Hq. apply not_elem_of_app in Hq as [Hq Hqp].
      rewrite lookup_insert_ne; [by apply H|]. intros ->. apply Hqp. by left.
Qed.

Lemma empty_has h n j (o : list Z) k v : replicate n [] !! j = Some o → ¬ has mem h o k v.
Proof.
  intros [-> _]%lookup_replicate (p & Hp & _). by apply not_elem_of_nil in Hp.
Qed.

Lemma new_shards_ok h0 h max_level shards :
  1 ≤ max_level < 2 ^ 31 → 1 ≤ Z.of_nat (length shards) < 2 ^ 31 → new_shards h0 h max_level shards →
  skip_ok (mk_skip max_level (Z.of_nat (length shards)) shards) h (replicate (length shards) []).
Proof.
  intros Hm Hn [Hnd Hhd Hr]. split; simpl; [lia|by rewrite length_replicate| | |].
  - intros j s o Hs [-> _]%lookup_replicate.
    destruct (Hhd s) as (H1 & H2 & H3 & H4 & H5); [by eapply list_elem_of_lookup_2|].
    split; simpl; try done; [by rewrite H4|split; [done|]| | |constructor|].
    + unfold lev. rewrite H3, H4. simpl. apply length_replicate.
    + intros p Hp. by apply not_elem_of_nil in Hp.
    + apply NoDup_singleton.
    + intros i Hi. simpl. unfold next_at. rewrite H3. simpl. rewrite lookup_replicate_2; [done|lia].
  - intros j o k v Ho Hh. by destruct (empty_has h _ j o k v Ho).
  - intros j j' s s' o o' Hs [-> _]%lookup_replicate Hs' [-> _]%lookup_replicate Hne p Hp Hp'.
    apply list_elem_of_singleton in Hp as ->. apply list_elem_of_singleton in Hp'. apply Hne.
    apply (NoDup_lookup (sh_head <$> shards) j j' (sh_head s)); [done|by rewrite list_lookup_fmap, Hs|].
    rewrite list_lookup_fmap, Hs'. simpl. by rewrite Hp'.
Qed.

Lemma skip_create_ok avail max_node malloc_ok calloc_ok max_level h0 :
  0 ≤ max_node < 2 ^ 31 - 1 → 1 ≤ max_level < 2 ^ 31 →
  match nkit_skip_create alloc avail max_node malloc_ok calloc_ok max_level h0 with
  | (None, h) => h = h0
  | (Some sl, h) => ∃ orders, skip_ok sl h orders ∧ skip_abs h orders ∅ ∧ owns h0 sl h orders
  end.
Proof.
  intros Hn Hm. unfold nkit_skip_create. destruct (avail <? 0); [done|].
  destruct malloc_ok; [|done]. destruct calloc_ok; [|done]. cbn [negb].
  pose proof (create_shards_ok h0 max_level (Z.to_nat (max_node + 1)) 0 [] h0) as Hc.
  assert (H0 : new_shards h0 h0 max_level []).
  { split; [constructor|intros s Hs; by apply not_elem_of_nil in Hs|done]. }
  destruct (create_shards _ _ _ _ _ _) as [[all|] h]; simpl; [|by apply Hc].
  destruct (Hc H0) as [Hns Hl]. simpl in Hl. exists (replicate (length all) []).
  replace (max_node + 1) with (Z.of_nat (length all)) by lia.
  split; [apply (new_shards_ok h0); [done|lia|done]|split].
  - intros k v. rewrite lookup_empty. split; [done|]. intros (j & o & Ho & Hh).
    by destruct (empty_has h _ j o k v Ho).
  - intros p. split.
    + intros (j & s & o & Hs & [-> _]%lookup_replicate & Hp). apply list_elem_of_singleton in Hp as ->.
      apply (ns_heads _ _ _ _ Hns). by eapply list_elem_of_lookup_2.
    + intros Hno. apply (ns_rest _ _ _ _ Hns). intros (s & -> & Hs)%list_elem_of_fmap. apply Hno.
      apply list_elem_of_lookup in Hs as [j Hj]. exists j, s, []. simpl. split; [done|].
      split; [|by left]. apply lookup_replicate_2. by eapply lookup_lt_Some.
Qed.
End creation.

(** ** Runs *)

Inductive skip_op := SkPut (key len v : Z) | SkGet (key len : Z) | SkRemove (key len : Z).

Definition op_len (o : skip_op) : Z :=
  match o with SkPut _ len _ | SkGet _ len | SkRemove _ len => len end.

(** The map operation a call stands for: its return value and the map. *)
Definition skip_spec m (o : skip_op) : Z * gmap (list Z) Z :=
  match o with
  | SkPut key len v =>
      if (key =? NULL) || (len =? 0) then (-1, m) else (0, <[read_bytes mem key len := v]> m)
  | SkGet key len =>
      if (key =? NULL) || (len =? 0) then (NULL, m) else (default NULL (m !! read_bytes mem key len), m)
  | SkRemove key len =>
      if (key =? NULL) || (len =? 0) then (-1, m) else
      match m !! read_bytes mem key len with
      | Some _ => (0, delete (read_bytes mem key len) m)
      | None => (-1, m)
      end
  end.

(** A run of the map; when [fails], a put may also be refused. *)
Fixpoint map_run (fails : Prop) m (ops : list skip_op) (rs : list Z) (m' : gmap (list Z) Z) : Prop :=
  match ops, rs with
  | [], [] => m' = m
  | o :: ops, r :: rs =>
      ∃ m1, (skip_spec m o = (r, m1) ∨ (fails ∧ (∃ key len v, o = SkPut key len v) ∧ r = -1 ∧ m1 = m)) ∧
        map_run fails m1 ops rs m'
  | _, _ => False
  end.

Section runs.
Context (alloc : skip_heap → Z → Z → Z) (rand_r : Z → Z * Z).

Definition skip_step (sl : option nkit_skip_t) h (o : skip_op)
    : option (Z * option nkit_skip_t * skip_heap) :=
  match o with
  | SkPut key len v => nkit_skip_put mem alloc rand_r sl h key len v
  | SkGet key len => r ← nkit_skip_get mem sl h key len; Some (r, sl, h)
  | SkRemove key len => nkit_skip_remove mem sl h key len
  end.

Fixpoint skip_exec (sl : option nkit_skip_t) h (ops : list skip_op)
    : option (list Z * option nkit_skip_t * skip_heap) :=
  match ops with
  | [] => Some ([], sl, h)
  | o :: ops =>
      r ← skip_step sl h o;
      r2 ← skip_exec r.1.2 r.2 ops;
      Some (r.1.1 :: r2.1.1, r2.1.2, r2.2)
  end.

Hypothesis alloc_fresh : ∀ h n sz, alloc h n sz ≠ NULL → h !! alloc h n sz = None.

(** The allocator fails at some point. *)
Definition alloc_fails : Prop := ∃ h n sz, alloc h n sz = NULL.

Lemma skip_step_ok sl h orders m o :
  skip_ok sl h orders → skip_abs h orders m → 0 ≤ op_len o →
  ∃ r sl' h' orders' m', skip_step (Some sl) h o = Some (r, Some sl', h') ∧ skip_ok sl' h' orders' ∧
    skip_abs h' orders' m' ∧ (∀ h0, owns h0 sl h orders → owns h0 sl' h' orders') ∧
    (skip_spec m o = (r, m') ∨ (alloc_fails ∧ (∃ key len v, o = SkPut key len v) ∧ r = -1 ∧ m' = m)).
Proof.
  intros H Ha Hl. destruct o as [key len v|key len|key len]; cbn [skip_step skip_spec op_len] in *;
    (destruct ((key =? NULL) || (len =? 0)) eqn:Eb;
     [unfold nkit_skip_put, nkit_skip_get, nkit_skip_remove; rewrite Eb; cbn [mbind option_bind];
      by eexists _, sl, h, orders, m; split_and!; [done|done|done|done|left]|]);
    apply orb_false_iff in Eb as [?%Z.eqb_neq ?%Z.eqb_neq].
  - destruct (skip_put_ok alloc rand_r alloc_fresh sl h orders m key len v H Ha)
      as (r & sl' & h' & orders' & E & H' & Ho & [[-> Ha']|(-> & Ha' & Hf)]); [done|lia| |].
    + by eexists _, sl', h', orders', _; split_and!; [done|done|exact Ha'|done|left].
    + eexists _, sl', h', orders', _. split_and!; [done|done|exact Ha'|done|right]. split_and!; try done. eauto.
  - rewrite (skip_get_ok sl h orders m key len H Ha) by (done || lia). cbn [mbind option_bind].
    by eexists _, sl, h, orders, _; split_and!; [done|done|exact Ha|done|left].
  - destruct (skip_remove_ok sl h orders m key len H Ha)
      as (r & sl' & h' & orders' & E & H' & Ho & Ha' & Er); [done|lia|].
    eexists _, sl', h', orders', _. split_and!; [done|done|exact Ha'|done|left]. rewrite Er.
    destruct (m !! read_bytes mem key len) eqn:Em; [done|]. by rewrite delete_id.
Qed.

Lemma skip_exec_ok ops : ∀ sl h orders m,
  skip_ok sl h orders → skip_abs h orders m → Forall (λ o, 0 ≤ op_len o) ops →
  ∃ rs sl' h' orders' m', skip_exec (Some sl) h ops = Some (rs, Some sl', h') ∧
    skip_ok sl' h' orders' ∧ skip_abs h' orders' m' ∧
    (∀ h0, owns h0 sl h orders → owns h0 sl' h' orders') ∧ map_run alloc_fails m ops rs m'.
Proof.
  induction ops as [|o ops IH]; intros sl h orders m H Ha Hl; cbn [skip_exec].
  - by exists [], sl, h, orders, m.
  - apply Forall_cons in Hl as [Hlo Hl].
    destruct (skip_step_ok sl h orders m o H Ha Hlo) as (r & sl1 & h1 & os1 & m1 & -> & H1 & Ha1 & Ho1 & Hr).
    cbn [mbind option_bind fst snd].
    destruct (IH sl1 h1 os1 m1 H1 Ha1 Hl) as (rs & sl2 & h2 & os2 & m2 & -> & H2 & Ha2 & Ho2 & Hrs).
    cbn [mbind option_bind fst snd]. eexists _, sl2, h2, os2, m2. split_and!; [done|done|done|by eauto|].
    simpl. exists m1. by split.
Qed.
End runs.
End sharded.

(** ** Properties *)

(** C7. Every sequence of put, get and remove calls on a well-formed skip list,
    with any random levels and an allocator that returns fresh addresses or NULL,
    terminates without touching memory it should not, returns what a finite map
    from key bytes to values returns (a put may be refused only if the allocator
    fails), and leaves a well-formed list whose count is the size of the map. *)
Theorem skip_refines_map mem alloc rand_r sl h orders m ops :
  (∀ h n sz, alloc h n sz ≠ NULL → h !! alloc h n sz = None) →
  skip_ok mem sl h orders → skip_abs mem h orders m → Forall (λ o, 0 ≤ op_len o) ops →
  ∃ rs sl' h' orders' m', skip_exec mem alloc rand_r (Some sl) h ops = Some (rs, Some sl', h') ∧
    skip_ok mem sl' h' orders' ∧ skip_abs mem h' orders' m' ∧
    map_run mem (alloc_fails alloc) m ops rs m' ∧
    nkit_skip_count (Some sl') = u64 (Z.of_nat (size m')).
Proof.
  intros Hf H Ha Hl.
  destruct (skip_exec_ok mem alloc rand_r Hf ops sl h orders m H Ha Hl)
    as (rs & sl' & h' & orders' & m' & E & H' & Ha' & _ & Hr).
  exists rs, sl', h', orders', m'. split_and!; try done.
  by rewrite (skip_count_ok mem sl' h' orders' H'), (skip_size mem sl' h' orders' m' H' Ha').
Qed.

(** A whole life: creation with at least one level either fails and leaves
    the heap as it was, or gives an empty list; after any calls on it, destruction
    is defined and gives back exactly the heap from before the creation, so no
    node is leaked, freed twice or used after it was freed. *)
Theorem skip_lifecycle mem alloc rand_r avail max_node malloc_ok calloc_ok max_level h0 ops :
  (∀ h n sz, alloc h n sz ≠ NULL → h !! alloc h n sz = None) →
  0 ≤ max_node < 2 ^ 31 - 1 → 1 ≤ max_level < 2 ^ 31 → Forall (λ o, 0 ≤ op_len o) ops →
  match nkit_skip_create alloc avail max_node malloc_ok calloc_ok max_level h0 with
  | (None, h) => h = h0
  | (Some sl, h) => ∃ rs sl' h' m', skip_exec mem alloc rand_r (Some sl) h ops = Some (rs, Some sl', h') ∧
      map_run mem (alloc_fails alloc) ∅ ops rs m' ∧ nkit_skip_destroy (Some sl') h' = Some h0
  end.
Proof.
  intros Hf Hn Hm Hl.
  pose proof (skip_create_ok mem alloc Hf avail max_node malloc_ok calloc_ok max_level h0 Hn Hm) as Hc.
  destruct (nkit_skip_create _ _ _ _ _ _ _) as [[sl|] h]; [|done]. destruct Hc as (orders & H & Ha & Ho).
  destruct (skip_exec_ok mem alloc rand_r Hf ops sl h orders ∅ H Ha Hl)
    as (rs & sl' & h' & orders' & m' & E & H' & _ & Ho' & Hr).
  exists rs, sl', h', m'. split_and!; try done. by apply (skip_destroy_ok mem h0 sl' h' orders'); auto.
Qed.

(** ** A concrete list *)

(** An address above all in use. *)
Definition demo_alloc (h : skip_heap) (node sz : Z) : Z := 64 + map_fold (λ p _ a, Z.max p a) 0 h.

Lemma demo_alloc_fresh h n sz : demo_alloc h n sz ≠ NULL → h !! demo_alloc h n sz = None.
Proof.
  intros _. assert (Hle : ∀ p, is_Some (h !! p) → p ≤ map_fold (λ p _ a, Z.max p a) 0 h).
  { apply (map_fold_weak_ind (λ a (m : skip_heap), ∀ p, is_Some (m !! p) → p ≤ a)).
    - intros p [x Hx]. by rewrite lookup_empty in Hx.
    - intros q x m a Hq IH p Hp. destruct (decide (p = q)) as [->|]; [lia|].
      rewrite lookup_insert_ne in Hp by done. specialize (IH p Hp). lia. }
  destruct (h !! demo_alloc h n sz) eqn:E; [|done]. specialize (Hle _ (mk_is_Some _ _ E)).
  unfold demo_alloc in Hle. lia.
Qed.

Definition demo_rand (seed : Z) : Z * Z :=
  let s := (seed * 1103515245 + 12345) mod 2 ^ 31 in (s, s).

Definition demo_bytes (a : Z) : Z := a mod 256.

Definition demo_skip_ops : list skip_op :=
  [SkPut 70 1 7; SkPut 300 3 8; SkPut 65 1 9; SkGet 300 3; SkPut 326 1 5; SkGet 70 1; SkGet 66 1;
   SkRemove 65 1; SkRemove 65 1; SkGet 65 1; SkPut 0 1 1].

Lemma demo_skip_run :
  match nkit_skip_create demo_alloc 0 1 true true 4 ∅ with
  | (Some sl, h) => fst ∘ fst <$> skip_exec demo_bytes demo_alloc demo_rand (Some sl) h demo_skip_ops
      = Some [0; 0; 0; 8; 0; 5; 0; 0; -1; 0; -1]
  | (None, _) => False
  end.
Proof. vm_compute. reflexivity. Qed.

Lemma skip_refines_map_witness :
  ∃ sl h, nkit_skip_create demo_alloc 0 1 true true 4 ∅ = (Some sl, h) ∧
  ∃ sl' h' (m' : gmap (list Z) Z), skip_exec demo_bytes demo_alloc demo_rand (Some sl) h demo_skip_ops
    = Some ([0; 0; 0; 8; 0; 5; 0; 0; -1; 0; -1], Some sl', h') ∧
    nkit_skip_count (Some sl') = u64 (Z.of_nat (size m')).
Proof.
  pose proof demo_skip_run as Hrun.
  destruct (nkit_skip_create demo_alloc 0 1 true true 4 ∅) as [[sl|] h] eqn:Ec; [|done].
  exists sl, h. split; [done|].
  pose proof (skip_create_ok demo_bytes demo_alloc demo_alloc_fresh 0 1 true true 4 ∅
    ltac:(lia) ltac:(lia)) as Hc. rewrite Ec in Hc. destruct Hc as (orders & H & Ha & _).
  destruct (skip_refines_map demo_bytes demo_alloc demo_rand sl h orders ∅ demo_skip_ops
    demo_alloc_fresh H Ha) as (rs & sl' & h' & orders' & m' & E & _ & _ & _ & Hcount).
  { repeat constructor; simpl; lia. }
  exists sl', h', m'. split; [|done]. rewrite E in Hrun |- *. simpl in Hrun. by injection Hrun as ->.
Defined.

Lemma skip_lifecycle_witness :
  ∃ sl h sl' h', nkit_skip_create demo_alloc 0 1 true true 4 ∅ = (Some sl, h) ∧
    skip_exec demo_bytes demo_alloc demo_rand (Some sl) h demo_skip_ops
      = Some ([0; 0; 0; 8; 0; 5; 0; 0; -1; 0; -1], Some sl', h') ∧
    nkit_skip_destroy (Some sl') h' = Some ∅.
Proof.
  pose proof (skip_lifecycle demo_bytes demo_alloc demo_rand 0 1 true true 4 ∅ demo_skip_ops
    demo_alloc_fresh ltac:(lia) ltac:(lia) ltac:(repeat constructor; simpl; lia)) as H.
  pose proof demo_skip_run as Hrun.
  destruct (nkit_skip_create demo_alloc 0 1 true true 4 ∅) as [[sl|] h] eqn:Ec; [|done].
  destruct H as (rs & sl' & h' & m' & E & _ & Hd). exists sl, h, sl', h'. split; [done|].
  split; [|done]. rewrite E in Hrun |- *. simpl in Hrun. by injection Hrun as ->.
Defined.

(** Creation accepts zero levels; the head then has no forward pointer, and the
    first access to the list reads one. *)
Example skip_zero_levels :
  match nkit_skip_create demo_alloc 0 0 true true 0 ∅ with
  | (Some sl, h) => nkit_skip_put demo_bytes demo_alloc demo_rand (Some sl) h 65 1 7 = None ∧
      nkit_skip_get demo_bytes (Some sl) h 65 1 = None ∧ nkit_skip_destroy (Some sl) h = None
  | (None, _) => False
  end.
Proof. vm_compute. done. Qed.
