(* ===== verification/HeapProg.v ===== *)
(** * Critical sections, one access at a time

    The body of an operation that runs under a lock, as a tree of its accesses to
    shared memory: reads and writes of the locked object's own fields, reads and
    field updates of heap nodes, allocation and release.  [wp] is its weakest
    precondition on the part of the heap the lock protects; [split_step] is the
    frame rule that lets threads with different parts take turns at every access. *)

From stdpp Require Import prelude gmap.
From Stdlib Require Import ZArith Lia.
From S2P Require Import Prelude Arena.
Local Open Scope Z_scope.

(** [M] is the record the lock sits in, [N] a heap node, [R] the result. *)
Inductive prog (M N R : Type) :=
| PRet (r : R)
| PStuck
| PMeta (k : M → prog M N R)
| PSetMeta (f : M → M) (k : prog M N R)
| PLoad (p : Z) (k : N → prog M N R)
| PUpdate (p : Z) (f : N → option N) (k : prog M N R)
| PAlloc (n : N) (k : Z → prog M N R)
| PFree (p : Z) (k : prog M N R).
Arguments PRet {M N R}.
Arguments PStuck {M N R}.
Arguments PMeta {M N R}.
Arguments PSetMeta {M N R}.
Arguments PLoad {M N R}.
Arguments PUpdate {M N R}.
Arguments PAlloc {M N R}.
Arguments PFree {M N R}.

Section programs.
Context {M N : Type}.
Implicit Types (m : M) (h : gmap Z N) (pieces : list (gmap Z N)).

Fixpoint pbind {R R'} (pr : prog M N R) (f : R → prog M N R') : prog M N R' :=
  match pr with
  | PRet r => f r
  | PStuck => PStuck
  | PMeta k => PMeta (λ m, pbind (k m) f)
  | PSetMeta g k => PSetMeta g (pbind k f)
  | PLoad p k => PLoad p (λ n, pbind (k n) f)
  | PUpdate p g k => PUpdate p g (pbind k f)
  | PAlloc n k => PAlloc n (λ p, pbind (k p) f)
  | PFree p k => PFree p (pbind k f)
  end.

Context {R : Type}.
Implicit Types (pr : prog M N R) (Q : R → M → gmap Z N → Prop) (F : Prop) (C : M → Prop).

(** One access.  [c] is the address the allocator hands out: NULL, or one that
    is not in use. *)
Definition prog_step (c : Z) pr m h : option (prog M N R * M * gmap Z N) :=
  match pr with
  | PRet _ | PStuck => None
  | PMeta k => Some (k m, m, h)
  | PSetMeta f k => Some (k, f m, h)
  | PLoad p k => match h !! p with Some n => Some (k n, m, h) | None => None end
  | PUpdate p f k =>
      match h !! p with
      | Some n => match f n with Some n' => Some (k, m, <[p := n']> h) | None => None end
      | None => None
      end
  | PAlloc n k =>
      if c =? NULL then Some (k NULL, m, h) else
      match h !! c with None => Some (k c, m, <[c := n]> h) | Some _ => None end
  | PFree p k => match h !! p with Some _ => Some (k, m, delete p h) | None => None end
  end.

(** The access is an allocation that fails. *)
Definition alloc_failure (c : Z) pr : bool := match pr with PAlloc _ _ => c =? NULL | _ => false end.

(** What the allocator may answer to an access that is an allocation. *)
Definition answer_ok (c : Z) pr h : Prop :=
  match pr with PAlloc _ _ => c = NULL ∨ h !! c = None | _ => True end.

(** The node the next access is to. *)
Definition access pr : option Z :=
  match pr with PLoad p _ | PUpdate p _ _ | PFree p _ => Some p | _ => None end.

Definition running pr : Prop := match pr with PRet _ => False | _ => True end.

(** Every way to run [pr] to its end, the allocator choosing, is defined and ends
    in [Q]; before every access [C] holds of the record.  Failing allocations are
    considered only under [F]. *)
Fixpoint wp (F : Prop) (C : M → Prop) pr Q m h : Prop :=
  match pr with
  | PRet r => Q r m h
  | PStuck => False
  | PMeta k => C m ∧ wp F C (k m) Q m h
  | PSetMeta f k => C m ∧ wp F C k Q (f m) h
  | PLoad p k => C m ∧ ∃ n, h !! p = Some n ∧ wp F C (k n) Q m h
  | PUpdate p f k => C m ∧ ∃ n n', h !! p = Some n ∧ f n = Some n' ∧ wp F C k Q m (<[p := n']> h)
  | PAlloc n k => C m ∧ (F → wp F C (k NULL) Q m h) ∧
      ∀ p, p ≠ NULL → h !! p = None → wp F C (k p) Q m (<[p := n]> h)
  | PFree p k => C m ∧ is_Some (h !! p) ∧ wp F C k Q m (delete p h)
  end.

Lemma wp_mono F C pr Q Q' m h :
  wp F C pr Q m h → (∀ r m h, Q r m h → Q' r m h) → wp F C pr Q' m h.
Proof.
  intros H HQ. revert m h H. induction pr as [r| |k IH|f k IH|p k IH|p f k IH|n k IH|p k IH];
    intros m h H; cbn [wp] in *.
  - by apply HQ.
  - done.
  - destruct H. split; auto.
  - destruct H. split; auto.
  - destruct H as (? & n & ? & ?). split; eauto.
  - destruct H as (? & n & n' & ? & ? & ?). split; [done|]. exists n, n'. eauto.
  - destruct H as (? & H1 & H2). split; [done|]. split; auto.
  - destruct H as (? & ? & ?). split; auto.
Qed.

Lemma wp_meta F C pr Q m h : wp F C pr Q m h → running pr → C m.
Proof. destruct pr; cbn; tauto. Qed.

(** ** The heap in pieces *)

Record split (h : gmap Z N) pieces : Prop := {
  pieces_all p n : h !! p = Some n ↔ ∃ j hj, pieces !! j = Some hj ∧ hj !! p = Some n;
  pieces_apart i j hi hj : pieces !! i = Some hi → pieces !! j = Some hj → i ≠ j → hi ##ₘ hj;
}.

Lemma split_lookup h pieces j hj p n :
  split h pieces → pieces !! j = Some hj → hj !! p = Some n → h !! p = Some n.
Proof. intros S Hj Hp. apply (pieces_all _ _ S). eauto. Qed.

Lemma split_fresh h pieces j hj p : split h pieces → pieces !! j = Some hj → h !! p = None → hj !! p = None.
Proof.
  intros S Hj Hp. destruct (hj !! p) as [n|] eqn:E; [|done].
  by rewrite (split_lookup h pieces j hj p n S Hj E) in Hp.
Qed.

(** A piece changes at one address, which the other pieces do not have. *)
Lemma split_change h pieces j hj p (o : option N) :
  split h pieces → pieces !! j = Some hj → (is_Some (hj !! p) ∨ h !! p = None) →
  split (partial_alter (λ _, o) p h) (<[j := partial_alter (λ _, o) p hj]> pieces).
Proof.
  intros S Hj Hp. pose proof (lookup_lt_Some _ _ _ Hj) as Hlt.
  assert (Hout : ∀ i hi, i ≠ j → pieces !! i = Some hi → hi !! p = None).
  { intros i hi Hi Hhi. destruct Hp as [[n Hn]|Hn]; [|by apply (split_fresh h pieces i hi p S)].
    eapply map_disjoint_Some_l; [|exact Hn]. by apply (pieces_apart _ _ S j i). }
  split.
  - intros q n. destruct (decide (q = p)) as [->|Hq].
    + rewrite lookup_partial_alter_eq. split.
      * intros ->. exists j, (partial_alter (λ _, Some n) p hj).
        by rewrite list_lookup_insert_eq, lookup_partial_alter_eq.
      * intros (i & hi & Hi & Hhi). rewrite lookup_insert_decide in Hi by done. case_decide as E; simplify_eq.
        -- by rewrite lookup_partial_alter_eq in Hhi.
        -- by rewrite (Hout i hi E Hi) in Hhi.
    + rewrite lookup_partial_alter_ne by done. rewrite (pieces_all _ _ S). split.
      * intros (i & hi & Hi & Hhi). destruct (decide (i = j)) as [->|].
        -- simplify_eq. exists j. eexists. rewrite list_lookup_insert_eq by done. split; [done|].
           by rewrite lookup_partial_alter_ne.
        -- exists i, hi. by rewrite list_lookup_insert_ne.
      * intros (i & hi & Hi & Hhi). rewrite lookup_insert_decide in Hi by done. case_decide; simplify_eq; [|eauto].
        rewrite lookup_partial_alter_ne in Hhi by done. eauto.
  - intros i i' hi hi'. rewrite !lookup_insert_decide by done.
    assert (Hd : ∀ a ha, a ≠ j → pieces !! a = Some ha → partial_alter (λ _, o) p hj ##ₘ ha).
    { intros a ha Ha Hha. apply map_disjoint_spec. intros q x y. destruct (decide (q = p)) as [->|].
      - by rewrite (Hout a ha Ha Hha).
      - rewrite lookup_partial_alter_ne by done. intros Hx Hy.
        by eapply map_disjoint_spec; [apply (pieces_apart _ _ S j a)|..]. }
    intros Hi Hi' Hne. destruct (decide (i = j)), (decide (i' = j)); simplify_eq;
      [by eapply Hd|symmetry; by eapply Hd|by apply (pieces_apart _ _ S i i')].
Qed.

(** A step of the piece is a step of the whole, and keeps the precondition. *)
Lemma split_step F C c pr Q m h pieces j hj :
  split h pieces → pieces !! j = Some hj → wp F C pr Q m hj → running pr →
  answer_ok c pr h → (alloc_failure c pr = true → F) →
  ∃ pr' m' h' hj', prog_step c pr m h = Some (pr', m', h') ∧ prog_step c pr m hj = Some (pr', m', hj') ∧
    wp F C pr' Q m' hj' ∧ split h' (<[j := hj']> pieces) ∧ (size hj' ≤ S (size hj))%nat.
Proof.
  intros S Hj Hw Hrun Hc HF.
  assert (Hsame : split h (<[j := hj]> pieces)) by (by rewrite list_insert_id).
  destruct pr as [r| |k|f k|p k|p f k|n k|p k]; cbn [wp prog_step alloc_failure running] in *; try done.
  - destruct Hw. eexists _, _, _, hj. split_and!; [done|done|done|done|lia].
  - destruct Hw. eexists _, _, _, hj. split_and!; [done|done|done|done|lia].
  - destruct Hw as (_ & n & Hn & Hw). rewrite (split_lookup h pieces j hj p n S Hj Hn), Hn.
    eexists _, _, _, hj. split_and!; [done|done|done|done|lia].
  - destruct Hw as (_ & n & n' & Hn & Hf & Hw). rewrite (split_lookup h pieces j hj p n S Hj Hn), Hf.
    rewrite Hn, Hf. eexists _, _, _, (<[p := n']> hj). split_and!; [done|done|done|by apply split_change; eauto|].
    rewrite map_size_insert, Hn. simpl. lia.
  - destruct Hw as (_ & Hnull & Hw). destruct (Z.eqb_spec c NULL) as [->|Hne].
    + eexists _, _, _, hj. split_and!; [done|done|by apply Hnull, HF|done|lia].
    + destruct Hc as [?|Hc]; [done|]. rewrite Hc. pose proof (split_fresh h pieces j hj c S Hj Hc) as Hcj.
      rewrite Hcj. eexists _, _, _, (<[c := n]> hj).
      split_and!; [done|done|by apply Hw|by apply split_change; eauto|].
      rewrite map_size_insert, Hcj. simpl. lia.
  - destruct Hw as (_ & [n Hn] & Hw). rewrite (split_lookup h pieces j hj p n S Hj Hn).
    rewrite Hn. eexists _, _, _, (delete p hj). split_and!; [done|done|done|by apply split_change; eauto|].
    rewrite map_size_delete, Hn. simpl. lia.
Qed.

Lemma prog_step_answer c pr m h x : prog_step c pr m h = Some x → running pr ∧ answer_ok c pr h.
Proof.
  destruct pr as [r| |k|f k|p k|p f k|n k|p k]; cbn; intros H; try done.
  split; [done|]. destruct (Z.eqb_spec c NULL); [by left|]. destruct (h !! c); [done|by right].
Qed.

(** The node accessed is one of the piece. *)
Lemma wp_access F C pr Q m h p : wp F C pr Q m h → access pr = Some p → is_Some (h !! p).
Proof.
  destruct pr; cbn; intros Hw Hp; simplify_eq.
  - destruct Hw as (_ & n & -> & _). done.
  - destruct Hw as (_ & n & n' & -> & _). done.
  - by destruct Hw as (_ & ? & _).
Qed.
End programs.

Lemma wp_bind {M N R R'} F C (pr : prog M N R) (f : R → prog M N R') Q m h :
  wp F C pr (λ r m h, wp F C (f r) Q m h) m h → wp F C (pbind pr f) Q m h.
Proof.
  revert m h. induction pr as [r| |k IH|g k IH|p k IH|p g k IH|n k IH|p k IH];
    intros m h H; cbn [wp pbind] in *.
  - done.
  - done.
  - destruct H. split; auto.
  - destruct H. split; auto.
  - destruct H as (? & n & ? & ?). split; eauto.
  - destruct H as (? & n & n' & ? & ? & ?). split; [done|]. exists n, n'. eauto.
  - destruct H as (? & H1 & H2). split; [done|]. split; auto.
  - destruct H as (? & ? & ?). split; auto.
Qed.

(** ** Results that only a failed allocation gives *)

(** However [pr] runs, it ends with [bad] only if its last access is an
    allocation that fails. *)
Fixpoint only_fails {M N R} (bad : R) (pr : prog M N R) : Prop :=
  match pr with
  | PRet r => r ≠ bad
  | PStuck => True
  | PMeta k => ∀ m, only_fails bad (k m)
  | PLoad _ k => ∀ n, only_fails bad (k n)
  | PSetMeta _ k | PUpdate _ _ k | PFree _ k => only_fails bad k
  | PAlloc _ k => (running (k NULL) → only_fails bad (k NULL)) ∧ ∀ c, c ≠ NULL → only_fails bad (k c)
  end.

Lemma only_fails_bind {M N R R'} (bad : R') (pr : prog M N R) (f : R → prog M N R') :
  (∀ r, only_fails bad (f r)) → only_fails bad (pbind pr f).
Proof. intros Hf. induction pr as [r| |k IH|g k IH|p k IH|p g k IH|n k IH|p k IH]; cbn; auto. Qed.

Lemma only_fails_step {M N R} (bad : R) c (pr pr' : prog M N R) m m' h h' :
  only_fails bad pr → prog_step c pr m h = Some (pr', m', h') →
  (running pr' → only_fails bad pr') ∧ (pr' = PRet bad → alloc_failure c pr = true).
Proof.
  assert (Hdone : only_fails bad pr' → (running pr' → only_fails bad pr') ∧ (pr' = PRet bad → alloc_failure c pr = true)).
  { intros Hb. split; [done|]. intros ->. by destruct Hb. }
  destruct pr as [r| |k|f k|p k|p f k|n k|p k]; cbn [only_fails prog_step alloc_failure] in *; intros Hb Hs;
    repeat case_match; simplify_eq; auto; destruct (Z.eqb_spec c NULL); simplify_eq; destruct Hb as [Hn Hc]; auto.
Qed.
