(* ===== verification/SkipProg.v ===== *)
(** * The skip list's operations, one access at a time (src/structs/skip_list.c)

    What put, get and remove do between [nkit_mcs_lock] and [nkit_mcs_unlock], as
    programs of [HeapProg] over the shard's record and the heap of nodes.  Run
    without interruption they are the functions of [SkipList]. *)

From stdpp Require Import prelude gmap sorting.
From Stdlib Require Import ZArith Lia.
From S2P Require Import Prelude Words Arena Ring Context HashTable RobinHood SkipList SkipChain SkipMap HeapProg.
Local Open Scope Z_scope.
Local Open Scope word_scope.

Abbreviation sk_prog := (prog nkit_skip_shard_t nkit_skip_node_t).
Notation "x '<~' a ';;' b" := (pbind a (λ x, b)) (at level 60, right associativity, a at next level).

#[export] Instance skip_node_eq_dec : EqDecision nkit_skip_node_t.
Proof. solve_decision. Defined.

(** ** Field updates *)

(** [node->next[i] = q]; [None] outside the tower. *)
Definition with_next (i : nat) (q : Z) (n : nkit_skip_node_t) : option nkit_skip_node_t :=
  if decide (i < length (sn_next n))%nat
  then Some (mk_snode (sn_key n) (sn_key_len n) (sn_value n) (sn_level n) (<[i := q]> (sn_next n)))
  else None.

(** [node->value = v] *)
Definition with_value (v : Z) (n : nkit_skip_node_t) : option nkit_skip_node_t :=
  Some (mk_snode (sn_key n) (sn_key_len n) v (sn_level n) (sn_next n)).

Definition with_seed (seed : Z) (s : nkit_skip_shard_t) : nkit_skip_shard_t :=
  mk_shard (sh_head s) (sh_max_level s) (sh_current_level s) (sh_count s) (sh_node_id s) seed.
Definition with_level (level : Z) (s : nkit_skip_shard_t) : nkit_skip_shard_t :=
  mk_shard (sh_head s) (sh_max_level s) level (sh_count s) (sh_node_id s) (sh_seed s).
Definition add_count (d : Z) (s : nkit_skip_shard_t) : nkit_skip_shard_t :=
  mk_shard (sh_head s) (sh_max_level s) (sh_current_level s) (sh_count s +w d) (sh_node_id s) (sh_seed s).

Section programs.
Context (mem : Z → Z) (rand_r : Z → Z * Z).

(** ** The searches *)

(** [fuel] bounds the nodes a level is walked over. *)
Fixpoint walk_prog (fuel : nat) (i : nat) (key key_len curr : Z) : sk_prog Z :=
  match fuel with
  | O => PStuck
  | S fuel =>
      PLoad curr (λ n,
        match sn_next n !! i with
        | None => PStuck
        | Some nx =>
            if nx =? NULL then PRet curr else
            PLoad nx (λ n', if node_less mem n' key key_len then walk_prog fuel i key key_len nx else PRet curr)
        end)
  end.

Fixpoint descend_prog (fuel : nat) (key key_len : Z) (n : nat) (curr : Z) : sk_prog (Z * list Z) :=
  match n with
  | O => PRet (curr, [])
  | S i =>
      c <~ walk_prog fuel i key key_len curr;;
      r <~ descend_prog fuel key key_len i c;;
      PRet (r.1, r.2 ++ [c])
  end.

Definition search_prog (fuel : nat) (key key_len : Z) : sk_prog (Z * list Z) :=
  PMeta (λ shard,
    r <~ descend_prog fuel key key_len (Z.to_nat (s32 (sh_max_level shard))) (sh_head shard);;
    PLoad r.1 (λ n, match sn_next n !! 0%nat with Some c => PRet (c, r.2) | None => PStuck end)).

Definition found_prog (curr key key_len : Z) : sk_prog bool :=
  if curr =? NULL then PRet false else
  PLoad curr (λ n, PRet (keys_equal mem (sn_key n) (sn_key_len n) key key_len)).

(** ** Linking and unlinking *)

Fixpoint link_prog (update : list Z) (new : Z) (i n : nat) : sk_prog unit :=
  match n with
  | O => PRet tt
  | S n =>
      match update !! i with
      | None => PStuck
      | Some u =>
          PLoad u (λ nu,
            match sn_next nu !! i with
            | None => PStuck
            | Some nx => PUpdate new (with_next i nx) (PUpdate u (with_next i new) (link_prog update new (S i) n))
            end)
      end
  end.

Fixpoint unlink_prog (update : list Z) (curr : Z) (i n : nat) : sk_prog unit :=
  match n with
  | O => PRet tt
  | S n =>
      match update !! i with
      | None => PStuck
      | Some u =>
          PLoad u (λ nu,
            match sn_next nu !! i with
            | None => PStuck
            | Some nx =>
                if negb (nx =? curr) then PRet tt else
                PLoad curr (λ nc,
                  match sn_next nc !! i with
                  | None => PStuck
                  | Some cn => PUpdate u (with_next i cn) (unlink_prog update curr (S i) n)
                  end)
            end)
      end
  end.

(** ** The operations *)

Definition put_prog (fuel : nat) (key key_len value : Z) : sk_prog Z :=
  r <~ search_prog fuel key key_len;;
  hit <~ found_prog r.1 key key_len;;
  if hit : bool then PUpdate r.1 (with_value value) (PRet 0) else
  PMeta (λ shard,
    let '(level, seed) := random_level rand_r shard in
    PSetMeta (with_seed seed)
      (PSetMeta (λ s, if sh_current_level s <? level then with_level level s else s)
        (PAlloc (mk_snode key key_len value level (replicate (Z.to_nat level) NULL)) (λ new,
          if new =? NULL then PRet (-1) else
          _ <~ link_prog r.2 new 0 (Z.to_nat level);;
          PSetMeta (add_count 1) (PRet 0))))).

Definition get_prog (fuel : nat) (key key_len : Z) : sk_prog Z :=
  r <~ search_prog fuel key key_len;;
  hit <~ found_prog r.1 key key_len;;
  if hit : bool then PLoad r.1 (λ n, PRet (sn_value n)) else PRet NULL.

Definition remove_prog (fuel : nat) (key key_len : Z) : sk_prog Z :=
  r <~ search_prog fuel key key_len;;
  hit <~ found_prog r.1 key key_len;;
  if hit : bool then
    PLoad r.1 (λ n,
      _ <~ unlink_prog r.2 r.1 0 (Z.to_nat (sn_level n));;
      let last := PSetMeta (add_count (-1)) (PRet 0) in
      if r.1 =? NULL then last else PFree r.1 last)
  else PRet (-1).

Definition skip_prog (fuel : nat) (o : skip_op) : sk_prog Z :=
  match o with
  | SkPut key len v => put_prog fuel key len v
  | SkGet key len => get_prog fuel key len
  | SkRemove key len => remove_prog fuel key len
  end.

(** ** Without interruption *)

Section alone.
Context (F : Prop) (C : nkit_skip_shard_t → Prop).
Implicit Types (sh : nkit_skip_shard_t) (h : skip_heap).

Lemma wp_walk fuel i key len Q sh h : ∀ curr c,
  C sh → walk mem fuel h i key len curr = Some c → Q c sh h → wp F C (walk_prog fuel i key len curr) Q sh h.
Proof.
  induction fuel as [|fuel IH]; intros curr c HC Hw HQ; cbn [walk walk_prog wp] in *; [done|].
  unfold next_at in Hw. destruct (h !! curr) as [n|] eqn:Hn; [|done]. cbn [mbind option_bind] in Hw.
  split; [done|]. exists n. split; [done|]. destruct (sn_next n !! i) as [nx|]; [|done]. cbn [mbind option_bind] in Hw.
  destruct (nx =? NULL); [by simplify_eq|]. destruct (h !! nx) as [n'|] eqn:Hn'; [|done]. cbn [mbind option_bind] in Hw.
  cbn [wp]. split; [done|]. exists n'. split; [done|]. destruct (node_less mem n' key len); [by apply (IH nx c)|by simplify_eq].
Qed.

Lemma walk_more fuel fuel' h i key len : ∀ curr c,
  (fuel ≤ fuel')%nat → walk mem fuel h i key len curr = Some c → walk mem fuel' h i key len curr = Some c.
Proof.
  revert fuel'. induction fuel as [|fuel IH]; intros fuel' curr c Hle Hw; [done|].
  destruct fuel' as [|fuel']; [lia|]. cbn [walk] in *.
  destruct (next_at h curr i) as [nx|]; [|done]. cbn [mbind option_bind] in *.
  destruct (nx =? NULL); [done|]. destruct (h !! nx) as [n'|]; [|done]. cbn [mbind option_bind] in *.
  destruct (node_less mem n' key len); [|done]. apply IH; [lia|done].
Qed.

Lemma wp_descend fuel key len n Q sh h : ∀ curr r,
  C sh → (S (size h) ≤ fuel)%nat → descend mem (S (size h)) h key len n curr = Some r → Q r sh h →
  wp F C (descend_prog fuel key len n curr) Q sh h.
Proof.
  revert Q. induction n as [|i IH]; intros Q curr r HC Hf Hd HQ; cbn [descend descend_prog wp] in *; [by simplify_eq|].
  destruct (walk mem _ h i key len curr) as [c|] eqn:Hw; [|done]. cbn [mbind option_bind] in Hd.
  destruct (descend mem _ h key len i c) as [r'|] eqn:Hr; [|done]. cbn [mbind option_bind] in Hd. simplify_eq.
  apply wp_bind, (wp_walk fuel i key len _ sh h curr c HC); [by apply (walk_more (S (size h)))|].
  by apply wp_bind, (IH _ c r').
Qed.

Lemma wp_search fuel key len r Q sh h :
  C sh → (S (size h) ≤ fuel)%nat → search mem h sh key len = Some r → Q r sh h →
  wp F C (search_prog fuel key len) Q sh h.
Proof.
  intros HC Hf Hs HQ. unfold search in Hs. cbn [search_prog wp]. split; [done|].
  destruct (descend mem _ h key len _ _) as [r'|] eqn:Hd; [|done]. cbn [mbind option_bind] in Hs.
  apply wp_bind, (wp_descend fuel key len _ _ sh h _ r' HC Hf Hd). cbn [wp]. split; [done|].
  unfold next_at in Hs. destruct (h !! r'.1) as [n|]; [|done]. exists n. split; [done|].
  cbn [mbind option_bind] in Hs. destruct (sn_next n !! 0%nat); [|done]. cbn [mbind option_bind] in Hs. by simplify_eq.
Qed.

Lemma wp_found curr key len b Q sh h :
  C sh → found mem h curr key len = Some b → Q b sh h → wp F C (found_prog curr key len) Q sh h.
Proof.
  intros HC Hf HQ. unfold found, found_prog in *. destruct (curr =? NULL); [by simplify_eq|].
  destruct (h !! curr) as [n|] eqn:E; [|done]. cbn [mbind option_bind] in Hf. cbn [wp]. split; [done|].
  exists n. by simplify_eq.
Qed.

Lemma set_next_with h p i q h' :
  set_next h p i q = Some h' → ∃ n n', h !! p = Some n ∧ with_next i q n = Some n' ∧ h' = <[p := n']> h.
Proof.
  unfold set_next, with_next. destruct (h !! p) as [n|]; [|done]. cbn [mbind option_bind].
  case_decide; [|done]. intros [= <-].
  eexists n, _. split; [done|]. by rewrite decide_True.
Qed.

Lemma wp_link update new n Q sh : ∀ i h h',
  C sh → link update new i n h = Some h' → Q tt sh h' → wp F C (link_prog update new i n) Q sh h.
Proof.
  induction n as [|n IH]; intros i h h' HC Hl HQ; cbn [link link_prog wp] in *; [by simplify_eq|].
  destruct (update !! i) as [u|]; [|done]. cbn [mbind option_bind] in Hl. unfold next_at in Hl.
  destruct (h !! u) as [nu|] eqn:Hu; [|done]. cbn [mbind option_bind] in Hl. cbn [wp]. split; [done|].
  exists nu. split; [done|]. destruct (sn_next nu !! i) as [nx|]; [|done]. cbn [mbind option_bind] in Hl.
  destruct (set_next h new i nx) as [h1|] eqn:E1; [|done]. cbn [mbind option_bind] in Hl.
  destruct (set_next h1 u i new) as [h2|] eqn:E2; [|done]. cbn [mbind option_bind] in Hl.
  apply set_next_with in E1 as (n1 & n1' & H1 & W1 & ->). apply set_next_with in E2 as (n2 & n2' & H2 & W2 & ->).
  cbn [wp]. split; [done|]. exists n1, n1'. split; [done|]. split; [done|]. split; [done|].
  exists n2, n2'. split; [done|]. split; [done|]. by apply (IH _ _ h').
Qed.

Lemma wp_unlink update curr n Q sh : ∀ i h h',
  C sh → unlink update curr i n h = Some h' → Q tt sh h' → wp F C (unlink_prog update curr i n) Q sh h.
Proof.
  induction n as [|n IH]; intros i h h' HC Hl HQ; cbn [unlink unlink_prog wp] in *; [by simplify_eq|].
  destruct (update !! i) as [u|]; [|done]. cbn [mbind option_bind] in Hl. unfold next_at in Hl.
  destruct (h !! u) as [nu|] eqn:Hu; [|done]. cbn [mbind option_bind] in Hl. cbn [wp]. split; [done|].
  exists nu. split; [done|]. destruct (sn_next nu !! i) as [nx|]; [|done]. cbn [mbind option_bind] in Hl.
  destruct (negb (nx =? curr)); [by simplify_eq|].
  destruct (h !! curr) as [nc|] eqn:Hc; [|done]. cbn [mbind option_bind] in Hl. cbn [wp]. split; [done|].
  exists nc. split; [done|]. destruct (sn_next nc !! i) as [cn|]; [|done]. cbn [mbind option_bind] in Hl.
  destruct (set_next h u i cn) as [h1|] eqn:E1; [|done]. cbn [mbind option_bind] in Hl.
  apply set_next_with in E1 as (n1 & n1' & H1 & W1 & ->).
  cbn [wp]. split; [done|]. exists n1, n1'. split; [done|]. split; [done|]. by apply (IH _ _ h').
Qed.
(** The three operations, from their results as functions.  The allocator of the
    function answers [p] once. *)
Definition alloc_once h (p : Z) : skip_heap → Z → Z → Z := λ h' _ _, if decide (h' = h) then p else NULL.

Hypothesis C_kept : ∀ sh f, (f = with_seed ∨ f = with_level) → ∀ x, C sh → C (f x sh).

Lemma wp_put fuel key len v Q sh h :
  C sh → (S (size h) ≤ fuel)%nat →
  (∀ p, (p = NULL → F) → (p ≠ NULL → h !! p = None) →
     ∃ r sh' h', shard_put mem (alloc_once h p) rand_r h sh key len v = Some (r, sh', h') ∧ Q r sh' h') →
  wp F C (put_prog fuel key len v) Q sh h.
Proof.
  intros HC Hf Hput.
  assert (Hq : ∃ q, q ≠ NULL ∧ h !! q = None).
  { exists (fresh ({[NULL]} ∪ dom h)). pose proof (is_fresh ({[NULL]} ∪ dom h)) as Hp.
    rewrite not_elem_of_union, not_elem_of_singleton in Hp. destruct Hp as [? Hp]. by rewrite not_elem_of_dom in Hp. }
  destruct Hq as (q & Hq & Hqh). unfold shard_put in Hput.
  destruct (search mem h sh key len) as [r|] eqn:Es; cbn [mbind option_bind] in Hput.
  2:{ by destruct (Hput q) as (? & ? & ? & ? & _). }
  destruct (found mem h r.1 key len) as [hit|] eqn:Ef; cbn [mbind option_bind] in Hput.
  2:{ by destruct (Hput q) as (? & ? & ? & ? & _). }
  apply wp_bind, (wp_search fuel key len r _ sh h HC Hf Es), wp_bind, (wp_found r.1 key len hit _ sh h HC Ef).
  destruct hit.
  - destruct (Hput q) as (r0 & sh' & h' & E & HQ); [done|done|].
    destruct (h !! r.1) as [n|] eqn:Hn; [|done]. cbn [mbind option_bind] in E. simplify_eq.
    cbn [wp]. split; [done|]. by exists n; eexists.
  - cbn [wp]. split; [done|]. destruct (random_level rand_r sh) as [level seed]. cbn [wp].
    set (sh1 := with_seed seed sh). assert (C sh1) by (apply C_kept; auto).
    split; [done|]. split; [done|].
    set (sh2 := if sh_current_level sh1 <? level then _ else _).
    assert (C sh2) by (subst sh2; destruct (_ <? _); [apply C_kept; auto|done]).
    assert (E2 : sh2 = mk_shard (sh_head sh) (sh_max_level sh)
      (if sh_current_level sh <? level then level else sh_current_level sh) (sh_count sh) (sh_node_id sh) seed)
      by (subst sh2; cbn; by destruct (_ <? _)).
    split; [done|]. split.
    + intros HF. destruct (Hput NULL) as (r0 & sh' & h' & E & HQ); [done|done|].
      unfold create_node, alloc_once in E. rewrite decide_True in E by done.
      change (NULL =? NULL) with true in E |- *. cbn [wp]. cbn in E. simplify_eq. by rewrite E2.
    + intros p Hp Hph. destruct (Hput p) as (r0 & sh' & h' & E & HQ); [done|done|].
      unfold create_node, alloc_once in E. rewrite decide_True in E by done.
      rewrite (proj2 (Z.eqb_neq p NULL)) in E |- * by done. cbv beta iota in E.
      rewrite (proj2 (Z.eqb_neq p NULL)) in E by done.
      destruct (link r.2 p 0 (Z.to_nat level) _) as [h1|] eqn:El; [|done]. cbn [mbind option_bind] in E. simplify_eq.
      apply wp_bind, (wp_link r.2 p _ _ _ _ _ h'); [done|done|]. cbn [wp]. split; [done|]. by rewrite E2.
Qed.

Lemma wp_get fuel key len v Q sh h :
  C sh → (S (size h) ≤ fuel)%nat → shard_get mem h sh key len = Some v → Q v sh h →
  wp F C (get_prog fuel key len) Q sh h.
Proof.
  intros HC Hf Hg HQ. unfold shard_get in Hg.
  destruct (search mem h sh key len) as [r|] eqn:Es; [|done]. cbn [mbind option_bind] in Hg.
  destruct (found mem h r.1 key len) as [hit|] eqn:Ef; [|done]. cbn [mbind option_bind] in Hg.
  apply wp_bind, (wp_search fuel key len r _ sh h HC Hf Es), wp_bind, (wp_found r.1 key len hit _ sh h HC Ef).
  destruct hit; [|by simplify_eq]. destruct (h !! r.1) as [n|] eqn:Hn; [|done]. cbn [mbind option_bind] in Hg.
  cbn [wp]. split; [done|]. exists n. by simplify_eq.
Qed.

Lemma unlink_in update curr n p : ∀ i h h',
  unlink update curr i n h = Some h' → is_Some (h !! p) → is_Some (h' !! p).
Proof.
  induction n as [|n IH]; intros i h h' Hu Hp; cbn [unlink] in Hu; [by simplify_eq|].
  destruct (update !! i) as [u|]; [|done]. cbn [mbind option_bind] in Hu.
  destruct (next_at h u i) as [nx|]; [|done]. cbn [mbind option_bind] in Hu.
  destruct (negb _); [by simplify_eq|]. destruct (next_at h curr i) as [cn|]; [|done]. cbn [mbind option_bind] in Hu.
  destruct (set_next h u i cn) as [h1|] eqn:E1; [|done]. cbn [mbind option_bind] in Hu.
  apply set_next_with in E1 as (n1 & n1' & H1 & W1 & ->). apply (IH _ _ _ Hu).
  rewrite lookup_insert_is_Some. destruct (decide (u = p)); auto.
Qed.

Lemma wp_remove fuel key len r sh' h' Q sh h :
  C sh → (S (size h) ≤ fuel)%nat → shard_remove mem h sh key len = Some (r, sh', h') → Q r sh' h' →
  wp F C (remove_prog fuel key len) Q sh h.
Proof.
  intros HC Hf Hg HQ. unfold shard_remove in Hg.
  destruct (search mem h sh key len) as [s|] eqn:Es; [|done]. cbn [mbind option_bind] in Hg.
  destruct (found mem h s.1 key len) as [hit|] eqn:Ef; [|done]. cbn [mbind option_bind] in Hg.
  apply wp_bind, (wp_search fuel key len s _ sh h HC Hf Es), wp_bind, (wp_found s.1 key len hit _ sh h HC Ef).
  destruct hit; [|by simplify_eq]. destruct (h !! s.1) as [n|] eqn:Hn; [|done]. cbn [mbind option_bind] in Hg.
  destruct (unlink s.2 s.1 0 _ h) as [h1|] eqn:Eu; [|done]. cbn [mbind option_bind] in Hg. simplify_eq.
  cbn [wp]. split; [done|]. exists n. split; [done|].
  apply wp_bind, (wp_unlink s.2 s.1 _ _ _ _ _ h1); [done|done|].
  destruct (unlink_in _ _ _ s.1 _ _ _ Eu) as [n1 Hn1]; [by rewrite Hn|]. unfold free_node in HQ.
  destruct (s.1 =? NULL); cbn [wp]; (split; [done|]); [exact HQ|]. rewrite Hn1. by split_and!.
Qed.
End alone.
End programs.
