(* ===== verification/SkipConc.v ===== *)
(** * The skip list with many callers (src/structs/skip_list.c)

    Any number of threads call put, get, remove and count on one list.  Each shard
    has its own MCS lock, so operations on different shards run side by side on
    the heap they share; threads interleave at every access of a lock, of a
    shard's record and of a node.  The count is read without any lock. *)

From stdpp Require Import prelude gmap sorting.
From Stdlib Require Import ZArith Lia.
From S2P Require Import Prelude Words Arena Ring Context FairLock McsLock HashTable RobinHood Locked SkipList SkipChain SkipMap HeapProg SkipProg.
Local Open Scope Z_scope.
Local Open Scope word_scope.

#[export] Instance skip_op_eq_dec : EqDecision skip_op.
Proof. solve_decision. Defined.

(** ** Threads *)

(** Outside any call; inside the lock call of shard [j]; in its critical section,
    with the accesses still to make; about to unlock; inside the unlock call; in
    the loop of [nkit_skip_count] at shard [i]. *)
Inductive sk_pc :=
| SkIdle
| SkLocking (j : nat) (o : skip_op)
| SkBody (j : nat) (o : skip_op) (pr : sk_prog Z)
| SkDone (j : nat) (r : Z)
| SkUnlocking (j : nat) (r : Z)
| SkCounting (i : nat) (total : Z).

(** [sk_locks] are the [lock] fields of the shards. *)
Record sk_state := mk_sk {
  sk_list : nkit_skip_t;
  sk_locks : list mcs_state;
  sk_heap : skip_heap;
  sk_threads : list sk_pc;
}.

Inductive sk_event :=
| SkEv (e : lk_event skip_op Z)
| SkAllocFailed (t : nat)
| SkCountCalled (t : nat)
| SkCountRead (t i : nat) (c : Z)
| SkCountReturned (t : nat) (total : Z).

(** A call begins, or a thread makes its next access; [c] is what the allocator
    answers if that is an allocation. *)
Inductive sk_label :=
| SkCall (t : nat) (o : skip_op)
| SkCount (t : nat)
| SkGo (t : nat) (c : Z).

(** The tests before the lock. *)
Definition skip_reject (o : skip_op) : option Z :=
  match o with
  | SkPut key len _ | SkRemove key len => if (key =? NULL) || (len =? 0) then Some (-1) else None
  | SkGet key len => if (key =? NULL) || (len =? 0) then Some NULL else None
  end.

Definition op_key (o : skip_op) : Z := match o with SkPut key _ _ | SkGet key _ | SkRemove key _ => key end.

Section steps.
Context (mem : Z → Z) (rand_r : Z → Z * Z) (fuel : nat).

Definition op_shard (sl : nkit_skip_t) (o : skip_op) : nat := shard_of mem sl (op_key o) (op_len o).

(** A step of shard [j]'s lock. *)
Definition lock_at (s : sk_state) (j : nat) (l : mcs_label) : option (list mcs_state * list lock_event) :=
  match sk_locks s !! j with
  | None => None
  | Some lk =>
      match mcs_step lk l with
      | Some (lk', les) => Some (<[j := lk']> (sk_locks s), les)
      | None => None
      end
  end.

(** One access of a thread that is inside a call. *)
Definition sk_go (s : sk_state) (t : nat) (pc : sk_pc) (c : Z) : option (sk_state * list sk_event) :=
  let moved locks pc' ev := Some (mk_sk (sk_list s) locks (sk_heap s) (<[t := pc']> (sk_threads s)), ev) in
  match pc with
  | SkIdle => None
  | SkLocking j o =>
      match lock_at s j (McAdvance t) with
      | Some (locks, les) =>
          moved locks (if granted t les then SkBody j o (skip_prog mem rand_r fuel o) else SkLocking j o) []
      | None => None
      end
  | SkBody j o pr =>
      match sl_shards (sk_list s) !! j with
      | None => None
      | Some sh =>
          match prog_step c pr sh (sk_heap s) with
          | None => None
          | Some (pr', sh', heap) =>
              let failed := if alloc_failure c pr then [SkAllocFailed t] else [] in
              let '(pc', ev) :=
                match pr' with
                | PRet r => (SkDone j r, [SkEv (Applied t o r)])
                | _ => (SkBody j o pr', [])
                end in
              Some (mk_sk (set_shard (sk_list s) j sh') (sk_locks s) heap (<[t := pc']> (sk_threads s)), failed ++ ev)
          end
      end
  | SkDone j r =>
      match lock_at s j (McUnlock t) with
      | Some (locks, _) => moved locks (SkUnlocking j r) []
      | None => None
      end
  | SkUnlocking j r =>
      match lock_at s j (McAdvance t) with
      | Some (locks, les) =>
          if released_by t les then moved locks SkIdle [SkEv (Returned t r)] else moved locks (SkUnlocking j r) []
      | None => None
      end
  | SkCounting i total =>
      if Z.of_nat i <? sl_num_shards (sk_list s) then
        match sl_shards (sk_list s) !! i with
        | Some sh => moved (sk_locks s) (SkCounting (S i) (total +w sh_count sh)) [SkCountRead t i (sh_count sh)]
        | None => None
        end
      else moved (sk_locks s) SkIdle [SkCountReturned t total]
  end.

Definition sk_step (s : sk_state) (l : sk_label) : option (sk_state * list sk_event) :=
  match l with
  | SkCall t o =>
      match sk_threads s !! t with
      | Some SkIdle =>
          match skip_reject o with
          | Some r => Some (s, [SkEv (Called t o); SkEv (Returned t r)])
          | None =>
              let j := op_shard (sk_list s) o in
              match lock_at s j (McLock t) with
              | Some (locks, _) =>
                  Some (mk_sk (sk_list s) locks (sk_heap s) (<[t := SkLocking j o]> (sk_threads s)), [SkEv (Called t o)])
              | None => None
              end
          end
      | _ => None
      end
  | SkCount t =>
      match sk_threads s !! t with
      | Some SkIdle =>
          Some (mk_sk (sk_list s) (sk_locks s) (sk_heap s) (<[t := SkCounting 0 0]> (sk_threads s)), [SkCountCalled t])
      | _ => None
      end
  | SkGo t c =>
      match sk_threads s !! t with
      | Some pc => sk_go s t pc c
      | None => None
      end
  end.

(** A list with all locks free, and [length nodes] threads, each with what its
    stack holds where its lock node will be. *)
Definition sk_start (sl : nkit_skip_t) (heap : skip_heap) (nodes : list nkit_mcs_node_t) : sk_state :=
  mk_sk sl (replicate (length (sl_shards sl)) (mcs_start nodes)) heap (replicate (length nodes) SkIdle).
End steps.

(** ** What a history shows *)

Definition calls (es : list sk_event) : list (lk_event skip_op Z) :=
  omap (λ e, match e with SkEv e => Some e | _ => None end) es.

(** Some allocation failed. *)
Definition failed (es : list sk_event) : Prop := ∃ t, SkAllocFailed t ∈ es.

(** What thread [t] has seen of a count: it reads the shards in order, each once,
    and returns the sum of what it read. *)
Inductive count_status := CtIdle | CtAt (i : nat) (total : Z).

Definition count_step (shards : Z) (t : nat) (c : count_status) (e : sk_event) : option count_status :=
  match e with
  | SkCountCalled u => if decide (u = t) then match c with CtIdle => Some (CtAt 0 0) | _ => None end else Some c
  | SkCountRead u i x =>
      if decide (u = t) then
        match c with CtAt i' total => if decide (i' = i) then Some (CtAt (S i) (total +w x)) else None | _ => None end
      else Some c
  | SkCountReturned u total =>
      if decide (u = t) then
        match c with
        | CtAt i total' => if decide (Z.of_nat i = shards ∧ total' = total) then Some CtIdle else None
        | _ => None
        end
      else Some c
  | _ => Some c
  end.

Definition count_history (shards : Z) (t : nat) (es : list sk_event) : option count_status :=
  run (count_step shards t) CtIdle es.

(** ** One shard *)

Section shard.
Context (mem : Z → Z) (rand_r : Z → Z * Z) (sl0 : nkit_skip_t).
Implicit Types (m : gmap (list Z) Z) (h : skip_heap) (sh : nkit_skip_shard_t).

Definition op_bytes (o : skip_op) : list Z := read_bytes mem (op_key o) (op_len o).

(** The entries of shard [j]. *)
Definition part (j : nat) m : gmap (list Z) Z := filter (λ kv, route sl0 kv.1 = j) m.
Definition agree (j : nat) m m' : Prop := ∀ k, route sl0 k = j → m' !! k = m !! k.

(** The piece [h] of the heap is exactly shard [j], holding its part of [m]. *)
Definition shard_rep (j : nat) sh h m : Prop := ∃ order,
  shard_ok mem h sh order ∧ (∀ p, is_Some (h !! p) ↔ p ∈ sh_head sh :: order) ∧
  ∀ k v, has mem h order k v ↔ route sl0 k = j ∧ m !! k = Some v.

(** A call's effect on the map; under [F] a put may be refused. *)
Definition call_spec (F : Prop) m (o : skip_op) (r : Z) m' : Prop :=
  skip_spec mem m o = (r, m') ∨ (F ∧ (∃ key len v, o = SkPut key len v) ∧ r = -1 ∧ m' = m).

Definition after_op (F : Prop) (j : nat) m (o : skip_op) (r : Z) sh h : Prop :=
  ∃ m', call_spec F m o r m' ∧ shard_rep j sh h m'.

Definition count_is (j : nat) m sh : Prop := sh_count sh = u64 (Z.of_nat (size (part j m))).

Lemma agree_part j m m' : agree j m m' → part j m' = part j m.
Proof.
  intros H. apply map_eq. intros k. apply option_eq. intros v. unfold part.
  rewrite !map_lookup_filter_Some. cbn. split; intros [Hk Hr]; (split; [|done]); [rewrite <-H|rewrite H]; done.
Qed.

Lemma agree_sym j m m' : agree j m m' → agree j m' m.
Proof. intros H k Hk. symmetry. by apply H. Qed.

Lemma shard_rep_agree j sh h m m' : agree j m m' → shard_rep j sh h m → shard_rep j sh h m'.
Proof.
  intros Ha (order & Hok & Hdom & Hhas). exists order. split; [done|]. split; [done|]. intros k v.
  rewrite Hhas. split; intros [Hr Hk]; (split; [done|]); [rewrite Ha|rewrite <-Ha]; done.
Qed.

Lemma shard_rep_count j sh h m : shard_rep j sh h m → count_is j m sh.
Proof.
  intros (order & Hok & _ & Hhas). unfold count_is. rewrite (sk_count _ _ _ _ Hok). do 2 f_equal.
  set (ent := λ p, (key_at mem h p, value_at h p)).
  assert (Hnd : NoDup ((ent <$> order).*1)).
  { rewrite <-list_fmap_compose. apply (shard_keys_nodup mem h sh order Hok). }
  assert (E : part j m = list_to_map (ent <$> order)).
  { apply map_eq. intros k. apply option_eq. intros v. unfold part. rewrite map_lookup_filter_Some. cbn.
    rewrite <-elem_of_list_to_map by done. rewrite list_elem_of_fmap. rewrite (and_comm (m !! k = _)), <-Hhas. split.
    - intros (p & Hp & <- & <-). eauto.
    - intros (p & [= -> ->] & Hp). by exists p. }
  by rewrite E, map_size_list_to_map, length_fmap.
Qed.

(** An operation on another shard's key. *)
Lemma call_spec_agree F m o r m' j : call_spec F m o r m' → route sl0 (op_bytes o) ≠ j → agree j m m'.
Proof.
  intros [E|(_ & _ & _ & ->)] Hj k Hk; [|done]. assert (Hne : op_bytes o ≠ k) by congruence.
  destruct o as [key len v|key len|key len]; cbn in E; unfold op_bytes in Hne; cbn in Hne;
    destruct (_ || _); simplify_eq; try done.
  - by rewrite lookup_insert_ne.
  - destruct (m !! _); simplify_eq; [|done]. by rewrite lookup_delete_ne.
Qed.

Lemma call_spec_stable F m m2 o r m' :
  call_spec F m o r m' → m2 !! op_bytes o = m !! op_bytes o →
  ∃ m2', call_spec F m2 o r m2' ∧ ∀ j, agree j m m2 → agree j m' m2'.
Proof.
  intros [E|(HF & Hp & -> & ->)] Hk.
  2:{ exists m2. split; [by right|done]. }
  destruct (skip_spec mem m2 o) as [r2 m2'] eqn:E2.
  assert (r2 = r ∧ ∀ j, agree j m m2 → agree j m' m2') as [-> Ha]; [|exists m2'; split; [by left|done]].
  destruct o as [key len v|key len|key len]; cbn in E, E2; unfold op_bytes in Hk; cbn in Hk;
    destruct (_ || _); simplify_eq; try done.
  - split; [done|]. intros j Ha k Hkj. destruct (decide (read_bytes mem key len = k)) as [->|].
    + by rewrite !lookup_insert_eq.
    + rewrite !lookup_insert_ne by done. by apply Ha.
  - by rewrite Hk.
  - rewrite Hk in E2. destruct (m !! _) as [v|]; simplify_eq; [|done]. split; [done|]. intros j Ha k Hkj.
    destruct (decide (read_bytes mem key len = k)) as [->|].
    + by rewrite !lookup_delete_eq.
    + rewrite !lookup_delete_ne by done. by apply Ha.
Qed.

Lemma after_op_stable F j m m2 o r sh h :
  route sl0 (op_bytes o) = j → agree j m m2 → after_op F j m o r sh h → after_op F j m2 o r sh h.
Proof.
  intros Hr Ha (m' & Hc & Hrep). destruct (call_spec_stable F m m2 o r m' Hc) as (m2' & Hc2 & Hag); [by apply Ha|].
  exists m2'. split; [done|]. by apply (shard_rep_agree _ _ _ m'); auto.
Qed.

(** ** What a whole critical section does *)

Lemma op_valid o : skip_reject o = None → 0 ≤ op_len o → op_key o ≠ NULL ∧ 0 < op_len o.
Proof.
  destruct o as [key len v|key len|key len]; cbn [skip_reject op_key op_len];
    (destruct (_ || _) eqn:E; [done|]); apply orb_false_iff in E as [?%Z.eqb_neq ?%Z.eqb_neq]; (split; [done|lia]).
Qed.

Lemma body_put F fuel j key len v sh h m :
  shard_rep j sh h m → key ≠ NULL → 0 < len → route sl0 (read_bytes mem key len) = j → (size h < fuel)%nat →
  wp F (count_is j m) (put_prog mem rand_r fuel key len v) (after_op F j m (SkPut key len v)) sh h.
Proof.
  intros Hrep Hk Hl Hr Hf. pose proof (shard_rep_count _ _ _ _ Hrep) as HC. destruct Hrep as (order & Hok & Hdom & Hhas).
  apply wp_put; [by intros sh' f [-> | ->]|done|lia|]. intros p HF Hp.
  destruct (shard_put_ok mem (alloc_once h p) rand_r h sh order key len v) as
    (r & sh' & h' & order' & E & Hok' & Ehd & Hsup & Hsub & Hfr & Hres); [|done|done|].
  { intros h1 n sz. unfold alloc_once. case_decide; [subst|done]. done. }
  exists r, sh', h'. split; [done|].
  assert (Hdom' : ∀ q, is_Some (h' !! q) ↔ q ∈ sh_head sh' :: order').
  { intros q. split; [|by apply (in_heap mem h' sh' order')]. rewrite Ehd. intros Hq.
    destruct (decide (q ∈ sh_head sh :: order')) as [|Hn]; [done|]. exfalso.
    assert (Hq1 : q ∉ sh_head sh :: order) by (intros [->|?]%elem_of_cons; apply Hn; [by left|right; by apply Hsup]).
    rewrite Hfr in Hq; [by apply Hq1, Hdom|done|]. intros ?. apply Hn. by right. }
  destruct Hres as [[-> Hiff]|(-> & -> & -> & (n & sz & Ha))].
  - exists (<[read_bytes mem key len := v]> m). split.
    + left. cbn. by rewrite (proj2 (Z.eqb_neq key NULL)), (proj2 (Z.eqb_neq len 0)) by (done || lia).
    + exists order'. split; [done|]. split; [done|]. intros k v'. rewrite Hiff. case_decide as Ek.
      * subst k. rewrite lookup_insert_eq. split; [by intros ->|]. by intros [_ [= ->]].
      * rewrite lookup_insert_ne by done. apply Hhas.
  - exists m. split.
    + right. split_and!; [|by do 3 eexists|done|done]. apply HF. unfold alloc_once in Ha. by rewrite decide_True in Ha.
    + by exists order.
Qed.

Lemma body_get F fuel j key len sh h m :
  shard_rep j sh h m → key ≠ NULL → 0 < len → route sl0 (read_bytes mem key len) = j → (size h < fuel)%nat →
  wp F (count_is j m) (get_prog mem fuel key len) (after_op F j m (SkGet key len)) sh h.
Proof.
  intros Hrep Hk Hl Hr Hf. pose proof (shard_rep_count _ _ _ _ Hrep) as HC. pose proof Hrep as (order & Hok & Hdom & Hhas).
  destruct (shard_get_ok mem h sh order key len Hok Hl) as (v & Eg & Hv).
  apply (wp_get mem F (count_is j m) fuel key len v); [done|lia|done|]. exists m. split; [|done]. left. cbn.
  rewrite (proj2 (Z.eqb_neq key NULL)), (proj2 (Z.eqb_neq len 0)) by (done || lia). cbn. f_equal.
  destruct Hv as [Hv|[-> Hno]]; [apply Hhas in Hv as [_ Hv]; by rewrite Hv|].
  destruct (m !! read_bytes mem key len) as [v|] eqn:E; [|done]. exfalso. by apply (Hno v), Hhas.
Qed.

Lemma body_remove F fuel j key len sh h m :
  shard_rep j sh h m → key ≠ NULL → 0 < len → route sl0 (read_bytes mem key len) = j → (size h < fuel)%nat →
  wp F (count_is j m) (remove_prog mem fuel key len) (after_op F j m (SkRemove key len)) sh h.
Proof.
  intros Hrep Hk Hl Hr Hf. pose proof (shard_rep_count _ _ _ _ Hrep) as HC. destruct Hrep as (order & Hok & Hdom & Hhas).
  destruct (shard_remove_ok mem h sh order key len Hok Hl) as
    (r & sh' & h' & order' & E & Hok' & Ehd & Hsub & Hfr & Hgone & Hres & Hiff).
  apply (wp_remove mem F (count_is j m) fuel key len r sh' h'); [done|lia|done|].
  exists (delete (read_bytes mem key len) m). split.
  - left. cbn. rewrite (proj2 (Z.eqb_neq key NULL)), (proj2 (Z.eqb_neq len 0)) by (done || lia). cbn.
    destruct Hres as [[-> [v Hv]]|[-> Hno]].
    + apply Hhas in Hv as [_ Hv]. by rewrite Hv.
    + destruct (m !! read_bytes mem key len) as [v|] eqn:Em; [exfalso; by apply (Hno v), Hhas|].
      by rewrite delete_id.
  - exists order'. split; [done|]. split.
    + intros q. split; [|by apply (in_heap mem h' sh' order')]. rewrite Ehd. intros Hq.
      destruct (decide (q ∈ sh_head sh :: order')) as [|Hn]; [done|]. exfalso.
      destruct (decide (q ∈ sh_head sh :: order)) as [[->|Hin]%elem_of_cons|Hout].
      * apply Hn. by left.
      * rewrite Hgone in Hq; [by destruct Hq|done|]. intros ?. apply Hn. by right.
      * rewrite Hfr in Hq by done. by apply Hout, Hdom.
    + intros k v. rewrite Hiff, Hhas, lookup_delete_Some. naive_solver.
Qed.

Lemma body_ok F fuel j o sh h m :
  shard_rep j sh h m → skip_reject o = None → 0 ≤ op_len o → route sl0 (op_bytes o) = j → (size h < fuel)%nat →
  wp F (count_is j m) (skip_prog mem rand_r fuel o) (after_op F j m o) sh h ∧ running (skip_prog mem rand_r fuel o).
Proof.
  intros Hrep Hrej Hlen Hr Hf. destruct (op_valid o Hrej Hlen) as [Hk Hl]. split; [|by destruct o].
  destruct o as [key len v|key len|key len]; [by apply body_put|by apply body_get|by apply body_remove].
Qed.
End shard.

(** ** The invariant *)

Lemma map_run_mono mem (F F' : Prop) ops : ∀ m rs m',
  (F → F') → map_run mem F m ops rs m' → map_run mem F' m ops rs m'.
Proof.
  induction ops as [|o ops IH]; intros m [|r rs] m' HF; cbn [map_run]; try done.
  intros (m1 & Hs & Hr). exists m1. split; [|by apply IH]. destruct Hs as [?|(? & ?)]; [by left|right; auto].
Qed.

Lemma map_run_snoc mem F o r m2 ops : ∀ m rs m1,
  map_run mem F m ops rs m1 → call_spec mem F m1 o r m2 → map_run mem F m (ops ++ [o]) (rs ++ [r]) m2.
Proof.
  induction ops as [|o' ops IH]; intros m [|r' rs] m1; cbn [map_run app]; try done.
  - intros -> H. exists m2. by split.
  - intros (m' & Hs & Hr) H. exists m'. split; [done|]. by apply (IH m' rs m1).
Qed.

Definition sk_phase (j : nat) (pc : sk_pc) (m : mcs_pc) : Prop :=
  match pc with
  | SkLocking i _ => if decide (i = j) then locking m = true else m = McIdle
  | SkBody i _ _ | SkDone i _ => if decide (i = j) then m = McHeld else m = McIdle
  | SkUnlocking i _ => if decide (i = j) then unlocking m = true else m = McIdle
  | SkIdle | SkCounting _ _ => m = McIdle
  end.

Definition sk_status (pc : sk_pc) : @call_status skip_op Z :=
  match pc with
  | SkIdle | SkCounting _ _ => CsIdle
  | SkLocking _ o | SkBody _ o _ => CsCalled o
  | SkDone _ r | SkUnlocking _ r => CsApplied r
  end.

Definition ct_status (pc : sk_pc) : count_status :=
  match pc with SkCounting i total => CtAt i total | _ => CtIdle end.

Definition event_by (t : nat) (e : sk_event) : Prop :=
  match e with
  | SkEv e => event_of t e
  | SkAllocFailed u | SkCountCalled u | SkCountRead u _ _ | SkCountReturned u _ => u = t
  end.

Section system.
Context (mem : Z → Z) (rand_r : Z → Z * Z) (fuel : nat).
Context (sl0 : nkit_skip_t) (m0 : gmap (list Z) Z) (rest : skip_heap) (sz0 : nat).
Implicit Types (s : sk_state) (es : list sk_event) (m : gmap (list Z) Z) (pieces : list skip_heap).
Abbreviation num := (sl_num_shards sl0).
Abbreviation shard_n := (length (sl_shards sl0)).

Definition pending_ok (pc : sk_pc) : Prop :=
  match pc with
  | SkIdle => True
  | SkLocking j o | SkBody j o _ =>
      skip_reject o = None ∧ 0 ≤ op_len o ∧ route sl0 (op_bytes mem o) = j ∧ (j < shard_n)%nat
  | SkDone j _ | SkUnlocking j _ => (j < shard_n)%nat
  | SkCounting i _ => (i ≤ shard_n)%nat
  end.

Definition pc_at s (t : nat) : sk_pc := default SkIdle (sk_threads s !! t).

(** The locks, and what each thread has seen of its call. *)
Record control es s : Prop := {
  cn_num : sl_num_shards (sk_list s) = num ∧ length (sl_shards (sk_list s)) = shard_n ∧ length (sk_locks s) = shard_n;
  cn_lock j lk : sk_locks s !! j = Some lk → ∃ f, mcs_rep lk f;
  cn_phase j lk t pc : sk_locks s !! j = Some lk → sk_threads s !! t = Some pc →
    ∃ q, pc_of lk t = Some q ∧ sk_phase j pc q;
  cn_pending t : pending_ok (pc_at s t);
  cn_calls t : call_history skip_reject t (calls es) = Some (sk_status (pc_at s t));
  cn_counts t : count_history num t es = Some (ct_status (pc_at s t));
}.

(** The heap: a piece per shard, and the rest.  A shard nobody works on is
    well-formed; one that is worked on will be when the work is done. *)
Record data (n : nat) es s m pieces : Prop := {
  dt_split : split (sk_heap s) pieces;
  dt_rest : length pieces = S shard_n ∧ pieces !! shard_n = Some rest;
  dt_size j h : pieces !! j = Some h → (size h ≤ sz0 + n)%nat;
  dt_quiet j sh h : sl_shards (sk_list s) !! j = Some sh → pieces !! j = Some h →
    (∀ t o pr, sk_threads s !! t ≠ Some (SkBody j o pr)) → shard_rep mem sl0 j sh h m;
  dt_body t j o pr : sk_threads s !! t = Some (SkBody j o pr) → running pr ∧
    ∃ sh h, sl_shards (sk_list s) !! j = Some sh ∧ pieces !! j = Some h ∧
      ∀ F : Prop, (failed es → F) → wp F (count_is sl0 j m) pr (after_op mem sl0 F j m o) sh h;
  dt_run : map_run mem (failed es) m0 (applied (calls es)) (results (calls es)) m;
  dt_counts es1 t i c es2 : es = es1 ++ SkCountRead t i c :: es2 →
    ∃ m1, map_run mem (failed es1) m0 (applied (calls es1)) (results (calls es1)) m1 ∧
      c = u64 (Z.of_nat (size (part sl0 i m1)));
}.

(** ** Threads and locks *)

Lemma calls_app es es' : calls (es ++ es') = calls es ++ calls es'.
Proof. apply omap_app. Qed.

Lemma calls_by t ev : Forall (event_by t) ev → Forall (event_of t) (calls ev).
Proof. induction 1 as [|e ev He _ IH]; [constructor|]. destruct e; cbn; [constructor|..]; done. Qed.

Lemma count_other t u c ev : u ≠ t → Forall (event_by u) ev → run (count_step num t) c ev = Some c.
Proof.
  intros Hne. induction 1 as [|e ev He _ IH]; [done|]. cbn [run].
  destruct e; cbn [count_step event_by] in *; subst; rewrite ?decide_False by done; exact IH.
Qed.

(** How the locks may change when [t] goes from [pc] to [pc']. *)
Definition locks_go s (t : nat) (pc pc' : sk_pc) (locks' : list mcs_state) : Prop :=
  (locks' = sk_locks s ∧ ∀ j q, sk_phase j pc q → sk_phase j pc' q) ∨
  ∃ j l les, lock_at s j l = Some (locks', les) ∧ lock_thread l = t ∧
    (∀ q q', sk_phase j pc q → lock_moved l les q q' → sk_phase j pc' q') ∧
    (∀ i q, i ≠ j → sk_phase i pc q → sk_phase i pc' q).

Lemma pc_at_insert s t pc sl locks heap u :
  (t < length (sk_threads s))%nat →
  pc_at (mk_sk sl locks heap (<[t := pc]> (sk_threads s))) u = if decide (u = t) then pc else pc_at s u.
Proof. intros Ht. unfold pc_at. cbn. rewrite lookup_insert_decide by done. by case_decide. Qed.

Lemma control_moves es s t pc pc' sl' locks' heap' ev :
  control es s → sk_threads s !! t = Some pc →
  sl_num_shards sl' = num → length (sl_shards sl') = shard_n → locks_go s t pc pc' locks' → pending_ok pc' →
  Forall (event_by t) ev → run (status_step skip_reject t) (sk_status pc) (calls ev) = Some (sk_status pc') →
  run (count_step num t) (ct_status pc) ev = Some (ct_status pc') →
  control (es ++ ev) (mk_sk sl' locks' heap' (<[t := pc']> (sk_threads s))).
Proof.
  intros I Ht Hnum Hlen Hlocks Hpend Hev Hst Hct. pose proof (lookup_lt_Some _ _ _ Ht) as Hlt.
  destruct I as [(I0 & I1 & I2) I3 I4 I5 I6 I7].
  assert (Hlk : length locks' = shard_n ∧ (∀ j lk, locks' !! j = Some lk → ∃ f, mcs_rep lk f) ∧
    ∀ j lk u pcu, locks' !! j = Some lk → <[t := pc']> (sk_threads s) !! u = Some pcu →
      ∃ q, pc_of lk u = Some q ∧ sk_phase j pcu q).
  { destruct Hlocks as [[-> Hkeep]|(j & l & les & Hl & Hth & Hmv & Hoth)].
    - split; [done|]. split; [done|]. intros i lk u pcu Hi Hu. rewrite lookup_insert_decide in Hu by done.
      case_decide; simplify_eq; [|by apply I4]. destruct (I4 i lk t pc Hi Ht) as (q & ? & ?). exists q. auto.
    - unfold lock_at in Hl. destruct (sk_locks s !! j) as [lk|] eqn:Hj; [|done].
      destruct (mcs_step lk l) as [[lk' les']|] eqn:Hs; [|done]. simplify_eq. rewrite length_insert.
      pose proof (lookup_lt_Some _ _ _ Hj) as Hjlt. destruct (I3 j lk Hj) as [f Hrep].
      destruct (mcs_step_pc _ _ _ _ Hs) as (q & q' & Hq & Hpc & Hlm). split; [done|]. split.
      + intros i lki. rewrite lookup_insert_decide by done. case_decide; [|by apply I3]. intros [= <-].
        destruct (mcs_simulates _ _ _ _ _ Hrep Hs) as (f' & _ & Hrep'). eauto.
      + intros i lki u pcu Hi Hu. rewrite lookup_insert_decide in Hi by done. rewrite lookup_insert_decide in Hu by done.
        destruct (decide (i = j)) as [->|Hij]; simplify_eq.
        * rewrite Hpc. case_decide; simplify_eq; [|by apply I4].
          exists q'. split; [done|]. destruct (I4 j lk _ pc Hj Ht) as (q0 & Hq0 & Hph). rewrite Hq in Hq0. simplify_eq. eauto.
        * case_decide; simplify_eq; [|by apply I4]. destruct (I4 i lki _ pc Hi Ht) as (q0 & ? & ?). exists q0. auto. }
  assert (Hat : pc_at s t = pc) by (unfold pc_at; by rewrite Ht).
  destruct Hlk as (Hl1 & Hl2 & Hl3). split; cbn [sk_list sk_locks sk_threads]; auto.
  - intros u. rewrite pc_at_insert by done. by case_decide.
  - intros u. rewrite pc_at_insert, calls_app by done. specialize (I6 u). case_decide as E.
    + subst u. rewrite Hat in I6. by rewrite (call_history_app _ _ _ _ _ I6).
    + rewrite (call_history_app _ _ _ _ _ I6). apply (run_other _ u t); [done|]. by apply calls_by.
  - intros u. rewrite pc_at_insert by done. unfold count_history. rewrite run_app. specialize (I7 u).
    unfold count_history in I7. rewrite I7. case_decide as E; [subst u; by rewrite Hat|]. by apply (count_other u t).
Qed.

(** Two threads in the critical section of one shard are one. *)
Lemma body_unique es s t t' j o o' pr pr' :
  control es s → sk_threads s !! t = Some (SkBody j o pr) → sk_threads s !! t' = Some (SkBody j o' pr') → t = t'.
Proof.
  intros I Ht Ht'. pose proof (cn_pending _ _ I t) as Hp. unfold pc_at in Hp. rewrite Ht in Hp.
  destruct Hp as (_ & _ & _ & Hj). destruct (cn_num _ _ I) as (_ & _ & Hn).
  destruct (lookup_lt_is_Some_2 (sk_locks s) j) as [lk Hlk]; [lia|].
  destruct (cn_lock _ _ I j lk Hlk) as [f Hrep].
  destruct (cn_phase _ _ I j lk t _ Hlk Ht) as (q & Hq & Hph). destruct (cn_phase _ _ I j lk t' _ Hlk Ht') as (q' & Hq' & Hph').
  cbn in Hph, Hph'. rewrite decide_True in Hph, Hph' by done. subst. by apply (one_holder lk f).
Qed.

(** ** The heap *)

Definition reads_ok es : Prop := ∀ es1 t i c es2, es = es1 ++ SkCountRead t i c :: es2 →
  ∃ m1, map_run mem (failed es1) m0 (applied (calls es1)) (results (calls es1)) m1 ∧
    c = u64 (Z.of_nat (size (part sl0 i m1))).

Lemma reads_app es ev m :
  reads_ok es → map_run mem (failed es) m0 (applied (calls es)) (results (calls es)) m →
  (∀ es1 u i c es2, ev = es1 ++ SkCountRead u i c :: es2 → es1 = [] ∧ c = u64 (Z.of_nat (size (part sl0 i m)))) →
  reads_ok (es ++ ev).
Proof.
  intros Hes Hrun Hev es1 u i c es2 E. apply app_eq_app in E as (l & [[E1 E2]|[E1 E2]]).
  - destruct l as [|x l]; cbn in E2.
    + rewrite app_nil_r in E1. subst es1. destruct (Hev [] u i c es2) as [_ ->]; [done|]. by exists m.
    + injection E2 as <- ->. by apply (Hes es1 u i c l).
  - subst es1. destruct (Hev l u i c es2 E2) as [-> ->]. rewrite app_nil_r. by exists m.
Qed.

Lemma failed_app es ev : failed es → failed (es ++ ev).
Proof. intros [t Ht]. exists t. apply elem_of_app. by left. Qed.

Lemma applied_app es ev : applied (calls (es ++ ev)) = applied (calls es) ++ applied (calls ev).
Proof. rewrite calls_app. apply omap_app. Qed.
Lemma results_app es ev : results (calls (es ++ ev)) = results (calls es) ++ results (calls ev).
Proof. rewrite calls_app. apply omap_app. Qed.

(** A move that neither begins nor continues a critical section. *)
Lemma data_moves n es s t pc pc' locks' ev m pieces :
  data n es s m pieces → sk_threads s !! t = Some pc →
  (∀ j o pr, pc ≠ SkBody j o pr) → (∀ j o pr, pc' ≠ SkBody j o pr) →
  applied (calls ev) = [] → results (calls ev) = [] →
  (∀ es1 u i c es2, ev = es1 ++ SkCountRead u i c :: es2 → es1 = [] ∧ c = u64 (Z.of_nat (size (part sl0 i m)))) →
  data (S n) (es ++ ev) (mk_sk (sk_list s) locks' (sk_heap s) (<[t := pc']> (sk_threads s))) m pieces.
Proof.
  intros D Ht Hpc Hpc' Ha Hr Hev. pose proof (lookup_lt_Some _ _ _ Ht) as Hlt. destruct D as [D1 D2 D3 D4 D5 D6 D7].
  split; cbn [sk_list sk_heap sk_threads]; auto.
  - intros j h Hj. specialize (D3 j h Hj). lia.
  - intros j sh h Hsh Hh Hno. apply (D4 j sh h Hsh Hh). intros u o pr Hu. apply (Hno u o pr).
    rewrite lookup_insert_decide by done. case_decide; [|done]. subst. rewrite Ht in Hu. injection Hu as ->. by destruct (Hpc j o pr).
  - intros u j o pr Hu. rewrite lookup_insert_decide in Hu by done. case_decide; [injection Hu as ->; by destruct (Hpc' j o pr)|].
    destruct (D5 u j o pr Hu) as (Hrn & sh & h & Hsh & Hh & Hw). split; [done|]. exists sh, h. split; [done|]. split; [done|].
    intros F HF. apply Hw. intros Hf. by apply HF, failed_app.
  - rewrite applied_app, results_app, Ha, Hr, !app_nil_r. eapply map_run_mono; [apply failed_app|done].
  - by apply (reads_app es ev m).
Qed.

(** A thread enters its critical section. *)
Lemma data_enter n es s t j o locks' m pieces :
  control es s → data n es s m pieces → sk_threads s !! t = Some (SkLocking j o) →
  (∀ u o' pr', sk_threads s !! u ≠ Some (SkBody j o' pr')) → (sz0 + n < fuel)%nat →
  data (S n) es (mk_sk (sk_list s) locks' (sk_heap s)
    (<[t := SkBody j o (skip_prog mem rand_r fuel o)]> (sk_threads s))) m pieces.
Proof.
  intros I D Ht Hno Hf. pose proof (lookup_lt_Some _ _ _ Ht) as Hlt. destruct (cn_num _ _ I) as (_ & Hn & _).
  pose proof (cn_pending _ _ I t) as Hp. unfold pc_at in Hp. rewrite Ht in Hp. destruct Hp as (Hrej & Hlen & Hrt & Hj).
  destruct D as [D1 D2 D3 D4 D5 D6 D7]. split; cbn [sk_list sk_heap sk_threads]; auto.
  - intros i h Hi. specialize (D3 i h Hi). lia.
  - intros i sh h Hsh Hh Hnob. apply (D4 i sh h Hsh Hh). intros u o' pr' Hu. apply (Hnob u o' pr').
    rewrite lookup_insert_decide by done. case_decide; [|done]. subst. congruence.
  - intros u i o' pr' Hu. rewrite lookup_insert_decide in Hu by done. case_decide; [|by apply (D5 u)].
    injection Hu as <- <- <-. destruct (lookup_lt_is_Some_2 (sl_shards (sk_list s)) j) as [sh Hsh]; [lia|].
    destruct (lookup_lt_is_Some_2 pieces j) as [h Hh]; [destruct D2; lia|]. specialize (D4 j sh h Hsh Hh Hno).
    specialize (D3 j h Hh). split.
    + by apply (body_ok mem rand_r sl0 True fuel j o sh h m); auto; lia.
    + exists sh, h. split; [done|]. split; [done|]. intros F _. apply body_ok; auto; lia.
Qed.

(** A thread works on shard [j]: the other shards, and what the map holds for
    them, stay. *)
Lemma data_works n es s t j o pr pc' m m' pieces sh sh' hj hj' heap' ev :
  control es s → data n es s m pieces → sk_threads s !! t = Some (SkBody j o pr) →
  sl_shards (sk_list s) !! j = Some sh → pieces !! j = Some hj →
  split heap' (<[j := hj']> pieces) → (size hj' ≤ S (size hj))%nat → (∀ i, i ≠ j → agree sl0 i m m') →
  match pc' with
  | SkBody j1 o1 pr1 => j1 = j ∧ o1 = o ∧ running pr1 ∧ ∀ F : Prop, (failed (es ++ ev) → F) →
      wp F (count_is sl0 j m') pr1 (after_op mem sl0 F j m' o) sh' hj'
  | SkDone _ _ => shard_rep mem sl0 j sh' hj' m'
  | _ => False
  end →
  map_run mem (failed (es ++ ev)) m0 (applied (calls (es ++ ev))) (results (calls (es ++ ev))) m' →
  (∀ u i c, SkCountRead u i c ∉ ev) →
  data (S n) (es ++ ev) (mk_sk (set_shard (sk_list s) j sh') (sk_locks s) heap' (<[t := pc']> (sk_threads s)))
    m' (<[j := hj']> pieces).
Proof.
  intros I D Ht Hsh Hj Hsplit Hsize Hag Hpc Hrun Hreads.
  pose proof (lookup_lt_Some _ _ _ Ht) as Hlt. pose proof (lookup_lt_Some _ _ _ Hj) as Hjlt.
  pose proof (lookup_lt_Some _ _ _ Hsh) as Hslt. destruct (cn_num _ _ I) as (_ & Hn & _).
  assert (Hothers : ∀ u i o' pr', u ≠ t → sk_threads s !! u = Some (SkBody i o' pr') → i ≠ j).
  { intros u i o' pr' Hne Hu ->. by apply Hne, (body_unique es s u t j o' o pr' pr). }
  destruct D as [D1 [D2 D2'] D3 D4 D5 D6 D7]. split; unfold set_shard; cbn [sk_list sk_heap sk_threads sl_shards]; auto.
  - rewrite length_insert, list_lookup_insert_ne by lia. done.
  - intros i h Hi. rewrite lookup_insert_decide in Hi by done. case_decide; simplify_eq; [specialize (D3 _ _ Hj)|specialize (D3 _ _ Hi)]; lia.
  - intros i shi h. rewrite !lookup_insert_decide by done. case_decide as E; intros Hi Hh Hno.
    + simplify_eq. destruct pc'; try done. destruct Hpc as (-> & _). destruct (Hno t o0 pr0). by rewrite list_lookup_insert_eq.
    + apply (shard_rep_agree mem sl0 i shi h m); [auto|]. apply (D4 i shi h Hi Hh). intros u o' pr' Hu.
      apply (Hno u o' pr'). rewrite lookup_insert_decide by done. case_decide; [|done]. subst. congruence.
  - intros u i o' pr1 Hu. rewrite lookup_insert_decide in Hu by done. case_decide as E.
    + injection Hu as ->. subst u. destruct Hpc as (-> & -> & Hrn & Hw). split; [done|]. exists sh', hj'.
      by rewrite !list_lookup_insert_eq.
    + assert (Hi : i ≠ j) by (by apply (Hothers u i o' pr1)).
      destruct (D5 u i o' pr1 Hu) as (Hrn & shi & hi & Hshi & Hhi & Hw). split; [done|]. exists shi, hi.
      rewrite !list_lookup_insert_ne by done. split; [done|]. split; [done|]. intros F HF.
      pose proof (cn_pending _ _ I u) as Hp. unfold pc_at in Hp. rewrite Hu in Hp. destruct Hp as (_ & _ & Hrt & _).
      unfold count_is. rewrite (agree_part sl0 i m m') by auto.
      apply (wp_mono F _ pr1 (after_op mem sl0 F i m o')).
      * apply Hw. intros Hf. by apply HF, failed_app.
      * intros r shr hr. apply after_op_stable; auto.
  - apply (reads_app es ev m); auto. intros es1 u i c es2 ->. destruct (Hreads u i c). set_solver.
Qed.

(** An access inside a critical section. *)
Lemma data_body n es s t j o pr c sh pr' sh' heap' m pieces pc' ev :
  control es s → data n es s m pieces → sk_threads s !! t = Some (SkBody j o pr) →
  sl_shards (sk_list s) !! j = Some sh → prog_step c pr sh (sk_heap s) = Some (pr', sh', heap') →
  match pr' with
  | PRet r => (SkDone j r, [SkEv (Applied t o r)])
  | _ => (SkBody j o pr', [])
  end = (pc', ev) →
  let fl := if alloc_failure c pr then [SkAllocFailed t] else [] in
  ∃ m' pieces', data (S n) (es ++ fl ++ ev)
    (mk_sk (set_shard (sk_list s) j sh') (sk_locks s) heap' (<[t := pc']> (sk_threads s))) m' pieces'.
Proof.
  intros I D Ht Hsh Hstep Hpc fl.
  destruct (dt_body _ _ _ _ _ D t j o pr Ht) as (Hrn & sh0 & hj & Hsh0 & Hj & Hw). rewrite Hsh in Hsh0. injection Hsh0 as <-.
  destruct (prog_step_answer _ _ _ _ _ Hstep) as [_ Hans].
  assert (Hfl : alloc_failure c pr = true → ∀ ev, failed (es ++ fl ++ ev)).
  { intros E ev0. exists t. unfold fl. rewrite E. set_solver. }
  assert (Hnext : ∃ hj', split heap' (<[j := hj']> pieces) ∧ (size hj' ≤ S (size hj))%nat ∧
    ∀ F : Prop, (failed (es ++ fl ++ ev) → F) → wp F (count_is sl0 j m) pr' (after_op mem sl0 F j m o) sh' hj').
  { destruct (split_step True (count_is sl0 j m) c pr (after_op mem sl0 True j m o) sh (sk_heap s) pieces j hj)
      as (pr1 & sh1 & h1 & hj' & E1 & E2 & _ & Hs & Hz); auto; [apply (dt_split _ _ _ _ _ D)|].
    rewrite Hstep in E1. simplify_eq. exists hj'. split; [done|]. split; [done|]. intros F HF.
    destruct (split_step F (count_is sl0 j m) c pr (after_op mem sl0 F j m o) sh (sk_heap s) pieces j hj)
      as (pr2 & sh2 & h2 & hj2 & E1 & E3 & Hw2 & _ & _); auto.
    - apply (dt_split _ _ _ _ _ D).
    - apply Hw. intros Hf. by apply HF, failed_app.
    - by simplify_eq. }
  destruct Hnext as (hj' & Hsplit & Hsize & Hw').
  assert (Hrd : ∀ u i x, SkCountRead u i x ∉ fl ++ ev).
  { intros u i x. unfold fl. destruct (alloc_failure c pr), pr'; simplify_eq; set_solver. }
  assert (Hflc : calls fl = []) by (unfold fl; by destruct (alloc_failure c pr)).
  assert (Hcase : (∃ r, pr' = PRet r ∧ pc' = SkDone j r ∧ ev = [SkEv (Applied t o r)]) ∨
    (running pr' ∧ pc' = SkBody j o pr' ∧ ev = [])) by (destruct pr'; simplify_eq; cbn; eauto).
  pose proof (map_run_mono mem _ _ _ _ _ _ (failed_app es (fl ++ ev)) (dt_run _ _ _ _ _ D)) as Hrun.
  pose proof (cn_pending _ _ I t) as Hp. unfold pc_at in Hp. rewrite Ht in Hp. destruct Hp as (_ & _ & Hrt & _).
  destruct Hcase as [(r & -> & -> & ->)|(Hrn' & -> & ->)].
  - destruct (Hw' _ id) as (m' & Hc & Hrep). exists m', (<[j := hj']> pieces).
    apply (data_works n es s t j o pr _ m m' pieces sh sh' hj hj'); auto.
    + intros i Hi. apply (call_spec_agree mem sl0 _ m o r m' i Hc). congruence.
    + rewrite applied_app, results_app, calls_app, Hflc. by apply (map_run_snoc mem _ o r m' _ m0 _ m).
  - exists m, (<[j := hj']> pieces). rewrite app_nil_r in *.
    apply (data_works n es s t j o pr _ m m pieces sh sh' hj hj'); auto; [done|].
    rewrite applied_app, results_app, Hflc, !app_nil_r. done.
Qed.

(** ** Every step *)

Definition sk_inv (n : nat) es s : Prop := control es s ∧ ∃ m pieces, data n es s m pieces.

(** Labels as callers issue them. *)
Definition sk_ok (l : sk_label) : Prop := match l with SkCall _ o => 0 ≤ op_len o | _ => True end.

Definition in_body (j : nat) (pc : sk_pc) : bool := match pc with SkBody i _ _ => bool_decide (i = j) | _ => false end.

(** A shard's count is the number of its entries, at every moment. *)
Lemma count_now n es s m pieces j sh :
  control es s → data n es s m pieces → sl_shards (sk_list s) !! j = Some sh → count_is sl0 j m sh.
Proof.
  intros I D Hsh. destruct (decide (Exists (λ pc, in_body j pc = true) (sk_threads s))) as [H|H].
  - apply Exists_exists in H as (pc & [t Ht]%list_elem_of_lookup & Hb). destruct pc as [|i o|i o pr|i r|i r|i tot]; try done.
    apply bool_decide_eq_true in Hb as ->. destruct (dt_body _ _ _ _ _ D t j o pr Ht) as (Hrn & sh' & h & Hsh' & _ & Hw).
    simplify_eq. exact (wp_meta _ _ _ _ _ _ (Hw _ id) Hrn).
  - destruct (lookup_lt_is_Some_2 pieces j) as [h Hh].
    { apply lookup_lt_Some in Hsh. destruct (cn_num _ _ I) as (_ & ? & _). destruct (dt_rest _ _ _ _ _ D). lia. }
    apply (shard_rep_count mem sl0 j sh h). apply (dt_quiet _ _ _ _ _ D j sh h Hsh Hh). intros t o pr Ht. apply H.
    apply Exists_exists. exists (SkBody j o pr). split; [by eapply list_elem_of_lookup_2|]. by apply bool_decide_eq_true.
Qed.

Lemma inv_moves n es s t pc pc' locks' ev :
  sk_inv n es s → sk_threads s !! t = Some pc →
  (∀ j o pr, pc ≠ SkBody j o pr) → (∀ j o pr, pc' ≠ SkBody j o pr) →
  locks_go s t pc pc' locks' → pending_ok pc' → Forall (event_by t) ev →
  run (status_step skip_reject t) (sk_status pc) (calls ev) = Some (sk_status pc') →
  run (count_step num t) (ct_status pc) ev = Some (ct_status pc') →
  applied (calls ev) = [] → results (calls ev) = [] →
  (∀ m es1 u i c es2, (∀ j sh, sl_shards (sk_list s) !! j = Some sh → count_is sl0 j m sh) →
     ev = es1 ++ SkCountRead u i c :: es2 → es1 = [] ∧ c = u64 (Z.of_nat (size (part sl0 i m)))) →
  sk_inv (S n) (es ++ ev) (mk_sk (sk_list s) locks' (sk_heap s) (<[t := pc']> (sk_threads s))).
Proof.
  intros [I (m & pieces & D)] Ht Hpc Hpc' Hl Hp Hev Hst Hct Ha Hr Hrd. destruct (cn_num _ _ I) as (E1 & E2 & _).
  split; [by apply (control_moves es s t pc)|]. exists m, pieces. apply (data_moves n es s t pc); auto.
  intros es1 u i c es2. apply Hrd. intros j sh. by apply (count_now n es s m pieces).
Qed.

(** The moves of a call through its shard's lock. *)
Lemma locks_call s t o locks' les :
  lock_at s (op_shard mem (sk_list s) o) (McLock t) = Some (locks', les) →
  locks_go s t SkIdle (SkLocking (op_shard mem (sk_list s) o) o) locks'.
Proof.
  intros Hl. right. eexists _, _, les. split; [exact Hl|]. split; [done|]. cbn. split.
  - intros q q' _ [_ ->]. by rewrite decide_True.
  - intros i q Hi ->. by rewrite decide_False by congruence.
Qed.

Lemma locks_advance s t j o locks' les pr :
  lock_at s j (McAdvance t) = Some (locks', les) →
  locks_go s t (SkLocking j o) (if granted t les then SkBody j o pr else SkLocking j o) locks'.
Proof.
  intros Hl. right. eexists _, _, les. split; [exact Hl|]. split; [done|]. split.
  - intros q q' Hq [[_ Hm]|[Hm _]]; cbn in Hq; rewrite decide_True in Hq by done.
    + destruct (granted t les); cbn; by rewrite decide_True.
    + by destruct q.
  - intros i q Hi Hq. cbn in Hq. rewrite decide_False in Hq by congruence. destruct (granted t les); cbn; by rewrite decide_False.
Qed.

Lemma locks_release s t j r locks' les :
  lock_at s j (McUnlock t) = Some (locks', les) → locks_go s t (SkDone j r) (SkUnlocking j r) locks'.
Proof.
  intros Hl. right. eexists _, _, les. split; [exact Hl|]. split; [done|]. cbn. split.
  - intros q q' _ [_ ->]. by rewrite decide_True.
  - intros i q Hi. by rewrite !decide_False.
Qed.

Lemma locks_leave s t j r locks' les :
  lock_at s j (McAdvance t) = Some (locks', les) →
  locks_go s t (SkUnlocking j r) (if released_by t les then SkIdle else SkUnlocking j r) locks'.
Proof.
  intros Hl. right. eexists _, _, les. split; [exact Hl|]. split; [done|]. split.
  - intros q q' Hq [[Hm _]|[_ Hm]]; cbn in Hq; rewrite decide_True in Hq by done.
    + by destruct q.
    + destruct (released_by t les); cbn; [done|by rewrite decide_True].
  - intros i q Hi Hq. cbn in Hq. rewrite decide_False in Hq by congruence.
    destruct (released_by t les); cbn; [done|by rewrite decide_False].
Qed.

(** The list has at least one shard, and its field says how many. *)
Hypothesis Hnum : num = Z.of_nat shard_n ∧ 1 ≤ num < 2 ^ 31.

Lemma op_shard_route es s o :
  control es s → op_shard mem (sk_list s) o = route sl0 (op_bytes mem o) ∧ (route sl0 (op_bytes mem o) < shard_n)%nat.
Proof.
  intros I. destruct (cn_num _ _ I) as (E & _). destruct Hnum as [Hn Hb].
  unfold op_shard, shard_of, route, skip_fnv1a, op_bytes. rewrite E.
  pose proof (Z.mod_pos_bound (fnv1a_loop (read_bytes mem (op_key o) (op_len o)) FNV_OFFSET) num ltac:(lia)).
  rewrite u32_small by (unfold is_u32; lia). split; [done|]. lia.
Qed.

Lemma no_reads (ev : list sk_event) m :
  (∀ u i c, SkCountRead u i c ∉ ev) → ∀ es1 u i c es2, ev = es1 ++ SkCountRead u i c :: es2 →
  es1 = [] ∧ c = u64 (Z.of_nat (size (part sl0 i m))).
Proof. intros H es1 u i c es2 ->. destruct (H u i c). set_solver. Qed.

Lemma inv_call n es s t o s' ev :
  0 ≤ op_len o → sk_inv n es s → sk_step mem rand_r fuel s (SkCall t o) = Some (s', ev) → sk_inv (S n) (es ++ ev) s'.
Proof.
  intros Hlen Inv Hs. pose proof Inv as [I _]. cbn [sk_step] in Hs.
  destruct (sk_threads s !! t) as [[]|] eqn:Ht; try done. destruct (skip_reject o) as [r|] eqn:Hr.
  - injection Hs as <- <-.
    assert (Es : mk_sk (sk_list s) (sk_locks s) (sk_heap s) (<[t := SkIdle]> (sk_threads s)) = s)
      by (rewrite (list_insert_id _ _ _ Ht); by destruct s).
    rewrite <-Es.
    apply (inv_moves n es s t SkIdle); try done.
    + by left.
    + by repeat constructor.
    + change (calls _) with [Called t o; Returned t r]. cbn [run status_step sk_status].
      rewrite decide_True by done. cbn [run status_step]. by rewrite !decide_True.
    + intros m es1 u i c es2 _. apply no_reads. set_solver.
  - destruct (lock_at s _ _) as [[locks les]|] eqn:Hl; [|done]. injection Hs as <- <-.
    destruct (op_shard_route es s o I) as [Eo Hj].
    apply (inv_moves n es s t SkIdle); try done.
    + by eapply locks_call.
    + cbn. by rewrite Eo.
    + by repeat constructor.
    + cbn. by rewrite decide_True.
    + intros m es1 u i c es2 _. apply no_reads. set_solver.
Qed.

Lemma inv_count n es s t s' ev :
  sk_inv n es s → sk_step mem rand_r fuel s (SkCount t) = Some (s', ev) → sk_inv (S n) (es ++ ev) s'.
Proof.
  intros Inv Hs. cbn [sk_step] in Hs. destruct (sk_threads s !! t) as [[]|] eqn:Ht; try done. injection Hs as <- <-.
  apply (inv_moves n es s t SkIdle); try done.
  - by left.
  - cbn. lia.
  - by repeat constructor.
  - cbn. by rewrite decide_True.
  - intros m es1 u i c es2 _. apply no_reads. set_solver.
Qed.

Lemma inv_go n es s t c s' ev :
  (sz0 + n < fuel)%nat → sk_inv n es s → sk_step mem rand_r fuel s (SkGo t c) = Some (s', ev) → sk_inv (S n) (es ++ ev) s'.
Proof.
  intros Hf Inv Hs. pose proof Inv as [I (m & pieces & D)]. cbn [sk_step] in Hs.
  destruct (sk_threads s !! t) as [pc|] eqn:Ht; [|done]. pose proof (cn_pending _ _ I t) as Hp.
  assert (Hat : pc_at s t = pc) by (unfold pc_at; by rewrite Ht). rewrite Hat in Hp.
  destruct pc as [|j o|j o pr|j r|j r|i total]; cbn [sk_go] in Hs; [done|..].
  - destruct (lock_at s j _) as [[locks les]|] eqn:Hl; [|done]. injection Hs as <- <-.
    pose proof (locks_advance s t j o locks les (skip_prog mem rand_r fuel o) Hl) as Hgo.
    destruct (granted t les) eqn:Hg.
    + assert (I' : control (es ++ []) (mk_sk (sk_list s) locks (sk_heap s)
        (<[t := SkBody j o (skip_prog mem rand_r fuel o)]> (sk_threads s)))).
      { destruct (cn_num _ _ I) as (? & ? & _). by apply (control_moves es s t (SkLocking j o)). }
      split; [done|]. exists m, pieces. rewrite app_nil_r in I' |- *. apply (data_enter n es s t j o); auto.
      intros u o' pr' Hu. assert (u = t) as ->; [|congruence]. pose proof (lookup_lt_Some _ _ _ Ht) as Hlt.
      assert (Hut : u ≠ t) by congruence.
      eapply (body_unique es _ u t j o' o pr' _ I'); cbn [sk_threads].
      * by rewrite list_lookup_insert_ne.
      * by rewrite list_lookup_insert_eq.
    + apply (inv_moves n es s t (SkLocking j o)); try done. intros m1 es1 u i x es2 _. apply no_reads. set_solver.
  - destruct (sl_shards (sk_list s) !! j) as [sh|] eqn:Hsh; [|done].
    destruct (prog_step c pr sh (sk_heap s)) as [[[pr' sh'] heap']|] eqn:Hstep; [|done].
    destruct (match pr' with PRet r => _ | _ => _ end) as [pc' ev'] eqn:Hpc. injection Hs as <- <-.
    split; [|by eapply data_body].
    assert (Hcase : (∃ r, pc' = SkDone j r ∧ ev' = [SkEv (Applied t o r)]) ∨ (∃ pr1, pc' = SkBody j o pr1 ∧ ev' = []))
      by (destruct pr'; simplify_eq; eauto).
    destruct (cn_num _ _ I) as (En & Es & _).
    apply (control_moves es s t (SkBody j o pr)); auto.
    + unfold set_shard. cbn. by rewrite length_insert.
    + left. split; [done|]. by destruct Hcase as [(r & -> & _)|(pr1 & -> & _)].
    + cbn in Hp |- *. destruct Hcase as [(r & -> & _)|(pr1 & -> & _)]; cbn; tauto.
    + apply Forall_app. split; [destruct (alloc_failure c pr); by repeat constructor|].
      destruct Hcase as [(r & _ & ->)|(pr1 & _ & ->)]; by repeat constructor.
    + destruct (alloc_failure c pr), Hcase as [(r & -> & ->)|(pr1 & -> & ->)]; cbn; try done; by rewrite !decide_True.
    + destruct (alloc_failure c pr), Hcase as [(r & -> & ->)|(pr1 & -> & ->)]; done.
  - destruct (lock_at s j _) as [[locks les]|] eqn:Hl; [|done]. injection Hs as <- <-.
    apply (inv_moves n es s t (SkDone j r)); try done; [by eapply locks_release|].
    intros m1 es1 u i x es2 _. apply no_reads. set_solver.
  - destruct (lock_at s j _) as [[locks les]|] eqn:Hl; [|done].
    pose proof (locks_leave s t j r locks les Hl) as Hgo.
    destruct (released_by t les) eqn:Hg; injection Hs as <- <-; apply (inv_moves n es s t (SkUnlocking j r)); try done.
    + by repeat constructor.
    + cbn. by rewrite !decide_True.
    + intros m1 es1 u i x es2 _. apply no_reads. set_solver.
    + intros m1 es1 u i x es2 _. apply no_reads. set_solver.
  - destruct (cn_num _ _ I) as (En & Es & _). rewrite En in Hs. destruct Hnum as [Hn _].
    destruct (Z.ltb_spec (Z.of_nat i) num) as [Hlt|Hge].
    + destruct (sl_shards (sk_list s) !! i) as [sh|] eqn:Hsh; [|done]. injection Hs as <- <-.
      apply (inv_moves n es s t (SkCounting i total)); try done.
      * by left.
      * cbn. lia.
      * by repeat constructor.
      * cbn. by rewrite !decide_True.
      * intros m1 es1 u i' x es2 Hc E. destruct es1 as [|e es1]; [|by destruct es1]. injection E as <- <- <- <-.
        split; [done|]. by apply Hc.
    + injection Hs as <- <-. apply (inv_moves n es s t (SkCounting i total)); try done.
      * by left.
      * by repeat constructor.
      * cbn in Hp. cbn. by rewrite !decide_True by (done || lia).
      * intros m1 es1 u i' x es2 _. apply no_reads. set_solver.
Qed.

Lemma inv_step n es s l s' ev :
  sk_ok l → (sz0 + n < fuel)%nat → sk_inv n es s → sk_step mem rand_r fuel s l = Some (s', ev) → sk_inv (S n) (es ++ ev) s'.
Proof. intros Hl Hf. destruct l; [by apply inv_call|by apply inv_count|by apply inv_go]. Qed.

(** ** Progress *)

Lemma lock_at_some es s j l lk f q :
  control es s → sk_locks s !! j = Some lk → mcs_rep lk f → pc_of lk (lock_thread l) = Some q →
  match l with McLock _ => q = McIdle | McUnlock _ => q = McHeld | McAdvance _ => locking q = true ∨ unlocking q = true end →
  is_Some (lock_at s j l).
Proof.
  intros I Hlk Hrep Hq Hl. unfold lock_at. rewrite Hlk.
  assert (is_Some (mcs_step lk l)) as [[lk' les] ->]; [|done]. destruct l as [t|t|t]; cbn [lock_thread] in Hq.
  2: by apply (lock_enabled lk f t q).
  all: unfold pc_of in Hq; apply fmap_Some in Hq as ([q0 nd] & Hq & E); cbn in E; subst; cbn [mcs_step]; by rewrite Hq.
Qed.

Lemma go_enabled n es s t pc c :
  sk_inv n es s → sk_threads s !! t = Some pc → pc ≠ SkIdle → (c = NULL ∨ sk_heap s !! c = None) →
  is_Some (sk_step mem rand_r fuel s (SkGo t c)).
Proof.
  intros [I (m & pieces & D)] Ht Hne Hc. cbn [sk_step]. rewrite Ht.
  pose proof (cn_pending _ _ I t) as Hp. unfold pc_at in Hp. rewrite Ht in Hp. cbn in Hp.
  destruct (cn_num _ _ I) as (En & Es & El).
  assert (Hat : ∀ j, (j < shard_n)%nat → ∃ lk f q, sk_locks s !! j = Some lk ∧ mcs_rep lk f ∧ pc_of lk t = Some q ∧ sk_phase j pc q).
  { intros j Hj. destruct (lookup_lt_is_Some_2 (sk_locks s) j) as [lk Hlk]; [lia|].
    destruct (cn_lock _ _ I j lk Hlk) as [f Hf]. destruct (cn_phase _ _ I j lk t pc Hlk Ht) as (q & ? & ?). eauto 10. }
  destruct pc as [|j o|j o pr|j r|j r|i total]; cbn [sk_go pending_ok] in *; [done|..].
  - destruct (Hat j) as (lk & f & q & Hlk & Hf & Hq & Hph); [tauto|]. cbn in Hph. rewrite decide_True in Hph by done.
    destruct (lock_at_some es s j (McAdvance t) lk f q I Hlk Hf Hq) as [[locks les] ->]; [by left|]. done.
  - destruct (dt_body _ _ _ _ _ D t j o pr Ht) as (Hrn & sh & h & -> & Hj & Hw).
    destruct (split_step True (count_is sl0 j m) c pr (after_op mem sl0 True j m o) sh (sk_heap s) pieces j h)
      as (pr1 & sh1 & h1 & hj' & -> & _); auto; [apply (dt_split _ _ _ _ _ D)|by destruct pr|].
    by destruct pr1.
  - destruct (Hat j) as (lk & f & q & Hlk & Hf & Hq & Hph); [done|]. cbn in Hph. rewrite decide_True in Hph by done.
    destruct (lock_at_some es s j (McUnlock t) lk f q I Hlk Hf Hq) as [[locks les] ->]; done.
  - destruct (Hat j) as (lk & f & q & Hlk & Hf & Hq & Hph); [done|]. cbn in Hph. rewrite decide_True in Hph by done.
    destruct (lock_at_some es s j (McAdvance t) lk f q I Hlk Hf Hq) as [[locks les] ->]; [by right|]. by destruct (released_by t les).
  - rewrite En. destruct (Z.ltb_spec (Z.of_nat i) num); [|done]. destruct Hnum.
    by destruct (lookup_lt_is_Some_2 (sl_shards (sk_list s)) i) as [sh ->]; [lia|].
Qed.

(** Two critical sections are about to access different nodes. *)
Lemma bodies_apart n es s t t' j j' o o' pr pr' p :
  sk_inv n es s → t ≠ t' → sk_threads s !! t = Some (SkBody j o pr) → sk_threads s !! t' = Some (SkBody j' o' pr') →
  j ≠ j' ∧ (access pr = Some p → access pr' ≠ Some p).
Proof.
  intros [I (m & pieces & D)] Hne Ht Ht'. assert (Hj : j ≠ j').
  { intros <-. by apply Hne, (body_unique es s t t' j o o' pr pr'). }
  split; [done|]. intros Ha Ha'.
  destruct (dt_body _ _ _ _ _ D t j o pr Ht) as (_ & sh & h & _ & Hh & Hw).
  destruct (dt_body _ _ _ _ _ D t' j' o' pr' Ht') as (_ & sh' & h' & _ & Hh' & Hw').
  destruct (wp_access _ _ _ _ _ _ p (Hw _ id) Ha) as [x Hx]. destruct (wp_access _ _ _ _ _ _ p (Hw' _ id) Ha') as [y Hy].
  by eapply map_disjoint_spec; [apply (pieces_apart _ _ (dt_split _ _ _ _ _ D) j j')|..].
Qed.
End system.

Arguments dt_split {_ _ _ _ _ _ _ _ _ _}.
Arguments dt_rest {_ _ _ _ _ _ _ _ _ _}.
Arguments dt_size {_ _ _ _ _ _ _ _ _ _}.
Arguments dt_quiet {_ _ _ _ _ _ _ _ _ _}.
Arguments dt_body {_ _ _ _ _ _ _ _ _ _}.
Arguments dt_run {_ _ _ _ _ _ _ _ _ _}.
Arguments dt_counts {_ _ _ _ _ _ _ _ _ _}.
Arguments cn_num {_ _ _ _}.
Arguments cn_lock {_ _ _ _}.
Arguments cn_phase {_ _ _ _}.
Arguments cn_pending {_ _ _ _}.
Arguments cn_calls {_ _ _ _}.
Arguments cn_counts {_ _ _ _}.
