(* ===== verification/SkipLocked.v ===== *)
(** * The skip list with many callers: what holds (src/structs/skip_list.c)

    The beginning and the end of the runs of [SkipConc], and the theorems: calls
    are linearizable to one finite map, a count adds up what its shards held, and
    no run touches memory it should not. *)

From stdpp Require Import prelude gmap sorting.
From Stdlib Require Import ZArith Lia.
From S2P Require Import Prelude Words Arena Ring Context FairLock McsLock HashTable RobinHood Locked SkipList SkipChain SkipMap HeapProg SkipProg SkipConc.
Local Open Scope Z_scope.
Local Open Scope word_scope.

(** ** The heap of a list, in pieces *)

Section pieces.
Context (mem : Z → Z).
Implicit Types (sl : nkit_skip_t) (h : skip_heap) (sh : nkit_skip_shard_t) (m : gmap (list Z) Z).

Definition piece h sh (o : list Z) : skip_heap := filter (λ kv, kv.1 ∈ sh_head sh :: o) h.
Definition outside sl h (orders : list (list Z)) : skip_heap := filter (λ kv, kv.1 ∉ all_nodes (sl_shards sl) orders) h.
Definition pieces_of sl h (orders : list (list Z)) : list skip_heap :=
  zip_with (piece h) (sl_shards sl) orders ++ [outside sl h orders].

Lemma piece_lookup h sh o p : piece h sh o !! p = if decide (p ∈ sh_head sh :: o) then h !! p else None.
Proof.
  unfold piece. case_decide as E.
  - destruct (h !! p) as [n|] eqn:Hp; [by apply map_lookup_filter_Some|]. apply map_lookup_filter_None. by left.
  - apply map_lookup_filter_None. right. by intros x _.
Qed.

Lemma outside_lookup sl h orders p :
  outside sl h orders !! p = if decide (p ∈ all_nodes (sl_shards sl) orders) then None else h !! p.
Proof.
  unfold outside. case_decide as E.
  - apply map_lookup_filter_None. right. intros x _ Hn. by apply Hn.
  - destruct (h !! p) as [n|] eqn:Hp; [by apply map_lookup_filter_Some|]. apply map_lookup_filter_None. by left.
Qed.

Lemma pieces_lookup sl h orders j hj :
  length orders = length (sl_shards sl) → pieces_of sl h orders !! j = Some hj →
  (∃ sh o, sl_shards sl !! j = Some sh ∧ orders !! j = Some o ∧ hj = piece h sh o) ∨
  (j = length (sl_shards sl) ∧ hj = outside sl h orders).
Proof.
  intros Hl. unfold pieces_of. rewrite lookup_app_Some. intros [Hj|[Hj Ho]].
  - apply lookup_zip_with_Some in Hj as (sh & o & -> & ? & ?). left. eauto.
  - rewrite length_zip_with, Hl, Nat.min_id in Ho, Hj. apply list_lookup_singleton_Some in Ho as [? <-]. right. split; [lia|done].
Qed.

Lemma pieces_split sl h orders : skip_ok mem sl h orders → split h (pieces_of sl h orders).
Proof.
  intros H. pose proof (sp_len _ _ _ _ H) as Hl. split.
  - intros p n. split.
    + intros Hp. destruct (decide (p ∈ all_nodes (sl_shards sl) orders)) as [Hin|Hout].
      * apply (elem_of_all_nodes mem sl h orders p H) in Hin as (j & sh & o & Hsh & Ho & Hin).
        exists j, (piece h sh o). split; [|by rewrite piece_lookup, decide_True].
        apply lookup_app_l_Some, lookup_zip_with_Some. eauto 10.
      * exists (length (sl_shards sl)), (outside sl h orders). split; [|by rewrite outside_lookup, decide_False].
        unfold pieces_of. rewrite lookup_app_r by (rewrite length_zip_with; lia).
        by rewrite length_zip_with, Hl, Nat.min_id, Nat.sub_diag.
    + intros (j & hj & Hj & Hp). destruct (pieces_lookup sl h orders j hj Hl Hj) as [(sh & o & _ & _ & ->)|[_ ->]].
      * rewrite piece_lookup in Hp. by case_decide.
      * rewrite outside_lookup in Hp. by case_decide.
  - intros i j hi hj Hi Hj Hne. apply map_disjoint_spec. intros p x y Hx Hy.
    destruct (pieces_lookup sl h orders i hi Hl Hi) as [(sh & o & Hs & Ho & ->)|[-> ->]],
             (pieces_lookup sl h orders j hj Hl Hj) as [(sh' & o' & Hs' & Ho' & ->)|[-> ->]]; [..|done].
    all: rewrite ?piece_lookup, ?outside_lookup in Hx; rewrite ?piece_lookup, ?outside_lookup in Hy; repeat case_decide; try done.
    + by apply (sp_apart _ _ _ _ H i j sh sh' o o' Hs Ho Hs' Ho' Hne p).
    + match goal with Hn : p ∉ _ |- _ => apply Hn end. apply (elem_of_all_nodes mem sl h orders p H). by exists i, sh, o.
    + match goal with Hn : p ∉ _ |- _ => apply Hn end. apply (elem_of_all_nodes mem sl h orders p H). by exists j, sh', o'.
Qed.

(** A shard sees only its own piece. *)
Lemma shard_frame h h' sh o :
  (∀ p, p ∈ sh_head sh :: o → h' !! p = h !! p) → shard_ok mem h sh o →
  shard_ok mem h' sh o ∧ ∀ k v, has mem h' o k v ↔ has mem h o k v.
Proof.
  intros E Hok. split.
  - apply (shard_ok_shape mem h); [|done]. intros p Hp. by rewrite E.
  - intros k v. apply has_same_core. intros p Hp. unfold same_core. by rewrite E by by right.
Qed.

Lemma piece_rep sl h orders m j sh o :
  skip_ok mem sl h orders → skip_abs mem h orders m → sl_shards sl !! j = Some sh → orders !! j = Some o →
  shard_rep mem sl j sh (piece h sh o) m.
Proof.
  intros H Ha Hsh Ho. pose proof (sp_shards _ _ _ _ H j sh o Hsh Ho) as Hok.
  assert (E : ∀ p, p ∈ sh_head sh :: o → piece h sh o !! p = h !! p) by (intros p Hp; by rewrite piece_lookup, decide_True).
  destruct (shard_frame h (piece h sh o) sh o E Hok) as [Hok' Hhas]. exists o. split; [done|]. split.
  - intros p. rewrite piece_lookup. case_decide as Hp; [|split; [by intros [? ?]|done]].
    split; [done|]. intros _. by apply (in_heap mem h sh o).
  - intros k v. rewrite Hhas. split.
    + intros Hh. split; [by apply (sp_route _ _ _ _ H j o k v)|]. apply Ha. eauto.
    + intros [<- Hm]. by apply (abs_route mem sl h orders m k v o H Ha Ho).
Qed.

Lemma sk_start_inv sl h orders m nodes :
  skip_ok mem sl h orders → skip_abs mem h orders m →
  sk_inv mem sl m (outside sl h orders) (size h) 0 [] (sk_start sl h nodes).
Proof.
  intros H Ha. pose proof (sp_len _ _ _ _ H) as Hl.
  assert (Hidle : ∀ t, pc_at (sk_start sl h nodes) t = SkIdle).
  { intros t. unfold pc_at, sk_start. cbn. destruct (replicate _ _ !! t) as [pc|] eqn:E; [|done].
    by apply lookup_replicate in E as [-> _]. }
  split.
  - split; try (intros t; by rewrite Hidle).
    + cbn. by rewrite length_replicate.
    + intros j lk [-> _]%lookup_replicate. eexists. apply mcs_start_rep.
    + intros j lk t pc [-> _]%lookup_replicate [-> Hlt]%lookup_replicate. exists McIdle. split; [|done].
      unfold pc_of. cbn. rewrite list_lookup_fmap. by destruct (lookup_lt_is_Some_2 nodes t Hlt) as [nd ->].
  - exists m, (pieces_of sl h orders). split; cbn [sk_start sk_heap sk_list sk_threads].
    + by apply pieces_split.
    + unfold pieces_of. rewrite length_app, length_zip_with. cbn. split; [lia|].
      rewrite lookup_app_r by (rewrite length_zip_with; lia). by rewrite length_zip_with, Hl, Nat.min_id, Nat.sub_diag.
    + intros j hj Hj. rewrite Nat.add_0_r. apply map_subseteq_size.
      destruct (pieces_lookup sl h orders j hj Hl Hj) as [(sh & o & _ & _ & ->)|[_ ->]]; apply map_filter_subseteq.
    + intros j sh hj Hsh Hj _. destruct (pieces_lookup sl h orders j hj Hl Hj) as [(sh' & o & Hsh' & Ho & ->)|[-> _]].
      * simplify_eq. by apply (piece_rep sl h orders).
      * apply lookup_lt_Some in Hsh. lia.
    + by intros t j o pr [? _]%lookup_replicate.
    + done.
    + intros es1 t i c es2 E. by destruct es1.
Qed.

(** ** The list when no thread is in a critical section *)

Lemma choose_list {A} (P : nat → A → Prop) n :
  (∀ j, (j < n)%nat → ∃ x, P j x) → ∃ l, length l = n ∧ ∀ j x, l !! j = Some x → P j x.
Proof.
  induction n as [|n IH]; intros H; [by exists []|]. destruct IH as (l & Hl & HP); [intros j Hj; apply H; lia|].
  destruct (H n) as [x Hx]; [lia|]. exists (l ++ [x]). rewrite length_app. cbn. split; [lia|]. intros j y.
  rewrite lookup_app_Some. intros [Hj|[Hj Hy]]; [auto|]. apply list_lookup_singleton_Some in Hy as [E <-].
  by replace j with n by lia.
Qed.

Lemma sk_at_rest sl0 m0 rest sz n es s m pieces h0 :
  control mem sl0 es s → data mem sl0 m0 rest sz n es s m pieces →
  sl_num_shards sl0 = Z.of_nat (length (sl_shards sl0)) → 1 ≤ sl_num_shards sl0 < 2 ^ 31 → rest = h0 →
  (∀ t j o pr, sk_threads s !! t ≠ Some (SkBody j o pr)) →
  ∃ orders, skip_ok mem (sk_list s) (sk_heap s) orders ∧ skip_abs mem (sk_heap s) orders m ∧
    owns h0 (sk_list s) (sk_heap s) orders.
Proof.
  intros I D Hn1 Hn2 <- Hno. destruct (cn_num I) as (En & Es & _). destruct (dt_rest D) as [Hpl Hpr].
  pose proof (dt_split D) as Hsp.
  destruct (choose_list (λ j o, ∃ sh h, sl_shards (sk_list s) !! j = Some sh ∧ pieces !! j = Some h ∧
    shard_ok mem h sh o ∧ (∀ p, is_Some (h !! p) ↔ p ∈ sh_head sh :: o) ∧
    ∀ k v, has mem h o k v ↔ route sl0 k = j ∧ m !! k = Some v) (length (sl_shards sl0))) as (orders & Hol & Hor).
  { intros j Hj. destruct (lookup_lt_is_Some_2 (sl_shards (sk_list s)) j) as [sh Hsh]; [lia|].
    destruct (lookup_lt_is_Some_2 pieces j) as [h Hh]; [lia|].
    destruct (dt_quiet D j sh h Hsh Hh) as (o & ? & ? & ?); [by intros t; apply Hno|].
    exists o, sh, h. eauto. }
  assert (Hroute : ∀ k, route (sk_list s) k = route sl0 k) by (intros k; unfold route; by rewrite En).
  (* The same facts on the whole heap. *)
  assert (Hwhole : ∀ j sh o, sl_shards (sk_list s) !! j = Some sh → orders !! j = Some o →
    shard_ok mem (sk_heap s) sh o ∧ (∀ k v, has mem (sk_heap s) o k v ↔ route sl0 k = j ∧ m !! k = Some v) ∧
    ∃ h, pieces !! j = Some h ∧ ∀ p, is_Some (h !! p) ↔ p ∈ sh_head sh :: o).
  { intros j sh o Hsh Ho. destruct (Hor j o Ho) as (sh' & h & Hsh' & Hh & Hok & Hdom & Hhas). simplify_eq.
    destruct (shard_frame h (sk_heap s) sh o) as [Hok' Hhas']; [|done|].
    - intros p Hp. apply Hdom in Hp as [n0 Hn0]. rewrite Hn0. by apply (split_lookup _ pieces j h).
    - split; [done|]. split; [|by exists h]. intros k v. by rewrite Hhas'. }
  exists orders. split; [|split].
  - split.
    + rewrite En, Es. split; lia.
    + lia.
    + intros j sh o Hsh Ho. by destruct (Hwhole j sh o Hsh Ho).
    + intros j o k v Ho Hh. rewrite Hroute. destruct (lookup_lt_is_Some_2 (sl_shards (sk_list s)) j) as [sh Hsh];
        [apply lookup_lt_Some in Ho; lia|]. destruct (Hwhole j sh o Hsh Ho) as (_ & Hhas & _). by apply Hhas in Hh as [? _].
    + intros j j' sh sh' o o' Hsh Ho Hsh' Ho' Hne p Hp Hp'.
      destruct (Hwhole j sh o Hsh Ho) as (_ & _ & h & Hh & Hd). destruct (Hwhole j' sh' o' Hsh' Ho') as (_ & _ & h' & Hh' & Hd').
      destruct (proj2 (Hd p) Hp) as [x Hx]. destruct (proj2 (Hd' p) Hp') as [y Hy].
      by eapply map_disjoint_spec; [apply (pieces_apart _ _ Hsp j j')|..].
  - intros k v. split.
    + intros Hm. assert (Hj : (route sl0 k < length (sl_shards sl0))%nat).
      { unfold route. pose proof (Z.mod_pos_bound (fnv1a_loop k FNV_OFFSET) (sl_num_shards sl0) ltac:(lia)). lia. }
      destruct (lookup_lt_is_Some_2 orders (route sl0 k)) as [o Ho]; [lia|].
      destruct (lookup_lt_is_Some_2 (sl_shards (sk_list s)) (route sl0 k)) as [sh Hsh]; [lia|].
      exists (route sl0 k), o. split; [done|]. destruct (Hwhole _ sh o Hsh Ho) as (_ & Hhas & _). by apply Hhas.
    + intros (j & o & Ho & Hh). destruct (lookup_lt_is_Some_2 (sl_shards (sk_list s)) j) as [sh Hsh];
        [apply lookup_lt_Some in Ho; lia|]. destruct (Hwhole j sh o Hsh Ho) as (_ & Hhas & _). by apply Hhas in Hh as [_ ?].
  - intros p. split.
    + intros (j & sh & o & Hsh & Ho & Hp). destruct (Hwhole j sh o Hsh Ho) as (_ & _ & h & Hh & Hd). destruct (proj2 (Hd p) Hp) as [x Hx].
      eapply map_disjoint_Some_l; [|exact Hx]. apply (pieces_apart _ _ Hsp j (length (sl_shards sl0))); [done|done|].
      apply lookup_lt_Some in Ho. lia.
    + intros Hout. apply option_eq. intros x. rewrite (pieces_all _ _ Hsp). split.
      * intros (j & h & Hj & Hx). destruct (decide (j = length (sl_shards sl0))) as [->|Hne]; [by simplify_eq|]. exfalso.
        apply Hout. pose proof (lookup_lt_Some _ _ _ Hj). destruct (lookup_lt_is_Some_2 orders j) as [o Ho]; [lia|].
        destruct (lookup_lt_is_Some_2 (sl_shards (sk_list s)) j) as [sh Hsh]; [lia|]. exists j, sh, o.
        destruct (Hwhole j sh o Hsh Ho) as (_ & _ & h' & Hh' & Hd). simplify_eq. split_and!; [done|done|]. by apply Hd.
      * intros Hx. eauto.
Qed.
End pieces.

(** ** Every run *)

Lemma sk_run mem rand_r fuel sl h orders m nodes sched s es :
  skip_ok mem sl h orders → skip_abs mem h orders m → (size h + length sched < fuel)%nat → Forall sk_ok sched →
  traced (sk_step mem rand_r fuel) (sk_start sl h nodes) sched = Some (s, es) →
  sk_inv mem sl m (outside sl h orders) (size h) (length sched) es s.
Proof.
  intros H Ha Hf Hok Hr.
  assert (Hinv : (size h + length sched ≤ fuel)%nat → sk_inv mem sl m (outside sl h orders) (size h) (length sched) es s).
  { refine (traced_invariant_on (sk_step mem rand_r fuel) sk_ok
      (λ n es s, (size h + n ≤ fuel)%nat → sk_inv mem sl m (outside sl h orders) (size h) n es s) _ _ _ sched s es Hok Hr).
    - intros _. by apply (sk_start_inv mem).
    - intros n es0 s0 l s1 es1 Hl I Hs Hn. destruct (sp_num _ _ _ _ H).
      eapply (inv_step mem rand_r fuel); [by split|done| |apply I; lia|done]. lia. }
  apply Hinv. lia.
Qed.

(** ** Refused puts *)

Definition is_put (o : skip_op) : Prop := match o with SkPut _ _ _ => True | _ => False end.

Lemma put_only_fails mem rand_r fuel o : is_put o → only_fails (-1) (skip_prog mem rand_r fuel o).
Proof.
  destruct o as [key len v| |]; [intros _|done..]. unfold skip_prog, put_prog.
  apply only_fails_bind. intros r. apply only_fails_bind. intros [|]; [done|].
  cbn [only_fails]. intros shard. destruct (random_level rand_r shard) as [level seed]. cbn [only_fails]. split; [done|].
  intros c Hc. destruct (Z.eqb_spec c NULL); [done|]. apply only_fails_bind. done.
Qed.

(** A put that is refused has just seen its own allocation fail. *)
Definition refusals_own (es : list sk_event) : Prop := ∀ es1 t o es2, is_put o →
  es = es1 ++ SkEv (Applied t o (-1)) :: es2 → ∃ es0, es1 = es0 ++ [SkAllocFailed t].

Definition refusal_inv (es : list sk_event) (s : sk_state) : Prop := refusals_own es ∧
  ∀ t j o pr, sk_threads s !! t = Some (SkBody j o pr) → is_put o → only_fails (-1) pr.

Lemma refusals_app es ev : refusals_own es → refusals_own ev → refusals_own (es ++ ev).
Proof.
  intros H1 H2 es1 t o es2 Ho E. apply app_eq_app in E as [l [[-> E]|[-> ->]]].
  - destruct l as [|e l]; cbn [app] in E.
    + destruct (H2 [] t o es2 Ho) as [[|? ?] ?]; done.
    + injection E as <- ->. by apply (H1 es1 t o l).
  - destruct (H2 l t o es2 Ho eq_refl) as [es0 ->]. exists (es ++ es0). by rewrite app_assoc.
Qed.

(** Events without results of operations. *)
Lemma refusals_none ev : (∀ t o r, SkEv (Applied t o r) ∉ ev) → refusals_own ev.
Proof. intros H es1 t o es2 _ ->. destruct (H t o (-1)). set_solver. Qed.

Lemma refusal_moves es s t pc sl locks heap ev :
  refusal_inv es s → refusals_own ev →
  (∀ j o pr, pc = SkBody j o pr → is_put o → only_fails (-1) pr) →
  refusal_inv (es ++ ev) (mk_sk sl locks heap (<[t := pc]> (sk_threads s))).
Proof.
  intros [H1 H2] Hev Hpc. split; [by apply refusals_app|]. cbn [sk_threads]. intros u j o pr Hu Ho.
  apply list_lookup_insert_Some in Hu as [(<- & -> & _)|(_ & Hu)]; eauto.
Qed.

Lemma refusal_body mem rand_r fuel es s t j o pr c s' ev :
  refusal_inv es s → sk_threads s !! t = Some (SkBody j o pr) →
  sk_go mem rand_r fuel s t (SkBody j o pr) c = Some (s', ev) → refusal_inv (es ++ ev) s'.
Proof.
  intros I Ht Hs. cbn [sk_go] in Hs. destruct (sl_shards (sk_list s) !! j) as [sh|]; [|done].
  destruct (prog_step c pr sh (sk_heap s)) as [[[pr' sh'] heap]|] eqn:E; [|done].
  pose proof (λ Ho, only_fails_step _ _ _ _ _ _ _ _ (proj2 I t j o pr Ht Ho) E) as Hpr.
  destruct pr' as [r| |k|f k|p k|p f k|n k|p k]; injection Hs as <- <-.
  1:{ apply refusal_moves; [done| |done]. intros es1 u o' es2 Ho' Ee. destruct (alloc_failure c pr) eqn:Ef; cbn [app] in Ee.
    - destruct es1 as [|e [|e' es1]]; [done| |by destruct es1]. cbn [app] in Ee. simplify_eq. by exists [].
    - destruct es1 as [|e es1]; [|by destruct es1]. cbn [app] in Ee. simplify_eq.
      destruct (Hpr Ho') as [_ H]. discriminate (H eq_refl). }
  all: apply refusal_moves; [done|apply refusals_none; destruct (alloc_failure c pr); set_solver|].
  all: intros j1 o1 pr1 [= <- <- <-] Ho; by apply (Hpr Ho).
Qed.

Lemma refusal_step mem rand_r fuel es s l s' ev :
  refusal_inv es s → sk_step mem rand_r fuel s l = Some (s', ev) → refusal_inv (es ++ ev) s'.
Proof.
  intros I Hs. destruct l as [t o|t|t c]; cbn [sk_step] in Hs.
  3:{ destruct (sk_threads s !! t) as [pc|] eqn:Ht; [|done].
    destruct pc as [|j o|j o pr|j r|j r|i total]; [done| |by eapply refusal_body| | |]; cbn [sk_go] in Hs;
      repeat case_match; simplify_eq; apply refusal_moves; try done; try (apply refusals_none; set_solver).
    intros j1 o1 pr1 [= <- <- <-]. apply put_only_fails. }
  all: repeat case_match; simplify_eq; try (apply refusal_moves; [done|apply refusals_none; set_solver|done]).
  split; [|apply I]. apply refusals_app; [apply I|apply refusals_none; set_solver].
Qed.

Lemma refusal_run mem rand_r fuel sl h nodes sched s es :
  traced (sk_step mem rand_r fuel) (sk_start sl h nodes) sched = Some (s, es) → refusals_own es.
Proof.
  intros Hr. apply (traced_invariant (sk_step mem rand_r fuel) (λ _ es s, refusal_inv es s)) in Hr; [apply Hr| |].
  - split; [by intros [] |]. intros t j o pr Ht. apply lookup_replicate in Ht as [? _]. done.
  - intros _ es0 s0 l s1 es1. apply refusal_step.
Qed.

(** What was outside the list's nodes is what the list did not own. *)
Lemma outside_owned mem sl h orders h0 :
  skip_ok mem sl h orders → owns h0 sl h orders → outside sl h orders = h0.
Proof.
  intros H Ho. apply map_eq. intros p. rewrite outside_lookup. destruct (Ho p) as [Hin Hout].
  case_decide as E; rewrite (elem_of_all_nodes mem sl h orders p H) in E; [symmetry|]; auto.
Qed.

(** ** Properties *)

(** C5. The skip list is linearizable.  Any number of threads call put, get and
    remove, in any interleaving of the accesses to the shards' locks, to the
    shards' records and to the nodes, on a well-formed list, with any random levels
    and an allocator that answers with a fresh address or NULL.  The calls take
    effect one after another on one finite map from key bytes to values: each at
    one moment between its beginning and its end, with the result the map gives at
    that moment; only a put may also be refused, and then its own allocation has just
    failed.  Whenever no thread is in a critical section the list is well-formed and represents that
    map, and destroying it gives back the heap from before the list was made. *)
Theorem skip_linearizable mem rand_r fuel sl h orders m nodes sched s es :
  skip_ok mem sl h orders → skip_abs mem h orders m → (size h + length sched < fuel)%nat → Forall sk_ok sched →
  traced (sk_step mem rand_r fuel) (sk_start sl h nodes) sched = Some (s, es) →
  (∀ t, is_Some (call_history skip_reject t (calls es))) ∧ refusals_own es ∧
  ∃ m', map_run mem (failed es) m (applied (calls es)) (results (calls es)) m' ∧
    ((∀ t j o pr, sk_threads s !! t ≠ Some (SkBody j o pr)) →
     (∃ orders', skip_ok mem (sk_list s) (sk_heap s) orders' ∧ skip_abs mem (sk_heap s) orders' m') ∧
     ∀ h0, owns h0 sl h orders → nkit_skip_destroy (Some (sk_list s)) (sk_heap s) = Some h0).
Proof.
  intros H Ha Hf Hok Hr. destruct (sk_run _ _ _ _ _ _ _ _ _ _ _ H Ha Hf Hok Hr) as [I (m' & pieces & D)].
  split; [intros t; rewrite (cn_calls I t); done|].
  split; [by eapply refusal_run|]. exists m'. split; [apply (dt_run D)|].
  intros Hno. destruct (sp_num _ _ _ _ H) as [Hn1 Hn2].
  pose proof (λ h0 E, sk_at_rest mem _ _ _ _ _ _ _ _ _ h0 I D Hn1 Hn2 E Hno) as Hrest. split.
  - destruct (Hrest _ eq_refl) as (orders' & ? & ? & _). eauto.
  - intros h0 Ho. destruct (Hrest h0) as (orders' & Hok' & _ & Ho'); [by apply (outside_owned mem)|].
    by apply (skip_destroy_ok mem h0 (sk_list s) (sk_heap s) orders').
Qed.

(** C26. A count among running operations.  [nkit_skip_count] takes no lock; every
    count reads each shard once, in order, and returns the sum modulo 2^64, and
    every number it reads is the number of entries that shard had in the map at
    the moment of the read, even while another thread is changing the shard. *)
Theorem skip_count_snapshots mem rand_r fuel sl h orders m nodes sched s es :
  skip_ok mem sl h orders → skip_abs mem h orders m → (size h + length sched < fuel)%nat → Forall sk_ok sched →
  traced (sk_step mem rand_r fuel) (sk_start sl h nodes) sched = Some (s, es) →
  (∀ t, is_Some (count_history (sl_num_shards sl) t es)) ∧
  ∀ es1 t i c es2, es = es1 ++ SkCountRead t i c :: es2 →
    ∃ m1, map_run mem (failed es1) m (applied (calls es1)) (results (calls es1)) m1 ∧
      c = u64 (Z.of_nat (size (part sl i m1))).
Proof.
  intros H Ha Hf Hok Hr. destruct (sk_run _ _ _ _ _ _ _ _ _ _ _ H Ha Hf Hok Hr) as [I (m' & pieces & D)].
  split; [|apply (dt_counts D)]. intros t. by rewrite (cn_counts I t).
Qed.

(** C25. No thread goes wrong, whatever the others do: every access inside a call is
    to memory that is allocated and inside the node's tower, so a thread inside a
    call always has a next step (an allocation may answer NULL or any address not
    in use), and two threads in critical sections are in different shards and
    about to access different nodes. *)
Theorem skip_conc_safe mem rand_r fuel sl h orders m nodes sched s es :
  skip_ok mem sl h orders → skip_abs mem h orders m → (size h + length sched < fuel)%nat → Forall sk_ok sched →
  traced (sk_step mem rand_r fuel) (sk_start sl h nodes) sched = Some (s, es) →
  (∀ t pc c, sk_threads s !! t = Some pc → pc ≠ SkIdle → (c = NULL ∨ sk_heap s !! c = None) →
     is_Some (sk_step mem rand_r fuel s (SkGo t c))) ∧
  ∀ t t' j j' o o' pr pr' p, t ≠ t' → sk_threads s !! t = Some (SkBody j o pr) →
    sk_threads s !! t' = Some (SkBody j' o' pr') → j ≠ j' ∧ (access pr = Some p → access pr' ≠ Some p).
Proof.
  intros H Ha Hf Hok Hr. pose proof (sk_run _ _ _ _ _ _ _ _ _ _ _ H Ha Hf Hok Hr) as Inv.
  destruct (sp_num _ _ _ _ H). split.
  - intros t pc c. apply (go_enabled mem rand_r fuel sl m (outside sl h orders) (size h)) with (n := length sched) (es := es); [by split|done].
  - intros t t' j j' o o' pr pr' p. by apply (bodies_apart mem sl m (outside sl h orders) (size h) (length sched) es).
Qed.

(** ** A concrete run *)

(** Two shards; thread 0 puts in shard 1 while thread 1 puts in shard 0, access by
    access; thread 2 counts, then queues behind thread 0 with a put whose
    allocation fails. *)
Definition demo_created := nkit_skip_create demo_alloc 0 1 true true 4 ∅.
Definition demo_list : nkit_skip_t := default (mk_skip 0 0 []) demo_created.1.
Definition demo_heap : skip_heap := demo_created.2.
Definition demo_three : list nkit_mcs_node_t := [mk_node None 0; mk_node (Some 7%nat) 3; mk_node None 0].

Definition demo_turns : list sk_label :=
  [SkCall 0 (SkPut 70 1 7); SkCall 1 (SkPut 65 1 9)] ++ concat (replicate 12 [SkGo 0 1000; SkGo 1 2000]).
Definition demo_sk_sched : list sk_label :=
  demo_turns ++ concat (replicate 8 [SkGo 0 1000; SkGo 1 2000]) ++
  [SkCount 2; SkGo 2 0; SkGo 2 0; SkGo 2 0; SkCall 2 (SkPut 66 1 5)] ++
  replicate 9 (SkGo 0 1000) ++ replicate 21 (SkGo 2 NULL).

Lemma demo_list_ok : ∃ orders, skip_ok demo_bytes demo_list demo_heap orders ∧
  skip_abs demo_bytes demo_heap orders ∅ ∧ owns ∅ demo_list demo_heap orders.
Proof.
  pose proof (skip_create_ok demo_bytes demo_alloc demo_alloc_fresh 0 1 true true 4 ∅ ltac:(lia) ltac:(lia)) as Hc.
  assert (E : demo_created = (Some demo_list, demo_heap)) by (vm_compute; reflexivity).
  unfold demo_created in E. by rewrite E in Hc.
Qed.

Lemma demo_sk_ok : Forall sk_ok demo_sk_sched ∧ Forall sk_ok demo_turns.
Proof. split; repeat (apply Forall_cons; split; [first [exact I|cbn; lia]|]); done. Qed.

Lemma skip_linearizable_witness :
  match traced (sk_step demo_bytes demo_rand 200) (sk_start demo_list demo_heap demo_three) demo_sk_sched with
  | Some (s, es) => results (calls es) = [0; 0; -1] ∧
      (∃ m', map_run demo_bytes (failed es) ∅ (applied (calls es)) (results (calls es)) m') ∧
      nkit_skip_destroy (Some (sk_list s)) (sk_heap s) = Some ∅
  | None => False
  end.
Proof.
  destruct demo_list_ok as (orders & H & Ha & Ho).
  assert (Hf : (size demo_heap + length demo_sk_sched < 200)%nat) by (apply Nat.ltb_lt; vm_compute; reflexivity).
  destruct (traced _ _ demo_sk_sched) as [[s es]|] eqn:E; [|by vm_compute in E].
  destruct (skip_linearizable demo_bytes demo_rand 200 demo_list demo_heap orders ∅ demo_three demo_sk_sched s es
    H Ha Hf (proj1 demo_sk_ok) E) as (_ & _ & m' & Hrun & Hrest).
  assert (Es : (λ x, (results (calls (snd x)), map (λ pc, match pc with SkBody _ _ _ => false | _ => true end) (sk_threads (fst x)))) <$>
    traced (sk_step demo_bytes demo_rand 200) (sk_start demo_list demo_heap demo_three) demo_sk_sched =
    Some ([0; 0; -1], [true; true; true])) by (vm_compute; reflexivity).
  rewrite E in Es. cbn [fmap option_fmap option_map fst snd] in Es. clear E. injection Es as Hres Hbody.
  split; [done|]. split; [by exists m'|]. apply Hrest; [|done].
  intros t j o pr Ht. assert (Hb : map (λ pc, match pc with SkBody _ _ _ => false | _ => true end) (sk_threads s) !! t = Some false)
    by (change (map ?f ?l) with (f <$> l); by rewrite list_lookup_fmap, Ht).
  rewrite Hbody in Hb. by destruct t as [|[|[|]]].
Defined.

Lemma skip_count_snapshots_witness :
  match traced (sk_step demo_bytes demo_rand 200) (sk_start demo_list demo_heap demo_three) demo_sk_sched with
  | Some (s, es) => SkCountReturned 2 1 ∈ es ∧
      ∃ es1 m1, map_run demo_bytes (failed es1) ∅ (applied (calls es1)) (results (calls es1)) m1 ∧
        applied (calls es1) = [SkPut 65 1 9] ∧ 1 = u64 (Z.of_nat (size (part demo_list 0 m1)))
  | None => False
  end.
Proof.
  destruct demo_list_ok as (orders & H & Ha & Ho).
  assert (Hf : (size demo_heap + length demo_sk_sched < 200)%nat) by (apply Nat.ltb_lt; vm_compute; reflexivity).
  destruct (traced _ _ demo_sk_sched) as [[s es]|] eqn:E; [|by vm_compute in E].
  destruct (skip_count_snapshots demo_bytes demo_rand 200 demo_list demo_heap orders ∅ demo_three demo_sk_sched s es
    H Ha Hf (proj1 demo_sk_ok) E) as (_ & Hc).
  assert (Es : snd <$> traced (sk_step demo_bytes demo_rand 200) (sk_start demo_list demo_heap demo_three) demo_sk_sched =
    Some es) by (rewrite E; reflexivity).
  clear E. vm_compute in Es. injection Es as <-. split; [set_solver|].
  eexists (_ :: _ :: _ :: _ :: _ :: []). destruct (Hc (_ :: _ :: _ :: _ :: _ :: []) 2%nat 0%nat 1 _ eq_refl) as (m1 & Hm & Hs).
  exists m1. split; [exact Hm|]. split; [done|exact Hs].
Defined.

(** In the middle of the two puts. *)
Lemma skip_conc_safe_witness :
  match traced (sk_step demo_bytes demo_rand 200) (sk_start demo_list demo_heap demo_three) demo_turns with
  | Some (s, es) => is_Some (sk_step demo_bytes demo_rand 200 s (SkGo 0 1000)) ∧
      (∃ o pr o' pr', sk_threads s !! 0%nat = Some (SkBody 1 o pr) ∧ sk_threads s !! 1%nat = Some (SkBody 0 o' pr') ∧
         (∀ p, access pr = Some p → access pr' ≠ Some p))
  | None => False
  end.
Proof.
  destruct demo_list_ok as (orders & H & Ha & Ho).
  assert (Hf : (size demo_heap + length demo_turns < 200)%nat) by (apply Nat.ltb_lt; vm_compute; reflexivity).
  assert (Es : (λ x, (map (λ pc, match pc with SkBody j _ _ => j | _ => 9%nat end) (sk_threads (fst x)),
      sk_heap (fst x) !! 1000)) <$>
    traced (sk_step demo_bytes demo_rand 200) (sk_start demo_list demo_heap demo_three) demo_turns =
    Some ([1; 0; 9]%nat, None)) by (vm_compute; reflexivity).
  destruct (traced _ _ demo_turns) as [[s es]|] eqn:E; [|discriminate Es].
  destruct (skip_conc_safe demo_bytes demo_rand 200 demo_list demo_heap orders ∅ demo_three demo_turns s es
    H Ha Hf (proj2 demo_sk_ok) E) as (Hgo & Hapart).
  cbn [fmap option_fmap option_map fst snd] in Es. clear E. injection Es as Hbody Hfree.
  destruct (sk_threads s) as [|[] [|[] [|pc2 [|]]]] eqn:Eth; try done. simplify_eq/=.
  split; [by eapply (Hgo 0%nat); auto|]. do 4 eexists. split; [done|]. split; [done|]. intros p.
  exact (proj2 (Hapart 0%nat 1%nat _ _ _ _ _ _ p ltac:(done) eq_refl eq_refl)).
Defined.
